(* ===== verification/_CoqProject ===== *)
-Q . S2P
Prelude.v
Goroutines.v
GoLib.v
Json.v
Utf8.v
GoTime.v
Http.v
Proto.v
OrderPorts.v
OrderUsecase.v
OrderUsecaseFacts.v
OrderMem.v
OrderUsecaseProps.v
OrderRepo.v
OrderCache.v
PaymentClients.v
OrderInfra.v
OrderInfraMem.v
OrderHttp.v
OrderInfraProps.v
OrderStream.v
OrderStreamFacts.v
OrderStreamProps.v
Publisher.v
PaymentUsecase.v
PaymentProps.v
PaymentTransport.v
PaymentAdapters.v
Notify.v
NotifyProps.v
Worker.v
System.v
Messaging.v
Words.v
Shop.v
Watching.v
Recovery.v
Once.v
Senders.v
Startup.v
StreamClient.v
PaymentRest.v
Retry.v
Responses.v
Front.v
Shutdown.v
