(* ===== verification/Prelude.v ===== *)
(** * AP2 order / payment / notification services: a verification library

    Three Go services and a command-line client.  The order service (src/order-service)
    takes orders over HTTP, has them paid over gRPC, keeps them in PostgreSQL with a
    Redis cache, and streams status changes over gRPC.  The payment service
    (src/payment-service) decides payments, keeps them in PostgreSQL and publishes an
    event for each authorized one to RabbitMQ.  The notification service
    (src/notification-service) consumes these events and mails receipts, once each.
    The stream client (src/client) prints the updates of one order.

    ** How code is modelled

    A function that talks to the outside is a program ([prog], below): the tree of the
    calls it makes of its dependencies, each dependency being a type of calls ([portE],
    [pgE], [redisE], [httpE], [payE], [amqpE], [streamE], [hostE] ...).  A layer that
    implements another's calls is an [interp]retation of them, as the code composes
    objects.  What a dependency promises is an [interface]: a relation between a call,
    its answer and the visible state before and after.  [holds] and [gives] prove a
    program against an interface, [Refines] says that a concrete environment keeps it,
    and the theorems hold of every such environment; an executable one with scripted
    failures (…mem) shows that each interface can be kept and runs the witnesses.
    Errors are values with identity and wrapping (GoLib), int64 arithmetic wraps
    ([wrap64]), strings are bytes.  A panic is an outcome.

    Requests run one after the other ([run]), interleaved call by call ([pool],
    [run_schedule], with rely/guarantee and [Discipline] for invariants), or as
    goroutines that start others and block ([Goroutines]).

    ** The files

    - Prelude: programs, interfaces, interleavings, disciplines, int64.  Goroutines:
      goroutines over one memory.  GoLib, Json, GoTime, Http, Proto: what the code uses
      of the Go library, encoding/json (parser, printer, struct decoding), time, HTTP
      and the generated messages.  Utf8: what is decoded or trimmed is UTF-8.
    - OrderPorts, OrderUsecase, OrderUsecaseFacts, OrderUsecaseProps: domain, ports and
      use cases (internal/domain, internal/usecase), their outcomes and safety;
      OrderMem is their executable world.
    - OrderRepo, OrderCache, PaymentClients: the PostgreSQL repository, the Redis store,
      the gRPC and REST payment clients (internal/repository, infrastructure, adapter);
      OrderInfra composes them into the use cases' ports (main.go) and OrderInfraProps
      shows that the composition keeps the ports' promise; OrderInfraMem runs it.
    - OrderHttp: the HTTP handlers (internal/transport/http).
    - OrderStream, OrderStreamFacts, OrderStreamProps: the stream server
      (internal/transport/grpc/server.go), its slices over shared arrays as Go has them,
      refined to a map of lists.  StreamClient: the client (src/client), composed with
      the server.
    - Publisher: the payment service's RabbitMQ publisher and the broker's side of a
      publication (internal/infrastructure/rabbitmq): messages taken, refused or lost, and
      confirmations read in order by whoever waits next.  PaymentUsecase, PaymentProps:
      the use cases with this publisher, or none, as main composes them;
      PaymentTransport, PaymentAdapters: the transports and the repository.
    - PaymentRest: the REST client over the payment service's handlers.
    - System: order service, network and payment service together.  Retry: what a second
      request for an order can do.  Responses: the JSON types of the HTTP answers.
    - Notify, NotifyProps: the processor and its stores (internal/notify, postgres,
      redisnotify) and the answer to a delivery (main.go).  Senders: the two mail
      senders (internal/email).  Worker: the consuming loop, several workers, the
      queue, crashes and lost connections.  Messaging: payment service, broker and
      worker together: the JSON between them, and what they declare at the broker.
      Shutdown: the worker's main until a signal ends it.
    - Shop: order service, network, payment service, broker and workers together; Words:
      where the texts in their messages come from.  Watching: the shop and the order
      service's stream server, which reads the table that the shop writes.  Recovery: the
      shop once the failures have stopped.  Once: the right to announce an order, which
      saving its payment gives.  Front: the shop behind its HTTP handlers.
    - Startup: the configuration the three mains read and the order in which they
      connect, serve and stop.

    ** What is shown

    - Money: an order is Paid only if the payment service authorized its amount, one
      service ([paid_only_if_authorized]) and both with the network between them
      ([paid_orders_were_charged]); one payment per order, within the ceiling, announced
      at most once ([payments_consistent], [one_message_per_order]); every Paid order's
      receipt is on its way or mailed, and every mail is the receipt of an authorized
      payment ([purchases_are_receipted]), whatever bytes come in by HTTP
      ([http_purchases_are_receipted]); a subscriber is told Paid only of such an order
      ([subscribers_told_of_real_payments]), and no receipt waits for ever once the
      failures stop ([receipts_follow_recovery]).  These hold of a payment service that
      has its publisher, with two exceptions that the theorems name: the demonstration
      order of the dead-letter queue, and a payment whose message the broker refused or
      lost while the publisher took another message's acknowledgement for its own
      ([misled]; [paid_without_receipt] is such a run).  A retried idempotency key makes
      no second order ([retried_key_same_order]); terminal orders do not change under
      requests in sequence ([requests_preserve_orders]).
    - Messages: what one publication means ([publish_confirmed]): an error leaves open
      whether the broker took the message, and a success means that it did unless the
      acknowledgement of another one was waiting to be read.  What the publisher encodes
      the worker decodes ([event_read_back]), the two services agree on the broker
      ([services_agree_on_the_broker]), no message is
      lost or sent twice short of the failures the theorem names ([no_message_lost],
      [receipts_delivered], [redeliveries_send_nothing], [delivery_answers]), the
      request for the mail says what the event says ([mailjet_request_read_back]), a
      receipt is taken as sent only when its provider has taken it
      ([delivery_through_the_sender]), and a signalled worker ends ([worker_stops]).
    - The stream: clients are told only rows their order had
      ([stream_tells_the_truth]), a poll that runs alone has every subscriber of a changed
      order told ([poll_announces_changes]), the subscriber map is refined
      ([subscriber_map_refined]), the client prints what it is told and ends with the
      stream ([client_shows_rows], [client_ends_with_the_stream]).
    - Layers: the adapters of the order service and the payment service's repository keep
      the promises of their ports ([ports_refined], [payment_repository_promise]); REST is
      the use cases up to an error table ([rest_client_equivalent]); cached orders are read back
      ([cached_order_read_back]); handlers answer every request truthfully, with a JSON
      body of the status code's type ([order_responses_typed],
      [payment_responses_typed]).
    - Start-up: [configuration_makes_sense], [services_start_ready].
    - Where the code falls short, a theorem or an example shows the run:
      [charged_for_failed_order], [recorded_payment_never_pays],
      [cancel_overwrites_paid_order],
      [unreachable_payment_fails_order], [get_status_by_lookup],
      [failed_subscription_crashes_server], [first_change_can_be_missed],
      [removal_skips_a_subscriber], [stopped_server_waits_for_ever], [paid_without_receipt],
      [shutdown_waits_for_the_server], [unannounced_for_ever], [blank_email_charges],
      [mail_sent_twice], [confirmation_read_by_the_next], [ttl_overflow].

    ** Fuel and bounds

    Decimal printing has fuel for the digits of an int64 ([int64_fuel]); the JSON parser
    has twice the length of its input, and refuses nesting deeper than encoding/json does.
    Three loops of the code do not end by themselves: the stream server's poll
    ([monitor], [ticks]), the worker's consumption ([consume]) and the client's
    reception ([receive], [rounds]).  They take a number of rounds, the theorems hold for
    every number, and any finite run of the process is a run with enough of them; a loop
    that waits is one that is not scheduled, or at its head with no rounds left.  The
    retry loop of the processor is bounded by [MaxAttempts], as in the code.

    ** Not modelled

    - Third-party code is an argument or an interface with the behaviour its
      documentation gives: PostgreSQL and database/sql, Redis, RabbitMQ, gRPC's transport,
      gin's binding and routing, UUIDs, [timestamppb].  The generated messages are their
      fields and getters, and one unary call; descriptors and the wire format are not.
    - Time: deadlines and cancelled contexts are failures a call may have at any moment.
      Sleeping and latencies are calls that answer; how long they take is an argument.
    - Connection-pool sizes, HTTP server time-outs and log output have no model.  Once
      started, a server of a main is one call of [Startup]; what it serves is the
      subject of the other files, and the worker's end that of Shutdown.
    - Two goroutines that send on one gRPC stream at once: each send is one step.
    - The subscriber's object is allocated under the server's lock, one line later than
      in the code; nothing else can see it in between. *)

From stdpp Require Export base tactics option list gmap strings.
From Stdlib Require Export ZArith Lia.

Open Scope string_scope.
Open Scope Z_scope.

(** ** Programs

    A Go function that talks to the outside world is a tree of the calls it
    makes.  [E X] is the type of calls that return an [X]; [Panic] is a Go
    run-time panic. *)

Inductive prog (E : Type -> Type) (A : Type) : Type :=
| Ret (a : A)
| Panic (msg : string)
| Do {X : Type} (e : E X) (k : X -> prog E A).
Arguments Ret {E A} a.
Arguments Panic {E A} msg.
Arguments Do {E A X} e k.

Fixpoint prog_bind {E A B} (p : prog E A) (f : A -> prog E B) : prog E B :=
  match p with
  | Ret a => f a
  | Panic msg => Panic msg
  | Do e k => Do e (fun x => prog_bind (k x) f)
  end.

#[export] Instance prog_mret {E} : MRet (prog E) := fun A a => Ret a.
#[export] Instance prog_mbind {E} : MBind (prog E) :=
  fun A B f p => prog_bind p f.

Definition call {E X} (e : E X) : prog E X := Do e Ret.

(** What running a program gives: a value, or a crash. *)
Inductive outcome (A : Type) : Type :=
| Done (a : A)
| Panicked (msg : string).
Arguments Done {A} a.
Arguments Panicked {A} msg.

(** An environment answers every call and moves to its next state; what it does
    not show (failures to come, the network, the clock) is part of [W]. *)
Definition handler (E : Type -> Type) (W : Type) : Type :=
  forall X : Type, E X -> W -> outcome X * W.

Fixpoint run {E W A} (h : handler E W) (p : prog E A) (w : W) : outcome A * W :=
  match p with
  | Ret a => (Done a, w)
  | Panic msg => (Panicked msg, w)
  | Do e k =>
      match h _ e w with
      | (Done x, w') => run h (k x) w'
      | (Panicked msg, w') => (Panicked msg, w')
      end
  end.

(** Implementing the calls [E] of a component by programs over calls [F] of the
    components below it. *)
Fixpoint interp {E F A} (f : forall X : Type, E X -> prog F X) (p : prog E A) : prog F A :=
  match p with
  | Ret a => Ret a
  | Panic msg => Panic msg
  | Do e k => prog_bind (f _ e) (fun x => interp f (k x))
  end.

(** Calls of one dependency among those of several. *)
Fixpoint lift {E F A} (inj : forall X : Type, E X -> F X) (p : prog E A) : prog F A :=
  match p with
  | Ret a => Ret a
  | Panic msg => Panic msg
  | Do e k => Do (inj _ e) (fun x => lift inj (k x))
  end.

Definition implement {E F W} (h : handler F W) (f : forall X : Type, E X -> prog F X) :
    handler E W :=
  fun X e w => run h (f X e) w.

(** ** Interfaces

    [spec X e x v v'] is what an interface promises about the call [e]: the
    answer [x] and the change from the visible state [v] to [v'].  It is
    non-deterministic: every allowed answer has to be coped with. *)

Definition interface (E : Type -> Type) (V : Type) : Type :=
  forall X : Type, E X -> X -> V -> V -> Prop.

(** An environment keeps the promise. *)
Class Refines {E W V} (h : handler E W) (obs : W -> V) (spec : interface E V) : Prop :=
  refines : forall (X : Type) (e : E X) (w : W),
    exists x w', h X e w = (Done x, w') /\ spec X e x (obs w) (obs w').

(** [holds spec p Q v]: from the visible state [v], whatever answers the
    interface allows, [p] returns (it does not panic) and [Q] holds of what it
    returns and of the visible state it leaves. *)
Fixpoint holds {E V A} (spec : interface E V) (p : prog E A) (Q : A -> V -> Prop) (v : V) : Prop :=
  match p with
  | Ret a => Q a v
  | Panic _ => False
  | Do e k => forall x v', spec _ e x v v' -> holds spec (k x) Q v'
  end.

(** ** Interleaving

    Requests that are served at the same time are threads over one world; a
    step of the pool is one call of one thread.  A thread's panic takes the
    process down: [crashed]. *)
Record pool (E : Type -> Type) (W A : Type) := Pool {
  threads : list (prog E A);
  world : W;
  crashed : bool
}.
Arguments Pool {E W A} _ _ _.
Arguments threads {E W A} _.
Arguments world {E W A} _.
Arguments crashed {E W A} _.

Definition pool_step {E W A} (h : handler E W) (i : nat) (s : pool E W A) : pool E W A :=
  if crashed s then s else
  match threads s !! i with
  | Some (Do e k) =>
      match h _ e (world s) with
      | (Done x, w') =>
          Pool (<[i := k x]> (threads s)) w'
               (match k x with Panic _ => true | _ => false end)
      | (Panicked _, w') => Pool (threads s) w' true
      end
  | _ => s
  end.

Definition run_schedule {E W A} (h : handler E W) (sched : list nat) (s : pool E W A) : pool E W A :=
  fold_left (fun s i => pool_step h i s) sched s.

(** ** Rely and guarantee

    [rg spec I R G p v]: as long as the other threads keep the invariant [I] and
    change the visible state only as [R] allows, every call of [p] keeps [I] and
    changes it as [G] allows, and [p] does not panic. *)
Fixpoint rg {E V A} (spec : interface E V) (I : V -> Prop) (R G : V -> V -> Prop)
    (p : prog E A) (v : V) : Prop :=
  match p with
  | Ret _ => True
  | Panic _ => False
  | Do e k =>
      forall v1, R v v1 -> I v1 ->
      forall x v2, spec _ e x v1 v2 -> I v2 /\ G v1 v2 /\ rg spec I R G (k x) v2
  end.

(** ** int64 *)

Definition int64_min : Z := - 2 ^ 63.
Definition int64_max : Z := 2 ^ 63 - 1.
Definition in_int64 (z : Z) : Prop := int64_min <= z <= int64_max.
(** Two's complement wrap-around of Go's int64 arithmetic. *)
Definition wrap64 (z : Z) : Z := (z + 2 ^ 63) mod 2 ^ 64 - 2 ^ 63.

#[export] Instance in_int64_dec z : Decision (in_int64 z).
Proof. unfold in_int64. apply _. Defined.

(** ** Laws of programs *)

Lemma run_bind {E W A B} (h : handler E W) (p : prog E A) (f : A -> prog E B) w :
    run h (prog_bind p f) w =
    match run h p w with
    | (Done a, w') => run h (f a) w'
    | (Panicked msg, w') => (Panicked msg, w')
    end.
  Proof.
    revert w; induction p as [a|msg|X e k IH]; intros w; simpl; auto.
    destruct (h X e w) as [[x|msg] w']; auto.
  Qed.

Lemma run_call_bind {E W X B} (h : handler E W) (e : E X) (f : X -> prog E B) w :
  run h (call e ≫= f) w =
  match h X e w with
  | (Done x, w') => run h (f x) w'
  | (Panicked msg, w') => (Panicked msg, w')
  end.
Proof. reflexivity. Qed.

Lemma run_mret {E W A} (h : handler E W) (a : A) w : run h (mret a) w = (Done a, w).
Proof. reflexivity. Qed.

Lemma run_interp {E F W A} (h : handler F W) (f : forall X, E X -> prog F X) (p : prog E A) w :
    run h (interp f p) w = run (implement h f) p w.
  Proof.
    revert w; induction p as [a|msg|X e k IH]; intros w; simpl; auto.
    rewrite run_bind; unfold implement at 1.
    destruct (run h (f X e) w) as [[x|msg] w']; auto.
  Qed.

Lemma run_lift {E F W A} (h : handler F W) (inj : forall X, E X -> F X) (p : prog E A) w :
  run h (lift inj p) w = run (fun X e => h X (inj X e)) p w.
Proof.
  revert w; induction p as [a|msg|X e k IH]; intros w; simpl; auto.
  destruct (h X (inj X e) w) as [[x|msg] w']; auto.
Qed.

Section HoldsLaws.
Context {E : Type -> Type} {V : Type} (spec : interface E V).

Lemma holds_ret {A} (a : A) (Q : A -> V -> Prop) v : Q a v -> holds spec (mret a) Q v.
Proof. done. Qed.

Lemma holds_mono {A} (p : prog E A) (Q R : A -> V -> Prop) v :
  holds spec p Q v -> (forall a v', Q a v' -> R a v') -> holds spec p R v.
Proof.
  revert v; induction p as [a|msg|X e k IH]; simpl; eauto.
Qed.

Lemma holds_bind {A B} (p : prog E A) (f : A -> prog E B) (Q : B -> V -> Prop) v :
  holds spec p (fun a v' => holds spec (f a) Q v') v -> holds spec (p ≫= f) Q v.
Proof.
  unfold mbind, prog_mbind.
  revert v; induction p as [a|msg|X e k IH]; simpl; eauto.
Qed.

Lemma holds_call {X} (e : E X) (Q : X -> V -> Prop) v :
  (forall x v', spec X e x v v' -> Q x v') -> holds spec (call e) Q v.
Proof. done. Qed.

Lemma holds_and {A} (p : prog E A) (Q R : A -> V -> Prop) v :
  holds spec p Q v -> holds spec p R v -> holds spec p (fun a v' => Q a v' /\ R a v') v.
Proof. revert v; induction p as [a|msg|X e k IH]; simpl; eauto. Qed.

(** A program that copes with more answers copes with fewer. *)
Lemma holds_sub {A} (sub : interface E V) (p : prog E A) (Q : A -> V -> Prop) v :
  (forall X (e : E X) x v1 v2, sub X e x v1 v2 -> spec X e x v1 v2) ->
  holds spec p Q v -> holds sub p Q v.
Proof. intros Hs; revert v; induction p as [a|msg|X e k IH]; simpl; eauto. Qed.

(** The bridge from the interface to any environment that keeps it. *)
Lemma holds_run {W A} (h : handler E W) (obs : W -> V) `{!Refines h obs spec}
    (p : prog E A) (Q : A -> V -> Prop) (w : W) :
  holds spec p Q (obs w) ->
  exists a w', run h p w = (Done a, w') /\ Q a (obs w').
Proof.
  revert w; induction p as [a|msg|X e k IH]; intros w; simpl; [eauto|done|].
  intros Hk. destruct (refines X e w) as (x & w' & -> & Hx). eauto.
Qed.

(** An invariant of every call is an invariant of every program ... *)
Lemma holds_inv {A} (I : V -> Prop) (p : prog E A) (Q : A -> V -> Prop) v :
  (forall X (e : E X) x v1 v2, spec X e x v1 v2 -> I v1 -> I v2) ->
  I v -> holds spec p Q v -> holds spec p (fun a v' => Q a v' /\ I v') v.
Proof.
  intros HI; revert v; induction p as [a|msg|X e k IH]; simpl; eauto.
Qed.

(** ... and of every interleaving of programs. *)
Lemma pool_inv {W A} (h : handler E W) (obs : W -> V) `{!Refines h obs spec}
    (I : V -> Prop) (sched : list nat) (s : pool E W A) :
  (forall X (e : E X) x v1 v2, spec X e x v1 v2 -> I v1 -> I v2) ->
  I (obs (world s)) -> I (obs (world (run_schedule h sched s))).
Proof.
  intros HI; revert s; induction sched as [|i sched IH]; intros s Hs; simpl; [done|].
  apply IH. unfold pool_step. destruct (crashed s); [done|].
  destruct (threads s !! i) as [[a|msg|X e k]|]; try done.
  destruct (refines X e (world s)) as (x & w' & -> & Hx); simpl; eauto.
Qed.
End HoldsLaws.

(** A promise over a finer state is one over what can be seen of it. *)
Lemma holds_map {E U V A} (fine : interface E U) (spec : interface E V) (f : U -> V) :
  (forall X (e : E X) x u u', fine X e x u u' -> spec X e x (f u) (f u')) ->
  forall (p : prog E A) (Q : A -> V -> Prop) u,
  holds spec p Q (f u) -> holds fine p (fun a u' => Q a (f u')) u.
Proof. intros Hf p; induction p as [a|msg|X e k IH]; simpl; eauto. Qed.

Section RelyGuarantee.
Context {E : Type -> Type} {V : Type} (spec : interface E V).
Context (I : V -> Prop) (R G : V -> V -> Prop).
Context (Rrefl : forall v, R v v) (Rtrans : forall u v w, R u v -> R v w -> R u w).
Context (GR : forall v v', G v v' -> R v v').

Lemma rg_stable {A} (p : prog E A) v v' : R v v' -> rg spec I R G p v -> rg spec I R G p v'.
Proof using Rtrans. destruct p; simpl; eauto. Qed.

Lemma rg_bind {A B} (p : prog E A) (f : A -> prog E B) v :
  rg spec I R G p v -> (forall a v', rg spec I R G (f a) v') -> rg spec I R G (p ≫= f) v.
Proof.
  unfold mbind, prog_mbind. intros Hp Hf. revert v Hp.
  induction p as [a|msg|X e k IH]; simpl; intros v Hp; [auto|done|].
  intros v1 HR HI x v2 Hs. destruct (Hp v1 HR HI x v2 Hs) as (? & ? & ?). auto.
Qed.

(** Threads that guarantee what the others rely on keep the invariant under
    every schedule, and none of them panics. *)
Lemma pool_rg {W A} (h : handler E W) (obs : W -> V) `{!Refines h obs spec}
    (sched : list nat) (s : pool E W A) :
  crashed s = false -> I (obs (world s)) ->
  Forall (fun p => rg spec I R G p (obs (world s))) (threads s) ->
  let s' := run_schedule h sched s in
  crashed s' = false /\ I (obs (world s')) /\ R (obs (world s)) (obs (world s')) /\
  Forall (fun p => rg spec I R G p (obs (world s'))) (threads s').
Proof using Rrefl Rtrans GR.
  revert s; induction sched as [|i sched IH]; intros s Hc HI Hall; simpl; [auto|].
  assert (crashed (pool_step h i s) = false /\ I (obs (world (pool_step h i s))) /\
    R (obs (world s)) (obs (world (pool_step h i s))) /\
    Forall (fun p => rg spec I R G p (obs (world (pool_step h i s)))) (threads (pool_step h i s)))
    as (Hc' & HI' & HR' & Hall').
  2: { destruct (IH _ Hc' HI' Hall') as (? & ? & ? & ?). eauto 6. }
  unfold pool_step. rewrite Hc.
  destruct (threads s !! i) as [[a|msg|X e k]|] eqn:Hi; try by auto.
  destruct (refines X e (world s)) as (x & w' & -> & Hx); simpl.
  pose proof (Forall_lookup_1 _ _ _ _ Hall Hi) as Hp. simpl in Hp.
  destruct (Hp _ (Rrefl _) HI _ _ Hx) as (HI' & HG & Hk).
  split_and!; [by destruct (k x)|done|by apply GR|].
  apply Forall_insert; [|done]. eapply Forall_impl; [exact Hall|].
  intros q Hq. apply (rg_stable q (obs (world s))); [by apply GR|done].
Qed.
End RelyGuarantee.

(** A program over one dependency, whose state [get v] is a part of the whole. *)
Section Lift.
Context {E F : Type -> Type} {U V : Type} (inj : forall X : Type, E X -> F X).
Context (get : V -> U) (put : U -> V -> V) (part : interface E U) (whole : interface F V).
Context (put_get : forall v, put (get v) v = v) (get_put : forall u v, get (put u v) = u).
Context (put_put : forall u u' v, put u (put u' v) = put u v).
Context (inj_spec : forall X (e : E X) x v v', whole X (inj X e) x v v' ->
           exists u', part X e x (get v) u' /\ v' = put u' v).

Lemma holds_lift {A} (p : prog E A) (Q : A -> U -> Prop) (R : A -> V -> Prop) v :
  holds part p Q (get v) -> (forall a u, Q a u -> R a (put u v)) -> holds whole (lift inj p) R v.
Proof using put_get get_put put_put inj_spec.
  revert v; induction p as [a|msg|X e k IH]; simpl; intros v Hp HR; [|done|].
  { rewrite <-(put_get v). by apply HR. }
  intros x v' (u' & Hs & ->)%inj_spec. apply IH; [rewrite get_put; by apply Hp|].
  intros a u Hq. rewrite put_put. by apply HR.
Qed.
End Lift.

(** *** Disciplines

    A common use of [rg]: an invariant [I] and a relation [R] that every call
    keeps as long as each thread makes a call only when it may. *)
Class Discipline {E : Type -> Type} {V : Type} (spec : interface E V) (I : V -> Prop)
    (R : V -> V -> Prop) (may : forall X : Type, E X -> V -> Prop) : Prop := {
  dis_refl : forall v, R v v;
  dis_trans : forall u v w, R u v -> R v w -> R u w;
  dis_step : forall (X : Type) (e : E X) x v1 v2,
    spec X e x v1 v2 -> may X e v1 -> I v1 -> I v2 /\ R v1 v2
}.

Section Threads.
Context {E : Type -> Type} {V : Type} (spec : interface E V) (I : V -> Prop) (R : V -> V -> Prop)
  (may : forall X : Type, E X -> V -> Prop) `{!Discipline spec I R may}.

(** Whatever the others do, the thread makes only calls it may make. *)
Definition thread_ok {A} (p : prog E A) (v : V) : Prop := rg spec I R R p v.

Lemma thread_call {X A} (e : E X) (k : X -> prog E A) v :
  (forall v1, R v v1 -> I v1 -> may X e v1) ->
  (forall x v1 v2, R v v1 -> R v1 v2 -> R v v2 -> I v1 -> spec X e x v1 v2 -> thread_ok (k x) v2) ->
  thread_ok (call e ≫= k) v.
Proof.
  intros HM Hk. change (thread_ok (Do e k) v). intros v1 HR HI x v2 Hs.
  destruct (dis_step X e x v1 v2 Hs (HM _ HR HI) HI) as [HI2 HR2].
  split_and!; [done..|].
  exact (Hk x v1 v2 HR HR2 (dis_trans v v1 v2 HR HR2) HI Hs).
Qed.

Lemma thread_ret {A} (a : A) v : thread_ok (mret a) v.
Proof. done. Qed.

Lemma thread_bind {A B} (p : prog E A) (f : A -> prog E B) v :
  thread_ok p v -> (forall a v', thread_ok (f a) v') -> thread_ok (p ≫= f) v.
Proof. apply rg_bind. Qed.

Lemma thread_last {X} (e : E X) v :
  (forall v1, R v v1 -> I v1 -> may X e v1) -> thread_ok (call e) v.
Proof.
  intros HM v1 HR HI x v2 Hs.
  destruct (dis_step X e x v1 v2 Hs (HM _ HR HI) HI) as [HI2 HR2]. done.
Qed.

(** Disciplined threads, under every schedule: nothing panics, [I] holds at every
    moment. *)
Lemma pool_threads {W A} (h : handler E W) (obs : W -> V) `{!Refines h obs spec}
    (sched : list nat) (ps : list (prog E A)) (w : W) :
  I (obs w) -> (forall p, p ∈ ps -> thread_ok p (obs w)) ->
  let s := run_schedule h sched (Pool ps w false) in
  crashed s = false /\ I (obs (world s)) /\ R (obs w) (obs (world s)).
Proof.
  intros HI Hps s.
  destruct (pool_rg spec I R R dis_refl dis_trans (fun v v' H => H) h obs sched (Pool ps w false))
    as (Hc & HI' & HR & _); [done|done|by apply Forall_forall|done].
Qed.
End Threads.

(** *** Results of disciplined threads

    [gives p Q v]: besides being disciplined, the thread ends with an answer and a
    state that satisfy [Q], whatever the others do in between. *)
Section Gives.
Context {E : Type -> Type} {V : Type} (spec : interface E V) (I : V -> Prop) (R : V -> V -> Prop)
  (may : forall X : Type, E X -> V -> Prop) `{!Discipline spec I R may}.

Fixpoint gives {A} (p : prog E A) (Q : A -> V -> Prop) (v : V) : Prop :=
  match p with
  | Ret a => Q a v
  | Panic _ => False
  | Do e k =>
      forall v1, R v v1 -> I v1 ->
      may _ e v1 /\
      forall x v2, spec _ e x v1 v2 -> I v2 -> R v1 v2 -> gives (k x) Q v2
  end.

Lemma gives_ok {A} (p : prog E A) Q v : gives p Q v -> thread_ok spec I R p v.
Proof.
  revert v; induction p as [a|msg|X e k IH]; intros v; simpl; [done|done|].
  intros Hp v1 HR HI x v2 Hs. destruct (Hp v1 HR HI) as [Hmay Hk].
  destruct (dis_step X e x v1 v2 Hs Hmay HI) as [HI2 HR2]. split_and!; [done..|].
  by apply IH, Hk.
Qed.

(** Alone, a disciplined thread gives what it gives. *)
Lemma gives_holds {A} (p : prog E A) Q v : I v -> gives p Q v -> holds spec p (fun a v' => Q a v' /\ I v' /\ R v v') v.
Proof using Discipline0.
  intros HI Hp. cut (forall u, R u v -> holds spec p (fun a v' => Q a v' /\ I v' /\ R u v') v).
  { intros H. apply H, dis_refl. }
  revert v HI Hp; induction p as [a|msg|X e k IH]; intros v HI Hp u Hu; simpl; [done|done|].
  intros x v' Hs. destruct (Hp v (dis_refl v) HI) as [Hmay Hk].
  destruct (dis_step X e x v v' Hs Hmay HI) as [HI' HR]. apply IH; [done|by apply Hk|by eapply dis_trans].
Qed.

Lemma gives_ret {A} (a : A) (Q : A -> V -> Prop) v : Q a v -> gives (mret a) Q v.
Proof. done. Qed.

Lemma gives_call {X A} (e : E X) (k : X -> prog E A) Q v :
  (forall v1, R v v1 -> I v1 -> may X e v1) ->
  (forall x v1 v2, R v v1 -> R v1 v2 -> R v v2 -> I v1 -> I v2 -> spec X e x v1 v2 -> gives (k x) Q v2) ->
  gives (call e ≫= k) Q v.
Proof using Discipline0.
  intros HM Hk v1 HR HI. split; [by apply HM|]. intros x v2 Hs HI2 HR2.
  apply (Hk x v1 v2); try done. exact (dis_trans v v1 v2 HR HR2).
Qed.

Lemma gives_last {X} (e : E X) (Q : X -> V -> Prop) v :
  (forall v1, R v v1 -> I v1 -> may X e v1) ->
  (forall x v1 v2, R v v1 -> R v1 v2 -> I v1 -> I v2 -> spec X e x v1 v2 -> Q x v2) ->
  gives (call e) Q v.
Proof. intros HM Hk v1 HR HI. split; [by apply HM|]. intros x v2 Hs HI2 HR2. by apply (Hk x v1 v2). Qed.

Lemma gives_mono {A} (p : prog E A) (P Q : A -> V -> Prop) v :
  gives p P v -> (forall a v1, R v v1 -> P a v1 -> Q a v1) -> gives p Q v.
Proof using Discipline0.
  revert v; induction p as [a|msg|X e k IH]; intros v; simpl; [|done|].
  - intros HP HQ. apply HQ; [by apply dis_refl|done].
  - intros Hp HQ v1 HR HI. destruct (Hp v1 HR HI) as [Hmay Hk]. split; [done|]. intros x v2 Hs HI2 HR2.
    apply IH; [by apply Hk|]. intros a v3 HR3. apply HQ.
    eapply dis_trans; [exact HR|]. by eapply dis_trans.
Qed.

Lemma gives_reach {A} (p : prog E A) (Q : A -> V -> Prop) v :
  I v -> gives p Q v -> gives p (fun a v' => I v' /\ R v v' /\ Q a v') v.
Proof using Discipline0.
  revert v; induction p as [a|msg|X e k IH]; intros v HI Hp; [|done|].
  - split_and!; [done|apply dis_refl|done].
  - intros v1 HR1 HI1. destruct (Hp v1 HR1 HI1) as [Hmay Hk]. split; [done|].
    intros x v2 Hs HI2 HR2. eapply gives_mono; [by apply IH, Hk|].
    intros a v3 _ (? & ? & ?). split_and!; try done.
    eapply dis_trans; [exact HR1|]. by eapply dis_trans.
Qed.

Lemma gives_bind {A B} (p : prog E A) (f : A -> prog E B) (P : A -> V -> Prop) Q v :
  gives p P v -> (forall a v1, R v v1 -> P a v1 -> gives (f a) Q v1) -> gives (p ≫= f) Q v.
Proof using Discipline0.
  unfold mbind, prog_mbind. revert v; induction p as [a|msg|X e k IH]; intros v Hp Hf; [|done|].
  - change (gives (f a) Q v). apply Hf; [by apply dis_refl|done].
  - change (gives (Do e (fun x => prog_bind (k x) f)) Q v). intros v1 HR HI.
    destruct (Hp v1 HR HI) as [Hmay Hk]. split; [done|]. intros x v2 Hs HI2 HR2.
    apply (IH x v2); [by apply Hk|]. intros a v3 HR3. apply Hf.
    eapply dis_trans; [exact HR|]. by eapply dis_trans.
Qed.

Lemma gives_stable {A} (p : prog E A) (Q : A -> V -> Prop) v v' :
  (forall a u u', R u u' -> Q a u -> Q a u') -> R v v' -> gives p Q v -> gives p Q v'.
Proof using Discipline0.
  intros HQ HR. destruct p as [a|msg|X e k]; simpl; [by apply HQ|done|].
  intros Hp v1 HR1. apply Hp. by eapply dis_trans.
Qed.

(** Under every schedule, a thread that has ended did so with its answer. *)
Lemma pool_gives {W A} (h : handler E W) (obs : W -> V) `{!Refines h obs spec}
    (Q : nat -> A -> V -> Prop) (sched : list nat) (ps : list (prog E A)) (w : W) :
  (forall i a v v', R v v' -> Q i a v -> Q i a v') ->
  I (obs w) -> (forall i p, ps !! i = Some p -> gives p (Q i) (obs w)) ->
  let s := run_schedule h sched (Pool ps w false) in
  crashed s = false /\ I (obs (world s)) /\ R (obs w) (obs (world s)) /\
  (forall i p, threads s !! i = Some p -> gives p (Q i) (obs (world s))).
Proof using Discipline0.
  intros HQ. unfold run_schedule. revert ps w. induction sched as [|i sched IH]; intros ps w HI Hps.
  { split_and!; [done|done|by apply dis_refl|done]. }
  cbn [fold_left].
  assert (exists ps' w', pool_step h i (Pool ps w false) = Pool ps' w' false /\ I (obs w') /\
    R (obs w) (obs w') /\ forall j p, ps' !! j = Some p -> gives p (Q j) (obs w'))
    as (ps' & w' & -> & HI' & HR & Hps').
  2: { destruct (IH ps' w' HI' Hps') as (? & ? & ? & ?). split_and!; try done. by eapply dis_trans. }
  unfold pool_step. cbn [crashed threads world].
  destruct (ps !! i) as [[a|msg|X e k]|] eqn:Hi; 
    try by (exists ps, w; split_and!; [done|done|apply dis_refl|done]).
  destruct (Hps i _ Hi (obs w) (dis_refl _) HI) as [Hmay Hk].
  destruct (refines X e w) as (x & w' & -> & Hx).
  destruct (dis_step X e x _ _ Hx Hmay HI) as [HI' HR]. specialize (Hk x _ Hx HI' HR).
  exists (<[i := k x]> ps), w'. split_and!; [by destruct (k x)|done|done|].
  intros j p [(<- & <- & _)|[_ Hj]]%list_lookup_insert_Some; [done|].
  apply (gives_stable _ _ (obs w)); [by intros; eapply HQ|done|by apply Hps].
Qed.
End Gives.

(** A component's calls carried out by programs over those below it: the client is
    followed against what each of these programs gives ([post]). *)
Section InterpGives.
Context {E F : Type -> Type} {V : Type} (f : forall X : Type, E X -> prog F X).
Context (spec : interface F V) (post : interface E V) (I : V -> Prop) (R : V -> V -> Prop).
Context (may : forall X : Type, F X -> V -> Prop) (pre : forall X : Type, E X -> V -> Prop).
Context `{!Discipline spec I R may}.
Context (calls : forall X (e : E X) v, I v -> pre X e v ->
           gives spec I R may (f X e) (fun x v' => post X e x v v' /\ I v') v).

Lemma gives_interp {A} (p : prog E A) (Q : A -> V -> Prop) v :
  I v -> gives post I R pre p Q v -> gives spec I R may (interp f p) Q v.
Proof using calls Discipline0.
  revert v; induction p as [a|msg|X e k IH]; intros v HI Hp; [done|done|].
  destruct (Hp v (dis_refl v) HI) as [Hpre Hk]. cbn [interp].
  change (gives spec I R may (f X e ≫= fun x => interp f (k x)) Q v).
  eapply gives_bind; [apply _|by apply calls|]. intros x v1 HR [Hpost HI1]. apply IH; [done|].
  by apply Hk.
Qed.
End InterpGives.

(** A disciplined program over one dependency is disciplined among the others. *)
Section LiftGives.
Context {E F : Type -> Type} {U V : Type} (inj : forall X : Type, E X -> F X) (get : V -> U).
Context (part : interface E U) (whole : interface F V).
Context (I : U -> Prop) (R : U -> U -> Prop) (may : forall X : Type, E X -> U -> Prop).
Context (I' : V -> Prop) (R' : V -> V -> Prop) (may' : forall X : Type, F X -> V -> Prop).
Context (I_part : forall v, I' v -> I (get v)) (R_part : forall v v', R' v v' -> R (get v) (get v')).
Context (may_whole : forall X (e : E X) v, may X e (get v) -> may' X (inj X e) v).
Context (inj_spec : forall X (e : E X) x v v', whole X (inj X e) x v v' -> part X e x (get v) (get v')).

Lemma gives_lift {A} (p : prog E A) (Q : A -> U -> Prop) v :
  gives part I R may p Q (get v) ->
  gives whole I' R' may' (lift inj p) (fun a v' => Q a (get v')) v.
Proof using I_part R_part may_whole inj_spec.
  revert v; induction p as [a|msg|X e k IH]; intros v; simpl; [done|done|].
  intros Hp v1 HR HI. destruct (Hp (get v1) (R_part _ _ HR) (I_part _ HI)) as [Hmay Hk].
  split; [by apply may_whole|]. intros x v2 Hs HI2 HR2. apply IH. apply Hk; auto.
Qed.
End LiftGives.

(** What is given under two disciplines is given under both at once. *)
Lemma gives_and {E : Type -> Type} {V A : Type} (spec : interface E V) (I J : V -> Prop) (R S : V -> V -> Prop)
    (may can : forall X : Type, E X -> V -> Prop) (p : prog E A) (P Q : A -> V -> Prop) v :
  gives spec I R may p P v -> gives spec J S can p Q v ->
  gives spec (fun v => I v /\ J v) (fun v v' => R v v' /\ S v v') (fun X e v => may X e v /\ can X e v) p
    (fun a v => P a v /\ Q a v) v.
Proof.
  revert v; induction p as [a|msg|X e k IH]; intros v Hp Hq; [by split|done|].
  intros v1 [HR HS] [HI HJ]. destruct (Hp v1 HR HI) as [Hm Hp']. destruct (Hq v1 HS HJ) as [Hc Hq'].
  split; [done|]. intros x v2 Hs [? ?] [? ?]. apply IH; [by apply Hp'|by apply Hq'].
Qed.

(** A component implemented over the one below it keeps its own interface as
    soon as each of its operations does. *)
Lemma implement_refines {E F W V U} (h : handler F W) (obs : W -> U) (abs : U -> V)
    (f : forall X, E X -> prog F X) (low : interface F U) (high : interface E V)
    `{!Refines h obs low} :
  (forall X (e : E X) u,
      holds low (f X e) (fun x u' => high X e x (abs u) (abs u')) u) ->
  Refines (implement h f) (fun w => abs (obs w)) high.
Proof.
  intros Hf X e w. unfold implement.
  destruct (holds_run low h obs (f X e) _ w (Hf X e (obs w))) as (x & w' & -> & Hx).
  eauto.
Qed.

(** ** int64 lemmas *)

Lemma wrap64_in z : in_int64 (wrap64 z).
Proof.
  unfold in_int64, wrap64, int64_min, int64_max.
  pose proof (Z.mod_pos_bound (z + 2 ^ 63) (2 ^ 64) ltac:(lia)). lia.
Qed.

Lemma wrap64_id z : in_int64 z -> wrap64 z = z.
Proof.
  unfold in_int64, wrap64, int64_min, int64_max; intros.
  rewrite Z.mod_small; lia.
Qed.

(** ** Automation *)

#[global] Arguments holds : simpl never.
#[global] Arguments rg : simpl never.
#[global] Arguments thread_ok : simpl never.
#[global] Arguments gives : simpl never.
#[global] Arguments call : simpl never.
#[global] Arguments prog_bind : simpl never.

Create HintDb holds_db.
#[export] Hint Resolve holds_ret : holds_db.

(** Take a disjunctive promise apart. *)
Ltac promise H :=
  simpl in H;
  repeat match goal with
  | H : exists _, _ |- _ => destruct H as [? H]
  | H : _ /\ _ |- _ => destruct H
  | H : _ \/ _ |- _ => destruct H
  | H : (_, _) = (_, _) |- _ => injection H as H
  end; subst; cbv beta iota.

(** Follow a thread to its ends; what is left are the calls it may not always
    make. *)
Ltac follow :=
  repeat match goal with
  | |- thread_ok _ _ _ (mret _) _ => apply thread_ret
  | |- thread_ok _ _ _ (call _ ≫= _) _ =>
      eapply thread_call; [apply _|intros ? ? ?; try exact Logic.I|intros ? ? ? ? ? ? ? ?]
  | |- thread_ok _ _ _ (call _) _ =>
      eapply thread_last; [apply _|intros ? ? ?; try exact Logic.I]
  | |- thread_ok _ _ _ (_ ≫= _) _ => apply thread_bind; [|intros]
  | |- thread_ok _ _ _ (match ?x with _ => _ end) _ => destruct x eqn:?
  | |- thread_ok _ _ _ _ _ => progress cbv beta iota
  end.

(** The same for [gives]; what is left are also the results. *)
Ltac follow_gives :=
  repeat match goal with
  | |- gives _ _ _ _ (mret _) _ _ => apply gives_ret
  | |- gives _ _ _ _ (call _ ≫= _) _ _ =>
      eapply gives_call; [apply _|intros ? ? ?; try exact Logic.I|intros ? ? ? ? ? ? ? ? ?]
  | |- gives _ _ _ _ (call _) _ _ =>
      eapply gives_last; [intros ? ? ?; try exact Logic.I|intros ? ? ? ? ? ? ? ?]
  | |- gives _ _ _ _ (match ?x with _ => _ end) _ _ => destruct x eqn:?
  | |- gives _ _ _ _ _ _ _ => progress cbv beta iota
  end.

(** Case analysis of the value a program branches on. *)
Ltac hcase :=
  match goal with
  | |- holds _ (match ?x with _ => _ end) _ _ => destruct x eqn:?
  end.

(** Run a program to its ends: every call's promise is taken apart, every branch
    is followed. *)
Ltac hrun :=
  repeat first
  [ match goal with
    | |- holds _ (_ ≫= _) _ _ => apply holds_bind
    | |- holds _ (mret _) _ _ => apply holds_ret
    | |- holds _ (call _) _ _ =>
        apply holds_call;
        let x := fresh "x" in let v := fresh "v" in let H := fresh "Hspec" in
        intros x v H; promise H
    end
  | hcase
  | progress cbv beta iota ].
