(* ===== verification/Goroutines.v ===== *)
(** * Goroutines

    A pool of goroutines over one memory, for code that starts goroutines and
    waits on channels: a call answers, blocks or crashes the process, and may
    start goroutines.  Steps of the pool are calls of its goroutines and arrivals
    from outside (a request, another process's write).  [pool_disciplined] carries
    a discipline (Prelude) over to every sequence of such steps. *)

From S2P Require Import Prelude.

Inductive reply (W X : Type) : Type :=
| Answer (x : X) (w : W)
| Block
| Crash (msg : string).
Arguments Answer {W X} x w.
Arguments Block {W X}.
Arguments Crash {W X} msg.

Record gpool (E : Type -> Type) (W A : Type) := GPool {
  goroutines : list (prog E A);
  memory : W;
  crash : option string
}.
Arguments GPool {E W A} _ _ _.
Arguments goroutines {E W A} _.
Arguments memory {E W A} _.
Arguments crash {E W A} _.

(** [Run i l]: goroutine [i] makes its next call, with the luck [l] (what the
    scheduler, the network and the clock decide). *)
Inductive event (L X : Type) : Type :=
| Run (i : nat) (l : L)
| Arrive (x : X).
Arguments Run {L X} i l.
Arguments Arrive {L X} x.

Section Goroutines.
Context {E : Type -> Type} {W A L X : Type}.
Context (exec : forall T : Type, E T -> L -> W -> reply W T).
Context (started : forall T : Type, E T -> list (prog E A)).
Context (arrive : X -> W -> W * list (prog E A)).

Definition go_step (ev : event L X) (s : gpool E W A) : gpool E W A :=
  if crash s then s else
  match ev with
  | Arrive x =>
      let '(w, ps) := arrive x (memory s) in GPool (goroutines s ++ ps)%list w None
  | Run i l =>
      let next : option (prog E A) := goroutines s !! i in
      match next with
      | Some (Do e k) =>
          match exec _ e l (memory s) with
          | Answer x w =>
              GPool (<[i := k x]> (goroutines s) ++ started _ e)%list w
                    (match k x with Panic msg => Some msg | _ => None end)
          | Block => s
          | Crash msg => GPool (goroutines s) (memory s) (Some msg)
          end
      | _ => s
      end
  end.

Definition play (evs : list (event L X)) (s : gpool E W A) : gpool E W A :=
  fold_left (fun s ev => go_step ev s) evs s.

(** One step of a goroutine. *)
Lemma go_step_run {T} i l (e : E T) (k : T -> prog E A) x w s :
  crash s = None -> goroutines s !! i = Some (Do e k) -> exec T e l (memory s) = Answer x w ->
  (forall msg, k x <> Panic msg) ->
  go_step (Run i l) s = GPool (<[i := k x]> (goroutines s) ++ started T e)%list w None.
Proof.
  intros Hc Hi Hx Hk. unfold go_step. rewrite Hc, Hi, Hx. f_equal. destruct (k x); [done| |done]. by destruct (Hk msg).
Qed.

Lemma play_app evs1 evs2 s : play (evs1 ++ evs2)%list s = play evs2 (play evs1 s).
Proof. apply fold_left_app. Qed.

(** What the calls do, as an interface. *)
Definition exec_spec : interface E W := fun T e x w w' => exists l, exec T e l w = Answer x w'.

(** ** Disciplined pools

    An invariant [I] of the memory and a relation [R] between its states over
    time, kept by every call that is made when it may be ([Discipline]).  The
    memory includes what the proofs remember of the past. *)
Section Disciplined.
Context (I : W -> Prop) (R : W -> W -> Prop) (may : forall T : Type, E T -> W -> Prop).
Context `{!Discipline exec_spec I R may}.

(** Whatever the others do, the goroutine makes only calls it may make, and does
    not panic by itself. *)
Fixpoint lawful {B} (p : prog E B) (w : W) : Prop :=
  match p with
  | Ret _ => True
  | Panic _ => False
  | Do e k =>
      forall w1, R w w1 -> I w1 ->
      may _ e w1 /\ forall l x w2, exec _ e l w1 = Answer x w2 -> lawful (k x) w2
  end.

Lemma lawful_stable {B} (p : prog E B) w w' : R w w' -> lawful p w -> lawful p w'.
Proof. destruct p; simpl; [done..|]. intros HR Hp w1 HR1. apply Hp. by eapply dis_trans. Qed.

Lemma lawful_call {T B} (e : E T) (k : T -> prog E B) w :
  (forall w1, R w w1 -> I w1 -> may T e w1) ->
  (forall l x w1 w2, R w w1 -> I w1 -> exec T e l w1 = Answer x w2 -> I w2 -> R w1 w2 -> R w w2 ->
     lawful (k x) w2) ->
  lawful (call e ≫= k) w.
Proof.
  intros Hmay Hk w1 HR HI. split; [by apply Hmay|]. intros l x w2 Hx.
  destruct (dis_step T e x w1 w2 (ex_intro _ l Hx) (Hmay _ HR HI) HI) as [HI2 HR2].
  by apply (Hk l x w1 w2 HR HI Hx HI2 HR2); eapply dis_trans.
Qed.

Lemma lawful_assoc {T B C} (e : E T) (k : T -> prog E B) (f : B -> prog E C) w :
  lawful (call e ≫= (fun x => k x ≫= f)) w -> lawful ((call e ≫= k) ≫= f) w.
Proof. done. Qed.

Lemma lawful_last {T} (e : E T) w :
  (forall w1, R w w1 -> I w1 -> may T e w1) -> lawful (call e) w.
Proof. intros Hmay w1 HR HI. split; [by apply Hmay|done]. Qed.

Lemma lawful_bind {B C} (p : prog E B) (f : B -> prog E C) w :
  lawful p w -> (forall a w', R w w' -> lawful (f a) w') -> lawful (p ≫= f) w.
Proof.
  unfold mbind, prog_mbind. revert w; induction p as [a|msg|T e k IH]; intros w Hp Hf; simpl in *.
  - by apply Hf, dis_refl.
  - done.
  - intros w1 HR HI. destruct (Hp w1 HR HI) as [Hmay Hk]. split; [done|]. intros l x w2 Hx.
    destruct (dis_step T e x w1 w2 (ex_intro _ l Hx) Hmay HI) as [_ HR2].
    apply (IH x w2); [by eapply Hk|]. intros a w' ?. apply Hf.
    eapply dis_trans; [exact HR|]. by eapply dis_trans.
Qed.

Context (fatal : string -> Prop).
Context (crash_fatal : forall T (e : E T) l w msg, I w -> may T e w ->
           exec T e l w = Crash msg -> fatal msg).
Context (started_ok : forall T (e : E T) l x w w', I w -> may T e w -> exec T e l w = Answer x w' ->
           forall p, p ∈ started T e -> lawful p w').
Context (arrive_ok : forall x w w' ps, I w -> arrive x w = (w', ps) ->
           I w' /\ R w w' /\ forall p, p ∈ ps -> lawful p w').

Record good (s : gpool E W A) : Prop := {
  good_memory : I (memory s);
  good_crash : forall msg, crash s = Some msg -> fatal msg;
  good_goroutines : forall p, p ∈ goroutines s -> lawful p (memory s)
}.

Lemma go_step_good ev s : good s -> good (go_step ev s) /\ R (memory s) (memory (go_step ev s)).
Proof using All.
  intros [HI Hc Hall]. unfold go_step. destruct (crash s) as [m|] eqn:Ecrash.
  { split; [|apply dis_refl]. split; [done| |done]. rewrite Ecrash. apply Hc. }
  destruct ev as [i l|x].
  - destruct (goroutines s !! i) as [[a|m|T e k]|] eqn:Hi;
      try by (split; [split; rewrite ?Ecrash|apply dis_refl]).
    pose proof (Hall _ (list_elem_of_lookup_2 _ _ _ Hi)) as Hp. simpl in Hp.
    destruct (Hp _ (dis_refl _) HI) as [Hmay Hk].
    destruct (exec T e l (memory s)) as [x w|  |m] eqn:Hx; simpl.
    + destruct (dis_step T e x _ w (ex_intro _ l Hx) Hmay HI) as [HI2 HR2].
      specialize (Hk _ _ _ Hx). split; [|done]. split; simpl; [done|by destruct (k x)|].
      intros p [[j Hj]%list_elem_of_lookup|Hs]%elem_of_app.
      * apply list_lookup_insert_Some in Hj as [(_ & <- & _)|(_ & Hj)]; [done|].
        apply list_elem_of_lookup_2, Hall in Hj. by eapply lawful_stable.
      * by eapply (started_ok T e l x (memory s) w HI Hmay Hx).
    + split; [split; rewrite ?Ecrash|apply dis_refl]; done.
    + split; [|apply dis_refl]. split; simpl; [done| |done]. intros ? [= <-]. eauto.
  - destruct (arrive x (memory s)) as [w ps] eqn:Ha. simpl.
    destruct (arrive_ok _ _ _ _ HI Ha) as (HI2 & HR2 & Hps). split; [|done].
    split; simpl; [done|done|]. intros p [Hp%Hall|Hp]%elem_of_app; [|by apply Hps].
    by eapply lawful_stable.
Qed.

Theorem pool_disciplined evs s :
  good s -> good (play evs s) /\ R (memory s) (memory (play evs s)).
Proof using All.
  revert s; induction evs as [|ev evs IH]; intros s Hs; simpl; [split; [done|apply dis_refl]|].
  destruct (go_step_good ev s Hs) as [Hs' HR]. destruct (IH _ Hs') as [? ?].
  split; [done|]. by eapply dis_trans.
Qed.
End Disciplined.

(** ** One goroutine by itself

    [solo l p w]: [p] runs to its end with nobody in between; what it returns, the
    goroutines it started and the memory it leaves, unless it blocks or crashes. *)
Fixpoint solo {B} (l : L) (p : prog E B) (w : W) : option (B * list (prog E A) * W) :=
  match p with
  | Ret b => Some (b, [], w)
  | Panic _ => None
  | Do e k =>
      match exec _ e l w with
      | Answer x w1 =>
          match solo l (k x) w1 with
          | Some (b, ps, w2) => Some (b, (started _ e ++ ps)%list, w2)
          | None => None
          end
      | _ => None
      end
  end.

Lemma solo_call {T B} l (e : E T) (k : T -> prog E B) w :
  solo l (call e ≫= k) w =
  match exec _ e l w with
  | Answer x w1 =>
      match solo l (k x) w1 with
      | Some (b, ps, w2) => Some (b, (started _ e ++ ps)%list, w2)
      | None => None
      end
  | _ => None
  end.
Proof. done. Qed.

Lemma solo_ret {B C} l (a : B) (f : B -> prog E C) w : solo l (mret a ≫= f) w = solo l (f a) w.
Proof. done. Qed.

Lemma solo_assoc {T B C} l (e : E T) (k : T -> prog E B) (f : B -> prog E C) w :
  solo l ((call e ≫= k) ≫= f) w = solo l (call e ≫= (fun x => k x ≫= f)) w.
Proof. done. Qed.

Lemma solo_bind {B C} l (p : prog E B) (f : B -> prog E C) w b ps w1 :
  solo l p w = Some (b, ps, w1) ->
  solo l (p ≫= f) w =
  match solo l (f b) w1 with
  | Some (c, qs, w2) => Some (c, (ps ++ qs)%list, w2)
  | None => None
  end.
Proof.
  unfold mbind, prog_mbind. revert w ps; induction p as [a|msg|T e k IH]; intros w ps; simpl.
  - intros [= -> <- ->]. change (prog_bind (Ret b) f) with (f b). by destruct (solo l (f b) w1) as [[[] ?]|].
  - done.
  - intros Hp. change (prog_bind (Do e k) f) with (Do e (fun x => prog_bind (k x) f)). simpl.
    destruct (exec T e l w) as [x w'| |]; [|done..].
    destruct (solo l (k x) w') as [[[b' ps'] w'']|] eqn:Hk; [|done]. simplify_eq.
    rewrite (IH x w' ps' Hk). destruct (solo l (f b) w1) as [[[] ?]|]; [by rewrite app_assoc|done].
Qed.

(** Giving the processor to one goroutine until it comes to [f]. *)
Lemma play_solo {B} l (p : prog E B) (f : B -> prog E A) s i b ps w :
  solo l p (memory s) = Some (b, ps, w) -> crash s = None ->
  goroutines s !! i = Some (p ≫= f) -> (forall msg, f b <> Panic msg) ->
  exists n, play (replicate n (Run i l)) s = GPool (<[i := f b]> (goroutines s) ++ ps)%list w None.
Proof.
  unfold mbind, prog_mbind. revert s ps; induction p as [a|msg|T e k IH]; intros s ps Hp Hc Hi Hf; simpl in Hp.
  - simplify_eq. exists 0%nat. simpl. change (prog_bind (Ret b) f) with (f b) in Hi.
    rewrite app_nil_r, list_insert_id by done. destruct s; simpl in *; by subst.
  - done.
  - change (prog_bind (Do e k) f) with (Do e (fun x => prog_bind (k x) f)) in Hi.
    destruct (exec T e l (memory s)) as [x w'| |] eqn:Hx; [|done..].
    destruct (solo l (k x) w') as [[[b' ps'] w'']|] eqn:Hk; [|done]. simplify_eq.
    set (s1 := GPool (<[i := prog_bind (k x) f]> (goroutines s) ++ started T e)%list w' None).
    assert (i < length (goroutines s))%nat as Hlt by by eapply lookup_lt_Some.
    destruct (IH x s1 ps' Hk eq_refl) as [n Hn]; [|done|].
    { simpl. rewrite lookup_app_l by by rewrite length_insert. by apply list_lookup_insert_eq. }
    assert (go_step (Run i l) s = s1) as Hstep.
    { unfold go_step, s1. rewrite Hc, Hi, Hx. f_equal.
      destruct (k x) as [a|msg|T' e' k'] eqn:Ekx; simpl in Hk; [|done|done]. simplify_eq.
      change (prog_bind (Ret b) f) with (f b). destruct (f b) eqn:Ef; [done| |done]. by destruct (Hf msg). }
    exists (S n). change (play (replicate n (Run i l)) (go_step (Run i l) s) =
      GPool (<[i := f b]> (goroutines s) ++ started T e ++ ps')%list w None).
    rewrite Hstep, Hn. f_equal. simpl.
    rewrite insert_app_l by by rewrite length_insert. by rewrite list_insert_insert_eq, app_assoc.
Qed.

(** A goroutine whose next call blocks, whatever the luck, stays where it is. *)
Lemma go_step_blocked {T} (e : E T) (k : T -> prog E A) ev s i :
  (forall l, exec T e l (memory s) = Block) ->
  goroutines s !! i = Some (Do e k) -> goroutines (go_step ev s) !! i = Some (Do e k).
Proof.
  intros Hblock Hi. unfold go_step. destruct (crash s); [done|]. destruct ev as [j l|x].
  - destruct (decide (i = j)) as [<-|Hj]; [by rewrite Hi, Hblock|].
    destruct (goroutines s !! j) as [[a|m|T' e' k']|]; try done.
    destruct (exec T' e' l (memory s)) as [x w| |m]; try done. cbn.
    rewrite lookup_app_l by (rewrite length_insert; by eapply lookup_lt_Some).
    by rewrite list_lookup_insert_ne.
  - destruct (arrive x (memory s)) as [w ps]. cbn. by apply lookup_app_l_Some.
Qed.

(** Nothing happens after a crash. *)
Lemma play_crashed evs s msg : crash s = Some msg -> play evs s = s.
Proof.
  intros Hc. induction evs as [|ev evs IH]; [done|]. cbn. unfold go_step. rewrite Hc. exact IH.
Qed.
End Goroutines.

#[global] Arguments lawful : simpl never.

(** One call of a goroutine: it may be made, and so may what follows. *)
Ltac lawful_step := eapply lawful_call; [apply _| |].
(** A call that is always allowed. *)
Ltac permitted := intros; exact Logic.I.
