(* ===== verification/GoLib.v ===== *)
(** * The Go language and standard library the services use

    Errors with identity and wrapping ([errors], [fmt.Errorf]), the functions of
    [strings] on byte strings, decimal printing and parsing ([fmt]'s %d,
    [strconv]).  A Go string is a [string] of bytes. *)

From S2P Require Import Prelude.
From Stdlib Require Import Ascii.

(** ** Errors

    A package-level [errors.New] variable is a pointer: comparing it with [==] or
    [errors.Is] compares identities, given by [name].  [fmt.Errorf] makes a fresh
    error; with %w it wraps another one. *)
Inductive error : Type :=
| Sentinel (name msg : string)
| ErrorNew (msg : string)
| Wrap (msg : string) (inner : error)
| StatusError (code : Z) (desc text : string)
| NetError (timeout : bool) (msg : string).

Definition Error (e : error) : string :=
  match e with
  | Sentinel _ msg => msg
  | ErrorNew msg => msg
  | Wrap msg _ => msg
  | StatusError _ _ text => text
  | NetError _ msg => msg
  end.

(** [err == target] for a package-level [target]: pointer comparison. *)
Definition err_ptr_eq (e target : error) : bool :=
  match e, target with
  | Sentinel n _, Sentinel n' _ => bool_decide (n = n')
  | _, _ => false
  end.

(** [err == target] on a possibly nil [err]. *)
Definition err_eq (e : option error) (target : error) : bool :=
  match e with Some e => err_ptr_eq e target | None => false end.

(** [errors.Is]: some error of the chain is the target. *)
Fixpoint errors_Is (e target : error) : bool :=
  err_ptr_eq e target ||
  match e with Wrap _ inner => errors_Is inner target | _ => false end.

(** [fmt.Errorf (prefix ++ "%w") err]. *)
Definition Errorf_w (prefix : string) (e : error) : error :=
  Wrap (prefix ++ Error e) e.
(** [fmt.Errorf "%w: <middle>%v" sentinel err]: only the sentinel is wrapped. *)
Definition Errorf_wv (sentinel : error) (middle : string) (e : error) : error :=
  Wrap (Error sentinel ++ ": " ++ middle ++ Error e) sentinel.

Definition context_DeadlineExceeded : error :=
  Sentinel "context.DeadlineExceeded" "context deadline exceeded".
Definition context_Canceled : error :=
  Sentinel "context.Canceled" "context canceled".

Definition sql_ErrNoRows : error :=
  Sentinel "sql.ErrNoRows" "sql: no rows in result set".

Definition redis_Nil : error := Sentinel "redis.Nil" "redis: nil".

(** The panic of dereferencing a nil pointer. *)
Definition nil_dereference : string :=
  "runtime error: invalid memory address or nil pointer dereference".

(** ** strings *)

(** The bytes of [io.LimitReader s n]. *)
Fixpoint limit_reader (n : Z) (s : string) : string :=
  match s with
  | EmptyString => EmptyString
  | String a s => if n <=? 0 then EmptyString else String a (limit_reader (n - 1) s)
  end.

(** The character of [\n] in a Go literal. *)
Definition nl : string := String (ascii_of_nat 10) "".

Definition bytes (l : list nat) : list ascii := ascii_of_nat <$> l.

(** The UTF-8 encodings of the runes of unicode.IsSpace. *)
Definition space_runes : list (list ascii) :=
  bytes <$>
  (((fun b => [b]) <$> [9; 10; 11; 12; 13; 32]) ++
  [[194; 133]; [194; 160]; [225; 154; 128];
   [226; 128; 168]; [226; 128; 169]; [226; 128; 175]; [226; 129; 159];
   [227; 128; 128]] ++
  ((fun b => [226; 128; b]) <$> seq 128 11))%nat%list.

Fixpoint strip_prefix (p l : list ascii) : option (list ascii) :=
  match p, l with
  | [], _ => Some l
  | a :: p, b :: l => if Ascii.eqb a b then strip_prefix p l else None
  | _ :: _, [] => None
  end.

(** The rest of [l] after the first of [ps] that is a prefix of it. *)
Fixpoint strip_one (ps : list (list ascii)) (l : list ascii) : option (list ascii) :=
  match ps with
  | [] => None
  | p :: ps => match strip_prefix p l with Some r => Some r | None => strip_one ps l end
  end.

(** Drops prefixes of [ps] as long as there are some; every prefix dropped is
    not empty, so [length l] rounds are enough. *)
Fixpoint trim_runes (fuel : nat) (ps : list (list ascii)) (l : list ascii) : list ascii :=
  match fuel with
  | O => l
  | S fuel => match strip_one ps l with Some r => trim_runes fuel ps r | None => l end
  end.

Definition TrimLeft_space (l : list ascii) : list ascii :=
  trim_runes (length l) space_runes l.
Definition TrimRight_space (l : list ascii) : list ascii :=
  reverse (trim_runes (length l) (reverse <$> space_runes) (reverse l)).

Definition TrimSpace (s : string) : string :=
  String.string_of_list_ascii (TrimRight_space (TrimLeft_space (String.list_ascii_of_string s))).

(** [strings.TrimRight s c] for a one-byte cutset. *)
Fixpoint drop_while (a : ascii) (l : list ascii) : list ascii :=
  match l with
  | b :: l' => if Ascii.eqb a b then drop_while a l' else l
  | [] => []
  end.
Definition TrimRight (s : string) (a : ascii) : string :=
  String.string_of_list_ascii (reverse (drop_while a (reverse (String.list_ascii_of_string s)))).

(** [strings.Contains s sub]. *)
Fixpoint Contains (s sub : string) : bool :=
  String.prefix sub s ||
  match s with String _ s' => Contains s' sub | EmptyString => false end.

(** ** Decimal numbers *)

Definition digit (d : Z) : ascii := ascii_of_nat (Z.to_nat (48 + d)).
Definition digit_val (a : ascii) : option Z :=
  let n := Z.of_nat (nat_of_ascii a) in
  if (48 <=? n) && (n <=? 57) then Some (n - 48) else None.

(** The decimal digits of [n] in front of [acc]; [fuel] digits at most. *)
Fixpoint print_digits (fuel : nat) (n : Z) (acc : string) : string :=
  match fuel with
  | O => acc
  | S fuel =>
      let acc := String (digit (n mod 10)) acc in
      if n <? 10 then acc else print_digits fuel (n / 10) acc
  end.

(** An int64 has at most 19 digits. *)
Definition int64_fuel : nat := 20.

(** %d of an int64. *)
Definition Itoa (n : Z) : string :=
  if n <? 0 then String "-"%char (print_digits int64_fuel (- n) "")
  else print_digits int64_fuel n "".

(** %0<width>d of a natural number that fits. *)
Fixpoint print_padded (width : nat) (n : Z) (acc : string) : string :=
  match width with
  | O => acc
  | S width => print_padded width (n / 10) (String (digit (n mod 10)) acc)
  end.

(** All of [s] read as decimal digits, after the value [acc]. *)
Fixpoint parse_digits (acc : Z) (s : string) : option Z :=
  match s with
  | EmptyString => Some acc
  | String a s' =>
      match digit_val a with
      | Some d => parse_digits (acc * 10 + d) s'
      | None => None
      end
  end.

(** [strconv.ParseInt s 10 64] (and [strconv.Atoi] on a 64-bit platform): an
    optional sign, at least one digit, and the value has to fit. *)
Definition ParseInt (s : string) : option Z :=
  let fit z := if decide (in_int64 z) then Some z else None in
  match s with
  | EmptyString => None
  | String "-"%char EmptyString => None
  | String "+"%char EmptyString => None
  | String "-"%char s' => match parse_digits 0 s' with Some z => fit (- z) | None => None end
  | String "+"%char s' => match parse_digits 0 s' with Some z => fit z | None => None end
  | s => match parse_digits 0 s with Some z => fit z | None => None end
  end.

(** ** Lemmas: errors *)

Lemma err_eq_Some e n m : err_eq e (Sentinel n m) = true -> exists m', e = Some (Sentinel n m').
Proof.
  destruct e as [[]|]; simpl; try done. case_bool_decide; [|done]. subst; eauto.
Qed.

Lemma errors_Is_Errorf_wv n m mid e t :
  errors_Is (Errorf_wv (Sentinel n m) mid e) t = err_ptr_eq (Sentinel n m) t.
Proof. simpl. by rewrite orb_false_r. Qed.

(** ** Lemmas: trimming *)

Lemma strip_prefix_app p l r : strip_prefix p l = Some r <-> l = (p ++ r)%list.
Proof.
  revert l; induction p as [|a p IH]; intros [|b l]; simpl; try naive_solver.
  destruct (Ascii.eqb_spec a b); naive_solver.
Qed.

Lemma strip_one_Some ps l r :
  strip_one ps l = Some r -> exists p, p ∈ ps /\ l = (p ++ r)%list.
Proof.
  induction ps as [|p ps IH]; simpl; [done|].
  destruct (strip_prefix p l) eqn:Hp; intros; simplify_eq.
  - exists p. split; [set_solver|]. by apply strip_prefix_app.
  - destruct IH as (q & ? & ?); [done|]. exists q. split; [set_solver|done].
Qed.

Lemma strip_one_None ps l :
  strip_one ps l = None <-> forall p r, p ∈ ps -> l <> (p ++ r)%list.
Proof.
  split.
  - induction ps as [|q ps IH]; simpl; [set_solver|].
    destruct (strip_prefix q l) eqn:Hq; [done|]. intros Hn p r Hin ->.
    apply elem_of_cons in Hin as [->|Hin]; [|by eapply IH].
    rewrite (proj2 (strip_prefix_app q (q ++ r) r)) in Hq; done.
  - intros H. destruct (strip_one ps l) eqn:E; [|done].
    apply strip_one_Some in E as (p & ? & ?). by edestruct H.
Qed.

Section Trimming.
Context (ps : list (list ascii)) (Hne : forall p, p ∈ ps -> p <> []).

Lemma trim_runes_done fuel l :
  (length l <= fuel)%nat -> strip_one ps (trim_runes fuel ps l) = None.
Proof.
  revert l; induction fuel as [|fuel IH]; intros l Hl; simpl.
  - destruct l; [|simpl in Hl; lia]. apply strip_one_None. intros p r Hp.
    specialize (Hne p Hp). by destruct p.
  - destruct (strip_one ps l) eqn:E; [|done]. apply IH.
    apply strip_one_Some in E as (p & Hp & ->). specialize (Hne p Hp).
    destruct p; [done|]. rewrite length_app in Hl; simpl in Hl; lia.
Qed.

Lemma trim_runes_id fuel l : strip_one ps l = None -> trim_runes fuel ps l = l.
Proof. destruct fuel; simpl; [done|]. by intros ->. Qed.

Lemma trim_runes_suffix fuel l : exists q, l = (q ++ trim_runes fuel ps l)%list.
Proof.
  revert l; induction fuel as [|fuel IH]; intros l; simpl; [by exists []|].
  destruct (strip_one ps l) eqn:E; [|by exists []].
  apply strip_one_Some in E as (p & _ & ->). destruct (IH l0) as [q Hq].
  exists (p ++ q)%list. by rewrite <-app_assoc, <-Hq.
Qed.
End Trimming.

Lemma space_runes_nonempty p : p ∈ space_runes -> p <> [].
Proof.
  intros Hp ->. revert Hp. apply (bool_decide_eq_false _). by vm_compute.
Qed.

Lemma rev_space_runes_nonempty p : p ∈ (reverse <$> space_runes) -> p <> [].
Proof.
  intros (q & -> & Hq)%list_elem_of_fmap. intros Hr.
  apply (space_runes_nonempty q Hq). destruct q; [done|]. by destruct (app_cons_not_nil (reverse q) [] a); rewrite <-reverse_cons.
Qed.

Lemma TrimLeft_space_id l : strip_one space_runes l = None -> TrimLeft_space l = l.
Proof. apply trim_runes_id. Qed.

Lemma TrimRight_space_prefix l : exists q, l = (TrimRight_space l ++ q)%list.
Proof.
  unfold TrimRight_space.
  destruct (trim_runes_suffix (reverse <$> space_runes) (length l) (reverse l)) as [q Hq].
  exists (reverse q). rewrite <-reverse_app, <-Hq. by rewrite reverse_involutive.
Qed.

Lemma TrimSpace_list l :
  let r := TrimRight_space (TrimLeft_space l) in TrimRight_space (TrimLeft_space r) = r.
Proof.
  intros r. assert (strip_one space_runes r = None) as Hr.
  { destruct (TrimRight_space_prefix (TrimLeft_space l)) as [q Hq]; fold r in Hq.
    apply strip_one_None. intros p t Hp Ht.
    assert (strip_one space_runes (TrimLeft_space l) = None) as Hl
      by (apply trim_runes_done; [apply space_runes_nonempty|done]).
    rewrite strip_one_None in Hl. apply (Hl p (t ++ q)%list Hp).
    by rewrite Hq, Ht, app_assoc. }
  rewrite TrimLeft_space_id by done.
  subst r. unfold TrimRight_space at 1.
  rewrite (trim_runes_id _ _ (reverse _)); [by rewrite reverse_involutive|].
  unfold TrimRight_space. rewrite reverse_involutive.
  apply trim_runes_done; [apply rev_space_runes_nonempty|].
  by rewrite length_reverse.
Qed.

Lemma TrimSpace_idemp s : TrimSpace (TrimSpace s) = TrimSpace s.
Proof.
  unfold TrimSpace. rewrite String.list_ascii_of_string_of_list_ascii.
  by rewrite TrimSpace_list.
Qed.

(** ** Lemmas: decimal numbers *)

Lemma digit_val_digit d : 0 <= d <= 9 -> digit_val (digit d) = Some d.
Proof.
  intros.
  assert (d = 0 \/ d = 1 \/ d = 2 \/ d = 3 \/ d = 4 \/ d = 5 \/ d = 6 \/ d = 7 \/ d = 8 \/ d = 9)
    as Hd by lia.
  by repeat destruct Hd as [->|Hd]; subst.
Qed.

Lemma parse_print_digits fuel n acc :
  0 <= n < 10 ^ Z.of_nat fuel ->
  parse_digits 0 (print_digits fuel n acc) = parse_digits n acc.
Proof.
  revert n acc; induction fuel as [|fuel IH]; intros n acc Hn.
  - simpl. replace n with 0 by (simpl in Hn; lia). done.
  - cbn [print_digits]. pose proof (Z.mod_pos_bound n 10 ltac:(lia)).
    destruct (Z.ltb_spec n 10).
    + cbn [parse_digits]. rewrite digit_val_digit by lia.
      by rewrite Z.mod_small by lia.
    + rewrite IH.
      * cbn [parse_digits]. rewrite digit_val_digit by lia. f_equal.
        pose proof (Z.div_mod n 10). lia.
      * replace (Z.of_nat (S fuel)) with (Z.of_nat fuel + 1) in Hn by lia.
        rewrite Z.pow_add_r in Hn by lia. split; [apply Z.div_pos; lia|].
        apply Z.div_lt_upper_bound; lia.
Qed.

Lemma parse_print_padded width n acc :
  0 <= n < 10 ^ Z.of_nat width ->
  parse_digits 0 (print_padded width n acc) = parse_digits n acc.
Proof.
  revert n acc; induction width as [|width IH]; intros n acc Hn.
  - simpl. replace n with 0 by (simpl in Hn; lia). done.
  - cbn [print_padded]. pose proof (Z.mod_pos_bound n 10 ltac:(lia)).
    rewrite IH.
    + cbn [parse_digits]. rewrite digit_val_digit by lia. f_equal.
      pose proof (Z.div_mod n 10). lia.
    + replace (Z.of_nat (S width)) with (Z.of_nat width + 1) in Hn by lia.
      rewrite Z.pow_add_r in Hn by lia. split; [apply Z.div_pos; lia|].
      apply Z.div_lt_upper_bound; lia.
Qed.

Lemma print_digits_head fuel n acc :
  0 <= n -> exists d s, print_digits (S fuel) n acc = String (digit d) s /\ 0 <= d <= 9.
Proof.
  intros Hn. revert n acc Hn; induction fuel as [|fuel IH]; intros n acc Hn.
  - exists (n mod 10), acc. pose proof (Z.mod_pos_bound n 10 ltac:(lia)).
    split; [|lia]. simpl. by destruct (n <? 10).
  - cbn [print_digits]. pose proof (Z.mod_pos_bound n 10 ltac:(lia)).
    destruct (Z.ltb_spec n 10); [exists (n mod 10), acc; split; [done|lia]|].
    apply IH. apply Z.div_pos; lia.
Qed.
