(* ===== verification/Json.v ===== *)
(** * encoding/json, as far as the services use it

    Compact printing of values (HTML-safe string escaping, as [json.Marshal]
    does), the scanner and parser of [json.Unmarshal], and decoding of an object
    into the fields of a struct.  Strings inside a value are kept as the raw text
    between the quotes: [time.Time] reads the raw text, a Go string the unquoted
    one.  The round trip: what [json.Marshal] prints for a flat struct,
    [json.Unmarshal] reads back. *)

From S2P Require Import Prelude GoLib.
From Stdlib Require Import Ascii.

(** ** Characters *)

Definition byte_val (a : ascii) : Z := Z.of_nat (nat_of_ascii a).
Definition chr (n : nat) : ascii := ascii_of_nat n.
Definition dquote : ascii := chr 34.
Definition backslash : ascii := chr 92.
Definition between (lo hi : Z) (a : ascii) : bool := (lo <=? byte_val a) && (byte_val a <=? hi).

Definition hex (d : Z) : ascii := if d <? 10 then digit d else chr (Z.to_nat (87 + d)).
Definition hex_val (a : ascii) : option Z :=
  if between 48 57 a then Some (byte_val a - 48)
  else if between 97 102 a then Some (byte_val a - 87)
  else if between 65 70 a then Some (byte_val a - 55)
  else None.

(** Size of the UTF-8 encoding [l] starts with, 0 when it starts with none
    (utf8.DecodeRune gives RuneError with size 1). *)
Definition utf8_size (l : list ascii) : nat :=
  let cont := between 128 191 in
  match l with
  | [] => 0
  | a :: l1 =>
      if between 0 127 a then 1
      else match l1 with
      | [] => 0
      | b :: l2 =>
          if between 194 223 a then (if cont b then 2 else 0)
          else
            let ok3 := (between 224 224 a && between 160 191 b)
                    || (between 225 236 a && cont b)
                    || (between 237 237 a && between 128 159 b)
                    || (between 238 239 a && cont b) in
            let ok4 := (between 240 240 a && between 144 191 b)
                    || (between 241 243 a && cont b)
                    || (between 244 244 a && between 128 143 b) in
            match l2 with
            | [] => 0
            | c :: l3 =>
                if ok3 then (if cont c then 3 else 0)
                else if ok4 then
                  match l3 with d :: _ => if cont c && cont d then 4 else 0 | [] => 0 end
                else 0
            end
      end
  end%nat.

Fixpoint utf8_valid (l : list ascii) : bool :=
  match l with
  | [] => true
  | a :: l1 =>
      match utf8_size l, l1 with
      | 1%nat, _ => utf8_valid l1
      | 2%nat, _ :: l2 => utf8_valid l2
      | 3%nat, _ :: _ :: l3 => utf8_valid l3
      | 4%nat, _ :: _ :: _ :: l4 => utf8_valid l4
      | _, _ => false
      end
  end.

(** utf8.AppendRune of a rune that is no surrogate and at most 0x10FFFF. *)
Definition encode_rune (r : Z) : list ascii :=
  let b n := chr (Z.to_nat n) in
  if r <? 128 then [b r]
  else if r <? 2048 then [b (192 + r / 64); b (128 + r mod 64)]
  else if r <? 65536 then [b (224 + r / 4096); b (128 + r / 64 mod 64); b (128 + r mod 64)]
  else [b (240 + r / 262144); b (128 + r / 4096 mod 64); b (128 + r / 64 mod 64); b (128 + r mod 64)].

Definition replacement_char : list ascii := bytes [239; 191; 189]%nat.

(** ** Strings: escaping (appendString with escapeHTML) and unquoting *)

(** One ASCII character. *)
Definition escape_ascii (a : ascii) : list ascii :=
  let n := nat_of_ascii a in
  if bool_decide (n = 34 \/ n = 92)%nat then [backslash; a]
  else if bool_decide (n = 8)%nat then [backslash; "b"%char]
  else if bool_decide (n = 12)%nat then [backslash; "f"%char]
  else if bool_decide (n = 10)%nat then [backslash; "n"%char]
  else if bool_decide (n = 13)%nat then [backslash; "r"%char]
  else if bool_decide (n = 9)%nat then [backslash; "t"%char]
  else if bool_decide (n < 32 \/ n = 38 \/ n = 60 \/ n = 62)%nat then
    [backslash; "u"%char; "0"%char; "0"%char; hex (byte_val a / 16); hex (byte_val a mod 16)]
  else [a].

(** One three-byte rune: U+2028 and U+2029 are escaped. *)
Definition escape3 (a b c : ascii) : list ascii :=
  if bool_decide ([a; b] = bytes [226; 128]%nat) && between 168 169 c then
    [backslash; "u"%char; "2"%char; "0"%char; "2"%char; hex (byte_val c - 160)]
  else [a; b; c].

(** An invalid byte: the escape of U+FFFD. *)
Definition escape_invalid : list ascii :=
  [backslash; "u"%char; "f"%char; "f"%char; "f"%char; "d"%char].

Fixpoint quote_body (l : list ascii) : list ascii :=
  match l with
  | [] => []
  | a :: l1 =>
      match utf8_size l, l1 with
      | 1%nat, _ => escape_ascii a ++ quote_body l1
      | 2%nat, b :: l2 => [a; b] ++ quote_body l2
      | 3%nat, b :: c :: l3 => escape3 a b c ++ quote_body l3
      | 4%nat, b :: c :: d :: l4 => [a; b; c; d] ++ quote_body l4
      | _, _ => escape_invalid ++ quote_body l1
      end
  end%list.

Definition hex4 (a b c d : ascii) : option Z :=
  match hex_val a, hex_val b, hex_val c, hex_val d with
  | Some a, Some b, Some c, Some d => Some (((a * 16 + b) * 16 + c) * 16 + d)
  | _, _, _, _ => None
  end.

Definition is_surrogate (r : Z) : bool := (55296 <=? r) && (r <=? 57343).
(** utf16.DecodeRune of a pair, when it is one. *)
Definition surrogate_pair (r r1 : Z) : option Z :=
  if (55296 <=? r) && (r <=? 56319) && (56320 <=? r1) && (r1 <=? 57343)
  then Some ((r - 55296) * 1024 + (r1 - 56320) + 65536) else None.

(** [unquote] of a literal the scanner has accepted. *)
Fixpoint unquote (l : list ascii) : list ascii :=
  match l with
  | [] => []
  | a :: l1 =>
      if Ascii.eqb a backslash then
        match l1 with
        | [] => []
        | e :: l2 =>
            if Ascii.eqb e "u"%char then
              match l2 with
              | h1 :: h2 :: h3 :: h4 :: l3 =>
                  match hex4 h1 h2 h3 h4 with
                  | None => []
                  | Some r =>
                      if is_surrogate r then
                        match l3 with
                        | b' :: u' :: k1 :: k2 :: k3 :: k4 :: l4 =>
                            match (if Ascii.eqb b' backslash && Ascii.eqb u' "u"%char
                                   then hex4 k1 k2 k3 k4 else None) with
                            | Some r1 =>
                                match surrogate_pair r r1 with
                                | Some rr => encode_rune rr ++ unquote l4
                                | None => replacement_char ++ unquote l3
                                end
                            | None => replacement_char ++ unquote l3
                            end
                        | _ => replacement_char ++ unquote l3
                        end
                      else encode_rune r ++ unquote l3
                  end
              | _ => []
              end
            else
              if Ascii.eqb e "b"%char then chr 8 :: unquote l2
              else if Ascii.eqb e "f"%char then chr 12 :: unquote l2
              else if Ascii.eqb e "n"%char then chr 10 :: unquote l2
              else if Ascii.eqb e "r"%char then chr 13 :: unquote l2
              else if Ascii.eqb e "t"%char then chr 9 :: unquote l2
              else if Ascii.eqb e dquote || Ascii.eqb e backslash || Ascii.eqb e "/"%char || Ascii.eqb e "'"%char
              then e :: unquote l2
              else []
        end
      else
        match utf8_size l, l1 with
        | 1%nat, _ => a :: unquote l1
        | 2%nat, b :: l2 => a :: b :: unquote l2
        | 3%nat, b :: c :: l3 => a :: b :: c :: unquote l3
        | 4%nat, b :: c :: d :: l4 => a :: b :: c :: d :: unquote l4
        | _, _ => replacement_char ++ unquote l1
        end
  end%list.

(** ** Values *)

Inductive json : Type :=
| JNull
| JBool (b : bool)
| JNum (text : list ascii)
| JStr (raw : list ascii)
| JArr (elems : list json)
| JObj (members : list (list ascii * json)).

Definition lit (s : string) : list ascii := String.list_ascii_of_string s.

Definition quoted (raw : list ascii) : list ascii := (dquote :: raw ++ [dquote])%list.

Fixpoint join (sep : ascii) (ls : list (list ascii)) : list ascii :=
  match ls with
  | [] => []
  | [l] => l
  | l :: ls => l ++ sep :: join sep ls
  end%list.

(** Compact printing. *)
Fixpoint print (v : json) : list ascii :=
  match v with
  | JNull => lit "null"
  | JBool true => lit "true"
  | JBool false => lit "false"
  | JNum t => t
  | JStr raw => quoted raw
  | JArr vs => "["%char :: join ","%char (map print vs) ++ ["]"%char]
  | JObj ms =>
      "{"%char :: join ","%char (map (fun '(k, v) => quoted k ++ ":"%char :: print v) ms)
        ++ ["}"%char]
  end%list.

Definition jstring (s : string) : json := JStr (quote_body (String.list_ascii_of_string s)).
Definition jint (n : Z) : json := JNum (lit (Itoa n)).

(** ** Scanning *)

Definition is_ws (a : ascii) : bool :=
  let n := nat_of_ascii a in bool_decide (n = 32 \/ n = 9 \/ n = 10 \/ n = 13)%nat.
Fixpoint skip_ws (l : list ascii) : list ascii :=
  match l with a :: l' => if is_ws a then skip_ws l' else l | [] => [] end.

Definition is_simple_escape (a : ascii) : bool :=
  existsb (Ascii.eqb a) [dquote; backslash; "/"; "b"; "f"; "n"; "r"; "t"]%char.
Definition is_hex (a : ascii) : bool :=
  match hex_val a with Some _ => true | None => false end.

Definition push (pre : list ascii) (r : option (list ascii * list ascii)) :=
  match r with Some (raw, rest) => Some ((pre ++ raw)%list, rest) | None => None end.

(** The raw text up to the closing quote, and what follows it. *)
Fixpoint scan_string (l : list ascii) : option (list ascii * list ascii) :=
  match l with
  | [] => None
  | c :: l1 =>
      if Ascii.eqb c dquote then Some ([], l1)
      else if Ascii.eqb c backslash then
        match l1 with
        | [] => None
        | e :: l2 =>
            if is_simple_escape e then push [c; e] (scan_string l2)
            else if Ascii.eqb e "u"%char then
              match l2 with
              | h1 :: h2 :: h3 :: h4 :: l3 =>
                  if is_hex h1 && is_hex h2 && is_hex h3 && is_hex h4
                  then push [c; e; h1; h2; h3; h4] (scan_string l3)
                  else None
              | _ => None
              end
            else None
        end
      else if byte_val c <? 32 then None
      else push [c] (scan_string l1)
  end.

Definition is_num_char (a : ascii) : bool :=
  between 48 57 a || existsb (Ascii.eqb a) ["-"; "+"; "."; "e"; "E"]%char.

Fixpoint span (f : ascii -> bool) (l : list ascii) : list ascii * list ascii :=
  match l with
  | a :: l' => if f a then let '(p, r) := span f l' in (a :: p, r) else ([], l)
  | [] => ([], [])
  end.

Definition digits1 (l : list ascii) : option (list ascii) :=
  let '(d, r) := span (between 48 57) l in
  match d with [] => None | _ => Some r end.

(** A number of the JSON grammar: an integer part, then optionally a fraction
    and an exponent. *)
Definition int_part (l : list ascii) : option (list ascii) :=
  match l with
  | a :: l' => if Ascii.eqb a "0"%char then Some l' else digits1 l
  | [] => None
  end.
Definition frac_part (l : list ascii) : option (list ascii) :=
  match l with
  | a :: l' => if Ascii.eqb a "."%char then digits1 l' else Some l
  | [] => Some []
  end.
Definition exp_part (l : list ascii) : option (list ascii) :=
  match l with
  | a :: l' =>
      if Ascii.eqb a "e"%char || Ascii.eqb a "E"%char then
        match l' with
        | s :: l'' => if Ascii.eqb s "+"%char || Ascii.eqb s "-"%char then digits1 l'' else digits1 l'
        | [] => None
        end
      else Some l
  | [] => Some []
  end.
Definition valid_number (l : list ascii) : bool :=
  let l := match l with a :: l' => if Ascii.eqb a "-"%char then l' else l | [] => [] end in
  match int_part l with
  | Some l1 =>
      match frac_part l1 with
      | Some l2 => match exp_part l2 with Some [] => true | _ => false end
      | None => false
      end
  | None => false
  end.

Definition maxNestingDepth : Z := 10000.

(** One value.  Every recursive call is on a shorter text, so fuel above its
    length is enough. *)
Fixpoint parse_value (fuel : nat) (depth : Z) (l : list ascii) {struct fuel} :
    option (json * list ascii) :=
  match fuel with
  | O => None
  | S fuel =>
      match skip_ws l with
      | [] => None
      | c :: l1 =>
          if Ascii.eqb c dquote then
            match scan_string l1 with Some (raw, r) => Some (JStr raw, r) | None => None end
          else if Ascii.eqb c "{"%char then
            if maxNestingDepth <? depth + 1 then None else
            match skip_ws l1 with
            | "}"%char :: r => Some (JObj [], r)
            | l2 =>
                match parse_members fuel (depth + 1) l2 with
                | Some (ms, r) => Some (JObj ms, r)
                | None => None
                end
            end
          else if Ascii.eqb c "["%char then
            if maxNestingDepth <? depth + 1 then None else
            match skip_ws l1 with
            | "]"%char :: r => Some (JArr [], r)
            | l2 =>
                match parse_elems fuel (depth + 1) l2 with
                | Some (vs, r) => Some (JArr vs, r)
                | None => None
                end
            end
          else match strip_prefix (lit "null") (c :: l1) with
          | Some r => Some (JNull, r)
          | None =>
              match strip_prefix (lit "true") (c :: l1) with
              | Some r => Some (JBool true, r)
              | None =>
                  match strip_prefix (lit "false") (c :: l1) with
                  | Some r => Some (JBool false, r)
                  | None =>
                      let '(n, r) := span is_num_char (c :: l1) in
                      if valid_number n then Some (JNum n, r) else None
                  end
              end
          end
      end
  end
with parse_members (fuel : nat) (depth : Z) (l : list ascii) {struct fuel} :
    option (list (list ascii * json) * list ascii) :=
  match fuel with
  | O => None
  | S fuel =>
      match skip_ws l with
      | c :: l1 =>
          if Ascii.eqb c dquote then
            match scan_string l1 with
            | Some (k, l2) =>
                match skip_ws l2 with
                | ":"%char :: l3 =>
                    match parse_value fuel depth l3 with
                    | Some (v, l4) =>
                        match skip_ws l4 with
                        | ","%char :: l5 =>
                            match parse_members fuel depth l5 with
                            | Some (ms, r) => Some ((k, v) :: ms, r)
                            | None => None
                            end
                        | "}"%char :: r => Some ([(k, v)], r)
                        | _ => None
                        end
                    | None => None
                    end
                | _ => None
                end
            | None => None
            end
          else None
      | [] => None
      end
  end
with parse_elems (fuel : nat) (depth : Z) (l : list ascii) {struct fuel} :
    option (list json * list ascii) :=
  match fuel with
  | O => None
  | S fuel =>
      match parse_value fuel depth l with
      | Some (v, l1) =>
          match skip_ws l1 with
          | ","%char :: l2 =>
              match parse_elems fuel depth l2 with
              | Some (vs, r) => Some (v :: vs, r)
              | None => None
              end
          | "]"%char :: r => Some ([v], r)
          | _ => None
          end
      | None => None
      end
  end.

(** The whole of a text is one value. *)
Definition parse (l : list ascii) : option json :=
  match parse_value (S (2 * length l)) 0 l with
  | Some (v, r) => match skip_ws r with [] => Some v | _ => None end
  | None => None
  end.

(** ** Decoding into a struct

    A field has its name and how a value is stored; an error in any field makes
    [json.Unmarshal] return an error. *)

Record field (S : Type) := Field {
  fld_name : string;
  fld_store : json -> S -> option S
}.
Arguments Field {S} _ _.
Arguments fld_name {S} _.
Arguments fld_store {S} _.

(** Names match exactly, or else up to case; two non-ASCII runes fold to ASCII. *)
Fixpoint fold_name (l : list ascii) : list ascii :=
  match l with
  | [] => []
  | a :: l1 =>
      if between 97 122 a then chr (nat_of_ascii a - 32) :: fold_name l1
      else match l1 with
      | b :: l2 =>
          if bool_decide ([a; b] = bytes [197; 191]%nat) then "S"%char :: fold_name l2
          else match l2 with
          | c :: l3 =>
              if bool_decide ([a; b; c] = bytes [226; 132; 170]%nat) then "K"%char :: fold_name l3
              else a :: fold_name l1
          | [] => a :: fold_name l1
          end
      | [] => [a]
      end
  end.

Definition find_field {S} (fs : list (field S)) (key : list ascii) : option (field S) :=
  match List.find (fun f => bool_decide (lit (fld_name f) = key)) fs with
  | Some f => Some f
  | None => List.find (fun f => bool_decide (fold_name (lit (fld_name f)) = fold_name key)) fs
  end.

Fixpoint decode_members {S} (fs : list (field S)) (ms : list (list ascii * json)) (s : S) : option S :=
  match ms with
  | [] => Some s
  | (k, v) :: ms =>
      match find_field fs (unquote k) with
      | Some f => match fld_store f v s with Some s' => decode_members fs ms s' | None => None end
      | None => decode_members fs ms s
      end
  end.

(** [json.Unmarshal text &s]. *)
Definition unmarshal {S} (fs : list (field S)) (text : string) (s : S) : option S :=
  match parse (lit text) with
  | Some (JObj ms) => decode_members fs ms s
  | Some JNull => Some s
  | _ => None
  end.

Definition store_string {S} (set : string -> S -> S) (v : json) (s : S) : option S :=
  match v with
  | JNull => Some s
  | JStr raw => Some (set (String.string_of_list_ascii (unquote raw)) s)
  | _ => None
  end.

Definition store_int64 {S} (set : Z -> S -> S) (v : json) (s : S) : option S :=
  match v with
  | JNull => Some s
  | JNum t => match ParseInt (String.string_of_list_ascii t) with
              | Some n => Some (set n s) | None => None end
  | _ => None
  end.

(** [json.Marshal] of a struct. *)
Definition marshal (ms : list (string * json)) : string :=
  String.string_of_list_ascii (print (JObj (map (fun '(k, v) => (lit k, v)) ms))).

(** A Go string that is valid UTF-8 (what PostgreSQL's text columns hold). *)
Definition utf8_string (s : string) : Prop := utf8_valid (lit s) = true.

(** ** Lemmas: strings *)

Lemma between_spec lo hi a : between lo hi a = true <-> lo <= byte_val a <= hi.
Proof. unfold between. lia. Qed.

Lemma list_len_ind {A} (P : list A -> Prop) :
  (forall l, (forall l', (length l' < length l)%nat -> P l') -> P l) -> forall l, P l.
Proof.
  intros H l. assert (forall n l, (length l < n)%nat -> P l) as Hn
    by (clear l; intros n; induction n as [|n IH]; intros l Hl; [lia|]; apply H; intros; apply IH; lia).
  apply (Hn (S (length l))). lia.
Qed.

Definition high (a : ascii) : bool := negb (between 0 127 a).

Lemma high_range lo hi a : between lo hi a = true -> 128 <= lo -> high a = true.
Proof. unfold high, between. lia. Qed.

(** How a text looks whose first rune has the given size. *)
Lemma utf8_size_shape l :
  match utf8_size l with
  | 1%nat => exists a l1, l = a :: l1 /\ high a = false
  | 2%nat => exists a b l2, l = a :: b :: l2 /\ high a = true /\ high b = true
  | 3%nat => exists a b c l3, l = a :: b :: c :: l3 /\ high a = true /\ high b = true /\ high c = true
  | 4%nat => exists a b c d l4, l = a :: b :: c :: d :: l4 /\
      high a = true /\ high b = true /\ high c = true /\ high d = true
  | _ => True
  end.
Proof.
  destruct l as [|a l]; simpl; [done|].
  destruct (between 0 127 a) eqn:Ha; [exists a, l; unfold high; by rewrite Ha|].
  assert (high a = true) as Hh by (unfold high; by rewrite Ha).
  destruct l as [|b l]; [done|]. destruct (between 194 223 a).
  { destruct (between 128 191 b) eqn:Hb; [|done]. exists a, b, l.
    eauto using high_range, Z.le_refl. }
  destruct l as [|c l]; [done|].
  match goal with |- context [if ?g then if between 128 191 c then 3%nat else _ else _] =>
    destruct g eqn:Hg end.
  { destruct (between 128 191 c) eqn:Hc; [|done]. exists a, b, c, l.
    repeat split; auto; [|by eapply high_range].
    rewrite !orb_true_iff, !andb_true_iff in Hg.
    destruct Hg as [[[[_ Hb]|[_ Hb]]|[_ Hb]]|[_ Hb]]; (eapply high_range; [exact Hb|lia]). }
  match goal with |- context [if ?g then _ else 0%nat] => destruct g eqn:Hg' end; [|done].
  destruct l as [|d l]; [done|].
  destruct (between 128 191 c && between 128 191 d) eqn:Hcd; [|done].
  apply andb_true_iff in Hcd as [Hc Hd]. exists a, b, c, d, l.
  repeat split; auto; try (by eapply high_range).
  rewrite !orb_true_iff, !andb_true_iff in Hg'.
  destruct Hg' as [[[_ Hb]|[_ Hb]]|[_ Hb]]; (eapply high_range; [exact Hb|lia]).
Qed.

(** The size does not depend on what follows the rune. *)
Lemma utf8_size_tail2 a b x y : utf8_size (a :: b :: x) = 2%nat -> utf8_size (a :: b :: y) = 2%nat.
Proof. cbn [utf8_size]. repeat case_match; done. Qed.

Lemma utf8_size_tail3 a b c x y :
  utf8_size (a :: b :: c :: x) = 3%nat -> utf8_size (a :: b :: c :: y) = 3%nat.
Proof. cbn [utf8_size]. repeat case_match; done. Qed.

Lemma utf8_size_tail4 a b c d x y :
  utf8_size (a :: b :: c :: d :: x) = 4%nat -> utf8_size (a :: b :: c :: d :: y) = 4%nat.
Proof. cbn [utf8_size]. repeat case_match; done. Qed.

Ltac all_bytes a := destruct a as [[] [] [] [] [] [] [] []].

Lemma scan_escape_ascii a x :
  high a = false -> scan_string (escape_ascii a ++ x) = push (escape_ascii a) (scan_string x).
Proof. all_bytes a; first [discriminate | reflexivity]. Qed.

Lemma unquote_escape_ascii a x :
  high a = false -> unquote (escape_ascii a ++ x) = a :: unquote x.
Proof. all_bytes a; first [discriminate | reflexivity]. Qed.

Lemma scan_high a x : high a = true -> scan_string (a :: x) = push [a] (scan_string x).
Proof. all_bytes a; first [discriminate | reflexivity]. Qed.

Lemma push_push p q r : push p (push q r) = push (p ++ q) r.
Proof. destruct r as [[raw rest]|]; simpl; [by rewrite app_assoc|done]. Qed.

Lemma escape3_cases a b c :
  escape3 a b c = [a; b; c] \/
  exists n, (n = 168 \/ n = 169)%nat /\ a = chr 226 /\ b = chr 128 /\ c = chr n /\
    escape3 a b c = [backslash; "u"%char; "2"%char; "0"%char; "2"%char; hex (Z.of_nat n - 160)].
Proof.
  unfold escape3. destruct (bool_decide _ && _) eqn:E; [right|by left].
  apply andb_true_iff in E as [Hab Hc]. apply bool_decide_eq_true in Hab.
  change ([a; b] = [chr 226; chr 128]) in Hab.
  assert (a = chr 226 /\ b = chr 128) as [-> ->] by (split; congruence).
  apply between_spec in Hc. unfold byte_val in *.
  exists (nat_of_ascii c). unfold chr. rewrite ascii_nat_embedding.
  split; [lia|done].
Qed.

(** A quoted string is scanned back whole. *)
Lemma scan_quote_body l x :
  scan_string (quote_body l ++ dquote :: x) = Some (quote_body l, x).
Proof.
  induction l as [l IH] using list_len_ind.
  destruct l as [|a l]; [done|].
  cbn [quote_body]. pose proof (utf8_size_shape (a :: l)) as Hs.
  destruct (utf8_size (a :: l)) as [|[|[|[|[|n]]]]].
  - rewrite <-app_assoc. unfold escape_invalid. simpl app. simpl scan_string.
    rewrite IH by (simpl; lia). done.
  - destruct Hs as (? & ? & [= <- <-] & Ha). rewrite <-app_assoc, scan_escape_ascii by done.
    rewrite IH by (simpl; lia). done.
  - destruct Hs as (? & b & l2 & [= <- ->] & Ha & Hb). simpl app.
    rewrite !scan_high, push_push by done. rewrite IH by (simpl; lia). done.
  - destruct Hs as (? & b & c & l3 & [= <- ->] & Ha & Hb & Hc). rewrite <-app_assoc.
    destruct (escape3_cases a b c) as [->|(n & Hn & -> & -> & -> & ->)].
    + simpl app. rewrite !scan_high, !push_push by done. rewrite IH by (simpl; lia). done.
    + destruct Hn as [-> | ->]; simpl app; simpl scan_string; rewrite IH by (simpl; lia); done.
  - destruct Hs as (? & b & c & d & l4 & [= <- ->] & Ha & Hb & Hc & Hd). simpl app.
    rewrite !scan_high, !push_push by done. rewrite IH by (simpl; lia). done.
  - rewrite <-app_assoc. unfold escape_invalid. simpl app. simpl scan_string.
    rewrite IH by (simpl; lia). done.
Qed.

Lemma unquote_high a x :
  high a = true ->
  unquote (a :: x) =
  match utf8_size (a :: x), x with
  | 1%nat, _ => a :: unquote x
  | 2%nat, b :: l2 => a :: b :: unquote l2
  | 3%nat, b :: c :: l3 => a :: b :: c :: unquote l3
  | 4%nat, b :: c :: d :: l4 => a :: b :: c :: d :: unquote l4
  | _, _ => (replacement_char ++ unquote x)%list
  end.
Proof.
  intros Ha. assert (Ascii.eqb a backslash = false) as Hb
    by (revert Ha; all_bytes a; first [discriminate | reflexivity]).
  cbn [unquote]. rewrite Hb. done.
Qed.

(** Unquoting undoes escaping on valid UTF-8. *)
Lemma unquote_quote_body l : utf8_valid l = true -> unquote (quote_body l) = l.
Proof.
  induction l as [l IH] using list_len_ind; intros Hv.
  destruct l as [|a l]; [done|].
  cbn [quote_body utf8_valid] in *. pose proof (utf8_size_shape (a :: l)) as Hs.
  destruct (utf8_size (a :: l)) as [|[|[|[|[|n]]]]] eqn:Hsz; try (by destruct l).
  - destruct Hs as (? & ? & [= <- <-] & Ha). rewrite unquote_escape_ascii by done.
    rewrite IH by (simpl; lia || done). done.
  - destruct Hs as (? & b & l2 & [= <- ->] & Ha & Hb). simpl app.
    rewrite unquote_high, (utf8_size_tail2 _ _ _ _ Hsz) by done.
    rewrite IH by (simpl; lia || done). done.
  - destruct Hs as (? & b & c & l3 & [= <- ->] & Ha & Hb & Hc).
    destruct (escape3_cases a b c) as [->|(n & Hn & -> & -> & -> & ->)].
    + simpl app. rewrite unquote_high, (utf8_size_tail3 _ _ _ _ _ Hsz) by done.
      rewrite IH by (simpl; lia || done). done.
    + assert (unquote (quote_body l3) = l3) as Hl3 by (apply IH; [simpl; lia|done]).
      destruct Hn as [-> | ->].
      * change (bytes [226; 128; 168]%nat ++ unquote (quote_body l3) = bytes [226; 128; 168]%nat ++ l3)%list.
        by rewrite Hl3.
      * change (bytes [226; 128; 169]%nat ++ unquote (quote_body l3) = bytes [226; 128; 169]%nat ++ l3)%list.
        by rewrite Hl3.
  - destruct Hs as (? & b & c & d & l4 & [= <- ->] & Ha & Hb & Hc & Hd). simpl app.
    rewrite unquote_high, (utf8_size_tail4 _ _ _ _ _ _ Hsz) by done.
    rewrite IH by (simpl; lia || done). done.
Qed.

(** ** Lemmas: numbers *)

Lemma lit_app s t : lit (s ++ t) = (lit s ++ lit t)%list.
Proof. induction s; simpl; [done|]. by f_equal. Qed.

Lemma digit_between d : 0 <= d <= 9 -> between 48 57 (digit d) = true.
Proof.
  intros H. pose proof (digit_val_digit d H) as Hd. revert Hd.
  unfold digit_val, between, byte_val. by destruct (_ && _).
Qed.

Lemma digit_not_0 d : 0 < d <= 9 -> digit d <> "0"%char.
Proof.
  intros H Hd. pose proof (digit_val_digit d ltac:(lia)) as He. rewrite Hd in He.
  vm_compute in He. injection He; lia.
Qed.

(** Printing: at least one digit, only digits, no leading zero but for 0. *)
Lemma print_digits_shape fuel n acc :
  0 <= n < 10 ^ Z.of_nat (S fuel) ->
  exists a ds, lit (print_digits (S fuel) n acc) = (a :: ds ++ lit acc)%list /\
    Forall (fun a => between 48 57 a = true) (a :: ds) /\
    (0 < n -> a <> "0"%char) /\ (n < 10 -> ds = []).
Proof.
  revert n acc; induction fuel as [|fuel IH]; intros n acc Hn.
  - exists (digit n), []. simpl in Hn. cbn [print_digits].
    rewrite (proj2 (Z.ltb_lt n 10)), Z.mod_small by lia.
    split_and!; [done| |intros; apply digit_not_0; lia|done].
    constructor; [|done]. apply digit_between; lia.
  - pose proof (Z.mod_pos_bound n 10 ltac:(lia)).
    cbn [print_digits]. destruct (Z.ltb_spec n 10).
    { exists (digit n), []. rewrite Z.mod_small by lia.
      split_and!; [done| |intros; apply digit_not_0; lia|done].
      constructor; [|done]. apply digit_between; lia. }
    assert (0 <= n / 10 < 10 ^ Z.of_nat (S fuel)) as Hq.
    { replace (Z.of_nat (S (S fuel))) with (Z.of_nat (S fuel) + 1) in Hn by lia.
      rewrite Z.pow_add_r in Hn by lia. split; [apply Z.div_pos; lia|].
      apply Z.div_lt_upper_bound; lia. }
    destruct (IH (n / 10) (String (digit (n mod 10)) acc) Hq) as (a & ds & Heq & Hall & Hz & _).
    exists a, (ds ++ [digit (n mod 10)])%list. rewrite <-app_assoc.
    inversion Hall; subst. split_and!; [done| | |lia].
    + constructor; [done|]. apply Forall_app; split; [done|].
      constructor; [|done]. apply digit_between; lia.
    + intros _. apply Hz. pose proof (Z.div_mod n 10). lia.
Qed.

(** The text of an int64: an optional sign and digits. *)
Lemma Itoa_shape n :
  in_int64 n ->
  exists sgn a ds, lit (Itoa n) = (sgn ++ a :: ds)%list /\
    (sgn = [] \/ sgn = ["-"%char]) /\
    Forall (fun a => between 48 57 a = true) (a :: ds) /\
    (a = "0"%char -> ds = []).
Proof.
  unfold in_int64, int64_min, int64_max, Itoa, int64_fuel. intros Hn.
  destruct (Z.ltb_spec n 0).
  - destruct (print_digits_shape 19 (- n) "") as (a & ds & Heq & Hall & H0 & H10); [lia|].
    exists ["-"%char], a, ds. split_and!; [|by right|done|].
    + change (lit (String "-" ?s)) with ("-"%char :: lit s). by rewrite Heq, app_nil_r.
    + intros ->. destruct (H0 ltac:(lia)). done.
  - destruct (print_digits_shape 19 n "") as (a & ds & Heq & Hall & H0 & H10); [lia|].
    exists [], a, ds. split_and!; [|by left|done|].
    + by rewrite Heq, app_nil_r.
    + intros ->. destruct (decide (n = 0)) as [->|]; [by apply H10|]. destruct H0; [lia|done].
Qed.

Lemma digit_facts a :
  between 48 57 a = true ->
  is_num_char a = true /\ is_ws a = false /\ Ascii.eqb a dquote = false /\
  Ascii.eqb a "{"%char = false /\ Ascii.eqb a "["%char = false /\ Ascii.eqb a "n"%char = false /\
  Ascii.eqb a "t"%char = false /\ Ascii.eqb a "f"%char = false /\ Ascii.eqb a "-"%char = false /\
  Ascii.eqb a "+"%char = false.
Proof. all_bytes a; first [discriminate | repeat split]. Qed.

Lemma span_all f l r :
  Forall (fun a => f a = true) l -> match r with [] => True | b :: _ => f b = false end ->
  span f (l ++ r) = (l, r).
Proof.
  intros Hl Hr. induction Hl as [|a l Ha _ IH]; simpl.
  - destruct r as [|b r]; simpl; [done|by rewrite Hr].
  - by rewrite Ha, IH.
Qed.

Lemma Itoa_num_chars n : in_int64 n -> Forall (fun a => is_num_char a = true) (lit (Itoa n)).
Proof.
  intros Hn. destruct (Itoa_shape n Hn) as (sgn & a & ds & -> & Hs & Hall & _).
  apply Forall_app; split; [by destruct Hs as [-> | ->]; repeat constructor|].
  eapply Forall_impl; [exact Hall|]. intros b Hb. by apply digit_facts in Hb as [-> _].
Qed.

Lemma Itoa_valid n : in_int64 n -> valid_number (lit (Itoa n)) = true.
Proof.
  intros Hn. destruct (Itoa_shape n Hn) as (sgn & a & ds & -> & Hs & Hall & Hz).
  assert (int_part (a :: ds) = Some []) as Hi.
  { simpl. destruct (Ascii.eqb_spec a "0"%char) as [->|]; [by rewrite Hz|].
    unfold digits1. rewrite <-(app_nil_r (a :: ds)), span_all by done. done. }
  inversion Hall as [|? ? Ha ?]; subst. apply digit_facts in Ha as Hf; destruct_and! Hf.
  unfold valid_number. destruct Hs as [-> | ->]; simpl app; cbv iota.
  - rewrite H8, Hi. done.
  - rewrite Ascii.eqb_refl, Hi. done.
Qed.

Lemma ParseInt_Itoa n : in_int64 n -> ParseInt (Itoa n) = Some n.
Proof.
  intros Hn. unfold Itoa.
  assert (10 ^ Z.of_nat int64_fuel = 100000000000000000000) as Hp by done.
  pose proof Hn as Hb. unfold in_int64, int64_min, int64_max in Hb.
  destruct (Z.ltb_spec n 0).
  - destruct (print_digits_shape 19 (- n) "") as (a & ds & Heq & _); [lia|].
    fold int64_fuel in Heq.
    pose proof (parse_print_digits int64_fuel (- n) "" ltac:(lia)) as Hpp.
    destruct (print_digits int64_fuel (- n) "") as [|b s]; [done|].
    unfold ParseInt. rewrite Hpp. simpl. rewrite Z.opp_involutive. by rewrite decide_True.
  - destruct (print_digits_shape 19 n "") as (a & ds & Heq & Hall & _); [lia|].
    fold int64_fuel in Heq.
    pose proof (parse_print_digits int64_fuel n "" ltac:(lia)) as Hpp.
    destruct (print_digits int64_fuel n "") as [|b s]; [done|].
    injection Heq as -> _. inversion Hall as [|? ? Ha _]; subst.
    unfold ParseInt. clear Hall. revert Ha Hpp.
    all_bytes a; intros Ha Hpp; first [discriminate Ha | rewrite Hpp; simpl; by rewrite decide_True].
Qed.

(** ** The round trip of a flat struct *)

Definition scalar (v : json) : Prop :=
  (exists s, v = JStr (quote_body s)) \/ (exists n, in_int64 n /\ v = jint n).

Definition closes (l : list ascii) : Prop :=
  match l with c :: _ => c = ","%char \/ c = "}"%char \/ c = "]"%char | [] => True end.

Lemma parse_scalar f d v r :
  (0 < f)%nat -> scalar v -> closes r -> parse_value f d (print v ++ r) = Some (v, r).
Proof.
  destruct f as [|f]; [lia|]. intros _.
  intros [[s ->]|(n & Hn & ->)] Hr.
  - unfold print, quoted. simpl app. rewrite <-app_assoc. simpl app.
    cbn [parse_value]. simpl skip_ws. cbv iota. rewrite Ascii.eqb_refl.
    by rewrite scan_quote_body.
  - unfold jint, print. pose proof (Itoa_num_chars n Hn) as Hc.
    pose proof (Itoa_valid n Hn) as Hv.
    destruct (Itoa_shape n Hn) as (sgn & a & ds & Heq & Hs & Hall & _).
    assert (span is_num_char (lit (Itoa n) ++ r) = (lit (Itoa n), r)) as Hsp.
    { apply span_all; [done|]. destruct r as [|b r]; [done|]. by destruct Hr as [-> |[-> | ->]]. }
    inversion Hall as [|? ? Ha _]; subst. apply digit_facts in Ha as Hf; destruct_and! Hf.
    assert (forall b l, lit (Itoa n) = b :: l -> b = a \/ b = "-"%char) as Hhd.
    { intros b l Hbl. rewrite Heq in Hbl. destruct Hs as [-> | ->]; injection Hbl; auto. }
    destruct (lit (Itoa n)) as [|b l] eqn:Hl; [by destruct Hs as [-> | ->]|].
    cbn [parse_value app skip_ws].
    assert (is_ws b = false /\ Ascii.eqb b dquote = false /\ Ascii.eqb b "{"%char = false /\
            Ascii.eqb b "["%char = false /\ Ascii.eqb "n"%char b = false /\
            Ascii.eqb "t"%char b = false /\ Ascii.eqb "f"%char b = false) as Hb.
    { destruct (Hhd b l eq_refl) as [-> | ->]; [|by repeat split].
      rewrite !(Ascii.eqb_sym _ a). split_and!; done. }
    destruct_and! Hb.
    repeat match goal with H : is_ws b = false |- _ => rewrite H end.
    repeat match goal with H : Ascii.eqb b _ = false |- _ => rewrite H end.
    cbn [strip_prefix lit String.list_ascii_of_string].
    repeat match goal with H : Ascii.eqb _ b = false |- _ => rewrite H end.
    change (b :: l ++ r)%list with ((b :: l) ++ r)%list. by rewrite Hsp, Hv.
Qed.

Definition print_member (m : list ascii * json) : list ascii :=
  (quoted m.1 ++ ":"%char :: print m.2)%list.

Definition member_ok (m : list ascii * json) : Prop := quote_body m.1 = m.1 /\ scalar m.2.

Lemma join_cons sep l ls :
  ls <> [] -> join sep (l :: ls) = (l ++ sep :: join sep ls)%list.
Proof. by destruct ls. Qed.

Lemma print_member_app k v x :
  (print_member (k, v) ++ x)%list = (dquote :: k ++ dquote :: ":"%char :: print v ++ x)%list.
Proof. unfold print_member, quoted; simpl. by rewrite <-!app_assoc. Qed.

(** *** Nested values

    [reads d v]: at depth [d] the parser reads [v] back from what is printed, in
    front of any text that ends a value. *)

Definition reads (d : Z) (v : json) : Prop :=
  forall f r, (2 * length (print v) < f)%nat -> closes r -> parse_value f d (print v ++ r) = Some (v, r).

Lemma reads_scalar d v : scalar v -> reads d v.
Proof. intros Hv f r Hf Hr. apply parse_scalar; [lia|done|done]. Qed.

Definition member_reads (d : Z) (m : list ascii * json) : Prop := quote_body m.1 = m.1 /\ reads d m.2.

Lemma parse_members_print f d ms r :
  ms <> [] -> Forall (member_reads d) ms -> (2 * length (join ","%char (map print_member ms)) + 1 < f)%nat ->
  parse_members f d (join ","%char (map print_member ms) ++ "}"%char :: r) = Some (ms, r).
Proof.
  intros Hne Hall. revert f. induction Hall as [|[k v] ms [Hk Hv] Hall IH]; [done|].
  intros [|f] Hf; [lia|]. simpl in Hk, Hv.
  assert (forall x, scan_string (k ++ dquote :: x) = Some (k, x)) as Hscan.
  { intros x. rewrite <-Hk at 1. rewrite scan_quote_body. by rewrite Hk. }
  assert (2 * length (print v) < 2 * length (print_member (k, v)))%nat as Hlen.
  { unfold print_member, quoted. simpl. rewrite !length_app. simpl. lia. }
  destruct (decide (ms = [])) as [->|Hms].
  - cbn [join map] in *. rewrite print_member_app.
    cbn [parse_members]. simpl skip_ws. cbv iota. rewrite Ascii.eqb_refl, Hscan. simpl skip_ws. cbv iota.
    rewrite Hv by (lia || (right; by left)). done.
  - cbn [map] in *. rewrite join_cons in * by (by destruct ms).
    rewrite length_app in Hf. cbn [length] in Hf. rewrite <-app_assoc, print_member_app.
    specialize (IH Hms f ltac:(lia)). set (tl := join ","%char (map print_member ms)) in *.
    cbn [parse_members]. simpl skip_ws. cbv iota. rewrite Ascii.eqb_refl, Hscan.
    simpl skip_ws. cbv iota. simpl app. rewrite Hv by (lia || by left). simpl skip_ws. cbv iota. by rewrite IH.
Qed.

Lemma print_obj ms :
  print (JObj ms) = ("{"%char :: join ","%char (map print_member ms) ++ ["}"%char])%list.
Proof.
  cbn [print]. do 3 f_equal. apply map_ext. by intros [k v].
Qed.

Lemma reads_obj d ms :
  d + 1 <= maxNestingDepth -> ms <> [] -> Forall (member_reads (d + 1)) ms -> reads d (JObj ms).
Proof.
  intros Hd Hne Hall f r Hf Hr. rewrite print_obj in *. cbn [length app] in *. rewrite length_app in Hf. simpl in Hf.
  destruct f as [|f]; [lia|].
  assert (exists b, (join ","%char (map print_member ms) ++ "}"%char :: r)%list = dquote :: b) as [b Hb].
  { destruct ms as [|[k v] [|m ms]]; [done|eexists; reflexivity|eexists; reflexivity]. }
  rewrite <-app_assoc. cbn [app]. rewrite Hb.
  assert (parse_value (S f) d ("{"%char :: dquote :: b) = if maxNestingDepth <? d + 1 then None else
    match parse_members f (d + 1) (dquote :: b) with
    | Some (ms, r) => Some (JObj ms, r) | None => None end) as -> by reflexivity.
  rewrite (proj2 (Z.ltb_ge _ _)), <-Hb by lia. by rewrite parse_members_print by (done || lia).
Qed.

Lemma parse_elems_print f d vs r :
  vs <> [] -> Forall (reads d) vs -> (2 * length (join ","%char (map print vs)) + 1 < f)%nat ->
  parse_elems f d (join ","%char (map print vs) ++ "]"%char :: r) = Some (vs, r).
Proof.
  intros Hne Hall. revert f. induction Hall as [|v vs Hv Hall IH]; [done|].
  intros [|f] Hf; [lia|]. destruct (decide (vs = [])) as [->|Hvs].
  - cbn [join map] in *. cbn [parse_elems]. rewrite Hv by (lia || (right; by right)). done.
  - cbn [map] in *. rewrite join_cons in * by (by destruct vs). rewrite <-app_assoc.
    rewrite length_app in Hf. cbn [length] in Hf. specialize (IH Hvs f ltac:(lia)).
    cbn [app]. cbn [parse_elems]. rewrite Hv by (lia || by left). simpl skip_ws. cbv iota. by rewrite IH.
Qed.

(** An array of objects. *)
Lemma reads_arr d mss :
  d + 1 <= maxNestingDepth -> mss <> [] -> Forall (fun ms => reads (d + 1) (JObj ms)) mss ->
  reads d (JArr (map JObj mss)).
Proof.
  intros Hd Hne Hall f r Hf Hr. cbn [print] in *. cbn [length app] in *. rewrite length_app in Hf. simpl in Hf.
  destruct f as [|f]; [lia|].
  assert (exists b, (join ","%char (map print (map JObj mss)) ++ "]"%char :: r)%list = "{"%char :: b) as [b Hb].
  { destruct mss as [|ms [|ms' mss]]; [done|eexists; reflexivity|eexists; reflexivity]. }
  rewrite <-app_assoc. cbn [app]. rewrite Hb.
  assert (parse_value (S f) d ("["%char :: "{"%char :: b) = if maxNestingDepth <? d + 1 then None else
    match parse_elems f (d + 1) ("{"%char :: b) with
    | Some (vs, r) => Some (JArr vs, r) | None => None end) as -> by reflexivity.
  rewrite (proj2 (Z.ltb_ge _ _)), <-Hb by lia.
  rewrite parse_elems_print; [done|by destruct mss|by apply Forall_fmap|lia].
Qed.

Lemma parse_print v : reads 0 v -> parse (print v) = Some v.
Proof.
  intros Hv. unfold parse. rewrite <-(app_nil_r (print v)) at 2. by rewrite Hv by (lia || done).
Qed.

Lemma parse_print_obj ms : ms <> [] -> Forall member_ok ms -> parse (print (JObj ms)) = Some (JObj ms).
Proof.
  intros Hne Hall. apply parse_print, reads_obj; [done|done|].
  eapply Forall_impl; [exact Hall|]. intros [k v] [Hk Hv]. split; [done|by apply reads_scalar].
Qed.

(** What [json.Marshal] prints, [json.Unmarshal] decodes member by member. *)
Lemma unmarshal_marshal {S} (fs : list (field S)) (ms : list (string * json)) (s : S) :
  ms <> [] -> Forall (fun m => member_ok (lit m.1, m.2)) ms ->
  unmarshal fs (marshal ms) s = decode_members fs (map (fun '(k, v) => (lit k, v)) ms) s.
Proof.
  intros Hne Hall. unfold unmarshal, marshal, lit at 1.
  rewrite String.list_ascii_of_string_of_list_ascii, parse_print_obj.
  - done.
  - by destruct ms.
  - clear Hne. induction Hall as [|[k v] ms Hm Hall IH]; constructor; done.
Qed.

(** Storing a printed string or number gives it back. *)
Lemma store_jstring {S} (set : string -> S -> S) t (s : S) :
  utf8_string t -> store_string set (jstring t) s = Some (set t s).
Proof.
  unfold utf8_string, jstring. intros Ht. simpl. unfold lit in Ht.
  by rewrite unquote_quote_body, String.string_of_list_ascii_of_string.
Qed.

Lemma store_jint {S} (set : Z -> S -> S) n (s : S) :
  in_int64 n -> store_int64 set (jint n) s = Some (set n s).
Proof.
  intros Hn. unfold jint. simpl. unfold lit.
  by rewrite String.string_of_list_ascii_of_string, ParseInt_Itoa.
Qed.

Create HintDb json_db.
Lemma jstring_scalar t : scalar (jstring t).
Proof. left. by eexists. Qed.
Lemma jint_scalar n : in_int64 n -> scalar (jint n).
Proof. right. by exists n. Qed.
#[export] Hint Resolve jstring_scalar jint_scalar : json_db.

(** ** Texts that need no escaping: digits and the marks of a timestamp *)

Definition plain (a : ascii) : bool :=
  between 48 57 a || existsb (Ascii.eqb a) ["-"; ":"; "T"; "."; "Z"]%char.

Lemma quote_body_plain l : Forall (fun a => plain a = true) l -> quote_body l = l.
Proof.
  induction 1 as [|a l Ha _ IH]; [done|].
  assert (quote_body (a :: l) = a :: quote_body l) as ->; [|by rewrite IH].
  revert Ha. all_bytes a; first [discriminate | reflexivity].
Qed.

Lemma digit_plain d : 0 <= d <= 9 -> plain (digit d) = true.
Proof. intros Hd%digit_between. unfold plain. by rewrite Hd. Qed.

Lemma print_padded_plain w n acc :
  Forall (fun a => plain a = true) (lit acc) ->
  Forall (fun a => plain a = true) (lit (print_padded w n acc)).
Proof.
  revert n acc; induction w as [|w IH]; intros n acc Ha; simpl; [done|].
  apply IH. constructor; [|done]. apply digit_plain.
  pose proof (Z.mod_pos_bound n 10 ltac:(lia)). lia.
Qed.

(** ** One member at a time *)

Lemma decode_step {S} (fs : list (field S)) k v ms (s s' : S) f :
  find_field fs (unquote (lit k)) = Some f -> fld_store f v s = Some s' ->
  decode_members fs ((lit k, v) :: ms) s = decode_members fs ms s'.
Proof. intros Hf Hs. cbn [decode_members]. by rewrite Hf, Hs. Qed.

Lemma decode_skip {S} (fs : list (field S)) k v ms (s : S) :
  find_field fs (unquote (lit k)) = None ->
  decode_members fs ((lit k, v) :: ms) s = decode_members fs ms s.
Proof. intros Hf. cbn [decode_members]. by rewrite Hf. Qed.

(** What every field keeps, decoding keeps. *)
Lemma unmarshal_keeps {S} (P : S -> Prop) (fs : list (field S)) text s s' :
  (forall f v x x', f ∈ fs -> fld_store f v x = Some x' -> P x -> P x') ->
  P s -> unmarshal fs text s = Some s' -> P s'.
Proof.
  intros Hf. unfold unmarshal. destruct (parse (lit text)) as [[| | | | |ms]|]; try done; [by intros ? [= <-]|].
  revert s; induction ms as [|[k v] ms IH]; intros s Hs; simpl; [by intros [= <-]|].
  assert (forall g f, List.find g fs = Some f -> f ∈ fs) as Hfind
    by (intros g f H%List.find_some; apply list_elem_of_In; by destruct H).
  destruct (find_field fs (unquote k)) as [f|] eqn:Hk; [|by apply IH].
  destruct (fld_store f v s) as [s1|] eqn:Hst; [|done]. apply IH. eapply Hf; [|exact Hst|exact Hs].
  unfold find_field in Hk. destruct (List.find _ fs) as [f'|] eqn:H1; [injection Hk as <-|]; by eapply Hfind.
Qed.

Lemma ParseInt_int64 s n : ParseInt s = Some n -> in_int64 n.
Proof. unfold ParseInt. intros H. repeat case_match; simplify_eq; done. Qed.

Lemma store_string_keeps {S} (P : S -> Prop) set v s s' :
  (forall x s, P s -> P (set x s)) -> store_string set v s = Some s' -> P s -> P s'.
Proof. intros Hset. destruct v; simpl; intros; simplify_eq; auto. Qed.

Lemma store_int64_keeps {S} (P : S -> Prop) set v s s' :
  (forall n s, in_int64 n -> P s -> P (set n s)) -> store_int64 set v s = Some s' -> P s -> P s'.
Proof.
  intros Hset. destruct v; simpl; intros; simplify_eq; auto.
  destruct (ParseInt _) as [n|] eqn:Hn; simplify_eq. eauto using ParseInt_int64.
Qed.

(** ** Plain texts

    What the text of an identifier is: UTF-8, not empty, no blanks around it. *)

Definition plain_text (s : string) : Prop := utf8_string s /\ TrimSpace s = s /\ s <> "".

Lemma utf8_ascii l : Forall (fun a => high a = false) l -> utf8_valid l = true.
Proof.
  induction 1 as [|a l Ha Hl IH]; [done|]. unfold high in Ha. apply negb_false_iff in Ha.
  cbn [utf8_valid utf8_size]. by rewrite Ha.
Qed.

(** The texts of UUIDs and of the like: small letters, digits and dashes. *)
Definition uuid_char (a : ascii) : bool := between 97 122 a || between 48 57 a || between 45 45 a.
Definition uuid_text (s : string) : bool := negb (bool_decide (s = "")) && forallb uuid_char (lit s).

Lemma strip_uuid ps a l :
  forallb (fun p => match p with b :: _ => negb (uuid_char b) | [] => false end) ps = true ->
  uuid_char a = true -> strip_one ps (a :: l) = None.
Proof.
  intros Hps Ha. induction ps as [|[|b p] ps IH]; [done..|]. simpl in Hps. apply andb_true_iff in Hps as [Hb Hps].
  cbn [strip_one strip_prefix]. destruct (Ascii.eqb_spec b a) as [->|]; [by rewrite Ha in Hb|by apply IH].
Qed.

Lemma trim_uuid n ps l :
  forallb (fun p => match p with b :: _ => negb (uuid_char b) | [] => false end) ps = true ->
  Forall (fun a => uuid_char a = true) l -> l <> [] -> trim_runes n ps l = l.
Proof.
  intros Hps Hl Hne. destruct n; [done|]. destruct Hl as [|a l Ha Hl]; [done|]. cbn [trim_runes]. by rewrite strip_uuid.
Qed.

Lemma uuid_text_plain s : uuid_text s = true -> plain_text s.
Proof.
  unfold uuid_text. intros [Hne%negb_true_iff%bool_decide_eq_false Hall]%andb_true_iff.
  assert (Forall (fun a => uuid_char a = true) (lit s)) as Hs
    by (apply Forall_forall; intros a Ha; apply (proj1 (forallb_forall _ _) Hall); by apply list_elem_of_In).
  assert (lit s <> []) as Hlit by (by destruct s).
  split; [|split; [|exact Hne]].
  - apply utf8_ascii. eapply Forall_impl; [exact Hs|]. intros a. unfold uuid_char, high, between. lia.
  - unfold TrimSpace, TrimLeft_space, TrimRight_space. fold (lit s).
    rewrite (trim_uuid (length (lit s)) space_runes (lit s)) by (done || reflexivity).
    rewrite trim_uuid; [|reflexivity|by apply Forall_reverse|].
    + rewrite reverse_involutive. unfold lit. apply String.string_of_list_ascii_of_string.
    + intros E. apply Hlit. rewrite <-(reverse_involutive (lit s)), E. done.
Qed.

(** Read back the members of a printed struct. *)
Ltac decode_members_by tac :=
  repeat first
    [ rewrite decode_skip by reflexivity
    | erewrite decode_step; [|reflexivity|
        first [apply store_jstring; tac | apply store_jint; tac | tac]] ].

(** The members of a struct print as they should. *)
Ltac members_ok :=
  repeat (apply Forall_cons; split; [split; [reflexivity|eauto with json_db]|]); apply Forall_nil; exact Logic.I.
