(* ===== verification/Utf8.v ===== *)
(** * UTF-8 texts

    What joining, trimming and JSON-decoding do to them: a text is a sequence of runes,
    blanks are whole runes, and a decoded JSON string is always UTF-8, whatever the
    bytes between its quotes are. *)

From S2P Require Import Prelude GoLib Json.
From Stdlib Require Import Ascii.

(** ** Runes *)

Definition rune (p : list ascii) : Prop := p <> [] /\ utf8_size p = length p.

Lemma rune_app p l : rune p -> utf8_size (p ++ l) = length p.
Proof.
  intros [Hne Hp]. pose proof (utf8_size_shape p) as Hs. rewrite Hp in Hs.
  destruct p as [|a [|b [|c [|d [|e p]]]]]; [done|..]; simpl length in *.
  - destruct Hs as (? & ? & [= <- _] & Ha). unfold high in Ha. apply negb_false_iff in Ha. cbn [app utf8_size]. by rewrite Ha.
  - by apply (utf8_size_tail2 a b []).
  - by apply (utf8_size_tail3 a b c []).
  - by apply (utf8_size_tail4 a b c d []).
  - exfalso. revert Hp. cbn [utf8_size]. repeat case_match; done.
Qed.

Lemma valid_rune p l : rune p -> utf8_valid (p ++ l) = utf8_valid l.
Proof.
  intros Hp. pose proof (rune_app p l Hp) as Hs. destruct Hp as [Hne Hp].
  destruct p as [|a [|b [|c [|d [|e p]]]]]; [done|..]; simpl app in *; simpl length in *; cbn [utf8_valid]; rewrite ?Hs; try done.
  exfalso. revert Hp. cbn [utf8_size]. repeat case_match; done.
Qed.

Lemma valid_split l : utf8_valid l = true -> l <> [] -> exists p l', l = (p ++ l')%list /\ rune p /\ utf8_valid l' = true.
Proof.
  intros Hv Hne. destruct l as [|a l]; [done|]. cbn [utf8_valid] in Hv.
  pose proof (utf8_size_shape (a :: l)) as Hs.
  destruct (utf8_size (a :: l)) as [|[|[|[|[|n]]]]] eqn:Hn; try (by destruct l).
  - destruct Hs as (? & ? & [= <- <-] & Ha). exists [a], l. split; [done|split; [split; [done|]|exact Hv]].
    unfold high in Ha. apply negb_false_iff in Ha. cbn [utf8_size]. by rewrite Ha.
  - destruct Hs as (? & b & l2 & [= <- ->] & _). exists [a; b], l2. split; [done|split; [split; [done|]|exact Hv]]. by apply (utf8_size_tail2 a b l2).
  - destruct Hs as (? & b & c & l2 & [= <- ->] & _). exists [a; b; c], l2. split; [done|split; [split; [done|]|exact Hv]]. by apply (utf8_size_tail3 a b c l2).
  - destruct Hs as (? & b & c & d & l2 & [= <- ->] & _). exists [a; b; c; d], l2.
    split; [done|split; [split; [done|]|exact Hv]]. by apply (utf8_size_tail4 a b c d l2).
Qed.

(** By induction on the runes of a text. *)
Lemma runes_ind (P : list ascii -> Prop) :
  P [] -> (forall p l, rune p -> utf8_valid l = true -> P l -> P (p ++ l)%list) ->
  forall l, utf8_valid l = true -> P l.
Proof.
  intros H0 HS l. induction l as [l IH] using list_len_ind. intros Hv.
  destruct (decide (l = [])) as [->|Hne]; [done|].
  destruct (valid_split l Hv Hne) as (p & l' & -> & Hp & Hl'). apply HS; [done..|]. apply IH; [|done].
  rewrite length_app. destruct Hp as [Hp _]. destruct p; [done|]. simpl. lia.
Qed.

Lemma utf8_valid_app l1 l2 : utf8_valid l1 = true -> utf8_valid l2 = true -> utf8_valid (l1 ++ l2) = true.
Proof.
  intros H1 H2. revert l1 H1. apply runes_ind; [done|]. intros p l Hp _ IH. by rewrite <-app_assoc, valid_rune.
Qed.

Lemma utf8_append s t : utf8_string s -> utf8_string t -> utf8_string (s ++ t).
Proof. unfold utf8_string. rewrite lit_app. apply utf8_valid_app. Qed.

(** A byte that continues a rune; none starts one. *)
Definition continues (a : ascii) : bool := between 128 191 a.

Lemma rune_tail a p : rune (a :: p) -> Forall (fun b => continues b = true) p.
Proof.
  intros [_ Hp]. unfold continues. revert Hp.
  assert (forall lo hi b, between lo hi b = true -> 128 <= lo -> hi <= 191 -> between 128 191 b = true) as Hin
    by (unfold between; intros; lia).
  destruct p as [|b [|c [|d [|e p]]]]; [constructor|..]; cbn [utf8_size length]; intros Hp; repeat case_match; try done;
    repeat match goal with
    | H : (_ && _) = true |- _ => apply andb_true_iff in H as [? ?]
    | H : (_ || _) = true |- _ => apply orb_true_iff in H as [?|?]
    end; repeat constructor; try done; (eapply Hin; [eassumption|lia|lia]).
Qed.

(** A text cut before a byte that starts a rune. *)
Lemma valid_cut l b r : utf8_valid (l ++ b :: r) = true -> continues b = false -> utf8_valid l = true.
Proof.
  intros Hv Hb. remember (l ++ b :: r)%list as t eqn:Ht. revert t Hv l Ht.
  apply (runes_ind (fun t => forall l, t = (l ++ b :: r)%list -> utf8_valid l = true)); [by intros []|].
  intros p t Hp _ IH l Ht.
  apply app_eq_inv in Ht as [(k & -> & Ht)|(k & -> & ->)].
  - destruct k as [|a k]; [rewrite app_nil_r in Hp; rewrite <-(app_nil_r l); by apply (valid_rune l [])|].
    injection Ht as <- ->. destruct l as [|a l]; [done|]. apply rune_tail in Hp.
    rewrite Forall_app, Forall_cons in Hp. destruct Hp as (_ & Hb' & _). congruence.
  - rewrite valid_rune by done. by apply IH.
Qed.

(** ** Trimming *)

Lemma trim_runes_keep (P : list ascii -> Prop) ps fuel l :
  (forall p l, p ∈ ps -> P (p ++ l)%list -> P l) -> P l -> P (trim_runes fuel ps l).
Proof.
  intros HP. revert l. induction fuel as [|fuel IH]; intros l Hl; cbn [trim_runes]; [done|].
  destruct (strip_one ps l) as [r|] eqn:E; [|done]. apply strip_one_Some in E as (p & Hp & ->). apply IH. by eapply HP.
Qed.

Lemma space_rune p : p ∈ space_runes -> rune p /\ exists b r, p = b :: r /\ continues b = false.
Proof.
  assert (forallb (fun p => match p with b :: _ => negb (continues b) | [] => false end &&
    Nat.eqb (utf8_size p) (length p)) space_runes = true) as H by reflexivity.
  intros Hp%list_elem_of_In. rewrite forallb_forall in H. specialize (H p Hp).
  destruct p as [|b r]; [done|]. apply andb_true_iff in H as [Hb%negb_true_iff Hs%Nat.eqb_eq].
  split; [by split|eauto].
Qed.

Lemma utf8_TrimSpace s : utf8_string s -> utf8_string (TrimSpace s).
Proof.
  unfold utf8_string, TrimSpace, TrimRight_space, TrimLeft_space. unfold lit at 2.
  rewrite String.list_ascii_of_string_of_list_ascii. fold (lit s). intros Hs.
  set (l := trim_runes (length (lit s)) space_runes (lit s)).
  assert (utf8_valid l = true) as Hl.
  { apply (trim_runes_keep (fun l => utf8_valid l = true)); [|exact Hs].
    intros p r [Hp _]%space_rune. by rewrite valid_rune. }
  apply (trim_runes_keep (fun l => utf8_valid (reverse l) = true)); [|by rewrite reverse_involutive].
  intros p r (q & -> & Hq)%list_elem_of_fmap. rewrite reverse_app, reverse_involutive.
  destruct (space_rune q Hq) as (_ & b & q' & -> & Hb). intros Hv. by eapply valid_cut.
Qed.

(** ** JSON strings *)

Lemma byte_val_chr n : 0 <= n < 256 -> byte_val (chr (Z.to_nat n)) = n.
Proof. intros Hn. unfold byte_val, chr. rewrite nat_ascii_embedding; lia. Qed.

Lemma between_chr lo hi n : 0 <= n < 256 -> between lo hi (chr (Z.to_nat n)) = (lo <=? n) && (n <=? hi).
Proof. intros Hn. unfold between. by rewrite byte_val_chr. Qed.

(** Decide a goal of comparisons, the known ones first. *)
Ltac comparisons :=
  repeat (match goal with
    | |- context [?a <=? ?b] =>
        first [rewrite (proj2 (Z.leb_le a b)) by lia
              |rewrite (proj2 (Z.leb_gt a b)) by lia
              |destruct (Z.leb_spec a b)]
    end; cbn [andb orb]); try done; lia.

Lemma encode_rune_valid r :
  0 <= r < 1114112 -> is_surrogate r = false -> utf8_valid (encode_rune r) = true.
Proof.
  intros Hr Hs. unfold is_surrogate in Hs. unfold encode_rune.
  destruct (Z.ltb_spec r 128); [|destruct (Z.ltb_spec r 2048); [|destruct (Z.ltb_spec r 65536)]].
  all: pose proof (Z.mod_pos_bound r 64 ltac:(lia)); pose proof (Z.mod_pos_bound (r / 64) 64 ltac:(lia));
    pose proof (Z.mod_pos_bound (r / 4096) 64 ltac:(lia)).
  - cbn [utf8_valid utf8_size]. rewrite !between_chr by lia. comparisons.
  - assert (2 <= r / 64 < 32) by (split; [apply Z.div_le_lower_bound|apply Z.div_lt_upper_bound]; lia).
    cbn [utf8_valid utf8_size]. rewrite !between_chr by lia. comparisons.
  - assert (0 <= r / 4096 < 16) by (split; [apply Z.div_pos|apply Z.div_lt_upper_bound]; lia).
    pose proof (Z.div_mod (r / 64) 64 ltac:(lia)) as E1. rewrite Z.div_div in E1 by lia. change (64 * 64) with 4096 in E1.
    pose proof (Z.div_mod r 64 ltac:(lia)).
    cbn [utf8_valid utf8_size]. rewrite !between_chr by lia. comparisons.
  - assert (0 <= r / 262144 < 5) by (split; [apply Z.div_pos|apply Z.div_lt_upper_bound]; lia).
    pose proof (Z.div_mod (r / 4096) 64 ltac:(lia)) as E1. rewrite Z.div_div in E1 by lia. change (4096 * 64) with 262144 in E1.
    pose proof (Z.div_mod r 4096 ltac:(lia)). pose proof (Z.mod_pos_bound r 4096 ltac:(lia)).
    cbn [utf8_valid utf8_size]. rewrite !between_chr by lia. comparisons.
Qed.

Lemma hex_val_range a n : hex_val a = Some n -> 0 <= n < 16.
Proof. unfold hex_val, between. intros H. repeat case_match; simplify_eq; lia. Qed.

Lemma hex4_range a b c d r : hex4 a b c d = Some r -> 0 <= r < 65536.
Proof.
  unfold hex4. intros H. repeat case_match; simplify_eq.
  repeat match goal with H : hex_val _ = Some _ |- _ => apply hex_val_range in H end. lia.
Qed.

Lemma surrogate_range r r1 rr : surrogate_pair r r1 = Some rr -> 65536 <= rr < 1114112.
Proof. unfold surrogate_pair. intros H. destruct (_ && _) eqn:E; simplify_eq. lia. Qed.

(** A decoded string is UTF-8. *)
Lemma unquote_valid l : utf8_valid (unquote l) = true.
Proof.
  induction l as [l IH] using list_len_ind. destruct l as [|a l]; [done|].
  destruct (Ascii.eqb a backslash) eqn:Ha.
  - cbn [unquote]. rewrite Ha. destruct l as [|e l]; [done|]. destruct (Ascii.eqb e "u"%char).
    + destruct l as [|h1 [|h2 [|h3 [|h4 l]]]]; try done. destruct (hex4 h1 h2 h3 h4) as [r|] eqn:Hr; [|done].
      apply hex4_range in Hr. destruct (is_surrogate r) eqn:Hsur.
      2: { apply utf8_valid_app; [apply encode_rune_valid; [lia|done]|apply IH; simpl; lia]. }
      assert (utf8_valid (replacement_char ++ unquote l) = true) as Hrep
        by (apply utf8_valid_app; [done|apply IH; simpl; lia]).
      destruct l as [|b' [|u' [|k1 [|k2 [|k3 [|k4 l]]]]]]; try exact Hrep.
      destruct (if _ && _ then hex4 k1 k2 k3 k4 else None) as [r1|]; [|exact Hrep].
      destruct (surrogate_pair r r1) as [rr|] eqn:Hrr; [|exact Hrep]. apply surrogate_range in Hrr.
      apply utf8_valid_app; [|apply IH; simpl; lia]. apply encode_rune_valid; [lia|]. unfold is_surrogate. lia.
    + assert (forall x, high x = false -> utf8_valid (x :: unquote l) = true) as Hx.
      { intros x Hx. apply (utf8_valid_app [x]); [by apply utf8_ascii; repeat constructor|apply IH; simpl; lia]. }
      repeat (match goal with |- context [if ?c then _ else _] => destruct c eqn:? end; [apply Hx; try done|]); [|done].
      match goal with H : (_ || _) = true |- _ => revert H end. all_bytes e; done.
  - assert (unquote (a :: l) = match utf8_size (a :: l), l with
      | 1%nat, _ => a :: unquote l
      | 2%nat, b :: l2 => a :: b :: unquote l2
      | 3%nat, b :: c :: l3 => a :: b :: c :: unquote l3
      | 4%nat, b :: c :: d :: l4 => a :: b :: c :: d :: unquote l4
      | _, _ => (replacement_char ++ unquote l)%list end) as -> by (cbn [unquote]; by rewrite Ha).
    assert (utf8_valid (replacement_char ++ unquote l) = true) as Hrep
      by (apply utf8_valid_app; [done|apply IH; simpl; lia]).
    pose proof (utf8_size_shape (a :: l)) as Hs.
    destruct (utf8_size (a :: l)) as [|[|[|[|[|n]]]]] eqn:Hn; try exact Hrep.
    + destruct Hs as (? & ? & [= <- <-] & Hh). apply (utf8_valid_app [a]); [by apply utf8_ascii; repeat constructor|].
      apply IH. simpl. lia.
    + destruct Hs as (? & b & l2 & [= <- ->] & _).
      change (utf8_valid ([a; b] ++ unquote l2) = true). rewrite valid_rune; [apply IH; simpl; lia|].
      split; [done|]. by apply (utf8_size_tail2 a b l2).
    + destruct Hs as (? & b & c & l2 & [= <- ->] & _).
      change (utf8_valid ([a; b; c] ++ unquote l2) = true). rewrite valid_rune; [apply IH; simpl; lia|].
      split; [done|]. by apply (utf8_size_tail3 a b c l2).
    + destruct Hs as (? & b & c & d & l2 & [= <- ->] & _).
      change (utf8_valid ([a; b; c; d] ++ unquote l2) = true). rewrite valid_rune; [apply IH; simpl; lia|].
      split; [done|]. by apply (utf8_size_tail4 a b c d l2).
Qed.

Lemma store_string_utf8 {S} (P : S -> Prop) set v s s' :
  (forall x s, utf8_string x -> P s -> P (set x s)) -> store_string set v s = Some s' -> P s -> P s'.
Proof.
  intros Hset. destruct v; simpl; intros; simplify_eq; auto. apply Hset; [|done].
  unfold utf8_string, lit. rewrite String.list_ascii_of_string_of_list_ascii. apply unquote_valid.
Qed.
