(* ===== verification/GoTime.v ===== *)
(** * time.Time as the services use it

    An instant is its number of nanoseconds since the Unix epoch, in UTC
    ([time.Now().UTC()], and the zone a PostgreSQL session in UTC gives back).
    Calendar dates, the layout of the HTTP responses, and the JSON form of
    [time.Time] (RFC 3339 with nanoseconds), which [json.Unmarshal] reads back. *)

From S2P Require Import Prelude GoLib Json.
From Stdlib Require Import Ascii.

(** ** Calendar *)

Definition ns_per_sec : Z := 1000000000.
Definition ns_per_day : Z := 86400 * ns_per_sec.
(** Days from 1 January of year 1 to 1 January 1970. *)
Definition epoch_day : Z := 719162.

Definition is_leap (y : Z) : bool :=
  bool_decide (y mod 4 = 0 /\ (y mod 100 <> 0 \/ y mod 400 = 0)).

Definition month_lengths (leap : bool) : list Z :=
  [31; if leap then 29 else 28; 31; 30; 31; 30; 31; 31; 30; 31; 30; 31].

(** Month and day of the month of a day of the year (both from 0 in, from 1 out). *)
Fixpoint month_day (m : Z) (lens : list Z) (yday : Z) : Z * Z :=
  match lens with
  | [] => (m, yday + 1)
  | len :: lens => if yday <? len then (m, yday + 1) else month_day (m + 1) lens (yday - len)
  end.
Fixpoint days_before (m : nat) (lens : list Z) : Z :=
  match m, lens with
  | S m, len :: lens => len + days_before m lens
  | _, _ => 0
  end.

(** Year and day of the year of a day counted from 1 January of year 1. *)
Definition year_yday (d : Z) : Z * Z :=
  let n400 := d / 146097 in let r := d mod 146097 in
  let n100 := Z.min 3 (r / 36524) in let r1 := r - 36524 * n100 in
  let n4 := r1 / 1461 in let r2 := r1 mod 1461 in
  let n1 := Z.min 3 (r2 / 365) in
  (400 * n400 + 100 * n100 + 4 * n4 + n1 + 1, r2 - 365 * n1).

Definition days_before_year (y : Z) : Z :=
  365 * (y - 1) + (y - 1) / 4 - (y - 1) / 100 + (y - 1) / 400.

Record civil := Civil {
  cyear : Z; cmonth : Z; cday : Z; chour : Z; cmin : Z; csec : Z; cnsec : Z
}.

Definition to_civil (t : Z) : civil :=
  let day := t / ns_per_day in let r := t mod ns_per_day in
  let '(y, yday) := year_yday (day + epoch_day) in
  let '(m, d) := month_day 1 (month_lengths (is_leap y)) yday in
  let s := r / ns_per_sec in
  Civil y m d (s / 3600) (s / 60 mod 60) (s mod 60) (r mod ns_per_sec).

(** [time.Date(..., time.UTC)] of fields in range. *)
Definition of_civil (c : civil) : Z :=
  let day := days_before_year (cyear c)
             + days_before (Z.to_nat (cmonth c - 1)) (month_lengths (is_leap (cyear c)))
             + (cday c - 1) - epoch_day in
  (day * 86400 + chour c * 3600 + cmin c * 60 + csec c) * ns_per_sec + cnsec c.

(** ** Formatting *)

Definition pad2 (n : Z) (acc : string) : string := print_padded 2 n acc.
Definition year_str (y : Z) (acc : string) : string :=
  if y <? 0 then String "-" (if - y <? 10000 then print_padded 4 (- y) acc else print_digits int64_fuel (- y) acc)
  else if y <? 10000 then print_padded 4 y acc else print_digits int64_fuel y acc.

Definition format_civil (c : civil) (tail : string) : string :=
  year_str (cyear c) (String "-" (pad2 (cmonth c) (String "-" (pad2 (cday c)
    (String "T" (pad2 (chour c) (String ":" (pad2 (cmin c) (String ":" (pad2 (csec c) tail)))))))))).

(** [t.Format] of the layout 2006-01-02T15:04:05Z07:00. *)
Definition format_seconds (t : Z) : string := format_civil (to_civil t) "Z".

(** The digits of [n] after the point, [k] places, without trailing zeros. *)
Fixpoint frac_digits (k : nat) (n : Z) : list ascii :=
  match k with
  | O => []
  | S k =>
      if n =? 0 then []
      else digit (n / 10 ^ Z.of_nat k) :: frac_digits k (n mod 10 ^ Z.of_nat k)
  end.
Fixpoint parse_frac (k : nat) (l : list ascii) : Z :=
  match k, l with
  | S k, a :: l => default 0 (digit_val a) * 10 ^ Z.of_nat k + parse_frac k l
  | _, _ => 0
  end.

Definition format_nano (t : Z) : list ascii :=
  let c := to_civil t in
  let frac := if cnsec c =? 0 then [] else "."%char :: frac_digits 9 (cnsec c) in
  (lit (format_civil c "") ++ frac ++ ["Z"%char])%list.

(** [Time.MarshalJSON]: only years 0 to 9999 have a JSON form. *)
Definition marshal_time (t : Z) : option json :=
  let y := cyear (to_civil t) in
  if (0 <=? y) && (y <=? 9999) then Some (JStr (format_nano t)) else None.

Definition num2 (lo hi : Z) (a b : ascii) : option Z :=
  match digit_val a, digit_val b with
  | Some a, Some b =>
      let n := 10 * a + b in if (lo <=? n) && (n <=? hi) then Some n else None
  | _, _ => None
  end.

Definition days_in (m y : Z) : Z :=
  nth (Z.to_nat (m - 1)) (month_lengths (is_leap y)) 0.

(** parseRFC3339: the date and time of day, an optional fraction, Z or an offset.
    Texts that only time.Parse's lenient fallback accepts are not covered. *)
Definition parse_zone (l : list ascii) : option Z :=
  match l with
  | [z] => if Ascii.eqb z "Z"%char then Some 0 else None
  | [s; h1; h2; c; m1; m2] =>
      match num2 0 23 h1 h2, num2 0 59 m1 m2 with
      | Some h, Some m =>
          if negb (Ascii.eqb c ":"%char) then None
          else if Ascii.eqb s "+"%char then Some ((h * 60 + m) * 60)
          else if Ascii.eqb s "-"%char then Some (- ((h * 60 + m) * 60))
          else None
      | _, _ => None
      end
  | _ => None
  end.

(** The fraction ([t] is what follows the seconds) and the zone. *)
Definition parse_rest (t : list ascii) : option (Z * Z) :=
  let '(ns, z) :=
    match t with
    | p :: f :: _ =>
        if Ascii.eqb p "."%char && between 48 57 f then
          let '(ds, r) := span (between 48 57) (tail t) in (parse_frac 9 ds, r)
        else (0, t)
    | _ => (0, t)
    end in
  match parse_zone z with Some off => Some (ns, off) | None => None end.

Definition parse_rfc3339 (l : list ascii) : option Z :=
  match l with
  | y1 :: y2 :: y3 :: y4 :: c1 :: m1 :: m2 :: c2 :: d1 :: d2 :: c3 ::
    h1 :: h2 :: c4 :: i1 :: i2 :: c5 :: s1 :: s2 :: t =>
      if negb (forallb (fun '(a, b) => Ascii.eqb a b)
                 [(c1, "-"); (c2, "-"); (c3, "T"); (c4, ":"); (c5, ":")]%char) then None else
      match num2 0 99 y1 y2, num2 0 99 y3 y4, num2 1 12 m1 m2, num2 0 23 h1 h2,
            num2 0 59 i1 i2, num2 0 59 s1 s2, parse_rest t with
      | Some ya, Some yb, Some m, Some h, Some i, Some s, Some (ns, off) =>
          let y := 100 * ya + yb in
          match num2 1 (days_in m y) d1 d2 with
          | Some d => Some (of_civil (Civil y m d h i s ns) - off * ns_per_sec)
          | None => None
          end
      | _, _, _, _, _, _, _ => None
      end
  | _ => None
  end.

(** [Time.UnmarshalJSON] reads the raw text of a string; null leaves the time. *)
Definition store_time {S} (set : Z -> S -> S) (v : json) (s : S) : option S :=
  match v with
  | JNull => Some s
  | JStr raw => match parse_rfc3339 raw with Some t => Some (set t s) | None => None end
  | _ => None
  end.

(** ** Lemmas: calendar *)

Definition yday_ok (leap : bool) (yday : Z) : bool :=
  let '(m, d) := month_day 1 (month_lengths leap) yday in
  bool_decide (1 <= m <= 12 /\ 1 <= d /\
    d <= nth (Z.to_nat (m - 1)) (month_lengths leap) 0 /\ d <= 31 /\
    days_before (Z.to_nat (m - 1)) (month_lengths leap) + (d - 1) = yday).

Lemma yday_all leap : forallb (yday_ok leap) (Z.of_nat <$> seq 0 (if leap then 366 else 365)) = true.
Proof. destruct leap; vm_compute; reflexivity. Qed.

Lemma month_day_spec leap yday m d :
  month_day 1 (month_lengths leap) yday = (m, d) ->
  0 <= yday < (if leap then 366 else 365) ->
  1 <= m <= 12 /\ 1 <= d <= 31 /\ d <= nth (Z.to_nat (m - 1)) (month_lengths leap) 0 /\
  days_before (Z.to_nat (m - 1)) (month_lengths leap) + (d - 1) = yday.
Proof.
  intros Hmd Hy. pose proof (yday_all leap) as Hall. rewrite forallb_forall in Hall.
  specialize (Hall yday). unfold yday_ok in Hall. rewrite Hmd in Hall.
  assert (List.In yday (Z.of_nat <$> seq 0 (if leap then 366 else 365))) as Hin.
  { apply list_elem_of_In, list_elem_of_fmap. exists (Z.to_nat yday).
    split; [lia|]. apply elem_of_seq. destruct leap; lia. }
  apply Hall, bool_decide_eq_true in Hin. lia.
Qed.

Lemma year_yday_spec d y yd :
  year_yday d = (y, yd) ->
  days_before_year y + yd = d /\ 0 <= yd < (if is_leap y then 366 else 365).
Proof.
  unfold year_yday, days_before_year. intros [= Hy Hyd].
  pose proof (Z.div_mod d 146097 ltac:(lia)) as H400.
  pose proof (Z.mod_pos_bound d 146097 ltac:(lia)) as B400.
  set (n400 := d / 146097) in *. set (r := d mod 146097) in *.
  pose proof (Z.div_mod r 36524 ltac:(lia)) as H100.
  pose proof (Z.mod_pos_bound r 36524 ltac:(lia)) as B100.
  set (q100 := r / 36524) in *. set (n100 := Z.min 3 q100) in *.
  set (r1 := r - 36524 * n100) in *.
  assert (0 <= n100 <= 3 /\ 0 <= r1 <= 36524 /\ (n100 < 3 -> r1 < 36524)) as (Bn100 & Br1 & Br1') by lia.
  pose proof (Z.div_mod r1 1461 ltac:(lia)) as H4.
  pose proof (Z.mod_pos_bound r1 1461 ltac:(lia)) as B4.
  set (n4 := r1 / 1461) in *. set (r2 := r1 mod 1461) in *.
  assert (0 <= n4 <= 24) as Bn4 by lia.
  pose proof (Z.div_mod r2 365 ltac:(lia)) as H1.
  pose proof (Z.mod_pos_bound r2 365 ltac:(lia)) as B1.
  set (q1 := r2 / 365) in *. set (n1 := Z.min 3 q1) in *.
  assert (0 <= n1 <= 3) as Bn1 by lia.
  replace ((y - 1) / 4) with (100 * n400 + 25 * n100 + n4)
    by (apply (Z.div_unique_pos _ _ _ n1); lia).
  replace ((y - 1) / 100) with (4 * n400 + n100)
    by (apply (Z.div_unique_pos _ _ _ (4 * n4 + n1)); lia).
  replace ((y - 1) / 400) with n400
    by (apply (Z.div_unique_pos _ _ _ (100 * n100 + 4 * n4 + n1)); lia).
  split; [lia|].
  unfold is_leap. case_bool_decide as Hl; [lia|].
  enough (n1 = 3 -> n4 = 24 /\ n100 < 3) by lia.
  intros Hn1.
  assert (y mod 4 = 0) as Hm4
    by (symmetry; apply (Z.mod_unique_pos _ _ (100 * n400 + 25 * n100 + n4 + 1)); lia).
  assert (y mod 100 = 0) as Hm100 by (destruct (decide (y mod 100 = 0)); [done|tauto]).
  assert (n4 = 24) as Hn4.
  { pose proof (Z.div_mod y 100 ltac:(lia)). lia. }
  split; [done|]. destruct (decide (n100 = 3)); [|lia]. exfalso. apply Hl. split; [done|right].
  symmetry; apply (Z.mod_unique_pos _ _ (n400 + 1)); lia.
Qed.

Record civil_ok (c : civil) : Prop := {
  ok_month : 1 <= cmonth c <= 12;
  ok_day : 1 <= cday c <= 31;
  ok_day' : cday c <= days_in (cmonth c) (cyear c);
  ok_hour : 0 <= chour c <= 23;
  ok_min : 0 <= cmin c <= 59;
  ok_sec : 0 <= csec c <= 59;
  ok_nsec : 0 <= cnsec c < ns_per_sec
}.

(** The calendar date of an instant is well formed and denotes the instant. *)
Lemma to_civil_spec t : civil_ok (to_civil t) /\ of_civil (to_civil t) = t.
Proof.
  unfold to_civil.
  pose proof (Z.div_mod t ns_per_day ltac:(done)) as Ht.
  pose proof (Z.mod_pos_bound t ns_per_day ltac:(done)) as Bt.
  set (day := t / ns_per_day) in *. set (r := t mod ns_per_day) in *.
  destruct (year_yday (day + epoch_day)) as [y yd] eqn:Hyd.
  apply year_yday_spec in Hyd as [Hsum Byd].
  destruct (month_day 1 _ yd) as [m d] eqn:Hmd.
  apply month_day_spec in Hmd as (Bm & Bd & Bd' & Hd); [|done].
  unfold ns_per_day, ns_per_sec in *.
  pose proof (Z.div_mod r 1000000000 ltac:(lia)) as Hs.
  pose proof (Z.mod_pos_bound r 1000000000 ltac:(lia)) as Bs.
  set (s := r / 1000000000) in *. set (ns := r mod 1000000000) in *.
  pose proof (Z.div_mod s 3600 ltac:(lia)). pose proof (Z.mod_pos_bound s 3600 ltac:(lia)).
  pose proof (Z.div_mod s 60 ltac:(lia)). pose proof (Z.mod_pos_bound s 60 ltac:(lia)).
  pose proof (Z.div_mod (s / 60) 60 ltac:(lia)). pose proof (Z.mod_pos_bound (s / 60) 60 ltac:(lia)).
  split.
  - constructor; simpl; unfold days_in, ns_per_sec; lia.
  - unfold of_civil; simpl. unfold ns_per_sec. lia.
Qed.

(** ** Lemmas: the JSON form *)

Lemma num2_digits n lo hi :
  lo <= n <= hi -> 0 <= n <= 99 ->
  num2 lo hi (digit (n / 10 mod 10)) (digit (n mod 10)) = Some n.
Proof.
  intros Hb Hn. unfold num2.
  pose proof (Z.mod_pos_bound n 10 ltac:(lia)). pose proof (Z.mod_pos_bound (n / 10) 10 ltac:(lia)).
  rewrite !digit_val_digit by lia.
  replace (10 * (n / 10 mod 10) + n mod 10) with n
    by (rewrite (Z.mod_small (n / 10)) by (split; [apply Z.div_pos; lia | apply Z.div_lt_upper_bound; lia]);
        pose proof (Z.div_mod n 10 ltac:(lia)); lia).
  by rewrite (proj2 (Z.leb_le lo n)), (proj2 (Z.leb_le n hi)) by lia.
Qed.

Lemma frac_digits_digits k n :
  0 <= n < 10 ^ Z.of_nat k -> Forall (fun a => between 48 57 a = true) (frac_digits k n).
Proof.
  revert n; induction k as [|k IH]; intros n Hn; [constructor|]. cbn [frac_digits].
  destruct (Z.eqb_spec n 0); constructor.
  - apply digit_between. replace (Z.of_nat (S k)) with (Z.of_nat k + 1) in Hn by lia.
    rewrite Z.pow_add_r in Hn by lia. split; [apply Z.div_pos; lia|].
    assert (n / 10 ^ Z.of_nat k < 10) by (apply Z.div_lt_upper_bound; lia). lia.
  - apply IH, Z.mod_pos_bound. lia.
Qed.

Lemma parse_frac_digits k n :
  0 <= n < 10 ^ Z.of_nat k -> parse_frac k (frac_digits k n) = n.
Proof.
  revert n; induction k as [|k IH]; intros n Hn; [simpl in *; lia|]. cbn [frac_digits].
  destruct (Z.eqb_spec n 0) as [->|]; [done|]. cbn [parse_frac].
  assert (0 < 10 ^ Z.of_nat k) by lia.
  replace (Z.of_nat (S k)) with (Z.of_nat k + 1) in Hn by lia.
  rewrite Z.pow_add_r in Hn by lia.
  assert (n / 10 ^ Z.of_nat k < 10) by (apply Z.div_lt_upper_bound; lia).
  assert (0 <= n / 10 ^ Z.of_nat k) by (apply Z.div_pos; lia).
  rewrite digit_val_digit by lia. simpl. rewrite IH by (apply Z.mod_pos_bound; lia).
  pose proof (Z.div_mod n (10 ^ Z.of_nat k)). lia.
Qed.

Lemma parse_rest_format ns :
  0 <= ns < ns_per_sec ->
  parse_rest ((if ns =? 0 then [] else "."%char :: frac_digits 9 ns) ++ ["Z"%char])%list = Some (ns, 0).
Proof.
  intros Hns. destruct (Z.eqb_spec ns 0) as [->|Hne]; [done|].
  pose proof (frac_digits_digits 9 ns ltac:(done)) as Hall.
  pose proof (parse_frac_digits 9 ns ltac:(done)) as Hp.
  assert (exists a l, frac_digits 9 ns = a :: l) as (a & l & Hal).
  { cbn [frac_digits]. destruct (Z.eqb_spec ns 0); [done|]. eauto. }
  rewrite Hal in *. inversion Hall as [|? ? Ha Hl]; subst.
  unfold parse_rest. cbn [app]. change (Ascii.eqb "."%char "."%char) with true. rewrite Ha. cbn [andb tail].
  change (a :: l ++ ["Z"%char])%list with ((a :: l) ++ ["Z"%char])%list.
  by rewrite span_all.
Qed.

(** [time.Time] survives its JSON form. *)
Lemma parse_format_nano t :
  0 <= cyear (to_civil t) <= 9999 -> parse_rfc3339 (format_nano t) = Some t.
Proof.
  intros Hy. destruct (to_civil_spec t) as [Hok Ht]. unfold format_nano.
  destruct (to_civil t) as [y m d h i s ns]. destruct Hok; simpl in *.
  unfold format_civil, year_str; simpl cyear.
  rewrite (proj2 (Z.ltb_ge y 0)), (proj2 (Z.ltb_lt y 10000)) by lia.
  unfold pad2. cbn [print_padded lit String.list_ascii_of_string app cmonth cday chour cmin csec].
  unfold parse_rfc3339. match goal with |- context [negb ?b] => change (negb b) with false end. cbv iota.
  rewrite parse_rest_format by done.
  replace (y / 10 / 10 / 10 mod 10) with (y / 100 / 10 mod 10)
    by (rewrite !Z.div_div by lia; done).
  replace (y / 10 / 10 mod 10) with (y / 100 mod 10) by (rewrite !Z.div_div by lia; done).
  assert (0 <= y / 100 <= 99) by (split; [apply Z.div_pos; lia|];
    assert (y / 100 < 100) by (apply Z.div_lt_upper_bound; lia); lia).
  rewrite (num2_digits (y / 100)) by lia.
  replace (y / 10 mod 10) with ((y mod 100) / 10 mod 10).
  2: { rewrite (Z.div_mod y 100) at 2 by lia.
       replace (100 * (y / 100) + y mod 100) with ((y mod 100) + (10 * (y / 100)) * 10) by lia.
       rewrite Z.div_add by lia. rewrite <-Z.add_mod_idemp_r by lia.
       rewrite Z.mul_comm, Z.mod_mul, Z.add_0_r by lia. done. }
  replace (y mod 10) with ((y mod 100) mod 10).
  2: { rewrite (Z.div_mod y 100) at 2 by lia.
       replace (100 * (y / 100) + y mod 100) with ((y mod 100) + (10 * (y / 100)) * 10) by lia.
       by rewrite Z.mod_add by lia. }
  pose proof (Z.mod_pos_bound y 100 ltac:(lia)).
  rewrite (num2_digits (y mod 100)), (num2_digits m), (num2_digits h), (num2_digits i),
    (num2_digits s) by lia.
  replace (100 * (y / 100) + y mod 100) with y by (apply Z.div_mod; lia).
  rewrite num2_digits by lia. rewrite Z.mul_0_l, Z.sub_0_r. by rewrite Ht.
Qed.

Lemma format_nano_plain t :
  0 <= cyear (to_civil t) <= 9999 -> Forall (fun a => plain a = true) (format_nano t).
Proof.
  intros Hy. destruct (to_civil_spec t) as [Hok _]. destruct Hok. unfold format_nano.
  apply Forall_app; split; [|apply Forall_app; split; [|by repeat constructor]].
  - unfold format_civil, year_str, pad2.
    rewrite (proj2 (Z.ltb_ge (cyear (to_civil t)) 0)), (proj2 (Z.ltb_lt (cyear (to_civil t)) 10000)) by lia.
    repeat (apply print_padded_plain || (constructor; [reflexivity|])). constructor.
  - destruct (_ =? 0); [constructor|]. constructor; [done|].
    eapply Forall_impl; [apply frac_digits_digits; unfold ns_per_sec in *; simpl; lia|].
    intros a Ha. unfold plain. by rewrite Ha.
Qed.

Lemma store_marshal_time {S} (set : Z -> S -> S) t v (s : S) :
  marshal_time t = Some v -> store_time set v s = Some (set t s).
Proof.
  unfold marshal_time. destruct (_ && _) eqn:E; [|done]. intros [= <-]. simpl.
  by rewrite parse_format_nano by lia.
Qed.

Lemma marshal_time_scalar t v : marshal_time t = Some v -> scalar v.
Proof.
  unfold marshal_time. destruct (_ && _) eqn:E; [|done]. intros [= <-]. left.
  exists (format_nano t). f_equal. symmetry. apply quote_body_plain, format_nano_plain. lia.
Qed.
#[export] Hint Resolve marshal_time_scalar : json_db.
