(* ===== verification/Http.v ===== *)
(** * HTTP: status codes and JSON responses

    What the handlers of both services give gin: a status code and the value that
    becomes the JSON body. *)

From S2P Require Import Prelude GoLib Json.

Definition StatusOK : Z := 200.
Definition StatusBadRequest : Z := 400.
Definition StatusNotFound : Z := 404.
Definition StatusConflict : Z := 409.
Definition StatusInternalServerError : Z := 500.
Definition StatusBadGateway : Z := 502.
Definition StatusServiceUnavailable : Z := 503.
Definition StatusGatewayTimeout : Z := 504.

Record response := Response { code : Z; body : json }.

(** gin.H of one message. *)
Definition error_body (msg : string) : json := JObj [(lit "error", jstring msg)].
