(* ===== verification/Proto.v ===== *)
(** * The gRPC messages and status codes

    The messages of proto/payment.proto and proto/order.proto as the generated Go
    structs carry them (their getters included: a nil message reads as the zero
    message), and the gRPC status codes the services use.  A message's timestamp
    is a value of the protobuf library: the argument [Timestamp]. *)

From S2P Require Import Prelude GoLib.

Module AuthorizePaymentRequest.
Record t := mk {
  OrderId : string;
  Amount : Z;
  CustomerEmail : string
}.
Definition GetOrderId (x : option (t)) : string :=
  match x with Some x => OrderId x | None => "" end.
Definition GetAmount (x : option (t)) : Z :=
  match x with Some x => Amount x | None => 0 end.
Definition GetCustomerEmail (x : option (t)) : string :=
  match x with Some x => CustomerEmail x | None => "" end.
End AuthorizePaymentRequest.

Module AuthorizePaymentResponse.
Record t (Timestamp : Type) := mk {
  PaymentId : string;
  TransactionId : string;
  Status : string;
  Amount : Z;
  CreatedAt : option Timestamp
}.
Arguments mk {Timestamp} _ _ _ _ _.
Arguments PaymentId {Timestamp} _.
Arguments TransactionId {Timestamp} _.
Arguments Status {Timestamp} _.
Arguments Amount {Timestamp} _.
Arguments CreatedAt {Timestamp} _.
Definition GetPaymentId {Timestamp} (x : option (t Timestamp)) : string :=
  match x with Some x => PaymentId x | None => "" end.
Definition GetTransactionId {Timestamp} (x : option (t Timestamp)) : string :=
  match x with Some x => TransactionId x | None => "" end.
Definition GetStatus {Timestamp} (x : option (t Timestamp)) : string :=
  match x with Some x => Status x | None => "" end.
Definition GetAmount {Timestamp} (x : option (t Timestamp)) : Z :=
  match x with Some x => Amount x | None => 0 end.
Definition GetCreatedAt {Timestamp} (x : option (t Timestamp)) : option Timestamp :=
  match x with Some x => CreatedAt x | None => None end.
End AuthorizePaymentResponse.

Module GetPaymentStatusRequest.
Record t := mk {
  OrderId : string
}.
Definition GetOrderId (x : option (t)) : string :=
  match x with Some x => OrderId x | None => "" end.
End GetPaymentStatusRequest.

Module GetPaymentStatusResponse.
Record t (Timestamp : Type) := mk {
  PaymentId : string;
  TransactionId : string;
  Status : string;
  Amount : Z;
  CreatedAt : option Timestamp
}.
Arguments mk {Timestamp} _ _ _ _ _.
Arguments PaymentId {Timestamp} _.
Arguments TransactionId {Timestamp} _.
Arguments Status {Timestamp} _.
Arguments Amount {Timestamp} _.
Arguments CreatedAt {Timestamp} _.
Definition GetPaymentId {Timestamp} (x : option (t Timestamp)) : string :=
  match x with Some x => PaymentId x | None => "" end.
Definition GetTransactionId {Timestamp} (x : option (t Timestamp)) : string :=
  match x with Some x => TransactionId x | None => "" end.
Definition GetStatus {Timestamp} (x : option (t Timestamp)) : string :=
  match x with Some x => Status x | None => "" end.
Definition GetAmount {Timestamp} (x : option (t Timestamp)) : Z :=
  match x with Some x => Amount x | None => 0 end.
Definition GetCreatedAt {Timestamp} (x : option (t Timestamp)) : option Timestamp :=
  match x with Some x => CreatedAt x | None => None end.
End GetPaymentStatusResponse.

Module OrderRequest.
Record t := mk {
  OrderId : string
}.
Definition GetOrderId (x : option (t)) : string :=
  match x with Some x => OrderId x | None => "" end.
End OrderRequest.

Module OrderStatusUpdate.
Record t (Timestamp : Type) := mk {
  OrderId : string;
  CustomerId : string;
  ItemName : string;
  Amount : Z;
  Status : string;
  UpdatedAt : option Timestamp
}.
Arguments mk {Timestamp} _ _ _ _ _ _.
Arguments OrderId {Timestamp} _.
Arguments CustomerId {Timestamp} _.
Arguments ItemName {Timestamp} _.
Arguments Amount {Timestamp} _.
Arguments Status {Timestamp} _.
Arguments UpdatedAt {Timestamp} _.
Definition GetOrderId {Timestamp} (x : option (t Timestamp)) : string :=
  match x with Some x => OrderId x | None => "" end.
Definition GetCustomerId {Timestamp} (x : option (t Timestamp)) : string :=
  match x with Some x => CustomerId x | None => "" end.
Definition GetItemName {Timestamp} (x : option (t Timestamp)) : string :=
  match x with Some x => ItemName x | None => "" end.
Definition GetAmount {Timestamp} (x : option (t Timestamp)) : Z :=
  match x with Some x => Amount x | None => 0 end.
Definition GetStatus {Timestamp} (x : option (t Timestamp)) : string :=
  match x with Some x => Status x | None => "" end.
Definition GetUpdatedAt {Timestamp} (x : option (t Timestamp)) : option Timestamp :=
  match x with Some x => UpdatedAt x | None => None end.
End OrderStatusUpdate.

Module OrderMessage.
Record t (Timestamp : Type) := mk {
  Id : string;
  CustomerId : string;
  ItemName : string;
  Amount : Z;
  Status : string;
  CreatedAt : option Timestamp
}.
Arguments mk {Timestamp} _ _ _ _ _ _.
Arguments Id {Timestamp} _.
Arguments CustomerId {Timestamp} _.
Arguments ItemName {Timestamp} _.
Arguments Amount {Timestamp} _.
Arguments Status {Timestamp} _.
Arguments CreatedAt {Timestamp} _.
Definition GetId {Timestamp} (x : option (t Timestamp)) : string :=
  match x with Some x => Id x | None => "" end.
Definition GetCustomerId {Timestamp} (x : option (t Timestamp)) : string :=
  match x with Some x => CustomerId x | None => "" end.
Definition GetItemName {Timestamp} (x : option (t Timestamp)) : string :=
  match x with Some x => ItemName x | None => "" end.
Definition GetAmount {Timestamp} (x : option (t Timestamp)) : Z :=
  match x with Some x => Amount x | None => 0 end.
Definition GetStatus {Timestamp} (x : option (t Timestamp)) : string :=
  match x with Some x => Status x | None => "" end.
Definition GetCreatedAt {Timestamp} (x : option (t Timestamp)) : option Timestamp :=
  match x with Some x => CreatedAt x | None => None end.
End OrderMessage.

(** ** google.golang.org/grpc/codes *)

Definition Unknown : Z := 2.
Definition InvalidArgument : Z := 3.
Definition DeadlineExceeded : Z := 4.
Definition NotFound : Z := 5.
Definition AlreadyExists : Z := 6.
Definition Internal : Z := 13.
Definition Unavailable : Z := 14.

(** The name of a code in an error's text. *)
Definition code_name (c : Z) : string :=
  if c =? Unknown then "Unknown" else if c =? InvalidArgument then "InvalidArgument"
  else if c =? DeadlineExceeded then "DeadlineExceeded" else if c =? NotFound then "NotFound"
  else if c =? AlreadyExists then "AlreadyExists" else if c =? Internal then "Internal"
  else if c =? Unavailable then "Unavailable" else "Code(" ++ Itoa c ++ ")".

(** [status.Error]. *)
Definition status_Error (code : Z) (msg : string) : error :=
  StatusError code msg ("rpc error: code = " ++ code_name code ++ " desc = " ++ msg).

(** [status.FromError]: the status code an error, or one it wraps, carries. *)
Fixpoint status_FromError (e : error) : option Z :=
  match e with
  | StatusError code _ _ => Some code
  | Wrap _ inner => status_FromError inner
  | _ => None
  end.
