(* ===== verification/OrderPorts.v ===== *)
(** * Order service: domain and ports

    The [domain] package, the use cases' errors and the outbound ports of
    [usecase/ports.go] as one type of calls, with what the ports promise the use
    cases ([ports_spec]): the specification the use cases are proved against, and
    which the PostgreSQL repository, the Redis cache and the payment clients
    implement. *)

From S2P Require Import Prelude GoLib Json GoTime.

(** ** Domain *)

Module Order.
Record t := mk {
  ID : string;
  CustomerID : string;
  ItemName : string;
  Amount : Z;
  Status : string;
  CreatedAt : Z
}.
Definition set_Status (s : string) (o : t) : t :=
  mk (ID o) (CustomerID o) (ItemName o) (Amount o) s (CreatedAt o).
Definition set_CustomerID (c : string) (o : t) : t :=
  mk (ID o) c (ItemName o) (Amount o) (Status o) (CreatedAt o).
Definition set_ItemName (i : string) (o : t) : t :=
  mk (ID o) (CustomerID o) i (Amount o) (Status o) (CreatedAt o).
Definition set_Amount (a : Z) (o : t) : t :=
  mk (ID o) (CustomerID o) (ItemName o) a (Status o) (CreatedAt o).
Definition set_ID (i : string) (o : t) : t :=
  mk i (CustomerID o) (ItemName o) (Amount o) (Status o) (CreatedAt o).
Definition set_CreatedAt (c : Z) (o : t) : t :=
  mk (ID o) (CustomerID o) (ItemName o) (Amount o) (Status o) c.
#[export] Instance eq_dec : EqDecision t.
Proof. solve_decision. Defined.
End Order.

Definition StatusPending : string := "Pending".
Definition StatusPaid : string := "Paid".
Definition StatusFailed : string := "Failed".
Definition StatusCancelled : string := "Cancelled".

(** The CHECK of the orders table. *)
Definition valid_status (s : string) : Prop :=
  s ∈ [StatusPending; StatusPaid; StatusFailed; StatusCancelled].

(** What a column of the table can hold: valid UTF-8, 64 bits, and a time that
    has a JSON form. *)
Definition storable (o : Order.t) : bool :=
  forallb (fun s => utf8_valid (lit s))
    [Order.ID o; Order.CustomerID o; Order.ItemName o; Order.Status o]
  && bool_decide (in_int64 (Order.Amount o))
  && bool_decide (is_Some (marshal_time (Order.CreatedAt o))).

(** ** Errors of the use cases *)

Definition ErrInvalidInput : error :=
  Sentinel "ErrInvalidInput" "invalid input".
Definition ErrOrderNotFound : error :=
  Sentinel "ErrOrderNotFound" "order not found".
Definition ErrPaymentUnavailable : error :=
  Sentinel "ErrPaymentUnavailable" "payment service unavailable".
Definition ErrCancelNotAllowed : error :=
  Sentinel "ErrCancelNotAllowed" "only pending orders can be cancelled".
Definition ErrPaymentAlreadyRecorded : error :=
  Sentinel "ErrPaymentAlreadyRecorded" "payment already exists for order".
Definition ErrPaymentNotFound : error :=
  Sentinel "ErrPaymentNotFound" "payment not found for order".
Definition ErrPaymentInvalidArgument : error :=
  Sentinel "ErrPaymentInvalidArgument" "payment invalid argument".

Definition usecase_errors : list error :=
  [ErrInvalidInput; ErrOrderNotFound; ErrPaymentUnavailable; ErrCancelNotAllowed;
   ErrPaymentAlreadyRecorded; ErrPaymentNotFound; ErrPaymentInvalidArgument].

(** An error of another package: none of the use cases' errors is in its chain. *)
Definition foreign (e : error) : bool :=
  forallb (fun t => negb (errors_Is e t)) usecase_errors.

(** An error the payment port may give. *)
Definition payment_errors : list error :=
  [ErrPaymentUnavailable; ErrPaymentAlreadyRecorded; ErrPaymentNotFound; ErrPaymentInvalidArgument].
Definition payment_error (e : error) : bool :=
  existsb (err_ptr_eq e) payment_errors || foreign e.

(** ** Ports: OrderRepository, OrderCache, PaymentAuthorizer

    A Go pair (value, error) is a pair; a nil pointer or nil error is [None]. *)
Inductive portE : Type -> Type :=
| GetByID (id : string) : portE (option Order.t * option error)
| UpdateStatus (id status : string) : portE (option error)
| CreatePendingWithIdempotency (idempotencyKey : option string)
    (customerID itemName : string) (amount : Z) : portE (option Order.t * bool * option error)
| CacheGet (id : string) : portE (option Order.t * option error)
| CacheSet (o : Order.t) (ttl : Z) : portE (option error)
| CacheDelete (id : string) : portE (option error)
| Authorize (orderID : string) (amount : Z) (customerEmail : string) :
    portE (string * string * option error)
| GetStatus (orderID : string) : portE (string * option error).

(** ** What the use cases see of the world

    The two tables (rows by the canonical form of their UUID), the cache (by the
    key's order id) and the statuses the payment service has reported. *)
Record view := View {
  orders : gmap string Order.t;
  idem : gmap string string;
  cache : gmap string Order.t;
  reports : list (string * string)
}.

Definition set_orders (f : gmap string Order.t -> gmap string Order.t) (v : view) : view :=
  View (f (orders v)) (idem v) (cache v) (reports v).
Definition set_idem (f : gmap string string -> gmap string string) (v : view) : view :=
  View (orders v) (f (idem v)) (cache v) (reports v).
Definition set_cache (f : gmap string Order.t -> gmap string Order.t) (v : view) : view :=
  View (orders v) (idem v) (f (cache v)) (reports v).
Definition report (id st : string) (v : view) : view :=
  View (orders v) (idem v) (cache v) ((id, st) :: reports v).

(** A non-nil, non-empty key. *)
Definition key_of (k : option string) : option string :=
  match k with Some k => if bool_decide (k = "") then None else Some k | None => None end.

Section Ports.
(** PostgreSQL's reading of a text as a UUID ([None]: invalid input syntax) and
    its rounding of a timestamp to the precision of TIMESTAMPTZ. *)
Context (uuid_in : string -> option string) (tstz : Z -> Z).

(** The row a new pending order gets. *)
Definition new_order (id customerID itemName : string) (amount now : Z) : Order.t :=
  Order.mk id customerID itemName amount StatusPending now.

Definition with_new_order (key : option string) (o : Order.t) (v : view) : view :=
  let v := set_orders (<[Order.ID o := Order.set_CreatedAt (tstz (Order.CreatedAt o)) o]>) v in
  match key_of key with
  | Some k => set_idem (<[k := Order.ID o]>) v
  | None => v
  end.

(** What a status update leaves: the row's new status. *)
Definition updated (id status : string) (v v' : view) : Prop :=
  exists c o, uuid_in id = Some c /\ orders v !! c = Some o /\ valid_status status /\
    v' = set_orders (<[c := Order.set_Status status o]>) v.

(** A new row: a fresh canonical id, a positive amount, the columns' types, the
    key not yet used. *)
Definition created (key : option string) (customerID itemName : string) (amount : Z)
    (o : Order.t) (v v' : view) : Prop :=
  exists id now, o = new_order id customerID itemName amount now /\
    uuid_in id = Some id /\ orders v !! id = None /\ 0 < amount /\
    storable (Order.set_CreatedAt (tstz now) o) = true /\
    (forall k, key_of key = Some k -> idem v !! k = None) /\
    v' = with_new_order key o v.

(** A new cache entry.  An order that is not [storable] may come back different,
    or not at all. *)
Definition cached (o : Order.t) (v v' : view) : Prop :=
  exists entry, (storable o = true -> entry = Some o) /\
    v' = set_cache (partial_alter (fun _ => entry) (Order.ID o)) v.

(** The promise.  Every call may fail; a failed write may still have taken
    effect (the acknowledgement can be lost). *)
Definition ports_spec : interface portE view := fun X e =>
  match e in portE X return X -> view -> view -> Prop with
  | GetByID id => fun r v v' =>
      v' = v /\
      ((exists e, r = (None, Some e) /\ foreign e = true) \/
       (exists c, uuid_in id = Some c /\ r = (orders v !! c, None)))
  | UpdateStatus id status => fun r v v' =>
      (r = None /\ updated id status v v') \/
      (exists e, r = Some e /\ foreign e = true /\ (v' = v \/ updated id status v v'))
  | CreatePendingWithIdempotency key cust item amount => fun r v v' =>
      (exists e, r = (None, false, Some e) /\ foreign e = true /\
         (v' = v \/ exists o, created key cust item amount o v v')) \/
      (exists k id o, key_of key = Some k /\ idem v !! k = Some id /\ orders v !! id = Some o /\
         r = (Some o, true, None) /\ v' = v) \/
      (exists o, created key cust item amount o v v' /\ r = (Some o, false, None))
  | CacheGet id => fun r v v' =>
      (exists o, cache v !! id = Some o /\ r = (Some o, None) /\ v' = v) \/
      (r = (None, None) /\ v' = set_cache (delete id) v) \/
      (exists e, r = (None, Some e) /\ v' = v)
  | CacheSet o ttl => fun r v v' =>
      (r = None /\ cached o v v') \/
      (exists e, r = Some e /\ (v' = v \/ cached o v v'))
  | CacheDelete id => fun r v v' =>
      (r = None /\ v' = (if bool_decide (id = "") then v else set_cache (delete id) v)) \/
      (exists e, r = Some e /\ (v' = v \/ v' = set_cache (delete id) v))
  | Authorize id amount email => fun r v v' =>
      (exists txn st, r = (txn, st, None) /\ v' = report id st v) \/
      (exists e, r = ("", "", Some e) /\ payment_error e = true /\ v' = v)
  | GetStatus id => fun r v v' =>
      (exists st, r = (st, None) /\ v' = report id st v) \/
      (exists e, r = ("", Some e) /\ payment_error e = true /\ v' = v)
  end.
End Ports.
