(* ===== verification/OrderUsecase.v ===== *)
(** * Order service: the use cases

    [CreateOrder], [GetOrder] and [CancelOrder] of the [usecase] package as
    programs over the ports.  A use case's [cache] is an interface that may be
    nil: [true] when it is not. *)

From S2P Require Import Prelude GoLib Json GoTime OrderPorts.

Definition paymentStatusAuthorized : string := "Authorized".
Definition paymentStatusDeclined : string := "Declined".

Module CreateOrderInput.
Record t := mk {
  CustomerID : string;
  CustomerEmail : string;
  ItemName : string;
  Amount : Z;
  IdempotencyKey : option string
}.
End CreateOrderInput.

(** The order's new status for a payment status. *)
Definition status_of_payment (st : string) : string :=
  if bool_decide (st = paymentStatusAuthorized) then StatusPaid
  else if bool_decide (st = paymentStatusDeclined) then StatusFailed
  else StatusFailed.

Definition is_terminal (st : string) : bool :=
  bool_decide (st = StatusPaid) || bool_decide (st = StatusFailed)
  || bool_decide (st = StatusCancelled).

Module CreateOrder.
Section CreateOrder.
Context (cache : bool).

Definition invalidate (orderID : string) : prog portE unit :=
  if negb cache || bool_decide (orderID = "") then mret tt
  else _ ← call (CacheDelete orderID); mret tt.

(** The common end of [Execute] and [reconcileFromPaymentService]: store the
    status the payment service reported. *)
Definition settle (order : Order.t) (payStatus : string) :
    prog portE (option Order.t * option error) :=
  let newStatus := status_of_payment payStatus in
  err ← call (UpdateStatus (Order.ID order) newStatus);
  match err with
  | Some err => mret (None, Some err)
  | None =>
      _ ← invalidate (Order.ID order);
      mret (Some (Order.set_Status newStatus order), None)
  end.

Definition reconcileFromPaymentService (order : Order.t) :
    prog portE (option Order.t * option error) :=
  '(st, err) ← call (GetStatus (Order.ID order));
  match err with
  | Some err =>
      if err_ptr_eq err ErrPaymentNotFound then
        mret (None, Some (ErrorNew "payment record missing after duplicate authorization"))
      else if err_ptr_eq err ErrPaymentUnavailable then
        '(fresh, _) ← call (GetByID (Order.ID order));
        match fresh with
        | Some fresh => mret (Some fresh, Some ErrPaymentUnavailable)
        | None => mret (Some order, Some ErrPaymentUnavailable)
        end
      else mret (None, Some err)
  | None => settle order st
  end.

(** [Execute] once the order is stored and still pending. *)
Definition authorize (order : Order.t) (customerEmail : string) :
    prog portE (option Order.t * option error) :=
  '(_, payStatus, err) ← call (Authorize (Order.ID order) (Order.Amount order) customerEmail);
  match err with
  | Some err =>
      if errors_Is err ErrPaymentInvalidArgument then mret (None, Some ErrInvalidInput)
      else if err_ptr_eq err ErrPaymentAlreadyRecorded then reconcileFromPaymentService order
      else if err_ptr_eq err ErrPaymentUnavailable then
        '(fresh, _) ← call (GetByID (Order.ID order));
        mret (Some (default order fresh), Some ErrPaymentUnavailable)
      else
        _ ← call (UpdateStatus (Order.ID order) StatusFailed);
        _ ← invalidate (Order.ID order);
        '(fresh, _) ← call (GetByID (Order.ID order));
        match fresh with
        | Some fresh => mret (Some fresh, Some err)
        | None => mret (Some (Order.set_Status StatusFailed order), Some err)
        end
  | None => settle order payStatus
  end.

(** The input checks of [Execute]. *)
Definition valid_input (inp : CreateOrderInput.t) : bool :=
  (0 <? CreateOrderInput.Amount inp)
  && negb (bool_decide (TrimSpace (CreateOrderInput.CustomerID inp) = "")
           || bool_decide (TrimSpace (CreateOrderInput.ItemName inp) = "")
           || bool_decide (TrimSpace (CreateOrderInput.CustomerEmail inp) = "")).

Definition Execute (inp : CreateOrderInput.t) : prog portE (option Order.t * option error) :=
  if CreateOrderInput.Amount inp <=? 0 then mret (None, Some ErrInvalidInput) else
  let customerID := TrimSpace (CreateOrderInput.CustomerID inp) in
  let customerEmail := TrimSpace (CreateOrderInput.CustomerEmail inp) in
  let itemName := TrimSpace (CreateOrderInput.ItemName inp) in
  if bool_decide (customerID = "") || bool_decide (itemName = "")
     || bool_decide (customerEmail = "") then mret (None, Some ErrInvalidInput) else
  '(order, _, err) ← call (CreatePendingWithIdempotency (CreateOrderInput.IdempotencyKey inp)
                             customerID itemName (CreateOrderInput.Amount inp));
  match err with
  | Some err => mret (None, Some err)
  | None =>
      match order with
      | None => Panic nil_dereference
      | Some order =>
          if is_terminal (Order.Status order) then mret (Some order, None)
          else authorize order customerEmail
      end
  end.
End CreateOrder.
End CreateOrder.

Module GetOrder.
Section GetOrder.
Context (cache : bool) (ttl : Z).

(** The path past the cache. *)
Definition load (id : string) : prog portE (option Order.t * option error) :=
  '(o, err) ← call (GetByID id);
  match err with
  | Some err => mret (None, Some err)
  | None =>
      match o with
      | None => mret (None, Some ErrOrderNotFound)
      | Some o =>
          if cache && (0 <? ttl) then
            _ ← call (CacheSet o ttl);
            mret (Some o, None)
          else mret (Some o, None)
      end
  end.

Definition Execute (id : string) : prog portE (option Order.t * option error) :=
  let id := TrimSpace id in
  if bool_decide (id = "") then mret (None, Some ErrOrderNotFound) else
  if cache then
    '(cached, err) ← call (CacheGet id);
    match err, cached with
    | None, Some cached => mret (Some cached, None)
    | _, _ => load id
    end
  else load id.
End GetOrder.
End GetOrder.

Module CancelOrder.
Section CancelOrder.
Context (cache : bool).

Definition Execute (id : string) : prog portE (option Order.t * option error) :=
  '(o, err) ← call (GetByID id);
  match err with
  | Some err => mret (None, Some err)
  | None =>
      match o with
      | None => mret (None, Some ErrOrderNotFound)
      | Some o =>
          if negb (bool_decide (Order.Status o = StatusPending)) then
            mret (None, Some ErrCancelNotAllowed)
          else
            err ← call (UpdateStatus id StatusCancelled);
            match err with
            | Some err => mret (None, Some err)
            | None =>
                if cache then
                  _ ← call (CacheDelete id);
                  mret (Some (Order.set_Status StatusCancelled o), None)
                else mret (Some (Order.set_Status StatusCancelled o), None)
            end
      end
  end.
End CancelOrder.
End CancelOrder.

#[global] Arguments CreateOrder.settle : simpl never.
#[global] Arguments CreateOrder.reconcileFromPaymentService : simpl never.
#[global] Arguments CreateOrder.authorize : simpl never.
#[global] Arguments CreateOrder.Execute : simpl never.
#[global] Arguments GetOrder.load : simpl never.
#[global] Arguments GetOrder.Execute : simpl never.
#[global] Arguments CancelOrder.Execute : simpl never.

(** A request to the service. *)
Inductive request : Type :=
| ReqCreate (inp : CreateOrderInput.t)
| ReqGet (id : string)
| ReqCancel (id : string).

Definition serve (cache : bool) (ttl : Z) (r : request) : prog portE (option Order.t * option error) :=
  match r with
  | ReqCreate inp => CreateOrder.Execute cache inp
  | ReqGet id => GetOrder.Execute cache ttl id
  | ReqCancel id => CancelOrder.Execute cache id
  end.

(** ** Vocabulary of the properties *)

Section Vocabulary.
Context (uuid_in : string -> option string).

(** The tables are consistent: a row is filed under its own canonical id, has a
    positive amount, a legal status and columns of the right types, and a key names an existing order. *)
Record integrity (v : view) : Prop := {
  int_row : forall c o, orders v !! c = Some o ->
    Order.ID o = c /\ uuid_in c = Some c /\ 0 < Order.Amount o /\ valid_status (Order.Status o) /\
    storable o = true;
  int_key : forall k c, idem v !! k = Some c -> is_Some (orders v !! c)
}.

(** How requests served one after the other change the orders: no row goes
    away, an existing one changes its status only, and only when pending. *)
Definition evolves (v v' : view) : Prop :=
  forall c o, orders v !! c = Some o ->
  exists o', orders v' !! c = Some o' /\
    (o' = o \/ Order.Status o = StatusPending /\
               exists s, is_terminal s = true /\ o' = Order.set_Status s o).

(** Every paid order has an authorization reported for it. *)
Definition paid_authorized (v : view) : Prop :=
  forall c o, orders v !! c = Some o -> Order.Status o = StatusPaid ->
  exists id, uuid_in id = Some c /\ (id, paymentStatusAuthorized) ∈ reports v.

(** A cached order is the row it was read from. *)
Definition coherent (v : view) : Prop :=
  forall id o, cache v !! id = Some o -> orders v !! id = Some o.
End Vocabulary.
