(* ===== verification/OrderUsecaseFacts.v ===== *)
(** * Order service: what the use cases guarantee *)

From S2P Require Import Prelude GoLib Json GoTime OrderPorts OrderUsecase.

(** The status of an order whose payment has the status [st]. *)
Definition settled_as (st : string) : string := if bool_decide (st = "Authorized") then "Paid" else "Failed".

Lemma status_settled st : status_of_payment st = settled_as st.
Proof. unfold status_of_payment, settled_as, paymentStatusAuthorized. by repeat case_bool_decide. Qed.

(** What becomes of a pending order at the payment step: one constructor per way
    through [authorize] and [reconcileFromPaymentService].  [row] is the order's
    row, [order] the use case's copy of it. *)
Section Outcome.
Context (c : string) (row order : Order.t) (v : view).

Definition stored_as (st : string) (v' : view) : Prop :=
  orders v' = <[c := Order.set_Status st row]> (orders v).

Inductive payment_outcome : option Order.t * option error -> view -> Prop :=
| PaySettled st v' :
    stored_as (settled_as st) v' ->
    reports v' = (Order.ID order, st) :: reports v ->
    payment_outcome (Some (Order.set_Status (settled_as st) order), None) v'
| PayNotStored st e v' :
    foreign e = true ->
    orders v' = orders v \/ stored_as (settled_as st) v' ->
    reports v' = (Order.ID order, st) :: reports v ->
    payment_outcome (None, Some e) v'
| PayUnavailable r v' :
    r = order \/ r = row ->
    orders v' = orders v -> reports v' = reports v ->
    payment_outcome (Some r, Some ErrPaymentUnavailable) v'
| PayRefused v' :
    orders v' = orders v -> reports v' = reports v ->
    payment_outcome (None, Some ErrInvalidInput) v'
| PayMissing v' :
    orders v' = orders v -> reports v' = reports v ->
    payment_outcome
      (None, Some (ErrorNew "payment record missing after duplicate authorization")) v'
| PayUnreconciled e v' :
    errors_Is e ErrPaymentNotFound = false -> errors_Is e ErrPaymentUnavailable = false ->
    errors_Is e ErrInvalidInput = false ->
    orders v' = orders v -> reports v' = reports v ->
    payment_outcome (None, Some e) v'
| PayFailed r e v' :
    errors_Is e ErrPaymentUnavailable = false ->
    errors_Is e ErrPaymentInvalidArgument = false -> errors_Is e ErrInvalidInput = false ->
    orders v' = orders v \/ stored_as StatusFailed v' ->
    r = Order.set_Status StatusFailed order \/ orders v' !! c = Some r ->
    reports v' = reports v ->
    payment_outcome (Some r, Some e) v'.
End Outcome.

(** The payment port's errors do not wrap the service's own. *)
Lemma payment_error_Is e t :
  payment_error e = true -> t ∈ usecase_errors -> err_ptr_eq e t = false -> errors_Is e t = false.
Proof.
  unfold payment_error. intros [Hs|Hf]%orb_true_iff Ht Hn.
  - apply existsb_exists in Hs as (s & _ & Hs). destruct e; try done. cbn [errors_Is]. by rewrite Hn.
  - unfold foreign in Hf. rewrite forallb_forall in Hf. apply negb_true_iff, Hf.
    by apply list_elem_of_In.
Qed.
Lemma payment_error_not_unavailable e :
  payment_error e = true -> err_ptr_eq e ErrPaymentUnavailable = false ->
  errors_Is e ErrPaymentUnavailable = false.
Proof. intros. apply payment_error_Is; [done| |done]. unfold usecase_errors. set_solver. Qed.
Lemma payment_error_not_missing e :
  payment_error e = true -> err_ptr_eq e ErrPaymentNotFound = false ->
  errors_Is e ErrPaymentNotFound = false.
Proof. intros. apply payment_error_Is; [done| |done]. unfold usecase_errors. set_solver. Qed.
Lemma payment_error_not_invalid e : payment_error e = true -> errors_Is e ErrInvalidInput = false.
Proof.
  intros He. apply payment_error_Is; [done|unfold usecase_errors; set_solver|].
  apply orb_true_iff in He as [Hs|Hf].
  - apply existsb_exists in Hs as (s & Hs & Hp). apply list_elem_of_In in Hs.
    destruct e; try done. unfold payment_errors in Hs. simpl in *.
    rewrite !elem_of_cons, elem_of_nil in Hs.
    destruct Hs as [->|[->|[->|[->|[]]]]]; apply bool_decide_eq_true in Hp; by subst.
  - unfold foreign in Hf. rewrite forallb_forall in Hf. specialize (Hf ErrInvalidInput (or_introl eq_refl)).
    apply negb_true_iff in Hf. destruct e; try done. cbn [errors_Is] in Hf.
    by apply orb_false_iff in Hf as [Hf _].
Qed.
#[export] Hint Resolve payment_error_not_unavailable payment_error_not_missing
  payment_error_not_invalid : holds_db.

Section Facts.
Context (uuid_in : string -> option string) (tstz : Z -> Z) (cache_on : bool).
Notation spec := (ports_spec uuid_in tstz).

(** ** The tables' invariant *)

Lemma storable_status s o : valid_status s -> storable o = true -> storable (Order.set_Status s o) = true.
Proof.
  unfold valid_status, storable. rewrite !elem_of_cons, elem_of_nil. simpl.
  rewrite !andb_true_iff. by intros [->|[->|[->|[->|[]]]]]; intuition.
Qed.

Lemma integrity_set_cache f v : integrity uuid_in v -> integrity uuid_in (set_cache f v).
Proof. intros []. by split. Qed.

Lemma integrity_report i s v : integrity uuid_in v -> integrity uuid_in (report i s v).
Proof. intros []. by split. Qed.

Lemma integrity_updated i s v v' :
  updated uuid_in i s v v' -> integrity uuid_in v -> integrity uuid_in v'.
Proof.
  intros (c & o & Hc & Ho & Hs & ->) [Hrow Hkey]. split; simpl.
  - intros c' o' [[<- <-]|[Hne Hl]]%lookup_insert_Some; [|by apply Hrow].
    destruct (Hrow c o Ho) as (? & ? & ? & ? & ?). split_and!; auto using storable_status.
  - intros k c' Hk. rewrite lookup_insert. case_decide; [done|by eapply Hkey].
Qed.

Lemma integrity_created key cu it a o v v' :
  created uuid_in tstz key cu it a o v v' -> integrity uuid_in v -> integrity uuid_in v'.
Proof.
  intros (id & now & -> & Hid & Hfresh & Ha & Hst & Hk & ->) [Hrow Hkey].
  unfold with_new_order.
  assert (forall f, integrity uuid_in (set_orders (<[id := f]>) v) ->
    integrity uuid_in (match key_of key with
      | Some k => set_idem (<[k := id]>) (set_orders (<[id := f]>) v)
      | None => set_orders (<[id := f]>) v end)) as Hidem.
  { intros f Hi. destruct (key_of key) as [k|]; [|done]. destruct Hi as [Hr Hki].
    split; simpl in *; [done|]. intros k' c [[<- <-]|[Hne Hl]]%lookup_insert_Some.
    - rewrite lookup_insert_eq. done.
    - eapply Hki; done. }
  apply Hidem. split; simpl.
  - intros c' o' [[<- <-]|[Hne Hl]]%lookup_insert_Some; [|by apply Hrow].
    simpl. split_and!; try done. unfold valid_status. set_solver.
  - intros k c' Hk'. rewrite lookup_insert. case_decide; [done|by eapply Hkey].
Qed.

Lemma integrity_cached o v v' : cached o v v' -> integrity uuid_in v -> integrity uuid_in v'.
Proof. intros (entry & _ & ->). apply integrity_set_cache. Qed.

Lemma integrity_call X (e : portE X) x v v' :
  spec X e x v v' -> integrity uuid_in v -> integrity uuid_in v'.
Proof.
  intros H HI. destruct e; promise H; eauto using integrity_set_cache, integrity_report,
    integrity_updated, integrity_created, integrity_cached.
  case_bool_decide; eauto using integrity_set_cache.
Qed.

(** ** The payment step *)

Lemma outcome_settle c row order v v0 st :
  uuid_in (Order.ID order) = Some c -> orders v !! c = Some row ->
  orders v0 = orders v -> reports v0 = (Order.ID order, st) :: reports v ->
  holds spec (CreateOrder.settle cache_on order st) (payment_outcome c row order v) v0.
Proof.
  intros Hc Hrow Ho Hr. unfold CreateOrder.settle, CreateOrder.invalidate. rewrite status_settled.
  assert (forall v1, updated uuid_in (Order.ID order) (settled_as st) v0 v1 ->
            stored_as c row v (settled_as st) v1 /\ reports v1 = reports v0) as Hup.
  { intros v1 (c' & o & Hc' & Hl & _ & ->). simplify_eq.
    unfold stored_as; simpl. by rewrite Ho in *; simplify_eq. }
  hrun; try (destruct (Hup _ ltac:(eassumption)) as [??]);
    try (case_bool_decide);
    unfold stored_as in *;
    first [ apply PaySettled; unfold stored_as; simpl; congruence
          | apply PayNotStored with (st := st); unfold stored_as; simpl;
            [done|first [left; congruence | right; congruence] | congruence]
          | idtac ].
Qed.

Lemma outcome_reconcile c row order v :
  uuid_in (Order.ID order) = Some c -> orders v !! c = Some row ->
  holds spec (CreateOrder.reconcileFromPaymentService cache_on order)
    (payment_outcome c row order v) v.
Proof.
  intros Hc Hrow. unfold CreateOrder.reconcileFromPaymentService.
  hrun; simplify_eq; try (apply outcome_settle; done);
    try (apply PayRefused; done);
    try (apply PayMissing; done); try (apply PayUnreconciled; eauto with holds_db);
    try (apply PayUnavailable; auto; congruence).
Qed.

Lemma outcome_authorize c row order email v :
  uuid_in (Order.ID order) = Some c -> orders v !! c = Some row ->
  holds spec (CreateOrder.authorize cache_on order email) (payment_outcome c row order v) v.
Proof.
  intros Hc Hrow. unfold CreateOrder.authorize, CreateOrder.invalidate.
  assert (forall v1, updated uuid_in (Order.ID order) StatusFailed v v1 ->
            stored_as c row v StatusFailed v1 /\ reports v1 = reports v) as Hup.
  { intros v1 (c' & o & Hc' & Hl & _ & ->). by simplify_eq. }
  hrun; simplify_eq; try (apply outcome_settle; done);
    try (apply outcome_reconcile; done);
    try (apply PayRefused; done);
    try (apply PayMissing; done); try (apply PayUnreconciled; eauto with holds_db);
    try (apply PayUnavailable; auto; congruence).
  { apply PayUnavailable; [rewrite Hrow; by right|done|done]. }
  all: try (destruct (Hup _ ltac:(eassumption)) as [??]); try case_bool_decide;
    unfold stored_as in *;
    apply PayFailed; unfold stored_as; simpl in *;
    first [ done | congruence | by auto with holds_db | by left | left; congruence | right; congruence ].
Qed.

(** ** [CreateOrder.Execute]: every way through it *)

Inductive create_outcome (inp : CreateOrderInput.t) (v : view) :
    option Order.t * option error -> view -> Prop :=
| CreInvalid :
    CreateOrder.valid_input inp = false ->
    create_outcome inp v (None, Some ErrInvalidInput) v
| CreNotStored e v' :
    CreateOrder.valid_input inp = true -> foreign e = true ->
    (v' = v \/ exists o, created uuid_in tstz (CreateOrderInput.IdempotencyKey inp)
      (TrimSpace (CreateOrderInput.CustomerID inp)) (TrimSpace (CreateOrderInput.ItemName inp))
      (CreateOrderInput.Amount inp) o v v') ->
    create_outcome inp v (None, Some e) v'
| CreDone k id o :
    CreateOrder.valid_input inp = true ->
    key_of (CreateOrderInput.IdempotencyKey inp) = Some k -> idem v !! k = Some id ->
    orders v !! id = Some o -> is_terminal (Order.Status o) = true ->
    create_outcome inp v (Some o, None) v
| CreRetried k id o r v' :
    CreateOrder.valid_input inp = true ->
    key_of (CreateOrderInput.IdempotencyKey inp) = Some k -> idem v !! k = Some id ->
    orders v !! id = Some o -> Order.Status o = StatusPending ->
    payment_outcome id o o v r v' ->
    create_outcome inp v r v'
| CreNew o v1 r v' :
    CreateOrder.valid_input inp = true ->
    created uuid_in tstz (CreateOrderInput.IdempotencyKey inp)
      (TrimSpace (CreateOrderInput.CustomerID inp)) (TrimSpace (CreateOrderInput.ItemName inp))
      (CreateOrderInput.Amount inp) o v v1 ->
    payment_outcome (Order.ID o) (Order.set_CreatedAt (tstz (Order.CreatedAt o)) o) o v1 r v' ->
    create_outcome inp v r v'.

Lemma not_terminal_pending st : valid_status st -> is_terminal st = false -> st = StatusPending.
Proof.
  unfold valid_status, is_terminal. rewrite !orb_false_iff, !bool_decide_eq_false. set_solver.
Qed.

Lemma created_row key cu it a o v v' :
  created uuid_in tstz key cu it a o v v' ->
  orders v' = <[Order.ID o := Order.set_CreatedAt (tstz (Order.CreatedAt o)) o]> (orders v) /\
  reports v' = reports v /\ cache v' = cache v /\ uuid_in (Order.ID o) = Some (Order.ID o) /\
  orders v !! Order.ID o = None /\ Order.Status o = StatusPending.
Proof.
  intros (id & now & -> & ? & ? & ? & ? & ? & ->). unfold with_new_order.
  by destruct (key_of key).
Qed.

Lemma create_all inp v :
  integrity uuid_in v ->
  holds spec (CreateOrder.Execute cache_on inp) (create_outcome inp v) v.
Proof.
  intros HI. unfold CreateOrder.Execute.
  destruct (Z.leb_spec (CreateOrderInput.Amount inp) 0).
  { apply holds_ret, CreInvalid. unfold CreateOrder.valid_input.
    by rewrite (proj2 (Z.ltb_ge 0 _)). }
  destruct (bool_decide _ || bool_decide _ || bool_decide _) eqn:Hb.
  { apply holds_ret, CreInvalid. unfold CreateOrder.valid_input. by rewrite Hb, andb_false_r. }
  assert (CreateOrder.valid_input inp = true) as Hv.
  { unfold CreateOrder.valid_input. by rewrite Hb, (proj2 (Z.ltb_lt 0 _)). }
  hrun; simplify_eq.
  - apply CreNotStored; auto.
  - apply CreNotStored; eauto.
  - eapply CreDone; eauto.
  - destruct HI as [Hrow _]. 
    match goal with H : orders v !! _ = Some _ |- _ => destruct (Hrow _ _ H) as (<- & ? & ? & ? & ?) end.
    eapply holds_mono; [eapply outcome_authorize; eauto|].
    intros r v' Hr. eapply CreRetried; eauto. by apply not_terminal_pending.
  - match goal with H : created _ _ _ _ _ _ _ _ _ |- _ =>
      apply created_row in H as (_ & _ & _ & _ & _ & Hs) end.
    rewrite Hs in *. done.
  - match goal with H : created _ _ _ _ _ _ _ _ _ |- _ => rename H into Hspec end.
    pose proof Hspec as (Ho & _ & _ & Hid & _ & _)%created_row.
    eapply holds_mono; [apply outcome_authorize; [done|by rewrite Ho, lookup_insert_eq]|].
    intros r v' Hr. eapply CreNew; eauto.
Qed.

(** ** Requests one after the other *)

Lemma evolves_refl v : evolves v v.
Proof. intros c o Ho. eauto. Qed.

Lemma evolves_trans v1 v2 v3 : evolves v1 v2 -> evolves v2 v3 -> evolves v1 v3.
Proof.
  intros H12 H23 c o Ho. destruct (H12 c o Ho) as (o2 & Ho2 & H2).
  destruct (H23 c o2 Ho2) as (o3 & Ho3 & H3). exists o3. split; [done|].
  destruct H2 as [->|(Hp & s & Hs & ->)]; [done|]. right. split; [done|].
  destruct H3 as [->|(Hp' & _)]; [eauto|]. simpl in Hp'. subst s. done.
Qed.

Lemma evolves_orders v v' : orders v' = orders v -> evolves v v'.
Proof. intros E c o Ho. rewrite E. eauto. Qed.

(** Storing a terminal status in a pending row. *)
Lemma evolves_stored c row v v' st :
  orders v !! c = Some row -> Order.Status row = StatusPending -> is_terminal st = true ->
  stored_as c row v st v' -> evolves v v'.
Proof.
  intros Hrow Hp Hst E c' o Ho. rewrite E. rewrite lookup_insert. case_decide; subst; simplify_eq.
  - eexists. split; [done|]. right. eauto.
  - eauto.
Qed.

Lemma settled_as_terminal st : is_terminal (settled_as st) = true.
Proof. unfold settled_as. by case_bool_decide. Qed.

Lemma outcome_evolves c row order v r v' :
  orders v !! c = Some row -> Order.Status row = StatusPending ->
  payment_outcome c row order v r v' -> evolves v v'.
Proof.
  intros Hrow Hp H.
  assert (forall st v'', is_terminal st = true -> stored_as c row v st v'' -> evolves v v'')
    as Hst by eauto using evolves_stored.
  destruct H; destruct_or?; eauto using evolves_orders, settled_as_terminal.
  all: by eapply (Hst StatusFailed).
Qed.

Lemma created_evolves key cu it a o v v' :
  created uuid_in tstz key cu it a o v v' -> evolves v v'.
Proof.
  intros (E & _ & _ & _ & Hn & _)%created_row c o' Ho. rewrite E.
  rewrite lookup_insert_ne by congruence. eauto.
Qed.

Lemma create_evolves inp v r v' : create_outcome inp v r v' -> evolves v v'.
Proof.
  destruct 1 as [|e v' ? ? Hc|k id o|k id o r v'|o v1 r v' ? Hc]; auto using evolves_refl.
  - destruct Hc as [->|[o Hc]]; eauto using evolves_refl, created_evolves.
  - by eapply outcome_evolves.
  - eapply evolves_trans; [by eapply created_evolves|].
    apply created_row in Hc as (E & _ & _ & _ & _ & Hs).
    eapply outcome_evolves; [by rewrite E, lookup_insert_eq|exact Hs|eassumption].
Qed.

Lemma cached_orders o v v' : cached o v v' -> orders v' = orders v.
Proof. by intros (entry & _ & ->). Qed.

Lemma get_orders ttl id v :
  holds spec (GetOrder.Execute cache_on ttl id) (fun _ v' => orders v' = orders v) v.
Proof. unfold GetOrder.Execute, GetOrder.load. hrun; try done.
  all: match goal with H : cached _ _ _ |- _ => apply cached_orders in H end; done.
Qed.

(** ** [CancelOrder.Execute] *)

Inductive cancel_outcome (id : string) (v : view) :
    option Order.t * option error -> view -> Prop :=
| CanUnread e :
    foreign e = true ->
    cancel_outcome id v (None, Some e) v
| CanUnknown c :
    uuid_in id = Some c -> orders v !! c = None ->
    cancel_outcome id v (None, Some ErrOrderNotFound) v
| CanRefused c o :
    uuid_in id = Some c -> orders v !! c = Some o -> Order.Status o <> StatusPending ->
    cancel_outcome id v (None, Some ErrCancelNotAllowed) v
| CanNotStored c o e v' :
    uuid_in id = Some c -> orders v !! c = Some o -> Order.Status o = StatusPending ->
    foreign e = true -> orders v' = orders v \/ stored_as c o v StatusCancelled v' ->
    cancel_outcome id v (None, Some e) v'
| CanDone c o v' :
    uuid_in id = Some c -> orders v !! c = Some o -> Order.Status o = StatusPending ->
    stored_as c o v StatusCancelled v' ->
    cancel_outcome id v (Some (Order.set_Status StatusCancelled o), None) v'.

Lemma cancel_all id v :
  holds spec (CancelOrder.Execute cache_on id) (cancel_outcome id v) v.
Proof.
  unfold CancelOrder.Execute.
  assert (forall v1 c o, uuid_in id = Some c -> orders v !! c = Some o ->
            updated uuid_in id StatusCancelled v v1 -> stored_as c o v StatusCancelled v1) as Hup.
  { intros v1 c o Hc Ho (c' & o' & ? & ? & _ & ->). by simplify_eq. }
  hrun; simplify_eq;
    repeat match goal with H : negb _ = false |- _ => apply negb_false_iff, bool_decide_eq_true in H
           | H : negb _ = true |- _ => apply negb_true_iff, bool_decide_eq_false in H end;
    try (solve [econstructor; eauto]); try case_bool_decide.
   all: first [ eapply CanNotStored; eauto; right; by eapply Hup
             | eapply CanDone; eauto; by apply (Hup v0) ].
Qed.
End Facts.
