(* ===== verification/OrderMem.v ===== *)
(** * Order service: an executable world behind the ports

    A concrete environment that keeps [ports_spec]: the tables and the cache in
    memory, and a script of what goes wrong and of what the payment service
    answers.  It shows that the promise can be kept, and it runs the use cases on
    concrete requests. *)

From S2P Require Import Prelude GoLib Json GoTime OrderPorts OrderUsecase.
From Stdlib Require Import Ascii.

(** UUIDs: texts of letters, digits and dashes, canonical in lower case; timestamps:
    microseconds. *)
Definition lower_ascii (a : ascii) : ascii :=
  let n := nat_of_ascii a in
  if (65 <=? n)%nat && (n <=? 90)%nat then ascii_of_nat (n + 32) else a.
Fixpoint lower (s : string) : string :=
  match s with
  | EmptyString => EmptyString
  | String a s => String (lower_ascii a) (lower s)
  end.
Definition mem_uuid_in (s : string) : option string :=
  if uuid_text (lower s) then Some (lower s) else None.

Lemma mem_uuid_plain s c : mem_uuid_in s = Some c -> plain_text c.
Proof. unfold mem_uuid_in. destruct (uuid_text (lower s)) eqn:E; [|done]. intros [= <-]. by apply uuid_text_plain. Qed.

Definition mem_tstz (t : Z) : Z := t / 1000 * 1000.

(** What the payment service answers next. *)
Inductive pay_answer : Type :=
| PayStatus (txn st : string)
| PayError (e : error).

Record mem := Mem {
  m_view : view;
  m_faults : list bool;         (* [true]: the next storage call fails *)
  m_pay : list pay_answer;
  m_fresh : list string;        (* identifiers to come *)
  m_now : Z
}.

Definition mem_error : error := ErrorNew "connection reset by peer".

Definition set_view (v : view) (w : mem) : mem :=
  Mem v (m_faults w) (m_pay w) (m_fresh w) (m_now w).
Definition next_fault (w : mem) : mem :=
  Mem (m_view w) (tail (m_faults w)) (m_pay w) (m_fresh w) (m_now w).
Definition next_pay (w : mem) : mem :=
  Mem (m_view w) (m_faults w) (tail (m_pay w)) (m_fresh w) (m_now w).
Definition next_fresh (w : mem) : mem :=
  Mem (m_view w) (m_faults w) (m_pay w) (tail (m_fresh w)) (m_now w + 1).
Definition faulty (w : mem) : bool := default false (head (m_faults w)).

Definition mem_update (id st : string) (v : view) : option view :=
  match mem_uuid_in id with
  | Some c =>
      match orders v !! c with
      | Some o =>
          if decide (valid_status st)
          then Some (set_orders (<[c := Order.set_Status st o]>) v) else None
      | None => None
      end
  | None => None
  end.

Definition mem_create (key : option string) (cust item : string) (amount : Z) (w : mem) :
    outcome (option Order.t * bool * option error) * mem :=
  let v := m_view w in
  let existing :=
    match key_of key with
    | Some k => match idem v !! k with Some id => Some (orders v !! id) | None => None end
    | None => None
    end in
  match existing with
  | Some (Some o) => (Done (Some o, true, None), w)
  | Some None => (Done (None, false, Some mem_error), w)
  | None =>
      let id := default "" (head (m_fresh w)) in
      let o := new_order id cust item amount (m_now w) in
      if bool_decide (mem_uuid_in id = Some id /\ orders v !! id = None) && (0 <? amount)
         && storable (Order.set_CreatedAt (mem_tstz (m_now w)) o) then
        (Done (Some o, false, None), next_fresh (set_view (with_new_order mem_tstz key o v) w))
      else (Done (None, false, Some mem_error), w)
  end.

Definition mem_ports : handler portE mem := fun X e w =>
  match e in portE X return outcome X * mem with
  | GetByID id =>
      if faulty w then (Done (None, Some mem_error), next_fault w)
      else match mem_uuid_in id with
           | Some c => (Done (orders (m_view w) !! c, None), next_fault w)
           | None => (Done (None, Some mem_error), next_fault w)
           end
  | UpdateStatus id st =>
      if faulty w then (Done (Some mem_error), next_fault w)
      else match mem_update id st (m_view w) with
           | Some v => (Done None, next_fault (set_view v w))
           | None => (Done (Some mem_error), next_fault w)
           end
  | CreatePendingWithIdempotency key cust item amount =>
      if faulty w then (Done (None, false, Some mem_error), next_fault w)
      else mem_create key cust item amount (next_fault w)
  | CacheGet id =>
      if faulty w then (Done (None, Some mem_error), next_fault w)
      else match cache (m_view w) !! id with
           | Some o => (Done (Some o, None), next_fault w)
           | None => (Done (None, None), next_fault w)
           end
  | CacheSet o ttl =>
      if faulty w then (Done (Some mem_error), next_fault w)
      else (Done None, next_fault (set_view (set_cache (<[Order.ID o := o]>) (m_view w)) w))
  | CacheDelete id =>
      if faulty w then (Done (Some mem_error), next_fault w)
      else (Done None, next_fault
              (if bool_decide (id = "") then w else set_view (set_cache (delete id) (m_view w)) w))
  | Authorize id amount email =>
      match head (m_pay w) with
      | Some (PayStatus txn st) =>
          (Done (txn, st, None), next_pay (set_view (report id st (m_view w)) w))
      | Some (PayError e) =>
          (Done ("", "", Some (if payment_error e then e else mem_error)), next_pay w)
      | None => (Done ("", "", Some mem_error), w)
      end
  | GetStatus id =>
      match head (m_pay w) with
      | Some (PayStatus _ st) =>
          (Done (st, None), next_pay (set_view (report id st (m_view w)) w))
      | Some (PayError e) =>
          (Done ("", Some (if payment_error e then e else mem_error)), next_pay w)
      | None => (Done ("", Some mem_error), w)
      end
  end.

Definition empty_view : view := View ∅ ∅ ∅ [].

(** A world with some pending orders, nothing cached, no faults to come. *)
Definition mem_start (os : list Order.t) (pay : list pay_answer) (fresh : list string) : mem :=
  Mem (View (list_to_map ((fun o => (Order.ID o, o)) <$> os)) ∅ ∅ []) [] pay fresh 0.

(** The in-memory world keeps the ports' promise. *)
#[export] Instance mem_refines : Refines mem_ports m_view (ports_spec mem_uuid_in mem_tstz).
Proof.
  intros X e w.
  assert (foreign mem_error = true) as Hf by done.
  destruct e as [id|id st|key cust item amount|id|o t|id|id amount email|id]; cbn [mem_ports].
  - destruct (faulty w); [|destruct (mem_uuid_in id) eqn:E]; do 2 eexists; (split; [reflexivity|]);
      simpl; eauto 6.
  - destruct (faulty w).
    { do 2 eexists; (split; [reflexivity|]); simpl; eauto 6. }
    destruct (mem_update id st (m_view w)) eqn:E; do 2 eexists; (split; [reflexivity|]);
      simpl; [|eauto 6]. left. split; [done|].
    unfold mem_update in E. repeat case_match; simplify_eq. do 2 eexists; eauto.
  - destruct (faulty w).
    { do 2 eexists; (split; [reflexivity|]); simpl; eauto 6. }
    unfold mem_create. simpl.
    destruct (key_of key) as [k|] eqn:Hk; [destruct (idem (m_view w) !! k) as [id|] eqn:Hid;
      [destruct (orders (m_view w) !! id) as [o|] eqn:Ho|]|].
    + do 2 eexists; (split; [reflexivity|]); simpl. right; left. eauto 10.
    + do 2 eexists; (split; [reflexivity|]); simpl. eauto 10.
    + case_bool_decide; [destruct (Z.ltb_spec 0 amount); [destruct (storable _) eqn:Hst|]|];
        do 2 eexists; (split; [reflexivity|]);
        simpl; eauto 6. right; right. eexists; split; [|done].
      destruct_and!. do 2 eexists. split_and!; eauto. intros; by simplify_eq.
    + case_bool_decide; [destruct (Z.ltb_spec 0 amount); [destruct (storable _) eqn:Hst|]|];
        do 2 eexists; (split; [reflexivity|]);
        simpl; eauto 6. right; right. eexists; split; [|done].
      destruct_and!. do 2 eexists. split_and!; eauto. intros; by simplify_eq.
  - destruct (faulty w); [|destruct (cache (m_view w) !! id) eqn:E]; do 2 eexists;
      (split; [reflexivity|]); simpl; eauto 6.
    right; left. split; [done|]. destruct (m_view w); unfold set_cache; simpl in *.
    by rewrite delete_id.
  - destruct (faulty w); do 2 eexists; (split; [reflexivity|]); simpl; eauto 6.
    left. split; [done|]. by exists (Some o).
  - destruct (faulty w); do 2 eexists; (split; [reflexivity|]); simpl; eauto 6.
    left. split; [done|]. by case_bool_decide.
  - destruct (head (m_pay w)) as [[txn st|e]|]; [|destruct (payment_error e) eqn:?|]; do 2 eexists;
      (split; [reflexivity|]); simpl; eauto 8.
  - destruct (head (m_pay w)) as [[txn st|e]|]; [|destruct (payment_error e) eqn:?|]; do 2 eexists;
      (split; [reflexivity|]); simpl; eauto 8.
Qed.
