(* ===== verification/OrderUsecaseProps.v ===== *)
(** * Order service: the properties of the use cases

    Stated for every environment that keeps the ports' promise: whatever fails,
    whatever the payment service answers.  The witnesses run on the in-memory
    world of [OrderMem]. *)

From S2P Require Import Prelude GoLib Json GoTime OrderPorts OrderUsecase OrderUsecaseFacts OrderMem.

(** Requests served one after the other. *)
Fixpoint run_requests (cache : bool) (ttl : Z) (rs : list request) :
    prog portE (list (option Order.t * option error)) :=
  match rs with
  | [] => mret []
  | r :: rs =>
      x ← serve cache ttl r;
      xs ← run_requests cache ttl rs;
      mret (x :: xs)
  end.

(** Every request of a pool is one of [rs]. *)
Definition serving (cache : bool) (ttl : Z) (rs : list request) :
    list (prog portE (option Order.t * option error)) := serve cache ttl <$> rs.

(** ** What the ports promise when no acknowledgement is lost

    A failed status update has not taken effect, and the cache's deletes reach
    it. *)
Definition acked {X} (e : portE X) : X -> view -> view -> Prop :=
  match e in portE X return X -> view -> view -> Prop with
  | UpdateStatus _ _ => fun r v v' => r = None \/ v' = v
  | CacheDelete _ => fun r _ _ => r = None
  | _ => fun _ _ _ => True
  end.
Definition acked_spec (uuid_in : string -> option string) (tstz : Z -> Z) : interface portE view :=
  fun X e x v v' => ports_spec uuid_in tstz X e x v v' /\ acked e x v v'.

#[global] Arguments acked_spec _ _ _ _ _ _ _ /.

(** The in-memory world with its faults taken out. *)
Definition calm_ports : handler portE mem :=
  fun X e w => mem_ports X e (Mem (m_view w) [] (m_pay w) (m_fresh w) (m_now w)).

#[export] Instance calm_refines : Refines calm_ports m_view (acked_spec mem_uuid_in mem_tstz).
Proof.
  intros X e w. unfold calm_ports.
  set (w0 := Mem (m_view w) [] (m_pay w) (m_fresh w) (m_now w)).
  destruct (mem_refines X e w0) as (x & w' & E & H).
  exists x, w'. split; [done|]. split; [exact H|].
  destruct e; try done.
  - cbn [mem_ports] in E. unfold faulty in E. simpl in E.
    destruct (mem_update _ _ _); injection E as <- <-; [by left|by right].
  - cbn [mem_ports] in E. unfold faulty in E. simpl in E. by injection E as <- <-.
Qed.

(** ** Lemmas about requests *)

Section Requests.
Context (uuid_in : string -> option string) (tstz : Z -> Z) (cache_on : bool) (ttl : Z).
Notation spec := (ports_spec uuid_in tstz).

Lemma serve_evolves r v :
  integrity uuid_in v ->
  holds spec (serve cache_on ttl r) (fun _ v' => evolves v v') v.
Proof.
  intros HI. destruct r as [inp|id|id]; simpl.
  - eapply holds_mono; [by apply create_all|]. intros. by eapply create_evolves.
  - eapply holds_mono; [apply get_orders|]. intros. by apply evolves_orders.
  - eapply holds_mono; [apply cancel_all|]. intros r' v' H.
    destruct H; destruct_or?; eauto using evolves_refl, evolves_orders;
      by eapply (evolves_stored c o v _ StatusCancelled).
Qed.

Lemma requests_evolve rs v :
  integrity uuid_in v ->
  holds spec (run_requests cache_on ttl rs)
    (fun xs v' => length xs = length rs /\ integrity uuid_in v' /\ evolves v v') v.
Proof.
  revert v; induction rs as [|r rs IH]; intros v HI; simpl.
  { apply holds_ret. eauto using evolves_refl. }
  apply holds_bind. eapply holds_mono.
  { eapply holds_inv with (I := integrity uuid_in); [|done|by apply serve_evolves].
    intros. by eapply integrity_call. }
  intros x v1 [Hev HI1]. apply holds_bind. eapply holds_mono; [by apply IH|].
  intros xs v2 (? & ? & ?). apply holds_ret. simpl. eauto using evolves_trans.
Qed.

(** No call but an insertion touches the idempotency table, and it only grows. *)
Lemma idem_call X (e : portE X) x v v' : spec X e x v v' -> idem v ⊆ idem v'.
Proof.
  intros H. destruct e; promise H; try done;
    repeat match goal with
    | H : updated _ _ _ _ _ |- _ => destruct H as (? & ? & ? & ? & ? & ->)
    | H : cached _ _ _ |- _ => destruct H as (? & ? & ->)
    | H : created _ _ _ _ _ _ _ _ _ |- _ => destruct H as (? & ? & -> & ? & ? & ? & ? & Hk & ->)
    end; try done; try (by case_bool_decide);
    unfold with_new_order; destruct (key_of idempotencyKey) as [k|]; try done; simpl;
    by apply insert_subseteq, Hk.
Qed.

Lemma idem_holds {A} (p : prog portE A) (Q : A -> view -> Prop) v :
  holds spec p Q v -> holds spec p (fun a v' => Q a v' /\ idem v ⊆ idem v') v.
Proof.
  apply (holds_inv spec (fun v' => idem v ⊆ idem v')); [|done].
  intros X e x v1 v2 H. apply idem_call in H. intros. by etrans.
Qed.

(** The order a use case returns is the one it was working on. *)
Lemma outcome_ID c row order v o e v' :
  orders v !! c = Some row -> Order.ID row = c -> Order.ID order = c ->
  payment_outcome c row order v (Some o, e) v' -> Order.ID o = c.
Proof.
  intros Hl Hr Ho H. inversion H as [| |r v2 Hr'| | | |r e' v2 ? ? ? Hst Hr']; simplify_eq/=; auto.
  - by destruct Hr' as [-> | ->].
  - destruct Hr' as [->|Hl']; [done|].
    destruct Hst as [E|E]; rewrite E, ?lookup_insert_eq in Hl'; by simplify_eq.
Qed.

(** After an order came back for a key, the key names it. *)
Lemma create_key inp k v :
  integrity uuid_in v -> key_of (CreateOrderInput.IdempotencyKey inp) = Some k ->
  holds spec (CreateOrder.Execute cache_on inp)
    (fun r v' => forall o e, r = (Some o, e) -> idem v' !! k = Some (Order.ID o)) v.
Proof.
  intros HI Hk. pose proof (int_row _ _ HI) as Hrow. unfold CreateOrder.Execute.
  destruct (_ <=? _); [by apply holds_ret|].
  destruct (_ || _ || _); [by apply holds_ret|].
  assert (forall c row o email v1, orders v1 !! c = Some row -> Order.ID row = c ->
    Order.ID o = c -> uuid_in c = Some c -> idem v1 !! k = Some c ->
    holds spec (CreateOrder.authorize cache_on o email)
      (fun r v' => forall o e, r = (Some o, e) -> idem v' !! k = Some (Order.ID o)) v1) as Hauth.
  { intros c row o email v1 Hl Hr Ho Hc Hidem.
    eapply holds_mono; [apply idem_holds, (outcome_authorize uuid_in tstz cache_on c row); [by rewrite Ho|done]|].
    intros r v2 [Hout Hsub] o' e' ->.
    rewrite (outcome_ID _ _ _ _ _ _ _ Hl Hr Ho Hout). by eapply lookup_weaken. }
  hrun; simplify_eq; try done.
  - intros; simplify_eq. destruct (Hrow _ _ ltac:(eassumption)) as (-> & _). done.
  - destruct (Hrow _ _ ltac:(eassumption)) as (E & ? & _). by eapply Hauth.
  - match goal with H : created _ _ _ _ _ _ _ _ _ |- _ =>
      apply created_row in H as (_ & _ & _ & _ & _ & Hs) end.
    rewrite Hs in *. done.
  - match goal with H : created _ _ _ _ _ _ _ _ _ |- _ =>
      pose proof H as (E & _ & _ & ? & _)%created_row;
      destruct H as (id & now & -> & ? & ? & ? & ? & ? & Ev) end.
    eapply Hauth; [by rewrite E, lookup_insert_eq|done..|].
    rewrite Ev. unfold with_new_order. rewrite Hk. simpl. by rewrite lookup_insert_eq.
Qed.

(** The payment step adds no row and removes none. *)
Lemma outcome_dom c row order v r v' :
  orders v !! c = Some row -> payment_outcome c row order v r v' ->
  dom (orders v') = dom (orders v).
Proof.
  intros Hl H.
  assert (forall st v', stored_as c row v st v' -> dom (orders v') = dom (orders v)) as Hst.
  { intros st v2 E. rewrite E. by rewrite (dom_insert_lookup_L _ c) by eauto. }
  destruct H; destruct_or?; try congruence; eauto.
  all: try (by eapply (Hst StatusFailed)).
Qed.

(** A request with a key that is taken works on the key's order. *)
Lemma create_retry inp k id v :
  integrity uuid_in v -> key_of (CreateOrderInput.IdempotencyKey inp) = Some k ->
  idem v !! k = Some id ->
  holds spec (CreateOrder.Execute cache_on inp)
    (fun r v' => dom (orders v') = dom (orders v) /\
       forall o e, r = (Some o, e) -> Order.ID o = id) v.
Proof.
  intros HI Hk Hid.
  eapply holds_mono; [apply idem_holds, holds_and; [by apply create_all|by eapply create_key]|].
  intros r v' [[Hout Hkey] Hsub]. split.
  - destruct Hout as [|e v' ? ? [->|(o & ? & ? & ? & ? & ? & ? & ? & Hn & _)]| | |o v1 r v' ?
      (? & ? & ? & ? & ? & ? & ? & Hn & _)]; try done.
    + rewrite (Hn k Hk) in Hid. done.
    + by eapply outcome_dom.
    + rewrite (Hn k Hk) in Hid. done.
  - intros o e ->. pose proof (Hkey o e eq_refl) as H2.
    eapply lookup_weaken in Hid; [|exact Hsub]. by simplify_eq.
Qed.

(** The payment service being unreachable leaves the order pending. *)
Lemma outcome_unavailable c row order v o v' :
  orders v !! c = Some row ->
  payment_outcome c row order v (Some o, Some ErrPaymentUnavailable) v' ->
  orders v' = orders v /\ (o = order \/ o = row).
Proof.
  intros Hl H. inversion H; simplify_eq; auto.
Qed.
End Requests.

(** ** Interleaved requests: a paid order has been authorized

    The guarantee of every request: reports are only added, and a row becomes
    paid only after an authorization was reported for it. *)
Section PaidRelyGuarantee.
Context (uuid_in : string -> option string) (tstz : Z -> Z).
Context (cache_on : bool) (ttl : Z).
Notation spec := (ports_spec uuid_in tstz).

Definition reports_kept (v v' : view) : Prop := forall x, x ∈ reports v -> x ∈ reports v'.

(** Storing the status Paid needs an authorization. *)
Definition may_call (X : Type) (e : portE X) (v : view) : Prop :=
  match e with
  | UpdateStatus id st => st = StatusPaid -> (id, paymentStatusAuthorized) ∈ reports v
  | _ => True
  end.

Lemma paid_authorized_orders v v' :
  orders v' = orders v -> reports_kept v v' -> paid_authorized uuid_in v -> paid_authorized uuid_in v'.
Proof. intros E HR HP c o. rewrite E. intros Ho Hs. destruct (HP c o Ho Hs) as (i & ? & ?). eauto. Qed.

Lemma paid_authorized_updated id st v v' :
  updated uuid_in id st v v' -> (st = StatusPaid -> (id, paymentStatusAuthorized) ∈ reports v) ->
  paid_authorized uuid_in v -> paid_authorized uuid_in v' /\ reports_kept v v'.
Proof.
  intros (c & o & Hc & Ho & _ & ->) Hp HP. split; [|by intros ?].
  unfold paid_authorized; simpl. intros c' o' [[<- <-]|[Hne Hl]]%lookup_insert_Some Hs; simpl in *; eauto.
Qed.

Lemma paid_authorized_created key cu it a o v v' :
  created uuid_in tstz key cu it a o v v' ->
  paid_authorized uuid_in v -> paid_authorized uuid_in v' /\ reports_kept v v'.
Proof.
  intros (E & Er & _ & _ & _ & Hs)%created_row HP. unfold reports_kept. rewrite Er. split; [|done].
  intros c' o'. rewrite E, Er. intros [[<- <-]|[Hne Hl]]%lookup_insert_Some Hs'; simpl in *; eauto.
  by rewrite Hs in Hs'.
Qed.

Lemma paid_authorized_call X (e : portE X) x v1 v2 :
  spec X e x v1 v2 -> may_call X e v1 -> paid_authorized uuid_in v1 ->
  paid_authorized uuid_in v2 /\ reports_kept v1 v2.
Proof.
  intros H HM HP.
  assert (forall f, paid_authorized uuid_in (set_cache f v1) /\ reports_kept v1 (set_cache f v1))
    as Hcache.
  { intros f. assert (reports_kept v1 (set_cache f v1)) by (intros ? ?; done).
    split; [|done]. eapply paid_authorized_orders; [|done..]. done. }
  assert (forall i s, paid_authorized uuid_in (report i s v1) /\ reports_kept v1 (report i s v1))
    as Hreport.
  { intros i s. assert (reports_kept v1 (report i s v1)) by (intros ? ?; by right).
    split; [|done]. eapply paid_authorized_orders; [|done..]. done. }
  assert (paid_authorized uuid_in v1 /\ reports_kept v1 v1) by (split; [done|intros ? ?; done]).
  assert (forall o v, cached o v1 v -> paid_authorized uuid_in v /\ reports_kept v1 v) as Hcached
    by (intros o v (? & ? & ->); done).
  destruct e; promise H; eauto using paid_authorized_updated, paid_authorized_created.
  by case_bool_decide.
Qed.

#[global] Instance paid_discipline :
  Discipline spec (paid_authorized uuid_in) reports_kept may_call.
Proof.
  split.
  - intros v ?; done.
  - intros u v w H1 H2 x Hx. by apply H2, H1.
  - apply paid_authorized_call.
Qed.

Notation disciplined := (thread_ok spec (paid_authorized uuid_in) reports_kept).

Lemma status_of_payment_paid st : status_of_payment st = StatusPaid -> st = paymentStatusAuthorized.
Proof. unfold status_of_payment. by repeat case_bool_decide. Qed.

Lemma settle_ok order st v :
  (Order.ID order, st) ∈ reports v -> disciplined (CreateOrder.settle cache_on order st) v.
Proof.
  intros Hr. unfold CreateOrder.settle, CreateOrder.invalidate. follow.
  intros ->%status_of_payment_paid. auto.
Qed.

Lemma authorize_ok order email v : disciplined (CreateOrder.authorize cache_on order email) v.
Proof.
  unfold CreateOrder.authorize, CreateOrder.reconcileFromPaymentService, CreateOrder.invalidate.
  follow; try done; apply settle_ok;
    match goal with H : ports_spec _ _ _ ?e _ _ ?v |- _ ∈ reports ?v =>
      promise H; simplify_eq; simpl; by left end.
Qed.

Lemma serve_ok r v : disciplined (serve cache_on ttl r) v.
Proof.
  destruct r; simpl; unfold CreateOrder.Execute, GetOrder.Execute, GetOrder.load, CancelOrder.Execute;
    follow; try apply authorize_ok; try done.
  match goal with H : ports_spec _ _ _ _ _ _ _ |- _ => promise H; simplify_eq end.
Qed.
End PaidRelyGuarantee.

(** ** The cache, one request after the other *)
Section Coherence.
Context (uuid_in : string -> option string) (tstz : Z -> Z) (ttl : Z).
Notation spec := (acked_spec uuid_in tstz).

(** Coherent, the entry of one order aside. *)
Definition coherent_but (c : string) (v : view) : Prop :=
  forall id o, id <> c -> cache v !! id = Some o -> orders v !! id = Some o.

(** A request that names its order, if it names one, by the canonical UUID. *)
Definition canonical (r : request) : Prop :=
  match r with
  | ReqCancel id => forall c, uuid_in id = Some c -> c = id
  | _ => True
  end.

Lemma coherent_forget c v : coherent v -> coherent_but c v.
Proof. intros H id o _. apply H. Qed.

Lemma coherent_updated c st v v' :
  uuid_in c = Some c -> updated uuid_in c st v v' -> coherent v -> coherent_but c v'.
Proof.
  intros Hc (c' & o & Hc' & _ & _ & ->) H id o' Hne Hl. simplify_eq. simpl in *.
  rewrite lookup_insert_ne by done. by apply H.
Qed.

Lemma coherent_invalidated c v : coherent_but c v -> coherent (set_cache (delete c) v).
Proof. unfold coherent; simpl. intros H id o [Hne Hl]%lookup_delete_Some. by apply H. Qed.

Lemma coherent_created key cu it a o v v' :
  created uuid_in tstz key cu it a o v v' -> coherent v -> coherent v'.
Proof.
  intros (E & _ & Ec & _ & Hn & _)%created_row H id o'. rewrite E, Ec. intros Hl%H.
  rewrite lookup_insert_ne by congruence. done.
Qed.

Lemma coherent_filled o v v' :
  cached o v v' -> storable o = true -> orders v !! Order.ID o = Some o -> coherent v -> coherent v'.
Proof.
  intros (entry & Hst & ->) Hs Ho H id o'. rewrite (Hst Hs). simpl.
  intros [[<- <-]|[? ?]]%(lookup_insert_Some (cache v)); auto.
Qed.

Lemma coherent_report i s v : coherent v -> coherent (report i s v).
Proof. done. Qed.

Lemma invalidate_coherent c v :
  c <> "" -> coherent_but c v ->
  holds spec (CreateOrder.invalidate true c) (fun _ => coherent) v.
Proof.
  intros Hc Hv. unfold CreateOrder.invalidate. rewrite bool_decide_false by done. cbn [negb orb].
  hrun; try done. rewrite bool_decide_false by done. by apply coherent_invalidated.
Qed.

Lemma settle_coherent order st v :
  Order.ID order <> "" -> uuid_in (Order.ID order) = Some (Order.ID order) -> coherent v ->
  holds spec (CreateOrder.settle true order st) (fun _ => coherent) v.
Proof.
  intros Hc Hu Hv. unfold CreateOrder.settle.
  hrun; try done; try (by subst); apply invalidate_coherent; auto using coherent_forget.
  by eapply coherent_updated.
Qed.

Lemma authorize_coherent order email v :
  Order.ID order <> "" -> uuid_in (Order.ID order) = Some (Order.ID order) -> coherent v ->
  holds spec (CreateOrder.authorize true order email) (fun _ => coherent) v.
Proof.
  intros Hc Hu Hv. unfold CreateOrder.authorize, CreateOrder.reconcileFromPaymentService.
  hrun; try done; try (by apply settle_coherent);
    (eapply holds_mono; [apply invalidate_coherent; [done|]|intros [] v2 Hv2; hrun; done]).
  all: eauto using coherent_updated, coherent_forget.
Qed.

(** A request keeps the cache coherent. *)
Lemma serve_coherent r v :
  uuid_in "" = None -> integrity uuid_in v -> canonical r -> coherent v ->
  holds spec (serve true ttl r) (fun _ => coherent) v.
Proof.
  intros Hne HI Hr Hv. pose proof (int_row _ _ HI) as Hrow.
  destruct r as [inp|id|id]; simpl in *.
  - unfold CreateOrder.Execute. hrun; try done; eauto using coherent_created;
      simplify_eq.
    + destruct (Hrow _ _ ltac:(eassumption)) as (E & ? & _).
      apply authorize_coherent; [|by rewrite E|done]. intros E'. congruence.
    + match goal with H : created _ _ _ _ _ _ _ _ _ |- _ =>
        pose proof H as (_ & _ & _ & ? & _)%created_row; apply coherent_created in H; [|done] end.
      apply authorize_coherent; [|done..]. intros E'. congruence.
  - unfold GetOrder.Execute, GetOrder.load. 
    assert (forall k, coherent (set_cache (delete k) v)).
    { intros k. by apply coherent_invalidated, coherent_forget. }
    hrun; simplify_eq; try done; eauto.
    all: match goal with H : orders _ !! _ = Some ?o, H2 : cached ?o _ _ |- coherent _ =>
      destruct (Hrow _ _ H) as (<- & ? & ? & ? & ?); apply (coherent_filled _ _ _ H2); auto end.
  - unfold CancelOrder.Execute. hrun; simplify_eq; try done.
    all: rename select (uuid_in _ = Some _) into Hu; pose proof (Hr _ Hu) as Hc; subst x0.
    all: destruct (decide (id = "")) as [->|Hid]; [congruence|]; rewrite (bool_decide_false (id = "")) by done;
      apply coherent_invalidated; eauto using coherent_forget.
    by eapply coherent_updated.
Qed.

(** A read answers with the row. *)
Lemma get_current id v :
  integrity uuid_in v -> coherent v ->
  holds spec (GetOrder.Execute true ttl id)
    (fun r v' => orders v' = orders v /\
       forall o e, r = (Some o, e) -> orders v' !! Order.ID o = Some o /\ e = None) v.
Proof.
  intros HI Hv. pose proof (int_row _ _ HI) as Hrow.
  unfold GetOrder.Execute, GetOrder.load.
  hrun; simplify_eq; try done;
    try match goal with H : cached _ _ _ |- _ => destruct H as (? & _ & ->) end;
    (split; [done|]); simpl; intros; simplify_eq.
  all: match goal with
    | H : orders _ !! _ = Some ?o |- context [Order.ID ?o] => destruct (Hrow _ _ H) as (-> & _)
    | H : cache _ !! _ = Some ?o |- context [Order.ID ?o] =>
        pose proof (Hv _ _ H) as H'; destruct (Hrow _ _ H') as (-> & _)
    end; done.
Qed.

Lemma requests_coherent rs v :
  uuid_in "" = None -> integrity uuid_in v -> Forall canonical rs -> coherent v ->
  holds spec (run_requests true ttl rs)
    (fun _ v' => integrity uuid_in v' /\ coherent v') v.
Proof.
  intros Hne HI Hrs Hv. revert v HI Hv.
  induction Hrs as [|r rs Hr Hrs IH]; intros v HI Hv; simpl; [by apply holds_ret|].
  apply holds_bind. eapply holds_mono.
  { eapply holds_inv with (I := integrity uuid_in); [|done|by apply serve_coherent].
    intros X e x v1 v2 [Hs _]. by eapply integrity_call. }
  intros x v1 [Hv1 HI1]. apply holds_bind. eapply holds_mono; [by apply IH|].
  intros xs v2 ?. by apply holds_ret.
Qed.
End Coherence.

(** ** The properties *)

Section Properties.
Context {W : Type} (h : handler portE W) (obs : W -> view).
Context (uuid_in : string -> option string) (tstz : Z -> Z).
Context (cache_on : bool) (ttl : Z).

Section AnyFault.
Context `{!Refines h obs (ports_spec uuid_in tstz)}.

(** C7. [CreateOrder.Execute] returns (it never panics, whatever fails) and its
    result is one of the listed ones: invalid input leaves everything as it was,
    a storage error reports a failed or unacknowledged insertion, a known key
    with a finished order answers with that order, a known key with a pending
    order retries the payment step, and a new order goes through the payment
    step, whose seven ends are those of [payment_outcome].  The tables stay
    consistent. *)
Theorem create_order_outcomes inp w :
  integrity uuid_in (obs w) ->
  exists r w', run h (CreateOrder.Execute cache_on inp) w = (Done r, w') /\
    create_outcome uuid_in tstz inp (obs w) r (obs w') /\ integrity uuid_in (obs w').
Proof.
  intros HI. apply (holds_run (ports_spec uuid_in tstz) h obs _ _ w
    (holds_inv _ _ _ _ _ (integrity_call uuid_in tstz) HI
       (create_all uuid_in tstz cache_on inp _ HI))).
Qed.

(** [CancelOrder.Execute] returns and its result is one of the listed ones:
    an unreadable id, an unknown order and an order that is not pending change
    nothing and give their own errors; only a pending order is cancelled, and
    nothing but its status changes. *)
Theorem cancel_order_outcomes id w :
  exists r w', run h (CancelOrder.Execute cache_on id) w = (Done r, w') /\
    cancel_outcome uuid_in id (obs w) r (obs w').
Proof.
  apply (holds_run (ports_spec uuid_in tstz) h obs _ _ w (cancel_all uuid_in tstz cache_on id _)).
Qed.

(** C12. Requests served one after the other, of any kind and whatever fails: each
    is answered, the tables stay consistent, no order is lost or changes anything
    but its status, and an order that is Paid, Failed or Cancelled stays exactly
    as it is. *)
Theorem requests_preserve_orders rs w :
  integrity uuid_in (obs w) ->
  exists xs w', run h (run_requests cache_on ttl rs) w = (Done xs, w') /\
    length xs = length rs /\ integrity uuid_in (obs w') /\
    (forall c o, orders (obs w) !! c = Some o -> exists st,
       orders (obs w') !! c = Some (Order.set_Status st o)) /\
    (forall c o, orders (obs w) !! c = Some o -> is_terminal (Order.Status o) = true ->
       orders (obs w') !! c = Some o).
Proof.
  intros HI.
  destruct (holds_run (ports_spec uuid_in tstz) h obs _ _ w
              (requests_evolve uuid_in tstz cache_on ttl rs _ HI))
    as (xs & w' & Hrun & Hlen & HI' & Hev).
  exists xs, w'. split_and!; [done..| |].
  - intros c o Ho. destruct (Hev c o Ho) as (o' & Ho' & [->|(_ & s & _ & ->)]); [|eauto].
    exists (Order.Status o). by destruct o.
  - intros c o Ho Ht. destruct (Hev c o Ho) as (o' & Ho' & [->|(Hp & _)]); [done|].
    by rewrite Hp in Ht.
Qed.

(** C9. Requests served at the same time, in every interleaving of their calls
    and whatever fails: no request panics, and an order is Paid only if the
    payment service has reported an authorization for that order. *)
Theorem paid_only_if_authorized rs w sched :
  paid_authorized uuid_in (obs w) ->
  let s := run_schedule h sched (Pool (serving cache_on ttl rs) w false) in
  crashed s = false /\ paid_authorized uuid_in (obs (world s)).
Proof.
  intros HP s.
  destruct (pool_threads (ports_spec uuid_in tstz) (paid_authorized uuid_in) reports_kept may_call h obs
    sched (serving cache_on ttl rs) w HP) as (Hc & HI & _); [|done].
  intros p (r & -> & _)%list_elem_of_fmap. apply serve_ok.
Qed.

(** C14. Retrying a creation with the same idempotency key, with any requests
    served in between: the second attempt adds no order, and if both attempts
    answer with an order it is the same one. *)
Theorem retried_key_same_order inp1 inp2 k rs w :
  integrity uuid_in (obs w) ->
  key_of (CreateOrderInput.IdempotencyKey inp1) = Some k ->
  key_of (CreateOrderInput.IdempotencyKey inp2) = Some k ->
  exists r1 w1 xs w2 r2 w3,
    run h (CreateOrder.Execute cache_on inp1) w = (Done r1, w1) /\
    run h (run_requests cache_on ttl rs) w1 = (Done xs, w2) /\
    run h (CreateOrder.Execute cache_on inp2) w2 = (Done r2, w3) /\
    forall o1 e1, r1 = (Some o1, e1) ->
      (forall c, is_Some (orders (obs w3) !! c) -> is_Some (orders (obs w2) !! c)) /\
      (forall o2 e2, r2 = (Some o2, e2) -> Order.ID o2 = Order.ID o1).
Proof.
  intros HI Hk1 Hk2.
  destruct (holds_run (ports_spec uuid_in tstz) h obs (CreateOrder.Execute cache_on inp1) _ w
     (holds_inv _ (integrity uuid_in) _ _ _ (integrity_call uuid_in tstz) HI
        (create_key uuid_in tstz cache_on inp1 k _ HI Hk1)))
    as (r1 & w1 & Hrun1 & Hkey1 & HI1).
  destruct (holds_run (ports_spec uuid_in tstz) h obs _ _ w1
     (idem_holds _ _ _ _ _ (requests_evolve uuid_in tstz cache_on ttl rs _ HI1)))
    as (xs & w2 & Hrun2 & (_ & HI2 & _) & Hidem).
  destruct (holds_run (ports_spec uuid_in tstz) h obs _ _ w2
     (holds_and _ _ _ _ _ (create_all uuid_in tstz cache_on inp2 _ HI2)
        (create_key uuid_in tstz cache_on inp2 k _ HI2 Hk2)))
    as (r2 & w3 & Hrun3 & _).
  exists r1, w1, xs, w2, r2, w3. split_and!; [done..|].
  intros o1 e1 ->.
  pose proof (lookup_weaken _ _ _ _ (Hkey1 o1 e1 eq_refl) Hidem) as Hid.
  destruct (holds_run (ports_spec uuid_in tstz) h obs _ _ w2
     (create_retry uuid_in tstz cache_on inp2 k _ _ HI2 Hk2 Hid)) as (r2' & w3' & Hrun3' & Hdom & Hsame).
  rewrite Hrun3 in Hrun3'. simplify_eq. split; [|done].
  intros c Hc%elem_of_dom. apply elem_of_dom. by rewrite <-Hdom.
Qed.

(** C35. When [CreateOrder.Execute] answers that the payment service is
    unavailable, the order it answers with is a row of the table (the timestamp
    rounded as the column rounds it) and that row is still pending, so the
    payment can be retried. *)
Theorem payment_unavailable_keeps_pending inp w :
  integrity uuid_in (obs w) ->
  exists r w', run h (CreateOrder.Execute cache_on inp) w = (Done r, w') /\
    forall o, r = (Some o, Some ErrPaymentUnavailable) ->
    exists row, orders (obs w') !! Order.ID o = Some row /\
      Order.Status row = StatusPending /\
      (row = o \/ row = Order.set_CreatedAt (tstz (Order.CreatedAt o)) o).
Proof.
  intros HI.
  destruct (holds_run (ports_spec uuid_in tstz) h obs _ _ w
              (create_all uuid_in tstz cache_on inp _ HI)) as (r & w' & Hrun & Hout).
  exists r, w'. split; [done|]. intros o ->. inversion Hout; simplify_eq.
  - match goal with H : payment_outcome _ _ _ _ _ _ |- _ =>
      apply outcome_unavailable in H as [-> Ho]; [|done] end.
    match goal with H : orders _ !! _ = Some _ |- _ => destruct (int_row _ _ HI _ _ H) as (<- & _) end.
    destruct Ho as [-> | ->]; eauto.
  - match goal with H : created _ _ _ _ _ _ _ _ _ |- _ =>
      apply created_row in H as (E & _ & _ & _ & _ & Hs) end.
    match goal with H : payment_outcome _ _ _ _ _ _ |- _ =>
      apply outcome_unavailable in H as [E' Ho]; [|by rewrite E, lookup_insert_eq] end.
    rewrite E', E. destruct Ho as [-> | ->]; simpl; rewrite lookup_insert_eq; eauto 6.
Qed.
End AnyFault.

(** C26. As long as no acknowledgement is lost (failed updates have not happened,
    the cache takes its deletes) and every cancellation spells the order's id as the
    database does ([canonical]), requests served one after the other keep the cache
    coherent: when a GET after them answers with an order, it is the order's current
    row.  Without these conditions it may be stale ([stale_read_after_cancel]). *)
Theorem get_returns_current_row `{!Refines h obs (acked_spec uuid_in tstz)} rs id w :
  uuid_in "" = None -> integrity uuid_in (obs w) -> coherent (obs w) ->
  Forall (canonical uuid_in) rs ->
  exists xs w1 r w2,
    run h (run_requests true ttl rs) w = (Done xs, w1) /\
    run h (GetOrder.Execute true ttl id) w1 = (Done r, w2) /\
    orders (obs w2) = orders (obs w1) /\
    forall o e, r = (Some o, e) -> orders (obs w2) !! Order.ID o = Some o /\ e = None.
Proof.
  intros Hne HI Hv Hrs.
  destruct (holds_run (acked_spec uuid_in tstz) h obs _ _ w
     (requests_coherent uuid_in tstz ttl rs _ Hne HI Hrs Hv)) as (xs & w1 & Hrun1 & HI1 & Hv1).
  destruct (holds_run (acked_spec uuid_in tstz) h obs _ _ w1
     (get_current uuid_in tstz ttl id _ HI1 Hv1)) as (r & w2 & Hrun2 & Ho & Hr).
  by exists xs, w1, r, w2.
Qed.
End Properties.

(** ** Concrete requests *)

Definition sample_input (key : option string) : CreateOrderInput.t :=
  CreateOrderInput.mk "customer-1" "ann@example.com" "keyboard" 500 key.
Definition sample_order (st : string) : Order.t :=
  Order.mk "0a1b" "customer-1" "keyboard" 500 st 0.

Lemma empty_integrity : integrity mem_uuid_in empty_view.
Proof. by split. Qed.

Lemma sample_integrity st pay fresh :
  valid_status st -> integrity mem_uuid_in (m_view (mem_start [sample_order st] pay fresh)).
Proof.
  intros Hst. split; simpl; [|done].
  intros c o [[<- <-]|[_ ?]]%lookup_insert_Some; [|done]. split_and!; try done.
  by apply (storable_status st (sample_order StatusPending)).
Qed.

(** A creation that is paid at once. *)
Lemma create_order_outcomes_witness :
  exists r w', run mem_ports (CreateOrder.Execute true (sample_input None))
      (mem_start [] [PayStatus "txn-1" "Authorized"] ["0a1b"]) = (Done r, w') /\
    create_outcome mem_uuid_in mem_tstz (sample_input None) empty_view r (m_view w') /\
    integrity mem_uuid_in (m_view w').
Proof.
  apply (create_order_outcomes mem_ports m_view mem_uuid_in mem_tstz true).
  exact empty_integrity.
Defined.

Lemma cancel_order_outcomes_witness :
  exists r w', run mem_ports (CancelOrder.Execute true "0a1b")
      (mem_start [sample_order StatusPending] [] []) = (Done r, w') /\
    cancel_outcome mem_uuid_in "0a1b" (m_view (mem_start [sample_order StatusPending] [] []))
      r (m_view w').
Proof.
  exact (cancel_order_outcomes mem_ports m_view mem_uuid_in mem_tstz true "0a1b" _).
Defined.

(** A paid order outlives a cancellation and a retried creation. *)
Lemma requests_preserve_orders_witness :
  exists xs w', run mem_ports (run_requests true 60
       [ReqCancel "0a1b"; ReqCreate (sample_input (Some "k")); ReqGet "0a1b"])
      (mem_start [sample_order StatusPaid] [] ["0c"]) = (Done xs, w') /\
    orders (m_view w') !! "0a1b" = Some (sample_order StatusPaid).
Proof.
  destruct (requests_preserve_orders mem_ports m_view mem_uuid_in mem_tstz true 60
    [ReqCancel "0a1b"; ReqCreate (sample_input (Some "k")); ReqGet "0a1b"]
    (mem_start [sample_order StatusPaid] [] ["0c"]))
    as (xs & w' & Hrun & _ & _ & _ & Hfinal).
  - apply sample_integrity. unfold valid_status. set_solver.
  - exists xs, w'. split; [exact Hrun|]. by apply Hfinal.
Defined.

Lemma paid_only_if_authorized_witness :
  let s := run_schedule mem_ports [0; 1; 0; 1; 0; 0]%nat
     (Pool (serving true 60 [ReqCreate (sample_input None); ReqGet "0a1b"])
        (mem_start [] [PayStatus "txn-1" "Authorized"] ["0a1b"]) false) in
  crashed s = false /\ paid_authorized mem_uuid_in (m_view (world s)).
Proof.
  apply (paid_only_if_authorized mem_ports m_view mem_uuid_in mem_tstz true 60).
  intros c o Ho. done.
Defined.

(** The payment service times out on the first attempt and answers the retry. *)
Lemma retried_key_same_order_witness :
  let w := mem_start [] [PayError ErrPaymentUnavailable; PayStatus "txn-1" "Authorized"]
             ["0a1b"; "0c2d"] in
  exists r1 w1 xs w2 r2 w3,
    run mem_ports (CreateOrder.Execute true (sample_input (Some "k"))) w = (Done r1, w1) /\
    run mem_ports (run_requests true 60 [ReqGet "0a1b"]) w1 = (Done xs, w2) /\
    run mem_ports (CreateOrder.Execute true (sample_input (Some "k"))) w2 = (Done r2, w3) /\
    forall o1 e1, r1 = (Some o1, e1) ->
      (forall c, is_Some (orders (m_view w3) !! c) -> is_Some (orders (m_view w2) !! c)) /\
      (forall o2 e2, r2 = (Some o2, e2) -> Order.ID o2 = Order.ID o1).
Proof.
  apply (retried_key_same_order mem_ports m_view mem_uuid_in mem_tstz true 60) with (k := "k");
    [exact empty_integrity|done|done].
Defined.

Lemma payment_unavailable_keeps_pending_witness :
  exists r w', run mem_ports (CreateOrder.Execute true (sample_input None))
      (mem_start [] [PayError ErrPaymentUnavailable] ["0a1b"]) = (Done r, w') /\
    forall o, r = (Some o, Some ErrPaymentUnavailable) ->
    exists row, orders (m_view w') !! Order.ID o = Some row /\
      Order.Status row = StatusPending /\
      (row = o \/ row = Order.set_CreatedAt (mem_tstz (Order.CreatedAt o)) o).
Proof.
  apply (payment_unavailable_keeps_pending mem_ports m_view mem_uuid_in mem_tstz true).
  exact empty_integrity.
Defined.

(** A read, a cancellation, a read: the second one answers Cancelled. *)
Lemma get_returns_current_row_witness :
  exists xs w1 r w2,
    run calm_ports (run_requests true 60 [ReqGet "0a1b"; ReqCancel "0a1b"])
      (mem_start [sample_order StatusPending] [] []) = (Done xs, w1) /\
    run calm_ports (GetOrder.Execute true 60 "0a1b") w1 = (Done r, w2) /\
    orders (m_view w2) = orders (m_view w1) /\
    forall o e, r = (Some o, e) -> orders (m_view w2) !! Order.ID o = Some o /\ e = None.
Proof.
  apply (get_returns_current_row calm_ports m_view mem_uuid_in mem_tstz 60).
  - done.
  - apply sample_integrity. unfold valid_status. set_solver.
  - intros id o. done.
  - repeat constructor. intros c [= <-]. done.
Defined.

(** ** What does not hold

    Each of these runs on a world that keeps the ports' promise. *)

(** A cancellation and a payment of the same order, served at the same time:
    both requests succeed, the client that created the order is told it is Paid,
    and the stored order ends up Cancelled although the payment was authorized.
    [UpdateStatus] does not look at the status it overwrites. *)
Theorem cancel_overwrites_paid_order :
  let s := run_schedule mem_ports [0; 1; 0; 0; 0; 1; 1]%nat
     (Pool (serving true 60 [ReqCreate (sample_input None); ReqCancel "0a1b"])
        (mem_start [] [PayStatus "txn-1" "Authorized"] ["0a1b"]) false) in
  (exists o, threads s = [Ret (Some (Order.set_Status StatusPaid o), None);
                          Ret (Some (Order.set_Status StatusCancelled o), None)]) /\
  Order.Status <$> orders (m_view (world s)) !! "0a1b" = Some StatusCancelled /\
  ("0a1b", paymentStatusAuthorized) ∈ reports (m_view (world s)).
Proof.
  intros s. split_and!.
  - exists (sample_order StatusPending). vm_compute. reflexivity.
  - vm_compute. reflexivity.
  - vm_compute. left.
Qed.

(** The cache can keep a status the order no longer has, and a later GET
    answers with it: when a read overlaps a cancellation, when the cache rejects
    the delete after the update (its error is ignored), and, with no fault and
    no overlap, when the cancellation spells the order's UUID in upper case. *)
Theorem stale_read_after_cancel :
  let stale s := exists o, Order.Status o = StatusPending /\
       cache (m_view s) !! "0a1b" = Some o /\
       Order.Status <$> orders (m_view s) !! "0a1b" = Some StatusCancelled /\
       fst (run mem_ports (GetOrder.Execute true 60 "0a1b") s) = Done (Some o, None) in
  stale (world (run_schedule mem_ports [0; 0; 1; 1; 1; 0]%nat
     (Pool (serving true 60 [ReqGet "0a1b"; ReqCancel "0a1b"])
        (mem_start [sample_order StatusPending] [] []) false))) /\
  stale (snd (run mem_ports (run_requests true 60 [ReqGet "0a1b"; ReqCancel "0a1b"])
     (Mem (m_view (mem_start [sample_order StatusPending] [] []))
        [false; false; false; false; false; true] [] [] 0))) /\
  stale (snd (run mem_ports (run_requests true 60 [ReqGet "0a1b"; ReqCancel "0A1B"])
     (mem_start [sample_order StatusPending] [] []))).
Proof.
  intros stale. split_and!; exists (sample_order StatusPending); split_and!; vm_compute; reflexivity.
Qed.
