(* ===== verification/OrderRepo.v ===== *)
(** * Order service: the PostgreSQL repository

    [OrderRepository] of internal/repository/postgres/order_repo.go over the calls
    it makes of database/sql, the clock and the UUID generator, and the proof that
    it keeps its part of the ports' promise.  What the database does with each
    statement is assumed ([pg_spec]): the tables of the migrations, their
    constraints, and transactions. *)

From S2P Require Import Prelude GoLib Json GoTime OrderPorts OrderUsecase.

(** One constructor per statement text; [in_tx] is true for the statements sent
    through the transaction.  [QueryRow...Scan] into fresh variables answers with
    their contents, which are zero values on an error. *)
Inductive pgE : Type -> Type :=
| BeginTx : pgE (option error)
| Commit : pgE (option error)
| Rollback : pgE (option error)
| AdvisoryLock (key : string) : pgE (option error)
| SelectOrderID (key : string) : pgE (string * option error)
| SelectOrder (in_tx : bool) (id : string) : pgE (Order.t * option error)
| ExecUpdateStatus (id status : string) : pgE (Z * option error)
| RowsAffected (n : Z) : pgE (Z * option error)
| InsertOrder (o : Order.t) : pgE (option error)
| InsertKey (key orderID : string) : pgE (option error)
| Now : pgE Z
| NewString : pgE string.

Module OrderRepository.

Definition GetByID (id : string) : prog pgE (option Order.t * option error) :=
  '(o, err) ← call (SelectOrder false id);
  match err with
  | Some err =>
      if errors_Is err sql_ErrNoRows then mret (None, None)
      else mret (None, Some (Errorf_w "get order: " err))
  | None => mret (Some o, None)
  end.

Definition UpdateStatus (id status : string) : prog pgE (option error) :=
  '(res, err) ← call (ExecUpdateStatus id status);
  match err with
  | Some err => mret (Some (Errorf_w "update order status: " err))
  | None =>
      '(n, err) ← call (RowsAffected res);
      match err with
      | Some err => mret (Some err)
      | None =>
          if n =? 0 then mret (Some (ErrorNew "order not found")) else mret None
      end
  end.

(** The second half of [CreatePendingWithIdempotency]: the new order. *)
Definition insertPending (idempotencyKey : option string) (customerID itemName : string)
    (amount : Z) : prog pgE (option Order.t * bool * option error) :=
  now ← call Now;
  id ← call NewString;
  let o := Order.mk id customerID itemName amount StatusPending now in
  err ← call (InsertOrder o);
  match err with
  | Some err => mret (None, false, Some (Errorf_w "insert order: " err))
  | None =>
      err ← (match key_of idempotencyKey with
             | Some key => call (InsertKey key id)
             | None => mret None
             end);
      match err with
      | Some err => mret (None, false, Some (Errorf_w "insert idempotency: " err))
      | None =>
          err ← call Commit;
          match err with
          | Some err => mret (None, false, Some err)
          | None => mret (Some o, false, None)
          end
      end
  end.

(** A key's first half: the lock, and the order it already names, if any. *)
Definition lookupKey (key : string)
    (otherwise : prog pgE (option Order.t * bool * option error)) :
    prog pgE (option Order.t * bool * option error) :=
  err ← call (AdvisoryLock key);
  match err with
  | Some err => mret (None, false, Some (Errorf_w "advisory lock: " err))
  | None =>
      '(existingID, err) ← call (SelectOrderID key);
      match err with
      | None =>
          '(o, err) ← call (SelectOrder true existingID);
          match err with
          | Some err => mret (None, false, Some (Errorf_w "load idempotent order: " err))
          | None =>
              err ← call Commit;
              match err with
              | Some err => mret (None, false, Some err)
              | None => mret (Some o, true, None)
              end
          end
      | Some err =>
          if negb (errors_Is err sql_ErrNoRows) then
            mret (None, false, Some (Errorf_w "idempotency lookup: " err))
          else otherwise
      end
  end.

(** [defer tx.Rollback()]: on every way out once the transaction has begun. *)
Definition CreatePendingWithIdempotency (idempotencyKey : option string)
    (customerID itemName : string) (amount : Z) :
    prog pgE (option Order.t * bool * option error) :=
  err ← call BeginTx;
  match err with
  | Some err => mret (None, false, Some (Errorf_w "begin tx: " err))
  | None =>
      r ← (match key_of idempotencyKey with
           | Some key => lookupKey key (insertPending idempotencyKey customerID itemName amount)
           | None => insertPending idempotencyKey customerID itemName amount
           end);
      _ ← call Rollback;
      mret r
  end.
End OrderRepository.

(** ** What the database promises *)

Record tables := Tables {
  t_orders : gmap string Order.t;
  t_idem : gmap string string
}.

(** The committed tables, and the open transaction's view of them. *)
Record pg := Pg {
  pg_committed : tables;
  pg_tx : option tables
}.

Definition put_row (c : string) (o : Order.t) (t : tables) : tables :=
  Tables (<[c := o]> (t_orders t)) (t_idem t).
Definition put_key (k id : string) (t : tables) : tables :=
  Tables (t_orders t) (<[k := id]> (t_idem t)).

(** An error of the driver: none of the service's own errors, and not the one
    that says that there is no row. *)
Definition driver_error (e : error) : Prop :=
  foreign e = true /\ errors_Is e sql_ErrNoRows = false.

Section PgSpec.
Context (uuid_in : string -> option string) (tstz : Z -> Z).

Definition select_order (id : string) (t : tables) (r : Order.t * option error) : Prop :=
  (exists c o, uuid_in id = Some c /\ t_orders t !! c = Some o /\ r = (o, None)) \/
  (exists c o, uuid_in id = Some c /\ t_orders t !! c = None /\ r = (o, Some sql_ErrNoRows)) \/
  (exists o e, r = (o, Some e) /\ driver_error e).

Definition update_row (c status : string) (o : Order.t) (v v' : pg) : Prop :=
  valid_status status /\
  v' = Pg (put_row c (Order.set_Status status o) (pg_committed v)) (pg_tx v).

Definition failed (r : option error) : Prop := exists e, r = Some e /\ driver_error e.

(** A statement of the transaction [t]; without one the driver refuses. *)
Definition in_tx (v : pg) (P : tables -> Prop) (refused : Prop) : Prop :=
  match pg_tx v with Some t => P t | None => refused end.

Definition pg_spec : interface pgE pg := fun X e =>
  match e in pgE X return X -> pg -> pg -> Prop with
  | BeginTx => fun r v v' =>
      (r = None /\ v' = Pg (pg_committed v) (Some (pg_committed v))) \/ (failed r /\ v' = v)
  | Commit => fun r v v' =>
      in_tx v (fun t =>
        (r = None /\ v' = Pg t None) \/
        (failed r /\ (v' = Pg t None \/ v' = Pg (pg_committed v) None)))
      (failed r /\ v' = v)
  | Rollback => fun _ v v' => v' = Pg (pg_committed v) None
  | AdvisoryLock _ => fun r v v' => (r = None \/ failed r) /\ v' = v
  | SelectOrderID key => fun r v v' =>
      v' = v /\
      let err := exists s e, r = (s, Some e) /\ driver_error e in
      in_tx v (fun t =>
        (exists id, t_idem t !! key = Some id /\ uuid_in id = Some id /\ r = (id, None)) \/
        (t_idem t !! key = None /\ r = ("", Some sql_ErrNoRows)) \/ err)
      err
  | SelectOrder false id => fun r v v' =>
      v' = v /\ select_order id (pg_committed v) r
  | SelectOrder true id => fun r v v' =>
      v' = v /\ in_tx v (fun t => select_order id t r) (exists o e, r = (o, Some e) /\ driver_error e)
  | ExecUpdateStatus id status => fun r v v' =>
      (exists c o, uuid_in id = Some c /\ t_orders (pg_committed v) !! c = Some o /\
         ((r = (1, None) /\ update_row c status o v v') \/
          (exists n e, r = (n, Some e) /\ driver_error e /\ (v' = v \/ update_row c status o v v')))) \/
      (exists c, uuid_in id = Some c /\ t_orders (pg_committed v) !! c = None /\
         r = (0, None) /\ v' = v) \/
      (exists n e, r = (n, Some e) /\ driver_error e /\ v' = v)
  | RowsAffected n => fun r v v' =>
      v' = v /\ (r = (n, None) \/ exists m e, r = (m, Some e) /\ driver_error e)
  | InsertOrder o => fun r v v' =>
      (failed r /\ v' = v) \/
      in_tx v (fun t => exists c, r = None /\
          uuid_in (Order.ID o) = Some c /\ t_orders t !! c = None /\
          0 < Order.Amount o /\ valid_status (Order.Status o) /\
          let row := Order.set_ID c (Order.set_CreatedAt (tstz (Order.CreatedAt o)) o) in
          storable row = true /\
          v' = Pg (pg_committed v) (Some (put_row c row t)))
      False
  | InsertKey key id => fun r v v' =>
      (failed r /\ v' = v) \/
      in_tx v (fun t => exists c, r = None /\
          uuid_in id = Some c /\ is_Some (t_orders t !! c) /\ t_idem t !! key = None /\
          v' = Pg (pg_committed v) (Some (put_key key c t)))
      False
  | Now => fun _ v v' => v' = v
  | NewString => fun id v v' => uuid_in id = Some id /\ v' = v
  end.
End PgSpec.

(** ** The repository keeps the ports' promise *)

Section Repository.
Context (uuid_in : string -> option string) (tstz : Z -> Z).
Notation spec := (pg_spec uuid_in tstz).

(** What the use cases see of the database: the committed tables. *)
Definition with_tables (v : view) (p : pg) : view :=
  View (t_orders (pg_committed p)) (t_idem (pg_committed p)) (cache v) (reports v).

Lemma foreign_Errorf_w s e : foreign e = true -> foreign (Errorf_w s e) = true.
Proof. done. Qed.

Definition promised {X} (e : portE X) (v : view) (p : pg) (x : X) (p' : pg) : Prop :=
  ports_spec uuid_in tstz X e x (with_tables v p) (with_tables v p').

#[local] Arguments promised : simpl never.

(** Take the database's answer apart. *)
Ltac answers :=
  repeat match goal with
  | H : select_order _ _ _ _ |- _ => unfold select_order in H
  | H : failed _ |- _ => unfold failed in H
  | H : driver_error _ |- _ => destruct H
  | H : in_tx ?v _ _ |- _ => unfold in_tx in H; simpl in H; destruct (pg_tx v) eqn:?
  | H : exists _, _ |- _ => destruct H
  | H : _ /\ _ |- _ => destruct H
  | H : _ \/ _ |- _ => destruct H
  end; simplify_eq/=.

Lemma repo_GetByID v id p :
  holds spec (OrderRepository.GetByID id) (promised (GetByID id) v p) p.
Proof.
  unfold OrderRepository.GetByID. hrun; answers; unfold promised; simpl; split; eauto 8 using foreign_Errorf_w.
  all: first [congruence | right; eexists; split; [eassumption|congruence]].
Qed.

Lemma repo_UpdateStatus v id st p :
  holds spec (OrderRepository.UpdateStatus id st) (promised (UpdateStatus id st) v p) p.
Proof.
  assert (forall c o p', uuid_in id = Some c -> t_orders (pg_committed p) !! c = Some o ->
    update_row c st o p p' -> updated uuid_in id st (with_tables v p) (with_tables v p')) as Hup.
  { intros c o p' Hc Ho [Hst ->]. exists c, o. done. }
  unfold OrderRepository.UpdateStatus. hrun; answers; unfold promised; simpl;
    eauto 8 using foreign_Errorf_w.
Qed.

(** The new row in the transaction's tables. *)
Definition creating (key : option string) (cust item : string) (amount : Z) (o : Order.t)
    (t0 t : tables) : Prop :=
  exists id now, o = new_order id cust item amount now /\
    uuid_in id = Some id /\ t_orders t0 !! id = None /\ 0 < amount /\
    storable (Order.set_CreatedAt (tstz now) o) = true /\
    (forall k, key_of key = Some k -> t_idem t0 !! k = None) /\
    t = let t1 := put_row id (Order.set_CreatedAt (tstz now) o) t0 in
        match key_of key with Some k => put_key k id t1 | None => t1 end.

Lemma creating_created v key cust item amount o p p' :
  creating key cust item amount o (pg_committed p) (pg_committed p') ->
  created uuid_in tstz key cust item amount o (with_tables v p) (with_tables v p').
Proof.
  intros (id & now & -> & ? & ? & ? & ? & ? & E). exists id, now. split_and!; try done.
  unfold with_tables. rewrite E. unfold with_new_order. by destruct (key_of key).
Qed.

Lemma promised_unchanged v key cust item amount p tx e :
  foreign e = true ->
  promised (CreatePendingWithIdempotency key cust item amount) v p (None, false, Some e)
    (Pg (pg_committed p) tx).
Proof. intros He. left. eauto. Qed.

Lemma promised_created v key cust item amount o p p' :
  creating key cust item amount o (pg_committed p) (pg_committed p') ->
  promised (CreatePendingWithIdempotency key cust item amount) v p (Some o, false, None) p' /\
  (forall e, foreign e = true ->
     promised (CreatePendingWithIdempotency key cust item amount) v p (None, false, Some e) p').
Proof.
  intros Hc%(creating_created v). split; [|intros e He].
  - right; right. by exists o.
  - left. exists e. split_and!; [done..|]. right. by exists o.
Qed.

Lemma repo_insertPending v key cust item amount p t0 :
  pg_tx p = Some t0 -> t0 = pg_committed p ->
  (forall k, key_of key = Some k -> t_idem t0 !! k = None) ->
  holds spec (OrderRepository.insertPending key cust item amount)
    (fun r p' => forall tx, promised (CreatePendingWithIdempotency key cust item amount) v p r
                   (Pg (pg_committed p') tx)) p.
Proof.
  intros Htx -> Hk. unfold OrderRepository.insertPending.
  hrun; answers; intros tx; try (by apply promised_unchanged);
    match goal with H : storable (Order.set_ID ?c (Order.set_CreatedAt (tstz ?n) _)) = true |-
        promised _ _ _ _ {| pg_committed := ?t |} =>
      assert (creating key cust item amount (new_order c cust item amount n) (pg_committed p) t)
    end;
    try (do 2 eexists; split_and!; try done; by repeat match goal with
           | H : key_of key = _ |- _ => rewrite H end).
  all: first [by apply promised_created | by eapply promised_created].
Qed.

Lemma repo_lookupKey v key k cust item amount p t0 :
  key_of key = Some k -> pg_tx p = Some t0 -> t0 = pg_committed p ->
  holds spec (OrderRepository.lookupKey k (OrderRepository.insertPending key cust item amount))
    (fun r p' => forall tx, promised (CreatePendingWithIdempotency key cust item amount) v p r
                   (Pg (pg_committed p') tx)) p.
Proof.
  intros Hkey Htx ->. unfold OrderRepository.lookupKey.
  hrun; answers; try (by intros; apply promised_unchanged);
    try (by apply repo_insertPending with (t0 := pg_committed p); [..|intros; simplify_eq]).
  - rewrite H1 in *. done.
  - intros tx. right; left. by do 3 eexists.
Qed.

Lemma repo_CreatePending v key cust item amount p :
  holds spec (OrderRepository.CreatePendingWithIdempotency key cust item amount)
    (promised (CreatePendingWithIdempotency key cust item amount) v p) p.
Proof.
  unfold OrderRepository.CreatePendingWithIdempotency.
  assert (forall r (p' : pg), (forall tx, promised (CreatePendingWithIdempotency key cust item amount)
      v p r (Pg (pg_committed p') tx)) ->
    holds spec (_ ← call Rollback; mret r)
      (promised (CreatePendingWithIdempotency key cust item amount) v p) p') as Hroll.
  { intros r p' Hr. hrun. apply Hr. }
  apply holds_bind, holds_call. intros err p1 Hbegin. promise Hbegin; answers.
  2: { apply holds_ret. destruct p. by apply promised_unchanged. }
  set (p1 := Pg (pg_committed p) (Some (pg_committed p))).
  apply holds_bind. destruct (key_of key) as [k|] eqn:Hk; (eapply holds_mono; [|exact Hroll]).
  - by apply (repo_lookupKey v key k cust item amount p1 (pg_committed p)).
  - apply (repo_insertPending v key cust item amount p1 (pg_committed p)); [done..|].
    intros k. by rewrite Hk.
Qed.
End Repository.
