(* ===== verification/OrderCache.v ===== *)
(** * Order service: the Redis cache

    [Store] of internal/infrastructure/rediscache/order_cache.go over the calls it
    makes of Redis, and the proof that it keeps its part of the ports' promise.
    Redis maps keys to texts and may forget any key at any time (expiry, eviction);
    the cache the use cases see is what those texts decode to. *)

From S2P Require Import Prelude GoLib Json GoTime OrderPorts OrderUsecase.
From Stdlib Require Import Ascii.

Inductive redisE : Type -> Type :=
| RedisGet (key : string) : redisE (string * option error)
| RedisSet (key value : string) (ttl : Z) : redisE (option error)
| RedisDel (key : string) : redisE (option error).

(** ** The JSON form of an order: a struct without tags *)

Module OrderJSON.
Definition zero : Order.t := Order.mk "" "" "" 0 "" 0.

Definition fields : list (field Order.t) :=
  [Field "ID" (store_string Order.set_ID);
   Field "CustomerID" (store_string Order.set_CustomerID);
   Field "ItemName" (store_string Order.set_ItemName);
   Field "Amount" (store_int64 Order.set_Amount);
   Field "Status" (store_string Order.set_Status);
   Field "CreatedAt" (store_time Order.set_CreatedAt)].

Definition members (o : Order.t) (t : json) : list (string * json) :=
  [("ID", jstring (Order.ID o)); ("CustomerID", jstring (Order.CustomerID o));
   ("ItemName", jstring (Order.ItemName o)); ("Amount", jint (Order.Amount o));
   ("Status", jstring (Order.Status o)); ("CreatedAt", t)].

Definition errYear : error :=
  ErrorNew "json: error calling MarshalJSON for type time.Time".

Definition Marshal (o : Order.t) : string + error :=
  match marshal_time (Order.CreatedAt o) with
  | Some t => inl (marshal (members o t))
  | None => inr errYear
  end.
Definition Unmarshal (s : string) : option Order.t := unmarshal fields s zero.
End OrderJSON.

Definition keyPrefix : string := "order:".

Module Store.
Section Store.
(** Whether the store has a client: neither [c] nor [c.rdb] is nil. *)
Context (rdb : bool).

Definition key (id : string) : string := keyPrefix ++ id.

Definition Get (id : string) : prog redisE (option Order.t * option error) :=
  if negb rdb then mret (None, None) else
  '(s, err) ← call (RedisGet (key id));
  if err_eq err redis_Nil then mret (None, None) else
  match err with
  | Some err => mret (None, Some (Errorf_w "redis get: " err))
  | None =>
      match OrderJSON.Unmarshal s with
      | None => _ ← call (RedisDel (key id)); mret (None, None)
      | Some o => mret (Some o, None)
      end
  end.

Definition Set_ (o : option Order.t) (ttl : Z) : prog redisE (option error) :=
  match o with
  | None => mret None
  | Some o =>
      if negb rdb then mret None else
      match OrderJSON.Marshal o with
      | inr err => mret (Some (Errorf_w "marshal order: " err))
      | inl b =>
          err ← call (RedisSet (key (Order.ID o)) b ttl);
          match err with
          | Some err => mret (Some (Errorf_w "redis set: " err))
          | None => mret None
          end
      end
  end.

Definition Delete (id : string) : prog redisE (option error) :=
  if negb rdb || bool_decide (id = "") then mret None else
  err ← call (RedisDel (key id));
  match err with
  | Some err => mret (Some (Errorf_w "redis del: " err))
  | None => mret None
  end.
End Store.
End Store.

(** ** What Redis promises *)

Definition redis_spec : interface redisE (gmap string string) := fun X e =>
  match e in redisE X return X -> gmap string string -> gmap string string -> Prop with
  | RedisGet k => fun r m m' =>
      (exists s, m !! k = Some s /\ r = (s, None) /\ m' = m) \/
      (r = ("", Some redis_Nil) /\ m' = delete k m) \/
      (exists e, r = ("", Some e) /\ err_ptr_eq e redis_Nil = false /\ m' = m)
  | RedisSet k s ttl => fun r m m' =>
      (r = None /\ m' = <[k := s]> m) \/ (exists e, r = Some e /\ (m' = m \/ m' = <[k := s]> m))
  | RedisDel k => fun r m m' =>
      (r = None /\ m' = delete k m) \/ (exists e, r = Some e /\ (m' = m \/ m' = delete k m))
  end.

(** ** The cache the use cases see *)

Definition id_of (k : string) : option string :=
  match strip_prefix (lit keyPrefix) (lit k) with
  | Some l => Some (String.string_of_list_ascii l)
  | None => None
  end.

Definition entry_of (k s : string) : option (string * Order.t) :=
  match id_of k, OrderJSON.Unmarshal s with
  | Some id, Some o => Some (id, o)
  | _, _ => None
  end.

Definition decoded (m : gmap string string) : gmap string Order.t :=
  list_to_map (omap (fun '(k, s) => entry_of k s) (map_to_list m)).

Lemma id_of_key id : id_of (Store.key id) = Some id.
Proof.
  unfold id_of, Store.key. simpl. unfold lit.
  by rewrite String.string_of_list_ascii_of_string.
Qed.

Lemma key_of_id k id : id_of k = Some id -> k = Store.key id.
Proof.
  unfold id_of. intros H.
  assert (forall p l r, strip_prefix p l = Some r -> l = (p ++ r)%list) as Hs.
  { induction p as [|a p IH]; intros [|b l] r; simpl; try congruence.
    destruct (Ascii.eqb_spec a b) as [->|]; [|done]. intros Hr%IH. by rewrite Hr. }
  destruct (strip_prefix _ _) as [l|] eqn:E; [|done]. simplify_eq. apply Hs in E.
  unfold Store.key. rewrite <-(String.string_of_list_ascii_of_string k). fold (lit k). rewrite E.
  done.
Qed.

Lemma decoded_lookup m id : decoded m !! id = m !! Store.key id ≫= OrderJSON.Unmarshal.
Proof.
  apply option_eq. intros o. unfold decoded.
  assert (NoDup (omap (fun '(k, s) => entry_of k s) (map_to_list m)).*1) as Hnd.
  { pose proof (NoDup_fst_map_to_list m) as Hn.
    induction (map_to_list m) as [|[k s] l IH]; simpl; [constructor|].
    inversion Hn as [|? ? Hk Hn']; simplify_eq/=.
    unfold entry_of at 1. destruct (id_of k) as [i|] eqn:Hi; [|by apply IH].
    destruct (OrderJSON.Unmarshal s) as [o'|]; [|by apply IH]. simpl. constructor; [|by apply IH].
    intros Hin. apply list_elem_of_fmap in Hin as ([i' o2] & Heq & Hin).
    apply list_elem_of_omap in Hin as ([k' s'] & Hin & He).
    unfold entry_of in He. destruct (id_of k') as [j|] eqn:Hi'; [|done].
    destruct (OrderJSON.Unmarshal s'); simplify_eq/=.
    apply key_of_id in Hi, Hi'. subst. apply Hk. apply list_elem_of_fmap. by eexists (_, s'). }
  rewrite <-elem_of_list_to_map by done. rewrite list_elem_of_omap, bind_Some. split.
  - intros ([k s] & Hin & He). apply elem_of_map_to_list in Hin. unfold entry_of in He.
    destruct (id_of k) as [i|] eqn:Hi; [|done]. destruct (OrderJSON.Unmarshal s) eqn:Hu; simplify_eq/=.
    apply key_of_id in Hi as ->. eauto.
  - intros (s & Hs & Hu). exists (Store.key id, s). split; [by apply elem_of_map_to_list|].
    unfold entry_of. by rewrite id_of_key, Hu.
Qed.

#[export] Instance key_inj : Inj (=) (=) Store.key.
Proof. intros a b H. unfold Store.key in H. by simplify_eq/=. Qed.

Lemma decoded_delete m id : decoded (delete (Store.key id) m) = delete id (decoded m).
Proof.
  apply map_eq. intros i. rewrite decoded_lookup.
  destruct (decide (i = id)) as [->|Hne].
  - by rewrite !lookup_delete_eq.
  - rewrite !lookup_delete_ne by (done || by intros ?%key_inj). by rewrite decoded_lookup.
Qed.

Lemma decoded_insert m id s :
  decoded (<[Store.key id := s]> m) = partial_alter (fun _ => OrderJSON.Unmarshal s) id (decoded m).
Proof.
  apply map_eq. intros i. rewrite decoded_lookup.
  destruct (decide (i = id)) as [->|Hne].
  - by rewrite lookup_insert_eq, lookup_partial_alter_eq.
  - rewrite lookup_insert_ne, lookup_partial_alter_ne by (done || by intros ?%key_inj).
    by rewrite decoded_lookup.
Qed.

(** ** An order survives the cache *)

Lemma storable_facts o :
  storable o = true ->
  utf8_string (Order.ID o) /\ utf8_string (Order.CustomerID o) /\ utf8_string (Order.ItemName o) /\
  utf8_string (Order.Status o) /\ in_int64 (Order.Amount o) /\
  exists t, marshal_time (Order.CreatedAt o) = Some t.
Proof.
  unfold storable, utf8_string. simpl forallb.
  intros [[Hs Ha%bool_decide_eq_true]%andb_true_iff [t Ht]%bool_decide_eq_true]%andb_true_iff.
  rewrite !andb_true_iff in Hs. destruct_and?. split_and!; eauto.
Qed.

Lemma Unmarshal_Marshal o :
  storable o = true ->
  exists s, OrderJSON.Marshal o = inl s /\ OrderJSON.Unmarshal s = Some o.
Proof.
  intros (H1 & H2 & H3 & H4 & H5 & t & Ht)%storable_facts. unfold OrderJSON.Marshal. rewrite Ht.
  eexists. split; [done|]. unfold OrderJSON.Unmarshal. rewrite unmarshal_marshal; [|done|].
  - cbn [map OrderJSON.members].
    decode_members_by ltac:(first [assumption | by apply store_marshal_time]). by destruct o.
  - unfold OrderJSON.members. members_ok.
Qed.

(** ** The store keeps the ports' promise *)

Section CachePromise.
Context (uuid_in : string -> option string) (tstz : Z -> Z).

Definition with_cache (v : view) (m : gmap string string) : view :=
  View (orders v) (idem v) (decoded m) (reports v).

Definition cache_promised {X} (e : portE X) (v : view) (m : gmap string string) (x : X)
    (m' : gmap string string) : Prop :=
  ports_spec uuid_in tstz X e x (with_cache v m) (with_cache v m').

Lemma with_cache_delete v m id :
  with_cache v (delete (Store.key id) m) = set_cache (delete id) (with_cache v m).
Proof. unfold with_cache, set_cache; simpl. by rewrite decoded_delete. Qed.

Lemma with_cache_corrupt v m id s :
  m !! Store.key id = Some s -> OrderJSON.Unmarshal s = None ->
  set_cache (delete id) (with_cache v m) = with_cache v m.
Proof.
  intros Hs Hu. unfold with_cache, set_cache; simpl. f_equal. apply delete_id.
  by rewrite decoded_lookup, Hs.
Qed.

Lemma with_cache_insert v m o s :
  OrderJSON.Marshal o = inl s ->
  cached o (with_cache v m) (with_cache v (<[Store.key (Order.ID o) := s]> m)).
Proof.
  intros Hs. exists (OrderJSON.Unmarshal s). split.
  - intros (s' & Hs' & Hu)%Unmarshal_Marshal. congruence.
  - unfold with_cache, set_cache; simpl. by rewrite decoded_insert.
Qed.

Lemma promised_miss v id m :
  cache_promised (CacheGet id) v m (None, None) (delete (Store.key id) m).
Proof. right; left. split; [done|]. by apply with_cache_delete. Qed.

Lemma promised_corrupt v id m s :
  m !! Store.key id = Some s -> OrderJSON.Unmarshal s = None ->
  cache_promised (CacheGet id) v m (None, None) m.
Proof. intros Hs Hu. right; left. split; [done|]. symmetry. by eapply with_cache_corrupt. Qed.

Lemma store_Get v id m :
  holds redis_spec (Store.Get true id) (cache_promised (CacheGet id) v m) m.
Proof.
  unfold Store.Get. cbn [negb]. hrun; try done; eauto using promised_miss, promised_corrupt.
  - left. exists t. simpl. rewrite decoded_lookup, H. by simpl.
  - simpl in *. congruence.
  - right; right. eauto.
Qed.

Lemma store_Set v o ttl m :
  holds redis_spec (Store.Set_ true (Some o) ttl) (cache_promised (CacheSet o ttl) v m) m.
Proof.
  unfold Store.Set_. cbn [negb]. destruct (OrderJSON.Marshal o) as [s|e] eqn:Hs; hrun.
  - left. split; [done|]. by apply with_cache_insert.
  - right. eexists. split; [done|]. by left.
  - right. eexists. split; [done|]. right. by apply with_cache_insert.
  - right. eexists. split; [done|]. by left.
Qed.

Lemma store_Delete v id m :
  holds redis_spec (Store.Delete true id) (cache_promised (CacheDelete id) v m) m.
Proof.
  unfold Store.Delete. cbn [negb orb]. case_bool_decide as Hid; hrun.
  - left. split; [done|]. by rewrite bool_decide_true.
  - left. split; [done|]. rewrite bool_decide_false by done. by apply with_cache_delete.
  - right. eexists. split; [done|]. by left.
  - right. eexists. split; [done|]. right. by apply with_cache_delete.
Qed.
End CachePromise.
