(* ===== verification/PaymentClients.v ===== *)
(** * Order service: the payment clients

    [PaymentClient] (internal/adapter/grpc/payment_client.go) over the generated
    gRPC stub, and [RestClient] (internal/adapter/payment/rest_client.go) over
    net/http.  Both implement [PaymentAuthorizer]. *)

From S2P Require Import Prelude GoLib Json GoTime Http Proto OrderPorts OrderUsecase.
From Stdlib Require Import Ascii.

(** ** gRPC *)

(** The stub's calls, bounded by the client's own deadline of five seconds. *)
Inductive payE (Timestamp : Type) : Type -> Type :=
| RpcAuthorizePayment (req : AuthorizePaymentRequest.t) :
    payE Timestamp (AuthorizePaymentResponse.t Timestamp + error)
| RpcGetPaymentStatus (req : GetPaymentStatusRequest.t) :
    payE Timestamp (GetPaymentStatusResponse.t Timestamp + error).
Arguments RpcAuthorizePayment {Timestamp} req.
Arguments RpcGetPaymentStatus {Timestamp} req.

Module PaymentClient.
Section PaymentClient.
Context {Timestamp : Type}.

Definition authorize_error (err : error) : error :=
  match status_FromError err with
  | Some code =>
      if code =? InvalidArgument then ErrPaymentInvalidArgument
      else if code =? Internal then ErrPaymentUnavailable
      else Errorf_w "payment authorization failed: " err
  | None => ErrPaymentUnavailable
  end.

Definition Authorize (orderID : string) (amount : Z) (customerEmail : string) :
    prog (payE Timestamp) (string * string * option error) :=
  resp ← call (RpcAuthorizePayment (AuthorizePaymentRequest.mk orderID amount customerEmail));
  match resp with
  | inr err => mret ("", "", Some (authorize_error err))
  | inl resp =>
      mret (AuthorizePaymentResponse.TransactionId resp, AuthorizePaymentResponse.Status resp, None)
  end.

Definition get_status_error (err : error) : error :=
  match status_FromError err with
  | Some code =>
      if code =? NotFound then ErrPaymentNotFound
      else if (code =? Unavailable) || (code =? DeadlineExceeded) then ErrPaymentUnavailable
      else ErrPaymentUnavailable
  | None => ErrPaymentUnavailable
  end.

Definition GetStatus (orderID : string) : prog (payE Timestamp) (string * option error) :=
  resp ← call (RpcGetPaymentStatus (GetPaymentStatusRequest.mk orderID));
  match resp with
  | inr err => mret ("", Some (get_status_error err))
  | inl resp => mret (GetPaymentStatusResponse.Status resp, None)
  end.
End PaymentClient.
End PaymentClient.

(** ** REST *)

Definition hex_upper (d : Z) : ascii := if d <? 10 then digit d else chr (Z.to_nat (55 + d)).

(** [url.PathEscape]: all but letters, digits and -_.~$&+:=@ *)
Definition path_char (a : ascii) : bool :=
  between 48 57 a || between 65 90 a || between 97 122 a
  || existsb (Ascii.eqb a) ["-"; "_"; "."; "~"; "$"; "&"; "+"; ":"; "="; "@"]%char.
Fixpoint PathEscape (s : string) : string :=
  match s with
  | EmptyString => EmptyString
  | String a s =>
      if path_char a then String a (PathEscape s)
      else String "%" (String (hex_upper (byte_val a / 16))
                         (String (hex_upper (byte_val a mod 16)) (PathEscape s)))
  end.

(** [strings.ToLower], as far as ASCII goes: ASCII letters, and the two other
    runes that lower to one (U+0130 and U+212A). *)
Fixpoint to_lower (l : list ascii) : list ascii :=
  match l with
  | [] => []
  | a :: l1 =>
      if between 65 90 a then chr (nat_of_ascii a + 32) :: to_lower l1
      else match l1 with
      | b :: l2 =>
          if bool_decide ([a; b] = bytes [196; 176]%nat) then "i"%char :: to_lower l2
          else match l2 with
          | c :: l3 =>
              if bool_decide ([a; b; c] = bytes [226; 132; 170]%nat) then "k"%char :: to_lower l3
              else a :: to_lower l1
          | [] => a :: to_lower l1
          end
      | [] => [a]
      end
  end.
Definition ToLower (s : string) : string := String.string_of_list_ascii (to_lower (lit s)).

(** [errors.As] with a net.Error: the first one of the chain. *)
Fixpoint errors_As_net (e : error) : option bool :=
  match e with
  | NetError timeout _ => Some timeout
  | Wrap _ inner => errors_As_net inner
  | _ => None
  end.

(** The HTTP client: making a request (which parses its URL) and sending it; the
    answer is the status code and what could be read of the body. *)
Inductive httpE : Type -> Type :=
| NewRequest (method url body : string) : httpE (option error)
| DoRequest (method url body : string) (content_type : option string) : httpE (Z * string + error).

Module paymentAPIResponse.
Record t := mk { TransactionID : string; Status : string }.
Definition fields : list (field t) :=
  [Field "transaction_id" (store_string (fun x r => mk x (Status r)));
   Field "status" (store_string (fun x r => mk (TransactionID r) x))].
Definition Unmarshal (b : string) : option t := unmarshal fields b (mk "" "").
End paymentAPIResponse.

Definition isUnavailable (err : option error) : bool :=
  match err with
  | None => false
  | Some err =>
      errors_Is err context_DeadlineExceeded
      || match errors_As_net err with
         | Some timeout => timeout || Contains (ToLower (Error err)) "connection refused"
         | None => false
         end
  end.

Module RestClient.
Section RestClient.
Context (baseURL : string).

(** [json.Unmarshal]'s own error, which the client wraps. *)
Context (decode_error : string -> error).

Definition NewRestClient_baseURL (url : string) : string := TrimRight (TrimSpace url) "/".

Definition unexpected (code : Z) (b : string) : error :=
  ErrorNew ("payment service returned " ++ Itoa code ++ ": " ++ TrimSpace b).

(** [json.Marshal] of the map: keys in order. *)
Definition authorize_body (orderID : string) (amount : Z) (customerEmail : string) : string :=
  marshal [("amount", jint amount); ("customer_email", jstring customerEmail);
           ("order_id", jstring orderID)].

Definition authorize_response (code : Z) (b : string) : string * string * option error :=
  if code =? StatusOK then
    match paymentAPIResponse.Unmarshal b with
    | None => ("", "", Some (Errorf_w "decode payment response: " (decode_error b)))
    | Some pr => (paymentAPIResponse.TransactionID pr, paymentAPIResponse.Status pr, None)
    end
  else if code =? StatusConflict then ("", "", Some ErrPaymentAlreadyRecorded)
  else if code =? StatusBadRequest then ("", "", Some ErrPaymentInvalidArgument)
  else if StatusInternalServerError <=? code then ("", "", Some ErrPaymentUnavailable)
  else ("", "", Some (unexpected code b)).

Definition Authorize (orderID : string) (amount : Z) (customerEmail : string) :
    prog httpE (string * string * option error) :=
  let body := authorize_body orderID amount customerEmail in
  err ← call (NewRequest "POST" (baseURL ++ "/payments") body);
  match err with
  | Some err => mret ("", "", Some err)
  | None =>
      resp ← call (DoRequest "POST" (baseURL ++ "/payments") body (Some "application/json"));
      match resp with
      | inr err =>
          if isUnavailable (Some err) then mret ("", "", Some ErrPaymentUnavailable)
          else mret ("", "", Some err)
      | inl (code, body) => mret (authorize_response code (limit_reader (2 ^ 20) body))
      end
  end.

Definition status_response (code : Z) (b : string) : string * option error :=
  if code =? StatusOK then
    match unmarshal [Field "status" (store_string (fun x _ => x))] b "" with
    | None => ("", Some (Errorf_w "decode payment get: " (decode_error b)))
    | Some st => (st, None)
    end
  else if code =? StatusNotFound then ("", Some ErrPaymentNotFound)
  else if bool_decide (code ∈ [StatusInternalServerError; StatusBadGateway;
                               StatusServiceUnavailable; StatusGatewayTimeout])
       then ("", Some ErrPaymentUnavailable)
  else ("", Some (unexpected code b)).

Definition GetStatus (orderID : string) : prog httpE (string * option error) :=
  let u := baseURL ++ "/payments/" ++ PathEscape (TrimSpace orderID) in
  err ← call (NewRequest "GET" u "");
  match err with
  | Some err => mret ("", Some err)
  | None =>
      resp ← call (DoRequest "GET" u "" None);
      match resp with
      | inr err =>
          if isUnavailable (Some err) then mret ("", Some ErrPaymentUnavailable)
          else mret ("", Some err)
      | inl (code, body) => mret (status_response code (limit_reader (2 ^ 20) body))
      end
  end.
End RestClient.
End RestClient.

(** ** What the use cases see of the payment service: the statuses it reported *)

Section PaymentPromise.
Context {Timestamp : Type} (uuid_in : string -> option string) (tstz : Z -> Z).

(** The stub promises no more than an answer or an error that is not one of the
    order service's; a status in an answer is a report. *)
Definition pay_spec : interface (payE Timestamp) (list (string * string)) := fun X e =>
  match e in payE _ X return X -> list (string * string) -> list (string * string) -> Prop with
  | RpcAuthorizePayment req => fun r l l' =>
      (exists resp, r = inl resp /\
         l' = (AuthorizePaymentRequest.OrderId req, AuthorizePaymentResponse.Status resp) :: l) \/
      (exists e, r = inr e /\ foreign e = true /\ l' = l)
  | RpcGetPaymentStatus req => fun r l l' =>
      (exists resp, r = inl resp /\
         l' = (GetPaymentStatusRequest.OrderId req, GetPaymentStatusResponse.Status resp) :: l) \/
      (exists e, r = inr e /\ foreign e = true /\ l' = l)
  end.

Definition with_reports (v : view) (l : list (string * string)) : view :=
  View (orders v) (idem v) (cache v) l.

Definition pay_promised {X} (e : portE X) (v : view) (l : list (string * string)) (x : X)
    (l' : list (string * string)) : Prop :=
  ports_spec uuid_in tstz X e x (with_reports v l) (with_reports v l').

Lemma client_Authorize v id amount email l :
  holds pay_spec (PaymentClient.Authorize id amount email)
    (pay_promised (Authorize id amount email) v l) l.
Proof.
  unfold PaymentClient.Authorize. hrun; [left; by do 2 eexists|right].
  eexists. split_and!; [done| |done]. unfold PaymentClient.authorize_error.
  by repeat case_match.
Qed.

Lemma client_GetStatus v id l :
  holds pay_spec (PaymentClient.GetStatus id) (pay_promised (GetStatus id) v l) l.
Proof.
  unfold PaymentClient.GetStatus. hrun; [left; by eexists|right].
  eexists. split_and!; [done| |done]. unfold PaymentClient.get_status_error. by repeat case_match.
Qed.
End PaymentPromise.

(** ** The error tables *)

(** The gRPC client knows two of the statuses of a failed authorization; it never
    reports a recorded payment, so the use case never reconciles. *)
Lemma authorize_error_cases err :
  PaymentClient.authorize_error err =
    (if bool_decide (status_FromError err = Some InvalidArgument) then ErrPaymentInvalidArgument
     else if bool_decide (status_FromError err = Some Internal \/ status_FromError err = None)
     then ErrPaymentUnavailable
     else Errorf_w "payment authorization failed: " err).
Proof.
  unfold PaymentClient.authorize_error, InvalidArgument, Internal.
  destruct (status_FromError err) as [c|]; [|done].
  destruct (Z.eqb_spec c 3) as [->|]; [done|].
  rewrite (bool_decide_false (Some c = Some 3)) by congruence.
  destruct (Z.eqb_spec c 13) as [->|]; [done|].
  rewrite bool_decide_false; [done|]. intros [?|?]; congruence.
Qed.
