(* ===== verification/OrderInfra.v ===== *)
(** * Order service: the ports, implemented

    The wiring of cmd/order-service/main.go: the use cases' ports are the
    PostgreSQL repository, the Redis store and the gRPC payment client.  What the
    database, Redis and the gRPC stub promise is enough for the ports' promise
    ([ports_refined]), so the properties of the use cases hold of the service. *)

From S2P Require Import Prelude GoLib Json GoTime Proto OrderPorts OrderUsecase.
From S2P Require Import OrderRepo OrderCache PaymentClients.

(** The calls of the three clients. *)
Inductive infraE (Timestamp : Type) (X : Type) : Type :=
| PgCall (e : pgE X)
| RedisCall (e : redisE X)
| PayCall (e : payE Timestamp X).
Arguments PgCall {Timestamp X} e.
Arguments RedisCall {Timestamp X} e.
Arguments PayCall {Timestamp X} e.

Record infra := Infra {
  i_pg : pg;
  i_redis : gmap string string;
  i_reports : list (string * string)
}.

Section Infra.
Context {Timestamp : Type} (uuid_in : string -> option string) (tstz : Z -> Z).
Notation E := (infraE Timestamp).

Definition on_pg {A} (p : prog pgE A) : prog E A := lift (fun X e => PgCall e) p.
Definition on_redis {A} (p : prog redisE A) : prog E A := lift (fun X e => RedisCall e) p.
Definition on_pay {A} (p : prog (payE Timestamp) A) : prog E A := lift (fun X e => PayCall e) p.

(** [usecase.NewCreateOrder(orderRepo, paymentClient, orderCache)] and the other
    constructors: which adapter answers which port. *)
Definition ports : forall X : Type, portE X -> prog E X := fun X e =>
  match e in portE X return prog E X with
  | GetByID id => on_pg (OrderRepository.GetByID id)
  | UpdateStatus id st => on_pg (OrderRepository.UpdateStatus id st)
  | CreatePendingWithIdempotency key cust item amount =>
      on_pg (OrderRepository.CreatePendingWithIdempotency key cust item amount)
  | CacheGet id => on_redis (Store.Get true id)
  | CacheSet o ttl => on_redis (Store.Set_ true (Some o) ttl)
  | CacheDelete id => on_redis (Store.Delete true id)
  | Authorize id amount email => on_pay (PaymentClient.Authorize id amount email)
  | GetStatus id => on_pay (PaymentClient.GetStatus id)
  end.

(** A request, down to the clients' calls. *)
Definition serve_infra (cache : bool) (ttl : Z) (r : request) :
    prog E (option Order.t * option error) := interp ports (serve cache ttl r).

(** ** The promise of the three together *)

Definition set_pg (p : pg) (i : infra) : infra := Infra p (i_redis i) (i_reports i).
Definition set_redis (m : gmap string string) (i : infra) : infra := Infra (i_pg i) m (i_reports i).
Definition set_reports (l : list (string * string)) (i : infra) : infra := Infra (i_pg i) (i_redis i) l.

Definition infra_spec : interface E infra := fun X e x i i' =>
  match e with
  | PgCall e => exists p, pg_spec uuid_in tstz X e x (i_pg i) p /\ i' = set_pg p i
  | RedisCall e => exists m, redis_spec X e x (i_redis i) m /\ i' = set_redis m i
  | PayCall e => exists l, pay_spec X e x (i_reports i) l /\ i' = set_reports l i
  end.

(** What the use cases see. *)
Definition visible (i : infra) : view :=
  View (t_orders (pg_committed (i_pg i))) (t_idem (pg_committed (i_pg i)))
       (decoded (i_redis i)) (i_reports i).

Lemma holds_pg {A} (p : prog pgE A) (Q : A -> pg -> Prop) (R : A -> infra -> Prop) i :
  holds (pg_spec uuid_in tstz) p Q (i_pg i) -> (forall a u, Q a u -> R a (set_pg u i)) ->
  holds infra_spec (on_pg p) R i.
Proof. apply holds_lift; [by intros []|done..]. Qed.

Lemma holds_redis {A} (p : prog redisE A) (Q : A -> gmap string string -> Prop)
    (R : A -> infra -> Prop) i :
  holds redis_spec p Q (i_redis i) -> (forall a u, Q a u -> R a (set_redis u i)) ->
  holds infra_spec (on_redis p) R i.
Proof. apply holds_lift; [by intros []|done..]. Qed.

Lemma holds_pay {A} (p : prog (payE Timestamp) A) (Q : A -> list (string * string) -> Prop)
    (R : A -> infra -> Prop) i :
  holds pay_spec p Q (i_reports i) -> (forall a u, Q a u -> R a (set_reports u i)) ->
  holds infra_spec (on_pay p) R i.
Proof. apply holds_lift; [by intros []|done..]. Qed.

(** Every port keeps its promise. *)
Lemma ports_kept X (e : portE X) i :
  holds infra_spec (ports X e)
    (fun x i' => ports_spec uuid_in tstz X e x (visible i) (visible i')) i.
Proof.
  destruct e; simpl.
  - eapply holds_pg; [apply (repo_GetByID uuid_in tstz (visible i))|done].
  - eapply holds_pg; [apply (repo_UpdateStatus uuid_in tstz (visible i))|done].
  - eapply holds_pg; [apply (repo_CreatePending uuid_in tstz (visible i))|done].
  - eapply holds_redis; [apply (store_Get uuid_in tstz (visible i))|done].
  - eapply holds_redis; [apply (store_Set uuid_in tstz (visible i))|done].
  - eapply holds_redis; [apply (store_Delete uuid_in tstz (visible i))|done].
  - eapply holds_pay; [apply (client_Authorize uuid_in tstz (visible i))|done].
  - eapply holds_pay; [apply (client_GetStatus uuid_in tstz (visible i))|done].
Qed.
End Infra.

#[global] Arguments visible : simpl never.
