(* ===== verification/OrderInfraMem.v ===== *)
(** * Order service: an executable world behind the clients

    Tables with transactions, a Redis map and a scripted payment service: they
    keep what [infra_spec] asks for, so the whole service runs on concrete
    requests, down to its SQL statements and JSON texts. *)

From S2P Require Import Prelude GoLib Json GoTime Proto OrderPorts OrderUsecase OrderMem.
From S2P Require Import OrderRepo OrderCache PaymentClients OrderInfra.

Record imem := IMem {
  im_infra : infra;
  im_faults : list bool;                       (* [true]: the next call fails *)
  im_pay : list (string * string + error);     (* transaction id and status *)
  im_ids : list string;                        (* identifiers to come *)
  im_now : Z
}.

Definition canonical_id (s : string) : string :=
  if bool_decide (mem_uuid_in s = Some s) then s else "00".

Definition mem_select (id : string) (t : tables) : Order.t * option error :=
  match mem_uuid_in id with
  | Some c =>
      match t_orders t !! c with
      | Some o => (o, None)
      | None => (OrderJSON.zero, Some sql_ErrNoRows)
      end
  | None => (OrderJSON.zero, Some mem_error)
  end.

Definition mem_insert_order (o : Order.t) (t : tables) : option tables :=
  match mem_uuid_in (Order.ID o) with
  | Some c =>
      let row := Order.set_ID c (Order.set_CreatedAt (mem_tstz (Order.CreatedAt o)) o) in
      if decide (t_orders t !! c = None /\ 0 < Order.Amount o /\ valid_status (Order.Status o) /\
                 storable row = true)
      then Some (put_row c row t) else None
  | None => None
  end.

Definition mem_insert_key (key id : string) (t : tables) : option tables :=
  match mem_uuid_in id with
  | Some c =>
      if decide (is_Some (t_orders t !! c) /\ t_idem t !! key = None)
      then Some (put_key key c t) else None
  | None => None
  end.

(** One statement; [id] and [now] are what the generator and the clock give. *)
Definition pg_mem (X : Type) (e : pgE X) (fault : bool) (id : string) (now : Z) (p : pg) : X * pg :=
  match e in pgE X return X * pg with
  | BeginTx => if fault then (Some mem_error, p) else (None, Pg (pg_committed p) (Some (pg_committed p)))
  | Commit =>
      match pg_tx p with
      | Some t => if fault then (Some mem_error, Pg (pg_committed p) None) else (None, Pg t None)
      | None => (Some mem_error, p)
      end
  | Rollback => (None, Pg (pg_committed p) None)
  | AdvisoryLock _ => (if fault then Some mem_error else None, p)
  | SelectOrderID key =>
      match pg_tx p with
      | Some t =>
          if fault then (("", Some mem_error), p) else
          match t_idem t !! key with
          | Some id =>
              if decide (mem_uuid_in id = Some id) then ((id, None), p) else (("", Some mem_error), p)
          | None => (("", Some sql_ErrNoRows), p)
          end
      | None => (("", Some mem_error), p)
      end
  | SelectOrder false id =>
      if fault then ((OrderJSON.zero, Some mem_error), p) else (mem_select id (pg_committed p), p)
  | SelectOrder true id =>
      match pg_tx p with
      | Some t => if fault then ((OrderJSON.zero, Some mem_error), p) else (mem_select id t, p)
      | None => ((OrderJSON.zero, Some mem_error), p)
      end
  | ExecUpdateStatus id st =>
      if fault then ((0, Some mem_error), p) else
      match mem_uuid_in id with
      | Some c =>
          match t_orders (pg_committed p) !! c with
          | Some o =>
              if decide (valid_status st)
              then ((1, None), Pg (put_row c (Order.set_Status st o) (pg_committed p)) (pg_tx p))
              else ((0, Some mem_error), p)
          | None => ((0, None), p)
          end
      | None => ((0, Some mem_error), p)
      end
  | RowsAffected n => ((n, None), p)
  | InsertOrder o =>
      match pg_tx p with
      | Some t =>
          if fault then (Some mem_error, p) else
          match mem_insert_order o t with
          | Some t => (None, Pg (pg_committed p) (Some t)) | None => (Some mem_error, p) end
      | None => (Some mem_error, p)
      end
  | InsertKey key id =>
      match pg_tx p with
      | Some t =>
          if fault then (Some mem_error, p) else
          match mem_insert_key key id t with
          | Some t => (None, Pg (pg_committed p) (Some t)) | None => (Some mem_error, p) end
      | None => (Some mem_error, p)
      end
  | Now => (now, p)
  | NewString => (canonical_id id, p)
  end.

Definition redis_mem (X : Type) (e : redisE X) (fault : bool) (m : gmap string string) :
    X * gmap string string :=
  match e in redisE X return X * gmap string string with
  | RedisGet k =>
      if fault then (("", Some mem_error), m)
      else match m !! k with Some s => ((s, None), m) | None => (("", Some redis_Nil), m) end
  | RedisSet k s ttl => if fault then (Some mem_error, m) else (None, <[k := s]> m)
  | RedisDel k => if fault then (Some mem_error, m) else (None, delete k m)
  end.

Definition pay_mem (X : Type) (e : payE unit X) (answer : string * string + error)
    (l : list (string * string)) : X * list (string * string) :=
  match e in payE _ X return X * list (string * string) with
  | RpcAuthorizePayment req =>
      match answer with
      | inl (txn, st) =>
          (inl (AuthorizePaymentResponse.mk "" txn st (AuthorizePaymentRequest.Amount req) None),
           (AuthorizePaymentRequest.OrderId req, st) :: l)
      | inr e => (inr e, l)
      end
  | RpcGetPaymentStatus req =>
      match answer with
      | inl (txn, st) =>
          (inl (GetPaymentStatusResponse.mk "" txn st 0 None),
           (GetPaymentStatusRequest.OrderId req, st) :: l)
      | inr e => (inr e, l)
      end
  end.

Definition draws_id {X} (e : pgE X) : bool := match e with NewString => true | _ => false end.

Definition infra_mem : handler (infraE unit) imem := fun X e w =>
  let i := im_infra w in
  let answer := match head (im_pay w) with
                | Some (inr e) => inr (if foreign e then e else mem_error)
                | Some a => a
                | None => inr mem_error
                end in
  let fault := default false (head (im_faults w)) in
  match e with
  | PgCall e =>
      let '(x, p) := pg_mem X e fault (default "00" (head (im_ids w))) (im_now w) (i_pg i) in
      (Done x, IMem (set_pg p i) (tail (im_faults w)) (im_pay w)
                 (if draws_id e then tail (im_ids w) else im_ids w) (im_now w + 1))
  | RedisCall e =>
      let '(x, m) := redis_mem X e fault (i_redis i) in
      (Done x, IMem (set_redis m i) (tail (im_faults w)) (im_pay w) (im_ids w) (im_now w))
  | PayCall e =>
      let '(x, l) := pay_mem X e answer (i_reports i) in
      (Done x, IMem (set_reports l i) (im_faults w) (tail (im_pay w)) (im_ids w) (im_now w))
  end.

Definition empty_infra : infra := Infra (Pg (Tables ∅ ∅) None) ∅ [].

(** ** It keeps the promise *)

Lemma driver_mem_error : driver_error mem_error.
Proof. by split. Qed.
Lemma failed_mem_error : failed (Some mem_error).
Proof. by eexists; split; [|apply driver_mem_error]. Qed.
#[local] Hint Resolve driver_mem_error failed_mem_error : core.

Lemma mem_select_ok id t : select_order mem_uuid_in id t (mem_select id t).
Proof.
  unfold mem_select, select_order. destruct (mem_uuid_in id) as [c|]; [|eauto 8].
  destruct (t_orders t !! c) as [o|] eqn:E; [left; eauto|]. right; left; eauto.
Qed.

Lemma mem_select_error id t : select_order mem_uuid_in id t (OrderJSON.zero, Some mem_error).
Proof. right; right. eauto. Qed.

Lemma pg_mem_ok X (e : pgE X) fault id now p x p' :
  pg_mem X e fault id now p = (x, p') -> pg_spec mem_uuid_in mem_tstz X e x p p'.
Proof.
  intros H. destruct e; simpl in *; unfold OrderRepo.in_tx;
    repeat (case_match; simplify_eq/=); eauto 12 using mem_select_ok, mem_select_error.
  all: try solve [unfold mem_insert_order, mem_insert_key in *; repeat (case_match; simplify_eq/=);
            destruct_and?; right; eauto 10].
  - by injection H.
  - left. do 2 eexists. split_and!; [done..|]. left. split; [done|]. by split.
  - injection H as <- <-. eauto.
  - by injection H.
  - injection H as <- <-. unfold canonical_id. case_bool_decide; eauto.
Qed.

Lemma redis_mem_ok X (e : redisE X) fault m x m' :
  redis_mem X e fault m = (x, m') -> redis_spec X e x m m'.
Proof.
  intros H. destruct e; simpl in *; repeat (case_match; simplify_eq/=); eauto 6.
  right; left. by rewrite delete_id.
Qed.

Lemma pay_mem_ok X (e : payE unit X) a l x l' :
  (forall e, a = inr e -> foreign e = true) ->
  pay_mem X e a l = (x, l') -> pay_spec X e x l l'.
Proof. intros Ha H. destruct e; simpl in *; repeat (case_match; simplify_eq/=); eauto 6. Qed.

#[export] Instance infra_mem_refines :
  Refines infra_mem im_infra (infra_spec mem_uuid_in mem_tstz).
Proof.
  intros X e w. unfold infra_mem. destruct e as [e|e|e].
  - destruct (pg_mem _ _ _ _ _ _) as [x p] eqn:E. do 2 eexists. split; [done|].
    exists p. split; [by eapply pg_mem_ok|done].
  - destruct (redis_mem _ _ _ _) as [x m] eqn:E. do 2 eexists. split; [done|].
    exists m. split; [by eapply redis_mem_ok|done].
  - destruct (pay_mem _ _ _ _) as [x l] eqn:E. do 2 eexists. split; [done|].
    exists l. split; [|done]. eapply pay_mem_ok; [|done].
    intros e'. destruct (head (im_pay w)) as [[[]|e0]|]; intros; simplify_eq; [|done].
    by destruct (foreign e0) eqn:?.
Qed.
