(* ===== verification/OrderHttp.v ===== *)
(** * Order service: the HTTP interface

    The handlers of internal/transport/http over the use cases.  gin's request
    binding is an argument ([ShouldBindJSON]); what the handlers rely on is that a
    bound request satisfies the tags of [createOrderRequest].  A response is its
    status code and the JSON value of its body. *)

From S2P Require Import Prelude GoLib Json GoTime Http Proto OrderPorts OrderUsecase.
From S2P Require Import OrderUsecaseFacts OrderMem OrderUsecaseProps PaymentClients.

Module createOrderRequest.
Record t := mk {
  CustomerID : string;
  CustomerEmail : string;
  ItemName : string;
  Amount : Z
}.
Definition fields : list (field t) :=
  [Field "customer_id" (store_string (fun x r => mk x (CustomerEmail r) (ItemName r) (Amount r)));
   Field "customer_email" (store_string (fun x r => mk (CustomerID r) x (ItemName r) (Amount r)));
   Field "item_name" (store_string (fun x r => mk (CustomerID r) (CustomerEmail r) x (Amount r)));
   Field "amount" (store_int64 (fun x r => mk (CustomerID r) (CustomerEmail r) (ItemName r) x))].
(** binding:"required" on every field, gt=0 on the amount. *)
Definition tags (r : t) : bool :=
  negb (bool_decide (CustomerID r = "")) && negb (bool_decide (CustomerEmail r = ""))
  && negb (bool_decide (ItemName r = "")) && (0 <? Amount r).
End createOrderRequest.

Definition toOrderResponse (o : option Order.t) : json :=
  match o with
  | None => JNull
  | Some o => JObj
      [(lit "amount", jint (Order.Amount o));
       (lit "created_at", jstring (format_seconds (Order.CreatedAt o)));
       (lit "customer_id", jstring (Order.CustomerID o));
       (lit "id", jstring (Order.ID o));
       (lit "item_name", jstring (Order.ItemName o));
       (lit "status", jstring (Order.Status o))]
  end.

Module Handlers.
Section Handlers.
Context (ShouldBindJSON : string -> option createOrderRequest.t) (cache : bool) (ttl : Z).

(** The answer for what [create.Execute] returned. *)
Definition create_response (r : option Order.t * option error) : response :=
  let '(order, err) := r in
  match err with
  | Some err =>
      if errors_Is err ErrInvalidInput then
        Response StatusBadRequest
          (error_body "customer_id, customer_email, item_name, and amount > 0 are required")
      else if errors_Is err ErrPaymentUnavailable then
        Response StatusServiceUnavailable
          (JObj [(lit "error", jstring "payment service unavailable");
                 (lit "order", toOrderResponse order)])
      else
        Response StatusBadGateway
          (JObj [(lit "error", jstring (Error err)); (lit "order", toOrderResponse order)])
  | None => Response StatusOK (toOrderResponse order)
  end.

(** The Idempotency-Key header as the use case gets it. *)
Definition idempotency_key (header : string) : option string :=
  let v := TrimSpace header in if bool_decide (v = "") then None else Some v.

Definition CreateOrder (text header : string) : prog portE response :=
  match ShouldBindJSON text with
  | None => mret (Response StatusBadRequest (error_body "invalid json body"))
  | Some req =>
      r ← CreateOrder.Execute cache (CreateOrderInput.mk
            (createOrderRequest.CustomerID req) (createOrderRequest.CustomerEmail req)
            (createOrderRequest.ItemName req) (createOrderRequest.Amount req)
            (idempotency_key header));
      mret (create_response r)
  end.

Definition get_response (r : option Order.t * option error) : response :=
  let '(order, err) := r in
  match err with
  | Some err =>
      if errors_Is err ErrOrderNotFound then
        Response StatusNotFound (error_body "order not found")
      else Response StatusInternalServerError (error_body "internal error")
  | None => Response StatusOK (toOrderResponse order)
  end.

Definition GetOrder (param : string) : prog portE response :=
  r ← GetOrder.Execute cache ttl (TrimSpace param);
  mret (get_response r).

Definition cancel_response (r : option Order.t * option error) : response :=
  let '(order, err) := r in
  match err with
  | Some err =>
      if errors_Is err ErrOrderNotFound then
        Response StatusNotFound (error_body "order not found")
      else if errors_Is err ErrCancelNotAllowed then
        Response StatusConflict
          (error_body "only pending orders can be cancelled; Paid, Failed, and Cancelled orders cannot")
      else Response StatusInternalServerError (error_body "internal error")
  | None => Response StatusOK (toOrderResponse order)
  end.

Definition CancelOrder (param : string) : prog portE response :=
  r ← CancelOrder.Execute cache (TrimSpace param);
  mret (cancel_response r).
End Handlers.
End Handlers.

(** The handlers by name, and the routes. *)
Inductive handler_name : Set := HCreateOrder | HGetOrder | HCancelOrder.
Definition RegisterRoutes : list (string * string * handler_name) :=
  [("POST", "/orders", HCreateOrder);
   ("GET", "/orders/:id", HGetOrder);
   ("PATCH", "/orders/:id/cancel", HCancelOrder)].

(** ** Lemmas about what the use cases return *)

Lemma foreign_not e t : foreign e = true -> t ∈ usecase_errors -> errors_Is e t = false.
Proof.
  unfold foreign. rewrite forallb_forall. intros H Ht. apply negb_true_iff, H.
  by apply list_elem_of_In.
Qed.

(** A 200 to a creation: the answer is the stored row, and its status is final. *)
Definition stored_answer (tstz : Z -> Z) (o : Order.t) (v' : view) : Prop :=
  is_terminal (Order.Status o) = true /\
  exists row, orders v' !! Order.ID o = Some row /\
    (row = o \/ row = Order.set_CreatedAt (tstz (Order.CreatedAt o)) o).

Lemma create_success uuid_in tstz inp v o v' :
  integrity uuid_in v ->
  create_outcome uuid_in tstz inp v (Some o, None) v' -> stored_answer tstz o v'.
Proof.
  intros HI H. inversion H; simplify_eq.
  - match goal with Ho : orders _ !! _ = Some _ |- _ => destruct (int_row _ _ HI _ _ Ho) as (<- & _) end.
    split; eauto.
  - match goal with Ho : orders v !! _ = Some _ |- _ => destruct (int_row _ _ HI _ _ Ho) as (<- & _) end.
    match goal with Hp : payment_outcome _ _ _ _ _ _ |- _ => inversion Hp; simplify_eq end.
    split; [apply settled_as_terminal|]. eexists.
    match goal with Hs : stored_as _ _ _ _ _ |- _ => rewrite Hs end.
    simpl. rewrite lookup_insert_eq. eauto.
  - match goal with Hp : payment_outcome _ _ _ _ _ _ |- _ => inversion Hp; simplify_eq end.
    split; [apply settled_as_terminal|]. eexists.
    match goal with Hs : stored_as _ _ _ _ _ |- _ => rewrite Hs end.
    simpl. rewrite lookup_insert_eq. eauto.
Qed.

(** The rows that were there are as they were. *)
Definition rows_kept (v v' : view) : Prop :=
  forall c o, orders v !! c = Some o -> orders v' !! c = Some o.

Lemma rows_kept_created uuid_in tstz key cu it a o v v' :
  created uuid_in tstz key cu it a o v v' -> rows_kept v v'.
Proof.
  intros (E & _ & _ & _ & Hn & _)%created_row c o' Ho. rewrite E.
  rewrite lookup_insert_ne by congruence. done.
Qed.

(** What the answer of [create.Execute] says of the tables, by status code. *)
Definition create_answer (tstz : Z -> Z) (v : view) (resp : response) (v' : view) : Prop :=
  (code resp = StatusOK /\
     exists o, body resp = toOrderResponse (Some o) /\ stored_answer tstz o v') \/
  (code resp = StatusBadRequest /\ rows_kept v v') \/
  (code resp = StatusServiceUnavailable /\ rows_kept v v' /\
     exists o row, body resp = JObj [(lit "error", jstring "payment service unavailable");
                                     (lit "order", toOrderResponse (Some o))] /\
       orders v' !! Order.ID o = Some row /\ Order.Status row = StatusPending) \/
  (code resp = StatusBadGateway).

Lemma create_answer_error tstz v v' order e :
  errors_Is e ErrPaymentUnavailable = false -> rows_kept v v' \/ errors_Is e ErrInvalidInput = false ->
  create_answer tstz v (Handlers.create_response (order, Some e)) v'.
Proof.
  intros Hu Hk. unfold Handlers.create_response, create_answer. rewrite Hu.
  destruct (errors_Is e ErrInvalidInput); simpl; [|auto 6].
  right; left. split; [done|]. by destruct Hk.
Qed.

Lemma foreign_facts e :
  foreign e = true ->
  errors_Is e ErrPaymentUnavailable = false /\ errors_Is e ErrInvalidInput = false /\
  errors_Is e ErrOrderNotFound = false /\ errors_Is e ErrCancelNotAllowed = false.
Proof. intros H. split_and!; apply (foreign_not e _ H); unfold usecase_errors; set_solver. Qed.

Lemma create_answer_unavailable tstz v v1 v' c row order o :
  rows_kept v v1 -> orders v1 !! c = Some row -> Order.Status row = StatusPending ->
  Order.ID order = c -> Order.ID row = c ->
  payment_outcome c row order v1 (Some o, Some ErrPaymentUnavailable) v' ->
  create_answer tstz v (Handlers.create_response (Some o, Some ErrPaymentUnavailable)) v'.
Proof.
  intros Hk Hrow Hp Ho Hr H.
  inversion H; simplify_eq.
  right; right; left. split; [done|]. split.
  { intros c o' Hl. match goal with E : orders v' = orders v1 |- _ => rewrite E end. by apply Hk. }
  exists o, row. split; [done|]. match goal with E : orders v' = orders v1 |- _ => rewrite E end.
  destruct_or!; subst; by rewrite ?Ho, ?Hr.
Qed.

Lemma outcome_answer tstz c row order v v1 r v' :
  rows_kept v v1 -> orders v1 !! c = Some row -> Order.Status row = StatusPending ->
  Order.ID order = c -> Order.ID row = c ->
  (Order.set_CreatedAt (tstz (Order.CreatedAt order)) order = row \/ order = row) ->
  payment_outcome c row order v1 r v' ->
  create_answer tstz v (Handlers.create_response r) v'.
Proof.
  intros Hk Hrow Hp Ho Hr Hsame H.
  assert (orders v' = orders v1 -> rows_kept v v') as Hkeep.
  { intros E c' o' Hl. rewrite E. by apply Hk. }
  inversion H as [st ? Hst|st e ? Hf|r' ? Hrr|? |? |e ? Hn Hu Hi|o e ? Hu Hi Hi2]; simplify_eq;
    try (apply create_answer_error; [done|by eauto]).
  - left. split; [done|]. eexists. split; [done|]. split; [apply settled_as_terminal|].
    eexists. rewrite Hst. simpl. rewrite lookup_insert_eq. split; [done|].
    destruct Hsame as [<- | ->]; auto.
  - apply foreign_facts in Hf as (Hu & Hi & _ & _). apply create_answer_error; auto.
  - eapply create_answer_unavailable; [exact Hk|exact Hrow|exact Hp|..|exact H]; done.
Qed.

Lemma create_answered uuid_in tstz inp v r v' :
  integrity uuid_in v -> create_outcome uuid_in tstz inp v r v' ->
  create_answer tstz v (Handlers.create_response r) v'.
Proof.
  intros HI H. destruct H as [|e v' Hin Hf Hc|k id o ? ? ? Ho ?|k id o r v' ? ? ? Ho Hp Hout|o v1 r v' ? Hc Hout].
  - right; left. split; [done|]. by intros ? ?.
  - apply foreign_facts in Hf as (Hu & Hi & _ & _). apply create_answer_error; auto.
  - left. split; [done|]. exists o. split; [done|]. destruct (int_row _ _ HI _ _ Ho) as (<- & _).
    split; eauto.
  - destruct (int_row _ _ HI _ _ Ho) as (<- & _).
    eapply outcome_answer; [by intros ? ?|exact Ho|exact Hp|done|done|by right|exact Hout].
  - pose proof Hc as (E & _ & _ & _ & _ & Hs)%created_row. apply rows_kept_created in Hc.
    eapply outcome_answer; [done|by rewrite E, lookup_insert_eq|done..|by left|done].
Qed.

(** What the answer to a cancellation says of the tables. *)
Definition cancel_answer (uuid_in : string -> option string) (id : string) (v : view)
    (resp : response) (v' : view) : Prop :=
  (code resp = StatusOK /\
     exists c o, uuid_in id = Some c /\ orders v !! c = Some o /\ Order.Status o = StatusPending /\
       body resp = toOrderResponse (Some (Order.set_Status StatusCancelled o)) /\
       orders v' = <[c := Order.set_Status StatusCancelled o]> (orders v)) \/
  (code resp = StatusNotFound /\
     orders v' = orders v /\ exists c, uuid_in id = Some c /\ orders v !! c = None) \/
  (code resp = StatusConflict /\ orders v' = orders v /\
     exists c o, uuid_in id = Some c /\ orders v !! c = Some o /\ Order.Status o <> StatusPending) \/
  (code resp = StatusInternalServerError /\
     (orders v' = orders v \/
      exists c o, orders v !! c = Some o /\ Order.Status o = StatusPending /\
        orders v' = <[c := Order.set_Status StatusCancelled o]> (orders v))).

Lemma cancel_answered uuid_in id v r v' :
  cancel_outcome uuid_in id v r v' -> cancel_answer uuid_in id v (Handlers.cancel_response r) v'.
Proof.
  unfold cancel_answer, Handlers.cancel_response. destruct 1 as [e Hf|c ? ?|c o|c o e v' ? ? ? Hf Hv|c o v'].
  - apply foreign_facts in Hf as (_ & _ & -> & ->). auto 10.
  - right; left. eauto.
  - right; right; left. eauto 8.
  - apply foreign_facts in Hf as (_ & _ & -> & ->). do 3 right. split; [done|].
    destruct Hv as [->|Hv]; [by left|]. right. by exists c, o.
  - left. split; [done|]. by exists c, o.
Qed.

(** ** The properties *)

Section HttpProperties.
Context {W : Type} (h : handler portE W) (obs : W -> view).
Context (uuid_in : string -> option string) (tstz : Z -> Z) (cache_on : bool).
Context `{!Refines h obs (ports_spec uuid_in tstz)}.
Context (ShouldBindJSON : string -> option createOrderRequest.t).

(** C25. POST /orders is always answered, and the status code tells the truth
    about the tables whatever fails: 200 carries an order whose row is stored with
    that final status, 400 leaves every existing row as it was, 503 carries an
    order whose row is still pending and leaves the others alone, and the only
    other code is 502. *)
Theorem create_handler_answers text header w :
  integrity uuid_in (obs w) ->
  exists resp w', run h (Handlers.CreateOrder ShouldBindJSON cache_on text header) w = (Done resp, w') /\
    create_answer tstz (obs w) resp (obs w').
Proof.
  intros HI. unfold Handlers.CreateOrder. destruct (ShouldBindJSON text) as [req|].
  - eapply (holds_run (ports_spec uuid_in tstz) h obs _
              (fun resp v' => create_answer tstz (obs w) resp v')).
    apply holds_bind. eapply holds_mono; [by apply create_all|].
    intros r v' Hr. apply holds_ret. by eapply create_answered.
  - do 2 eexists. split; [done|]. right; left. split; [done|]. by intros ? ?.
Qed.

(** PATCH /orders/:id/cancel is always answered: 200 exactly for a pending
    order, which is then stored as cancelled and nothing else changed; 404 for an
    id of no order; 409 for an order that is not pending; 500 otherwise (a failed
    or unacknowledged update, and an id that is no UUID). *)
Theorem cancel_handler_answers param w :
  exists resp w', run h (Handlers.CancelOrder cache_on param) w = (Done resp, w') /\
    cancel_answer uuid_in (TrimSpace param) (obs w) resp (obs w').
Proof.
  eapply (holds_run (ports_spec uuid_in tstz) h obs _
            (fun resp v' => cancel_answer uuid_in (TrimSpace param) (obs w) resp v')).
  apply holds_bind. eapply holds_mono; [apply (cancel_all uuid_in tstz)|].
  intros r v' Hr. apply holds_ret. by apply cancel_answered.
Qed.
End HttpProperties.

(** A binder as gin's: decode the body, check the tags. *)
Definition bind_order (text : string) : option createOrderRequest.t :=
  match unmarshal createOrderRequest.fields text (createOrderRequest.mk "" "" "" 0) with
  | Some r => if createOrderRequest.tags r then Some r else None
  | None => None
  end.

Definition sample_body : string :=
  marshal [("customer_id", jstring "customer-1"); ("customer_email", jstring "ann@example.com");
           ("item_name", jstring "keyboard"); ("amount", jint 500)].

Lemma create_handler_answers_witness :
  exists resp w', run mem_ports (Handlers.CreateOrder bind_order true sample_body " k ")
      (mem_start [] [PayStatus "txn-1" "Authorized"] ["0a1b"]) = (Done resp, w') /\
    create_answer mem_tstz empty_view resp (m_view w').
Proof.
  apply (create_handler_answers mem_ports m_view mem_uuid_in mem_tstz true bind_order).
  exact empty_integrity.
Defined.

Lemma cancel_handler_answers_witness :
  exists resp w', run mem_ports (Handlers.CancelOrder true "0a1b")
      (mem_start [sample_order StatusPending] [] []) = (Done resp, w') /\
    cancel_answer mem_uuid_in (TrimSpace "0a1b")
      (m_view (mem_start [sample_order StatusPending] [] [])) resp (m_view w').
Proof.
  exact (cancel_handler_answers mem_ports m_view mem_uuid_in mem_tstz true "0a1b" _).
Defined.

(** The whole path on a concrete body: decoded, stored, paid, answered. *)
Example create_handler_run :
  fst (run mem_ports (Handlers.CreateOrder bind_order true sample_body "")
        (mem_start [] [PayStatus "txn-1" "Authorized"] ["0a1b"])) =
  Done (Response 200 (toOrderResponse (Some (sample_order StatusPaid)))).
Proof. vm_compute. reflexivity. Qed.
