(* ===== verification/OrderInfraProps.v ===== *)
(** * Order service: the properties of the adapters *)

From S2P Require Import Prelude GoLib Json GoTime Proto OrderPorts OrderUsecase OrderMem.
From S2P Require Import OrderUsecaseProps OrderRepo OrderCache PaymentClients OrderInfra OrderInfraMem.

(** ** The adapters implement the ports *)

(** C8. The repository, the Redis store and the gRPC client together keep the
    promise the use cases rely on, over any database, Redis and gRPC stub that
    behave as documented: lookups and updates hit the named row or fail, a
    creation is all or nothing and reuses the order of a known key (one
    transaction), cache entries decode to what was stored, and no adapter
    panics.  So every property of the use cases holds of the running service. *)
Theorem ports_refined {Timestamp W : Type} (h : handler (infraE Timestamp) W) (obs : W -> infra)
    (uuid_in : string -> option string) (tstz : Z -> Z) :
  Refines h obs (infra_spec uuid_in tstz) ->
  Refines (implement h ports) (fun w => visible (obs w)) (ports_spec uuid_in tstz).
Proof.
  intros Hr. exact (implement_refines h obs visible ports (infra_spec uuid_in tstz)
    (ports_spec uuid_in tstz) (ports_kept uuid_in tstz)).
Qed.

Lemma ports_refined_witness :
  Refines (implement infra_mem ports) (fun w => visible (im_infra w))
    (ports_spec mem_uuid_in mem_tstz).
Proof. exact (ports_refined infra_mem im_infra mem_uuid_in mem_tstz infra_mem_refines). Defined.

(** ** The cache *)

(** [Store.Set] and then [Store.Get] of the same order. *)
Definition set_then_get (o : Order.t) (ttl : Z) :
    prog redisE (option error * (option Order.t * option error)) :=
  err ← Store.Set_ true (Some o) ttl;
  r ← Store.Get true (Order.ID o);
  mret (err, r).

(** C33. An order that the table's columns can hold survives the cache: encoding
    it never fails, and once the write is acknowledged a read gives the same order
    back, field for field, or nothing (the entry expired), or an error of Redis;
    never a different order. *)
Theorem cached_order_read_back {W : Type} (h : handler redisE W) (obs : W -> gmap string string)
    `{!Refines h obs redis_spec} o ttl w :
  storable o = true ->
  exists err r w', run h (set_then_get o ttl) w = (Done (err, r), w') /\
    (err = None -> r = (Some o, None) \/ r = (None, None) \/
                   exists e, r = (None, Some (Errorf_w "redis get: " e))).
Proof.
  intros (s & Hs & Hu)%Unmarshal_Marshal.
  assert (holds redis_spec (set_then_get o ttl) (fun x _ => x.1 = None ->
     x.2 = (Some o, None) \/ x.2 = (None, None) \/
     exists e, x.2 = (None, Some (Errorf_w "redis get: " e))) (obs w)) as Hh.
  { unfold set_then_get, Store.Set_, Store.Get. cbn [negb]. rewrite Hs.
    hrun; simpl in *; try done; intros; rewrite ?lookup_insert_eq in *; simplify_eq; eauto. }
  destruct (holds_run redis_spec h obs _ _ w Hh) as ([err r] & w' & Hrun & Hr). eauto.
Qed.

Definition redis_calm : handler redisE (gmap string string) := fun X e m =>
  let '(x, m') := redis_mem X e false m in (Done x, m').
#[export] Instance redis_calm_refines : Refines redis_calm id redis_spec.
Proof.
  intros X e m. unfold redis_calm. destruct (redis_mem X e false m) as [x m'] eqn:E.
  do 2 eexists. split; [done|]. by apply redis_mem_ok in E.
Qed.

Lemma cached_order_read_back_witness :
  exists err r w', run redis_calm (set_then_get (sample_order StatusPaid) 300) ∅ = (Done (err, r), w') /\
    (err = None -> r = (Some (sample_order StatusPaid), None) \/ r = (None, None) \/
                   exists e, r = (None, Some (Errorf_w "redis get: " e))).
Proof.
  apply (cached_order_read_back redis_calm id (sample_order StatusPaid) 300 ∅).
  vm_compute. reflexivity.
Defined.

(** The key and the text in Redis. *)
Example cached_text :
  snd (run redis_calm (Store.Set_ true (Some (sample_order StatusPaid)) 300) ∅) !! "order:0a1b"
  = Some (marshal (OrderJSON.members (sample_order StatusPaid)
            (JStr (lit "1970-01-01T00:00:00Z")))).
Proof. vm_compute. reflexivity. Qed.

(** ** The gRPC payment client's errors *)

(** What [PaymentClient.Authorize] makes of a failed call: InvalidArgument is
    an invalid argument, Internal and an error without a status are
    unavailability, and every other status (Unavailable, DeadlineExceeded and
    AlreadyExists among them) is an ordinary failure; a recorded payment is never
    reported, so the use case never asks for the payment's status. *)
Theorem authorize_error_table {Timestamp W : Type} (h : handler (payE Timestamp) W) id amount email w err w' :
  h _ (RpcAuthorizePayment (AuthorizePaymentRequest.mk id amount email)) w = (Done (inr err), w') ->
  exists e, run h (PaymentClient.Authorize id amount email) w = (Done ("", "", Some e), w') /\
    err_ptr_eq e ErrPaymentAlreadyRecorded = false /\
    (e = ErrPaymentInvalidArgument <-> status_FromError err = Some InvalidArgument) /\
    (e = ErrPaymentUnavailable <->
       status_FromError err = Some Internal \/ status_FromError err = None) /\
    (e = Errorf_w "payment authorization failed: " err <->
       exists c, status_FromError err = Some c /\ c <> InvalidArgument /\ c <> Internal).
Proof.
  intros Hh. exists (PaymentClient.authorize_error err).
  unfold PaymentClient.Authorize. split.
  { by rewrite run_call_bind, Hh. }
  unfold PaymentClient.authorize_error, InvalidArgument, Internal.
  destruct (status_FromError err) as [c|]; [|naive_solver].
  destruct (Z.eqb_spec c 3) as [->|H3]; [naive_solver|].
  destruct (Z.eqb_spec c 13) as [->|H13]; naive_solver.
Qed.

Definition pay_down (code : Z) : handler (payE unit) (list (string * string)) := fun X e l =>
  let '(x, l') := pay_mem X e (inr (status_Error code "connection error")) l in (Done x, l').

Lemma authorize_error_table_witness :
  let err := status_Error Unavailable "connection error" in
  exists e, run (pay_down Unavailable) (PaymentClient.Authorize "0a1b" 500 "ann@example.com") [] =
      (Done ("", "", Some e), []) /\
    err_ptr_eq e ErrPaymentAlreadyRecorded = false /\
    (e = ErrPaymentInvalidArgument <-> status_FromError err = Some InvalidArgument) /\
    (e = ErrPaymentUnavailable <->
       status_FromError err = Some Internal \/ status_FromError err = None) /\
    (e = Errorf_w "payment authorization failed: " err <->
       exists c, status_FromError err = Some c /\ c <> InvalidArgument /\ c <> Internal).
Proof.
  exact (authorize_error_table (pay_down Unavailable) "0a1b" 500 "ann@example.com" []
           (status_Error Unavailable "connection error") [] eq_refl).
Defined.

(** ** The service on concrete requests *)

Definition stack_start (pay : list (string * string + error)) : imem :=
  IMem empty_infra [] pay ["0a1b"; "0c2d"] 0.
Definition stack_run (rs : list request) (w : imem) : outcome _ * imem :=
  run infra_mem (interp ports (run_requests true 300 rs)) w.
Definition stored_status (id : string) (w : imem) : option string :=
  Order.Status <$> t_orders (pg_committed (i_pg (im_infra w))) !! id.

(** When the payment service cannot be reached or does not answer in time
    (Unavailable, DeadlineExceeded), the order is stored as Failed, for good,
    although the payment may have been authorized; when it answers Internal, the
    order stays Pending and can be retried. *)
Theorem unreachable_payment_fails_order :
  let after code := snd (stack_run [ReqCreate (sample_input (Some "k"))]
                           (stack_start [inr (status_Error code "no answer")])) in
  stored_status "0a1b" (after Unavailable) = Some StatusFailed /\
  stored_status "0a1b" (after DeadlineExceeded) = Some StatusFailed /\
  stored_status "0a1b" (after Internal) = Some StatusPending.
Proof. vm_compute. split_and!; reflexivity. Qed.

(** A retried creation through the whole stack: the payment service answers
    Internal, then authorizes; one row, paid. *)
Example retried_creation :
  let '(r, w) := stack_run [ReqCreate (sample_input (Some "k")); ReqGet "0a1b";
                            ReqCreate (sample_input (Some "k"))]
                   (stack_start [inr (status_Error Internal "busy"); inl ("txn-1", "Authorized")]) in
  stored_status "0a1b" w = Some StatusPaid /\ stored_status "0c2d" w = None /\
  i_redis (im_infra w) = ∅.
Proof. vm_compute. split_and!; reflexivity. Qed.
