(* ===== verification/OrderStream.v ===== *)
(** * Order service: the stream of order updates

    [OrderServer] of internal/transport/grpc/server.go: clients subscribe to an
    order, a goroutine polls the table and every change of a watched order's
    status is sent to its subscribers, each by a goroutine of its own.

    The memory has the map of subscribers as Go has it: slices over shared backing
    arrays, appended to and shortened in place.  What the code does under [s.mu] is
    one call of the model (the lock lets nobody in between); what it does without
    the lock is a call each: [notifySubscribers] reads the elements of the slice
    it found one by one, after it released the lock, and a [close] of a channel
    that is closed panics.  A [Send] on a stream is one call, which is done or fails,
    also where two goroutines send on the same stream at once; gRPC promises nothing for
    that case, and what it would do then is not modelled.  A subscription's object is allocated under the lock
    here, a line after the code does; nobody else sees it before. *)

From S2P Require Import Prelude Goroutines GoLib OrderPorts Proto.

Module OrderUpdateSubscriber.
(** [done] is the channel made for this subscriber, so equal records are the same
    object. *)
Record t := mk { stream : nat; orderID : string; done : nat }.
#[global] Instance eq_dec : EqDecision t.
Proof. solve_decision. Defined.
#[global] Instance countable : Countable t.
Proof.
  apply (inj_countable' (fun s => (stream s, orderID s, done s)) (fun '(i, id, d) => mk i id d)). by intros [].
Defined.
End OrderUpdateSubscriber.

(** ** Slices of subscribers *)

Record slice := Slice { array : nat; len : nat; cap : nat }.
Definition nil_slice : slice := Slice 0 0 0.

(** An element of a backing array: a pointer, nil in the part not used yet. *)
Notation cell := (option OrderUpdateSubscriber.t).

Fixpoint index_of (s : OrderUpdateSubscriber.t) (cs : list cell) : option nat :=
  match cs with
  | [] => None
  | c :: cs => if bool_decide (c = Some s) then Some 0%nat else S <$> index_of s cs
  end.

(** [s.subs] with the arrays its slices stand on; [channels] counts the [done]
    channels made so far. *)
Record registry := Registry {
  subs : gmap string slice;
  arrays : list (list cell);
  channels : nat
}.

Module Registry.
Section Registry.
(** The capacity [append] gives a slice of [n] elements that is full. *)
Context (grow : nat -> nat).

Definition empty : registry := Registry ∅ [] 0.

Definition lookup (r : registry) (orderID : string) : slice := default nil_slice (subs r !! orderID).
Definition cells (r : registry) (a : nat) : list cell := default [] (arrays r !! a).
Definition elements (r : registry) (sl : slice) : list cell := take (len sl) (cells r (array sl)).

(** [append(sl, c)]: the slice it returns, and the arrays. *)
Definition append (sl : slice) (c : cell) (r : registry) : slice * list (list cell) :=
  if (len sl <? cap sl)%nat then
    (Slice (array sl) (S (len sl)) (cap sl), alter <[len sl := c]> (array sl) (arrays r))
  else
    let n := grow (len sl) in
    (Slice (length (arrays r)) (S (len sl)) n,
     (arrays r ++ [elements r sl ++ c :: replicate (n - S (len sl)) None])%list).

(** [append(sl[:i], sl[i+1:]...)], which always fits. *)
Definition cut (sl : slice) (i : nat) (r : registry) : slice * list (list cell) :=
  (Slice (array sl) (len sl - 1) (cap sl),
   alter (fun a => take i a ++ drop (S i) (take (len sl) a) ++ drop (len sl - 1) a)%list (array sl)
     (arrays r)).

(** The part of [SubscribeToOrderUpdates] under the lock. *)
Definition add (stream : nat) (orderID : string) (r : registry) : OrderUpdateSubscriber.t * registry :=
  let s := OrderUpdateSubscriber.mk stream orderID (channels r) in
  let '(sl, arrs) := append (lookup r orderID) (Some s) r in
  (s, Registry (<[orderID := sl]> (subs r)) arrs (S (channels r))).

Definition removeSubscriber (s : OrderUpdateSubscriber.t) (r : registry) : registry :=
  let id := OrderUpdateSubscriber.orderID s in
  let sl := lookup r id in
  let r1 :=
    match index_of s (elements r sl) with
    | Some i => let '(sl', arrs) := cut sl i r in Registry (<[id := sl']> (subs r)) arrs (channels r)
    | None => r
    end in
  if (len (lookup r1 id) =? 0)%nat
  then Registry (delete id (subs r1)) (arrays r1) (channels r1) else r1.
End Registry.
End Registry.

(** ** Calls *)

Section Calls.
Context (Timestamp : Type).

Inductive streamE : Type -> Type :=
| QueryOrder (orderID : string) : streamE (Order.t * option error)
| AddSubscriber (stream : nat) (orderID : string) : streamE OrderUpdateSubscriber.t
| RemoveSubscriber (s : OrderUpdateSubscriber.t) : streamE unit
| OrderIDs : streamE (list string)
| Subscribers (orderID : string) : streamE slice
| Element (sl : slice) (i : nat) : streamE cell
| Send (stream : nat) (u : OrderStatusUpdate.t Timestamp) : streamE (option error)
| Close (s : OrderUpdateSubscriber.t) : streamE unit
| WaitDone (s : OrderUpdateSubscriber.t) : streamE unit
| Now : streamE Z
| Select : streamE bool
| GoSend (s : cell) (u : OrderStatusUpdate.t Timestamp) : streamE unit.
End Calls.
Arguments QueryOrder {Timestamp} _.
Arguments AddSubscriber {Timestamp} _ _.
Arguments RemoveSubscriber {Timestamp} _.
Arguments OrderIDs {Timestamp}.
Arguments Subscribers {Timestamp} _.
Arguments Element {Timestamp} _ _.
Arguments Send {Timestamp} _ _.
Arguments Close {Timestamp} _.
Arguments WaitDone {Timestamp} _.
Arguments Now {Timestamp}.
Arguments Select {Timestamp}.
Arguments GoSend {Timestamp} _ _.

(** ** The server *)

Module OrderServer.
Section OrderServer.
Context {Timestamp : Type} (timestamppb_New : Z -> Timestamp).

Definition update : Type := OrderStatusUpdate.t Timestamp.
Definition goroutine : Type := prog (streamE Timestamp) (option error).

Definition getOrder (orderID : string) : prog (streamE Timestamp) (Order.t + error) :=
  '(order, err) ← call (QueryOrder orderID);
  match err with Some err => mret (inr err) | None => mret (inl order) end.

(** The message both senders build. *)
Definition status_update (order : Order.t) (now : Z) : update :=
  OrderStatusUpdate.mk (Order.ID order) (Order.CustomerID order) (Order.ItemName order)
    (Order.Amount order) (Order.Status order) (Some (timestamppb_New now)).

(** The end of [SubscribeToOrderUpdates]: keep the stream alive until [done] is
    closed. *)
Definition wait_for_end (subscriber : OrderUpdateSubscriber.t) : goroutine :=
  _ ← call (WaitDone subscriber);
  _ ← call (RemoveSubscriber subscriber);
  mret None.

Definition SubscribeToOrderUpdates (req : OrderRequest.t) (stream : nat) : goroutine :=
  if String.eqb (OrderRequest.OrderId req) ""
  then mret (Some (status_Error InvalidArgument "order_id is required")) else
  r ← getOrder (OrderRequest.OrderId req);
  match r with
  | inr _ => mret (Some (status_Error NotFound ("order not found: " ++ OrderRequest.OrderId req)))
  | inl order =>
      subscriber ← call (AddSubscriber stream (OrderRequest.OrderId req));
      now ← call Now;
      err ← call (Send stream (status_update order now));
      match err with
      | Some err => mret (Some err)
      | None => wait_for_end subscriber
      end
  end.

(** [for _, sub := range subscribers { go func ... }]: the slice is the one found
    at the start, its elements are read as the loop comes to them. *)
Fixpoint notify_from (i n : nat) (subscribers : slice) (u : update) : prog (streamE Timestamp) unit :=
  match n with
  | O => mret tt
  | S n =>
      sub ← call (Element subscribers i);
      _ ← call (GoSend sub u);
      notify_from (S i) n subscribers u
  end.

Definition notifySubscribers (orderID : string) (order : Order.t) : prog (streamE Timestamp) unit :=
  subscribers ← call (Subscribers orderID);
  now ← call Now;
  notify_from 0 (len subscribers) subscribers (status_update order now).

(** The function started for each subscriber. *)
Definition deliver (sub : cell) (u : update) : goroutine :=
  match sub with
  | None => Panic nil_dereference
  | Some subscriber =>
      err ← call (Send (OrderUpdateSubscriber.stream subscriber) u);
      match err with
      | Some _ => _ ← call (Close subscriber); mret None
      | None => mret None
      end
  end.

(** The loop of [checkForUpdates]; it returns [lastStatuses], which the code
    updates in place. *)
Fixpoint check_orders (orderIDs : list string) (lastStatuses : gmap string string) :
    prog (streamE Timestamp) (gmap string string) :=
  match orderIDs with
  | [] => mret lastStatuses
  | orderID :: orderIDs =>
      r ← getOrder orderID;
      match r with
      | inr _ => check_orders orderIDs lastStatuses
      | inl order =>
          match lastStatuses !! orderID with
          | None => check_orders orderIDs (<[orderID := Order.Status order]> lastStatuses)
          | Some lastStatus =>
              if String.eqb (Order.Status order) lastStatus then check_orders orderIDs lastStatuses
              else
                _ ← notifySubscribers orderID order;
                check_orders orderIDs (<[orderID := Order.Status order]> lastStatuses)
          end
      end
  end.

Definition checkForUpdates (lastStatuses : gmap string string) :
    prog (streamE Timestamp) (gmap string string) :=
  orderIDs ← call OrderIDs;
  check_orders orderIDs lastStatuses.

(** The polling loop, for up to [ticks] rounds: any run of the server is one of
    enough rounds. [Select] answers true when the context is done. *)
Fixpoint monitor (ticks : nat) (lastStatuses : gmap string string) : goroutine :=
  match ticks with
  | O => mret None
  | S ticks =>
      stop ← call Select;
      if stop : bool then mret None else
      lastStatuses ← checkForUpdates lastStatuses;
      monitor ticks lastStatuses
  end.

Definition monitorDatabaseChanges (ticks : nat) : goroutine := monitor ticks ∅.

(** ** The memory *)

(** [tables]: the orders table, now and before, newest first; [closed]: the
    subscribers whose channel [done] is closed; [streams]: the order
    id each call of the RPC asked for; [sent]: what the streams took, newest
    first. *)
Record state := State {
  tables : list (gmap string Order.t);
  reg : registry;
  closed : gset OrderUpdateSubscriber.t;
  streams : list string;
  broken : gset nat;
  sent : list (nat * update);
  stopped : bool
}.

Definition orders_now (m : state) : gmap string Order.t := default ∅ (head (tables m)).
Definition set_reg (r : registry) (m : state) : state :=
  State (tables m) r (closed m) (streams m) (broken m) (sent m) (stopped m).
Definition set_closed (c : gset OrderUpdateSubscriber.t) (m : state) : state :=
  State (tables m) (reg m) c (streams m) (broken m) (sent m) (stopped m).
Definition set_sent (l : list (nat * update)) (m : state) : state :=
  State (tables m) (reg m) (closed m) (streams m) (broken m) l (stopped m).

(** What the code does not decide: a failure of the database or of a stream, the
    clock, the order in which Go ranges over a map, and which ready case [select]
    takes. *)
Record luck := Luck { fault : option error; time : Z; keys : list string; stop_first : bool }.

Context (uuid_in : string -> option string) (grow : nat -> nat).

Definition no_order : Order.t := Order.mk "" "" "" 0 "" 0.
Definition close_of_closed : string := "close of closed channel".

(** [QueryRow(...).Scan(...)] into a fresh variable. *)
Definition query_order (orderID : string) (m : state) : Order.t * option error :=
  match uuid_in orderID with
  | None => (no_order, Some (ErrorNew "pq: invalid input syntax for type uuid"))
  | Some c =>
      match orders_now m !! c with
      | None => (no_order, Some sql_ErrNoRows)
      | Some o => (o, None)
      end
  end.

Definition range_keys (l : luck) (r : registry) : list string :=
  let ks := (map_to_list (subs r)).*1 in
  if bool_decide (keys l ≡ₚ ks) then keys l else ks.

Definition exec {X} (e : streamE Timestamp X) (l : luck) (m : state) : reply state X :=
  match e in streamE _ X return reply state X with
  | QueryOrder id =>
      match fault l with
      | Some e => Answer (no_order, Some e) m
      | None => Answer (query_order id m) m
      end
  | AddSubscriber stream id =>
      let '(s, r) := Registry.add grow stream id (reg m) in Answer s (set_reg r m)
  | RemoveSubscriber s => Answer tt (set_reg (Registry.removeSubscriber s (reg m)) m)
  | OrderIDs => Answer (range_keys l (reg m)) m
  | Subscribers id => Answer (Registry.lookup (reg m) id) m
  | Element sl i =>
      match Registry.cells (reg m) (array sl) !! i with
      | Some c => Answer c m
      | None => Crash "index out of range"
      end
  | Send stream u =>
      match fault l with
      | Some e => Answer (Some e) m
      | None =>
          if bool_decide (stream ∈ broken m) then Answer (Some (ErrorNew "transport is closing")) m
          else Answer None (set_sent ((stream, u) :: sent m) m)
      end
  | Close s =>
      if bool_decide (s ∈ closed m) then Crash close_of_closed
      else Answer tt (set_closed ({[s]} ∪ closed m) m)
  | WaitDone s =>
      if bool_decide (s ∈ closed m) then Answer tt m else Block
  | Now => Answer (time l) m
  | Select => Answer (stopped m && stop_first l) m
  | GoSend _ _ => Answer tt m
  end.

Definition started {X} (e : streamE Timestamp X) : list goroutine :=
  match e with GoSend s u => [deliver s u] | _ => [] end.

(** What reaches the server from outside: a call of the RPC, a write to the orders
    table, a client that goes away, and [Stop]. *)
Inductive arrival : Type :=
| Subscribe (req : OrderRequest.t)
| RowWritten (o : Order.t)
| Disconnected (stream : nat)
| Stop.

Definition arrive (a : arrival) (m : state) : state * list goroutine :=
  match a with
  | Subscribe req =>
      (State (tables m) (reg m) (closed m) (streams m ++ [OrderRequest.OrderId req])%list (broken m)
         (sent m) (stopped m), [SubscribeToOrderUpdates req (length (streams m))])
  | RowWritten o =>
      (State (<[Order.ID o := o]> (orders_now m) :: tables m) (reg m) (closed m) (streams m)
         (broken m) (sent m) (stopped m), [])
  | Disconnected stream =>
      (State (tables m) (reg m) (closed m) (streams m) ({[stream]} ∪ broken m) (sent m) (stopped m), [])
  | Stop =>
      (State (tables m) (reg m) (closed m) (streams m) (broken m) (sent m) true, [])
  end.

(** [NewOrderServer]: nobody subscribed, and the monitor running. *)
Definition NewOrderServer (ticks : nat) (orders : gmap string Order.t) :
    gpool (streamE Timestamp) state (option error) :=
  GPool [monitorDatabaseChanges ticks]
    (State [orders] Registry.empty ∅ [] ∅ [] false) None.

Definition serve (evs : list (event luck arrival)) (s : gpool (streamE Timestamp) state (option error)) :
    gpool (streamE Timestamp) state (option error) :=
  play (@exec) (@started) arrive evs s.
End OrderServer.
End OrderServer.
