(* ===== verification/OrderStreamFacts.v ===== *)
(** * Order service: the subscriber map is a map of lists

    Slices over shared arrays, appended to and cut in place, behave as a map from
    order ids to lists of subscribers; and a slice that was read earlier keeps
    pointing at subscribers of the same order. *)

From S2P Require Import Prelude Goroutines GoLib OrderPorts Proto OrderStream.
Import OrderUpdateSubscriber Registry.

Definition cell_at (r : registry) (a i : nat) : option cell := arrays r !! a ≫= (.!! i).

(** What the map means. *)
Definition contents (r : registry) : gmap string (list OrderUpdateSubscriber.t) :=
  (fun sl => omap id (elements r sl)) <$> subs r.

(** What adding and removing mean. *)
Definition list_of (m : gmap string (list OrderUpdateSubscriber.t)) (id : string) :=
  default [] (m !! id).
Definition add_spec (s : OrderUpdateSubscriber.t) (m : gmap string (list OrderUpdateSubscriber.t)) :=
  <[orderID s := (list_of m (orderID s) ++ [s])%list]> m.
Definition remove_spec (s : OrderUpdateSubscriber.t) (m : gmap string (list OrderUpdateSubscriber.t)) :=
  let l := filter (fun x => x <> s) (list_of m (orderID s)) in
  if decide (l = []) then delete (orderID s) m else <[orderID s := l]> m.

(** A slice that holds exactly the subscribers [l]. *)
Record holds_list (r : registry) (id : string) (sl : slice) (l : list OrderUpdateSubscriber.t) : Prop := {
  hl_cells : exists cs, arrays r !! array sl = Some cs /\ length cs = cap sl /\
               take (len sl) cs = Some <$> l;
  hl_len : len sl = length l;
  hl_cap : (len sl <= cap sl)%nat;
  hl_nonempty : l <> [];
  hl_order : forall s, s ∈ l -> orderID s = id /\ (done s < channels r)%nat;
  hl_nodup : NoDup l
}.

(** Every slice of the map is well formed, no two share an array, and an array
    only ever holds subscribers of one order. *)
Record wf (r : registry) : Prop := {
  wf_slice : forall id sl, subs r !! id = Some sl -> exists l, holds_list r id sl l;
  wf_disjoint : forall id1 id2 sl1 sl2, subs r !! id1 = Some sl1 -> subs r !! id2 = Some sl2 ->
      array sl1 = array sl2 -> id1 = id2;
  wf_owner : forall a i j s s', cell_at r a i = Some (Some s) -> cell_at r a j = Some (Some s') ->
      orderID s = orderID s'
}.

Section Registry.
Context (grow : nat -> nat).

Lemma holds_list_elements r id sl l : holds_list r id sl l -> elements r sl = Some <$> l.
Proof.
  intros [(cs & Hc & _ & Ht) _ _ _ _ _]. unfold elements, cells. by rewrite Hc.
Qed.

Lemma omap_some {A} (l : list A) : omap id (Some <$> l) = l.
Proof. induction l as [|x l IH]; csimpl; [done|by rewrite IH]. Qed.

Lemma contents_lookup r id sl l :
  subs r !! id = Some sl -> holds_list r id sl l -> contents r !! id = Some l.
Proof.
  intros Hs Hl. unfold contents. rewrite lookup_fmap, Hs. simpl.
  by rewrite (holds_list_elements _ _ _ _ Hl), omap_some.
Qed.

Lemma contents_none r id : subs r !! id = None -> contents r !! id = None.
Proof. intros Hs. unfold contents. by rewrite lookup_fmap, Hs. Qed.

(** A slice keeps its list as long as its own cells are kept. *)
Lemma holds_list_kept r r' id sl l :
  holds_list r id sl l -> arrays r' !! array sl = arrays r !! array sl ->
  (channels r <= channels r')%nat -> holds_list r' id sl l.
Proof.
  intros [(cs & Hc & ? & ?) ? ? ? Ho ?] Ha Hch. split; [|done..| |done].
  - exists cs. by rewrite Ha.
  - intros s Hs. destruct (Ho s Hs) as [? ?]. split; [done|lia].
Qed.

(** The meaning of a map with one key changed. *)
Lemma contents_insert r r' id sl l :
  wf r -> subs r' = <[id := sl]> (subs r) -> holds_list r' id sl l ->
  (forall id' sl', id' <> id -> subs r !! id' = Some sl' -> arrays r' !! array sl' = arrays r !! array sl') ->
  (channels r <= channels r')%nat ->
  contents r' = <[id := l]> (contents r).
Proof.
  intros Hwf Hsubs Hl Hkeep Hch. apply map_eq. intros i.
  destruct (decide (i = id)) as [->|Hne].
  - rewrite lookup_insert_eq. eapply contents_lookup; [|done]. rewrite Hsubs. apply lookup_insert_eq.
  - rewrite lookup_insert_ne by done.
    destruct (subs r !! i) as [sl'|] eqn:Hi.
    + destruct (wf_slice r Hwf _ _ Hi) as [l' Hl'].
      rewrite (contents_lookup r i sl' l' Hi Hl'). eapply contents_lookup.
      * rewrite Hsubs, lookup_insert_ne by done. exact Hi.
      * eapply holds_list_kept; [exact Hl'|by eapply Hkeep|done].
    + rewrite (contents_none r i Hi). apply contents_none.
      by rewrite Hsubs, lookup_insert_ne.
Qed.

(** ** Finding a subscriber *)

Lemma index_of_list s l i :
  index_of s (Some <$> l) = Some i -> l !! i = Some s /\ forall j, (j < i)%nat -> l !! j <> Some s.
Proof.
  revert i; induction l as [|x l IH]; intros i; csimpl; [done|].
  case_bool_decide as Hx; [intros [= <-]; simplify_eq; split; [done|lia]|].
  destruct (index_of s (Some <$> l)) as [k|] eqn:Hk; simpl; [|done]. intros [= <-].
  destruct (IH k eq_refl) as [? Hj]. split; [done|]. intros [|j] ?; simpl; [congruence|].
  apply Hj. lia.
Qed.

Lemma index_of_none s l : index_of s (Some <$> l) = None -> s ∉ l.
Proof.
  induction l as [|x l IH]; csimpl; [by intros _ ?%elem_of_nil|].
  case_bool_decide as Hx; [done|]. destruct (index_of s (Some <$> l)); simpl; [done|].
  intros _ [->|?]%elem_of_cons; [done|by apply IH].
Qed.

Lemma filter_out_absent (s : OrderUpdateSubscriber.t) (l : list OrderUpdateSubscriber.t) : s ∉ l -> filter (fun x => x <> s) l = l.
Proof.
  induction l as [|x l IH]; [done|]. intros [? ?]%not_elem_of_cons.
  rewrite filter_cons_True by done. by rewrite IH.
Qed.

Lemma filter_out_at (s : OrderUpdateSubscriber.t) (l : list OrderUpdateSubscriber.t) i :
  NoDup l -> l !! i = Some s -> filter (fun x => x <> s) l = (take i l ++ drop (S i) l)%list.
Proof.
  revert i; induction l as [|x l IH]; intros i Hnd Hi; [done|].
  apply NoDup_cons in Hnd as [Hx Hnd]. destruct i as [|i]; simpl in Hi.
  - simplify_eq. rewrite filter_cons_False by naive_solver. simpl. rewrite drop_0.
    by apply filter_out_absent.
  - rewrite filter_cons_True by (intros ->; apply Hx; by eapply list_elem_of_lookup_2).
    simpl. by rewrite (IH i).
Qed.

(** ** Adding *)

(** Cells that hold a subscriber keep holding one, of the same order. *)
Definition kept (r r' : registry) : Prop := forall a i s, cell_at r a i = Some (Some s) ->
  exists s', cell_at r' a i = Some (Some s') /\ orderID s' = orderID s.

(** No subscriber comes from nowhere. *)
Definition only_new (s : OrderUpdateSubscriber.t) (r r' : registry) : Prop := forall a i s',
  cell_at r' a i = Some (Some s') -> s' = s \/ exists a' j, cell_at r a' j = Some (Some s').

Lemma lookup_cases r id : wf r ->
  (subs r !! id = None /\ Registry.lookup r id = nil_slice /\ contents r !! id = None) \/
  (exists l, subs r !! id = Some (Registry.lookup r id) /\ holds_list r id (Registry.lookup r id) l /\
     contents r !! id = Some l).
Proof.
  intros Hwf. unfold Registry.lookup. destruct (subs r !! id) as [sl|] eqn:Hs; simpl.
  - right. destruct (wf_slice r Hwf id sl Hs) as [l Hl]. exists l. split_and!; [done..|].
    by eapply contents_lookup.
  - left. split_and!; [done..|]. by apply contents_none.
Qed.

Lemma holds_list_cell r id sl l i s :
  holds_list r id sl l -> l !! i = Some s -> cell_at r (array sl) i = Some (Some s).
Proof.
  intros [(cs & Hc & _ & Ht) Hlen _ _ _ _] Hi. unfold cell_at. rewrite Hc. simpl.
  assert (i < len sl)%nat by (apply lookup_lt_Some in Hi; lia).
  rewrite <-(lookup_take_lt cs (len sl) i) by done. by rewrite Ht, list_lookup_fmap, Hi.
Qed.

(** The first element tells whose array it is. *)
Lemma array_owner r id sl l a i s :
  wf r -> holds_list r id sl l -> a = array sl -> cell_at r a i = Some (Some s) -> orderID s = id.
Proof.
  intros Hwf Hl -> Hs. destruct l as [|x l']; [by destruct (hl_nonempty _ _ _ _ Hl)|].
  rewrite <-(proj1 (hl_order _ _ _ _ Hl x ltac:(left))).
  eapply (wf_owner r Hwf); [exact Hs|]. by eapply (holds_list_cell _ _ _ _ 0).
Qed.

Lemma take_snoc {A} (cs : list A) n c :
  (n < length cs)%nat -> take (S n) (<[n := c]> cs) = (take n cs ++ [c])%list.
Proof.
  intros Hn. rewrite (take_S_r _ _ c) by by apply list_lookup_insert_eq.
  by rewrite take_insert_ge.
Qed.

Lemma cell_at_alter r r' (f : list cell -> list cell) a0 :
  arrays r' = alter f a0 (arrays r) -> forall a i,
  cell_at r' a i = if decide (a = a0) then (f <$> arrays r !! a0) ≫= (.!! i) else cell_at r a i.
Proof.
  intros E a i. unfold cell_at. rewrite E. case_decide as Ha.
  - subst. by rewrite list_lookup_alter_eq.
  - by rewrite list_lookup_alter_ne.
Qed.

Lemma new_done r id sl l stream :
  holds_list r id sl l -> OrderUpdateSubscriber.mk stream id (channels r) ∉ l.
Proof. intros Hl [_ Hd]%(hl_order _ _ _ _ Hl). simpl in Hd. lia. Qed.

(** A change of one key's slice, whose array no other key uses. *)
Lemma wf_change r r' id sl l :
  wf r -> subs r' = <[id := sl]> (subs r) -> holds_list r' id sl l ->
  (channels r <= channels r')%nat ->
  (forall id' sl', id' <> id -> subs r !! id' = Some sl' ->
     array sl' <> array sl /\ arrays r' !! array sl' = arrays r !! array sl') ->
  (forall a i x, cell_at r' a i = Some (Some x) ->
     (a = array sl /\ orderID x = id) \/ (a <> array sl /\ cell_at r a i = Some (Some x))) ->
  wf r' /\ contents r' = <[id := l]> (contents r).
Proof.
  intros Hwf Hsubs Hl Hch Hother Hcell. split.
  2: { eapply contents_insert; [done..| |done]. intros id' sl' ? ?. by eapply Hother. }
  split.
  - intros id' sl'. rewrite Hsubs. intros [[<- <-]|[Hne Hs']]%lookup_insert_Some; [by eexists|].
    destruct (wf_slice r Hwf _ _ Hs') as [l' Hl'']. exists l'. eapply holds_list_kept; [done| |done].
    by apply (Hother id').
  - intros id1 id2 sl1 sl2. rewrite Hsubs.
    intros [[Ei1 Es1]|[H1n H1]]%lookup_insert_Some [[Ei2 Es2]|[H2n H2]]%lookup_insert_Some Heq; subst;
      try done.
    + by destruct (Hother id2 sl2 (not_eq_sym H2n) H2) as [[] _].
    + by destruct (Hother id1 sl1 (not_eq_sym H1n) H1) as [[] _].
    + by eapply (wf_disjoint r Hwf).
  - intros a i j x x' [[? Ex]|[Hn Hx]]%Hcell [[? Ex']|[Hn' Hx']]%Hcell; try done; [congruence|].
    by eapply (wf_owner r Hwf).
Qed.

(** The list one longer, with a new subscriber at its end. *)
Lemma snoc_list r r' id sl l sl' stream :
  holds_list r id sl l \/ (l = []) ->
  let s := OrderUpdateSubscriber.mk stream id (channels r) in
  channels r' = S (channels r) -> len sl' = S (length l) -> (len sl' <= cap sl')%nat ->
  (exists cs, arrays r' !! array sl' = Some cs /\ length cs = cap sl' /\
     take (len sl') cs = Some <$> (l ++ [s])%list) ->
  holds_list r' id sl' (l ++ [s])%list.
Proof.
  intros Hl s Hch Hlen Hcap Hcs.
  assert (forall x, x ∈ l -> orderID x = id /\ (done x < channels r)%nat) as Ho.
  { destruct Hl as [Hl| ->]; [apply (hl_order _ _ _ _ Hl)|by intros x ?%elem_of_nil]. }
  split; [done| |done| | |].
  - by rewrite length_app, Hlen, Nat.add_comm.
  - by destruct l.
  - rewrite Hch. intros x [Hx%Ho| ->%list_elem_of_singleton]%elem_of_app; [destruct Hx; auto with lia|simpl; auto with lia].
  - apply NoDup_app. split_and!; [|intros x Hx%Ho ->%list_elem_of_singleton; simpl in *; lia|].
    + destruct Hl as [Hl| ->]; [by eapply hl_nodup|constructor].
    + by apply NoDup_singleton.
Qed.

Definition fits : Prop := forall n, (n < grow n)%nat.

(** [append] when there is room: the cell behind the slice is written. *)
Lemma add_in_place stream id r sl l :
  wf r -> subs r !! id = Some sl -> holds_list r id sl l -> (len sl < cap sl)%nat ->
  let s := OrderUpdateSubscriber.mk stream id (channels r) in
  let r' := Registry (<[id := Slice (array sl) (S (len sl)) (cap sl)]> (subs r))
              (alter <[len sl := Some s]> (array sl) (arrays r)) (S (channels r)) in
  wf r' /\ contents r' = <[id := (l ++ [s])%list]> (contents r) /\ kept r r' /\ only_new s r r'.
Proof.
  intros Hwf Hsl Hl Hroom s r'.
  destruct (hl_cells _ _ _ _ Hl) as (cs & Hcs & Hlen & Htake).
  pose proof (cell_at_alter r r' _ _ eq_refl) as Hcell. rewrite Hcs in Hcell. simpl in Hcell.
  assert (forall a i x, cell_at r' a i = Some (Some x) ->
            (x = s /\ a = array sl) \/ cell_at r a i = Some (Some x)) as Hcells.
  { intros a i x. rewrite Hcell. case_decide as Ha; [subst a|by right].
    intros [(_ & ? & _)|(_ & Hx)]%list_lookup_insert_Some; [left; by simplify_eq|right].
    unfold cell_at. by rewrite Hcs. }
  destruct (wf_change r r' id (Slice (array sl) (S (len sl)) (cap sl)) (l ++ [s])) as [Hwf' Hcont];
    [done..| | | | |split_and!; [done..| |]].
  - eapply snoc_list; [by left|done|by rewrite (hl_len _ _ _ _ Hl)|simpl; lia|]. simpl.
    exists (<[len sl := Some s]> cs). rewrite list_lookup_alter_eq, Hcs, length_insert.
    split_and!; [done..|]. rewrite take_snoc by lia. by rewrite Htake, fmap_app.
  - simpl; lia.
  - intros id' sl' Hne Hs'. simpl. assert (array sl' <> array sl) by (intros ?; by eapply Hne, (wf_disjoint r Hwf)).
    by rewrite list_lookup_alter_ne.
  - intros a i x Hx. simpl. destruct (decide (a = array sl)) as [Ha|Ha].
    + left. split; [done|]. destruct (Hcells _ _ _ Hx) as [[-> _]|Hx']; [done|].
      by eapply (array_owner r id sl l).
    + right. split; [done|]. rewrite Hcell in Hx. by rewrite decide_False in Hx.
  - intros a i x Hx. rewrite Hcell. case_decide as Ha; [subst a|by exists x].
    destruct (decide (i = len sl)) as [->|Hi].
    + exists s. rewrite list_lookup_insert_eq by lia. split; [done|].
      symmetry. by eapply (array_owner r id sl l).
    + exists x. rewrite list_lookup_insert_ne by done. split; [|done].
      unfold cell_at in Hx. by rewrite Hcs in Hx.
  - intros a i x [[-> _]|Hx]%Hcells; [by left|right; eauto].
Qed.

(** [append] when the slice is full, or nil: its elements move to a new array. *)
Lemma add_new_array stream id r sl l :
  wf r -> fits -> sl = Registry.lookup r id -> list_of (contents r) id = l ->
  (holds_list r id sl l \/ (l = [] /\ sl = nil_slice /\ subs r !! id = None)) ->
  let s := OrderUpdateSubscriber.mk stream id (channels r) in
  let n := grow (len sl) in
  let r' := Registry (<[id := Slice (length (arrays r)) (S (len sl)) n]> (subs r))
      (arrays r ++ [elements r sl ++ Some s :: replicate (n - S (len sl)) None])%list (S (channels r)) in
  wf r' /\ contents r' = <[id := (l ++ [s])%list]> (contents r) /\ kept r r' /\ only_new s r r'.
Proof.
  intros Hwf Hfits Hsl Hl Hcase s n r'.
  assert (elements r sl = Some <$> l /\ len sl = length l) as [Hel Hlen].
  { destruct Hcase as [Hh|(-> & -> & _)]; [|done].
    split; [by eapply holds_list_elements|by apply (hl_len _ _ _ _ Hh)]. }
  pose proof (Hfits (len sl)) as Hn. fold n in Hn.
  assert (forall a i, cell_at r' a i = if decide (a = length (arrays r))
            then ((Some <$> l) ++ Some s :: replicate (n - S (len sl)) None)%list !! i
            else cell_at r a i) as Hcell.
  { intros a i. unfold cell_at. simpl. rewrite Hel. case_decide as Ha.
    - subst a. by rewrite list_lookup_middle.
    - destruct (decide (a < length (arrays r))%nat); [by rewrite lookup_app_l|].
      rewrite !lookup_ge_None_2; [done|lia|]. rewrite length_app. simpl. lia. }
  assert (forall a i x, cell_at r a i = Some x -> a <> length (arrays r)) as Hold.
  { intros a i x Hx ->. unfold cell_at in Hx. by rewrite lookup_ge_None_2 in Hx. }
  assert (forall i x, ((Some <$> l) ++ Some s :: replicate (n - S (len sl)) None)%list !! i = Some (Some x) ->
            x ∈ l \/ x = s) as Hnew.
  { intros i x. rewrite lookup_app_Some. intros [Hx|(_ & Hx)].
    - left. rewrite list_lookup_fmap in Hx. destruct (l !! i) eqn:E; simpl in Hx; simplify_eq.
      by eapply list_elem_of_lookup_2.
    - apply list_elem_of_lookup_2 in Hx. apply elem_of_cons in Hx as [[= ->]|Hx]; [by right|].
      by apply elem_of_replicate in Hx as [? _]. }
  destruct (wf_change r r' id (Slice (length (arrays r)) (S (len sl)) n) (l ++ [s])) as [Hwf' Hcont];
    [done..| | | | |split_and!; [done..| |]].
  - eapply (snoc_list r r' id sl l); [|done|simpl; lia|simpl; lia|].
    { destruct Hcase as [?|(? & _)]; [by left|by right]. }
    simpl. rewrite list_lookup_middle by done. eexists. split_and!; [done| |].
    + rewrite Hel, length_app, length_fmap. simpl. rewrite length_replicate. lia.
    + rewrite Hel, fmap_app. simpl. rewrite cons_middle, app_assoc.
      rewrite take_app_length'; [done|]. rewrite length_app, length_fmap. simpl. lia.
  - simpl; lia.
  - intros id' sl' Hne Hs'. simpl. destruct (wf_slice r Hwf _ _ Hs') as [l' Hl'].
    destruct (hl_cells _ _ _ _ Hl') as (cs & Hcs & _). apply lookup_lt_Some in Hcs as Hlt.
    split; [lia|]. by apply lookup_app_l.
  - intros a i x. rewrite Hcell. simpl. case_decide as Ha; [|by right]. intros Hx%Hnew. left. split; [done|].
    destruct Hx as [Hx| ->]; [|done]. destruct Hcase as [Hh|(-> & _)]; [by apply (hl_order _ _ _ _ Hh)|].
    by apply elem_of_nil in Hx.
  - intros a i x Hx. rewrite Hcell, decide_False by by eapply Hold. by exists x.
  - intros a i x. rewrite Hcell. case_decide as Ha; [|by right; eauto].
    intros [Hx| ->]%Hnew; [right|by left]. destruct Hcase as [Hh|(-> & _)]; [|by apply elem_of_nil in Hx].
    apply list_elem_of_lookup in Hx as [j Hj]. exists (array sl), j. by eapply holds_list_cell.
Qed.

(** The part of a subscription under the lock. *)
Lemma add_ok stream id r :
  wf r -> fits ->
  let '(s, r') := Registry.add grow stream id r in
  s = OrderUpdateSubscriber.mk stream id (channels r) /\ channels r' = S (channels r) /\
  wf r' /\ contents r' = add_spec s (contents r) /\ kept r r' /\ only_new s r r'.
Proof.
  intros Hwf Hfits. unfold Registry.add, Registry.append, add_spec, list_of. simpl.
  destruct (lookup_cases r id Hwf) as [(Hs & Hsl & Hc)|(l & Hs & Hl & Hc)].
  - rewrite Hsl. simpl. rewrite Hc. split; [done|]. split; [done|].
    apply (add_new_array stream id r nil_slice []); [done|done|by rewrite Hsl|by unfold list_of; rewrite Hc|].
    right. done.
  - destruct (Nat.ltb_spec (len (Registry.lookup r id)) (cap (Registry.lookup r id))); simpl; rewrite Hc.
    + split; [done|]. split; [done|]. by apply add_in_place.
    + split; [done|]. split; [done|]. apply (add_new_array stream id r _ l); [done|done|done| |by left].
      unfold list_of. by rewrite Hc.
Qed.

(** ** Removing *)

Definition only_old (r r' : registry) : Prop := forall a i x,
  cell_at r' a i = Some (Some x) -> exists j, cell_at r a j = Some (Some x).

Definition cut_cells (i n : nat) (a : list cell) : list cell :=
  (take i a ++ drop (S i) (take n a) ++ drop (n - 1) a)%list.

Lemma cut_cells_length i n a : (i < n <= length a)%nat -> length (cut_cells i n a) = length a.
Proof.
  intros ?. unfold cut_cells. rewrite !length_app, !length_drop, !length_take. lia.
Qed.

Lemma cut_cells_take i n a :
  (i < n <= length a)%nat -> take (n - 1) (cut_cells i n a) = (take i a ++ drop (S i) (take n a))%list.
Proof.
  intros ?. unfold cut_cells. rewrite app_assoc. apply take_app_length'.
  rewrite length_app, length_drop, !length_take. lia.
Qed.

Lemma cut_cells_lookup i n a k :
  (i < n <= length a)%nat ->
  cut_cells i n a !! k = a !! k \/ ((S k < n)%nat /\ cut_cells i n a !! k = a !! S k).
Proof.
  intros ?. unfold cut_cells. destruct (decide (k < i)%nat).
  { left. rewrite lookup_app_l by (rewrite length_take; lia). by rewrite lookup_take_lt. }
  rewrite lookup_app_r by (rewrite length_take; lia). rewrite length_take, Nat.min_l by lia.
  destruct (decide (S k < n)%nat).
  - right. split; [done|]. rewrite lookup_app_l by (rewrite length_drop, length_take; lia).
    rewrite lookup_drop. rewrite lookup_take_lt by lia. f_equal. lia.
  - left. rewrite lookup_app_r by (rewrite length_drop, length_take; lia).
    rewrite lookup_drop, length_drop, length_take. f_equal. lia.
Qed.

(** A change that drops a key. *)
Lemma wf_drop r r' id sl :
  wf r -> subs r !! id = Some sl -> subs r' = delete id (subs r) -> channels r' = channels r ->
  (forall a, a <> array sl -> arrays r' !! a = arrays r !! a) -> only_old r r' ->
  wf r' /\ contents r' = delete id (contents r).
Proof.
  intros Hwf Hsl Hsubs Hch Harr Hold.
  assert (forall id' sl', id' <> id -> subs r !! id' = Some sl' -> array sl' <> array sl) as Hne.
  { intros id' sl' Hne Hs' ?. by eapply Hne, (wf_disjoint r Hwf). }
  assert (forall id' sl' l, id' <> id -> subs r !! id' = Some sl' -> holds_list r id' sl' l ->
            holds_list r' id' sl' l) as Hkeep.
  { intros id' sl' l ? Hs' Hl. eapply holds_list_kept; [done| |lia]. by eapply Harr, Hne. }
  split; [split|].
  - intros id' sl'. rewrite Hsubs. intros [? Hs']%lookup_delete_Some.
    destruct (wf_slice r Hwf _ _ Hs') as [l Hl]. exists l. by apply Hkeep.
  - intros id1 id2 sl1 sl2. rewrite Hsubs. intros [_ ?]%lookup_delete_Some [_ ?]%lookup_delete_Some.
    by eapply (wf_disjoint r Hwf).
  - intros a i j x x' [i' Hx]%Hold [j' Hx']%Hold. by eapply (wf_owner r Hwf).
  - apply map_eq. intros k. destruct (decide (k = id)) as [->|Hk].
    + rewrite lookup_delete_eq. apply contents_none. rewrite Hsubs. apply lookup_delete_eq.
    + rewrite lookup_delete_ne by done. destruct (subs r !! k) as [sl'|] eqn:Hs'.
      * destruct (wf_slice r Hwf _ _ Hs') as [l Hl]. rewrite (contents_lookup r k sl' l Hs' Hl).
        eapply contents_lookup; [|by eapply Hkeep]. by rewrite Hsubs, lookup_delete_ne.
      * rewrite (contents_none r k Hs'). apply contents_none. by rewrite Hsubs, lookup_delete_ne.
Qed.

(** What cutting the [i]-th element out does to the cells. *)
Lemma cut_facts r id sl l i arrs :
  wf r -> holds_list r id sl l -> (i < len sl)%nat -> arrs = alter (cut_cells i (len sl)) (array sl) (arrays r) ->
  let r' := Registry (subs r) arrs (channels r) in
  only_old r r' /\ kept r r' /\
  exists cs, arrs !! array sl = Some cs /\ length cs = cap sl /\
    take (len sl - 1) cs = Some <$> (take i l ++ drop (S i) l)%list.
Proof.
  intros Hwf Hl Hi -> r'.
  destruct (hl_cells _ _ _ _ Hl) as (cs & Hcs & Hlen & Htake).
  pose proof (hl_cap _ _ _ _ Hl) as Hcap.
  pose proof (cell_at_alter r r' _ _ eq_refl) as Hcell. rewrite Hcs in Hcell. simpl in Hcell.
  assert (forall k, cell_at r (array sl) k = cs !! k) as Hcs' by (intros k; unfold cell_at; by rewrite Hcs).
  split_and!.
  - intros a k x. rewrite Hcell. case_decide as Ha; [subst a|by eauto].
    destruct (cut_cells_lookup i (len sl) cs k ltac:(lia)) as [->|[_ ->]]; rewrite <-Hcs'; eauto.
  - intros a k x Hx. rewrite Hcell. case_decide as Ha; [subst a|by exists x].
    destruct (cut_cells_lookup i (len sl) cs k ltac:(lia)) as [->|[Hk ->]]; rewrite <-Hcs'; [by exists x|].
    destruct (lookup_lt_is_Some_2 l (S k)) as [y Hy]; [rewrite <-(hl_len _ _ _ _ Hl); lia|].
    exists y. split; [by eapply holds_list_cell|]. eapply (wf_owner r Hwf); [|exact Hx].
    by eapply holds_list_cell.
  - exists (cut_cells i (len sl) cs). rewrite list_lookup_alter_eq, Hcs. split; [done|].
    split; [rewrite cut_cells_length; lia|]. rewrite cut_cells_take by lia.
    rewrite fmap_app, fmap_drop, fmap_take, <-Htake, take_take, Nat.min_l by lia. done.
Qed.

(** Cutting a subscriber out of its slice: the key goes with the last one. *)
Lemma remove_found r id sl l i s :
  wf r -> subs r !! id = Some sl -> holds_list r id sl l -> l !! i = Some s ->
  let l' := filter (fun x => x <> s) l in
  let '(sl', arrs) := cut sl i r in
  let r1 := Registry (<[id := sl']> (subs r)) arrs (channels r) in
  let r2 := Registry (delete id (subs r)) arrs (channels r) in
  len sl' = length l' /\ kept r r1 /\ only_old r r1 /\
  (l' <> [] -> wf r1 /\ contents r1 = <[id := l']> (contents r)) /\
  (l' = [] -> wf r2 /\ contents r2 = delete id (contents r)).
Proof.
  intros Hwf Hsl Hl Hi l'. subst l'. rewrite (filter_out_at s l i (hl_nodup _ _ _ _ Hl) Hi). unfold cut.
  assert (i < len sl)%nat as Hlt by (rewrite (hl_len _ _ _ _ Hl); by eapply lookup_lt_Some).
  destruct (cut_facts r id sl l i _ Hwf Hl Hlt eq_refl) as (Hold & Hkept & Hcs).
  fold (cut_cells i (len sl)). cbv iota beta.
  assert (len sl - 1 = length (take i l ++ drop (S i) l))%nat as Hlen.
  { rewrite length_app, length_take, length_drop. rewrite (hl_len _ _ _ _ Hl) in *. lia. }
  split_and!; [exact Hlen|exact Hkept|exact Hold| |]; intros Hnil.
  - eapply wf_change; [exact Hwf|reflexivity| |simpl; lia| |].
    + split; [exact Hcs|exact Hlen| |exact Hnil| |].
      * simpl. pose proof (hl_cap _ _ _ _ Hl). lia.
      * intros x Hx. apply (hl_order _ _ _ _ Hl).
        rewrite <-(filter_out_at s) in Hx by (try done; by eapply hl_nodup).
        by apply list_elem_of_filter in Hx as [_ ?].
      * rewrite <-(filter_out_at s) by (try done; by eapply hl_nodup).
        apply NoDup_filter. by eapply hl_nodup.
    + intros id' sl' Hne Hs'. simpl.
      assert (array sl' <> array sl) by (intros ?; by eapply Hne, (wf_disjoint r Hwf)).
      by rewrite list_lookup_alter_ne.
    + intros a k x Hx. simpl. destruct (decide (a = array sl)) as [Ha|Ha].
      { left. split; [done|]. destruct (Hold a k x Hx) as [j Hj]. by eapply (array_owner r id sl l). }
      right. split; [done|]. unfold cell_at in Hx. simpl in Hx. by rewrite list_lookup_alter_ne in Hx.
  - eapply (wf_drop r _ id sl); [exact Hwf|exact Hsl|reflexivity|reflexivity| |exact Hold].
    intros a Ha. simpl. by apply list_lookup_alter_ne.
Qed.

Lemma remove_ok s r :
  wf r ->
  let r' := removeSubscriber s r in
  channels r' = channels r /\ wf r' /\ contents r' = remove_spec s (contents r) /\
  kept r r' /\ only_old r r'.
Proof.
  intros Hwf. set (id := orderID s).
  assert (only_old r r) as Hold by (intros a i x ?; eauto).
  assert (kept r r) as Hkept by (intros a i x ?; eauto).
  unfold removeSubscriber, remove_spec, list_of. fold id.
  destruct (lookup_cases r id Hwf) as [(Hs & Hsl & Hc)|(l & Hs & Hl & Hc)].
  - rewrite Hsl, Hc. simpl. rewrite Hsl. simpl. rewrite !delete_id by done. by destruct r.
  - rewrite (holds_list_elements _ _ _ _ Hl), Hc. change (default [] (Some l)) with l.
    destruct (index_of s (Some <$> l)) as [i|] eqn:Hi.
    + apply index_of_list in Hi as [Hi _].
      pose proof (remove_found r id _ l i s Hwf Hs Hl Hi) as Hcut.
      destruct (cut (Registry.lookup r id) i r) as [sl' arrs].
      destruct Hcut as (Hlen & Hkept' & Hold' & Hsome & Hnone).
      unfold Registry.lookup. simpl. rewrite lookup_insert_eq. simpl. rewrite Hlen. case_decide as Hnil.
      * rewrite Hnil. simpl. rewrite delete_insert_eq. by destruct (Hnone Hnil).
      * rewrite (proj2 (Nat.eqb_neq _ _)) by by destruct (filter _ l). by destruct (Hsome Hnil).
    + apply index_of_none in Hi. rewrite filter_out_absent by done.
      pose proof (hl_nonempty _ _ _ _ Hl) as Hne. rewrite decide_False by done.
      rewrite (proj2 (Nat.eqb_neq _ _)) by (rewrite (hl_len _ _ _ _ Hl); by destruct l).
      by rewrite insert_id.
Qed.

Lemma empty_wf : wf Registry.empty.
Proof. split; [done..|]. intros a i j x x'. unfold cell_at. by destruct a. Qed.
End Registry.

(** ** The invariant of the server *)

Section Server.
Import OrderServer.
Context {Timestamp : Type} (timestamppb_New : Z -> Timestamp).
Context (uuid_in : string -> option string) (grow : nat -> nat) (Hfits : fits grow).
Notation state := (@state Timestamp).

(** The row [o] was the order [id] at some moment. *)
Definition row_known (m : state) (id : string) (o : Order.t) : Prop :=
  exists t, uuid_in id = Some (Order.ID o) /\ t ∈ tables m /\ t !! Order.ID o = Some o.

(** A message that the stream's client should get: a row of the order it asked
    for. *)
Definition truthful (m : state) (st : nat) (u : update) : Prop :=
  exists id o now, streams m !! st = Some id /\ row_known m id o /\
    u = status_update timestamppb_New o now.

Record invariant (m : state) : Prop := {
  inv_wf : wf (reg m);
  inv_streams : forall a i s, cell_at (reg m) a i = Some (Some s) -> streams m !! stream s = Some (orderID s);
  inv_sent : forall st u, (st, u) ∈ sent m -> truthful m st u;
  inv_tables : forall t c o, t ∈ tables m -> t !! c = Some o -> Order.ID o = c
}.

Record later (m m' : state) : Prop := {
  later_tables : forall t, t ∈ tables m -> t ∈ tables m';
  later_streams : forall i id, streams m !! i = Some id -> streams m' !! i = Some id;
  later_kept : kept (reg m) (reg m')
}.

(** The slice's elements are subscribers of the order. *)
Definition slice_of (m : state) (id : string) (sl : slice) : Prop :=
  forall i, (i < len sl)%nat -> exists s, cell_at (reg m) (array sl) i = Some (Some s) /\ orderID s = id.

Definition may (X : Type) (e : streamE Timestamp X) (m : state) : Prop :=
  match e with
  | Send st u => truthful m st u
  | AddSubscriber st id => streams m !! st = Some id
  | Element sl i => exists s, cell_at (reg m) (array sl) i = Some (Some s)
  | GoSend c u => exists s, c = Some s /\ truthful m (stream s) u
  | _ => True
  end.

Lemma later_row m m' id o : later m m' -> row_known m id o -> row_known m' id o.
Proof. intros Hl (t & ? & ? & ?). exists t. split_and!; [done|by apply Hl|done]. Qed.

Lemma later_truthful m m' st u : later m m' -> truthful m st u -> truthful m' st u.
Proof.
  intros Hl (id & o & now & ? & ? & ?). exists id, o, now.
  split_and!; [by apply Hl|by eapply later_row|done].
Qed.

Lemma later_slice m m' id sl : later m m' -> slice_of m id sl -> slice_of m' id sl.
Proof.
  intros Hl Hs i Hi. destruct (Hs i Hi) as (s & Hs1 & <-).
  by destruct (later_kept _ _ Hl _ _ _ Hs1) as (s' & ? & ?); exists s'.
Qed.

Lemma later_refl m : later m m.
Proof. split; [done..|]. intros a i s ?. eauto. Qed.

Lemma later_trans m1 m2 m3 : later m1 m2 -> later m2 m3 -> later m1 m3.
Proof.
  intros H1 H2. split; [intros; by apply H2, H1|intros; by apply H2, H1|].
  intros a i s (s' & Hs' & E)%(later_kept _ _ H1). apply (later_kept _ _ H2) in Hs' as (s'' & ? & ?).
  exists s''. split; [done|congruence].
Qed.

(** A change of the registry alone. *)
Lemma invariant_set_reg m r :
  invariant m -> wf r -> kept (reg m) r ->
  (forall a i s, cell_at r a i = Some (Some s) -> streams m !! stream s = Some (orderID s)) ->
  invariant (set_reg r m) /\ later m (set_reg r m).
Proof.
  intros [Hwf Hst Hsent Ht] Hr Hk Hs. assert (later m (set_reg r m)) as Hl by (by split).
  split; [|done]. split; [done|done| |done]. intros st u Hu. simpl in Hu.
  by eapply later_truthful, Hsent.
Qed.

#[local] Instance server_discipline : Discipline (exec_spec (@exec Timestamp uuid_in grow)) invariant later may.
Proof using Hfits.
  split; [apply later_refl|apply later_trans|].
  intros X e x m m' [l Hx] Hmay Hinv.
  assert (invariant m /\ later m m) as Hsame by (split; [done|apply later_refl]).
  destruct e as [id|st id|s| |id|sl i|st u|s|s| | |c u]; simpl in Hx.
  - destruct (fault l); by simplify_eq.
  - pose proof (add_ok grow st id (reg m) (inv_wf _ Hinv) Hfits) as Hadd.
    destruct (Registry.add grow st id (reg m)) as [s r]. simplify_eq.
    destruct Hadd as (Hs & _ & Hwf & _ & Hk & Hn). apply invariant_set_reg; [done..|].
    intros a i s' [->|(a' & j & Hc)]%Hn; [|by eapply (inv_streams m Hinv)]. by rewrite Hs.
  - simplify_eq. destruct (remove_ok s (reg m) (inv_wf _ Hinv)) as (_ & Hwf & _ & Hk & Ho).
    apply invariant_set_reg; [done..|]. intros a i s' [j Hc]%Ho. by eapply (inv_streams m Hinv).
  - by simplify_eq.
  - by simplify_eq.
  - destruct (_ !! i); by simplify_eq.
  - destruct (fault l); [by simplify_eq|]. case_bool_decide; simplify_eq; [done|].
    destruct Hinv as [Hwf Hst Hsent Ht].
    assert (later m (set_sent ((st, u) :: sent m) m)) as Hl
      by (split; [done..|]; intros a i s ?; eauto).
    split; [|done]. split; [done|done| |done]. simpl. intros st' u' [[= -> ->]|Hin]%elem_of_cons.
    + by eapply later_truthful.
    + by eapply later_truthful, Hsent.
  - case_bool_decide; simplify_eq.
    assert (later m (set_closed ({[s]} ∪ closed m) m)) as Hl
      by (split; [done..|]; intros a i s' ?; eauto).
    destruct Hinv as [Hwf Hst Hsent Ht]. split; [|done]. split; [done|done| |done].
    intros st u Hu. by eapply later_truthful, Hsent.
  - case_bool_decide; by simplify_eq.
  - by simplify_eq.
  - by simplify_eq.
  - by simplify_eq.
Qed.

Notation lawful := (lawful (@exec Timestamp uuid_in grow) invariant later may).

(** ** The goroutines keep to it *)

Lemma query_known l m m' id o :
  invariant m -> exec uuid_in grow (QueryOrder id) l m = Answer (o, None) m' -> row_known m id o.
Proof.
  intros Hinv. simpl. destruct (fault l); [done|]. intros [= Hq ->].
  unfold query_order, orders_now in Hq. destruct (uuid_in id) as [c|] eqn:Hu; [|done].
  destruct (tables m') as [|t ts] eqn:Ht; simpl in Hq; [by rewrite lookup_empty in Hq|].
  destruct (t !! c) as [o'|] eqn:Ho; simplify_eq.
  assert (Order.ID o = c) as Hid by (eapply (inv_tables _ Hinv); [|exact Ho]; rewrite Ht; left).
  exists t. rewrite Hid, Ht. split_and!; [done|left|done].
Qed.

Lemma getOrder_lawful {B} (f : Order.t + error -> prog (streamE Timestamp) B) id m :
  (forall o m', later m m' -> row_known m' id o -> lawful (f (inl o)) m') ->
  (forall e m', later m m' -> lawful (f (inr e)) m') ->
  lawful (getOrder id ≫= f) m.
Proof using Hfits.
  intros Hrow Herr. unfold getOrder. apply lawful_assoc. lawful_step; [permitted|].
  intros l [o err] m1 m2 Hl1 Hinv Hx Hinv2 Hl12 Hl2. destruct err as [e|].
  - by apply Herr.
  - apply Hrow; [done|]. eapply later_row; [exact Hl12|by eapply query_known].
Qed.

Lemma deliver_lawful s u m : truthful m (stream s) u -> lawful (deliver (Some s) u) m.
Proof using Hfits.
  intros Hu. unfold deliver. lawful_step.
  - intros m1 Hl _. by eapply later_truthful.
  - intros l err m1 m2 _ _ _ _ _ _. destruct err; [|done].
    lawful_step; [permitted|done].
Qed.

Lemma subscribe_lawful req st m :
  streams m !! st = Some (OrderRequest.OrderId req) ->
  lawful (SubscribeToOrderUpdates timestamppb_New req st) m.
Proof using Hfits.
  intros Hst. unfold SubscribeToOrderUpdates. destruct (String.eqb _ _); [done|].
  apply getOrder_lawful; [|done]. intros o m1 Hl1 Hrow.
  lawful_step.
  { intros m2 Hl2 _. simpl. by apply Hl2, Hl1. }
  intros l s m2 m3 Hl2 _ _ _ Hl23 Hl3.
  lawful_step; [permitted|].
  intros l' now m4 m5 _ _ _ _ _ Hl5.
  lawful_step.
  { intros m6 Hl6 _. assert (later m1 m6) as Hl16 by eauto using later_trans.
    exists (OrderRequest.OrderId req), o, now.
    split_and!; [by apply Hl16, Hl1|by eapply later_row|done]. }
  intros l'' err m6 m7 _ _ _ _ _ _. destruct err; [done|]. unfold wait_for_end.
  do 2 (lawful_step; [done|intros; try done]).
Qed.

Lemma notify_lawful i n id sl o now m :
  (i + n = len sl)%nat -> slice_of m id sl -> row_known m id o ->
  lawful (notify_from i n sl (status_update timestamppb_New o now)) m.
Proof using Hfits.
  revert i m. induction n as [|n IH]; intros i m Hn Hsl Hrow; simpl; [done|].
  lawful_step.
  { intros m1 Hl1 _. destruct (later_slice _ _ _ _ Hl1 Hsl i ltac:(lia)) as (s & Hs & _). by exists s. }
  intros l c m1 m2 Hl1 Hinv1 Hx _ _ Hl2. simpl in Hx.
  destruct (later_slice _ _ _ _ Hl1 Hsl i ltac:(lia)) as (s & Hs & Hid).
  assert (c = Some s) as ->.
  { unfold cell_at in Hs. unfold cells in Hx. destruct (arrays (reg m1) !! array sl); simpl in *; [|done].
    rewrite Hs in Hx. by simplify_eq. }
  assert (truthful m1 (stream s) (status_update timestamppb_New o now)) as Hu.
  { exists id, o, now. split_and!; [rewrite <-Hid; by eapply (inv_streams _ Hinv1)| |done].
    by eapply later_row. }
  assert (later m1 m2) as Hl12 by (destruct (_ !! i) in Hx; simplify_eq; apply later_refl).
  lawful_step.
  { intros m3 Hl3 _. exists s. split; [done|]. eapply later_truthful; [exact Hl3|]. by eapply later_truthful. }
  intros l' [] m3 m4 _ _ _ _ _ Hl4. assert (later m m4) as Hl by by eapply later_trans.
  apply IH; [lia|by eapply later_slice|by eapply later_row].
Qed.

Lemma lookup_slice m id : invariant m -> slice_of m id (Registry.lookup (reg m) id).
Proof.
  intros Hinv i Hi. destruct (lookup_cases (reg m) id (inv_wf _ Hinv)) as [(_ & Hsl & _)|(l & _ & Hl & _)].
  - rewrite Hsl in Hi. simpl in Hi. lia.
  - rewrite (hl_len _ _ _ _ Hl) in Hi. apply lookup_lt_is_Some_2 in Hi as [s Hs].
    exists s. split; [by eapply holds_list_cell|]. eapply (hl_order _ _ _ _ Hl). by eapply list_elem_of_lookup_2.
Qed.

Lemma notifySubscribers_lawful id o m :
  row_known m id o -> lawful (notifySubscribers timestamppb_New id o) m.
Proof using Hfits.
  intros Hrow. unfold notifySubscribers. lawful_step; [permitted|].
  intros l sl m1 m2 Hl1 Hinv1 Hx Hinv2 Hl12 Hl2. simpl in Hx. simplify_eq.
  lawful_step; [permitted|].
  intros l' now m3 m4 Hl3 _ _ Hinv4 _ Hl4. apply notify_lawful with (id := id).
  - done.
  - eapply later_slice; [exact Hl4|by apply lookup_slice].
  - eapply later_row; [|done]. by eapply later_trans.
Qed.

Lemma check_orders_lawful ids last m : lawful (check_orders timestamppb_New ids last) m.
Proof using Hfits.
  revert last m. induction ids as [|id ids IH]; intros last m; [done|]. cbn [check_orders].
  apply getOrder_lawful; [|by intros]. intros o m1 Hl1 Hrow. destruct (last !! id); [|done].
  destruct (String.eqb _ _); [done|].
  eapply lawful_bind; [apply _|by apply notifySubscribers_lawful|by intros].
Qed.

Lemma monitor_lawful ticks last m : lawful (monitor timestamppb_New ticks last) m.
Proof using Hfits.
  revert last m. induction ticks as [|ticks IH]; intros last m; [done|]. cbn [monitor].
  lawful_step; [permitted|]. intros l stop m1 m2 _ _ _ _ _ _. destruct stop; [done|].
  eapply lawful_bind; [apply _| |by intros].
  unfold checkForUpdates. lawful_step; [permitted|]. intros. apply check_orders_lawful.
Qed.

Lemma stream_started (X : Type) (e : streamE Timestamp X) l x m m' :
  invariant m -> may X e m -> exec uuid_in grow e l m = Answer x m' ->
  forall p, p ∈ started e -> lawful p m'.
Proof using Hfits.
  intros Hinv Hmay Hx p Hp. destruct e as [| | | | | | | | | | |c u];
    try by apply elem_of_nil in Hp.
  apply list_elem_of_singleton in Hp as ->. destruct Hmay as (s & -> & Hu).
  apply deliver_lawful. simpl in Hx. by simplify_eq.
Qed.

Lemma stream_arrive a m m' ps :
  invariant m -> arrive timestamppb_New a m = (m', ps) ->
  invariant m' /\ later m m' /\ forall p, p ∈ ps -> lawful p m'.
Proof using Hfits.
  intros [Hwf Hst Hsent Ht] Ha.
  assert (later m m') as Hl.
  { destruct a; simpl in Ha; simplify_eq; split; simpl; try done; try (intros a i s ?; by eauto);
      [intros; by apply lookup_app_l_Some|intros t ?; by right]. }
  split; [|split; [done|]].
  - split.
    + by destruct a; simplify_eq/=.
    + intros ac i s Hc. apply Hl. eapply Hst. by destruct a; simplify_eq/=.
    + intros st u Hu. eapply later_truthful; [exact Hl|]. apply Hsent. by destruct a; simplify_eq/=.
    + destruct a as [req|o|st|]; simplify_eq/=; try done.
      intros t c o' [->|Hin]%elem_of_cons Ho; [|by eapply Ht].
      apply lookup_insert_Some in Ho as [[<- <-]|[_ Ho]]; [done|].
      unfold orders_now in Ho. destruct (tables m) as [|t ts] eqn:Htab; simpl in Ho;
        [by rewrite lookup_empty in Ho|]. eapply Ht; [|exact Ho]. left.
  - intros p Hp. destruct a as [req|o|st|]; simplify_eq/=; try by apply elem_of_nil in Hp.
    apply list_elem_of_singleton in Hp as ->. apply subscribe_lawful. simpl.
    by apply list_lookup_middle.
Qed.

Lemma stream_crash (X : Type) (e : streamE Timestamp X) l m msg :
  invariant m -> may X e m -> exec uuid_in grow e l m = Crash msg -> msg = close_of_closed.
Proof.
  intros _ Hmay Hx. destruct e as [| | | | |sl i| | | | | |]; simpl in Hx; repeat case_match; simplify_eq; [|done].
  destruct Hmay as (s & Hs). unfold cell_at in Hs. unfold cells in *.
  destruct (arrays (reg m) !! array sl); simpl in *; [congruence|done].
Qed.

(** Every run of a new server. *)
Lemma serve_good evs ticks orders :
  (forall c o, orders !! c = Some o -> Order.ID o = c) ->
  good (@exec Timestamp uuid_in grow) invariant later may (fun msg => msg = close_of_closed)
    (serve timestamppb_New uuid_in grow evs (NewOrderServer timestamppb_New ticks orders)).
Proof using Hfits.
  intros Horders.
  refine (proj1 (pool_disciplined _ _ _ invariant later may (fun msg => msg = close_of_closed)
    stream_crash stream_started stream_arrive evs _ _)).
  split.
  - split; [apply empty_wf| | |].
    + intros a i s. unfold cell_at. by destruct a.
    + by intros st u ?%elem_of_nil.
    + intros t c o ->%list_elem_of_singleton. apply Horders.
  - done.
  - intros p ->%list_elem_of_singleton. apply monitor_lawful.
Qed.
End Server.
