(* ===== verification/OrderStreamProps.v ===== *)
(** * Order service: what subscribers of an order are told, and what they are not *)

From S2P Require Import Prelude Goroutines GoLib OrderPorts Proto OrderStream OrderStreamFacts.
Import OrderUpdateSubscriber OrderServer.

(** ** The map of subscribers *)

Inductive registry_op : Type :=
| OpAdd (stream : nat) (orderID : string)
| OpRemove (s : OrderUpdateSubscriber.t).

Definition registry_step (grow : nat -> nat) (op : registry_op) (r : registry) : registry :=
  match op with
  | OpAdd stream id => snd (Registry.add grow stream id r)
  | OpRemove s => Registry.removeSubscriber s r
  end.

(** The same on a map of lists and the number of subscribers made so far. *)
Definition map_step (op : registry_op) (m : gmap string (list OrderUpdateSubscriber.t) * nat) :=
  match op with
  | OpAdd stream id => (add_spec (OrderUpdateSubscriber.mk stream id (snd m)) (fst m), S (snd m))
  | OpRemove s => (remove_spec s (fst m), snd m)
  end.

Definition doubling (n : nat) : nat := if n is O then 1%nat else (2 * n)%nat.

Lemma doubling_fits : fits doubling.
Proof. intros [|n]; unfold doubling; lia. Qed.

(** C13. The slices behave as lists: after any sequence of subscriptions and
    removals, whatever capacities [append] chooses, the map has for every order
    exactly the subscribers that a map of lists has, in the same order, and an
    order without subscribers is not in it. *)
Theorem subscriber_map_refined (grow : nat -> nat) (ops : list registry_op) :
  fits grow ->
  let r := fold_left (fun r op => registry_step grow op r) ops Registry.empty in
  (contents r, channels r) = fold_left (fun m op => map_step op m) ops (∅, 0%nat) /\
  forall id, contents r !! id <> Some [].
Proof.
  intros Hfits.
  assert (forall r, wf r ->
    let r' := fold_left (fun r op => registry_step grow op r) ops r in
    wf r' /\ (contents r', channels r') = fold_left (fun m op => map_step op m) ops (contents r, channels r))
    as Hops.
  { induction ops as [|op ops IH]; intros r Hwf; simpl; [done|].
    destruct op as [st id|s]; simpl.
    - pose proof (add_ok grow st id r Hwf Hfits) as Hadd.
      destruct (Registry.add grow st id r) as [s r']. destruct Hadd as (-> & Hch & Hwf' & Hc & _).
      simpl. rewrite <-Hc, <-Hch. by apply IH.
    - destruct (remove_ok s r Hwf) as (Hch & Hwf' & Hc & _). rewrite <-Hc, <-Hch. by apply IH. }
  intros r. destruct (Hops Registry.empty empty_wf) as [Hwf Heq]. fold r in Hwf, Heq. split; [done|].
  intros id Hid. destruct (lookup_cases r id Hwf) as [(_ & _ & Hc)|(l & _ & Hl & Hc)]; [congruence|].
  rewrite Hid in Hc. simplify_eq. by destruct (hl_nonempty _ _ _ _ Hl).
Qed.

Definition sample_ops : list registry_op :=
  [OpAdd 0 "a"; OpAdd 1 "a"; OpAdd 2 "b"; OpAdd 3 "a"; OpRemove (OrderUpdateSubscriber.mk 1 "a" 1);
   OpRemove (OrderUpdateSubscriber.mk 2 "b" 2)].

Lemma subscriber_map_refined_witness :
  let r := fold_left (fun r op => registry_step doubling op r) sample_ops Registry.empty in
  (contents r, channels r) =
    ({["a" := [OrderUpdateSubscriber.mk 0 "a" 0; OrderUpdateSubscriber.mk 3 "a" 3]]}, 4%nat).
Proof.
  eapply eq_trans; [exact (proj1 (subscriber_map_refined doubling sample_ops doubling_fits))|].
  vm_compute. reflexivity.
Defined.

(** ** Every run *)

(** C10. In every run (any subscriptions, clients going away, writes to the table,
    failures, and any interleaving of the server's goroutines): whatever a stream
    takes is a row, as the table had it at some moment, of the order that this
    client asked for; and nothing takes the process down but the second closing of
    a [done] channel. *)
Theorem stream_tells_the_truth {Timestamp : Type} (timestamppb_New : Z -> Timestamp) uuid_in grow
    (evs : list (event luck arrival)) ticks orders :
  fits grow -> (forall c o, orders !! c = Some o -> Order.ID o = c) ->
  let s := serve timestamppb_New uuid_in grow evs (NewOrderServer timestamppb_New ticks orders) in
  (forall msg, crash s = Some msg -> msg = close_of_closed) /\
  forall st u, (st, u) ∈ sent (memory s) -> truthful timestamppb_New uuid_in (memory s) st u.
Proof.
  intros Hfits Horders s.
  destruct (serve_good timestamppb_New uuid_in grow Hfits evs ticks orders Horders) as [Hinv Hc _].
  split; [exact Hc|]. apply Hinv.
Qed.

(** ** One poll *)

Section Poll.
Context {Timestamp : Type} (timestamppb_New : Z -> Timestamp).
Context (uuid_in : string -> option string) (grow : nat -> nat).
Notation state := (@state Timestamp).
Notation solo := (solo (@OrderServer.exec Timestamp uuid_in grow) (@OrderServer.started Timestamp)).

(** What a poll should tell: for an order whose status is not the recorded one, a
    message to each of its subscribers. *)
Definition announce (last : gmap string string) (m : state) (now : Z) (id : string) :
    list (OrderUpdateSubscriber.t * @update Timestamp) :=
  match query_order uuid_in id m, last !! id with
  | (o, None), Some st =>
      if String.eqb (Order.Status o) st then []
      else (fun x => (x, status_update timestamppb_New o now)) <$> list_of (contents (reg m)) id
  | _, _ => []
  end.

(** What it should record. *)
Definition recorded (last : gmap string string) (m : state) (id : string) : option string :=
  match contents (reg m) !! id, query_order uuid_in id m with
  | Some _, (o, None) => Some (Order.Status o)
  | _, _ => last !! id
  end.

Definition deliveries (l : list (OrderUpdateSubscriber.t * @update Timestamp)) :
    list (@goroutine Timestamp) :=
  (fun '(x, u) => deliver (Some x) u) <$> l.

Lemma solo_getOrder l id m :
  fault l = None ->
  solo l (getOrder id) m =
  Some (match query_order uuid_in id m with (o, None) => inl o | (_, Some e) => inr e end, [], m).
Proof.
  intros Hf. unfold getOrder. rewrite solo_call. simpl. rewrite Hf.
  by destruct (query_order uuid_in id m) as [o [e|]].
Qed.

Lemma solo_notify l i n sl xs m u id :
  holds_list (reg m) id sl xs -> (i + n = len sl)%nat ->
  solo l (notify_from i n sl u) m =
  Some (tt, deliveries ((fun x => (x, u)) <$> drop i xs), m).
Proof.
  intros Hl. revert i. induction n as [|n IH]; intros i Hi.
  - cbn. rewrite drop_ge; [done|]. rewrite <-(hl_len _ _ _ _ Hl). lia.
  - destruct (lookup_lt_is_Some_2 xs i) as [x Hx]; [rewrite <-(hl_len _ _ _ _ Hl); lia|].
    pose proof (holds_list_cell _ _ _ _ _ _ Hl Hx) as Hc. unfold cell_at in Hc.
    cbn [notify_from]. rewrite solo_call. simpl. unfold Registry.cells.
    destruct (arrays (reg m) !! array sl); simpl in *; [|done]. rewrite Hc. simpl.
    rewrite (IH (S i)) by lia. by rewrite (drop_S _ _ _ Hx).
Qed.

Lemma solo_notifySubscribers l id o m xs :
  wf (reg m) -> contents (reg m) !! id = Some xs ->
  solo l (notifySubscribers timestamppb_New id o) m =
  Some (tt, deliveries ((fun x => (x, status_update timestamppb_New o (time l))) <$> xs), m).
Proof.
  intros Hwf Hxs. destruct (lookup_cases _ id Hwf) as [(_ & _ & Hc)|(l' & _ & Hl & Hc)]; [congruence|].
  rewrite Hxs in Hc. simplify_eq. unfold notifySubscribers.
  rewrite solo_call. simpl. by rewrite (solo_notify l 0 _ _ l' m _ id Hl).
Qed.

Lemma announce_record last m now id st id' :
  id' <> id -> announce (<[id := st]> last) m now id' = announce last m now id'.
Proof. intros ?. unfold announce. by rewrite lookup_insert_ne. Qed.

Lemma announce_all_record last m now id st ids :
  id ∉ ids -> concat (announce (<[id := st]> last) m now <$> ids) = concat (announce last m now <$> ids).
Proof.
  intros Hid. f_equal. apply list_fmap_ext. intros i id' Hi. apply announce_record.
  intros ->. by apply Hid, (list_elem_of_lookup_2 _ i).
Qed.

Lemma deliveries_app xs ys : deliveries (xs ++ ys) = (deliveries xs ++ deliveries ys)%list.
Proof. apply fmap_app. Qed.

(** One order's turn. *)
Definition record_one (last : gmap string string) (m : state) (id : string) : gmap string string :=
  match query_order uuid_in id m with
  | (o, None) => <[id := Order.Status o]> last
  | _ => last
  end.

Lemma solo_check_cons l id ids last m xs :
  fault l = None -> wf (reg m) -> contents (reg m) !! id = Some xs ->
  solo l (check_orders timestamppb_New (id :: ids) last) m =
  match solo l (check_orders timestamppb_New ids (record_one last m id)) m with
  | Some (b, qs, m2) => Some (b, (deliveries (announce last m (time l) id) ++ qs)%list, m2)
  | None => None
  end.
Proof.
  intros Hf Hwf Hxs. cbn [check_orders]. unfold record_one, announce.
  unfold getOrder. rewrite solo_assoc, solo_call. cbn [OrderServer.exec OrderServer.started]. rewrite Hf.
  destruct (query_order uuid_in id m) as [o [e|]]; cbv beta iota; rewrite solo_ret; cbv beta iota.
  { by destruct (solo l _ m) as [[[] ?]|]. }
  destruct (last !! id) as [st|] eqn:Hlast; [destruct (String.eqb_spec (Order.Status o) st) as [<-|Hne]|].
  - rewrite insert_id by done. by destruct (solo l _ m) as [[[] ?]|].
  - unfold list_of. rewrite Hxs.
    rewrite (solo_bind _ _ l _ _ m tt _ m (solo_notifySubscribers l id o m xs Hwf Hxs)).
    by destruct (solo l _ m) as [[[] ?]|].
  - by destruct (solo l _ m) as [[[] ?]|].
Qed.

Lemma solo_check l ids last m :
  fault l = None -> wf (reg m) -> NoDup ids -> (forall id, id ∈ ids -> is_Some (contents (reg m) !! id)) ->
  exists last', solo l (check_orders timestamppb_New ids last) m =
    Some (last', deliveries (concat (announce last m (time l) <$> ids)), m) /\
  forall id, last' !! id = if decide (id ∈ ids) then recorded last m id else last !! id.
Proof.
  intros Hf Hwf. revert last. induction ids as [|id ids IH]; intros last Hnd Hids.
  { exists last. split; [done|]. intros id. by rewrite decide_False by apply not_elem_of_nil. }
  apply NoDup_cons in Hnd as [Hid Hnd].
  assert (is_Some (contents (reg m) !! id)) as [xs Hxs] by (apply Hids; left).
  destruct (IH (record_one last m id) Hnd) as (last' & Hl & Hr); [intros; apply Hids; by right|].
  exists last'. rewrite (solo_check_cons l id ids last m xs), Hl by done. split.
  - simpl. rewrite deliveries_app. do 5 f_equal. unfold record_one.
    destruct (query_order uuid_in id m) as [o [e|]]; [done|]. by apply announce_all_record.
  - intros id'. rewrite Hr. unfold record_one, recorded.
    destruct (decide (id' = id)) as [->|Hne].
    + rewrite decide_False, decide_True by (done || left). rewrite Hxs.
      destruct (query_order uuid_in id m) as [o [e|]]; [done|]. by rewrite lookup_insert_eq.
    + destruct (query_order uuid_in id m) as [o [e|]]; rewrite ?lookup_insert_ne by done;
        repeat case_decide; set_solver.
Qed.
End Poll.

Lemma range_keys_perm l r : wf r -> range_keys l r ≡ₚ (map_to_list (contents r)).*1.
Proof.
  intros Hwf. unfold range_keys, contents. rewrite map_to_list_fmap, <-list_fmap_compose.
  case_bool_decide as Hk; [rewrite Hk|]; apply reflexive_eq, list_fmap_ext; by intros i [] ?.
Qed.

(** C34. What one round of the monitor does when it runs alone and no query fails: for
    every watched order whose status is not the one recorded (if one is), it starts one
    goroutine for each of its subscribers, which is to send this subscriber the current
    row; it starts no other; and the current status of every watched order that exists
    is recorded.  (With a subscriber that leaves in between, see
    [removal_skips_a_subscriber].) *)
Theorem poll_announces_changes {Timestamp : Type} (timestamppb_New : Z -> Timestamp) uuid_in grow
    (l : luck) (s : gpool (streamE Timestamp) state (option error)) i last
    (continue : gmap string string -> goroutine) :
  crash s = None -> wf (reg (memory s)) -> fault l = None ->
  goroutines s !! i = Some (prog_bind (checkForUpdates timestamppb_New last) continue) ->
  (forall last' msg, continue last' <> Panic msg) ->
  exists n ids last',
    ids ≡ₚ (map_to_list (contents (reg (memory s)))).*1 /\
    serve timestamppb_New uuid_in grow (replicate n (Run i l)) s =
      GPool (<[i := continue last']> (goroutines s) ++
             deliveries (concat (announce timestamppb_New uuid_in last (memory s) (time l) <$> ids)))%list
        (memory s) None /\
    forall id, last' !! id = recorded uuid_in last (memory s) id.
Proof.
  intros Hc Hwf Hf Hi Hcont.
  pose proof (range_keys_perm l _ Hwf) as Hperm.
  assert (forall id, id ∈ range_keys l (reg (memory s)) <-> is_Some (contents (reg (memory s)) !! id)) as Hin.
  { intros id. rewrite Hperm, list_elem_of_fmap. split.
    - intros ([id' xs] & -> & Hx%elem_of_map_to_list). by exists xs.
    - intros [xs Hx]. exists (id, xs). by rewrite elem_of_map_to_list. }
  destruct (solo_check timestamppb_New uuid_in grow l (range_keys l (reg (memory s))) last (memory s) Hf Hwf)
    as (last' & Hsolo & Hlast).
  { rewrite Hperm. apply NoDup_fst_map_to_list. }
  { intros id. apply Hin. }
  edestruct (play_solo (@exec Timestamp uuid_in grow) (@started Timestamp) (arrive timestamppb_New) l
    (checkForUpdates timestamppb_New last) continue s i) as [n Hn]; [|done|exact Hi|by apply Hcont|].
  { unfold checkForUpdates. rewrite solo_call. cbn [exec]. by rewrite Hsolo. }
  exists n, (range_keys l (reg (memory s))), last'. split_and!; [done|exact Hn|].
  intros id. rewrite Hlast. case_decide as Hid; [done|].
  unfold recorded. destruct (contents (reg (memory s)) !! id) eqn:E; [|done].
  destruct Hid. apply Hin. by eexists.
Qed.

(** ** After Stop *)

Section Stopped.
Context {Timestamp : Type} (timestamppb_New : Z -> Timestamp).
Context (uuid_in : string -> option string) (grow : nat -> nat) (st0 : nat).
Notation state := (@state Timestamp).
Notation serve := (serve timestamppb_New uuid_in grow).

(** Nothing fails that the network or the database decides, and the client of the
    stream [st0] stays. *)
Definition unhurt (ev : event luck arrival) : Prop :=
  match ev with
  | Run _ l => fault l = None
  | Arrive (Disconnected st) => st <> st0
  | Arrive _ => True
  end.

(** The program closes no channel of the stream's subscribers: a message to the stream
    does not fail. *)
Fixpoint spares {A} (p : prog (streamE Timestamp) A) : Prop :=
  match p with
  | Ret _ | Panic _ => True
  | Do e k =>
      match e in streamE _ X return (X -> Prop) -> Prop with
      | Close s => fun ok => stream s <> st0 /\ forall x, ok x
      | Send st _ => fun ok => forall x, (x <> None -> st <> st0) -> ok x
      | _ => fun ok => forall x, ok x
      end (fun x => spares (k x))
  end.

Lemma spares_bind {A B} (p : prog (streamE Timestamp) A) (f : A -> prog (streamE Timestamp) B) :
  spares p -> (forall a, spares (f a)) -> spares (p ≫= f).
Proof.
  intros Hp Hf. induction p as [a|msg|X e k IH]; [apply Hf|done|]. 
  change (spares (Do e (fun x => k x ≫= f))). destruct e; simpl in Hp |- *;
    try (by intros x; apply IH); [by intros x Hx; apply IH, Hp|destruct Hp as [? Hp]; split; [done|]; intros x; by apply IH].
Qed.

Lemma deliver_spares c u : spares (deliver c u).
Proof. destruct c as [s|]; [|done]. intros [err|] Hx; [|done]. split; [by apply Hx|done]. Qed.

Lemma wait_spares s : spares (wait_for_end s).
Proof. by intros ? ?. Qed.

Lemma subscribe_spares req st : spares (SubscribeToOrderUpdates timestamppb_New req st).
Proof.
  unfold SubscribeToOrderUpdates, getOrder. destruct (String.eqb _ _); [done|].
  intros [o [err|]]; [done|]. intros s now [err|] _; [done|]. apply wait_spares.
Qed.

Lemma notify_spares i n sl u : spares (notify_from (Timestamp := Timestamp) i n sl u).
Proof. revert i; induction n as [|n IH]; intros i; [done|]. intros c []. apply IH. Qed.

Lemma check_spares ids last : spares (check_orders timestamppb_New ids last).
Proof.
  revert last; induction ids as [|id ids IH]; intros last; [done|].
  intros [o [err|]]; [apply IH|]. change (spares (match last !! id with
    | None => check_orders timestamppb_New ids (<[id := Order.Status o]> last)
    | Some was => if String.eqb (Order.Status o) was then check_orders timestamppb_New ids last else
        _ ← notifySubscribers timestamppb_New id o; check_orders timestamppb_New ids (<[id := Order.Status o]> last)
    end)). destruct (last !! id) as [was|]; [|apply IH].
  destruct (String.eqb (Order.Status o) was); [apply IH|]. apply spares_bind; [|intros; apply IH].
  intros sl now. apply notify_spares.
Qed.

Lemma monitor_spares ticks last : spares (monitor timestamppb_New ticks last).
Proof.
  revert last; induction ticks as [|n IH]; intros last; [done|].
  intros [|]; [done|]. apply spares_bind; [|intros; apply IH]. intros ids. apply check_spares.
Qed.

(** The stream works, and no subscriber of it is closed. *)
Record spared (s : gpool (streamE Timestamp) state (option error)) : Prop := {
  spd_closed : forall sub, sub ∈ closed (memory s) -> stream sub <> st0;
  spd_works : st0 ∉ broken (memory s);
  spd_goroutines : forall p, p ∈ goroutines s -> spares p
}.

Lemma step_spared ev s : unhurt ev -> spared s -> spared (serve [ev] s).
Proof.
  intros Hev [Hcl Hbr Hgo]. unfold OrderServer.serve, play. cbn [fold_left]. unfold go_step.
  destruct (crash s); [by split|]. destruct ev as [i l|a].
  - destruct (goroutines s !! i) as [[a|msg|X e k]|] eqn:Hi; try by split.
    pose proof (Hgo _ (list_elem_of_lookup_2 _ _ _ Hi)) as Hp.
    destruct (OrderServer.exec uuid_in grow e l (memory s)) as [x m'| |msg] eqn:Hx; try by split.
    assert (spares (k x) /\ (forall sub, sub ∈ closed m' -> stream sub <> st0) /\ broken m' = broken (memory s)) as (Hk & Hc & Hb).
    { simpl in Hev. destruct e; simpl in Hx, Hp; rewrite ?Hev in Hx; repeat case_match; simplify_eq/=; try done.
      - split_and!; [|done|done]. apply Hp. intros _ ->.
        match goal with H : bool_decide _ = true |- _ => by apply bool_decide_eq_true in H end.
      - split_and!; [by apply Hp|done|done].
      - destruct Hp as [Hs Hp]. split_and!; [apply Hp| |done]. intros sub [->%elem_of_singleton|?]%elem_of_union; [done|by apply Hcl]. }
    split; simpl; [done|by rewrite Hb|]. intros p [Hin|Hin]%elem_of_app.
    + apply list_elem_of_lookup in Hin as [j [(_ & <- & _)|(_ & Hj)]%list_lookup_insert_Some]; [done|].
      by eapply Hgo, list_elem_of_lookup_2.
    + destruct e; try by apply elem_of_nil in Hin. apply list_elem_of_singleton in Hin as ->. apply deliver_spares.
  - destruct a as [req|o|st|]; simpl in Hev |- *; split; simpl; try done; try (set_solver).
    all: intros p [Hin|Hin]%elem_of_app; [by apply Hgo|]; try by apply elem_of_nil in Hin.
    apply list_elem_of_singleton in Hin as ->. apply subscribe_spares.
Qed.

Lemma serve_spared evs s : Forall unhurt evs -> spared s -> spared (serve evs s).
Proof.
  intros Hevs. revert s. induction Hevs as [|ev evs Hev _ IH]; intros s Hs; [done|].
  change (spared (serve evs (serve [ev] s))). by apply IH, step_spared.
Qed.

Lemma start_spared ticks orders : spared (NewOrderServer timestamppb_New ticks orders).
Proof.
  split; simpl; [set_solver|set_solver|]. intros p ->%list_elem_of_singleton. apply monitor_spares.
Qed.

(** [Stop] is for good. *)
Lemma stopped_stays evs s : stopped (memory s) = true -> stopped (memory (serve evs s)) = true.
Proof.
  revert s. induction evs as [|ev evs IH]; intros s Hs; [done|]. apply IH. unfold go_step. destruct (crash s); [done|].
  destruct ev as [i l|a]; [|by destruct a].
  destruct (goroutines s !! i) as [[a|msg|X e k]|]; try done.
  destruct (OrderServer.exec uuid_in grow e l (memory s)) as [x m'| |msg] eqn:Hx; try done.
  destruct e; simpl in Hx; repeat case_match; by simplify_eq/=.
Qed.
End Stopped.

(** C39. [Stop] does not reach the subscribers.  A call of the RPC has come to wait for
    the end of its subscription; then [Stop] is called.  As long as the client stays and
    no message or query fails, the call waits for ever, whatever else happens before and
    after (rounds of the monitor, subscriptions, changes of the orders, other clients
    going away): unless the process has crashed, the server is stopped and the call has
    not returned.  So a graceful stop of the gRPC server, which waits for its calls to
    return, never returns either. *)
Theorem stopped_server_waits_for_ever {Timestamp : Type} (timestamppb_New : Z -> Timestamp) uuid_in grow
    ticks orders evs1 evs2 i sub :
  let server evs := serve timestamppb_New uuid_in grow evs (NewOrderServer timestamppb_New ticks orders) in
  goroutines (server evs1) !! i = Some (wait_for_end sub) ->
  Forall (unhurt (stream sub)) evs1 -> Forall (unhurt (stream sub)) evs2 ->
  let s := server (evs1 ++ [Arrive Stop] ++ evs2)%list in
  (crash s = None -> stopped (memory s) = true) /\ goroutines s !! i = Some (wait_for_end sub).
Proof.
  intros server Hi H1 H2 s.
  assert (forall evs, server (evs1 ++ evs)%list = serve timestamppb_New uuid_in grow evs (server evs1)) as Happ
    by (intros evs; apply play_app).
  assert (forall evs, Forall (unhurt (stream sub)) evs -> spared (stream sub) (server (evs1 ++ evs)%list)) as Hsp.
  { intros evs Hevs. apply serve_spared; [by apply Forall_app|apply start_spared]. }
  split.
  - unfold s. rewrite Happ. change ([Arrive Stop] ++ evs2)%list with (Arrive Stop :: evs2).
    intros Hc. assert (crash (server evs1) = None) as Hc1.
    { destruct (crash (server evs1)) as [msg|] eqn:E; [|done].
      pose proof (play_crashed (@exec Timestamp uuid_in grow) (@started Timestamp) (arrive timestamppb_New)
        (Arrive Stop :: evs2) _ msg E) as Hend. exfalso. unfold serve in Hc. rewrite Hend in Hc. congruence. }
    apply (stopped_stays timestamppb_New uuid_in grow evs2 (serve timestamppb_New uuid_in grow [Arrive Stop] (server evs1))).
    unfold serve, play. cbn [fold_left]. unfold go_step. by rewrite Hc1.
  - unfold s. rewrite Happ.
    assert (forall evs, Forall (unhurt (stream sub)) evs ->
      goroutines (serve timestamppb_New uuid_in grow evs (server evs1)) !! i = Some (wait_for_end sub)) as Hstay.
    { intros evs. induction evs as [|ev evs IH] using rev_ind; intros Hevs; [done|].
      apply Forall_app in Hevs as [Hevs _].
      change (goroutines (play (@exec Timestamp uuid_in grow) (@started Timestamp) (arrive timestamppb_New) (evs ++ [ev])%list (server evs1)) !! i = Some (wait_for_end sub)).
      rewrite play_app. apply go_step_blocked; [|by apply IH].
      intros l. simpl. rewrite bool_decide_eq_false_2; [done|]. intros Hin.
      pose proof (Hsp evs Hevs) as Hs. rewrite Happ in Hs. by apply (spd_closed _ _ Hs) in Hin. }
    apply Hstay. by constructor.
Qed.

(** ** Runs on a small table *)

Definition stream_order (st : string) : Order.t := Order.mk "0a1b" "customer-1" "keyboard" 500 st 0.
Definition no_luck : luck := Luck None 7 [] true.
Definition step (i n : nat) : list (event luck arrival) := replicate n (Run i no_luck).
Definition subscribe : list (event luck arrival) := [Arrive (Subscribe (OrderRequest.mk "0a1b"))].
Definition stream_server (evs : list (event luck arrival)) : gpool (streamE Z) state (option error) :=
  serve id Some doubling evs (NewOrderServer id 5 {["0a1b" := stream_order StatusPending]}).
(** The statuses a stream was told, newest first. *)
Definition told (st : nat) (s : gpool (streamE Z) state (option error)) : list string :=
  (fun x : nat * @update Z => OrderStatusUpdate.Status (snd x)) <$>
    filter (fun x => fst x = st) (sent (memory s)).

Lemma stream_server_good evs :
  good (@exec Z Some doubling) (invariant id Some) later (may id Some)
    (fun msg => msg = close_of_closed) (stream_server evs).
Proof.
  apply serve_good; [apply doubling_fits|]. by intros c o [<- <-]%lookup_singleton_Some.
Qed.

Lemma stream_tells_the_truth_witness :
  let s := stream_server (subscribe ++ step 1 4)%list in
  (forall msg, crash s = Some msg -> msg = close_of_closed) /\
  forall st u, (st, u) ∈ sent (memory s) -> truthful id Some (memory s) st u.
Proof.
  apply (stream_tells_the_truth id Some doubling); [apply doubling_fits|].
  by intros c o [<- <-]%lookup_singleton_Some.
Defined.

(** Two subscribers, one change: the second poll announces it to both. *)
Definition before_poll : gpool (streamE Z) state (option error) :=
  stream_server (subscribe ++ subscribe ++ step 1 4 ++ step 2 4 ++ step 0 3 ++
    [Arrive (RowWritten (stream_order StatusPaid))] ++ step 0 1)%list.

Lemma poll_announces_changes_witness :
  exists n ids last',
    ids ≡ₚ (map_to_list (contents (reg (memory before_poll)))).*1 /\
    serve id Some doubling (replicate n (Run 0 no_luck)) before_poll =
      GPool (<[0%nat := monitor id 3 last']> (goroutines before_poll) ++
             deliveries (concat (announce id Some {["0a1b" := StatusPending]} (memory before_poll) 7 <$> ids)))%list
        (memory before_poll) None /\
    forall i, last' !! i = recorded Some {["0a1b" := StatusPending]} (memory before_poll) i.
Proof.
  apply (poll_announces_changes id Some doubling no_luck before_poll 0 {["0a1b" := StatusPending]}
           (monitor id 3)).
  - vm_compute. reflexivity.
  - apply (inv_wf id Some), (good_memory _ _ _ _ _ _ (stream_server_good _)).
  - reflexivity.
  - reflexivity.
  - by intros.
Defined.

(** A client subscribes and waits; the server stops and its monitor ends; then another
    client comes and the order changes. *)
Lemma stopped_server_waits_for_ever_witness :
  let s := stream_server ((subscribe ++ step 1 4) ++ [Arrive Stop] ++
    step 0 1 ++ subscribe ++ step 2 4 ++ [Arrive (RowWritten (stream_order StatusPaid))] ++ step 1 9)%list in
  (crash s = None -> stopped (memory s) = true) /\
  goroutines s !! 1%nat = Some (wait_for_end (OrderUpdateSubscriber.mk 0 "0a1b" 0)).
Proof.
  apply (stopped_server_waits_for_ever id Some doubling).
  - vm_compute. reflexivity.
  - vm_compute. repeat constructor.
  - vm_compute. repeat constructor.
Defined.

Example stopped_and_waiting :
  let s := stream_server ((subscribe ++ step 1 4) ++ [Arrive Stop] ++ step 0 1 ++ step 1 9)%list in
  crash s = None /\ goroutines s !! 0%nat = Some (Ret None) /\ stopped (memory s) = true.
Proof. vm_compute. done. Qed.

(** A client can miss the only change of its order: the first poll that sees an
    order just records its status, so a change between the subscription and that
    poll is never announced, however often the server polls afterwards. *)
Theorem first_change_can_be_missed :
  let s := stream_server (subscribe ++ step 1 4 ++ [Arrive (RowWritten (stream_order StatusPaid))] ++
                          step 0 20)%list in
  crash s = None /\ goroutines s !! 0%nat = Some (Ret None) /\
  told 0 s = [StatusPending] /\ contents (reg (memory s)) !! "0a1b" <> None /\
  (Order.Status <$> orders_now (memory s) !! "0a1b") = Some StatusPaid.
Proof. vm_compute. repeat split; discriminate. Qed.

(** The monitor reads the subscribers one by one without the lock, and a
    removal shifts them: the first client's message fails and its subscription is
    removed while the monitor is at the second, who is skipped and never learns
    that the order is paid; the third gets the message twice. *)
Theorem removal_skips_a_subscriber :
  let s := stream_server (subscribe ++ subscribe ++ subscribe ++ step 1 4 ++ step 2 4 ++ step 3 4 ++
     step 0 3 ++ [Arrive (RowWritten (stream_order StatusPaid)); Arrive (Disconnected 0)] ++ step 0 7 ++
     step 4 2 ++ step 1 2 ++ step 0 4 ++ step 5 1 ++ step 6 1 ++ step 0 30)%list in
  crash s = None /\ goroutines s !! 0%nat = Some (Ret None) /\
  told 1 s = [StatusPending] /\ told 2 s = [StatusPaid; StatusPaid; StatusPending] /\
  contents (reg (memory s)) !! "0a1b" =
    Some [OrderUpdateSubscriber.mk 1 "0a1b" 1; OrderUpdateSubscriber.mk 2 "0a1b" 2].
Proof. vm_compute. repeat split. Qed.

(** A client that goes away before its first message stays in the map when its
    call has returned, and two later changes of its order close its channel twice:
    the second [close] takes the whole service down. *)
Theorem failed_subscription_crashes_server :
  let left := (subscribe ++ step 1 3 ++ [Arrive (Disconnected 0)] ++ step 1 1)%list in
  let s1 := stream_server left in
  let s2 := stream_server (left ++ step 0 3 ++ [Arrive (RowWritten (stream_order StatusPaid))] ++
     step 0 7 ++ step 2 2 ++ [Arrive (RowWritten (stream_order StatusCancelled))] ++ step 0 7 ++
     step 3 2)%list in
  (exists e, goroutines s1 !! 1%nat = Some (Ret (Some e))) /\
  contents (reg (memory s1)) !! "0a1b" = Some [OrderUpdateSubscriber.mk 0 "0a1b" 0] /\
  crash s1 = None /\ crash s2 = Some close_of_closed.
Proof. vm_compute. split; [by eexists|]. repeat split. Qed.
