(* ===== verification/Publisher.v ===== *)
(** * Payment service: the RabbitMQ publisher

    [PaymentCompletedEvent] (internal/usecase/events.go) and [Publisher]
    (internal/infrastructure/rabbitmq/publisher.go): its connection, one publication,
    its release.  The broker confirms messages one by one, in order, on one channel
    that every publication of the process reads ([br_confirms]). *)

From S2P Require Import Prelude GoLib Json.

Module PaymentCompletedEvent.
Record t := mk {
  EventID : string;
  PaymentID : string;
  OrderID : string;
  AmountCents : Z;
  CustomerEmail : string;
  Status : string
}.
#[export] Instance eq_dec : EqDecision t.
Proof. solve_decision. Defined.
End PaymentCompletedEvent.
#[export] Existing Instance PaymentCompletedEvent.eq_dec.

(** The errors of the driver and of the broker's client do not have the texts
    that the transport layer looks for. *)
Definition transport_texts : list string :=
  ["customer_email is required"; "amount must be greater than zero"; "order_id is required";
   "payment already exists"].
Definition outside (e : error) : Prop :=
  forallb (fun t => negb (Contains (Error e) t)) transport_texts = true.

(** ** One publication *)

Inductive confirmation : Set := CtxDone | Confirmed (ack : bool) | ConfirmsClosed.

(** What goes to the broker: a persistent message, application/json. *)
Record publishing := Publishing { px_exchange : string; px_key : string; px_body : string }.

(** [PublishWithContext], and the select between the context's end and the channel of
    confirmations.  The event a call is about is no argument of the code's: it only
    names, for the proofs, whose publication this is; the broker gets the text. *)
Inductive amqpE : Type -> Type :=
| PublishWithContext (p : publishing) (about : PaymentCompletedEvent.t) : amqpE (option error)
| WaitConfirm (about : PaymentCompletedEvent.t) : amqpE (confirmation * option error).

Definition exchangeName : string := "notifications.events".
Definition exchangeKind : string := "topic".
Definition routingPaymentCompleted : string := "payment.completed".

(** The JSON of [paymentCompletedPayload]. *)
Definition payload_members (e : PaymentCompletedEvent.t) : list (string * json) :=
  let pid := if bool_decide (PaymentCompletedEvent.PaymentID e = "")
             then PaymentCompletedEvent.EventID e else PaymentCompletedEvent.PaymentID e in
  [("event_id", jstring (PaymentCompletedEvent.EventID e));
   ("payment_id", jstring pid);
   ("order_id", jstring (PaymentCompletedEvent.OrderID e));
   ("amount", jint (PaymentCompletedEvent.AmountCents e));
   ("customer_email", jstring (PaymentCompletedEvent.CustomerEmail e));
   ("status", jstring (PaymentCompletedEvent.Status e))].

(** The message of an event. *)
Definition message (e : PaymentCompletedEvent.t) : string := marshal (payload_members e).

Definition errConfirmsClosed : error := ErrorNew "publisher confirms channel closed".
Definition errNotAcked : error := ErrorNew "broker did not ack publish".

Module Publisher.
Section Publisher.
(** The broker's calls, among those of the program that publishes. *)
Context {E : Type -> Type} (amqp : forall X : Type, amqpE X -> E X).

Definition PublishPaymentCompleted (e : PaymentCompletedEvent.t) : prog E (option error) :=
  let body := marshal (payload_members e) in
  err ← call (amqp _ (PublishWithContext (Publishing exchangeName routingPaymentCompleted body) e));
  match err with
  | Some err => mret (Some (Errorf_w "publish: " err))
  | None =>
      '(c, err) ← call (amqp _ (WaitConfirm e));
      match c with
      | CtxDone => mret err
      | ConfirmsClosed => mret (Some errConfirmsClosed)
      | Confirmed ack => if negb ack then mret (Some errNotAcked) else mret None
      end
  end.
End Publisher.
End Publisher.
#[global] Arguments Publisher.PublishPaymentCompleted : simpl never.

(** The broker: the messages it has taken, newest first, each with the event it is
    about; those it has refused or lost; the confirmations on their way, oldest first,
    with the event each is about; and the publications that took the acknowledgement of
    another event's message for their own. *)
Record broker := Broker {
  br_taken : list (PaymentCompletedEvent.t * publishing);
  br_refused : list PaymentCompletedEvent.t;
  br_confirms : list (PaymentCompletedEvent.t * bool);
  br_misread : list (PaymentCompletedEvent.t * PaymentCompletedEvent.t)
}.

Definition no_broker : broker := Broker [] [] [] [].

Definition take_message (e : PaymentCompletedEvent.t) (p : publishing) (b : broker) : broker :=
  Broker ((e, p) :: br_taken b) (br_refused b) (br_confirms b) (br_misread b).
Definition refuse_message (e : PaymentCompletedEvent.t) (b : broker) : broker :=
  Broker (br_taken b) (e :: br_refused b) (br_confirms b) (br_misread b).
Definition confirm (e : PaymentCompletedEvent.t) (ack : bool) (b : broker) : broker :=
  Broker (br_taken b) (br_refused b) (br_confirms b ++ [(e, ack)])%list (br_misread b).

(** The publication of [e] reads the confirmation of [e']. *)
Definition read_confirm (e e' : PaymentCompletedEvent.t) (ack : bool) (rest : list (PaymentCompletedEvent.t * bool))
    (b : broker) : broker :=
  Broker (br_taken b) (br_refused b) rest
    (if ack && negb (bool_decide (e' = e)) then (e, e') :: br_misread b else br_misread b).

(** The JSON of an event as the publisher sends it. *)
Definition publishing_of (e : PaymentCompletedEvent.t) : publishing :=
  Publishing exchangeName routingPaymentCompleted (message e).

(** What is written is taken, or refused or lost; the confirmation of it comes in its
    turn, or never. *)
Definition written (e : PaymentCompletedEvent.t) (p : publishing) (b b' : broker) : Prop :=
  b' = take_message e p b \/ b' = confirm e true (take_message e p b) \/
  b' = refuse_message e b \/ b' = confirm e false (refuse_message e b).

(** A failed write may have got through.  A wait ends with the context, with the
    oldest unread confirmation, whose ever it is, or with the channel. *)
Definition amqp_spec : interface amqpE broker := fun X e =>
  match e in amqpE X return X -> broker -> broker -> Prop with
  | PublishWithContext p e => fun r b b' =>
      (r = None /\ written e p b b') \/
      (exists err, r = Some err /\ outside err /\ (b' = b \/ b' = take_message e p b))
  | WaitConfirm e => fun r b b' =>
      (exists err, r = (CtxDone, Some err) /\ outside err /\ b' = b) \/
      (exists e' ack rest, br_confirms b = (e', ack) :: rest /\ r = (Confirmed ack, None) /\
         b' = read_confirm e e' ack rest b) \/
      (r = (ConfirmsClosed, None) /\ b' = b)
  end.

Lemma outside_facts (e : error) : outside e ->
  Contains (Error e) "customer_email is required" = false /\
  Contains (Error e) "amount must be greater than zero" = false /\
  Contains (Error e) "order_id is required" = false /\
  Contains (Error e) "payment already exists" = false.
Proof. unfold outside. simpl. rewrite !andb_true_iff, !negb_true_iff. intros (? & ? & ? & ? & _). done. Qed.

Lemma outside_prefix s e :
  s ∈ ["save payment: "; "get payment by order: "; "publish: "] -> outside e -> outside (Errorf_w s e).
Proof.
  intros Hs (H1 & H2 & H3 & H4)%outside_facts. unfold outside, transport_texts.
  unfold Errorf_w. cbn [forallb Error]. revert H1 H2 H3 H4. generalize (Error e).
  intros t H1 H2 H3 H4. rewrite !elem_of_cons, elem_of_nil in Hs.
  destruct Hs as [->|[->|[->|[]]]]; simpl; change ("" ++ t) with t; by rewrite H1, H2, H3, H4.
Qed.

(** ** What every call leaves true *)

(** Messages are those of their events, and acknowledgements, misread ones too, are of
    messages that the broker has taken. *)
Record sound_broker (b : broker) : Prop := {
  sb_text : forall e p, (e, p) ∈ br_taken b -> p = publishing_of e;
  sb_confirm : forall e, (e, true) ∈ br_confirms b -> e ∈ (br_taken b).*1;
  sb_misread : forall e e', (e, e') ∈ br_misread b -> e' <> e /\ e' ∈ (br_taken b).*1
}.

Lemma no_broker_sound : sound_broker no_broker.
Proof. split; simpl; intros; by match goal with H : _ ∈ [] |- _ => apply elem_of_nil in H end. Qed.

(** What is taken stays so, and what is refused or misread is not forgotten. *)
Record grown_broker (b b' : broker) : Prop := {
  gb_taken : exists l, br_taken b' = (l ++ br_taken b)%list;
  gb_refused : br_refused b ⊆ br_refused b';
  gb_misread : br_misread b ⊆ br_misread b'
}.

Lemma grown_broker_refl b : grown_broker b b.
Proof. split; [by exists []|done|done]. Qed.
Lemma grown_broker_trans a b c : grown_broker a b -> grown_broker b c -> grown_broker a c.
Proof.
  intros [[l1 E1] ? ?] [[l2 E2] ? ?]. split; [|by etrans..].
  exists (l2 ++ l1)%list. by rewrite E2, E1, app_assoc.
Qed.

Lemma grown_taken b b' e : grown_broker b b' -> e ∈ (br_taken b).*1 -> e ∈ (br_taken b').*1.
Proof. intros [[l ->] _ _] He. rewrite fmap_app. apply elem_of_app. by right. Qed.

Lemma take_sound e b : sound_broker b -> sound_broker (take_message e (publishing_of e) b).
Proof.
  intros [Ht Hc Hm]. split; simpl.
  - intros e' p [[= -> ->]|Hin]%elem_of_cons; [done|by apply Ht].
  - intros e' He'. right. by apply Hc.
  - intros e1 e' [? ?]%Hm. split; [done|by right].
Qed.
Lemma take_grown e p b : grown_broker b (take_message e p b).
Proof. split; [by exists [(e, p)]|done|done]. Qed.

Lemma refuse_sound e b : sound_broker b -> sound_broker (refuse_message e b).
Proof. by intros []. Qed.
Lemma refuse_grown e b : grown_broker b (refuse_message e b).
Proof. split; [by exists []|set_solver|done]. Qed.

Lemma confirm_sound e ack b :
  (ack = true -> e ∈ (br_taken b).*1) -> sound_broker b -> sound_broker (confirm e ack b).
Proof.
  intros Ha [Ht Hc Hm]. split; simpl; [done| |done].
  intros e' [He'|[= -> <-]%list_elem_of_singleton]%elem_of_app; [by apply Hc|by apply Ha].
Qed.
Lemma confirm_grown e ack b : grown_broker b (confirm e ack b).
Proof. split; [by exists []|done|done]. Qed.

Lemma read_sound e e' ack rest b :
  br_confirms b = (e', ack) :: rest -> sound_broker b -> sound_broker (read_confirm e e' ack rest b).
Proof.
  intros Hb [Ht Hc Hm]. rewrite Hb in Hc. split; simpl; [done| |].
  - intros e1 He1. apply Hc. by right.
  - destruct ack; [|exact Hm]. case_bool_decide as Hne; [exact Hm|]. simpl.
    intros e1 e2 [[= -> ->]|Hin]%elem_of_cons; [|by apply Hm]. split; [done|]. apply Hc. by left.
Qed.
Lemma read_grown e e' ack rest b : grown_broker b (read_confirm e e' ack rest b).
Proof. split; simpl; [by exists []|done|]. destruct (_ && _); [|done]. set_solver. Qed.

(** What is published is the event's message. *)
Definition proper_publishing {X} (e : amqpE X) : Prop :=
  match e with PublishWithContext p e => p = publishing_of e | WaitConfirm _ => True end.

Lemma call_grown X (e : amqpE X) r b b' : amqp_spec X e r b b' -> grown_broker b b'.
Proof.
  intros Hs. destruct e as [p e|e]; promise Hs;
    [match goal with H : written _ _ _ _ |- _ => destruct H as [->|[->|[->| ->]]] end|..];
    eauto using take_grown, refuse_grown, confirm_grown, read_grown, grown_broker_refl, grown_broker_trans.
Qed.

Lemma call_sound X (e : amqpE X) r b b' :
  amqp_spec X e r b b' -> proper_publishing e -> sound_broker b -> sound_broker b'.
Proof.
  assert (forall e, e ∈ (br_taken (take_message e (publishing_of e) b)).*1) as Hin by (intros; by left).
  intros Hs Hp Hb. destruct e as [p e|e]; simpl in Hp; [subst p|]; promise Hs;
    [match goal with H : written _ _ _ _ |- _ => destruct H as [->|[->|[->| ->]]] end|..];
    eauto using take_sound, refuse_sound, confirm_sound, read_sound.
  by apply confirm_sound; [|apply refuse_sound].
Qed.

(** The event's message has been taken; or it has been refused or lost, and its
    publisher has taken for its own the acknowledgement of another one, which the
    broker has taken. *)
Definition reported (e : PaymentCompletedEvent.t) (b : broker) : Prop :=
  e ∈ (br_taken b).*1 \/ (e ∈ br_refused b /\ exists e', (e, e') ∈ br_misread b).

Lemma reported_grown e b b' : grown_broker b b' -> reported e b -> reported e b'.
Proof.
  intros Hg [He|(He & e' & He')]; [left; by eapply grown_taken|right].
  split; [by apply (gb_refused _ _ Hg)|]. exists e'. by apply (gb_misread _ _ Hg).
Qed.

(** A message that was written and the acknowledgement that was read for it. *)
Lemma written_reported e b b1 b2 b3 e' rest :
  written e (publishing_of e) b b1 -> grown_broker b1 b2 -> sound_broker b2 ->
  br_confirms b2 = (e', true) :: rest -> b3 = read_confirm e e' true rest b2 -> reported e b3.
Proof.
  intros Hw Hg Hb Hc ->. destruct (decide (e' = e)) as [->|Hne].
  { left. apply (sb_confirm _ Hb). rewrite Hc. by left. }
  assert (e ∈ (br_taken b1).*1 \/ e ∈ br_refused b1) as [He|He].
  { destruct Hw as [->|[->|[->| ->]]]; [left; by left..|right; by left|right; by left]. }
  - left. change (e ∈ (br_taken b2).*1). by eapply grown_taken.
  - right. split; [by apply (gb_refused _ _ Hg)|]. exists e'. simpl. rewrite bool_decide_false by done. by left.
Qed.

(** ** One publication, alone *)

(** A success: the broker has taken the message; or it has refused or lost it, and an
    acknowledgement that was waiting to be read was taken for its own. *)
Definition acknowledged (e : PaymentCompletedEvent.t) (b b' : broker) : Prop :=
  br_taken b' = (e, publishing_of e) :: br_taken b \/
  (br_taken b' = br_taken b /\ e ∈ br_refused b' /\
   exists e' rest, br_confirms b = (e', true) :: rest /\ (e' = e \/ (e, e') ∈ br_misread b')).

(** A failure: the broker may have taken the message all the same. *)
Definition unsure (e : PaymentCompletedEvent.t) (b b' : broker) : Prop :=
  br_taken b' = br_taken b \/ br_taken b' = (e, publishing_of e) :: br_taken b.

Definition publication (e : PaymentCompletedEvent.t) (b : broker) (r : option error) (b' : broker) : Prop :=
  match r with
  | None => acknowledged e b b'
  | Some err => outside err /\ unsure e b b'
  end.

Lemma publication_unsure e b r b' : publication e b r b' -> unsure e b b'.
Proof. destruct r; [by intros [_ ?]|]. intros [?|(? & _)]; [by right|by left]. Qed.

Lemma written_unsure e b b' : written e (publishing_of e) b b' -> unsure e b b'.
Proof. intros [->|[->|[->| ->]]]; [by right|by right|by left..]. Qed.

Lemma written_read e e' rest b b' :
  written e (publishing_of e) b b' -> br_confirms b' = (e', true) :: rest ->
  acknowledged e b (read_confirm e e' true rest b') /\ (br_confirms b = [] -> rest = []).
Proof.
  intros Hw Hc. assert (e' = e \/ (e, e') ∈ br_misread (read_confirm e e' true rest b')) as Hm.
  { simpl. case_bool_decide; [by left|right; by left]. }
  unfold acknowledged.
  destruct Hw as [->|[->|[->| ->]]]; simpl in Hc |- *; (split; [|intros E; rewrite E in Hc; by simplify_list_eq]);
    try (by left); right; (split; [done|]); (split; [by left|]).
  - by exists e', rest.
  - destruct (br_confirms b) as [|[e1 a] l] eqn:Hb; simpl in Hc; simplify_eq. by exists e', l.
Qed.

(** Within a program whose state has the broker as a part. *)
Section Within.
Context {E : Type -> Type} {V : Type} (amqp : forall X : Type, amqpE X -> E X).
Context (whole : interface E V) (get : V -> broker) (put : broker -> V -> V).
Context (put_get : forall v, put (get v) v = v) (get_put : forall b v, get (put b v) = b).
Context (put_put : forall b b' v, put b (put b' v) = put b v).
Context (amqp_calls : forall X (e : amqpE X) x v v', whole X (amqp X e) x v v' ->
           exists b, amqp_spec X e x (get v) b /\ v' = put b v).

Lemma publish_alone e v :
  holds whole (Publisher.PublishPaymentCompleted amqp e)
    (fun r v' => exists b, v' = put b v /\ publication e (get v) r b /\
       (br_confirms (get v) = [] -> r = None -> br_confirms b = [])) v.
Proof using All.
  unfold Publisher.PublishPaymentCompleted. change (Publishing _ _ _) with (publishing_of e).
  apply holds_bind, holds_call. intros r v1 (b1 & Hs & ->)%amqp_calls. promise Hs.
  - apply holds_bind, holds_call. intros [c err] v2 (b2 & Hs & ->)%amqp_calls. rewrite get_put, put_put in *.
    promise Hs; hrun; eexists; (split; [done|]);
      try (split; [split; [done|by apply written_unsure]|done]);
      try (split; [split; [done|]|done]; match goal with H : written _ _ _ _ |- _ => exact (written_unsure _ _ _ H) end).
    destruct x0; [|done]. edestruct written_read as [? ?]; [done..|]. by split; [|auto].
  - apply holds_ret. exists (get v). rewrite put_get. split; [done|]. split; [|done].
    split; [apply outside_prefix; [set_solver|done]|by left].
  - apply holds_ret. eexists. split; [done|]. split; [|done].
    split; [apply outside_prefix; [set_solver|done]|by right].
Qed.
End Within.

(** ** Properties *)

Section PublisherProperties.
Context {W : Type} (h : handler amqpE W) (obs : W -> broker) `{!Refines h obs amqp_spec}.

(** C36. One publication that runs alone, over a broker in any state: it returns; an
    error means that the broker has taken this very message or nothing; success means
    that it has taken this very message, or else that it has refused or lost it and an
    acknowledgement was waiting to be read, of an earlier publication, which this one
    took for its own.  So when no confirmation is waiting, success means that the broker
    has taken this very message, and again none is waiting. *)
Theorem publish_confirmed e w :
  exists r w', run h (Publisher.PublishPaymentCompleted (fun X e => e) e) w = (Done r, w') /\
    publication e (obs w) r (obs w') /\
    (br_confirms (obs w) = [] -> r = None ->
     br_taken (obs w') = (e, publishing_of e) :: br_taken (obs w) /\ br_confirms (obs w') = []).
Proof.
  destruct (holds_run amqp_spec h obs _ _ w (publish_alone (fun X e => e) amqp_spec (fun b => b) (fun b _ => b)
    ltac:(done) ltac:(done) ltac:(done) ltac:(eauto) e (obs w))) as (r & w' & Hrun & b & <- & Hp & Hc).
  exists r, w'. split_and!; [done|done|]. intros Hn ->. split; [|by apply Hc].
  destruct Hp as [Ht|(_ & _ & e' & rest & Hb & _)]; [done|congruence].
Qed.
End PublisherProperties.

(** The connection's failure. *)
Definition pmem_error : error := ErrorNew "connection reset by peer".

(** A broker whose script says what becomes of each call. *)
Inductive broker_step : Set := STake | SRefuse | SFail | STimeout | SRead.
Definition broker_mem : handler amqpE (broker * list broker_step) := fun X e '(b, script) =>
  match e in amqpE X return outcome X * (broker * list broker_step) with
  | PublishWithContext p e =>
      match head script with
      | Some SFail => (Done (Some pmem_error), (b, tail script))
      | Some SRefuse => (Done None, (confirm e false (refuse_message e b), tail script))
      | _ => (Done None, (confirm e true (take_message e p b), tail script))
      end
  | WaitConfirm e =>
      match head script, br_confirms b with
      | Some STimeout, _ | _, [] => (Done (CtxDone, Some context_DeadlineExceeded), (b, tail script))
      | _, (e', ack) :: rest => (Done (Confirmed ack, None), (read_confirm e e' ack rest b, tail script))
      end
  end.

#[export] Instance broker_refines : Refines broker_mem fst amqp_spec.
Proof.
  assert (outside pmem_error) as He by done. assert (outside context_DeadlineExceeded) as Hd by done.
  intros X e [b script]. destruct e as [p e|e]; cbn [broker_mem].
  - destruct (head script) as [[]|]; do 2 eexists; (split; [reflexivity|]); simpl; unfold written; eauto 8.
  - destruct (head script) as [[]|], (br_confirms b) as [|[e' ack] rest] eqn:Hc;
      do 2 eexists; (split; [reflexivity|]); simpl; rewrite ?Hc; eauto 8.
Qed.

Definition sample_event (id : string) : PaymentCompletedEvent.t :=
  PaymentCompletedEvent.mk id id ("order-" ++ id) 500 "ann@example.com" "Authorized".

Lemma publish_confirmed_witness :
  let w := (no_broker, [STake; SRead]) in
  exists r w', run broker_mem (Publisher.PublishPaymentCompleted (fun X e => e) (sample_event "1")) w = (Done r, w') /\
    publication (sample_event "1") (fst w) r (fst w') /\
    (br_confirms (fst w) = [] -> r = None ->
     br_taken (fst w') = (sample_event "1", publishing_of (sample_event "1")) :: br_taken (fst w) /\
     br_confirms (fst w') = []).
Proof. exact (publish_confirmed broker_mem fst (sample_event "1") (no_broker, _)). Defined.

(** After one publication timed out waiting for its confirmation, the next one
    reads that confirmation as its own: here the broker takes the first message
    and refuses the second, and the publisher reports the first as failed and the
    second as published. *)
Theorem confirmation_read_by_the_next :
  let b0 := (no_broker, [STake; STimeout; SRefuse; SRead]) in
  let '(r1, b1) := run broker_mem (Publisher.PublishPaymentCompleted (fun X e => e) (sample_event "1")) b0 in
  let '(r2, b2) := run broker_mem (Publisher.PublishPaymentCompleted (fun X e => e) (sample_event "2")) b1 in
  r1 = Done (Some context_DeadlineExceeded) /\ r2 = Done None /\
  (br_taken (fst b2)).*1 = [sample_event "1"] /\ br_misread (fst b2) = [(sample_event "2", sample_event "1")].
Proof. vm_compute. split_and!; reflexivity. Qed.

(** ** Connecting and closing *)

(** [amqp.Table], of texts. *)
Definition Table : Type := gmap string string.

(** The calls of [DialPublisher] and [Close]; the broker's connection and channel
    are open or not. *)
Inductive dialE : Type -> Type :=
| AmqpDial (url : string) : dialE (option error)
| AmqpChannel : dialE (option error)
| AmqpConfirm (noWait : bool) : dialE (option error)
| AmqpExchangeDeclare (name kind : string) (durable autoDelete internal noWait : bool) (args : Table) : dialE (option error)
| AmqpCloseChannel : dialE (option error)
| AmqpCloseConnection : dialE (option error).

Definition DialPublisher (amqpURL : string) : prog dialE (option error) :=
  err ← call (AmqpDial amqpURL);
  match err with
  | Some err => mret (Some (Errorf_w "rabbitmq dial: " err))
  | None =>
      err ← call AmqpChannel;
      match err with
      | Some err =>
          _ ← call AmqpCloseConnection;
          mret (Some (Errorf_w "rabbitmq channel: " err))
      | None =>
          err ← call (AmqpConfirm false);
          match err with
          | Some err =>
              _ ← call AmqpCloseChannel;
              _ ← call AmqpCloseConnection;
              mret (Some (Errorf_w "rabbitmq confirm mode: " err))
          | None =>
              err ← call (AmqpExchangeDeclare exchangeName exchangeKind true false false false ∅);
              match err with
              | Some err =>
                  _ ← call AmqpCloseChannel;
                  _ ← call AmqpCloseConnection;
                  mret (Some (Errorf_w "rabbitmq exchange declare: " err))
              | None => mret None
              end
          end
      end
  end.

(** [Publisher.Close] of a publisher that may be nil and whose channel and
    connection may be: the channel's error is reported first. *)
Definition PublisherClose (p : option (bool * bool)) : prog dialE (option error) :=
  match p with
  | None => mret None
  | Some (ch, conn) =>
      err ← (if ch : bool then call AmqpCloseChannel else mret None);
      if conn : bool then
        cerr ← call AmqpCloseConnection;
        mret (match cerr, err with Some cerr, None => Some cerr | _, _ => err end)
      else mret err
  end.

Record amqp_state := AmqpState { conn_open : bool; chan_open : bool }.

Definition dial_spec : interface dialE amqp_state := fun X e =>
  match e in dialE X return X -> amqp_state -> amqp_state -> Prop with
  | AmqpDial _ => fun r s s' =>
      (r = None /\ s' = AmqpState true (chan_open s)) \/ ((exists e, r = Some e) /\ s' = s)
  | AmqpChannel => fun r s s' =>
      (r = None /\ s' = AmqpState (conn_open s) true) \/ ((exists e, r = Some e) /\ s' = s)
  | AmqpConfirm _ | AmqpExchangeDeclare _ _ _ _ _ _ _ => fun _ s s' => s' = s
  | AmqpCloseChannel => fun _ s s' => s' = AmqpState (conn_open s) false
  | AmqpCloseConnection => fun _ s s' => s' = AmqpState false false
  end.

Definition dial_mem : handler dialE (amqp_state * list bool) := fun X e '(s, faults) =>
  let r := if default false (head faults) then Some pmem_error else None in
  match e in dialE X return outcome X * (amqp_state * list bool) with
  | AmqpDial _ => (Done r, (if r then s else AmqpState true (chan_open s), tail faults))
  | AmqpChannel => (Done r, (if r then s else AmqpState (conn_open s) true, tail faults))
  | AmqpConfirm _ => (Done r, (s, tail faults))
  | AmqpExchangeDeclare _ _ _ _ _ _ _ => (Done r, (s, tail faults))
  | AmqpCloseChannel => (Done r, (AmqpState (conn_open s) false, tail faults))
  | AmqpCloseConnection => (Done r, (AmqpState false false, tail faults))
  end.

#[export] Instance dial_refines : Refines dial_mem fst dial_spec.
Proof.
  intros X e [s faults]. destruct e; cbn [dial_mem]; destruct (default false (head faults));
    do 2 eexists; (split; [reflexivity|]); simpl; eauto.
Qed.

Section ConnectionProperties.
Context {W : Type} (h : handler dialE W) (obs : W -> amqp_state) `{!Refines h obs dial_spec}.

(** Connecting leaks nothing: [DialPublisher] either succeeds, with connection
    and channel open, or fails with both closed; closing a publisher closes both. *)
Theorem dial_leaks_nothing url w :
  obs w = AmqpState false false ->
  exists r w1 r' w2, run h (DialPublisher url) w = (Done r, w1) /\
    obs w1 = (if r then AmqpState false false else AmqpState true true) /\
    run h (PublisherClose (Some (true, true))) w1 = (Done r', w2) /\ obs w2 = AmqpState false false.
Proof.
  intros Hw.
  assert (holds dial_spec (DialPublisher url)
    (fun r s => s = (if r then AmqpState false false else AmqpState true true)) (obs w)) as Hdial.
  { rewrite Hw. unfold DialPublisher. hrun; done. }
  destruct (holds_run dial_spec h obs _ _ w Hdial) as (r & w1 & Hrun & Hs).
  assert (holds dial_spec (PublisherClose (Some (true, true))) (fun _ s => s = AmqpState false false) (obs w1)) as Hclose.
  { unfold PublisherClose. hrun; done. }
  destruct (holds_run dial_spec h obs _ _ w1 Hclose) as (r' & w2 & Hrun' & Hs').
  by exists r, w1, r', w2.
Qed.
End ConnectionProperties.

(** The exchange cannot be declared. *)
Lemma dial_leaks_nothing_witness :
  exists r w1 r' w2,
    run dial_mem (DialPublisher "amqp://localhost") (AmqpState false false, [false; false; false; true])
      = (Done r, w1) /\
    fst w1 = (if r then AmqpState false false else AmqpState true true) /\
    run dial_mem (PublisherClose (Some (true, true))) w1 = (Done r', w2) /\ fst w2 = AmqpState false false.
Proof. exact (dial_leaks_nothing dial_mem fst "amqp://localhost"
           (AmqpState false false, [false; false; false; true]) eq_refl). Defined.
