(* ===== verification/PaymentUsecase.v ===== *)
(** * Payment service: domain, ports and use cases

    [AuthorizePayment] and [GetPaymentByOrder] of payment-service/internal/usecase
    over the repository, the clock, the UUID generator and the broker, with what those
    promise ([ports_spec]) and what the use cases make of it.  The use case's publisher
    is the one that main gives it: that of Publisher, or none. *)

From S2P Require Import Prelude GoLib Publisher.

Module Payment.
Record t := mk {
  ID : string;
  OrderID : string;
  TransactionID : string;
  Amount : Z;
  Status : string;
  CreatedAt : Z
}.
Definition set_ID (i : string) (p : t) : t :=
  mk i (OrderID p) (TransactionID p) (Amount p) (Status p) (CreatedAt p).
Definition set_CreatedAt (c : Z) (p : t) : t :=
  mk (ID p) (OrderID p) (TransactionID p) (Amount p) (Status p) c.
#[export] Instance eq_dec : EqDecision t.
Proof. solve_decision. Defined.

Definition StatusAuthorized : string := "Authorized".
Definition StatusDeclined : string := "Declined".
Definition MaxAuthorizedAmountCents : Z := 100000.
End Payment.

Module PaymentPorts.
Inductive E : Type -> Type :=
| Save (p : Payment.t) : E (option error)
| GetByOrderID (orderID : string) : E (option Payment.t * option error)
| OnBroker {X : Type} (e : amqpE X) : E X
| Now : E Z
| NewString : E string.
End PaymentPorts.
Import PaymentPorts.

Module AuthorizePaymentInput.
Record t := mk { OrderID : string; Amount : Z; CustomerEmail : string }.
End AuthorizePaymentInput.

Module AuthorizePaymentOutput.
Record t := mk {
  PaymentID : string;
  TransactionID : string;
  Status : string;
  Amount : Z;
  CreatedAt : Z
}.
End AuthorizePaymentOutput.

(** The status the ceiling gives an amount. *)
Definition status_of_amount (amount : Z) : string :=
  if Payment.MaxAuthorizedAmountCents <? amount then Payment.StatusDeclined
  else Payment.StatusAuthorized.

Definition errAmount : error := ErrorNew "amount must be greater than zero".
Definition errOrderID : error := ErrorNew "order_id is required".
Definition errExists : error := ErrorNew "payment already exists for this order".
Definition errEmail : error := ErrorNew "customer_email is required for authorized payments".

Module AuthorizePayment.
Section AuthorizePayment.
(** Whether the use case has a publisher ([pub] is not nil). *)
Context (pub : bool).

Definition output (p : Payment.t) : AuthorizePaymentOutput.t :=
  AuthorizePaymentOutput.mk (Payment.ID p) (Payment.TransactionID p) (Payment.Status p)
    (Payment.Amount p) (Payment.CreatedAt p).

Definition event (p : Payment.t) (email : string) : PaymentCompletedEvent.t :=
  PaymentCompletedEvent.mk (Payment.ID p) (Payment.ID p) (Payment.OrderID p) (Payment.Amount p)
    email (Payment.Status p).

(** [Execute] once the payment is saved. *)
Definition publish (p : Payment.t) (customerEmail : string) :
    prog E (option AuthorizePaymentOutput.t * option error) :=
  if bool_decide (Payment.Status p = Payment.StatusAuthorized) && pub then
    let email := TrimSpace customerEmail in
    if bool_decide (email = "") then mret (None, Some errEmail) else
    err ← Publisher.PublishPaymentCompleted (fun X => OnBroker) (event p email);
    match err with
    | Some err => mret (None, Some (Errorf_w "publish payment completed event: " err))
    | None => mret (Some (output p), None)
    end
  else mret (Some (output p), None).

Definition Execute (in_ : AuthorizePaymentInput.t) :
    prog E (option AuthorizePaymentOutput.t * option error) :=
  if AuthorizePaymentInput.Amount in_ <=? 0 then mret (None, Some errAmount) else
  if bool_decide (AuthorizePaymentInput.OrderID in_ = "") then mret (None, Some errOrderID) else
  '(existing, err) ← call (GetByOrderID (AuthorizePaymentInput.OrderID in_));
  match err with
  | Some err => mret (None, Some err)
  | None =>
      match existing with
      | Some _ => mret (None, Some errExists)
      | None =>
          now ← call Now;
          paymentID ← call NewString;
          txnID ← call NewString;
          let p := Payment.mk paymentID (AuthorizePaymentInput.OrderID in_) txnID
                     (AuthorizePaymentInput.Amount in_)
                     (status_of_amount (AuthorizePaymentInput.Amount in_)) now in
          err ← call (Save p);
          match err with
          | Some err => mret (None, Some err)
          | None => publish p (AuthorizePaymentInput.CustomerEmail in_)
          end
      end
  end.
End AuthorizePayment.
End AuthorizePayment.

Module GetPaymentByOrder.
Definition Execute (orderID : string) : prog E (option Payment.t * option error) :=
  if bool_decide (orderID = "") then mret (None, Some errOrderID)
  else call (GetByOrderID orderID).
End GetPaymentByOrder.

#[global] Arguments AuthorizePayment.Execute : simpl never.
#[global] Arguments AuthorizePayment.publish : simpl never.
#[global] Arguments GetPaymentByOrder.Execute : simpl never.

(** ** What the use cases see: the payments table, by order, and the broker *)

Record pview := PView {
  payments : gmap string Payment.t;
  pv_broker : broker
}.

(** What the messages are about that the broker has taken. *)
Definition events (v : pview) : list PaymentCompletedEvent.t := (br_taken (pv_broker v)).*1.

Definition put_broker (b : broker) (v : pview) : pview := PView (payments v) b.

Section Spec.
(** PostgreSQL's reading of a text as a UUID, and its rounding of a timestamp. *)
Context (uuid_in : string -> option string) (tstz : Z -> Z).

(** The row a payment gets; the table has one row per order ([uq_payments_order_id])
    and unique ids and transaction ids. *)
Definition saved (p : Payment.t) (v v' : pview) : Prop :=
  exists c, uuid_in (Payment.ID p) = Some c /\
  payments v !! Payment.OrderID p = None /\ 0 < Payment.Amount p /\
  Payment.Status p ∈ [Payment.StatusAuthorized; Payment.StatusDeclined] /\
  (forall o q, payments v !! o = Some q ->
     Payment.ID q <> c /\ Payment.TransactionID q <> Payment.TransactionID p) /\
  v' = PView (<[Payment.OrderID p := Payment.set_ID c (Payment.set_CreatedAt (tstz (Payment.CreatedAt p)) p)]>
                (payments v)) (pv_broker v).

(** Every call may fail, and a failed write may still have taken effect. *)
Definition ports_spec : interface E pview := fun X e =>
  match e in E X return X -> pview -> pview -> Prop with
  | Save p => fun r v v' =>
      (r = None /\ saved p v v') \/
      (exists e, r = Some e /\ outside e /\ (v' = v \/ saved p v v'))
  | GetByOrderID id => fun r v v' =>
      v' = v /\ (r = (payments v !! id, None) \/ exists e, r = (None, Some e) /\ outside e)
  | OnBroker e => fun r v v' => exists b, amqp_spec _ e r (pv_broker v) b /\ v' = put_broker b v
  | Now => fun _ v v' => v' = v
  | NewString => fun id v v' => uuid_in id = Some id /\ v' = v
  end.
End Spec.

(** ** Every way through [AuthorizePayment.Execute] *)

(** The status an amount calls for: authorized up to 1000 dollars. *)
Definition called_for (amount : Z) : string := if amount <=? 100000 then "Authorized" else "Declined".

Lemma status_called_for amount : status_of_amount amount = called_for amount.
Proof.
  unfold status_of_amount, called_for, Payment.MaxAuthorizedAmountCents.
  by destruct (Z.ltb_spec 100000 amount), (Z.leb_spec amount 100000); try lia.
Qed.

Section AuthorizeFacts.
Context (uuid_in : string -> option string) (tstz : Z -> Z) (pub : bool).
Notation spec := (ports_spec uuid_in tstz).
Notation saved := (saved uuid_in tstz).

Definition valid_authorization (in_ : AuthorizePaymentInput.t) : bool :=
  (0 <? AuthorizePaymentInput.Amount in_)
  && negb (bool_decide (AuthorizePaymentInput.OrderID in_ = "")).

(** The payment an accepted request makes, under a fresh canonical id. *)
Definition payment_of (in_ : AuthorizePaymentInput.t) (p : Payment.t) : Prop :=
  uuid_in (Payment.ID p) = Some (Payment.ID p) /\
  Payment.OrderID p = AuthorizePaymentInput.OrderID in_ /\
  Payment.Amount p = AuthorizePaymentInput.Amount in_ /\
  Payment.Status p = called_for (AuthorizePaymentInput.Amount in_).

(** Whether an event has to be published for it. *)
Definition announced (p : Payment.t) : bool :=
  bool_decide (Payment.Status p = Payment.StatusAuthorized) && pub.

Inductive authorize_outcome (in_ : AuthorizePaymentInput.t) (v : pview) :
    option AuthorizePaymentOutput.t * option error -> pview -> Prop :=
| AutInvalid e :
    valid_authorization in_ = false -> e = errAmount \/ e = errOrderID ->
    authorize_outcome in_ v (None, Some e) v
| AutUnread e :
    valid_authorization in_ = true -> outside e ->
    authorize_outcome in_ v (None, Some e) v
| AutExists p :
    valid_authorization in_ = true ->
    payments v !! AuthorizePaymentInput.OrderID in_ = Some p ->
    authorize_outcome in_ v (None, Some errExists) v
| AutNotSaved p e v' :
    valid_authorization in_ = true -> payment_of in_ p ->
    payments v !! AuthorizePaymentInput.OrderID in_ = None -> outside e ->
    v' = v \/ saved p v v' ->
    authorize_outcome in_ v (None, Some e) v'
| AutNoEmail p v' :
    valid_authorization in_ = true -> payment_of in_ p -> saved p v v' -> announced p = true ->
    TrimSpace (AuthorizePaymentInput.CustomerEmail in_) = "" ->
    authorize_outcome in_ v (None, Some errEmail) v'
| AutNotPublished p e v1 v' :
    valid_authorization in_ = true -> payment_of in_ p -> saved p v v1 -> announced p = true ->
    TrimSpace (AuthorizePaymentInput.CustomerEmail in_) <> "" ->
    publication (AuthorizePayment.event p (TrimSpace (AuthorizePaymentInput.CustomerEmail in_)))
      (pv_broker v1) (Some e) (pv_broker v') ->
    payments v' = payments v1 ->
    authorize_outcome in_ v
      (None, Some (Errorf_w "publish payment completed event: " e)) v'
| AutSilent p v' :
    valid_authorization in_ = true -> payment_of in_ p -> saved p v v' -> announced p = false ->
    authorize_outcome in_ v (Some (AuthorizePayment.output p), None) v'
| AutDone p v1 v' :
    valid_authorization in_ = true -> payment_of in_ p -> saved p v v1 -> announced p = true ->
    TrimSpace (AuthorizePaymentInput.CustomerEmail in_) <> "" ->
    publication (AuthorizePayment.event p (TrimSpace (AuthorizePaymentInput.CustomerEmail in_)))
      (pv_broker v1) None (pv_broker v') ->
    payments v' = payments v1 ->
    authorize_outcome in_ v (Some (AuthorizePayment.output p), None) v'.

Lemma publish_outcome p email v :
  holds spec (Publisher.PublishPaymentCompleted (fun X => OnBroker) (AuthorizePayment.event p email))
    (fun r v' => publication (AuthorizePayment.event p email) (pv_broker v) r (pv_broker v') /\
       payments v' = payments v) v.
Proof.
  eapply holds_mono.
  - apply (publish_alone _ spec pv_broker put_broker); try done. by intros [].
  - by intros r v' (b & -> & Hp & _).
Qed.

Lemma authorize_all in_ v :
  holds spec (AuthorizePayment.Execute pub in_) (authorize_outcome in_ v) v.
Proof.
  unfold AuthorizePayment.Execute, AuthorizePayment.publish. rewrite status_called_for.
  destruct (Z.leb_spec (AuthorizePaymentInput.Amount in_) 0).
  { apply holds_ret, AutInvalid; [|by left]. unfold valid_authorization.
    by rewrite (proj2 (Z.ltb_ge 0 _)). }
  case_bool_decide as Hid.
  { apply holds_ret, AutInvalid; [|by right]. unfold valid_authorization.
    by rewrite Hid, andb_false_r. }
  assert (valid_authorization in_ = true) as Hv.
  { unfold valid_authorization. by rewrite bool_decide_false, (proj2 (Z.ltb_lt 0 _)). }
  hrun; simplify_eq;
    repeat match goal with H : bool_decide (TrimSpace _ = _) = true |- _ => apply bool_decide_eq_true in H
           | H : bool_decide (TrimSpace _ = _) = false |- _ => apply bool_decide_eq_false in H end.
  all: try solve
    [ eapply AutExists; eauto
    | eapply AutNoEmail; eauto; by split_and!
    | eapply AutSilent; eauto; by split_and!
    | eapply AutUnread; eauto
    | eapply AutNotSaved with (p := Payment.mk _ _ _ _ _ _); eauto; by split_and! ].
  eapply holds_mono; [apply publish_outcome|]. intros [err|] v' [Hp Hpay]; apply holds_ret.
  - eapply AutNotPublished; eauto; by split_and!.
  - eapply AutDone; eauto; by split_and!.
Qed.
End AuthorizeFacts.
