(* ===== verification/PaymentProps.v ===== *)
(** * Payment service: the properties of the use cases *)

From S2P Require Import Prelude GoLib Json Publisher PaymentUsecase.
Import PaymentPorts.

(** A request to the payment service. *)
Inductive payment_request : Type :=
| ReqAuthorize (in_ : AuthorizePaymentInput.t)
| ReqPayment (orderID : string).

Definition payment_answer : Type :=
  (option AuthorizePaymentOutput.t * option error) + (option Payment.t * option error).

Definition serve_payment (pub : bool) (r : payment_request) : prog E payment_answer :=
  match r with
  | ReqAuthorize in_ => x ← AuthorizePayment.Execute pub in_; mret (inl x)
  | ReqPayment id => x ← GetPaymentByOrder.Execute id; mret (inr x)
  end.

Fixpoint run_payments (pub : bool) (rs : list payment_request) : prog E (list payment_answer) :=
  match rs with
  | [] => mret []
  | r :: rs => x ← serve_payment pub r; xs ← run_payments pub rs; mret (x :: xs)
  end.

(** ** The ledger's invariant *)

(** [e] announces the authorized payment [p]. *)
Definition announces (p : Payment.t) (e : PaymentCompletedEvent.t) : Prop :=
  Payment.Status p = Payment.StatusAuthorized /\
  PaymentCompletedEvent.CustomerEmail e <> "" /\
  e = AuthorizePayment.event p (PaymentCompletedEvent.CustomerEmail e).

Record ledger (v : pview) : Prop := {
  led_row : forall o p, payments v !! o = Some p ->
    Payment.OrderID p = o /\ 0 < Payment.Amount p /\
    Payment.Status p = called_for (Payment.Amount p);
  led_id : forall o1 o2 p1 p2, payments v !! o1 = Some p1 -> payments v !! o2 = Some p2 ->
    Payment.ID p1 = Payment.ID p2 -> o1 = o2;
  led_event : forall e, e ∈ events v -> exists p,
    payments v !! PaymentCompletedEvent.OrderID e = Some p /\ announces p e;
  led_broker : sound_broker (pv_broker v)
}.

(** Payments are only added, and so are messages. *)
Definition grown (v v' : pview) : Prop :=
  payments v ⊆ payments v' /\ grown_broker (pv_broker v) (pv_broker v').

Lemma grown_refl v : grown v v.
Proof. split; [done|apply grown_broker_refl]. Qed.
Lemma grown_trans u v w : grown u v -> grown v w -> grown u w.
Proof. intros [H1 E1] [H2 E2]. split; [by etrans|by eapply grown_broker_trans]. Qed.

Lemma grown_events v v' : grown v v' -> exists l, events v' = (l ++ events v)%list.
Proof. intros [_ [[l Hl] _ _]]. exists l.*1. unfold events. by rewrite Hl, fmap_app. Qed.

Section Ledger.
Context (uuid_in : string -> option string) (tstz : Z -> Z) (pub : bool).
Notation spec := (ports_spec uuid_in tstz).
Notation saved := (saved uuid_in tstz).

Lemma saved_grown p v v' : saved p v v' -> grown v v'.
Proof. intros (? & ? & ? & _ & _ & _ & ->). split; [by apply insert_subseteq|apply grown_broker_refl]. Qed.

Lemma saved_ledger p v v' :
  saved p v v' -> Payment.Status p = called_for (Payment.Amount p) ->
  ledger v -> ledger v'.
Proof.
  intros (c & _ & Hn & Ha & _ & Hu & ->) Hs [Hrow Hid Hev Hbr]. split; simpl; [..|exact Hbr].
  - intros o q [[<- <-]|[? ?]]%lookup_insert_Some; [done|by apply Hrow].
  - intros o1 o2 p1 p2 [[<- <-]|[? H1]]%lookup_insert_Some [[<- <-]|[? H2]]%lookup_insert_Some;
      simpl; [done|intros E; symmetry in E; by apply Hu in H2 as []|
              intros E; by apply Hu in H1 as []|by eapply Hid].
  - intros e (q & Hq & He)%Hev. exists q. split; [|done].
    rewrite lookup_insert_ne; [done|]. intros E. rewrite <-E in Hq. congruence.
Qed.

(** A thread saves only what the ceiling allows and announces only what it saved. *)
Definition may_pay (X : Type) (e : E X) (v : pview) : Prop :=
  match e with
  | Save p => Payment.Status p = called_for (Payment.Amount p)
  | OnBroker (PublishWithContext p e) => p = publishing_of e /\
      exists p, payments v !! PaymentCompletedEvent.OrderID e = Some p /\ announces p e
  | _ => True
  end.

(** What the broker takes newly is what is being published. *)
Lemma newly_taken X (e : amqpE X) r b b' e' :
  amqp_spec X e r b b' -> e' ∈ (br_taken b').*1 -> e' ∈ (br_taken b).*1 \/
    match e with PublishWithContext _ e => e' = e | WaitConfirm _ => False end.
Proof.
  intros Hs Hin. destruct e as [p e|e]; promise Hs; try (by left);
    [match goal with H : written _ _ _ _ |- _ => destruct H as [->|[->|[->| ->]]] end|];
    simpl in Hin; try (by left); apply elem_of_cons in Hin as [->|Hin]; auto.
Qed.

Lemma call_grows X (e : E X) x v v' : spec X e x v v' -> grown v v'.
Proof.
  intros Hs. destruct e as [| |X e| |]; [..|]; cycle 2.
  { destruct Hs as (b & Hs & ->). split; [done|by eapply call_grown]. }
  all: promise Hs; eauto using grown_refl, saved_grown.
Qed.

#[global] Instance ledger_discipline : Discipline spec ledger grown may_pay.
Proof.
  split; [exact grown_refl|exact grown_trans|].
  intros X e x v1 v2 H HM HI.
  destruct e as [| |X e| |]; [..|]; cycle 2.
  { destruct H as (b & Hs & ->). destruct HI as [Hrow Hid Hev Hbr].
    pose proof (call_grown _ _ _ _ _ Hs) as Hg.
    assert (sound_broker b) as Hb by (apply (call_sound _ _ _ _ _ Hs); [by destruct e; [apply HM|]|done]).
    split; [split; simpl; [done|done| |done]|by split].
    intros e' [He|He]%(newly_taken _ _ _ _ _ _ Hs); [by apply Hev|]. destruct e; [|done]. subst. apply HM. }
  all: promise H; eauto using grown_refl, saved_grown, saved_ledger.
Qed.

Lemma announced_event p email :
  announced pub p = true -> TrimSpace email <> "" -> announces p (AuthorizePayment.event p (TrimSpace email)).
Proof. unfold announced. intros [Hs%bool_decide_eq_true _]%andb_true_iff He. by split_and!. Qed.

Lemma saved_announced p email v v' w :
  uuid_in (Payment.ID p) = Some (Payment.ID p) ->
  spec _ (Save p) None v v' -> grown v' w -> announced pub p = true -> TrimSpace email <> "" ->
  exists q, payments w !! Payment.OrderID p = Some q /\
    announces q (AuthorizePayment.event p (TrimSpace email)).
Proof.
  intros Hc Hs [Hg _] Ha He. exists (Payment.set_CreatedAt (tstz (Payment.CreatedAt p)) p). split.
  - eapply lookup_weaken; [|exact Hg]. promise Hs; try done.
    match goal with H : saved _ _ _ |- _ => destruct H as (c & Hc' & _ & _ & _ & _ & ->) end.
    rewrite Hc in Hc'. injection Hc' as <-. etrans; [apply lookup_insert_eq|by destruct p].
  - exact (announced_event p email Ha He).
Qed.

Lemma serve_payment_ok r v : thread_ok spec ledger grown (serve_payment pub r) v.
Proof.
  destruct r as [in_|id]; simpl.
  - apply thread_bind; [|intros; by apply thread_ret].
    unfold AuthorizePayment.Execute, AuthorizePayment.publish, Publisher.PublishPaymentCompleted. rewrite status_called_for.
    follow; try done. split; [done|].
    match goal with Hs : ports_spec _ _ _ (Save ?p) None ?v ?v', Hg : grown ?v' ?w |- exists _, payments ?w !! _ = _ /\ _ =>
      apply (saved_announced p _ v v' w); [|exact Hs|exact Hg|done|] end;
      [|by eapply bool_decide_eq_false_1].
    simpl. by match goal with H : ports_spec _ _ _ NewString ?x _ _ |- _ = Some ?x => destruct H end.
  - unfold GetPaymentByOrder.Execute. follow.
Qed.
End Ledger.

(** Publishing is two calls, under every discipline that allows them. *)
Lemma publisher_calls uuid_in tstz I R may `{!Discipline (ports_spec uuid_in tstz) I R may} e v :
  (forall w, may _ (OnBroker (PublishWithContext (publishing_of e) e)) w) ->
  (forall w, may _ (OnBroker (WaitConfirm e)) w) ->
  gives (ports_spec uuid_in tstz) I R may (Publisher.PublishPaymentCompleted (fun X => OnBroker) e) (fun _ _ => True) v.
Proof.
  intros Hp Hw. unfold Publisher.PublishPaymentCompleted. eapply gives_call; [apply _|by intros; apply Hp|].
  intros [err|] v1 v2 _ _ _ _ _ _; [by apply gives_ret|]. eapply gives_call; [apply _|by intros; apply Hw|].
  intros [[|ack|] err] v3 v4 _ _ _ _ _ _; [by apply gives_ret|destruct ack; by apply gives_ret|by apply gives_ret].
Qed.

(** ** Requests one after the other: what is announced *)

(** No message about order [o]. *)
Definition unannounced (o : string) (v : pview) : Prop :=
  forall e, e ∈ events v -> PaymentCompletedEvent.OrderID e <> o.

(** At most one message about each order. *)
Definition announced_once (v : pview) : Prop :=
  NoDup (PaymentCompletedEvent.OrderID <$> events v).

Section Sequences.
Context (uuid_in : string -> option string) (tstz : Z -> Z) (pub : bool).
Notation spec := (ports_spec uuid_in tstz).
Notation saved := (saved uuid_in tstz).

(** One authorization leaves the messages alone, or adds one for an order that
    had no payment. *)
Lemma outcome_events in_ v r v' :
  authorize_outcome uuid_in tstz pub in_ v r v' ->
  events v' = events v \/
  exists e, events v' = e :: events v /\ payments v !! PaymentCompletedEvent.OrderID e = None.
Proof.
  assert (forall p v1, saved p v v1 -> pv_broker v1 = pv_broker v /\
    payments v !! Payment.OrderID p = None) as Hs by (intros p v1 (? & ? & ? & _ & _ & _ & ->); split; done).
  assert (forall p v1, saved p v v1 -> events v1 = events v) as Hsame.
  { intros p v1 [E _]%Hs. unfold events. by rewrite E. }
  assert (forall p email v1 r1, saved p v v1 ->
    publication (AuthorizePayment.event p email) (pv_broker v1) r1 (pv_broker v') ->
    events v' = events v \/ exists e, events v' = e :: events v /\
      payments v !! PaymentCompletedEvent.OrderID e = None) as Hpub.
  { intros p email v1 r1 [E Hn]%Hs [Ht|Ht]%publication_unsure; unfold events; rewrite Ht, E; [by left|right].
    by eexists. }
  destruct 1; destruct_or?; subst; eauto.
Qed.

Lemma serve_payment_events r v :
  holds spec (serve_payment pub r) (fun _ v' => events v' = events v \/
    exists e, events v' = e :: events v /\ payments v !! PaymentCompletedEvent.OrderID e = None) v.
Proof.
  destruct r as [in_|id]; simpl.
  - apply holds_bind. eapply holds_mono; [apply authorize_all|].
    intros x v' Hx. apply holds_ret. by eapply outcome_events.
  - unfold GetPaymentByOrder.Execute. hrun; auto.
Qed.

(** What every request and every call keep, a sequence keeps. *)
Lemma run_payments_keep (K : pview -> Prop) rs v :
  (forall v v', grown v v' -> ledger v -> K v ->
     events v' = events v \/
     (exists e, events v' = e :: events v /\ payments v !! PaymentCompletedEvent.OrderID e = None) ->
     K v') ->
  (forall r v, ledger v -> holds spec (serve_payment pub r) (fun _ v' => ledger v' /\ grown v v') v) ->
  ledger v -> K v ->
  holds spec (run_payments pub rs) (fun xs v' => length xs = length rs /\ ledger v' /\ K v') v.
Proof.
  intros HK Hserve. revert v. induction rs as [|r rs IH]; intros v HL Hv; simpl; [by apply holds_ret|].
  apply holds_bind. eapply holds_mono.
  { apply holds_and; [by apply Hserve|apply serve_payment_events]. }
  intros x v1 [[HL1 Hg] He]. apply holds_bind. eapply holds_mono; [apply IH; [done|by eapply HK]|].
  intros xs v2 (? & ? & ?). apply holds_ret. simpl. by rewrite H.
Qed.

(** Running alone is a special case of running under a discipline. *)
Lemma thread_holds {A} (p : prog E A) v :
  thread_ok spec ledger grown p v -> ledger v ->
  holds spec p (fun _ v' => ledger v' /\ grown v v') v.
Proof.
  assert (forall v0, grown v v0 -> forall q v1, thread_ok spec ledger grown q v1 -> ledger v1 ->
    grown v v1 -> holds spec q (fun (_ : A) v' => ledger v' /\ grown v v') v1) as H.
  { intros v0 _ q. induction q as [a|msg|X e k IH]; intros v1 Hq HL Hg; [done|done|].
    intros x v2 Hs. destruct (Hq v1 (grown_refl v1) HL x v2 Hs) as (HL2 & Hg2 & Hk).
    apply IH; eauto using grown_trans. }
  intros. eapply (H v); eauto using grown_refl.
Qed.

Lemma keep_unannounced o v v' :
  grown v v' -> ledger v -> is_Some (payments v !! o) /\ unannounced o v ->
  events v' = events v \/
  (exists e, events v' = e :: events v /\ payments v !! PaymentCompletedEvent.OrderID e = None) ->
  is_Some (payments v' !! o) /\ unannounced o v'.
Proof.
  intros [Hg _] _ [[p Hp] Hu] He. split; [exists p; by eapply lookup_weaken|].
  unfold unannounced. destruct He as [->|(e & -> & Hn)]; [done|].
  intros e' [->|Hin]%elem_of_cons; [congruence|by apply Hu].
Qed.

Lemma serve_payment_holds r v :
  ledger v -> holds spec (serve_payment pub r) (fun _ v' => ledger v' /\ grown v v') v.
Proof. intros HL. apply thread_holds; [apply serve_payment_ok|done]. Qed.
End Sequences.

(** ** An executable world behind the ports *)

Record pmem := PMem {
  pm_view : pview;
  pm_faults : list bool;       (* [true]: the next call to a store or broker fails *)
  pm_refusals : list bool;     (* [true]: the broker refuses the next message *)
  pm_ids : list string;
  pm_now : Z
}.

(** UUIDs are texts of letters, digits and dashes. *)
Definition pmem_uuid_in (s : string) : option string := if uuid_text s then Some s else None.

Lemma pmem_uuid_plain s c : pmem_uuid_in s = Some c -> plain_text c.
Proof. unfold pmem_uuid_in. destruct (uuid_text s) eqn:E; [|done]. intros [= <-]. by apply uuid_text_plain. Qed.

Definition fresh_uuid (ids : list string) : string :=
  let id := default "" (head ids) in if uuid_text id then id else "0".

Lemma fresh_uuid_in ids : pmem_uuid_in (fresh_uuid ids) = Some (fresh_uuid ids).
Proof. unfold pmem_uuid_in, fresh_uuid. destruct (uuid_text (default "" (head ids))) eqn:E; [by rewrite E|done]. Qed.

Definition pmem_saves (p : Payment.t) (v : pview) : bool :=
  bool_decide (pmem_uuid_in (Payment.ID p) = Some (Payment.ID p) /\
    payments v !! Payment.OrderID p = None /\ 0 < Payment.Amount p /\
    Payment.Status p ∈ [Payment.StatusAuthorized; Payment.StatusDeclined] /\
    map_Forall (fun _ q => Payment.ID q <> Payment.ID p /\
                           Payment.TransactionID q <> Payment.TransactionID p) (payments v)).

(** What becomes of a call to the broker. *)
Definition pmem_step {X} (e : amqpE X) (fault refused : bool) : broker_step :=
  match e with
  | PublishWithContext _ _ => if fault then SFail else if refused then SRefuse else STake
  | WaitConfirm _ => if fault then STimeout else SRead
  end.

Definition pmem_ports : handler E pmem := fun X e w =>
  let fault := default false (head (pm_faults w)) in
  let v := pm_view w in
  let w' v := PMem v (tail (pm_faults w)) (pm_refusals w) (pm_ids w) (pm_now w) in
  match e in E X return outcome X * pmem with
  | Save p =>
      if fault then (Done (Some pmem_error), w' v)
      else if pmem_saves p v
           then (Done None, w' (PView (<[Payment.OrderID p := p]> (payments v)) (pv_broker v)))
           else (Done (Some pmem_error), w' v)
  | GetByOrderID id =>
      if fault then (Done (None, Some pmem_error), w' v) else (Done (payments v !! id, None), w' v)
  | OnBroker e =>
      let refused := default false (head (pm_refusals w)) in
      let '(r, (b, _)) := broker_mem _ e (pv_broker v, [pmem_step e fault refused]) in
      (r, PMem (put_broker b v) (tail (pm_faults w))
            match e with PublishWithContext _ _ => tail (pm_refusals w) | WaitConfirm _ => pm_refusals w end
            (pm_ids w) (pm_now w))
  | Now => (Done (pm_now w), PMem v (pm_faults w) (pm_refusals w) (pm_ids w) (pm_now w + 1))
  | NewString => (Done (fresh_uuid (pm_ids w)), PMem v (pm_faults w) (pm_refusals w) (tail (pm_ids w)) (pm_now w))
  end.

#[export] Instance pmem_refines : Refines pmem_ports pm_view (ports_spec pmem_uuid_in id).
Proof.
  assert (outside pmem_error) as Ho by done.
  intros X e w. destruct e as [p|id|X e| |]; cbn [pmem_ports].
  - destruct (default false _); [|destruct (pmem_saves p (pm_view w)) eqn:Hs];
      do 2 eexists; (split; [reflexivity|]); simpl; eauto 8.
    left. split; [done|]. unfold pmem_saves in Hs. apply bool_decide_eq_true in Hs as (? & ? & ? & ? & Hq).
    exists (Payment.ID p). split_and!; [done..| |by destruct p]. intros o q Hl. by apply (Hq o q).
  - destruct (default false _); do 2 eexists; (split; [reflexivity|]); simpl; eauto 8.
  - destruct (refines (obs := fst) (spec := amqp_spec) X e (pv_broker (pm_view w),
      [pmem_step e (default false (head (pm_faults w))) (default false (head (pm_refusals w)))])) as (x & [b l] & -> & Hs).
    do 2 eexists. split; [done|]. by exists b.
  - do 2 eexists; (split; [reflexivity|]); done.
  - do 2 eexists; (split; [reflexivity|]); split; [apply fresh_uuid_in|done].
Qed.

Definition pmem_start (faults : list bool) : pmem :=
  PMem (PView ∅ no_broker) faults [] ["p-1"; "t-1"; "p-2"; "t-2"] 0.
Definition sample_payment (amount : Z) (email : string) : AuthorizePaymentInput.t :=
  AuthorizePaymentInput.mk "order-1" amount email.

Lemma empty_ledger faults : ledger (pm_view (pmem_start faults)).
Proof. split; simpl; [done|done| |apply no_broker_sound]. intros e He. by apply elem_of_nil in He. Qed.

(** ** The properties *)

Section PaymentProperties.
Context {W : Type} (h : handler E W) (obs : W -> pview).
Context (uuid_in : string -> option string) (tstz : Z -> Z) (pub : bool).
Context `{!Refines h obs (ports_spec uuid_in tstz)}.

(** C24. [AuthorizePayment.Execute], alone and with the publisher of main ([Publisher])
    or none, returns, and its result is one of the listed ones.  Invalid input and an
    order that already has a payment change nothing; otherwise one payment is saved,
    authorized up to and including the ceiling of 100000 cents and declined above it.
    With a publisher an authorized one is announced: a blank address and a failed
    publication are errors, and the payment stays (after the latter the broker may have
    taken the message all the same); on success the broker has taken exactly this
    payment's message, or has refused or lost it while the acknowledgement of an earlier
    publication waited to be read, which this one took for its own. *)
Theorem authorize_payment_outcomes in_ w :
  exists r w', run h (AuthorizePayment.Execute pub in_) w = (Done r, w') /\
    authorize_outcome uuid_in tstz pub in_ (obs w) r (obs w').
Proof.
  apply (holds_run (ports_spec uuid_in tstz) h obs _ _ w (authorize_all uuid_in tstz pub in_ _)).
Qed.

(** C11. Requests served at the same time, in every interleaving and whatever
    fails: none panics, the table keeps one payment per order that never changes
    once it is there, every payment obeys the ceiling, and every message the
    broker takes announces an authorized payment of the table. *)
Theorem payments_consistent rs w sched :
  ledger (obs w) ->
  let s := run_schedule h sched (Pool (serve_payment pub <$> rs) w false) in
  crashed s = false /\ ledger (obs (world s)) /\
  (forall o p, payments (obs w) !! o = Some p -> payments (obs (world s)) !! o = Some p) /\
  (forall e, e ∈ events (obs (world s)) ->
     0 < PaymentCompletedEvent.AmountCents e <= Payment.MaxAuthorizedAmountCents).
Proof.
  intros HL s.
  destruct (pool_threads (ports_spec uuid_in tstz) ledger grown may_pay h obs sched
              (serve_payment pub <$> rs) w HL) as (Hc & HL' & [Hg _]).
  { intros p (r & -> & _)%list_elem_of_fmap. apply serve_payment_ok. }
  split_and!; [done|done|intros o p Hp; by eapply lookup_weaken|].
  intros e (p & Hp & Hs & _ & ->)%(led_event _ HL'). simpl.
  destruct (led_row _ HL' _ _ Hp) as (_ & Ha & Hst).
  split; [done|]. rewrite Hs in Hst. unfold called_for in Hst.
  destruct (Z.leb_spec (Payment.Amount p) 100000); [done|discriminate Hst].
Qed.

(** A payment that was saved but not announced (the broker was down, or the
    email address blank) is never announced: every later authorization of the
    order finds the payment and stops there. *)
Theorem unannounced_for_ever o rs w :
  ledger (obs w) -> is_Some (payments (obs w) !! o) -> unannounced o (obs w) ->
  exists xs w', run h (run_payments pub rs) w = (Done xs, w') /\
    length xs = length rs /\ unannounced o (obs w').
Proof.
  intros HL Hp Hu.
  destruct (holds_run (ports_spec uuid_in tstz) h obs _ _ w
    (run_payments_keep uuid_in tstz pub _ rs _ (keep_unannounced o)
       (serve_payment_holds uuid_in tstz pub) HL (conj Hp Hu))) as (xs & w' & Hrun & ? & _ & _ & ?). eauto.
Qed.
End PaymentProperties.

Lemma authorize_payment_outcomes_witness :
  exists r w', run pmem_ports (AuthorizePayment.Execute true (sample_payment 100000 " ann@example.com "))
      (pmem_start []) = (Done r, w') /\
    authorize_outcome pmem_uuid_in id true (sample_payment 100000 " ann@example.com ")
      (pm_view (pmem_start [])) r (pm_view w').
Proof. exact (authorize_payment_outcomes pmem_ports pm_view pmem_uuid_in id true _ _). Defined.

(** Two authorizations of one order, interleaved. *)
Lemma payments_consistent_witness :
  let s := run_schedule pmem_ports [0; 1; 0; 1; 0; 1; 0; 1; 0; 1; 0; 1]%nat
     (Pool (serve_payment true <$> [ReqAuthorize (sample_payment 500 "ann@example.com");
                                    ReqAuthorize (sample_payment 700 "ann@example.com")])
        (pmem_start []) false) in
  crashed s = false /\ ledger (pm_view (world s)).
Proof.
  split; eapply (payments_consistent pmem_ports pm_view pmem_uuid_in id true
    [ReqAuthorize (sample_payment 500 "ann@example.com");
     ReqAuthorize (sample_payment 700 "ann@example.com")]
    (pmem_start []) [0; 1; 0; 1; 0; 1; 0; 1; 0; 1; 0; 1]%nat); apply empty_ledger.
Defined.

(** The broker failed the publication: the payment is there, the message is not. *)
Definition unpublished : Payment.t := Payment.mk "p-1" "order-1" "t-1" 500 Payment.StatusAuthorized 0.
Definition broker_down : pmem := PMem (PView {["order-1" := unpublished]} no_broker) [] [] ["p-2"; "t-2"] 1.

Example broker_down_run :
  run pmem_ports (AuthorizePayment.Execute true (sample_payment 500 "ann@example.com"))
    (pmem_start [false; false; true]) =
  (Done (None, Some (Errorf_w "publish payment completed event: " (Errorf_w "publish: " pmem_error))), broker_down).
Proof. vm_compute. reflexivity. Qed.

Lemma broker_down_ledger : ledger (pm_view broker_down).
Proof.
  split; simpl.
  - intros o p [<- <-]%lookup_singleton_Some. done.
  - intros o1 o2 p1 p2 [<- <-]%lookup_singleton_Some [<- <-]%lookup_singleton_Some. done.
  - intros e He. by apply elem_of_nil in He.
  - apply no_broker_sound.
Qed.

(** The client retries, with a healthy broker: still no message. *)
Lemma unannounced_for_ever_witness :
  exists xs w', run pmem_ports (run_payments true
       [ReqAuthorize (sample_payment 500 "ann@example.com")]) broker_down = (Done xs, w') /\
    length xs = 1%nat /\ unannounced "order-1" (pm_view w').
Proof.
  apply (unannounced_for_ever pmem_ports pm_view pmem_uuid_in id true "order-1");
    [apply broker_down_ledger|by eexists|]. intros e He. by apply elem_of_nil in He.
Defined.

(** A blank email address is found out only after the payment is saved: the
    client is told that its request is invalid, and the order has an authorized
    payment all the same, which no retry with a proper address can announce. *)
Theorem blank_email_charges :
  let '(rs, w) := run pmem_ports (run_payments true
       [ReqAuthorize (sample_payment 500 " "); ReqAuthorize (sample_payment 500 "ann@example.com")])
       (pmem_start []) in
  rs = Done [inl (None, Some errEmail); inl (None, Some errExists)] /\
  Payment.Status <$> payments (pm_view w) !! "order-1" = Some Payment.StatusAuthorized /\
  events (pm_view w) = [].
Proof. vm_compute. split_and!; reflexivity. Qed.
