(* ===== verification/PaymentTransport.v ===== *)
(** * Payment service: the gRPC server and the HTTP interface

    [Server] of internal/transport/grpc/server.go and the handlers of
    internal/transport/http.  A gRPC handler returns a message or an error; a
    panic in it is not recovered and takes the process down (an HTTP handler's is
    recovered by gin).  [timestamppb.New] and gin's binding are arguments. *)

From S2P Require Import Prelude GoLib Json GoTime Http Proto Publisher PaymentUsecase PaymentProps.
Import PaymentPorts.

(** ** gRPC *)

Module Server.
Section Server.
Context {Timestamp : Type} (timestamppb_New : Z -> Timestamp) (pub : bool).

(** The status of what the use case returned. *)
Definition authorize_reply (r : option AuthorizePaymentOutput.t * option error) :
    prog E (option (AuthorizePaymentResponse.t Timestamp) * option error) :=
  let '(output, err) := r in
  match err with
  | Some err =>
      if Contains (Error err) "customer_email is required" then
        mret (None, Some (status_Error InvalidArgument (Error err)))
      else
        mret (None, Some (status_Error Internal ("failed to authorize payment: " ++ Error err)))
  | None =>
      match output with
      | None => Panic nil_dereference
      | Some output =>
          mret (Some (AuthorizePaymentResponse.mk
            (AuthorizePaymentOutput.PaymentID output)
            (AuthorizePaymentOutput.TransactionID output)
            (AuthorizePaymentOutput.Status output)
            (AuthorizePaymentOutput.Amount output)
            (Some (timestamppb_New (AuthorizePaymentOutput.CreatedAt output)))), None)
      end
  end.

Definition AuthorizePayment (req : AuthorizePaymentRequest.t) :
    prog E (option (AuthorizePaymentResponse.t Timestamp) * option error) :=
  if bool_decide (AuthorizePaymentRequest.OrderId req = "") then
    mret (None, Some (status_Error InvalidArgument "order_id is required"))
  else if AuthorizePaymentRequest.Amount req <=? 0 then
    mret (None, Some (status_Error InvalidArgument "amount must be greater than zero"))
  else
    r ← AuthorizePayment.Execute pub
          (AuthorizePaymentInput.mk (AuthorizePaymentRequest.OrderId req)
             (AuthorizePaymentRequest.Amount req)
             (AuthorizePaymentRequest.GetCustomerEmail (Some req)));
    authorize_reply r.

(** The payment is dereferenced whether or not there is one. *)
Definition GetPaymentStatus (req : GetPaymentStatusRequest.t) :
    prog E (option (GetPaymentStatusResponse.t Timestamp) * option error) :=
  if bool_decide (GetPaymentStatusRequest.OrderId req = "") then
    mret (None, Some (status_Error InvalidArgument "order_id is required"))
  else
    '(payment, err) ← GetPaymentByOrder.Execute (GetPaymentStatusRequest.OrderId req);
    match err with
    | Some _ =>
        mret (None, Some (status_Error NotFound
          ("payment not found for order_id: " ++ GetPaymentStatusRequest.OrderId req)))
    | None =>
        match payment with
        | None => Panic nil_dereference
        | Some payment =>
            mret (Some (GetPaymentStatusResponse.mk
              (Payment.ID payment) (Payment.TransactionID payment)
              (Payment.Status payment) (Payment.Amount payment)
              (Some (timestamppb_New (Payment.CreatedAt payment)))), None)
        end
    end.

(** [LoggingInterceptor]: around every call; it only adds log lines. *)
Definition LoggingInterceptor {Req Resp} (handler : Req -> prog E (Resp * option error))
    (req : Req) : prog E (Resp * option error) :=
  '(resp, err) ← handler req;
  mret (resp, err).

(** [StreamLoggingInterceptor]: the same around a stream; this service has none. *)
Definition StreamLoggingInterceptor {Srv Stream} (srv : Srv) (ss : Stream)
    (handler : Srv -> Stream -> prog E (option error)) : prog E (option error) :=
  err ← handler srv ss;
  mret err.
End Server.
End Server.

(** ** HTTP *)

Module createPaymentRequest.
Record t := mk { OrderID : string; Amount : Z; CustomerEmail : string }.
Definition fields : list (field t) :=
  [Field "order_id" (store_string (fun x r => mk x (Amount r) (CustomerEmail r)));
   Field "amount" (store_int64 (fun x r => mk (OrderID r) x (CustomerEmail r)));
   Field "customer_email" (store_string (fun x r => mk (OrderID r) (Amount r) x))].
(** binding:"required" on every field, gt=0 on the amount. *)
Definition tags (r : t) : bool :=
  negb (bool_decide (OrderID r = "")) && (0 <? Amount r)
  && negb (bool_decide (CustomerEmail r = "")).
End createPaymentRequest.

(** The JSON of [createPaymentResponse] and [getPaymentResponse]. *)
Definition createPaymentResponse (out : AuthorizePaymentOutput.t) : list (string * json) :=
  [("payment_id", jstring (AuthorizePaymentOutput.PaymentID out));
   ("transaction_id", jstring (AuthorizePaymentOutput.TransactionID out));
   ("status", jstring (AuthorizePaymentOutput.Status out));
   ("amount", jint (AuthorizePaymentOutput.Amount out));
   ("created_at", jstring (format_seconds (AuthorizePaymentOutput.CreatedAt out)))].
Definition getPaymentResponse (p : Payment.t) : list (string * json) :=
  [("payment_id", jstring (Payment.ID p));
   ("order_id", jstring (Payment.OrderID p));
   ("transaction_id", jstring (Payment.TransactionID p));
   ("amount", jint (Payment.Amount p));
   ("status", jstring (Payment.Status p));
   ("created_at", jstring (format_seconds (Payment.CreatedAt p)))].

Definition struct_body (ms : list (string * json)) : json :=
  JObj (map (fun '(k, v) => (lit k, v)) ms).

Module PaymentHandlers.
Section PaymentHandlers.
Context (ShouldBindJSON : string -> option createPaymentRequest.t) (pub : bool).

Definition create_response (r : option AuthorizePaymentOutput.t * option error) :
    prog E response :=
  let '(out, err) := r in
  match err with
  | Some err =>
      if Contains (Error err) "amount must be greater than zero"
         || Contains (Error err) "order_id is required"
         || Contains (Error err) "customer_email is required" then
        mret (Response StatusBadRequest (error_body (Error err)))
      else if Contains (Error err) "payment already exists" then
        mret (Response StatusConflict (error_body (Error err)))
      else mret (Response StatusInternalServerError (error_body "internal error"))
  | None =>
      match out with
      | None => Panic nil_dereference
      | Some out => mret (Response StatusOK (struct_body (createPaymentResponse out)))
      end
  end.

Definition CreatePayment (text : string) : prog E response :=
  match ShouldBindJSON text with
  | None => mret (Response StatusBadRequest (error_body "invalid json body"))
  | Some req =>
      r ← AuthorizePayment.Execute pub
            (AuthorizePaymentInput.mk (TrimSpace (createPaymentRequest.OrderID req))
               (createPaymentRequest.Amount req)
               (TrimSpace (createPaymentRequest.CustomerEmail req)));
      create_response r
  end.

Definition GetPaymentByOrderID (param : string) : prog E response :=
  let orderID := TrimSpace param in
  if bool_decide (orderID = "") then
    mret (Response StatusBadRequest (error_body "order_id is required"))
  else
    '(p, err) ← GetPaymentByOrder.Execute orderID;
    match err with
    | Some err =>
        if Contains (Error err) "order_id is required" then
          mret (Response StatusBadRequest (error_body (Error err)))
        else mret (Response StatusInternalServerError (error_body "internal error"))
    | None =>
        match p with
        | None => mret (Response StatusNotFound (error_body "payment not found"))
        | Some p => mret (Response StatusOK (struct_body (getPaymentResponse p)))
        end
    end.
End PaymentHandlers.
End PaymentHandlers.

Inductive payment_handler : Set := HCreatePayment | HGetPaymentByOrderID.
Definition payment_routes : list (string * string * payment_handler) :=
  [("POST", "/payments", HCreatePayment); ("GET", "/payments/:order_id", HGetPaymentByOrderID)].

(** ** Lemmas: the texts the transport layer looks for *)

Lemma outside_publish e : outside e -> outside (Errorf_w "publish payment completed event: " e).
Proof.
  intros (H1 & H2 & H3 & H4)%outside_facts. unfold outside, transport_texts.
  unfold Errorf_w. cbn [forallb Error]. revert H1 H2 H3 H4. generalize (Error e). intros s H1 H2 H3 H4.
  simpl. change ("" ++ s) with s. by rewrite H1, H2, H3, H4.
Qed.

(** An accepted and saved payment. *)
Definition stored_payment (in_ : AuthorizePaymentInput.t) (v v' : pview) (txn : string) : Prop :=
  payments v !! AuthorizePaymentInput.OrderID in_ = None /\
  exists row, payments v' !! AuthorizePaymentInput.OrderID in_ = Some row /\
    Payment.Amount row = AuthorizePaymentInput.Amount in_ /\
    Payment.Status row = called_for (AuthorizePaymentInput.Amount in_) /\
    Payment.TransactionID row = txn.

Section Stored.
Context (uuid_in : string -> option string) (tstz : Z -> Z) (pub : bool).

Lemma saved_stored in_ p v v' :
  payment_of uuid_in in_ p -> saved uuid_in tstz p v v' ->
  stored_payment in_ v v' (Payment.TransactionID p).
Proof.
  intros (_ & Ho & Ha & Hs) (c & _ & Hn & _ & _ & _ & ->). rewrite Ho in *. split; [done|].
  eexists. simpl. rewrite lookup_insert_eq. by split_and!.
Qed.

(** By what [Execute] returns. *)
Lemma outcome_stored in_ v out v' :
  authorize_outcome uuid_in tstz pub in_ v (Some out, None) v' ->
  stored_payment in_ v v' (AuthorizePaymentOutput.TransactionID out) /\
  AuthorizePaymentOutput.Status out = called_for (AuthorizePaymentInput.Amount in_).
Proof.
  intros H. inversion H as [| | | | | |p ? ? Hp Hs|p v1 ? ? Hp Hs ? ? _ Hd]; simplify_eq.
  - split; [by apply saved_stored|]. by destruct Hp as (_ & _ & _ & Hst).
  - split; [|by destruct Hp as (_ & _ & _ & Hst)].
    pose proof (saved_stored _ _ _ _ Hp Hs) as Hst. unfold stored_payment. by rewrite Hd.
Qed.

(** The use case fails with a text of its own, or with one from outside. *)
Lemma outcome_error in_ v o e v' :
  authorize_outcome uuid_in tstz pub in_ v (o, Some e) v' ->
  o = None /\
  ((e = errAmount \/ e = errOrderID) /\ valid_authorization in_ = false /\ v' = v \/
   e = errExists /\ is_Some (payments v !! AuthorizePaymentInput.OrderID in_) /\ v' = v \/
   e = errEmail /\ TrimSpace (AuthorizePaymentInput.CustomerEmail in_) = "" /\
     (exists txn, stored_payment in_ v v' txn) \/
   outside e).
Proof.
  intros H. inversion H; simplify_eq; (split; [done|]); eauto 10 using outside_publish, saved_stored.
  match goal with H : publication _ _ _ _ |- _ => destruct H end. eauto 10 using outside_publish.
Qed.
End Stored.


(** What an answer to POST /payments says of the ledger. *)
Definition http_answer (in_ : AuthorizePaymentInput.t) (v : pview) (resp : response) (v' : pview) : Prop :=
  (code resp = StatusOK /\ exists out,
     body resp = struct_body (createPaymentResponse out) /\
     AuthorizePaymentOutput.Status out = called_for (AuthorizePaymentInput.Amount in_) /\
     stored_payment in_ v v' (AuthorizePaymentOutput.TransactionID out)) \/
  (code resp = StatusBadRequest /\
     (v' = v \/ AuthorizePaymentInput.CustomerEmail in_ = "" /\
                exists txn, stored_payment in_ v v' txn)) \/
  (code resp = StatusConflict /\ v' = v /\
     is_Some (payments v !! AuthorizePaymentInput.OrderID in_)) \/
  code resp = StatusInternalServerError.

Section Answers.
Context (uuid_in : string -> option string) (tstz : Z -> Z) (pub : bool).
Context {Timestamp : Type} (timestamppb_New : Z -> Timestamp).
Notation spec := (ports_spec uuid_in tstz).


(** The handler trims the address, so a blank one reaches the use case empty. *)
Lemma create_payment_http bind text req v :
  bind text = Some req ->
  let in_ := AuthorizePaymentInput.mk (TrimSpace (createPaymentRequest.OrderID req))
    (createPaymentRequest.Amount req) (TrimSpace (createPaymentRequest.CustomerEmail req)) in
  holds spec (PaymentHandlers.CreatePayment bind pub text) (http_answer in_ v) v.
Proof.
  intros Hb in_. unfold PaymentHandlers.CreatePayment, http_answer. rewrite Hb.
  apply holds_bind. eapply holds_mono; [apply authorize_all|].
  intros [out [e|]] v' Hout; unfold PaymentHandlers.create_response.
  - apply outcome_error in Hout as (-> & Hcases).
    destruct Hcases as [([-> | ->] & _ & ->)|[(-> & Hs & ->)|[(-> & Hbl & Hs)|Ho]]].
    + apply holds_ret. right; left. auto.
    + apply holds_ret. right; left. auto.
    + apply holds_ret. right; right; left. auto.
    + apply holds_ret. right; left. split; [done|]. right. split; [|done].
      unfold in_ in *. cbn [AuthorizePaymentInput.CustomerEmail] in *. by rewrite TrimSpace_idemp in Hbl.
    + apply outside_facts in Ho as (-> & -> & -> & ->). apply holds_ret. auto.
  - destruct out as [out|]; [|by inversion Hout]. apply holds_ret.
    apply outcome_stored in Hout as [Hst Hs]. left. eauto.
Qed.
End Answers.

(** ** The properties *)

Section TransportProperties.
Context {W : Type} (h : handler E W) (obs : W -> pview).
Context (uuid_in : string -> option string) (tstz : Z -> Z) (pub : bool).
Context {Timestamp : Type} (timestamppb_New : Z -> Timestamp).


(** POST /payments always answers, and truthfully: 200 describes the stored
    payment, 400 means that nothing happened or that a payment without an email
    address was stored all the same, 409 that the order already had a payment and
    nothing changed; every other failure is a 500. *)
Theorem create_payment_answers `{!Refines h obs (ports_spec uuid_in tstz)} bind text req w :
  bind text = Some req ->
  exists resp w', run h (PaymentHandlers.CreatePayment bind pub text) w = (Done resp, w') /\
    http_answer (AuthorizePaymentInput.mk (TrimSpace (createPaymentRequest.OrderID req))
        (createPaymentRequest.Amount req) (TrimSpace (createPaymentRequest.CustomerEmail req)))
      (obs w) resp (obs w').
Proof.
  intros Hb. apply (holds_run (ports_spec uuid_in tstz) h obs _ _ w
                      (create_payment_http uuid_in tstz pub bind text req _ Hb)).
Qed.

(** C38. The GetPaymentStatus RPC, by what the repository answers: a payment is
    reported as it is; a failed lookup is reported as NotFound; and an order
    without a payment, the one case that is not found, makes the server panic. *)
Theorem get_status_by_lookup orderID p err w w' :
  orderID <> "" -> h _ (GetByOrderID orderID) w = (Done (p, err), w') ->
  run h (Server.GetPaymentStatus timestamppb_New (GetPaymentStatusRequest.mk orderID)) w =
  match err, p with
  | Some _, _ =>
      (Done (None, Some (status_Error NotFound ("payment not found for order_id: " ++ orderID))), w')
  | None, Some p =>
      (Done (Some (GetPaymentStatusResponse.mk (Payment.ID p) (Payment.TransactionID p)
                     (Payment.Status p) (Payment.Amount p)
                     (Some (timestamppb_New (Payment.CreatedAt p)))), None), w')
  | None, None => (Panicked nil_dereference, w')
  end.
Proof.
  intros Ho Hh. unfold Server.GetPaymentStatus, GetPaymentByOrder.Execute.
  cbn [GetPaymentStatusRequest.OrderId]. rewrite bool_decide_false by done.
  rewrite run_call_bind, Hh. by destruct err, p.
Qed.
End TransportProperties.


(** A binder as gin's. *)
Definition bind_payment (text : string) : option createPaymentRequest.t :=
  match unmarshal createPaymentRequest.fields text (createPaymentRequest.mk "" 0 "") with
  | Some r => if createPaymentRequest.tags r then Some r else None
  | None => None
  end.
Definition sample_payment_body : string :=
  marshal [("order_id", jstring "order-1"); ("amount", jint 500); ("customer_email", jstring " ")].

Lemma create_payment_answers_witness :
  let in_ := AuthorizePaymentInput.mk "order-1" 500 "" in
  exists resp w', run pmem_ports (PaymentHandlers.CreatePayment bind_payment true sample_payment_body)
      (pmem_start []) = (Done resp, w') /\
    http_answer in_ (pm_view (pmem_start [])) resp (pm_view w').
Proof.
  apply (create_payment_answers pmem_ports pm_view pmem_uuid_in id true bind_payment sample_payment_body
           (createPaymentRequest.mk "order-1" 500 " ")).
  vm_compute. reflexivity.
Defined.

Lemma get_status_by_lookup_witness :
  run pmem_ports (Server.GetPaymentStatus id (GetPaymentStatusRequest.mk "order-9")) (pmem_start [])
  = (Panicked nil_dereference, pmem_start []).
Proof.
  apply (get_status_by_lookup pmem_ports id "order-9" None None); [done|]. reflexivity.
Defined.
