(* ===== verification/PaymentAdapters.v ===== *)
(** * Payment service: the PostgreSQL repository

    [PaymentRepository] of internal/repository/postgres/payment_repo.go over the calls
    it makes, and the promise it keeps to the use cases.  The publisher is in
    Publisher. *)

From S2P Require Import Prelude GoLib Json Publisher PaymentUsecase PaymentProps PaymentTransport.

(** ** The repository *)

Inductive paymentPgE : Type -> Type :=
| ExecInsertPayment (p : Payment.t) : paymentPgE (option error)
| SelectPayment (orderID : string) : paymentPgE (Payment.t * option error).

Module PaymentRepository.
Definition Save (p : Payment.t) : prog paymentPgE (option error) :=
  err ← call (ExecInsertPayment p);
  match err with
  | Some err => mret (Some (Errorf_w "save payment: " err))
  | None => mret None
  end.

Definition GetByOrderID (orderID : string) : prog paymentPgE (option Payment.t * option error) :=
  '(p, err) ← call (SelectPayment orderID);
  match err with
  | Some err =>
      if errors_Is err sql_ErrNoRows then mret (None, None)
      else mret (None, Some (Errorf_w "get payment by order: " err))
  | None => mret (Some p, None)
  end.
End PaymentRepository.

Section RepositoryPromise.
Context (uuid_in : string -> option string) (tstz : Z -> Z).

Definition payment_driver_error (e : error) : Prop :=
  outside e /\ errors_Is e sql_ErrNoRows = false.

(** The table of migrations/001_payments.sql: at most one row per order, so the
    newest row of an order is its row. *)
Definition payment_pg_spec : interface paymentPgE pview := fun X e =>
  match e in paymentPgE X return X -> pview -> pview -> Prop with
  | ExecInsertPayment p => fun r v v' =>
      (r = None /\ saved uuid_in tstz p v v') \/
      (exists e, r = Some e /\ payment_driver_error e /\ (v' = v \/ saved uuid_in tstz p v v'))
  | SelectPayment id => fun r v v' =>
      v' = v /\
      ((exists p, payments v !! id = Some p /\ r = (p, None)) \/
       (exists p, payments v !! id = None /\ r = (p, Some sql_ErrNoRows)) \/
       (exists p e, r = (p, Some e) /\ payment_driver_error e))
  end.

Lemma repository_Save p v :
  holds payment_pg_spec (PaymentRepository.Save p)
    (fun r v' => ports_spec uuid_in tstz _ (PaymentPorts.Save p) r v v') v.
Proof.
  unfold PaymentRepository.Save. hrun; simpl; eauto 8;
    match goal with H : payment_driver_error _ |- _ => destruct H end;
    right; eexists; (split; [done|split; [apply outside_prefix; [set_solver|done]|auto]]).
Qed.

Lemma repository_GetByOrderID id v :
  holds payment_pg_spec (PaymentRepository.GetByOrderID id)
    (fun r v' => ports_spec uuid_in tstz _ (PaymentPorts.GetByOrderID id) r v v') v.
Proof.
  unfold PaymentRepository.GetByOrderID. hrun; simpl; (split; [done|]);
    repeat match goal with H : payment_driver_error _ |- _ => destruct H end;
    try (left; congruence); [done|].
  right; eexists; split; [done|]. apply outside_prefix; [set_solver|done].
Qed.
End RepositoryPromise.

(** ** The repository behind the use cases' port *)

Definition payment_pg_mem : handler paymentPgE pmem := fun X e w =>
  match e in paymentPgE X return outcome X * pmem with
  | ExecInsertPayment p => pmem_ports _ (PaymentPorts.Save p) w
  | SelectPayment id =>
      match pmem_ports _ (PaymentPorts.GetByOrderID id) w with
      | (Done (Some p, None), w') => (Done (p, None), w')
      | (Done (_, None), w') => (Done (Payment.mk "" "" "" 0 "" 0, Some sql_ErrNoRows), w')
      | (Done (_, Some e), w') => (Done (Payment.mk "" "" "" 0 "" 0, Some e), w')
      | (Panicked msg, w') => (Panicked msg, w')
      end
  end.

Section RepositoryProperties.
Context {W : Type} (h : handler paymentPgE W) (obs : W -> pview).
Context (uuid_in : string -> option string) (tstz : Z -> Z).
Context `{!Refines h obs (payment_pg_spec uuid_in tstz)}.

(** The repository keeps the promise the payment use cases rely on, over a
    database that keeps the constraints of the migration: saving either adds the
    one payment of its order or fails, a lookup gives the payment, nothing or an
    error, and the errors are none of the use case's own. *)
Theorem payment_repository_promise p orderID w :
  (exists r w', run h (PaymentRepository.Save p) w = (Done r, w') /\
     ports_spec uuid_in tstz _ (PaymentPorts.Save p) r (obs w) (obs w')) /\
  (exists r w', run h (PaymentRepository.GetByOrderID orderID) w = (Done r, w') /\
     ports_spec uuid_in tstz _ (PaymentPorts.GetByOrderID orderID) r (obs w) (obs w')).
Proof.
  split.
  - apply (holds_run (payment_pg_spec uuid_in tstz) h obs _ _ w (repository_Save uuid_in tstz p _)).
  - apply (holds_run (payment_pg_spec uuid_in tstz) h obs _ _ w
             (repository_GetByOrderID uuid_in tstz orderID _)).
Qed.
End RepositoryProperties.

#[export] Instance payment_pg_refines : Refines payment_pg_mem pm_view (payment_pg_spec pmem_uuid_in id).
Proof.
  assert (payment_driver_error pmem_error) as He by (by split).
  intros X e w. destruct e as [p|o]; cbn [payment_pg_mem].
  - destruct (pmem_refines _ (PaymentPorts.Save p) w) as (x & w' & Heq & Hs).
    exists x, w'. split; [done|]. simpl in *. destruct Hs as [Hs|(e & -> & _ & Hs)]; [by left|].
    right. exists e. split; [done|]. split; [|done].
    revert Heq. cbn [pmem_ports]. repeat case_match; intros; by simplify_eq.
  - cbn [pmem_ports]. destruct (default false _); [|destruct (payments (pm_view w) !! o) eqn:E];
      do 2 eexists; (split; [reflexivity|]); simpl; eauto 10.
Qed.

Lemma payment_repository_promise_witness :
  (exists r w', run payment_pg_mem (PaymentRepository.Save unpublished) (pmem_start []) = (Done r, w') /\
     ports_spec pmem_uuid_in id _ (PaymentPorts.Save unpublished) r (pm_view (pmem_start [])) (pm_view w')) /\
  (exists r w', run payment_pg_mem (PaymentRepository.GetByOrderID "order-1") (pmem_start []) = (Done r, w') /\
     ports_spec pmem_uuid_in id _ (PaymentPorts.GetByOrderID "order-1") r (pm_view (pmem_start [])) (pm_view w')).
Proof. exact (payment_repository_promise payment_pg_mem pm_view pmem_uuid_in id unpublished "order-1" _). Defined.
