(* ===== verification/Notify.v ===== *)
(** * Notification service: the processor

    [Processor.Handle] of internal/notify/processor.go with the two stores it
    consults (internal/postgres/store.go, internal/redisnotify/store.go), and the
    consumer's [handle] of cmd/notification-service/main.go, which turns its
    result into an acknowledgement. *)

From S2P Require Import Prelude GoLib Json.

Module SendInput.
Record t := mk {
  ToEmail : string;
  OrderID : string;
  PaymentID : string;
  AmountCents : Z;
  Status : string
}.
#[export] Instance eq_dec : EqDecision t.
Proof. solve_decision. Defined.
End SendInput.

(** The calls: two statements, two Redis commands, the email provider, and the
    wait of [delay] nanoseconds, which the context may cut short. *)
Inductive notifyE : Type -> Type :=
| SelectProcessed (eventID : string) : notifyE (option error)
| InsertProcessed (eventID : string) : notifyE (option error)
| NRedisGet (key : string) : notifyE (string * option error)
| NRedisSet (key value : string) : notifyE (option error)
| SendPaymentReceipt (in_ : SendInput.t) : notifyE (option error)
| After (delay : Z) : notifyE (option error).

(** ** The stores *)

Module ProcessedStore.
Definition WasProcessed (eventID : string) : prog notifyE (bool * option error) :=
  if bool_decide (eventID = "") then mret (false, Some (ErrorNew "empty event_id")) else
  err ← call (SelectProcessed eventID);
  match err with
  | Some err => if errors_Is err sql_ErrNoRows then mret (false, None) else mret (false, Some err)
  | None => mret (true, None)
  end.

Definition RecordProcessed (eventID : string) : prog notifyE (option error) :=
  call (InsertProcessed eventID).
End ProcessedStore.

Definition sentValue : string := "SENT".

Module SentStore.
Definition key (paymentID : string) : string := "notify:payment:" ++ paymentID.

Definition AlreadySent (paymentID : string) : prog notifyE (bool * option error) :=
  let paymentID := TrimSpace paymentID in
  if bool_decide (paymentID = "") then mret (false, Some (ErrorNew "empty payment_id")) else
  '(v, err) ← call (NRedisGet (key paymentID));
  if err_eq err redis_Nil then mret (false, None) else
  match err with
  | Some err => mret (false, Some (Errorf_w "redis get: " err))
  | None => mret (bool_decide (v = sentValue), None)
  end.

Definition MarkSent (paymentID : string) : prog notifyE (option error) :=
  let paymentID := TrimSpace paymentID in
  if bool_decide (paymentID = "") then mret (Some (ErrorNew "empty payment_id")) else
  err ← call (NRedisSet (key paymentID) sentValue);
  match err with
  | Some err => mret (Some (Errorf_w "redis set: " err))
  | None => mret None
  end.
End SentStore.

(** ** The message *)

Module Payload.
Record t := mk {
  EventID : string;
  PaymentID : string;
  OrderID : string;
  Amount : Z;
  CustomerEmail : string;
  Status : string
}.
Definition fields : list (field t) :=
  [Field "event_id" (store_string (fun x p =>
     mk x (PaymentID p) (OrderID p) (Amount p) (CustomerEmail p) (Status p)));
   Field "payment_id" (store_string (fun x p =>
     mk (EventID p) x (OrderID p) (Amount p) (CustomerEmail p) (Status p)));
   Field "order_id" (store_string (fun x p =>
     mk (EventID p) (PaymentID p) x (Amount p) (CustomerEmail p) (Status p)));
   Field "amount" (store_int64 (fun x p =>
     mk (EventID p) (PaymentID p) (OrderID p) x (CustomerEmail p) (Status p)));
   Field "customer_email" (store_string (fun x p =>
     mk (EventID p) (PaymentID p) (OrderID p) (Amount p) x (Status p)));
   Field "status" (store_string (fun x p =>
     mk (EventID p) (PaymentID p) (OrderID p) (Amount p) (CustomerEmail p) x))].
Definition Unmarshal (body : string) : option t := unmarshal fields body (mk "" "" "" 0 "" "").

(** What the processor reads out of it. *)
Definition payment_id (pl : t) : string :=
  let paymentID := TrimSpace (PaymentID pl) in
  if bool_decide (paymentID = "") then TrimSpace (EventID pl) else paymentID.
Definition email (pl : t) : SendInput.t :=
  SendInput.mk (TrimSpace (CustomerEmail pl)) (TrimSpace (OrderID pl)) (payment_id pl) (Amount pl)
    (TrimSpace (Status pl)).
End Payload.

Definition ErrPoison : error := Sentinel "ErrPoison" "poison message: no retry".
Definition ErrForceDLQDemo : error := Sentinel "ErrForceDLQDemo" "forced dlq demo".
Definition ErrTransient : error := Sentinel "ErrTransient" "transient failure: retry".

(** ** The processor *)

(** [1 << uint(n)] and the product, as time.Duration (int64). *)
Definition shift_one (n : Z) : Z := if 64 <=? n then 0 else wrap64 (2 ^ n).
Definition backoff (base attempt : Z) : Z := wrap64 (base * shift_one (attempt - 1)).

Module Processor.
Section Processor.
Context (DLQDemoOrderID : string) (MaxAttempts BackoffBase : Z).
(** The text of a decoding error. *)
Context (decode_error : string -> error).

(** What the retry loop ends with: cut short by the context, or the last error. *)
Inductive attempts_result : Type :=
| CutShort (err : error)
| Finished (lastErr : option error).

(** The loop from [attempt], with [n] rounds left. *)
Fixpoint attempts (n : nat) (attempt : Z) (lastErr : option error) (in_ : SendInput.t) :
    prog notifyE attempts_result :=
  match n with
  | O => mret (Finished lastErr)
  | S n =>
      done ← (if 0 <? attempt then call (After (backoff BackoffBase attempt)) else mret None);
      match done with
      | Some err => mret (CutShort err)
      | None =>
          lastErr ← call (SendPaymentReceipt in_);
          match lastErr with
          | None => mret (Finished None)
          | Some _ => attempts n (attempt + 1) lastErr in_
          end
      end
  end.

(** [Handle] once the message is known to be new: the sending half. *)
Definition send (pl : Payload.t) : prog notifyE (option error) :=
  let in_ := Payload.email pl in
  if bool_decide (SendInput.ToEmail in_ = "") then
    mret (Some (Wrap (Error ErrPoison ++ ": missing customer_email") ErrPoison))
  else
    r ← attempts (Z.to_nat MaxAttempts) 0 None in_;
    match r with
    | CutShort err => mret (Some err)
    | Finished (Some lastErr) => mret (Some (Errorf_wv ErrTransient "" lastErr))
    | Finished None =>
        err ← ProcessedStore.RecordProcessed (Payload.EventID pl);
        match err with
        | Some err => mret (Some (Errorf_wv ErrTransient "record processed: " err))
        | None =>
            err ← SentStore.MarkSent (Payload.payment_id pl);
            match err with
            | Some err => mret (Some (Errorf_wv ErrTransient "redis mark sent: " err))
            | None => mret None
            end
        end
    end.

Definition Handle (body : string) : prog notifyE (option error) :=
  match Payload.Unmarshal body with
  | None => mret (Some (Errorf_wv ErrPoison "" (decode_error body)))
  | Some pl =>
      if bool_decide (TrimSpace (Payload.EventID pl) = "") then
        mret (Some (Wrap (Error ErrPoison ++ ": missing event_id") ErrPoison))
      else
        '(dup, err) ← ProcessedStore.WasProcessed (Payload.EventID pl);
        match err with
        | Some err => mret (Some (Errorf_wv ErrTransient "idempotency store: " err))
        | None =>
            if dup : bool then mret None else
            '(sent, err) ← SentStore.AlreadySent (Payload.payment_id pl);
            match err with
            | Some err => mret (Some (Errorf_wv ErrTransient "redis idempotency: " err))
            | None =>
                if sent : bool then mret None else
                if negb (bool_decide (DLQDemoOrderID = ""))
                   && bool_decide (TrimSpace (Payload.OrderID pl) = DLQDemoOrderID)
                then mret (Some ErrForceDLQDemo)
                else send pl
            end
        end
  end.

(** The consumer's answer to the broker: d.Ack(false), d.Nack(false, requeue). *)
Inductive disposition : Set := Ack | Nack (requeue : bool).

Definition dispose (err : option error) : disposition :=
  match err with
  | None => Ack
  | Some err =>
      if errors_Is err ErrPoison || errors_Is err ErrForceDLQDemo then Nack false
      else if errors_Is err ErrTransient then Nack true
      else Nack true
  end.

Definition handle (body : string) : prog notifyE disposition :=
  err ← Handle body; mret (dispose err).
End Processor.
End Processor.

#[global] Arguments Processor.Handle : simpl never.
#[global] Arguments Processor.send : simpl never.

(** ** formatUSD *)

(** %02d of a number between -99 and 99. *)
Definition fmt_02d (n : Z) : string := if n <? 0 then Itoa n else print_padded 2 n "".

Definition formatUSD (cents : Z) : string :=
  let neg := cents <? 0 in
  let cents := if neg then wrap64 (- cents) else cents in
  let s := "$" ++ Itoa (Z.quot cents 100) ++ "." ++ fmt_02d (Z.rem cents 100) in
  if neg then "-" ++ s else s.

(** ** What the stores and the provider promise *)

Record nview := NView {
  processed : gset string;
  marks : gmap string string;          (* Redis *)
  mails : list SendInput.t             (* mails the provider has taken *)
}.

(** The processor's own errors are not in the chain of any other. *)
Definition alien (e : error) : bool :=
  negb (errors_Is e ErrPoison) && negb (errors_Is e ErrForceDLQDemo).

Definition notify_spec : interface notifyE nview := fun X e =>
  match e in notifyE X return X -> nview -> nview -> Prop with
  | SelectProcessed id => fun r v v' =>
      v' = v /\
      ((r = None /\ id ∈ processed v) \/ (r = Some sql_ErrNoRows /\ id ∉ processed v) \/
       (exists e, r = Some e /\ alien e = true /\ errors_Is e sql_ErrNoRows = false))
  | InsertProcessed id => fun r v v' =>
      (r = None /\ id ∉ processed v /\ v' = NView ({[id]} ∪ processed v) (marks v) (mails v)) \/
      (exists e, r = Some e /\ alien e = true /\
         (v' = v \/ v' = NView ({[id]} ∪ processed v) (marks v) (mails v)))
  | NRedisGet k => fun r v v' =>
      (exists s, marks v !! k = Some s /\ r = (s, None) /\ v' = v) \/
      (r = ("", Some redis_Nil) /\ v' = NView (processed v) (delete k (marks v)) (mails v)) \/
      (exists e, r = ("", Some e) /\ alien e = true /\ err_ptr_eq e redis_Nil = false /\ v' = v)
  | NRedisSet k s => fun r v v' =>
      (r = None /\ v' = NView (processed v) (<[k := s]> (marks v)) (mails v)) \/
      (exists e, r = Some e /\ alien e = true /\
         (v' = v \/ v' = NView (processed v) (<[k := s]> (marks v)) (mails v)))
  | SendPaymentReceipt in_ => fun r v v' =>
      (r = None /\ v' = NView (processed v) (marks v) (in_ :: mails v)) \/
      (exists e, r = Some e /\ alien e = true /\
         (v' = v \/ v' = NView (processed v) (marks v) (in_ :: mails v)))
  | After _ => fun r v v' => v' = v /\ (r = None \/ exists e, r = Some e /\ alien e = true)
  end.

(** ** Lemmas *)

Definition with_mails (k : nat) (in_ : SendInput.t) (v v' : nview) : Prop :=
  mails v' = (repeat in_ k ++ mails v)%list.

Section NotifyFacts.
Context (demo : string) (MaxAttempts base : Z) (decode_error : string -> error).
Notation spec := notify_spec.

Lemma attempts_sent n a le in_ v :
  holds spec (Processor.attempts base n a le in_)
    (fun r v' => processed v' = processed v /\ marks v' = marks v /\
       exists k, (k <= n)%nat /\ with_mails k in_ v v' /\
       match r with
       | Processor.CutShort e => alien e = true
       | Processor.Finished None => n = O /\ le = None \/ (1 <= k)%nat
       | Processor.Finished (Some _) => True
       end) v.
Proof.
  revert a le v; induction n as [|n IH]; intros a le v; cbn [Processor.attempts].
  { apply holds_ret. split_and!; [done..|]. exists O. split_and!; [lia|done|].
    destruct le; [done|by left]. }
  apply holds_bind. 
  apply holds_mono with (Q := fun r v' => v' = v /\ match r with Some e => alien e = true | None => True end).
  { destruct (0 <? a); hrun; eauto. }
  intros [e|] v1 [-> Hd].
  { apply holds_ret. split_and!; [done..|]. exists O. by split_and!; [lia| |]. }
  apply holds_bind, holds_call. intros r v1 Hs.
  destruct r as [e|]; promise Hs; try done; simplify_eq.
  - eapply holds_mono; [apply IH|]. intros r' v' (? & ? & k & ? & ? & Hr).
    split_and!; [done..|]. exists k. split_and!; [lia|done|].
    destruct r' as [e'|[e'|]]; try done. right. destruct Hr as [[-> Hr]|]; [done|lia].
  - eapply holds_mono; [apply IH|]. intros r' v' (? & ? & k & ? & Hm & Hr). simpl in *.
    split_and!; [done..|]. exists (S k). split_and!; [lia| |].
    { unfold with_mails in *. rewrite Hm. simpl mails.
      change (in_ :: mails v)%list with ([in_] ++ mails v)%list. rewrite app_assoc.
      by rewrite <-repeat_cons. }
    destruct r' as [e'|[e'|]]; try done. right. lia.
  - apply holds_ret. simpl. split_and!; [done..|]. exists 1%nat. split_and!; [lia|done|by right].
Qed.

(** The message's event is on record as handled. *)
Definition known (pl : Payload.t) (v : nview) : Prop :=
  Payload.EventID pl ∈ processed v \/
  marks v !! SentStore.key (Payload.payment_id pl) = Some sentValue.

(** What becomes of a message with an event id: [k] mails are sent. *)
Definition handled (pl : Payload.t) (v : nview) (d : Processor.disposition) (v' : nview) : Prop :=
  exists k, (k <= Z.to_nat MaxAttempts)%nat /\ with_mails k (Payload.email pl) v v' /\
  processed v ⊆ processed v' /\
  (Payload.EventID pl ∈ processed v -> k = O /\ d <> Processor.Nack false) /\
  match d with
  | Processor.Ack =>
      (k = O /\ known pl v) \/
      (Payload.EventID pl ∉ processed v /\ Payload.EventID pl ∈ processed v' /\
       marks v' !! SentStore.key (Payload.payment_id pl) = Some sentValue /\
       (MaxAttempts <= 0 \/ (1 <= k)%nat))
  | Processor.Nack false =>
      k = O /\ (SendInput.ToEmail (Payload.email pl) = "" \/
                (demo <> "" /\ SendInput.OrderID (Payload.email pl) = demo))
  | Processor.Nack true => True
  end.

Lemma payment_id_trimmed pl : TrimSpace (Payload.payment_id pl) = Payload.payment_id pl.
Proof. unfold Payload.payment_id. case_bool_decide; apply TrimSpace_idemp. Qed.

Lemma payment_id_nonempty pl :
  TrimSpace (Payload.EventID pl) <> "" -> Payload.payment_id pl <> "".
Proof. intros H. unfold Payload.payment_id. by case_bool_decide. Qed.

Lemma dispose_alien e : alien e = true -> Processor.dispose (Some e) = Processor.Nack true.
Proof.
  unfold alien, Processor.dispose. intros [H1 H2]%andb_true_iff.
  apply negb_true_iff in H1, H2. rewrite H1, H2. simpl. by destruct (errors_Is e ErrTransient).
Qed.

Lemma handled_nothing pl v v' d :
  processed v' = processed v -> mails v' = mails v ->
  d = Processor.Nack true \/ d = Processor.Ack /\ known pl v ->
  handled pl v d v'.
Proof.
  intros Hp Hm Hd. exists O. split_and!; [lia|done|by rewrite Hp| |].
  - intros _. split; [done|]. by destruct Hd as [->|[-> _]].
  - destruct Hd as [->|[-> Hk]]; [done|by left].
Qed.

Lemma send_handled pl v0 v :
  processed v = processed v0 -> mails v = mails v0 -> Payload.EventID pl ∉ processed v ->
  TrimSpace (Payload.EventID pl) <> "" ->
  holds spec (Processor.send MaxAttempts base pl)
    (fun r v' => handled pl v0 (Processor.dispose r) v') v.
Proof.
  intros Hp0 Hm0 Hnew Hid. unfold Processor.send, ProcessedStore.RecordProcessed.
  assert (forall r v' k, (k <= Z.to_nat MaxAttempts)%nat -> with_mails k (Payload.email pl) v v' ->
    processed v ⊆ processed v' -> Processor.dispose r = Processor.Nack true ->
    handled pl v0 (Processor.dispose r) v') as Hretry.
  { intros r v' k Hk Hm Hp ->. exists k. unfold with_mails in *. rewrite <-Hm0, <-Hp0.
    split_and!; try done. }
  case_bool_decide as He.
  { apply holds_ret. exists O. split_and!; [lia|by symmetry|by rewrite Hp0| |].
    - by rewrite <-Hp0.
    - split; [done|by left]. }
  apply holds_bind. eapply holds_mono; [apply attempts_sent|].
  intros [e|[e|]] v1 (Hp & Hmk & k & Hk & Hm & Hr).
  - apply holds_ret. eapply Hretry; [done..|by rewrite Hp|by apply dispose_alien].
  - apply holds_ret. eapply Hretry; [done..|by rewrite Hp|done].
  - unfold SentStore.MarkSent. rewrite payment_id_trimmed.
    rewrite (bool_decide_false (Payload.payment_id pl = "")) by (by apply payment_id_nonempty).
    hrun; try (apply (Hretry (Some _) _ k); [done|done|simpl; rewrite <-?Hp; set_solver|done]).
    all: assert (processed v1 = processed v0) as Hp1 by congruence; rewrite Hp0 in Hnew;
      exists k; unfold with_mails in *; simpl; rewrite Hp1, <-Hm0, lookup_insert_eq;
      (split_and!; [done|done|set_solver|done|right; split_and!; [done|set_solver|done|lia]]).
Qed.

Lemma handle_handled body pl v :
  Payload.Unmarshal body = Some pl -> TrimSpace (Payload.EventID pl) <> "" ->
  holds spec (Processor.handle demo MaxAttempts base decode_error body)
    (fun d v' => handled pl v d v') v.
Proof.
  intros Hu Hid. unfold Processor.handle. apply holds_bind.
  apply holds_mono with (Q := fun r v' => handled pl v (Processor.dispose r) v'); [|done].
  unfold Processor.Handle, ProcessedStore.WasProcessed, SentStore.AlreadySent.
  rewrite Hu, (bool_decide_false _ Hid), payment_id_trimmed.
  rewrite (bool_decide_false (Payload.payment_id pl = "")) by (by apply payment_id_nonempty).
  rewrite (bool_decide_false (Payload.EventID pl = "")) by (intros E; by rewrite E in Hid).
  assert (forall v', processed v' = processed v -> mails v' = mails v ->
    Payload.EventID pl ∉ processed v ->
    negb (bool_decide (demo = "")) && bool_decide (TrimSpace (Payload.OrderID pl) = demo) = true ->
    handled pl v (Processor.dispose (Some ErrForceDLQDemo)) v') as Hdemo.
  { intros v' Hp Hm Hn [Hd%negb_true_iff%bool_decide_eq_false Ho%bool_decide_eq_true]%andb_true_iff.
    exists O. split_and!; [lia|done|by rewrite Hp|done|]. split; [done|right; by split]. }
  hrun; simplify_eq;
    try (match goal with H : bool_decide (_ = sentValue) = true |- _ =>
           apply bool_decide_eq_true in H end);
    try (apply handled_nothing; [done|done|]; by left);
    try (apply handled_nothing; [done|done|]; right; split; [done|]; first [by left|right; congruence]);
    try (by apply Hdemo);
    try (by apply send_handled);
    try (match goal with H : errors_Is sql_ErrNoRows _ = false |- _ => discriminate H end);
    try congruence.

Qed.
End NotifyFacts.
