(* ===== verification/NotifyProps.v ===== *)
(** * Notification service: the properties of the processor *)

From S2P Require Import Prelude GoLib Json Notify.

(** Messages delivered one after the other (prefetch 1). *)
Fixpoint deliveries (demo : string) (MaxAttempts base : Z) (decode_error : string -> error)
    (bodies : list string) : prog notifyE (list Processor.disposition) :=
  match bodies with
  | [] => mret []
  | b :: bodies =>
      d ← Processor.handle demo MaxAttempts base decode_error b;
      ds ← deliveries demo MaxAttempts base decode_error bodies;
      mret (d :: ds)
  end.

(** The message carries an event that is on record. *)
Definition on_record (v : nview) (body : string) : Prop :=
  exists pl, Payload.Unmarshal body = Some pl /\ TrimSpace (Payload.EventID pl) <> "" /\
    Payload.EventID pl ∈ processed v.

(** ** An executable world *)

Record nmem := NMem {
  nm_view : nview;
  nm_faults : list bool         (* [true]: the next call fails, without effect *)
}.
Definition nmem_error : error := ErrorNew "connection reset by peer".

Definition nmem_calls : handler notifyE nmem := fun X e w =>
  let fault := default false (head (nm_faults w)) in
  let v := nm_view w in
  let w' v := NMem v (tail (nm_faults w)) in
  match e in notifyE X return outcome X * nmem with
  | SelectProcessed id =>
      if fault then (Done (Some nmem_error), w' v)
      else if bool_decide (id ∈ processed v) then (Done None, w' v)
      else (Done (Some sql_ErrNoRows), w' v)
  | InsertProcessed id =>
      if fault || bool_decide (id ∈ processed v) then (Done (Some nmem_error), w' v)
      else (Done None, w' (NView ({[id]} ∪ processed v) (marks v) (mails v)))
  | NRedisGet k =>
      if fault then (Done ("", Some nmem_error), w' v)
      else match marks v !! k with
           | Some s => (Done (s, None), w' v)
           | None => (Done ("", Some redis_Nil), w' v)
           end
  | NRedisSet k s =>
      if fault then (Done (Some nmem_error), w' v)
      else (Done None, w' (NView (processed v) (<[k := s]> (marks v)) (mails v)))
  | SendPaymentReceipt in_ =>
      if fault then (Done (Some nmem_error), w' v)
      else (Done None, w' (NView (processed v) (marks v) (in_ :: mails v)))
  | After _ => if fault then (Done (Some context_DeadlineExceeded), w' v) else (Done None, w' v)
  end.

#[export] Instance nmem_refines : Refines nmem_calls nm_view notify_spec.
Proof.
  intros X e w. destruct e as [id|id|k|k s|in_|d]; cbn [nmem_calls];
    destruct (default false (head (nm_faults w))); cbn [orb];
    try (case_bool_decide; do 2 eexists; (split; [reflexivity|]); simpl; eauto 8; fail);
    try (do 2 eexists; (split; [reflexivity|]); simpl; eauto 8; fail).
  destruct (marks (nm_view w) !! k) as [s|] eqn:E; do 2 eexists; (split; [reflexivity|]); simpl; eauto.
  right; left. split; [done|]. rewrite delete_id by done. by destruct (nm_view w).
Qed.

Definition sample_payload : string :=
  marshal [("event_id", jstring "p-1"); ("payment_id", jstring "p-1"); ("order_id", jstring "order-1");
           ("amount", jint 500); ("customer_email", jstring "ann@example.com");
           ("status", jstring "Authorized")].
Definition sample_mail : SendInput.t :=
  SendInput.mk "ann@example.com" "order-1" "p-1" 500 "Authorized".
Definition nmem_start (faults : list bool) : nmem := NMem (NView ∅ ∅ []) faults.
Definition sample_decode (s : string) : error := ErrorNew "invalid character".
Notation sample_handle := (Processor.handle "" 4 2000000000 sample_decode).

(** ** The properties *)

Section NotifyProperties.
Context {W : Type} (h : handler notifyE W) (obs : W -> nview) `{!Refines h obs notify_spec}.
Context (demo : string) (MaxAttempts base : Z) (decode_error : string -> error).

(** C23. Every delivery is answered. A message that cannot be decoded or has no
    event id is dead-lettered and nothing happens. Otherwise (at least one attempt
    being allowed): an acknowledged message is one that was on record, or one whose
    mail the provider has taken and that is on record now, in both stores; a
    dead-lettered one had no address or is the demonstration's, and no mail was
    sent; at most [MaxAttempts] mails are sent, none if the event was on record;
    nothing on record is forgotten. *)
Theorem delivery_answers body w :
  0 < MaxAttempts ->
  exists d w', run h (Processor.handle demo MaxAttempts base decode_error body) w = (Done d, w') /\
    match Payload.Unmarshal body with
    | Some pl =>
        if bool_decide (TrimSpace (Payload.EventID pl) = "")
        then d = Processor.Nack false /\ obs w' = obs w
        else handled demo MaxAttempts pl (obs w) d (obs w') /\
             (d = Processor.Ack -> ~ known pl (obs w) -> Payload.email pl ∈ mails (obs w'))
    | None => d = Processor.Nack false /\ obs w' = obs w
    end.
Proof.
  intros HM.
  destruct (Payload.Unmarshal body) as [pl|] eqn:Hu; [case_bool_decide as Hid|].
  - exists (Processor.Nack false), w. unfold Processor.handle, Processor.Handle.
    rewrite Hu, bool_decide_true by done. done.
  - destruct (holds_run notify_spec h obs _ _ w
      (handle_handled demo MaxAttempts base decode_error body pl _ Hu Hid)) as (d & w' & Hrun & Hd).
    exists d, w'. split; [done|]. split; [done|]. intros -> Hn.
    destruct Hd as (k & Hk & Hm & _ & _ & [[_ ?]|(_ & _ & _ & Hone)]); [done|].
    rewrite Hm. destruct k; [lia|]. by left.
  - exists (Processor.Nack false), w. unfold Processor.handle, Processor.Handle. by rewrite Hu.
Qed.

(** Redeliveries of events that are on record, in any order and whatever
    fails, send no mail and are never dead-lettered. *)
Theorem redeliveries_send_nothing bodies w :
  Forall (on_record (obs w)) bodies ->
  exists ds w', run h (deliveries demo MaxAttempts base decode_error bodies) w = (Done ds, w') /\
    mails (obs w') = mails (obs w) /\ length ds = length bodies /\
    Forall (fun d => d <> Processor.Nack false) ds.
Proof.
  intros Hb.
  assert (forall v, Forall (on_record v) bodies ->
    holds notify_spec (deliveries demo MaxAttempts base decode_error bodies)
      (fun ds v' => mails v' = mails v /\ length ds = length bodies /\
         Forall (fun d => d <> Processor.Nack false) ds) v) as Hh.
  { clear Hb. induction bodies as [|b bodies IH]; intros v Hb; simpl.
    { apply holds_ret. by split_and!. }
    inversion Hb as [|? ? (pl & Hu & Hid & Hin) Hb']; simplify_eq.
    apply holds_bind. eapply holds_mono; [by apply handle_handled|].
    intros d v1 (k & _ & Hm & Hp & Hk & _). destruct (Hk Hin) as [-> Hd].
    apply holds_bind. eapply holds_mono; [apply IH|].
    { eapply Forall_impl; [exact Hb'|]. intros b' (pl' & ? & ? & ?). exists pl'. set_solver. }
    intros ds v2 (Hm2 & Hl & Hds). apply holds_ret. split_and!; [by rewrite Hm2|simpl; congruence|by constructor]. }
  apply (holds_run notify_spec h obs _ _ w (Hh _ Hb)).
Qed.
End NotifyProperties.

Definition sample_event_payload : Payload.t :=
  Payload.mk "p-1" "p-1" "order-1" 500 "ann@example.com" "Authorized".
Lemma sample_unmarshal : Payload.Unmarshal sample_payload = Some sample_event_payload.
Proof. vm_compute. reflexivity. Qed.
Lemma sample_email : Payload.email sample_event_payload = sample_mail.
Proof. vm_compute. reflexivity. Qed.

Lemma delivery_answers_witness :
  exists d w', run nmem_calls (sample_handle sample_payload) (nmem_start [false; false; true]) = (Done d, w') /\
    (d = Processor.Ack -> sample_mail ∈ mails (nm_view w')).
Proof.
  destruct (delivery_answers nmem_calls nm_view "" 4 2000000000 sample_decode sample_payload
              (nmem_start [false; false; true]) ltac:(lia)) as (d & w' & Hrun & Hd).
  exists d, w'. split; [exact Hrun|]. intros Hack.
  rewrite sample_unmarshal, bool_decide_false, sample_email in Hd by (vm_compute; discriminate).
  apply Hd; [exact Hack|].
  intros [Hk|Hk]; [by apply elem_of_empty in Hk|vm_compute in Hk; discriminate].
Defined.

(** The event is on record, Redis has forgotten its mark; two redeliveries. *)
Definition nmem_recorded : nmem := NMem (NView {["p-1"]} ∅ [sample_mail]) [].

Lemma sample_on_record : on_record (nm_view nmem_recorded) sample_payload.
Proof.
  exists sample_event_payload. split_and!; [apply sample_unmarshal|done|]. change ("p-1" ∈ ({["p-1"]} : gset string)). by apply elem_of_singleton.
Qed.

Lemma redeliveries_send_nothing_witness :
  exists ds w', run nmem_calls (deliveries "" 4 2000000000 sample_decode [sample_payload; sample_payload])
      nmem_recorded = (Done ds, w') /\
    mails (nm_view w') = [sample_mail] /\ length ds = 2%nat /\
    Forall (fun d => d <> Processor.Nack false) ds.
Proof.
  exact (redeliveries_send_nothing nmem_calls nm_view "" 4 2000000000 sample_decode
    [sample_payload; sample_payload] nmem_recorded
    (Forall_cons_2 _ _ _ sample_on_record (Forall_cons_2 _ _ _ sample_on_record (Forall_nil_2 _)))).
Defined.

(** A mail can be sent twice: the provider takes the mail, the event cannot be
    recorded, the message is requeued, and its next delivery, which finds the
    event in neither store, sends the mail again. *)
Theorem mail_sent_twice :
  let '(r, w) := run nmem_calls
      (deliveries "" 4 2000000000 sample_decode [sample_payload; sample_payload])
      (nmem_start [false; false; false; true]) in
  r = Done [Processor.Nack true; Processor.Ack] /\
  mails (nm_view w) = [sample_mail; sample_mail].
Proof. vm_compute. split; reflexivity. Qed.

(** ** Arithmetic at the width of int64 *)

(** [formatUSD] prints every int64 amount but the smallest as sign, dollars and
    two digits of cents; the smallest has no int64 opposite and comes out
    garbled. *)
Theorem format_usd (cents : Z) :
  in_int64 cents ->
  (cents <> int64_min ->
   formatUSD cents = (if cents <? 0 then "-" else "") ++ "$" ++ Itoa (Z.abs cents / 100) ++ "." ++
                     String (digit (Z.abs cents mod 100 / 10)) (String (digit (Z.abs cents mod 10)) "")) /\
  (cents = int64_min -> formatUSD cents = "-$-92233720368547758.-8").
Proof.
  intros Hc. split; [|intros ->; vm_compute; reflexivity].
  intros Hmin. unfold formatUSD, fmt_02d.
  assert (wrap64 (- cents) = - cents) as Hneg.
  { apply wrap64_id. unfold in_int64, int64_min, int64_max in *. lia. }
  assert ((if cents <? 0 then wrap64 (- cents) else cents) = Z.abs cents) as ->.
  { destruct (Z.ltb_spec cents 0); [rewrite Hneg|]; lia. }
  pose proof (Z.abs_nonneg cents).
  rewrite Z.quot_div_nonneg, Z.rem_mod_nonneg by lia.
  pose proof (Z.mod_pos_bound (Z.abs cents) 100 ltac:(lia)) as Hm.
  rewrite (proj2 (Z.ltb_ge (Z.abs cents mod 100) 0)) by lia.
  assert (Z.abs cents mod 100 / 10 mod 10 = Z.abs cents mod 100 / 10) as Hd.
  { apply Z.mod_small. split; [apply Z.div_pos; lia|apply Z.div_lt_upper_bound; lia]. }
  assert ((Z.abs cents mod 100) mod 10 = Z.abs cents mod 10) as Hu.
  { change 100 with (10 * 10). rewrite Z.rem_mul_r by lia.
    rewrite Z.mul_comm, Z.mod_add by lia. by rewrite Z.mod_mod. }
  cbn [print_padded]. rewrite Hd, Hu. by destruct (cents <? 0).
Qed.

Lemma format_usd_witness :
  (123456 <> int64_min -> formatUSD 123456 = "$1234.56") /\
  (123456 = int64_min -> formatUSD 123456 = "-$-92233720368547758.-8").
Proof. apply (format_usd 123456). unfold in_int64, int64_min, int64_max. lia. Defined.

(** The wait before attempt [k] (counted from 0) is the base delay doubled
    [k - 1] times, as long as that fits an int64; the configured default (2 s, 4
    attempts) waits 2, 4 and 8 seconds. Past that the product wraps around: the
    34th wait of a 2 s base is negative and from the 65th on it is zero, so the
    worker retries without waiting. *)
Theorem backoff_doubles (base k : Z) :
  0 < base -> 1 <= k -> base * 2 ^ (k - 1) <= int64_max ->
  backoff base k = base * 2 ^ (k - 1) /\
  (map (backoff 2000000000) [1; 2; 3] = [2000000000; 4000000000; 8000000000]) /\
  backoff 2000000000 34 < 0 /\ (forall k', 65 <= k' -> backoff base k' = 0).
Proof.
  intros Hb Hk Hmax. split_and!; [|vm_compute; reflexivity|vm_compute; reflexivity|].
  - unfold backoff, shift_one.
    assert (0 < 2 ^ (k - 1)) by lia.
    assert (2 ^ (k - 1) <= int64_max) as H2 by nia.
    destruct (Z.leb_spec 64 (k - 1)).
    { exfalso. assert (2 ^ 64 <= 2 ^ (k - 1)) by (apply Z.pow_le_mono_r; lia).
      unfold int64_max in H2. lia. }
    rewrite (wrap64_id (2 ^ (k - 1))) by (unfold in_int64, int64_min in *; lia).
    apply wrap64_id. unfold in_int64, int64_min. nia.
  - intros k' Hk'. unfold backoff, shift_one. rewrite (proj2 (Z.leb_le 64 (k' - 1))) by lia.
    rewrite Z.mul_0_r. reflexivity.
Qed.

Lemma backoff_doubles_witness :
  backoff 2000000000 3 = 2000000000 * 2 ^ (3 - 1) /\
  (map (backoff 2000000000) [1; 2; 3] = [2000000000; 4000000000; 8000000000]) /\
  backoff 2000000000 34 < 0 /\ (forall k', 65 <= k' -> backoff 2000000000 k' = 0).
Proof. apply (backoff_doubles 2000000000 3); unfold int64_max; lia. Defined.
