(* ===== verification/Worker.v ===== *)
(** * Notification service: the worker and its queue

    The consuming loop of cmd/notification-service/main.go ([consume], [handle])
    over the processor's calls and those of the queue, and what becomes of the
    messages of the queue: several workers, restarts and lost connections
    included. *)

From S2P Require Import Prelude GoLib Json Notify NotifyProps.

Record delivery := Delivery { tag : Z; body : string }.

(** [Receive] is the [select] of the loop: nothing when the context is done or the
    channel closed.  While the queue is empty and neither has happened the code waits
    here, and the worker makes no call: a process that waits so is one whose rounds have
    been used up at the head of the loop, or that is not scheduled any more. *)
Inductive queueE : Type -> Type :=
| Receive : queueE (option delivery)
| AckDelivery (d : delivery) : queueE (option error)
| NackDelivery (d : delivery) (requeue : bool) : queueE (option error).

Inductive workerE (X : Type) : Type :=
| OnNotify (e : notifyE X)
| OnQueue (e : queueE X).
Arguments OnNotify {X} e.
Arguments OnQueue {X} e.

Module Consumer.
Section Consumer.
Context (DLQDemoOrderID : string) (MaxAttempts BackoffBase : Z) (decode_error : string -> error).

(** The answer to the broker; a failure to send it is only logged. *)
Definition answer (d : delivery) (x : Processor.disposition) : prog workerE unit :=
  match x with
  | Processor.Ack => _ ← call (OnQueue (AckDelivery d)); mret tt
  | Processor.Nack requeue => _ ← call (OnQueue (NackDelivery d requeue)); mret tt
  end.

Definition handle (d : delivery) : prog workerE unit :=
  x ← lift (fun X => OnNotify) (Processor.handle DLQDemoOrderID MaxAttempts BackoffBase decode_error (body d));
  answer d x.

(** The first [n] iterations of the loop. *)
Fixpoint consume (n : nat) : prog workerE unit :=
  match n with
  | O => mret tt
  | S n =>
      d ← call (OnQueue Receive);
      match d with
      | None => mret tt
      | Some d => _ ← handle d; consume n
      end
  end.
End Consumer.
End Consumer.

(** ** The queue

    What RabbitMQ does with the messages of [payment.completed]: waiting, with a
    consumer, dead-lettered, or dropped because they were acknowledged. *)
Record queue := Queue {
  waiting : list string;
  unacked : list delivery;
  dead : list string;
  dropped : list string
}.

Definition messages (q : queue) : list string :=
  (waiting q ++ (body <$> unacked q) ++ dead q ++ dropped q)%list.

(** A consumer's connection is lost: what it had not answered waits again. *)
Definition connection_lost (q q' : queue) : Prop :=
  exists gone kept l, unacked q ≡ₚ (gone ++ kept)%list /\ l ≡ₚ (waiting q ++ (body <$> gone))%list /\
    q' = Queue l kept (dead q) (dropped q).

(** An answer counts once the broker has got it. *)
Definition answered (d : delivery) (q q' : queue) (put : list delivery -> queue -> Prop) : Prop :=
  q' = q \/ exists u, unacked q ≡ₚ d :: u /\ put u q'.

Definition queue_spec : interface queueE queue := fun X e =>
  match e in queueE X return X -> queue -> queue -> Prop with
  | Receive => fun r q q' =>
      (r = None /\ (q' = q \/ connection_lost q q')) \/
      (exists d l, r = Some d /\ waiting q ≡ₚ body d :: l /\
         q' = Queue l (d :: unacked q) (dead q) (dropped q))
  | AckDelivery d => fun r q q' =>
      answered d q q' (fun u q' => q' = Queue (waiting q) u (dead q) (body d :: dropped q))
  | NackDelivery d requeue => fun r q q' =>
      answered d q q' (fun u q' =>
        if requeue then q' = Queue (body d :: waiting q) u (dead q) (dropped q)
        else q' = Queue (waiting q) u (body d :: dead q) (dropped q))
  end.

Record wview := WView { w_notify : nview; w_queue : queue }.

Definition worker_spec : interface workerE wview := fun X e x v v' =>
  match e with
  | OnNotify e => notify_spec X e x (w_notify v) (w_notify v') /\ w_queue v' = w_queue v
  | OnQueue e => queue_spec X e x (w_queue v) (w_queue v') /\ w_notify v' = w_notify v
  end.

(** ** The mails behind the records *)

Section Known.
(** The payloads that have ever been sent. *)
Context (known : Payload.t -> Prop).

(** A mail has been sent about the payment of this message, or about its event. *)
Definition told (v : nview) (pl : Payload.t) : Prop :=
  exists pl', known pl' /\ Payload.email pl' ∈ mails v /\
    (Payload.payment_id pl' = Payload.payment_id pl \/ Payload.EventID pl' = Payload.EventID pl).

(** Every record of either store has a mail behind it, and every mail a message. *)
Record sound (v : nview) : Prop := {
  sound_processed : forall id, id ∈ processed v ->
    exists pl, known pl /\ Payload.EventID pl = id /\ Payload.email pl ∈ mails v;
  sound_marks : forall pid, marks v !! SentStore.key pid = Some sentValue ->
    exists pl, known pl /\ Payload.payment_id pl = pid /\ Payload.email pl ∈ mails v;
  sound_mails : forall m, m ∈ mails v -> exists pl, known pl /\ m = Payload.email pl
}.

Definition more_mails (v v' : nview) : Prop := forall m, m ∈ mails v -> m ∈ mails v'.

Definition may_note (X : Type) (e : notifyE X) (v : nview) : Prop :=
  match e with
  | InsertProcessed id => exists pl, known pl /\ Payload.EventID pl = id /\ Payload.email pl ∈ mails v
  | NRedisSet k s => forall pid, k = SentStore.key pid ->
      exists pl, known pl /\ Payload.payment_id pl = pid /\ Payload.email pl ∈ mails v
  | SendPaymentReceipt in_ => exists pl, known pl /\ in_ = Payload.email pl
  | _ => True
  end.

End Known.

#[export] Instance sent_key_inj : Inj (=) (=) SentStore.key.
Proof. intros a b H. unfold SentStore.key in H. by simplify_eq/=. Qed.

(** The stores and the mails, with the payloads sent so far. *)
Record noted := Noted { n_view : nview; n_known : Payload.t -> Prop }.

Definition noted_spec : interface notifyE noted := fun X e x v v' =>
  notify_spec X e x (n_view v) (n_view v') /\ n_known v' = n_known v.
Definition sound_now (v : noted) : Prop := sound (n_known v) (n_view v).
Definition told_now (v : noted) (pl : Payload.t) : Prop := told (n_known v) (n_view v) pl.
Definition may_now (X : Type) (e : notifyE X) (v : noted) : Prop := may_note (n_known v) X e (n_view v).
Record more_now (v v' : noted) : Prop := {
  more_sent : more_mails (n_view v) (n_view v');
  more_known : forall pl, n_known v pl -> n_known v' pl
}.

Lemma more_now_refl v : more_now v v.
Proof. split; [by intros m|done]. Qed.
Lemma more_now_trans u v w : more_now u v -> more_now v w -> more_now u w.
Proof. intros [H1 K1] [H2 K2]. split; [intros m Hm; by apply H2, H1|auto]. Qed.

#[export] Instance note_discipline : Discipline noted_spec sound_now more_now may_now.
Proof.
  split; [exact more_now_refl|exact more_now_trans|].
  intros X e x [v known] [v' known'] [Hs Hk] Hmay [Hp Hm Hsent]. simpl in Hs, Hk, Hmay, Hp, Hm, Hsent. subst known'.
  cut (sound known v' /\ more_mails v v'); [intros [? ?]; split; [done|by split]|].
  assert (sound known v /\ more_mails v v) as Hsame by (split; [by split|by intros m]).
  assert (forall m, (exists pl, known pl /\ m = Payload.email pl) ->
    sound known (NView (processed v) (marks v) (m :: mails v)) /\ more_mails v (NView (processed v) (marks v) (m :: mails v)))
    as Hmail.
  { intros m Hk. split; [split; simpl|intros m' ?; by right].
    - intros id (pl & ? & ? & ?)%Hp. exists pl. split_and!; [done|done|by right].
    - intros pid (pl & ? & ? & ?)%Hm. exists pl. split_and!; [done|done|by right].
    - intros m' [->|?]%elem_of_cons; [exact Hk|by apply Hsent]. }
  destruct e as [id|id|k|k s|in_|d]; promise Hs; subst; auto.
  all: split; [split; simpl|by intros m]; try exact Hp; try exact Hm; try exact Hsent; simpl in Hmay.
  - intros id' [->%elem_of_singleton|Hid]%elem_of_union; [exact Hmay|by apply Hp].
  - intros id' [->%elem_of_singleton|Hid]%elem_of_union; [exact Hmay|by apply Hp].
  - intros pid [_ Hl]%lookup_delete_Some. by apply Hm.
  - intros pid [[Hk _]|[_ Hl]]%lookup_insert_Some; [by apply Hmay|by apply Hm].
  - intros pid [[Hk _]|[_ Hl]]%lookup_insert_Some; [by apply Hmay|by apply Hm].
Qed.

(** ** The processor *)

(** What the worker refuses for good. *)
Definition refused (demo body : string) : Prop :=
  match Payload.Unmarshal body with
  | None => True
  | Some pl =>
      TrimSpace (Payload.EventID pl) = "" \/ SendInput.ToEmail (Payload.email pl) = "" \/
      (demo <> "" /\ SendInput.OrderID (Payload.email pl) = demo)
  end.

(** What an answer to a message means. *)
Definition answer_means (demo body : string) (d : Processor.disposition) (v : noted) : Prop :=
  match d with
  | Processor.Ack => exists pl, Payload.Unmarshal body = Some pl /\ told_now v pl
  | Processor.Nack false => refused demo body
  | Processor.Nack true => True
  end.

Lemma told_later v v' pl : more_now v v' -> told_now v pl -> told_now v' pl.
Proof. intros [Hm Hk] (pl' & ? & ? & ?). exists pl'. auto. Qed.

Section ProcessorGives.
Context (demo : string) (MaxAttempts base : Z) (decode_error : string -> error).
Context (some_attempt : 0 < MaxAttempts).
Notation gives := (gives noted_spec sound_now more_now may_now).

Lemma attempts_gives n a le in_ v :
  (exists pl, n_known v pl /\ in_ = Payload.email pl) ->
  gives (Processor.attempts base n a le in_)
    (fun r v' => match r with
                 | Processor.CutShort e => alien e = true
                 | Processor.Finished None => n = O /\ le = None \/ in_ ∈ mails (n_view v')
                 | Processor.Finished (Some _) => True
                 end) v.
Proof.
  revert a le v; induction n as [|n IH]; intros a le v Hin; cbn [Processor.attempts].
  { apply gives_ret. destruct le; [done|by left]. }
  assert (forall v', more_now v v' -> exists pl, n_known v' pl /\ in_ = Payload.email pl) as Hin'
    by (intros v' [_ HK]; destruct Hin as (pl & ? & ?); exists pl; auto).
  eapply gives_bind with (P := fun r _ => match r with Some e => alien e = true | None => True end); [apply _| |].
  { destruct (0 <? a); [|by apply gives_ret]. apply gives_last; [intros; exact Logic.I|].
    intros r v1 v2 _ _ _ _ [Hs _]. by promise Hs. }
  intros [e|] v1 Hv1 Hd; [by apply gives_ret|].
  eapply gives_call; [apply _|intros v2 Hv2 _; by eapply Hin', more_now_trans|].
  intros r [n2 k2] [n3 k3] _ _ Hv3 _ _ [Hs _].
  simpl in Hs. destruct r as [e|].
  - eapply gives_mono; [apply _|by eapply IH, Hin', more_now_trans|]. intros [e'|[e'|]] v4 _ Hr; try done.
    destruct Hr as [[-> ?]|?]; [done|by right].
  - apply gives_ret. right. promise Hs; try done. subst. simpl. by left.
Qed.

(** Nothing but the processor's own answers leaves the queue. *)
Lemma transient_means body e v : alien e = true -> answer_means demo body (Processor.dispose (Some e)) v.
Proof. intros He. by rewrite dispose_alien. Qed.

Lemma send_gives body pl v :
  Payload.Unmarshal body = Some pl -> n_known v pl -> TrimSpace (Payload.EventID pl) <> "" ->
  gives (Processor.send MaxAttempts base pl)
    (fun r v' => answer_means demo body (Processor.dispose r) v') v.
Proof.
  intros Hu Hk Hid. unfold Processor.send, ProcessedStore.RecordProcessed, SentStore.MarkSent.
  rewrite payment_id_trimmed, (bool_decide_false (Payload.payment_id pl = "")) by (by apply payment_id_nonempty).
  case_bool_decide as Hto.
  { apply gives_ret. simpl. unfold refused. rewrite Hu. auto. }
  eapply gives_bind; [apply _|apply attempts_gives; by exists pl|].
  intros [e|[e|]] v1 [_ HK] Hr; [apply gives_ret; by apply transient_means|by apply gives_ret|].
  destruct Hr as [[Hn _]|Hmail]; [lia|].
  assert (forall v2, more_now v1 v2 -> n_known v2 pl /\ Payload.email pl ∈ mails (n_view v2)) as Hsent.
  { intros v2 [Hm HK2]. split; [by apply HK2, HK|by apply Hm]. }
  eapply gives_call; [apply _| |].
  { intros v2 Hm _. exists pl. by destruct (Hsent v2 Hm). }
  intros [e|] v2 v3 _ _ Hm3 _ _ _; [by apply gives_ret|].
  eapply gives_call; [apply _| |].
  { intros v4 Hm4 _ pid <-%sent_key_inj. exists pl.
    by destruct (Hsent v4 (more_now_trans _ _ _ Hm3 Hm4)). }
  intros [e|] v4 v5 _ _ Hm5 _ _ _; [by apply gives_ret|]. apply gives_ret. simpl.
  exists pl. split; [done|]. exists pl.
  destruct (Hsent v5 (more_now_trans _ _ _ Hm3 Hm5)). split_and!; [done|done|by left].
Qed.

Lemma handle_gives body v :
  (forall pl, Payload.Unmarshal body = Some pl -> n_known v pl) ->
  gives (Processor.handle demo MaxAttempts base decode_error body) (answer_means demo body) v.
Proof.
  intros Hknown. unfold Processor.handle.
  eapply gives_bind with (P := fun r v' => answer_means demo body (Processor.dispose r) v');
    [apply _| |intros r v1 _ Hr; by apply gives_ret].
  unfold Processor.Handle, ProcessedStore.WasProcessed, SentStore.AlreadySent.
  destruct (Payload.Unmarshal body) as [pl|] eqn:Hu.
  2: { apply gives_ret. simpl. unfold refused. by rewrite Hu. }
  case_bool_decide as Hid; [apply gives_ret; simpl; unfold refused; rewrite Hu; by left|].
  rewrite payment_id_trimmed, (bool_decide_false (Payload.payment_id pl = "")) by (by apply payment_id_nonempty).
  rewrite (bool_decide_false (Payload.EventID pl = "")) by (intros E; by rewrite E in Hid).
  eapply gives_bind with (P := fun x v' => match x with
      | (true, None) => told_now v' pl | (_, Some e) => alien e = true | _ => True end); [apply _| |].
  { eapply gives_call; [apply _|intros; exact Logic.I|]. intros r [n1 k1] [n2 k2] _ _ _ _ Hsound [Hs Hk].
    simpl in Hk. promise Hs; subst; try (by apply gives_ret).
    - apply gives_ret. destruct (sound_processed _ _ Hsound _ ltac:(eassumption)) as (pl' & ? & ? & ?).
      exists pl'. split_and!; [done|done|by right].
    - destruct (errors_Is _ _); by apply gives_ret. }
  intros [dup [e|]] v1 [_ HK1] Hdup; [apply gives_ret; destruct dup; by apply transient_means|].
  destruct dup; [apply gives_ret; by exists pl|].
  eapply gives_bind with (P := fun x v' => match x with
      | (true, None) => told_now v' pl | (_, Some e) => alien e = true | _ => True end); [apply _| |].
  { eapply gives_call; [apply _|intros; exact Logic.I|]. intros [s r] [n2 k2] [n3 k3] _ _ _ _ Hsound [Hs Hk].
    simpl in Hk. destruct (err_eq r redis_Nil); [by apply gives_ret|].
    promise Hs; subst; simplify_eq; apply gives_ret; try done.
    case_bool_decide as Hsent; [|done]. subst.
    destruct (sound_marks _ _ Hsound _ ltac:(eassumption)) as (pl' & ? & ? & ?). exists pl'. auto. }
  intros [sent [e|]] v2 [_ HK2] Hsent; [apply gives_ret; destruct sent; by apply transient_means|].
  destruct sent; [apply gives_ret; by exists pl|].
  destruct (negb (bool_decide (demo = "")) && _) eqn:Hdemo; [|by apply send_gives; auto].
  apply andb_true_iff in Hdemo as [Hd%negb_true_iff%bool_decide_eq_false Ho%bool_decide_eq_true].
  apply gives_ret. simpl. unfold refused. rewrite Hu. auto.
Qed.
End ProcessorGives.

(** ** The worker *)

(** The worker's surroundings, with the payloads sent so far. *)
Record kview := KView { k_view : wview; k_known : Payload.t -> Prop }.

Definition k_notes (v : kview) : noted := Noted (w_notify (k_view v)) (k_known v).

Definition known_spec : interface workerE kview := fun X e x v v' =>
  worker_spec X e x (k_view v) (k_view v') /\ k_known v' = k_known v.

Section WorkerFacts.
Context (demo : string) (MaxAttempts base : Z) (decode_error : string -> error).
Context (some_attempt : 0 < MaxAttempts).

(** Each message that has left the queue has its reason. *)
Record settled (v : kview) : Prop := {
  set_sound : sound_now (k_notes v);
  set_known : forall b pl, b ∈ messages (w_queue (k_view v)) -> Payload.Unmarshal b = Some pl -> k_known v pl;
  set_dropped : forall b, b ∈ dropped (w_queue (k_view v)) ->
    exists pl, Payload.Unmarshal b = Some pl /\ told_now (k_notes v) pl;
  set_dead : forall b, b ∈ dead (w_queue (k_view v)) -> refused demo b
}.

Definition more_told (v v' : kview) : Prop := more_now (k_notes v) (k_notes v').

Definition may_answer (X : Type) (e : workerE X) (v : kview) : Prop :=
  match e with
  | OnNotify e => may_now X e (k_notes v)
  | OnQueue e =>
      match e with
      | Receive => True
      | AckDelivery d => answer_means demo (body d) Processor.Ack (k_notes v)
      | NackDelivery d requeue => answer_means demo (body d) (Processor.Nack requeue) (k_notes v)
      end
  end.

Lemma settled_queue n q q' known :
  settled (KView (WView n q) known) -> messages q' ≡ₚ messages q ->
  (forall b, b ∈ dropped q' -> b ∈ dropped q \/
     exists pl, Payload.Unmarshal b = Some pl /\ told known n pl) ->
  (forall b, b ∈ dead q' -> b ∈ dead q \/ refused demo b) ->
  settled (KView (WView n q') known).
Proof.
  intros [Hs Ha Hdr Hde] Hm H1 H2. split; simpl in *; [done| | |].
  - intros b pl Hb. apply Ha. by rewrite <-Hm.
  - intros b [Hb|Hb]%H1; [by apply Hdr|done].
  - intros b [Hb|Hb]%H2; [by apply Hde|done].
Qed.

(** Moves between the parts of the queue. *)
Lemma messages_received q d l :
  waiting q ≡ₚ body d :: l -> messages (Queue l (d :: unacked q) (dead q) (dropped q)) ≡ₚ messages q.
Proof. intros H. unfold messages. rewrite H. simpl. by rewrite <-Permutation_middle. Qed.

Lemma messages_lost q q' : connection_lost q q' -> messages q' ≡ₚ messages q.
Proof.
  intros (gone & kept & l & Hu & Hl & ->). unfold messages. simpl. rewrite Hl, Hu, fmap_app.
  by rewrite <-!app_assoc.
Qed.

Lemma messages_answered q d u (l1 l2 l3 : list string) :
  unacked q ≡ₚ d :: u ->
  (l1 ++ l2 ++ l3 ≡ₚ body d :: waiting q ++ dead q ++ dropped q)%list ->
  messages (Queue l1 u l2 l3) ≡ₚ messages q.
Proof.
  intros Hu Hl. unfold messages. simpl. rewrite Hu. csimpl.
  rewrite (Permutation_app_comm (body <$> u)). rewrite !app_assoc, <-(app_assoc l1), Hl. simpl.
  rewrite <-!app_assoc, <-Permutation_middle. simpl. f_equiv. f_equiv.
  by rewrite (Permutation_app_comm (body <$> u)), <-app_assoc.
Qed.

(** No call of a worker loses a message or makes one. *)
Lemma worker_messages X (e : workerE X) x v v' :
  worker_spec X e x v v' -> messages (w_queue v') ≡ₚ messages (w_queue v).
Proof.
  destruct e as [e|e]; intros [Hs Hq]; [by rewrite Hq|]. clear Hq. unfold queue_spec, answered in Hs.
  destruct v as [n q], v' as [n' q']; simpl in *.
  destruct e as [|d|d []]; promise Hs; subst; try done; try by apply messages_lost.
  + by apply messages_received.
  + eapply messages_answered; [done|]. by rewrite <-!Permutation_middle.
  + eapply messages_answered; [done|]. done.
  + eapply messages_answered; [done|]. simpl. by rewrite <-Permutation_middle.
Qed.

#[export] Instance worker_discipline : Discipline known_spec settled more_told may_answer.
Proof using Type.
  split; [intros v; apply more_now_refl|intros u v w; apply more_now_trans|].
  intros X e x [[n q] k] [[n' q'] k'] [Hs Hk] Hmay Hset. simpl in Hs, Hk. subst k'.
  pose proof (worker_messages X e x _ _ Hs) as Hall. simpl in Hall.
  destruct e as [e|e]; simpl in Hmay; destruct Hs as [Hs Hq]; simpl in Hs, Hq.
  - subst q'. destruct Hset as [Hsound Hkn Hdr Hde].
    destruct (dis_step (Discipline := note_discipline) X e x (Noted n k) (Noted n' k) (conj Hs eq_refl) Hmay Hsound)
      as [Hsound' Hm].
    split; [|exact Hm]. split; simpl in *; [done|done| |done].
    intros b (pl & ? & ?)%Hdr. exists pl. split; [done|]. by apply (told_later (Noted n k) (Noted n' k)).
  - subst n'. split; [|apply more_now_refl]. unfold queue_spec, answered in Hs.
    apply (settled_queue n q); [exact Hset|exact Hall| |]; simpl; intros b Hb.
    all: destruct e as [|d|d []]; promise Hs; subst;
      try match goal with H : connection_lost _ _ |- _ => destruct H as (? & ? & ? & ? & ? & ->) end;
      try (by left); apply elem_of_cons in Hb as [->|Hb]; [right; eauto|by left].
Qed.

Lemma consume_gives n v :
  gives known_spec settled more_told may_answer (Consumer.consume demo MaxAttempts base decode_error n)
    (fun _ _ => True) v.
Proof using some_attempt.
  revert v; induction n as [|n IH]; intros v; [done|]. cbn [Consumer.consume].
  eapply gives_call; [apply _|intros; exact Logic.I|].
  intros [d|] v1 v2 _ _ _ Hset Hset2 [[Hs _] Hkn]; [|by apply gives_ret].
  assert (body d ∈ messages (w_queue (k_view v1))) as Hin.
  { promise Hs; try done. simplify_eq. unfold messages.
    match goal with H : _ ≡ₚ _ |- _ => rewrite H end. by left. }
  eapply gives_bind with (P := fun _ _ => True); [apply _| |intros; apply IH].
  unfold Consumer.handle.
  eapply gives_bind with (P := fun x v' => answer_means demo (body d) x (k_notes v')); [apply _| |].
  { apply (gives_lift (fun X => OnNotify) k_notes noted_spec known_spec sound_now more_now may_now
      settled more_told may_answer); [by intros ? []|done|done|by intros ? ? ? ? ? [[] ?]|].
    apply handle_gives; [done|]. intros pl Hu. simpl. rewrite Hkn. by eapply (set_known _ Hset). }
  intros x v3 _ Hx.
  assert (forall v4, more_told v3 v4 -> answer_means demo (body d) x (k_notes v4)) as Hx'.
  { intros v4 Hm. destruct x as [|[]]; simpl in *; [|done|done].
    destruct Hx as (pl & ? & ?). exists pl. split; [done|by eapply told_later]. }
  unfold Consumer.answer. destruct x as [|requeue]; (eapply gives_call; [apply _| |intros; by apply gives_ret]);
    intros v4 Hm _; by apply Hx'.
Qed.
End WorkerFacts.

(** With a fixed set of payloads. *)
Lemma known_refines {W : Type} (h : handler workerE W) (obs : W -> wview) `{!Refines h obs worker_spec} known :
  Refines h (fun w => KView (obs w) known) known_spec.
Proof.
  intros X e w. destruct (refines X e w) as (x & w' & Hx & Hs). exists x, w'. split; [done|by split].
Qed.

(** Any number of workers, under every schedule. *)
Lemma workers_settled known {W : Type} (h : handler workerE W) (obs : W -> wview)
    `{!Refines h obs worker_spec} demo MaxAttempts base decode_error (ns : list nat) sched w :
  0 < MaxAttempts -> sound known (w_notify (obs w)) ->
  (forall b pl, b ∈ messages (w_queue (obs w)) -> Payload.Unmarshal b = Some pl -> known pl) ->
  dead (w_queue (obs w)) = [] -> dropped (w_queue (obs w)) = [] ->
  let s := run_schedule h sched
    (Pool (Consumer.consume demo MaxAttempts base decode_error <$> ns) w false) in
  crashed s = false /\ messages (w_queue (obs (world s))) ≡ₚ messages (w_queue (obs w)) /\
  settled demo (KView (obs (world s)) known).
Proof.
  intros HM Hsound Hknown Hdead Hdropped s.
  destruct (pool_gives known_spec (settled demo) more_told (may_answer demo) h (fun w => KView (obs w) known)
    (Refines0 := known_refines h obs known) (fun _ _ _ => True) sched
    (Consumer.consume demo MaxAttempts base decode_error <$> ns) w) as (Hc & Hset & _); [done| | |].
  - split; simpl; [done|done|rewrite Hdropped|rewrite Hdead]; by intros b ?%elem_of_nil.
  - intros i p Hp. apply list_lookup_fmap_Some in Hp as (n & -> & _). by apply consume_gives.
  - split_and!; [done| |done].
    apply (pool_inv worker_spec h obs (fun v => messages (w_queue v) ≡ₚ messages (w_queue (obs w)))); [|done].
    intros X e x v v' Hs Hv. by rewrite (worker_messages X e x v v' Hs).
Qed.

(** C15. Any number of workers on the queue, at any moment of any interleaving,
    whatever fails and however often a worker loses its connection (or is killed:
    its thread is not scheduled any more): no message is lost or doubled, a message
    that left the queue acknowledged has had a mail sent about its payment or event
    (one of [known], the payloads ever sent), and a dead-lettered one is undecodable,
    has no event id, no address, or is the demonstration's.  Every mail is about one
    of [known]. *)
Theorem no_message_lost {W : Type} (h : handler workerE W) (obs : W -> wview)
    `{!Refines h obs worker_spec} known demo MaxAttempts base decode_error (ns : list nat) sched w :
  0 < MaxAttempts -> sound known (w_notify (obs w)) ->
  (forall b pl, b ∈ messages (w_queue (obs w)) -> Payload.Unmarshal b = Some pl -> known pl) ->
  dead (w_queue (obs w)) = [] -> dropped (w_queue (obs w)) = [] ->
  let s := run_schedule h sched
    (Pool (Consumer.consume demo MaxAttempts base decode_error <$> ns) w false) in
  let q := w_queue (obs (world s)) in
  crashed s = false /\ messages q ≡ₚ messages (w_queue (obs w)) /\
  (forall b, b ∈ dropped q ->
     exists pl, Payload.Unmarshal b = Some pl /\ told known (w_notify (obs (world s))) pl) /\
  (forall b, b ∈ dead q -> refused demo b) /\
  (forall m, m ∈ mails (w_notify (obs (world s))) -> exists pl, known pl /\ m = Payload.email pl).
Proof.
  intros HM Hsound Hknown Hdead Hdropped s q.
  by destruct (workers_settled known h obs demo MaxAttempts base decode_error ns sched w) as (Hc & Hall & [[] _ Hdr Hde]).
Qed.

(** ** An executable queue *)

Record qmem := QMem { qm_notify : nmem; qm_queue : queue; qm_tag : Z }.

Definition remove_delivery (d : delivery) (ds : list delivery) : option (list delivery) :=
  match list_find (fun x => tag x = tag d /\ body x = body d) ds with
  | Some (i, _) => Some (take i ds ++ drop (S i) ds)%list
  | None => None
  end.

(** A fault loses the connection of every consumer at [Receive], and the answer
    otherwise. *)
Definition qmem_calls : handler workerE qmem := fun X e w =>
  let q := qm_queue w in
  let fault := default false (head (nm_faults (qm_notify w))) in
  let next := NMem (nm_view (qm_notify w)) (tail (nm_faults (qm_notify w))) in
  match e with
  | OnNotify e => let '(r, n) := nmem_calls X e (qm_notify w) in (r, QMem n q (qm_tag w))
  | OnQueue e =>
      match e in queueE X return outcome X * qmem with
      | Receive =>
          if fault then
            (Done None, QMem next (Queue (waiting q ++ (body <$> unacked q)) [] (dead q) (dropped q)) (qm_tag w))
          else
            match waiting q with
            | [] => (Done None, QMem next q (qm_tag w))
            | b :: l =>
                let d := Delivery (qm_tag w) b in
                (Done (Some d), QMem next (Queue l (d :: unacked q) (dead q) (dropped q)) (qm_tag w + 1))
            end
      | AckDelivery d =>
          match remove_delivery d (unacked q) with
          | Some u =>
              if fault then (Done (Some nmem_error), QMem next q (qm_tag w))
              else (Done None, QMem next (Queue (waiting q) u (dead q) (body d :: dropped q)) (qm_tag w))
          | None => (Done (Some nmem_error), QMem next q (qm_tag w))
          end
      | NackDelivery d requeue =>
          match remove_delivery d (unacked q) with
          | Some u =>
              if fault then (Done (Some nmem_error), QMem next q (qm_tag w))
              else if requeue
              then (Done None, QMem next (Queue (body d :: waiting q) u (dead q) (dropped q)) (qm_tag w))
              else (Done None, QMem next (Queue (waiting q) u (body d :: dead q) (dropped q)) (qm_tag w))
          | None => (Done (Some nmem_error), QMem next q (qm_tag w))
          end
      end
  end.

Definition qmem_view (w : qmem) : wview := WView (nm_view (qm_notify w)) (qm_queue w).

Lemma remove_delivery_perm d ds u : remove_delivery d ds = Some u -> ds ≡ₚ d :: u.
Proof.
  unfold remove_delivery. destruct (list_find _ ds) as [[i x]|] eqn:Hf; [|done]. intros [= <-].
  apply list_find_Some in Hf as (Hi & [Ht Hb] & _).
  assert (x = d) as -> by (destruct x, d; simpl in *; by subst).
  rewrite <-(take_drop_middle ds i d Hi) at 1. by rewrite Permutation_middle.
Qed.

#[export] Instance qmem_refines : Refines qmem_calls qmem_view worker_spec.
Proof.
  intros X e w. destruct e as [e|e].
  - destruct (refines (obs := nm_view) (spec := notify_spec) X e (qm_notify w)) as (x & n & Hx & Hs).
    simpl. rewrite Hx. exists x. eexists. split; [done|]. by split.
  - destruct e as [|d|d requeue]; simpl.
    + destruct (default false _).
      * do 2 eexists. split; [done|]. split; [|done]. simpl. left. split; [done|]. right.
        exists (unacked (qm_queue w)), [], (waiting (qm_queue w) ++ (body <$> unacked (qm_queue w)))%list.
        by rewrite app_nil_r.
      * destruct (waiting (qm_queue w)) as [|b l] eqn:Hq; (do 2 eexists; split; [done|]; split; [|done]); simpl.
        -- left. split; [done|]. by left.
        -- right. by exists (Delivery (qm_tag w) b), l.
    + destruct (remove_delivery d _) as [u|] eqn:Hu; [apply remove_delivery_perm in Hu; destruct (default false _)|];
        (do 2 eexists; split; [done|]; split; [|done]); simpl; unfold answered; eauto.
    + destruct (remove_delivery d _) as [u|] eqn:Hu;
        [apply remove_delivery_perm in Hu; destruct (default false _); [|destruct requeue]|];
        (do 2 eexists; split; [done|]; split; [|done]); simpl; unfold answered; eauto.
Qed.

(** A good message and one that is not JSON; the first worker's acknowledgement is
    lost with its connection, a second worker takes over. *)
Definition sample_queue : qmem :=
  QMem (nmem_start []) (Queue [sample_payload; "{"] [] [] []) 1.

Lemma no_message_lost_witness :
  let s := run_schedule qmem_calls [0; 0; 0; 1; 0; 0; 1; 0; 0; 0]%nat
    (Pool (Consumer.consume "" 4 2000000000 sample_decode <$> [2; 2]%nat) sample_queue false) in
  let q := w_queue (qmem_view (world s)) in
  crashed s = false /\ messages q ≡ₚ messages (w_queue (qmem_view sample_queue)) /\
  (forall b, b ∈ dropped q ->
     exists pl, Payload.Unmarshal b = Some pl /\ told (fun _ => True) (w_notify (qmem_view (world s))) pl) /\
  (forall b, b ∈ dead q -> refused "" b) /\
  (forall m, m ∈ mails (w_notify (qmem_view (world s))) -> exists pl, True /\ m = Payload.email pl).
Proof.
  apply (no_message_lost qmem_calls qmem_view (fun _ => True) "" 4 2000000000 sample_decode [2; 2]%nat); [done| |done..].
  split; [by intros id ?%elem_of_empty| |by intros m ?%elem_of_nil].
  intros pid H. by destruct (lookup_empty_Some (SentStore.key pid) sentValue H).
Defined.

Example both_answered :
  let s := run_schedule qmem_calls (repeat 0%nat 20)
    (Pool (Consumer.consume "" 4 2000000000 sample_decode <$> [3]%nat) sample_queue false) in
  qm_queue (world s) = Queue [] [] ["{"] [sample_payload] /\ length (mails (nm_view (qm_notify (world s)))) = 1%nat.
Proof. vm_compute. done. Qed.
