(* ===== verification/System.v ===== *)
(** * The whole purchase: order service, network and payment service

    The order service's requests over the gRPC client of the payment service, the
    RPCs on their way, and the payment service's handlers: goroutines of two
    processes and a network between them, in every interleaving. *)

From S2P Require Import Prelude GoLib Json GoTime Proto OrderPorts OrderUsecase OrderUsecaseFacts OrderMem.
From S2P Require Import PaymentClients Publisher PaymentUsecase PaymentProps PaymentTransport.

Inductive rpc : Type :=
| AuthorizeRpc (req : AuthorizePaymentRequest.t)
| StatusRpc (req : GetPaymentStatusRequest.t).

Inductive rpc_reply (Timestamp : Type) : Type :=
| AuthorizeReply (r : option (AuthorizePaymentResponse.t Timestamp) * option error)
| StatusReply (r : option (GetPaymentStatusResponse.t Timestamp) * option error).
Arguments AuthorizeReply {Timestamp} r.
Arguments StatusReply {Timestamp} r.

(** A client sends a request and waits for the reply to it, or for its deadline
    and whatever else may happen to the connection; a server takes a request and
    replies. *)
Inductive netE (Timestamp : Type) : Type -> Type :=
| SendRequest (q : rpc) : netE Timestamp (Z + error)
| AwaitReply (id : Z) : netE Timestamp (rpc_reply Timestamp + error)
| AcceptRequest : netE Timestamp (option (Z * rpc))
| SendReply (id : Z) (r : rpc_reply Timestamp) : netE Timestamp unit.
Arguments SendRequest {Timestamp} q.
Arguments AwaitReply {Timestamp} id.
Arguments AcceptRequest {Timestamp}.
Arguments SendReply {Timestamp} id r.

Inductive sysE (Timestamp : Type) (X : Type) : Type :=
| OnOrder (e : portE X)
| OnPayment (e : PaymentPorts.E X)
| OnNet (e : netE Timestamp X).
Arguments OnOrder {Timestamp X} e.
Arguments OnPayment {Timestamp X} e.
Arguments OnNet {Timestamp X} e.

Section Programs.
Context {Timestamp : Type} (timestamppb_New : Z -> Timestamp) (pub : bool).
Notation E := (sysE Timestamp).

(** A nil message cannot be marshalled. *)
Definition errNilMessage : error := status_Error Internal "grpc: error while marshaling: proto: Marshal called with nil".

(** One RPC through the generated stub. *)
Definition invoke (q : rpc) : prog E (rpc_reply Timestamp + error) :=
  id ← call (OnNet (SendRequest q));
  match id with
  | inr e => mret (inr e)
  | inl id => call (OnNet (AwaitReply id))
  end.

Definition stub : forall X : Type, payE Timestamp X -> prog E X := fun X e =>
  match e in payE _ X return prog E X with
  | RpcAuthorizePayment req =>
      r ← invoke (AuthorizeRpc req);
      match r with
      | inr e => mret (inr e)
      | inl (AuthorizeReply (_, Some e)) => mret (inr e)
      | inl (AuthorizeReply (Some resp, None)) => mret (inl resp)
      | inl _ => mret (inr errNilMessage)
      end
  | RpcGetPaymentStatus req =>
      r ← invoke (StatusRpc req);
      match r with
      | inr e => mret (inr e)
      | inl (StatusReply (_, Some e)) => mret (inr e)
      | inl (StatusReply (Some resp, None)) => mret (inl resp)
      | inl _ => mret (inr errNilMessage)
      end
  end.

(** The generated service handlers, behind the interceptor. *)
Definition handle_rpc (q : rpc) : prog PaymentPorts.E (rpc_reply Timestamp) :=
  match q with
  | AuthorizeRpc req =>
      r ← Server.LoggingInterceptor (Server.AuthorizePayment timestamppb_New pub) req;
      mret (AuthorizeReply r)
  | StatusRpc req =>
      r ← Server.LoggingInterceptor (Server.GetPaymentStatus timestamppb_New) req;
      mret (StatusReply r)
  end.

Definition serve_rpc : prog E unit :=
  q ← call (OnNet AcceptRequest);
  match q with
  | None => mret tt
  | Some (id, q) =>
      r ← lift (fun X => OnPayment) (handle_rpc q);
      call (OnNet (SendReply id r))
  end.

(** The order service's ports, with the payment client as [PaymentAuthorizer]. *)
Definition sys_ports : forall X : Type, portE X -> prog E X := fun X e =>
  match e in portE X return prog E X with
  | Authorize id amount email => interp stub (PaymentClient.Authorize id amount email)
  | GetStatus id => interp stub (PaymentClient.GetStatus id)
  | GetByID id => call (OnOrder (GetByID id))
  | UpdateStatus id st => call (OnOrder (UpdateStatus id st))
  | CreatePendingWithIdempotency key cust item amount =>
      call (OnOrder (CreatePendingWithIdempotency key cust item amount))
  | CacheGet id => call (OnOrder (CacheGet id))
  | CacheSet o ttl => call (OnOrder (CacheSet o ttl))
  | CacheDelete id => call (OnOrder (CacheDelete id))
  end.

(** The goroutines: requests to the order service, RPC handlers of the payment
    service, and requests to the payment service's own interface. *)
Inductive goroutine : Type :=
| OrderThread (r : request)
| RpcThread
| PaymentThread (r : payment_request).

Inductive result : Type :=
| Answered (r : option Order.t * option error)
| Ended.

Definition thread (cache : bool) (ttl : Z) (g : goroutine) : prog E result :=
  match g with
  | OrderThread r => x ← interp sys_ports (serve cache ttl r); mret (Answered x)
  | RpcThread => _ ← serve_rpc; mret Ended
  | PaymentThread r => _ ← lift (fun X => OnPayment) (serve_payment pub r); mret Ended
  end.
End Programs.

(** ** What the parts promise *)

Record sysview (Timestamp : Type) := SysView {
  sv_order : view;
  sv_payment : pview;
  sv_calls : gmap Z rpc;
  sv_replies : list (Z * rpc_reply Timestamp)
}.
Arguments SysView {Timestamp} _ _ _ _.
Arguments sv_order {Timestamp} _.
Arguments sv_payment {Timestamp} _.
Arguments sv_calls {Timestamp} _.
Arguments sv_replies {Timestamp} _.

Section Spec.
Context {Timestamp : Type}.
Context (uuid_in : string -> option string) (tstz : Z -> Z).
Context (puuid_in : string -> option string) (ptstz : Z -> Z).
Notation sysview := (sysview Timestamp).

(** Requests and replies may be lost, late, and delivered more than once; a reply
    is the reply to its request. *)
Definition net_spec : interface (netE Timestamp) (gmap Z rpc * list (Z * rpc_reply Timestamp)) := fun X e =>
  match e in netE _ X return X -> _ -> _ -> Prop with
  | SendRequest q => fun r v v' =>
      (exists id, r = inl id /\ v.1 !! id = None /\ v' = (<[id := q]> v.1, v.2)) \/
      (exists e, r = inr e /\ foreign e = true /\ v' = v)
  | AwaitReply id => fun r v v' =>
      v' = v /\ ((exists a, r = inl a /\ (id, a) ∈ v.2) \/ (exists e, r = inr e /\ foreign e = true))
  | AcceptRequest => fun r v v' =>
      v' = v /\ (r = None \/ exists id q, r = Some (id, q) /\ v.1 !! id = Some q)
  | SendReply id a => fun _ v v' => v' = v \/ v' = (v.1, (id, a) :: v.2)
  end.

Definition sys_spec : interface (sysE Timestamp) sysview := fun X e x v v' =>
  match e with
  | OnOrder e =>
      exists o, OrderPorts.ports_spec uuid_in tstz X e x (sv_order v) o /\
        v' = SysView o (sv_payment v) (sv_calls v) (sv_replies v)
  | OnPayment e =>
      exists p, PaymentUsecase.ports_spec puuid_in ptstz X e x (sv_payment v) p /\
        v' = SysView (sv_order v) p (sv_calls v) (sv_replies v)
  | OnNet e =>
      exists n, net_spec X e x (sv_calls v, sv_replies v) n /\
        v' = SysView (sv_order v) (sv_payment v) n.1 n.2
  end.
End Spec.

(** Looking a payment up is one call, under every discipline that allows it. *)
Lemma lookup_gives puuid_in ptstz I R may `{!Discipline (PaymentUsecase.ports_spec puuid_in ptstz) I R may} id v :
  (forall v, may _ (PaymentPorts.GetByOrderID id) v) ->
  gives (PaymentUsecase.ports_spec puuid_in ptstz) I R may (GetPaymentByOrder.Execute id) (fun _ _ => True) v.
Proof.
  intros Hm. unfold GetPaymentByOrder.Execute. case_bool_decide; [by apply gives_ret|].
  apply gives_last; [intros; apply Hm|done].
Qed.

(** ** The payment side: what a reply to an authorization says *)

Section Charges.
Context (puuid_in : string -> option string) (ptstz : Z -> Z) (pub : bool).
Notation spec := (PaymentUsecase.ports_spec puuid_in ptstz).
Notation gives := (gives spec ledger grown may_pay).

(** The table has a payment of [amount] for the order, and its message, if one is
    due, has been taken by the broker, or passes for taken ([reported]). *)
Definition charged (pay : pview) (orderID : string) (amount : Z) (st : string) : Prop :=
  exists p, payments pay !! orderID = Some p /\ Payment.Amount p = amount /\ Payment.Status p = st /\
    (announced pub p = true ->
     exists e, PaymentCompletedEvent.OrderID e = orderID /\ announces p e /\ reported e (pv_broker pay)).

Lemma charged_grown pay pay' id amount st : grown pay pay' -> charged pay id amount st -> charged pay' id amount st.
Proof.
  intros [Hp Hb] (p & Hl' & Ha & Hs & He). exists p. split_and!; [by eapply lookup_weaken|done|done|].
  intros Han. destruct (He Han) as (e & ? & ? & ?). exists e. split_and!; [done..|]. by eapply reported_grown.
Qed.

Lemma charged_ceiling pay id amount :
  ledger pay -> charged pay id amount Payment.StatusAuthorized -> 0 < amount <= 100000.
Proof.
  intros HL (p & Hp & <- & Hs & _). destruct (led_row _ HL _ _ Hp) as (_ & Ha & Hc).
  split; [done|]. rewrite Hs in Hc. unfold called_for in Hc.
  by destruct (Z.leb_spec (Payment.Amount p) 100000).
Qed.

Lemma saved_charged p v v' w :
  puuid_in (Payment.ID p) = Some (Payment.ID p) ->
  spec _ (PaymentPorts.Save p) None v v' -> grown v' w ->
  (announced pub p = true -> exists e, PaymentCompletedEvent.OrderID e = Payment.OrderID p /\
     announces p e /\ reported e (pv_broker w)) ->
  charged w (Payment.OrderID p) (Payment.Amount p) (Payment.Status p).
Proof.
  intros Hc Hs [Hg _] He. exists (Payment.set_CreatedAt (ptstz (Payment.CreatedAt p)) p).
  split_and!; [|done|done|exact He].
  eapply lookup_weaken; [|exact Hg]. promise Hs; try done.
  match goal with H : saved _ _ _ _ _ |- _ => destruct H as (c & Hc' & _ & _ & _ & _ & ->) end.
  rewrite Hc in Hc'. injection Hc' as <-. etrans; [apply lookup_insert_eq|by destruct p].
Qed.

Lemma publisher_gives e v :
  (forall w, grown v w -> exists p, payments w !! PaymentCompletedEvent.OrderID e = Some p /\ announces p e) ->
  gives (Publisher.PublishPaymentCompleted (fun X => PaymentPorts.OnBroker) e)
    (fun r pay => r = None -> reported e (pv_broker pay)) v.
Proof.
  intros He. unfold Publisher.PublishPaymentCompleted. change (Publishing _ _ _) with (publishing_of e).
  eapply gives_call; [apply _|intros w Hw _; split; [done|by apply He]|].
  intros [err|] v1 v2 _ _ _ _ _ Hw; [by apply gives_ret|].
  eapply gives_call; [apply _|done|].
  intros [c err] v3 v4 Hg _ _ Hv3 _ Hr. destruct Hr as (b & Hr & ->). destruct Hw as (b1 & Hw & ->).
  assert (written e (publishing_of e) (pv_broker v1) b1) as Hwr by (promise Hw; done).
  promise Hr; try (by apply gives_ret). destruct x0; [|by apply gives_ret]. apply gives_ret. intros _.
  eapply written_reported; [exact Hwr|apply Hg|apply (led_broker _ Hv3)|done|done].
Qed.

Lemma publish_gives p email v v' w :
  puuid_in (Payment.ID p) = Some (Payment.ID p) ->
  spec _ (PaymentPorts.Save p) None v v' -> grown v' w ->
  gives (AuthorizePayment.publish pub p email)
    (fun r pay => match r with
       | (Some out, None) => out = AuthorizePayment.output p /\
           charged pay (Payment.OrderID p) (Payment.Amount p) (Payment.Status p)
       | (None, None) => False
       | _ => True
       end) w.
Proof.
  intros Hc Hs Hg. unfold AuthorizePayment.publish.
  destruct (bool_decide _ && pub) eqn:Han.
  2: { apply gives_ret. split; [done|]. eapply saved_charged; [done|exact Hs|exact Hg|].
       unfold announced. by rewrite Han. }
  destruct (bool_decide (TrimSpace email = "")) eqn:Hem; [by apply gives_ret|].
  apply bool_decide_eq_false in Hem. eapply gives_bind; [apply _|apply publisher_gives|].
  - intros w1 Hw1. eapply saved_announced; [done|exact Hs|by eapply grown_trans|exact Han|done].
  - intros [err|] w1 Hw1 Hr; [by apply gives_ret|]. apply gives_ret. split; [done|].
    eapply saved_charged; [done|exact Hs|by eapply grown_trans|].
    intros _. eexists. split_and!; [|exact (announced_event pub p email Han Hem)|by apply Hr]. done.
Qed.

Lemma authorize_gives in_ v :
  gives (AuthorizePayment.Execute pub in_)
    (fun r pay => match r with
       | (Some out, None) => charged pay (AuthorizePaymentInput.OrderID in_) (AuthorizePaymentInput.Amount in_)
                               (AuthorizePaymentOutput.Status out)
       | (None, None) => False
       | _ => True
       end) v.
Proof.
  unfold AuthorizePayment.Execute. rewrite status_called_for. follow_gives; try done.
  eapply gives_mono; [apply _| |].
  - eapply publish_gives; [|eassumption|apply grown_refl].
    simpl. by match goal with H : PaymentUsecase.ports_spec _ _ _ PaymentPorts.NewString ?x _ _ |- _ = Some ?x => destruct H end.
  - by intros [[out|] [e|]] w _ Hr; [|destruct Hr as [-> Hr]| |].
Qed.

Lemma intercepted_gives {Req Resp} (handler : Req -> prog PaymentPorts.E (Resp * option error)) req Q v :
  gives (handler req) Q v -> gives (Server.LoggingInterceptor handler req) Q v.
Proof.
  intros Hh. unfold Server.LoggingInterceptor. eapply gives_bind; [apply _|exact Hh|].
  intros [resp err] w _ Hr. by apply gives_ret.
Qed.

Context {Timestamp : Type} (timestamppb_New : Z -> Timestamp).

Lemma authorize_rpc_gives req v :
  gives (Server.AuthorizePayment timestamppb_New pub req)
    (fun r pay => forall resp, r = (Some resp, None) ->
       charged pay (AuthorizePaymentRequest.OrderId req) (AuthorizePaymentRequest.Amount req)
         (AuthorizePaymentResponse.Status resp)) v.
Proof.
  unfold Server.AuthorizePayment. destruct (bool_decide _); [by apply gives_ret|].
  destruct (_ <=? 0); [by apply gives_ret|].
  eapply gives_bind; [apply _|apply authorize_gives|]. intros [[out|] [e|]] w _ Hr; unfold Server.authorize_reply;
    try done; try (destruct (Contains _ _); by apply gives_ret).
  apply gives_ret. by intros resp [= <-].
Qed.
End Charges.

(** ** The whole system *)

Section Safety.
Context {Timestamp : Type} (timestamppb_New : Z -> Timestamp).
Context (uuid_in : string -> option string) (tstz : Z -> Z).
Context (puuid_in : string -> option string) (ptstz : Z -> Z) (pub cache_on : bool) (ttl : Z).
Notation sysview := (sysview Timestamp).
Notation sspec := (sys_spec (Timestamp := Timestamp) uuid_in tstz puuid_in ptstz).
Notation charged := (charged pub).

(** A paid order has been charged, in full. *)
Definition backed (pay : pview) (o : Order.t) : Prop :=
  Order.Status o = StatusPaid -> charged pay (Order.ID o) (Order.Amount o) Payment.StatusAuthorized.

(** A reply that reports a charge is true. *)
Definition truthful (v : sysview) (id : Z) (a : rpc_reply Timestamp) : Prop :=
  forall resp, a = AuthorizeReply (Some resp, None) ->
  exists req, sv_calls v !! id = Some (AuthorizeRpc req) /\
    charged (sv_payment v) (AuthorizePaymentRequest.OrderId req) (AuthorizePaymentRequest.Amount req)
      (AuthorizePaymentResponse.Status resp).

Record consistent (v : sysview) : Prop := {
  con_orders : integrity uuid_in (sv_order v);
  con_ledger : ledger (sv_payment v);
  con_rows : forall c o, orders (sv_order v) !! c = Some o -> backed (sv_payment v) o;
  con_cache : forall c o, cache (sv_order v) !! c = Some o -> backed (sv_payment v) o;
  con_calls : forall id q, sv_calls v !! id = Some q -> exists req, q = AuthorizeRpc req;
  con_replies : forall id a, (id, a) ∈ sv_replies v -> truthful v id a
}.

(** An order of this id and amount is stored. *)
Definition stored (c : string) (amount : Z) (v : view) : Prop :=
  exists o, orders v !! c = Some o /\ Order.Amount o = amount.

(** Orders keep their amounts, payments and messages stay, requests are not
    forgotten. *)
Record forward (v v' : sysview) : Prop := {
  fwd_rows : forall c a, stored c a (sv_order v) -> stored c a (sv_order v');
  fwd_pay : grown (sv_payment v) (sv_payment v');
  fwd_calls : sv_calls v ⊆ sv_calls v'
}.

Lemma forward_refl v : forward v v.
Proof. by split; [|apply grown_refl|]. Qed.
Lemma forward_trans u v w : forward u v -> forward v w -> forward u w.
Proof.
  intros [] []. split; [by auto|by eapply grown_trans|by etrans].
Qed.

Lemma backed_forward v v' o : forward v v' -> backed (sv_payment v) o -> backed (sv_payment v') o.
Proof. intros Hf Hb Hs. eapply charged_grown; [apply fwd_pay, Hf|by apply Hb]. Qed.

Lemma truthful_forward v v' id a : forward v v' -> truthful v id a -> truthful v' id a.
Proof.
  intros Hf Ht resp Ha. destruct (Ht resp Ha) as (req & Hq & Hc). exists req. split.
  - eapply lookup_weaken; [exact Hq|apply fwd_calls, Hf].
  - eapply charged_grown; [apply fwd_pay, Hf|exact Hc].
Qed.

(** What a goroutine may do: store Paid only for a charge, cache only what is
    stored, never ask for a payment's status, and reply the truth. *)
Definition may_order (X : Type) (e : portE X) (v : sysview) : Prop :=
  match e with
  | UpdateStatus id st => st = StatusPaid ->
      exists c o, uuid_in id = Some c /\ orders (sv_order v) !! c = Some o /\
        charged (sv_payment v) c (Order.Amount o) Payment.StatusAuthorized
  | CacheSet o _ => storable o = true /\ backed (sv_payment v) o
  | GetStatus _ => False
  | _ => True
  end.

Definition may_sys (X : Type) (e : sysE Timestamp X) (v : sysview) : Prop :=
  match e with
  | OnOrder e => may_order X e v
  | OnPayment e => may_pay X e (sv_payment v)
  | OnNet e =>
      match e with
      | SendRequest q => exists req, q = AuthorizeRpc req
      | SendReply id a => truthful v id a
      | _ => True
      end
  end.

Lemma updated_stored id st o o' :
  updated uuid_in id st o o' -> forall c a, stored c a o -> stored c a o'.
Proof.
  intros (c & r & _ & Hr & _ & ->) c' a (x & Hx & <-). unfold stored. simpl.
  destruct (decide (c = c')) as [->|Hne].
  - rewrite lookup_insert_eq. simplify_eq. by eexists.
  - rewrite lookup_insert_ne by done. by eexists.
Qed.

Lemma created_stored key cu it am r o o' :
  created uuid_in tstz key cu it am r o o' ->
  cache o' = cache o /\ stored (Order.ID r) am o' /\ (forall c a, stored c a o -> stored c a o').
Proof.
  intros (id & now & -> & _ & Hn & _ & _ & _ & ->). unfold stored, with_new_order. simpl.
  assert (forall m, orders (match key_of key with Some k => set_idem (<[k:=id]>) m | None => m end) = orders m /\
    cache (match key_of key with Some k => set_idem (<[k:=id]>) m | None => m end) = cache m) as He
    by (intros m; by destruct (key_of key)).
  destruct (He (set_orders (<[id:=Order.set_CreatedAt (tstz now) (new_order id cu it am now)]>) o)) as [-> ->].
  simpl. split_and!; [done|rewrite lookup_insert_eq; by eexists|].
  intros c a (x & Hx & <-). rewrite lookup_insert_ne by congruence. by eexists.
Qed.

Definition with_orders (o : view) (v : sysview) : sysview :=
  SysView o (sv_payment v) (sv_calls v) (sv_replies v).

Lemma orders_step v o :
  consistent v -> integrity uuid_in o ->
  (forall c r, orders o !! c = Some r -> backed (sv_payment v) r) ->
  (forall c r, cache o !! c = Some r -> backed (sv_payment v) r) ->
  (forall c a, stored c a (sv_order v) -> stored c a o) ->
  consistent (with_orders o v) /\ forward v (with_orders o v).
Proof. intros [] ? ? ? ?. split; split; auto using grown_refl. Qed.

Lemma update_backed v id st o :
  consistent v -> may_order _ (UpdateStatus id st) v -> updated uuid_in id st (sv_order v) o ->
  forall c r, orders o !! c = Some r -> backed (sv_payment v) r.
Proof.
  intros Hv Hm (c0 & r0 & Hc & Hr0 & _ & ->) c r. simpl.
  intros [[<- <-]|[_ Hr]]%lookup_insert_Some; [|by eapply con_rows].
  intros Hst. simpl in Hst. destruct (Hm Hst) as (c' & r' & Hc' & Hr' & Hch). simplify_eq. simpl.
  by destruct (int_row _ _ (con_orders _ Hv) _ _ Hr0) as (-> & _).
Qed.

Lemma create_backed v key cu it am r o :
  consistent v -> created uuid_in tstz key cu it am r (sv_order v) o ->
  forall c r, orders o !! c = Some r -> backed (sv_payment v) r.
Proof.
  intros Hv (E & _ & _ & _ & _ & Hst)%created_row c r'. rewrite E.
  intros [[<- <-]|[_ Hr]]%lookup_insert_Some; [|by eapply con_rows].
  intros Hs. simpl in Hs. by rewrite Hst in Hs.
Qed.

Lemma order_step X (e : portE X) x v o :
  OrderPorts.ports_spec uuid_in tstz X e x (sv_order v) o -> may_order X e v -> consistent v ->
  consistent (with_orders o v) /\ forward v (with_orders o v).
Proof.
  intros Hs Hm Hv. pose proof (integrity_call uuid_in tstz X e x _ _ Hs (con_orders _ Hv)) as Hi.
  assert (o = sv_order v -> consistent (with_orders o v) /\ forward v (with_orders o v)) as Hsame
    by (intros ->; destruct v; split; [exact Hv|apply forward_refl]).
  assert (forall id st, updated uuid_in id st (sv_order v) o -> may_order _ (UpdateStatus id st) v ->
    consistent (with_orders o v) /\ forward v (with_orders o v)) as Hupd.
  { intros id st Hu Hm'. apply orders_step; [done|done|by eapply update_backed| |by eapply updated_stored].
    destruct Hu as (? & ? & _ & _ & _ & ->). apply con_cache, Hv. }
  assert (forall key cu it am r, created uuid_in tstz key cu it am r (sv_order v) o ->
    consistent (with_orders o v) /\ forward v (with_orders o v)) as Hcre.
  { intros key cu it am r Hc. destruct (created_stored _ _ _ _ _ _ _ Hc) as (Hca & _ & Hst).
    apply orders_step; [done|done|by eapply create_backed| |done]. rewrite Hca. apply con_cache, Hv. }
  assert (forall f, (forall c r, f (cache (sv_order v)) !! c = Some r -> backed (sv_payment v) r) ->
    o = set_cache f (sv_order v) -> consistent (with_orders o v) /\ forward v (with_orders o v)) as Hcache.
  { intros f Hf ->. apply orders_step; [done|done|apply con_rows, Hv|exact Hf|done]. }
  assert (forall id, forall c r, delete id (cache (sv_order v)) !! c = Some r -> backed (sv_payment v) r) as Hdel
    by (intros id c r [_ Hr]%lookup_delete_Some; by eapply con_cache).
  assert (forall r, storable r = true /\ backed (sv_payment v) r -> cached r (sv_order v) o ->
    consistent (with_orders o v) /\ forward v (with_orders o v)) as Hcached.
  { intros r [Hst Hb] (entry & ->%(fun H => H Hst) & Ho).
    apply (Hcache (partial_alter (fun _ => Some r) (Order.ID r))); [|exact Ho].
    intros c r' [[_ <-]|[_ Hr]]%lookup_insert_Some; [done|by eapply con_cache]. }
  assert (forall i s, o = report i s (sv_order v) -> consistent (with_orders o v) /\ forward v (with_orders o v)) as Hrep.
  { intros i s ->. apply orders_step; [done|done|apply con_rows, Hv|apply con_cache, Hv|done]. }
  destruct e; promise Hs; eauto.
  case_bool_decide; eauto.
Qed.

Lemma payment_step X (e : PaymentPorts.E X) x v p :
  PaymentUsecase.ports_spec puuid_in ptstz X e x (sv_payment v) p -> may_pay X e (sv_payment v) -> consistent v ->
  let v' := SysView (sv_order v) p (sv_calls v) (sv_replies v) in consistent v' /\ forward v v'.
Proof.
  intros Hs Hm Hv v'. destruct (dis_step X e x _ _ Hs Hm (con_ledger _ Hv)) as [HL Hg].
  assert (forward v v') as Hf by (split; [done|exact Hg|done]).
  split; [|exact Hf]. split; [exact (con_orders v Hv)|exact HL| | |exact (con_calls v Hv)|].
  - intros c o Ho. apply (backed_forward v v' o Hf). by eapply con_rows.
  - intros c o Ho. apply (backed_forward v v' o Hf). by eapply con_cache.
  - intros id a Ha. apply (truthful_forward v v' id a Hf). by eapply con_replies.
Qed.

Lemma net_step X (e : netE Timestamp X) x v n :
  net_spec X e x (sv_calls v, sv_replies v) n -> may_sys X (OnNet e) v -> consistent v ->
  let v' := SysView (sv_order v) (sv_payment v) n.1 n.2 in consistent v' /\ forward v v'.
Proof.
  intros Hs Hm Hv v'.
  assert (sv_calls v ⊆ n.1 -> (forall id q, n.1 !! id = Some q -> exists req, q = AuthorizeRpc req) ->
    (forall id a, (id, a) ∈ n.2 -> truthful v id a) -> consistent v' /\ forward v v') as Hcase.
  { intros Hc Hq Ha. assert (forward v v') as Hf by (split; [done|apply grown_refl|done]).
    split; [|exact Hf]. destruct Hv. split; [done..|exact Hq|].
    intros id a Hin. apply (truthful_forward v v' id a Hf). by apply Ha. }
  assert (n = (sv_calls v, sv_replies v) -> consistent v' /\ forward v v') as Hsame
    by (intros ->; apply Hcase; [done|apply con_calls, Hv|apply con_replies, Hv]).
  destruct e as [q|id| |id a]; promise Hs; auto.
  - apply Hcase; simpl in *; [by apply insert_subseteq| |apply con_replies, Hv].
    intros id q' [[_ <-]|[_ Hq]]%lookup_insert_Some; [done|by eapply con_calls].
  - apply Hcase; simpl; [done|apply con_calls, Hv|].
    intros id' a' [[= -> ->]|Hin]%elem_of_cons; [exact Hm|by eapply con_replies].
Qed.

#[export] Instance sys_discipline : Discipline sspec consistent forward may_sys.
Proof.
  split; [exact forward_refl|exact forward_trans|].
  intros X e x v v' Hs Hm Hv. destruct e as [e|e|e]; destruct Hs as (u & Hs & ->).
  - by eapply order_step.
  - by eapply payment_step.
  - by eapply net_step.
Qed.

Notation sgives := (gives sspec consistent forward may_sys).

(** *** What the ports give *)

(** A call of the order service's ports: its promise at some moment in between; an
    authorization is told the truth, and no error says that a payment was recorded. *)
Definition port_post : interface portE sysview := fun X e x v v' =>
  consistent v' /\ forward v v' /\
  match e in portE X return X -> Prop with
  | Authorize id amount _ => fun r =>
      (exists txn st, r = (txn, st, None) /\ charged (sv_payment v') id amount st) \/
      (exists e, r = ("", "", Some e) /\ err_ptr_eq e ErrPaymentAlreadyRecorded = false)
  | GetStatus _ => fun _ => True
  | e => fun x => exists v1, forward v v1 /\ consistent v1 /\ sspec _ (OnOrder e) x v1 v'
  end x.

#[local] Instance port_discipline : Discipline port_post consistent forward may_order.
Proof.
  split; [exact forward_refl|exact forward_trans|]. by intros X e x v v' (? & ? & _) _ _.
Qed.

Lemma invoke_gives req v :
  sgives (invoke (AuthorizeRpc req)) (fun r v' => forall resp, r = inl (AuthorizeReply (Some resp, None)) ->
     charged (sv_payment v') (AuthorizePaymentRequest.OrderId req) (AuthorizePaymentRequest.Amount req)
       (AuthorizePaymentResponse.Status resp)) v.
Proof.
  unfold invoke. eapply gives_call; [apply _|by intros; exists req|].
  intros [id|e] v1 v2 _ _ _ _ _ Hs; [|by apply gives_ret].
  assert (sv_calls v2 !! id = Some (AuthorizeRpc req)) as Hid.
  { destruct Hs as (n & Hs & ->). promise Hs; simplify_eq. by apply lookup_insert_eq. }
  apply gives_last; [done|]. intros r v3 v4 Hf1 Hf2 _ Hv4 Ha resp ->.
  destruct Ha as (n & [-> [(a & [= <-] & Hin)|(e & Hbad & _)]] & ->); [|done].
  destruct (con_replies _ Hv4 _ _ Hin resp eq_refl) as (req' & Hreq & Hc).
  assert (sv_calls v3 !! id = Some (AuthorizeRpc req)) as Hid3
    by (eapply lookup_weaken; [exact Hid|apply fwd_calls, Hf1]).
  simpl in Hreq. rewrite Hid3 in Hreq. by injection Hreq as <-.
Qed.

Lemma authorize_port id amount email v :
  sgives (interp stub (PaymentClient.Authorize id amount email))
    (fun r v' => (exists txn st, r = (txn, st, None) /\ charged (sv_payment v') id amount st) \/
      (exists e, r = ("", "", Some e) /\ err_ptr_eq e ErrPaymentAlreadyRecorded = false)) v.
Proof.
  set (req := AuthorizePaymentRequest.mk id amount email).
  change (sgives (stub _ (RpcAuthorizePayment req) ≫= fun resp => interp stub (match resp with
    | inr err => mret ("", "", Some (PaymentClient.authorize_error err))
    | inl resp => mret (AuthorizePaymentResponse.TransactionId resp, AuthorizePaymentResponse.Status resp, None) end))
    (fun r v' => (exists txn st, r = (txn, st, None) /\ charged (sv_payment v') id amount st) \/
      (exists e, r = ("", "", Some e) /\ err_ptr_eq e ErrPaymentAlreadyRecorded = false)) v).
  assert (forall e, err_ptr_eq (PaymentClient.authorize_error e) ErrPaymentAlreadyRecorded = false) as Herr
    by (intros e; unfold PaymentClient.authorize_error; by repeat case_match).
  eapply gives_bind with (P := fun r v' => forall resp, r = inl resp ->
    charged (sv_payment v') id amount (AuthorizePaymentResponse.Status resp)); [apply _| |].
  - eapply gives_bind; [apply _|apply (invoke_gives req)|]. cbn beta.
    intros [[[[resp|] [e|]]|]|e] v1 _ Hr; apply gives_ret; try done.
    intros resp' [= <-]. by apply Hr.
  - intros [resp|e] v1 _ Hr; apply gives_ret; [left|right; by eexists]. do 2 eexists. split; [done|]. by apply Hr.
Qed.

Lemma port_gives X (e : portE X) v :
  consistent v -> may_order X e v ->
  sgives (sys_ports X e) (fun x v' => port_post X e x v v' /\ consistent v') v.
Proof.
  intros Hv Hm. apply (gives_mono sspec consistent forward may_sys) with
    (P := fun x v' => consistent v' /\ forward v v' /\
       match e in portE X return X -> Prop with
       | Authorize id amount _ => fun r =>
           (exists txn st, r = (txn, st, None) /\ charged (sv_payment v') id amount st) \/
           (exists e, r = ("", "", Some e) /\ err_ptr_eq e ErrPaymentAlreadyRecorded = false)
       | GetStatus _ => fun _ => True
       | e => fun x => exists v1, forward v v1 /\ consistent v1 /\ sspec _ (OnOrder e) x v1 v'
       end x); [|by intros x v' _ (? & ? & ?)].
  apply gives_reach; [apply _|done|].
  destruct e; simpl in Hm; try done; try apply authorize_port; cbn [sys_ports];
    (apply gives_last; [intros v1 Hf Hv1; simpl|intros x v1 v2 Hf Hf2 Hv1 Hv2 Hs; by exists v1]); try done.
  - intros Hst. destruct (Hm Hst) as (c & o & Hc & Ho & Hch).
    destruct (fwd_rows _ _ Hf c _ (ex_intro _ o (conj Ho eq_refl))) as (o' & Ho' & Ha).
    exists c, o'. split_and!; [done|done|]. rewrite Ha. eapply charged_grown; [apply fwd_pay, Hf|done].
  - destruct Hm as [? Hb]. split; [done|]. by eapply backed_forward.
Qed.

(** *** The order service's requests *)

Notation pgives := (gives port_post consistent forward may_order).

(** The answered order was charged if it is paid. *)
Definition sold (r : option Order.t * option error) (v : sysview) : Prop :=
  forall o, r.1 = Some o -> backed (sv_payment v) o.

(** The order that a request works on. *)
Definition known (order : Order.t) (v : sysview) : Prop :=
  uuid_in (Order.ID order) = Some (Order.ID order) /\
  stored (Order.ID order) (Order.Amount order) (sv_order v).

Lemma known_forward order v v' : forward v v' -> known order v -> known order v'.
Proof. intros Hf [Hid Hst]. split; [done|]. by apply fwd_rows with (v := v). Qed.

Lemma unpaid_backed pay o : Order.Status o <> StatusPaid -> backed pay o.
Proof. by intros Hs ?. Qed.

Lemma invalidate_gives id (Q : unit -> sysview -> Prop) v :
  (forall v', forward v v' -> Q tt v') -> pgives (CreateOrder.invalidate cache_on id) Q v.
Proof.
  intros HQ. unfold CreateOrder.invalidate. destruct (_ || _); [apply gives_ret, HQ, forward_refl|].
  eapply gives_call; [apply _|done|]. intros r v1 v2 _ _ Hf _ _ _. by apply gives_ret, HQ.
Qed.

Lemma settle_gives order st v :
  known order v -> charged (sv_payment v) (Order.ID order) (Order.Amount order) st ->
  pgives (CreateOrder.settle cache_on order st) sold v.
Proof.
  intros Hk Hc. unfold CreateOrder.settle.
  assert (forall v', forward v v' -> status_of_payment st = StatusPaid ->
    charged (sv_payment v') (Order.ID order) (Order.Amount order) Payment.StatusAuthorized) as Hpaid.
  { intros v' Hf. unfold status_of_payment. repeat case_bool_decide; try done. subst.
    intros _. eapply charged_grown; [apply fwd_pay, Hf|exact Hc]. }
  eapply gives_call; [apply _| |].
  - intros v1 Hf _ Hst. destruct (known_forward _ _ _ Hf Hk) as [Hid (o & Ho & Ha)].
    exists (Order.ID order), o. split_and!; [done|done|]. rewrite Ha. by apply Hpaid.
  - intros [err|] v1 v2 _ _ Hf _ _ _; [by apply gives_ret|].
    eapply gives_bind; [apply _|apply (invalidate_gives _ (fun _ => sold (Some
      (Order.set_Status (status_of_payment st) order), None)))|].
    + intros v3 Hf3 o [= <-] Hst. apply Hpaid; [by eapply forward_trans|exact Hst].
    + intros [] v3 _ Hq. by apply gives_ret.
Qed.

Lemma read_backed id r err v v' :
  port_post _ (GetByID id) (r, err) v v' -> forall o, r = Some o -> backed (sv_payment v') o.
Proof.
  intros (Hv & _ & v1 & _ & Hv1 & u & Hs & ->) o ->. promise Hs; simplify_eq. by eapply con_rows.
Qed.

Lemma created_known key cust item amount order b v v' :
  port_post _ (CreatePendingWithIdempotency key cust item amount) (Some order, b, None) v v' ->
  known order v' /\ backed (sv_payment v') order.
Proof.
  intros (Hv & _ & v1 & _ & Hv1 & u & Hs & ->). promise Hs; simplify_eq.
  - match goal with H : orders _ !! _ = Some _ |- _ => rename H into Ho end.
    destruct (int_row _ _ (con_orders _ Hv1) _ _ Ho) as (Hid & Huu & _). subst.
    split; [|by eapply con_rows]. split; [done|]. by eexists.
  - match goal with H : created _ _ _ _ _ _ _ _ _ |- _ => rename H into Hc end.
    destruct (created_stored _ _ _ _ _ _ _ Hc) as (_ & Hst & _).
    destruct (created_row _ _ _ _ _ _ _ _ _ Hc) as (_ & _ & _ & Hid & _ & Hp).
    split; [|apply unpaid_backed; by rewrite Hp].
    split; [done|]. by destruct Hc as (id & now & -> & _).
Qed.

Lemma reread_gives id order err v :
  backed (sv_payment v) order ->
  pgives ('(fresh, _) ← call (GetByID id);
          mret (Some (default order fresh), Some err)) sold v.
Proof.
  intros Hb. eapply gives_call; [apply _|done|]. intros [fresh e] v1 v2 _ _ Hf _ _ Hs. apply gives_ret.
  intros o [= <-]. destruct fresh as [fresh|]; [by eapply read_backed|by eapply backed_forward].
Qed.

Lemma authorize_order_gives order email v :
  known order v -> Order.Status order <> StatusPaid ->
  pgives (CreateOrder.authorize cache_on order email) sold v.
Proof.
  intros Hk Hst. unfold CreateOrder.authorize.
  eapply gives_call; [apply _|done|]. intros [[txn st] err] v1 v2 Hf1 _ Hf _ _ (_ & _ & Hs).
  destruct Hs as [(txn' & st' & [= -> -> ->] & Hc)|(e & [= -> -> ->] & He)].
  { apply settle_gives; [by eapply known_forward|exact Hc]. }
  destruct (errors_Is _ _); [by apply gives_ret|]. rewrite He.
  destruct (err_ptr_eq e ErrPaymentUnavailable); [by apply (reread_gives _ order _ v2), unpaid_backed|].
  eapply gives_call; [apply _|done|]. intros _ v3 v4 _ _ _ _ _ _.
  eapply gives_bind; [apply _|by apply (invalidate_gives _ (fun _ _ => True))|]. intros [] v5 _ _.
  eapply gives_call; [apply _|done|]. intros [[fresh|] e'] v6 v7 _ _ _ _ _ Hr; apply gives_ret; intros o [= <-].
  - by eapply read_backed.
  - by apply unpaid_backed.
Qed.

Lemma load_gives c id v : pgives (GetOrder.load c ttl id) sold v.
Proof.
  unfold GetOrder.load. eapply gives_call; [apply _|done|].
  intros [[o|] [e|]] v1 v2 _ _ _ _ Hv2 Hr; try by apply gives_ret.
  assert (backed (sv_payment v2) o) as Hb by (by eapply read_backed).
  assert (storable o = true) as Hst.
  { destruct Hr as (_ & _ & u1 & _ & Hu1 & u & Hs & ->). promise Hs; simplify_eq.
    match goal with H : Some _ = orders _ !! _ |- _ => by apply (int_row _ _ (con_orders _ Hu1) _ _ (eq_sym H)) end. }
  destruct (_ && _); [|apply gives_ret; by intros ? [= <-]].
  eapply gives_call; [apply _| |].
  - intros v3 Hf _. split; [done|]. by eapply backed_forward.
  - intros r v3 v4 _ _ Hf _ _ _. apply gives_ret. intros ? [= <-]. by eapply backed_forward.
Qed.

Lemma serve_gives r v : pgives (serve cache_on ttl r) sold v.
Proof.
  destruct r as [inp|id|id]; simpl.
  - unfold CreateOrder.Execute. destruct (_ <=? 0); [by apply gives_ret|].
    destruct (_ || _); [by apply gives_ret|]. eapply gives_call; [apply _|done|].
    intros [[order b] [e|]] v1 v2 _ _ _ _ _ Hs; [by apply gives_ret|].
    destruct order as [order|].
    2: { destruct Hs as (_ & _ & u1 & _ & _ & u & Hs & _). promise Hs; simplify_eq. }
    destruct (created_known _ _ _ _ _ _ _ _ Hs) as [Hk Hb].
    destruct (is_terminal _) eqn:Ht; [apply gives_ret; by intros ? [= <-]|].
    apply authorize_order_gives; [done|]. intros E. by rewrite E in Ht.
  - unfold GetOrder.Execute. case_bool_decide; [by apply gives_ret|]. destruct cache_on; [|apply load_gives].
    eapply gives_call; [apply _|done|].
    intros [[o|] [e|]] v1 v2 _ _ _ _ _ Hr; try apply load_gives.
    apply gives_ret. intros ? [= <-].
    destruct Hr as (_ & _ & u1 & _ & Hu1 & u & Hs & ->). promise Hs; simplify_eq. by eapply (con_cache u1 Hu1).
  - unfold CancelOrder.Execute. eapply gives_call; [apply _|done|].
    intros [[o|] [e|]] v1 v2 _ _ _ _ _ _; try by apply gives_ret.
    destruct (negb _); [by apply gives_ret|]. eapply gives_call; [apply _|by intros v3 _ _ Hbad|].
    intros [e|] v3 v4 _ _ _ _ _ _; [by apply gives_ret|].
    assert (forall v5, sold (Some (Order.set_Status StatusCancelled o), None) v5) as Hq
      by (intros v5 ? [= <-]; by apply unpaid_backed).
    destruct cache_on; [|by apply gives_ret]. eapply gives_call; [apply _|done|]. intros _ v5 v6 _ _ _ _ _ _.
    by apply gives_ret.
Qed.

(** *** The payment service's goroutines *)

Lemma serve_payment_gives r v :
  gives (PaymentUsecase.ports_spec puuid_in ptstz) ledger grown may_pay (serve_payment pub r) (fun _ _ => True) v.
Proof.
  destruct r as [in_|id]; simpl.
  - eapply gives_bind; [apply _|apply authorize_gives|]. intros. by apply gives_ret.
  - eapply gives_bind; [apply _|apply lookup_gives; [apply _|done]|]. intros. by apply gives_ret.
Qed.

Lemma payment_lift {A} (p : prog PaymentPorts.E A) (Q : A -> pview -> Prop) v :
  gives (PaymentUsecase.ports_spec puuid_in ptstz) ledger grown may_pay p Q (sv_payment v) ->
  sgives (lift (fun X => OnPayment) p) (fun a v' => Q a (sv_payment v')) v.
Proof.
  apply gives_lift with (get := sv_payment); [apply con_ledger|apply fwd_pay|done|].
  by intros X e x v1 v2 (u & Hs & ->).
Qed.

Lemma serve_rpc_gives v : sgives (serve_rpc timestamppb_New pub) (fun _ _ => True) v.
Proof.
  unfold serve_rpc. eapply gives_call; [apply _|done|].
  intros [[id q]|] v1 v2 _ _ _ Hv1 Hv2 Hs; [|by apply gives_ret].
  assert (sv_calls v2 !! id = Some q) as Hq.
  { destruct Hs as (n & Hs & ->). promise Hs; try done. by simplify_eq. }
  destruct (con_calls _ Hv2 _ _ Hq) as [req ->].
  eapply gives_bind with (P := fun a v' => truthful v' id a); [apply _| |].
  - eapply gives_mono; [apply _| |].
    + apply payment_lift with (Q := fun a pay => forall resp, a = AuthorizeReply (Some resp, None) ->
        charged pay (AuthorizePaymentRequest.OrderId req) (AuthorizePaymentRequest.Amount req)
          (AuthorizePaymentResponse.Status resp)).
      simpl. eapply gives_bind; [apply _|apply intercepted_gives, authorize_rpc_gives|].
      intros r w _ Hr. apply gives_ret. intros resp [= ->]. by apply Hr.
    + intros a v3 Hf Ha resp Hr. exists req. split; [|by apply Ha].
      eapply lookup_weaken; [exact Hq|apply fwd_calls, Hf].
  - intros a v3 _ Ha. apply gives_last; [|done]. intros v4 Hf _. by apply (truthful_forward v3 v4).
Qed.

Definition result_ok (r : result) (v : sysview) : Prop :=
  match r with Answered r => sold r v | Ended => True end.

Lemma result_forward r v v' : forward v v' -> result_ok r v -> result_ok r v'.
Proof.
  destruct r as [r|]; [|done]. intros Hf Hr o Ho. apply (backed_forward v v' o Hf). by apply Hr.
Qed.

Lemma thread_gives g v : consistent v ->
  sgives (thread timestamppb_New pub cache_on ttl g) result_ok v.
Proof.
  intros Hv. destruct g as [r| |r]; cbn [thread].
  - eapply gives_bind with (P := sold); [apply _| |intros x v1 _ Hr; by apply gives_ret].
    apply (gives_interp sys_ports sspec port_post consistent forward may_sys may_order); [|done|apply serve_gives].
    intros X e u. apply port_gives.
  - eapply gives_bind; [apply _|apply serve_rpc_gives|]. intros. by apply gives_ret.
  - eapply gives_bind with (P := fun _ _ => True); [apply _| |intros; by apply gives_ret].
    apply (payment_lift _ (fun _ _ => True)), serve_payment_gives.
Qed.
End Safety.

(** Every run keeps the system consistent. *)
Lemma system_runs {Timestamp W : Type} (h : handler (sysE Timestamp) W)
    (obs : W -> sysview Timestamp) uuid_in tstz puuid_in ptstz
    `{!Refines h obs (sys_spec uuid_in tstz puuid_in ptstz)}
    timestamppb_New pub cache_on ttl (gs : list goroutine) w sched :
  consistent uuid_in pub (obs w) ->
  let s := run_schedule h sched (Pool (thread timestamppb_New pub cache_on ttl <$> gs) w false) in
  crashed s = false /\ consistent uuid_in pub (obs (world s)) /\
  (forall i r, threads s !! i = Some (Ret r) -> result_ok pub r (obs (world s))).
Proof.
  intros Hv s.
  destruct (pool_gives (sys_spec uuid_in tstz puuid_in ptstz) (consistent uuid_in pub) forward
    (may_sys uuid_in pub) (Discipline0 := sys_discipline uuid_in tstz puuid_in ptstz pub) h obs
    (fun _ => result_ok pub) sched (thread timestamppb_New pub cache_on ttl <$> gs) w) as (Hc & Hv' & _ & Hr).
  - intros _ r u u' Hf. by apply result_forward.
  - done.
  - intros i p Hp. apply list_lookup_fmap_Some in Hp as (g & -> & _). by apply thread_gives.
  - split_and!; [done|done|]. intros i r Hi. exact (Hr i (Ret r) Hi).
Qed.

(** C1. The two services and the network together, for any requests to either, any
    number of RPC handlers, and in every interleaving of their calls, whatever
    fails, whatever requests and replies are lost, late or doubled: neither process
    panics, and every order that is Paid in the table, or that any request is
    answered with as Paid, has in the payment service's table an authorized payment
    of exactly its amount, at most 100000 cents.  When the payment service has a
    publisher ([pub]), moreover, the broker has taken the message that announces the
    payment; or it has refused or lost this message, and the publisher took for its own
    the broker's acknowledgement of another payment's message. *)
Theorem paid_orders_were_charged {Timestamp W : Type} (h : handler (sysE Timestamp) W)
    (obs : W -> sysview Timestamp) uuid_in tstz puuid_in ptstz
    `{!Refines h obs (sys_spec uuid_in tstz puuid_in ptstz)}
    timestamppb_New pub cache_on ttl (gs : list goroutine) w sched :
  consistent uuid_in pub (obs w) ->
  let s := run_schedule h sched (Pool (thread timestamppb_New pub cache_on ttl <$> gs) w false) in
  let v := obs (world s) in
  let sold_out o := Order.Status o = StatusPaid ->
    charged pub (sv_payment v) (Order.ID o) (Order.Amount o) Payment.StatusAuthorized /\
    0 < Order.Amount o <= 100000 in
  crashed s = false /\
  (forall c o, orders (sv_order v) !! c = Some o -> sold_out o) /\
  (forall i o err, threads s !! i = Some (Ret (Answered (Some o, err))) -> sold_out o).
Proof.
  intros Hv s v sold_out.
  destruct (system_runs h obs uuid_in tstz puuid_in ptstz timestamppb_New pub cache_on ttl gs w sched Hv)
    as (Hc & Hv' & Hr). fold s in Hc, Hv', Hr. fold v in Hv', Hr.
  assert (forall o, backed pub (sv_payment v) o -> sold_out o) as Hsold.
  { intros o Hb Hst. split; [by apply Hb|]. eapply charged_ceiling; [apply (con_ledger _ _ _ Hv')|by apply Hb]. }
  split_and!; [done| |].
  - intros c o Ho. by eapply Hsold, con_rows.
  - intros i o err Hi. apply Hsold. exact (Hr i _ Hi o eq_refl).
Qed.

(** ** An executable system *)

Record sysmem := SysMem {
  sm_order : mem;
  sm_payment : pmem;
  sm_calls : gmap Z rpc;
  sm_replies : list (Z * rpc_reply Z);
  sm_sent : Z;                  (* number of requests sent *)
  sm_taken : Z;                 (* number of requests accepted *)
  sm_lost : list bool           (* [true]: the next use of the network fails *)
}.

Definition errDeadline : error := status_Error DeadlineExceeded "context deadline exceeded".

Definition sysmem_view (w : sysmem) : sysview Z :=
  SysView (m_view (sm_order w)) (pm_view (sm_payment w)) (sm_calls w) (sm_replies w).

Definition reply_to (id : Z) (w : sysmem) : option (rpc_reply Z) :=
  snd <$> (snd <$> list_find (fun a => a.1 = id) (sm_replies w)).

Definition sysmem_calls : handler (sysE Z) sysmem := fun X e w =>
  let lost := default false (head (sm_lost w)) in
  match e with
  | OnOrder e =>
      let '(r, o) := mem_ports X e (sm_order w) in
      (r, SysMem o (sm_payment w) (sm_calls w) (sm_replies w) (sm_sent w) (sm_taken w) (sm_lost w))
  | OnPayment e =>
      let '(r, p) := pmem_ports X e (sm_payment w) in
      (r, SysMem (sm_order w) p (sm_calls w) (sm_replies w) (sm_sent w) (sm_taken w) (sm_lost w))
  | OnNet e =>
      let next calls replies sent taken :=
        SysMem (sm_order w) (sm_payment w) calls replies sent taken (tail (sm_lost w)) in
      match e in netE _ X return outcome X * sysmem with
      | SendRequest q =>
          if lost || bool_decide (is_Some (sm_calls w !! sm_sent w)) then
            (Done (inr errDeadline), next (sm_calls w) (sm_replies w) (sm_sent w) (sm_taken w))
          else (Done (inl (sm_sent w)),
                next (<[sm_sent w := q]> (sm_calls w)) (sm_replies w) (sm_sent w + 1) (sm_taken w))
      | AwaitReply id =>
          (Done (match reply_to id w with Some a => if lost then inr errDeadline else inl a | None => inr errDeadline end),
           next (sm_calls w) (sm_replies w) (sm_sent w) (sm_taken w))
      | AcceptRequest =>
          match sm_calls w !! sm_taken w with
          | Some q => (Done (Some (sm_taken w, q)), next (sm_calls w) (sm_replies w) (sm_sent w) (sm_taken w + 1))
          | None => (Done None, next (sm_calls w) (sm_replies w) (sm_sent w) (sm_taken w))
          end
      | SendReply id a =>
          (Done tt, next (sm_calls w) (if lost then sm_replies w else (id, a) :: sm_replies w) (sm_sent w) (sm_taken w))
      end
  end.

#[export] Instance sysmem_refines :
  Refines sysmem_calls sysmem_view (sys_spec mem_uuid_in mem_tstz pmem_uuid_in id).
Proof.
  intros X e w. destruct e as [e|e|e].
  - destruct (refines (obs := m_view) (spec := OrderPorts.ports_spec mem_uuid_in mem_tstz) X e (sm_order w))
      as (x & o & Hx & Hs). cbn [sysmem_calls]. rewrite Hx. do 2 eexists. split; [done|]. by exists (m_view o).
  - destruct (refines (obs := pm_view) (spec := PaymentUsecase.ports_spec pmem_uuid_in id) X e (sm_payment w))
      as (x & p & Hx & Hs). cbn [sysmem_calls]. rewrite Hx. do 2 eexists. split; [done|]. by exists (pm_view p).
  - assert (foreign errDeadline = true) as Hd by done.
    destruct e as [q|id| |id a]; cbn [sysmem_calls].
    + destruct (default false _); [do 2 eexists; split; [done|]; eexists (_, _); split; [|done]; right; by eexists|]. cbn [orb].
      case_bool_decide as Hn; do 2 eexists; (split; [done|]); eexists (_, _); (split; [|done]); [right; by eexists|].
      left. exists (sm_sent w). split_and!; [done|by apply eq_None_not_Some|done].
    + do 2 eexists. split; [done|]. eexists (_, _). split; [|done]. split; [done|].
      destruct (reply_to id w) as [a|] eqn:Ha; [|right; by eexists].
      destruct (default false _); [right; by eexists|]. left. exists a. split; [done|].
      unfold reply_to in Ha. destruct (list_find _ _) as [[i [id' a']]|] eqn:Hf; [|done]. simpl in Ha. simplify_eq.
      apply list_find_Some in Hf as (Hi & Hid & _). simpl in Hid. subst. by eapply list_elem_of_lookup_2.
    + destruct (sm_calls w !! sm_taken w) as [q|] eqn:Hq; do 2 eexists; (split; [done|]); eexists (_, _); (split; [|done]).
      * split; [done|]. right. by exists (sm_taken w), q.
      * split; [done|]. by left.
    + destruct (default false _); do 2 eexists; (split; [done|]); eexists (_, _); (split; [|done]); [by left|by right].
Qed.

Definition sysmem_start (lost : list bool) : sysmem :=
  SysMem (mem_start [] [] ["0a1b"]) (pmem_start []) ∅ [] 0 0 lost.

Definition keyboard : request :=
  ReqCreate (CreateOrderInput.mk "customer-1" "ann@example.com" "keyboard" 500 None).

Lemma sysmem_consistent lost : consistent mem_uuid_in true (sysmem_view (sysmem_start lost)).
Proof.
  split; simpl; [by split|apply (empty_ledger [])|done|done|done|].
  intros id a Ha. by apply elem_of_nil in Ha.
Qed.

Definition shop (sched : list nat) (lost : list bool) :=
  run_schedule sysmem_calls sched
    (Pool (thread (fun t => t) true true 60 <$> [OrderThread keyboard; RpcThread]) (sysmem_start lost) false).

(** The handler works while the order's request waits. *)
Definition prompt_schedule : list nat := ([0; 0] ++ repeat 1 9 ++ repeat 0 4)%list%nat.

Lemma paid_orders_were_charged_witness :
  let s := shop prompt_schedule [] in
  let v := sysmem_view (world s) in
  let sold_out o := Order.Status o = StatusPaid ->
    charged true (sv_payment v) (Order.ID o) (Order.Amount o) Payment.StatusAuthorized /\
    0 < Order.Amount o <= 100000 in
  crashed s = false /\
  (forall c o, orders (sv_order v) !! c = Some o -> sold_out o) /\
  (forall i o err, threads s !! i = Some (Ret (Answered (Some o, err))) -> sold_out o).
Proof.
  apply (paid_orders_were_charged sysmem_calls sysmem_view mem_uuid_in mem_tstz pmem_uuid_in id).
  apply sysmem_consistent.
Defined.

(** The purchase itself: the order is answered and stored as Paid. *)
Example keyboard_sold :
  let s := shop prompt_schedule [] in
  Order.Status <$> (orders (sv_order (sysmem_view (world s))) !! "0a1b") = Some StatusPaid /\
  length (events (sv_payment (sysmem_view (world s)))) = 1%nat.
Proof. vm_compute. done. Qed.

(** The converse does not hold: the client's deadline passes before the handler
    has run.  The order is stored and answered as Failed, the payment is then
    authorized and announced, and a retry with the same idempotency key finds the
    order settled and asks nobody. *)
Theorem charged_for_failed_order :
  let retry := ReqCreate (CreateOrderInput.mk "customer-1" "ann@example.com" "keyboard" 500 (Some "key-1")) in
  let s := run_schedule sysmem_calls (repeat 0 8 ++ repeat 1 9 ++ repeat 2 8)%list%nat
    (Pool (thread (fun t => t) true true 60 <$> [OrderThread retry; RpcThread; OrderThread retry])
       (sysmem_start []) false) in
  let v := sysmem_view (world s) in
  Order.Status <$> (orders (sv_order v) !! "0a1b") = Some StatusFailed /\
  Payment.Status <$> (payments (sv_payment v) !! "0a1b") = Some Payment.StatusAuthorized /\
  length (events (sv_payment v)) = 1%nat /\
  (exists o, threads s !! 2%nat = Some (Ret (Answered (Some o, None))) /\ Order.Status o = StatusFailed) /\
  size (sv_calls v) = 1%nat.
Proof.
  vm_compute. split_and!; try reflexivity. eexists. split; reflexivity.
Qed.
