(* ===== verification/Messaging.v ===== *)
(** * From the payment service to the notification service

    What the publisher writes the worker reads back; and the exchanges, queues and
    bindings that [DialPublisher] (payment service) and [main] of the notification
    service declare: in whatever order they start, they agree, and what is published
    gets to the worker's queue and what it refuses to the dead-letter queue. *)

From S2P Require Import Prelude GoLib Json Publisher PaymentUsecase PaymentProps PaymentTransport.
From S2P Require Import Notify NotifyProps Worker.

(** ** The message *)

(** The columns of a payment and a trimmed address are UTF-8 texts. *)
Definition printable (e : PaymentCompletedEvent.t) : Prop :=
  utf8_string (PaymentCompletedEvent.EventID e) /\ utf8_string (PaymentCompletedEvent.PaymentID e) /\
  utf8_string (PaymentCompletedEvent.OrderID e) /\ utf8_string (PaymentCompletedEvent.CustomerEmail e) /\
  utf8_string (PaymentCompletedEvent.Status e) /\ in_int64 (PaymentCompletedEvent.AmountCents e).

Definition payload_of (e : PaymentCompletedEvent.t) : Payload.t :=
  Payload.mk (PaymentCompletedEvent.EventID e)
    (if bool_decide (PaymentCompletedEvent.PaymentID e = "") then PaymentCompletedEvent.EventID e
     else PaymentCompletedEvent.PaymentID e)
    (PaymentCompletedEvent.OrderID e) (PaymentCompletedEvent.AmountCents e)
    (PaymentCompletedEvent.CustomerEmail e) (PaymentCompletedEvent.Status e).

Lemma decoded_event e : printable e -> Payload.Unmarshal (marshal (payload_members e)) = Some (payload_of e).
Proof.
  intros (H1 & H2 & H3 & H4 & H5 & H6). unfold Payload.Unmarshal, payload_of. rewrite unmarshal_marshal; [|done|].
  - cbn [map payload_members]. case_bool_decide; decode_members_by assumption; done.
  - unfold payload_members. members_ok.
Qed.

(** C27. The worker decodes what the publisher encodes: every field of the event, the
    payment id replaced by the event id when it is empty, as the publisher does. *)
Theorem event_read_back e :
  printable e ->
  Payload.Unmarshal (marshal (payload_members e)) =
  Some (Payload.mk (PaymentCompletedEvent.EventID e)
          (if bool_decide (PaymentCompletedEvent.PaymentID e = "") then PaymentCompletedEvent.EventID e
           else PaymentCompletedEvent.PaymentID e)
          (PaymentCompletedEvent.OrderID e) (PaymentCompletedEvent.AmountCents e)
          (PaymentCompletedEvent.CustomerEmail e) (PaymentCompletedEvent.Status e)).
Proof. exact (decoded_event e). Qed.

Lemma event_read_back_witness :
  Payload.Unmarshal (marshal (payload_members (sample_event "1"))) =
  Some (Payload.mk "1" "1" "order-1" 500 "ann@example.com" "Authorized").
Proof. apply (event_read_back (sample_event "1")). by vm_compute. Defined.

(** ** From the message to the mail *)

(** What the payment service announces: texts, an id and an address. *)
Definition receivable (e : PaymentCompletedEvent.t) : Prop :=
  printable e /\ TrimSpace (PaymentCompletedEvent.EventID e) <> "" /\
  TrimSpace (PaymentCompletedEvent.CustomerEmail e) <> "".

Definition same_receipt (e e' : PaymentCompletedEvent.t) : Prop :=
  Payload.payment_id (payload_of e) = Payload.payment_id (payload_of e') \/
  PaymentCompletedEvent.EventID e = PaymentCompletedEvent.EventID e'.

(** The receipt for an event: to the customer, with the payment's data. *)
Definition receipt (e : PaymentCompletedEvent.t) : SendInput.t := Payload.email (payload_of e).

(** Only the demonstration's order is refused. *)
Lemma refused_event demo e :
  receivable e -> refused demo (marshal (payload_members e)) ->
  demo <> "" /\ TrimSpace (PaymentCompletedEvent.OrderID e) = demo.
Proof.
  intros (Hp & Hid & Hto). unfold refused. rewrite (decoded_event e Hp). by intros [?|[?|?]].
Qed.

Lemma receivable_not_refused e : receivable e -> ~ refused "" (marshal (payload_members e)).
Proof. by intros He [? _]%(refused_event "" e He). Qed.

(** The events of the payment service through the queue, with any number of
    workers, failures and lost connections: none is dead-lettered or lost, and one
    that has left the queue has had exactly its receipt sent, to its customer, with
    its payment, order, amount and status; provided no two events ever announced
    share an id. *)
Theorem receipts_delivered {W : Type} (h : handler workerE W) (obs : W -> wview)
    `{!Refines h obs worker_spec} (history es : list PaymentCompletedEvent.t)
    MaxAttempts base decode_error (ns : list nat) sched w :
  0 < MaxAttempts -> es ⊆ history -> (forall e, e ∈ history -> receivable e) ->
  (forall e e', e ∈ history -> e' ∈ history -> same_receipt e e' -> e = e') ->
  sound (fun pl => exists e, e ∈ history /\ pl = payload_of e) (w_notify (obs w)) ->
  w_queue (obs w) = Queue ((fun e => marshal (payload_members e)) <$> es) [] [] [] ->
  let s := run_schedule h sched
    (Pool (Consumer.consume "" MaxAttempts base decode_error <$> ns) w false) in
  let q := w_queue (obs (world s)) in
  crashed s = false /\ dead q = [] /\
  (waiting q ++ (body <$> unacked q) ++ dropped q ≡ₚ (fun e => marshal (payload_members e)) <$> es)%list /\
  (forall e, e ∈ es -> marshal (payload_members e) ∈ dropped q -> receipt e ∈ mails (w_notify (obs (world s)))).
Proof.
  intros HM Hsub Hrec Huniq Hsound Hq s q.
  assert (messages (w_queue (obs w)) = ((fun e => marshal (payload_members e)) <$> es)) as Hmsg
    by (rewrite Hq; unfold messages; simpl; by rewrite app_nil_r).
  destruct (workers_settled (fun pl => exists e, e ∈ history /\ pl = payload_of e) h obs "" MaxAttempts base
    decode_error ns sched w) as (Hc & Hall & [_ _ Hdr Hde]); [done|done| |by rewrite Hq|by rewrite Hq|].
  { rewrite Hmsg. intros b pl (e & -> & He)%list_elem_of_fmap Hu. exists e. split; [by apply Hsub|].
    destruct (Hrec e (Hsub e He)) as (Hp & _). rewrite (decoded_event e Hp) in Hu. by injection Hu. }
  fold s in Hc, Hall, Hdr, Hde. fold q in Hall. cbn in Hdr, Hde. fold q in Hdr, Hde. rewrite Hmsg in Hall.
  assert (dead q = []) as Hnil.
  { destruct (dead q) as [|b l] eqn:Hb; [done|]. exfalso.
    assert (b ∈ (fun e => marshal (payload_members e)) <$> es) as (e & -> & He)%list_elem_of_fmap.
    { rewrite <-Hall. unfold messages. rewrite Hb. set_solver. }
    apply (receivable_not_refused e); [by apply Hrec, Hsub|]. apply Hde. by left. }
  split_and!; [done|done|by rewrite <-Hall; unfold messages; rewrite Hnil|].
  intros e He (pl & Hu & (pl' & (e' & He' & ->) & Hm & Hsame))%Hdr.
  destruct (Hrec e (Hsub e He)) as (Hp & _). rewrite (decoded_event e Hp) in Hu. injection Hu as <-.
  by rewrite <-(Huniq e' e He' (Hsub e He) Hsame).
Qed.

Lemma receipts_delivered_witness :
  let w := QMem (nmem_start []) (Queue ((fun e => marshal (payload_members e)) <$> [sample_event "1"]) [] [] []) 1 in
  let s := run_schedule qmem_calls [0; 1; 0; 0; 1; 0; 0; 0; 1]%nat
    (Pool (Consumer.consume "" 4 2000000000 sample_decode <$> [2; 2]%nat) w false) in
  let q := w_queue (qmem_view (world s)) in
  crashed s = false /\ dead q = [] /\
  (waiting q ++ (body <$> unacked q) ++ dropped q ≡ₚ (fun e => marshal (payload_members e)) <$> [sample_event "1"])%list /\
  (forall e, e ∈ [sample_event "1"] -> marshal (payload_members e) ∈ dropped q ->
     receipt e ∈ mails (w_notify (qmem_view (world s)))).
Proof.
  apply (receipts_delivered qmem_calls qmem_view [sample_event "1"] [sample_event "1"] 4 2000000000 sample_decode
    [2; 2]%nat [0; 1; 0; 0; 1; 0; 0; 0; 1]%nat); [done|done| | | |done].
  - intros e ->%list_elem_of_singleton. by vm_compute.
  - by intros e e' ->%list_elem_of_singleton ->%list_elem_of_singleton.
  - split; [by intros id ?%elem_of_empty| |by intros m ?%elem_of_nil]. intros pid H.
    by destruct (lookup_empty_Some (SentStore.key pid) sentValue H).
Defined.

(** ** Setting up the broker *)

Inductive brokerE : Type -> Type :=
| Dial (url : string) : brokerE (option error)
| OpenChannel : brokerE (option error)
| ConfirmMode (noWait : bool) : brokerE (option error)
| Qos (prefetchCount prefetchSize : Z) (global : bool) : brokerE (option error)
| ExchangeDeclare (name kind : string) (durable autoDelete internal noWait : bool) (args : Table) :
    brokerE (option error)
| QueueDeclare (name : string) (durable autoDelete exclusive noWait : bool) (args : Table) :
    brokerE (option error)
| QueueBind (queue key exchange : string) (noWait : bool) (args : Table) : brokerE (option error)
| Consume (queue tag : string) (autoAck exclusive noLocal noWait : bool) (args : Table) :
    brokerE (option error)
| CloseChannel : brokerE (option error)
| CloseConnection : brokerE (option error).

(** The publisher's calls among them. *)
Definition dial_calls : forall X : Type, dialE X -> brokerE X := fun X e =>
  match e in dialE X return brokerE X with
  | AmqpDial url => Dial url
  | AmqpChannel => OpenChannel
  | AmqpConfirm noWait => ConfirmMode noWait
  | AmqpExchangeDeclare name kind durable autoDelete internal noWait args =>
      ExchangeDeclare name kind durable autoDelete internal noWait args
  | AmqpCloseChannel => CloseChannel
  | AmqpCloseConnection => CloseConnection
  end.

Module Subscriber.
Definition exchangeName : string := "notifications.events".
Definition exchangeKind : string := "topic".
Definition routingKey : string := "payment.completed".
Definition queueName : string := "payment.completed".
Definition dlxExchangeName : string := "notifications.dlx".
Definition dlqQueueName : string := "payment.completed.dlq".
Definition dlxRoutingKey : string := "payment.dead".
Definition consumerTag : string := "notification-service".

(** [log.Fatalf]: the process exits with the message. *)
Definition or_fatal (what : string) (c : brokerE (option error)) (k : prog brokerE (option error)) :
    prog brokerE (option error) :=
  err ← call c;
  match err with
  | Some err => mret (Some (ErrorNew (what ++ ": " ++ Error err)))
  | None => k
  end.

Definition qArgs : Table :=
  {["x-dead-letter-exchange" := dlxExchangeName; "x-dead-letter-routing-key" := dlxRoutingKey]}.

(** [main] from the connection to the consumer. *)
Definition setup (amqpURL : string) : prog brokerE (option error) :=
  or_fatal "rabbitmq dial" (Dial amqpURL) (
  or_fatal "rabbitmq channel" OpenChannel (
  or_fatal "rabbitmq qos" (Qos 1 0 false) (
  or_fatal "dlx exchange" (ExchangeDeclare dlxExchangeName "direct" true false false false ∅) (
  or_fatal "dlq queue" (QueueDeclare dlqQueueName true false false false ∅) (
  or_fatal "dlq bind" (QueueBind dlqQueueName dlxRoutingKey dlxExchangeName false ∅) (
  or_fatal "events exchange" (ExchangeDeclare exchangeName exchangeKind true false false false ∅) (
  or_fatal "main queue" (QueueDeclare queueName true false false false qArgs) (
  or_fatal "queue bind" (QueueBind queueName routingKey exchangeName false ∅) (
  or_fatal "consume" (Consume queueName consumerTag false false false false ∅) (mret None)))))))))).
End Subscriber.

(** ** The broker

    Exchanges and queues with everything they were declared with, bindings (exchange,
    key, queue), consumers (queue, exclusive), and the declarations the broker had to
    refuse: one that contradicts an earlier one in any of its properties, or that names
    what is not there or what another connection has for itself. *)
Record exchange_props := ExchangeProps {
  ex_kind : string;
  ex_durable : bool;
  ex_autoDelete : bool;
  ex_internal : bool;
  ex_args : Table
}.
Record queue_props := QueueProps {
  qu_durable : bool;
  qu_autoDelete : bool;
  qu_exclusive : bool;
  qu_args : Table
}.
#[export] Instance exchange_props_eq_dec : EqDecision exchange_props.
Proof. solve_decision. Defined.
#[export] Instance queue_props_eq_dec : EqDecision queue_props.
Proof. solve_decision. Defined.

Record topology := Topology {
  exchanges : gmap string exchange_props;
  queues : gmap string queue_props;
  bindings : gset (string * string * string);
  consumers : list (string * bool);
  refusals : list string
}.

Definition refuse (name : string) (t : topology) : topology :=
  Topology (exchanges t) (queues t) (bindings t) (consumers t) (name :: refusals t).

(** What survives the restart of the broker and the end of every connection. *)
Definition lasting_exchange (x : exchange_props) : bool := ex_durable x && negb (ex_autoDelete x).
Definition lasting_queue (q : queue_props) : bool := qu_durable q && negb (qu_autoDelete q) && negb (qu_exclusive q).
Definition lasting_binding (t : topology) (b : string * string * string) : Prop :=
  (exists x, exchanges t !! b.1.1 = Some x /\ lasting_exchange x = true) /\
  (exists q, queues t !! b.2 = Some q /\ lasting_queue q = true).

(** [t'] has what lasts of [t]. *)
Record outlasts (t t' : topology) : Prop := {
  out_exchange : forall n x, exchanges t !! n = Some x -> lasting_exchange x = true -> exchanges t' !! n = Some x;
  out_queue : forall n q, queues t !! n = Some q -> lasting_queue q = true -> queues t' !! n = Some q;
  out_binding : forall b, b ∈ bindings t -> lasting_binding t b -> b ∈ bindings t'
}.

(** What does not last may go at any moment. *)
Record lapsed (t t' : topology) : Prop := {
  lap_kept : outlasts t t';
  lap_exchanges : exchanges t' ⊆ exchanges t;
  lap_queues : queues t' ⊆ queues t;
  lap_bindings : bindings t' ⊆ bindings t;
  lap_consumers : consumers t' ⊆ consumers t;
  lap_refusals : refusals t' = refusals t
}.

(** A declaration that fits takes effect, unless the connection fails first; one
    that does not is refused.  Who does not wait for the answer hears of neither. *)
Definition declared {A} (fits : Prop) (name : string) (noWait : bool) (t' : topology) (r : option A) (t t2 : topology) : Prop :=
  (fits /\ (t2 = t' \/ (t2 = t /\ (is_Some r \/ noWait = true)))) \/
  (~ fits /\ (is_Some r \/ noWait = true) /\ t2 = refuse name t).

Definition broker_call_spec : interface brokerE topology := fun X e =>
  match e in brokerE X return X -> topology -> topology -> Prop with
  | ExchangeDeclare name kind durable autoDelete internal noWait args => fun r t t' =>
      let x := ExchangeProps kind durable autoDelete internal args in
      declared (forall y, exchanges t !! name = Some y -> y = x) name noWait
        (Topology (<[name := x]> (exchanges t)) (queues t) (bindings t) (consumers t) (refusals t)) r t t'
  | QueueDeclare name durable autoDelete exclusive noWait args => fun r t t' =>
      let q := QueueProps durable autoDelete exclusive args in
      declared (forall p, queues t !! name = Some p -> p = q /\ exclusive = false) name noWait
        (Topology (exchanges t) (<[name := q]> (queues t)) (bindings t) (consumers t) (refusals t)) r t t'
  | QueueBind q key ex noWait _ => fun r t t' =>
      declared (is_Some (queues t !! q) /\ is_Some (exchanges t !! ex)) q noWait
        (Topology (exchanges t) (queues t) ({[(ex, key, q)]} ∪ bindings t) (consumers t) (refusals t)) r t t'
  | Consume q _ _ exclusive _ noWait _ => fun r t t' =>
      declared (is_Some (queues t !! q) /\ forall x, (q, x) ∈ consumers t -> x = false /\ exclusive = false) q noWait
        (Topology (exchanges t) (queues t) (bindings t) ((q, exclusive) :: consumers t) (refusals t)) r t t'
  | _ => fun _ t t' => t' = t
  end.

Definition broker_spec : interface brokerE topology := fun X e r t t' =>
  exists t1, lapsed t t1 /\ broker_call_spec X e r t1 t'.

(** A message with this key comes to that queue. *)
Definition routed (matches : string -> string -> string -> bool) (t : topology) (ex key q : string) : Prop :=
  exists x bkey, exchanges t !! ex = Some x /\ (ex, bkey, q) ∈ bindings t /\
    matches (ex_kind x) bkey key = true.

(** Where the dead letters of a queue go, of a message with this key: the exchange and
    the key that its arguments name. *)
Definition dead_letter (q : queue_props) (key : string) : option (string * string) :=
  ex ← qu_args q !! "x-dead-letter-exchange";
  Some (ex, default key (qu_args q !! "x-dead-letter-routing-key")).

(** ** Everybody declares the same *)

Definition plain_exchange (kind : string) : exchange_props := ExchangeProps kind true false false ∅.
Definition plain_queue (args : Table) : queue_props := QueueProps true false false args.

Definition planned_exchanges : list (string * exchange_props) :=
  [("notifications.events", plain_exchange "topic"); ("notifications.dlx", plain_exchange "direct")].
Definition planned_queues : list (string * queue_props) :=
  [("payment.completed", plain_queue Subscriber.qArgs); ("payment.completed.dlq", plain_queue ∅)].

Record as_planned (t : topology) : Prop := {
  plan_exchange : forall n k k', exchanges t !! n = Some k -> (n, k') ∈ planned_exchanges -> k = k';
  plan_queue : forall n d d', queues t !! n = Some d -> (n, d') ∈ planned_queues -> d = d';
  plan_shared : forall q x, (q, x) ∈ consumers t -> x = false;
  plan_kept : refusals t = []
}.

(** A process declares what is planned, waits for the answers, and uses what it has
    declared. *)
Definition may_declare (X : Type) (e : brokerE X) (t : topology) : Prop :=
  match e with
  | ExchangeDeclare n k d a i w args => w = false /\ (n, ExchangeProps k d a i args) ∈ planned_exchanges
  | QueueDeclare n d a x w args => w = false /\ x = false /\ (n, QueueProps d a x args) ∈ planned_queues
  | QueueBind q _ ex w _ => w = false /\
      (exists p, queues t !! q = Some p /\ lasting_queue p = true) /\
      (exists x, exchanges t !! ex = Some x /\ lasting_exchange x = true)
  | Consume q _ _ x _ w _ => w = false /\ x = false /\ exists p, queues t !! q = Some p /\ lasting_queue p = true
  | _ => True
  end.

Lemma outlasts_refl t : outlasts t t.
Proof. by split. Qed.
Lemma outlasts_trans t u v : outlasts t u -> outlasts u v -> outlasts t v.
Proof.
  intros [X1 Q1 B1] [X2 Q2 B2]. split; [by eauto..|]. intros b Hb Hl. apply B2; [by apply B1|].
  destruct Hl as [(x & Hx & Hlx) (q & Hq & Hlq)]. split; eauto.
Qed.

(** A plan names each thing once. *)
Lemma insert_planned {A} (plan : list (string * A)) (m : gmap string A) n x :
  NoDup plan.*1 -> (n, x) ∈ plan ->
  (forall n x x', m !! n = Some x -> (n, x') ∈ plan -> x = x') ->
  (forall y, m !! n = Some y -> y = x) /\ m ⊆ <[n := x]> m /\
  (forall n' y y', <[n := x]> m !! n' = Some y -> (n', y') ∈ plan -> y = y').
Proof.
  intros Hnd Hin Hm. split_and!; [intros y Hy; by eapply Hm| |].
  - destruct (m !! n) as [y|] eqn:Hy; [|by apply insert_subseteq].
    rewrite insert_id; [done|]. rewrite Hy. f_equal. by eapply Hm.
  - intros n' y y' [[<- <-]|[_ Hy]]%lookup_insert_Some Hin'; [|by eapply Hm].
    apply list_elem_of_lookup in Hin as [i Hi], Hin' as [j Hj].
    assert (i = j) as -> by (eapply (NoDup_lookup plan.*1); [done| |]; by rewrite list_lookup_fmap, ?Hi, ?Hj).
    congruence.
Qed.

Lemma declared_fits {A} (fits : Prop) name w t' (r : option A) t t2 :
  declared fits name w t' r t t2 -> fits -> t2 = t' \/ t2 = t.
Proof. intros [(_ & [-> |[-> _]])|(Hn & _)] Hf; [by left|by right|done]. Qed.

(** What only adds outlasts. *)
Lemma added_outlasts t t' :
  exchanges t ⊆ exchanges t' -> queues t ⊆ queues t' -> bindings t ⊆ bindings t' -> outlasts t t'.
Proof. intros Hx Hq Hb. split; [intros; by eapply lookup_weaken..|intros b ? _; by apply Hb]. Qed.

Lemma lapsed_planned t t' : lapsed t t' -> as_planned t -> as_planned t'.
Proof.
  intros [_ Hx Hq _ Hc Hr] [Px Pq Pc Pr]. split.
  - intros n k k' Hn. eapply Px, lookup_weaken; [exact Hn|exact Hx].
  - intros n d d' Hn. eapply Pq, lookup_weaken; [exact Hn|exact Hq].
  - intros q x Hin. by apply (Pc q), Hc.
  - by rewrite Hr.
Qed.

Lemma may_outlasts X (e : brokerE X) t t' : outlasts t t' -> may_declare X e t -> may_declare X e t'.
Proof.
  intros [Hx Hq _]. destruct e; simpl; try done.
  - intros (? & (p & Hp & ?) & (x & ? & ?)). split_and!; eauto.
  - intros (? & ? & (p & Hp & ?)). split_and!; eauto.
Qed.

Lemma planned_call X (e : brokerE X) x t t' :
  broker_call_spec X e x t t' -> may_declare X e t -> as_planned t -> as_planned t' /\ outlasts t t'.
Proof.
  intros Hs Hm Ht. assert (as_planned t /\ outlasts t t) as Hsame by (split; [done|apply outlasts_refl]).
  destruct Ht as [Hx Hq Hsh Hr].
  destruct e as [| | | |n k d a i w args|n d a ex w args|q key ex w args|q ? ? ex ? w ?| |]; simpl in Hm, Hs; try (by rewrite Hs);
    destruct Hm as [-> Hm].
  - destruct (insert_planned planned_exchanges (exchanges t) n (ExchangeProps k d a i args)) as (Hf & Hsub & Hp); [|done..|].
    { apply (bool_decide_unpack _). by vm_compute. }
    destruct (declared_fits _ _ _ _ _ _ _ Hs Hf) as [-> | ->]; [|done]. by split; [|apply added_outlasts].
  - destruct Hm as [-> Hm].
    destruct (insert_planned planned_queues (queues t) n (QueueProps d a false args)) as (Hf & Hsub & Hp); [|done..|].
    { apply (bool_decide_unpack _). by vm_compute. }
    destruct (declared_fits _ _ _ _ _ _ _ Hs) as [-> | ->]; [by split; [apply Hf|]| |done].
    by split; [|apply added_outlasts].
  - destruct Hm as [(p & Hp & _) (y & Hy & _)].
    destruct (declared_fits _ _ _ _ _ _ _ Hs) as [-> | ->]; [by split; eexists| |done].
    split; [by split|]. apply added_outlasts; simpl; [done|done|set_solver].
  - destruct Hm as [-> (p & Hp & _)].
    destruct (declared_fits _ _ _ _ _ _ _ Hs) as [-> | ->]; [split; [by eexists|]; intros y Hy; by split; [eapply Hsh|]| |done].
    split; [|by apply added_outlasts]. split; simpl; [done|done| |done].
    intros q' y [[= -> ->]|Hin]%elem_of_cons; [done|by eapply Hsh].
Qed.

#[export] Instance plan_discipline : Discipline broker_spec as_planned outlasts may_declare.
Proof.
  split; [exact outlasts_refl|exact outlasts_trans|].
  intros X e x t t' (t1 & Hl & Hs) Hm Ht.
  destruct (planned_call X e x t1 t' Hs) as [Hp Ho];
    [by eapply may_outlasts; [apply (lap_kept _ _ Hl)|]|by eapply lapsed_planned|].
  split; [done|]. eapply outlasts_trans; [apply (lap_kept _ _ Hl)|done].
Qed.

Notation bgives := (gives broker_spec as_planned outlasts may_declare).

(** What a successful call leaves there for ever. *)
Definition there {X} (e : brokerE X) (t : topology) : X -> Prop :=
  match e in brokerE X return X -> Prop with
  | ExchangeDeclare n k d a i _ args => fun r =>
      let x := ExchangeProps k d a i args in r = None -> exchanges t !! n = Some x /\ lasting_exchange x = true
  | QueueDeclare n d a x _ args => fun r =>
      let q := QueueProps d a x args in r = None -> queues t !! n = Some q /\ lasting_queue q = true
  | QueueBind q key ex _ _ => fun r => r = None -> (ex, key, q) ∈ bindings t /\ lasting_binding t (ex, key, q)
  | _ => fun _ => True
  end.

Lemma lasting_outlasts t t' b : outlasts t t' -> lasting_binding t b -> lasting_binding t' b.
Proof. intros [Hx Hq _] [(x & ? & ?) (q & ? & ?)]. split; eauto. Qed.

Lemma there_outlasts {X} (e : brokerE X) t t' x : outlasts t t' -> there e t x -> there e t' x.
Proof.
  intros Ho. pose proof Ho as [Hx Hq Hb]. destruct e; simpl; try done; intros H Hr; destruct (H Hr); split; eauto.
  by eapply lasting_outlasts.
Qed.

(** All that is planned lasts. *)
Lemma planned_lasts :
  (forall n x, (n, x) ∈ planned_exchanges -> lasting_exchange x = true) /\
  (forall n q, (n, q) ∈ planned_queues -> lasting_queue q = true).
Proof.
  split; intros n x; unfold planned_exchanges, planned_queues; rewrite !elem_of_cons, elem_of_nil;
    by intros [[= -> ->]|[[= -> ->]|[]]].
Qed.

Lemma done_there X (e : brokerE X) x t t' :
  broker_spec X e x t t' -> may_declare X e t -> outlasts t t' -> there e t' x.
Proof.
  destruct planned_lasts as [Lx Lq]. intros (t1 & _ & Hs) Hm Ho. revert Hs Hm.
  destruct e; simpl; try done; intros Hs [-> Hm] ->;
    destruct Hs as [(_ & [-> |[-> [[? Hr]|Hr]]])|(_ & [[? Hr]|Hr] & _)]; try done; simpl.
  - split; [apply lookup_insert_eq|by eapply Lx].
  - split; [apply lookup_insert_eq|by eapply Lq, Hm].
  - split; [set_solver|]. destruct Hm. apply (lasting_outlasts t); [exact Ho|]. by split.
Qed.

Section Setup.
Import Subscriber.

Lemma or_fatal_gives what (e : brokerE (option error)) k (Q : option error -> topology -> Prop) t :
  (forall t1, outlasts t t1 -> may_declare _ e t1) ->
  (forall err t1, Q (Some err) t1) ->
  (forall t1, outlasts t t1 -> there e t1 None -> bgives k Q t1) ->
  bgives (or_fatal what e k) Q t.
Proof.
  intros Hm Herr Hk. unfold or_fatal. eapply gives_call; [apply _|by intros t1 Ht _; apply Hm|].
  intros [err|] t1 t2 H1 H2 Ht _ _ Hs; [by apply gives_ret|]. apply Hk; [done|].
  eapply done_there; [exact Hs|by apply Hm|done].
Qed.

(** The worker's queue and its dead letters are in place. *)
Record in_place (t : topology) : Prop := {
  pl_queue : queues t !! "payment.completed" = Some (plain_queue qArgs);
  pl_dlq : queues t !! "payment.completed.dlq" = Some (plain_queue ∅);
  pl_exchange : exchanges t !! "notifications.events" = Some (plain_exchange "topic");
  pl_dlx : exchanges t !! "notifications.dlx" = Some (plain_exchange "direct");
  pl_bound : ("notifications.events", "payment.completed", "payment.completed") ∈ bindings t;
  pl_dead : ("notifications.dlx", "payment.dead", "payment.completed.dlq") ∈ bindings t
}.

Lemma in_place_outlasts t t' : outlasts t t' -> in_place t -> in_place t'.
Proof.
  intros [Hx Hq Hb] [H1 H2 H3 H4 H5 H6].
  split; [by apply Hq|by apply Hq|by apply Hx|by apply Hx|apply Hb..]; try done; split; eauto.
Qed.

Lemma setup_gives url t : bgives (setup url) (fun r t' => r = None -> in_place t') t.
Proof.
  unfold setup.
  repeat (apply or_fatal_gives; [intros ? ?; simpl; try exact Logic.I|done|intros ? ? ?]).
  all: repeat match goal with
    | H : outlasts ?t ?u, Hf : there ?e ?t None |- _ => apply (there_outlasts e t u None H) in Hf
    end.
  all: repeat match goal with
    | H : there _ _ None |- _ => destruct (H eq_refl); clear H
    | H : there _ _ None |- _ => clear H
    end.
  all: try solve [split_and!; first
    [done|eexists; split; [eassumption|done]|apply (bool_decide_unpack _); by vm_compute]].
  apply gives_ret. intros _. by split.
Qed.

Lemma dial_gives url t : bgives (lift dial_calls (DialPublisher url))
  (fun r t' => r = None -> exchanges t' !! "notifications.events" = Some (plain_exchange "topic")) t.
Proof.
  unfold DialPublisher. simpl.
  repeat match goal with
  | |- gives _ _ _ _ (Ret (Some _)) _ _ => done
  | |- gives _ _ _ _ (Do _ _) _ _ =>
      intros ? ? ?; split; [simpl; try exact Logic.I; (split; [done|]); apply (bool_decide_unpack _); by vm_compute|intros [] ? ? ? ?; simpl]
  end.
  intros _. match goal with H : broker_spec _ (ExchangeDeclare _ _ _ _ _ _ _) None _ _ |- _ =>
    destruct (done_there _ _ None _ _ H) as [? _]; try done end.
  split; [done|]. apply (bool_decide_unpack _). by vm_compute.
Qed.
End Setup.

(** A process that starts: the publisher of a payment service, or a worker. *)
Inductive role : Type := PublisherOf (url : string) | WorkerOf (url : string).

Definition start (r : role) : prog brokerE (option error) :=
  match r with
  | PublisherOf url => lift dial_calls (DialPublisher url)
  | WorkerOf url => Subscriber.setup url
  end.

(** A binding key without wildcards. *)
Definition literal_key (key : string) : bool :=
  negb (Contains key "*") && negb (Contains key "#").

(** C17. Payment services and workers start in any number, order and interleaving, over
    a broker that is new or set up by their like (and that routes a key without
    wildcards to its own binding), whatever connection fails, and though at any moment
    all that is not durable, or is auto-deleted or exclusive, may go: no declaration is
    ever refused, for any of its properties, and once a worker consumes, what a payment
    service publishes comes to the worker's queue by an exchange that takes
    publications, what the worker rejects comes from there to the dead-letter queue, and
    both paths last. *)
Theorem services_agree_on_the_broker {W : Type} (h : handler brokerE W) (obs : W -> topology)
    `{!Refines h obs broker_spec} (matches : string -> string -> string -> bool) (rs : list role) w sched :
  (forall kind key, kind ∈ ["topic"; "direct"] -> literal_key key = true -> matches kind key key = true) ->
  as_planned (obs w) ->
  let s := run_schedule h sched (Pool (start <$> rs) w false) in
  let t := obs (world s) in
  crashed s = false /\ refusals t = [] /\
  (forall i url, rs !! i = Some (WorkerOf url) -> threads s !! i = Some (Ret None) ->
     forall t', outlasts t t' ->
     (routed matches t' exchangeName routingPaymentCompleted Subscriber.queueName /\
      ex_internal <$> exchanges t' !! exchangeName = Some false) /\
     exists q dlx key, queues t' !! Subscriber.queueName = Some q /\
       dead_letter q routingPaymentCompleted = Some (dlx, key) /\
       routed matches t' dlx key Subscriber.dlqQueueName).
Proof.
  intros Hlit Ht s t.
  set (Q := fun i (r : option error) t => forall url, rs !! i = Some (WorkerOf url) -> r = None -> in_place t).
  destruct (pool_gives broker_spec as_planned outlasts may_declare h obs Q sched (start <$> rs) w)
    as (Hc & Ht' & _ & Hr).
  - intros i r u u' Hu Hq url Hi ->. eapply in_place_outlasts; [exact Hu|]. by eapply Hq.
  - done.
  - intros i p Hp. apply list_lookup_fmap_Some in Hp as (r & -> & Hi). destruct r as [url|url]; simpl.
    + eapply gives_mono; [apply _|apply dial_gives|]. intros r t1 _ _ url' Hi'. simplify_eq.
    + eapply gives_mono; [apply _|apply setup_gives|]. intros r t1 _ Hq url' _. exact Hq.
  - split_and!; [done|apply (plan_kept _ Ht')|]. intros i url Hi Hend t' Ho.
    destruct (in_place_outlasts _ _ Ho (Hr i _ Hend url Hi eq_refl)) as [Hq Hdlq Hx Hdlx Hb Hd].
    split; [split|exists (plain_queue Subscriber.qArgs), "notifications.dlx", "payment.dead"; split_and!].
    + exists (plain_exchange "topic"), "payment.completed". split_and!; [done|done|]. apply Hlit; [set_solver|done].
    + unfold exchangeName. by rewrite Hx.
    + done.
    + done.
    + exists (plain_exchange "direct"), "payment.dead". split_and!; [done|done|]. apply Hlit; [set_solver|done].
Qed.

(** ** An executable broker *)

Record brokermem := BrokerMem {
  bm_topology : topology;
  bm_faults : list bool        (* [true]: the connection fails at this call *)
}.

Definition declare (fits : bool) (name : string) (noWait : bool) (t' : topology) (w : brokermem) :
    outcome (option error) * brokermem :=
  let t := bm_topology w in
  let heard e := if noWait then None else Some e in
  if negb fits then (Done (heard (ErrorNew "PRECONDITION_FAILED")), BrokerMem (refuse name t) (tail (bm_faults w)))
  else if default false (head (bm_faults w)) then (Done (heard pmem_error), BrokerMem t (tail (bm_faults w)))
  else (Done None, BrokerMem t' (tail (bm_faults w))).

Definition brokermem_calls : handler brokerE brokermem := fun X e w =>
  let t := bm_topology w in
  match e in brokerE X return outcome X * brokermem with
  | ExchangeDeclare n k d a i nw args =>
      let x := ExchangeProps k d a i args in
      declare (bool_decide (default x (exchanges t !! n) = x)) n nw
        (Topology (<[n := x]> (exchanges t)) (queues t) (bindings t) (consumers t) (refusals t)) w
  | QueueDeclare n d a x nw args =>
      let q := QueueProps d a x args in
      declare (match queues t !! n with None => true | Some p => bool_decide (p = q) && negb x end) n nw
        (Topology (exchanges t) (<[n := q]> (queues t)) (bindings t) (consumers t) (refusals t)) w
  | QueueBind q key ex nw _ =>
      declare (bool_decide (is_Some (queues t !! q) /\ is_Some (exchanges t !! ex))) q nw
        (Topology (exchanges t) (queues t) ({[(ex, key, q)]} ∪ bindings t) (consumers t) (refusals t)) w
  | Consume q _ _ x _ nw _ =>
      declare (bool_decide (is_Some (queues t !! q)) &&
               forallb (fun c => negb (bool_decide (c.1 = q) && (c.2 || x))) (consumers t)) q nw
        (Topology (exchanges t) (queues t) (bindings t) ((q, x) :: consumers t) (refusals t)) w
  | _ => (Done (if default false (head (bm_faults w)) then Some pmem_error else None),
          BrokerMem t (tail (bm_faults w)))
  end.

Lemma declare_declared fits (P : Prop) name nw t' w :
  (fits = true <-> P) ->
  exists x w', declare fits name nw t' w = (Done x, w') /\ declared P name nw t' x (bm_topology w) (bm_topology w').
Proof.
  intros Hp. assert (forall e : error, is_Some (if nw then None else Some e) \/ nw = true) as Hn
    by (intros e; destruct nw; [by right|left; by eexists]).
  unfold declare, declared. destruct fits; simpl.
  - destruct (default false _); (do 2 eexists; split; [done|]); left; split; try (by apply Hp); eauto.
  - do 2 eexists. split; [done|]. right. split_and!; [by intros H%Hp|apply Hn|done].
Qed.

Lemma agrees {A} `{EqDecision A} (m : gmap string A) n x :
  bool_decide (default x (m !! n) = x) = true <-> forall y, m !! n = Some y -> y = x.
Proof.
  rewrite bool_decide_eq_true. destruct (m !! n) as [y|]; simpl; [|done].
  split; [by intros -> ? [= <-]|by intros H; apply H].
Qed.

Lemma queue_agrees (m : gmap string queue_props) n q x :
  match m !! n with None => true | Some p => bool_decide (p = q) && negb x end = true <->
  forall p, m !! n = Some p -> p = q /\ x = false.
Proof.
  destruct (m !! n) as [p|]; [|done]. rewrite andb_true_iff, bool_decide_eq_true, negb_true_iff.
  split; [by intros [-> ->] ? [= <-]|intros H; by apply H].
Qed.

Lemma consumers_agree cs q x :
  forallb (fun c : string * bool => negb (bool_decide (c.1 = q) && (c.2 || x))) cs = true <->
  forall y, (q, y) ∈ cs -> y = false /\ x = false.
Proof.
  rewrite forallb_forall. split.
  - intros H y Hy%list_elem_of_In%H. revert Hy. simpl. rewrite bool_decide_true by done. by destruct y, x.
  - intros H [q' y] Hin%list_elem_of_In. simpl. case_bool_decide as E; [|done]. simpl in E. subst.
    by destruct (H y Hin) as [-> ->].
Qed.

Lemma lapsed_refl t : lapsed t t.
Proof. by split. Qed.

#[export] Instance brokermem_refines : Refines brokermem_calls bm_topology broker_spec.
Proof.
  intros X e w. cut (exists x w', brokermem_calls X e w = (Done x, w') /\
    broker_call_spec X e x (bm_topology w) (bm_topology w')).
  { intros (x & w' & ? & ?). exists x, w'. split; [done|]. eexists. split; [apply lapsed_refl|done]. }
  destruct e; cbn [brokermem_calls]; try (by do 2 eexists); apply declare_declared.
  - apply agrees.
  - apply queue_agrees.
  - apply bool_decide_eq_true.
  - rewrite andb_true_iff, bool_decide_eq_true. by rewrite consumers_agree.
Qed.

Definition empty_broker : topology := Topology ∅ ∅ ∅ [] [].

Lemma empty_planned : as_planned empty_broker.
Proof. split; [done|done| |done]. by intros q x ?%elem_of_nil. Qed.

(** Two workers and a publisher; the first worker's connection fails once. *)
Definition starting : pool brokerE brokermem (option error) :=
  run_schedule brokermem_calls ([0; 1; 0; 1; 2; 1; 0; 1] ++ repeat 2 10)%list%nat
    (Pool (start <$> [WorkerOf "amqp://mq"; PublisherOf "amqp://mq"; WorkerOf "amqp://mq"])
       (BrokerMem empty_broker [false; false; false; false; false; false; true]) false).

Lemma services_agree_on_the_broker_witness :
  let rs := [WorkerOf "amqp://mq"; PublisherOf "amqp://mq"; WorkerOf "amqp://mq"] in
  let t := bm_topology (world starting) in
  let matches (_ b k : string) := String.eqb b k in
  crashed starting = false /\ refusals t = [] /\
  (forall i url, rs !! i = Some (WorkerOf url) -> threads starting !! i = Some (Ret None) ->
     forall t', outlasts t t' ->
     (routed matches t' exchangeName routingPaymentCompleted Subscriber.queueName /\
      ex_internal <$> exchanges t' !! exchangeName = Some false) /\
     exists q dlx key, queues t' !! Subscriber.queueName = Some q /\
       dead_letter q routingPaymentCompleted = Some (dlx, key) /\
       routed matches t' dlx key Subscriber.dlqQueueName).
Proof.
  apply (services_agree_on_the_broker brokermem_calls bm_topology).
  - intros _ key _ _. apply String.eqb_refl.
  - apply empty_planned.
Defined.

Example last_worker_consumes :
  threads starting !! 0%nat = Some (Ret (Some (ErrorNew "rabbitmq qos: connection reset by peer"))) /\
  threads starting !! 1%nat = Some (Ret None) /\ threads starting !! 2%nat = Some (Ret None).
Proof. vm_compute. done. Qed.
