(* ===== verification/Words.v ===== *)
(** * Where the texts of an event come from

    The ids and the address in what the payment service publishes: an identifier is a
    UUID, an address is that of a request.  So the worker can read every event, and
    reads the ids as they are. *)

From S2P Require Import Prelude GoLib Json Proto OrderPorts OrderUsecase OrderUsecaseFacts.
From S2P Require Import PaymentClients Publisher PaymentUsecase PaymentProps PaymentTransport System.
From S2P Require Import Notify NotifyProps Worker Messaging.

(** The texts are UTF-8, the id and the address are there, and the ids have no blanks
    around them (they are UUIDs). *)
Definition textual (e : PaymentCompletedEvent.t) : Prop :=
  receivable e /\ TrimSpace (PaymentCompletedEvent.PaymentID e) = PaymentCompletedEvent.PaymentID e /\
  TrimSpace (PaymentCompletedEvent.OrderID e) = PaymentCompletedEvent.OrderID e.

(** Addresses are UTF-8; who asks the payment service himself names a plain order id, or
    none. *)
Definition worded_input (in_ : AuthorizePaymentInput.t) : Prop :=
  (AuthorizePaymentInput.OrderID in_ = "" \/ plain_text (AuthorizePaymentInput.OrderID in_)) /\
  utf8_string (TrimSpace (AuthorizePaymentInput.CustomerEmail in_)).

Definition worded_goroutine (g : goroutine) : Prop :=
  match g with
  | OrderThread (ReqCreate inp) => utf8_string (TrimSpace (CreateOrderInput.CustomerEmail inp))
  | PaymentThread (ReqAuthorize in_) => worded_input in_
  | _ => True
  end.

Definition worded_rpc (q : rpc) : Prop :=
  match q with
  | AuthorizeRpc req =>
      plain_text (AuthorizePaymentRequest.OrderId req) /\
      utf8_string (TrimSpace (AuthorizePaymentRequest.CustomerEmail req))
  | StatusRpc _ => False
  end.

Section Words.
Context {Timestamp : Type} (timestamppb_New : Z -> Timestamp).
Context (uuid_in : string -> option string) (tstz : Z -> Z).
Context (puuid_in : string -> option string) (ptstz : Z -> Z) (pub cache_on : bool) (ttl : Z).
Context (uuid_plain : forall s c, uuid_in s = Some c -> plain_text c).
Context (puuid_plain : forall s c, puuid_in s = Some c -> plain_text c).
Notation sysview := (sysview Timestamp).
Notation sspec := (sys_spec (Timestamp := Timestamp) uuid_in tstz puuid_in ptstz).
Notation pspec := (PaymentUsecase.ports_spec puuid_in ptstz).

(** ** The payment service *)

Definition all_textual (v : pview) : Prop := forall e, e ∈ events v -> textual e.
Definition any_later {V : Type} (v v' : V) : Prop := True.
Definition may_publish (X : Type) (e : PaymentPorts.E X) (v : pview) : Prop :=
  match e with PaymentPorts.OnBroker (PublishWithContext _ e) => textual e | _ => True end.

#[local] Instance publish_discipline : Discipline pspec all_textual any_later may_publish.
Proof.
  split; [done|done|]. intros X e x v v' Hs Hm Hv. split; [|done].
  assert (forall p, saved puuid_in ptstz p v v' -> all_textual v') as Hsv
    by (intros p (? & _ & _ & _ & _ & _ & ->); exact Hv).
  destruct e as [| |X e| |]; [..|]; cycle 2.
  { destruct Hs as (b & Hs & ->). intros e' [He|He]%(newly_taken _ _ _ _ _ _ Hs); [by apply Hv|]. destruct e; [|done]. by subst. }
  all: promise Hs; eauto.
Qed.

Notation pgives := (gives pspec all_textual any_later may_publish).

Lemma textual_event p email :
  plain_text (Payment.ID p) -> plain_text (Payment.OrderID p) -> utf8_string email -> TrimSpace email <> "" ->
  Payment.Status p = Payment.StatusAuthorized -> in_int64 (Payment.Amount p) ->
  textual (AuthorizePayment.event p email).
Proof.
  intros (H1 & H2 & H3) (H4 & H5 & _) He Hne Hs Ha. unfold textual, receivable, printable. simpl. rewrite H2, Hs.
  split_and!; try done; apply Ha.
Qed.

Lemma authorize_words in_ v :
  worded_input in_ -> pgives (AuthorizePayment.Execute pub in_) (fun r _ => r <> (None, None)) v.
Proof using puuid_plain.
  intros [Ho Hem]. unfold AuthorizePayment.Execute, AuthorizePayment.publish. rewrite status_called_for.
  follow_gives; try done.
  eapply gives_bind; [apply _| |intros [err|] ? _ _; by apply gives_ret]. apply publisher_calls; [apply _|intros ?|done].
  destruct Ho as [Ho|Ho]; [by rewrite Ho in Heqb0|].
  apply andb_true_iff in Heqb1 as [Hst%bool_decide_eq_true _]. simpl in Hst.
  apply bool_decide_eq_false in Heqb2.
  match goal with H : pspec string PaymentPorts.NewString x1 _ _ |- _ => destruct H as [Hid%puuid_plain _] end.
  apply textual_event; simpl; try done; [by rewrite TrimSpace_idemp|].
  unfold in_int64, int64_min, int64_max. unfold called_for in Hst.
  destruct (Z.leb_spec (AuthorizePaymentInput.Amount in_) 100000); [lia|done].
Qed.

Lemma payment_request_words r v :
  worded_goroutine (PaymentThread r) -> pgives (serve_payment pub r) (fun _ _ => True) v.
Proof using puuid_plain.
  intros Hw. destruct r as [in_|id]; cbn [serve_payment].
  - eapply gives_bind; [apply _|by apply authorize_words|]. intros. by apply gives_ret.
  - eapply gives_bind; [apply _|apply lookup_gives; [apply _|done]|]. intros. by apply gives_ret.
Qed.

Lemma rpc_words q v : worded_rpc q -> pgives (handle_rpc timestamppb_New pub q) (fun _ _ => True) v.
Proof using puuid_plain.
  intros Hq. destruct q as [req|]; [|done]. cbn [handle_rpc].
  eapply gives_bind with (P := fun _ _ => True); [apply _| |intros; by apply gives_ret].
  unfold Server.LoggingInterceptor.
  eapply gives_bind with (P := fun _ _ => True); [apply _| |intros [] ? _ _; by apply gives_ret].
  unfold Server.AuthorizePayment.
  destruct (bool_decide _); [by apply gives_ret|]. destruct (_ <=? 0); [by apply gives_ret|].
  eapply gives_bind; [apply _|apply authorize_words; by split; [right|]; apply Hq|]. intros [[out|] [err|]] w _ Hr; cbn [Server.authorize_reply];
    try (by destruct Hr); try (destruct (Contains _ _)); by apply gives_ret.
Qed.

(** ** Both services *)

Record worded (v : sysview) : Prop := {
  wrd_orders : integrity uuid_in (sv_order v);
  wrd_calls : forall id q, sv_calls v !! id = Some q -> worded_rpc q;
  wrd_events : all_textual (sv_payment v)
}.

Definition may_say (X : Type) (e : sysE Timestamp X) (v : sysview) : Prop :=
  match e with
  | OnPayment e => may_publish X e (sv_payment v)
  | OnNet (SendRequest q) => worded_rpc q
  | _ => True
  end.

#[export] Instance word_discipline : Discipline sspec worded any_later may_say.
Proof using Type.
  split; [done|done|]. intros X e x v v' Hs Hm [Ho Hc He]. split; [|done].
  destruct e as [e|e|e]; destruct Hs as (u & Hs & ->).
  - split; [by eapply integrity_call|done|done].
  - split; [done|done|]. by destruct (dis_step X e x _ _ Hs Hm He).
  - destruct e as [q|id| |id a]; promise Hs; (split; [exact Ho| |exact He]); simpl; try exact Hc.
    intros id q' [[_ <-]|[_ Hq]]%lookup_insert_Some; [exact Hm|by eapply Hc].
Qed.

Notation sgives := (gives sspec worded any_later may_say).

(** What the order service's requests need of its ports: the id of an order is a UUID,
    and a recorded payment is never reported. *)
Definition port_words : interface portE sysview := fun X e x v v' =>
  worded v' /\
  match e in portE X return X -> Prop with
  | CreatePendingWithIdempotency _ _ _ _ => fun r =>
      let '(o, _, err) := r in err = None -> exists order, o = Some order /\ plain_text (Order.ID order)
  | Authorize _ _ _ => fun r =>
      let '(_, _, err) := r in forall e, err = Some e -> err_ptr_eq e ErrPaymentAlreadyRecorded = false
  | _ => fun _ => True
  end x.

Definition may_ask (X : Type) (e : portE X) (v : sysview) : Prop :=
  match e with
  | Authorize id _ email => plain_text id /\ utf8_string (TrimSpace email)
  | GetStatus _ => False
  | _ => True
  end.

#[local] Instance ask_discipline : Discipline port_words worded any_later may_ask.
Proof using Type. split; [done|done|]. by intros X e x v v' [? _] _ _. Qed.

Lemma authorize_words_port id amount email v :
  plain_text id -> utf8_string (TrimSpace email) ->
  sgives (sys_ports _ (Authorize id amount email)) (fun r _ =>
    let '(_, _, err) := r in forall e, err = Some e -> err_ptr_eq e ErrPaymentAlreadyRecorded = false) v.
Proof using Type.
  intros Hid Hem.
  change (sgives (stub _ (RpcAuthorizePayment (AuthorizePaymentRequest.mk id amount email)) ≫=
    fun resp => interp stub (match resp with
    | inr err => mret ("", "", Some (PaymentClient.authorize_error err))
    | inl resp => mret (AuthorizePaymentResponse.TransactionId resp, AuthorizePaymentResponse.Status resp, None) end))
    (fun r _ => let '(_, _, err) := r in forall e, err = Some e -> err_ptr_eq e ErrPaymentAlreadyRecorded = false) v).
  eapply gives_bind with (P := fun _ _ => True); [apply _| |].
  - cbn [stub]. unfold invoke. eapply gives_bind with (P := fun _ _ => True); [apply _| |].
    + eapply gives_call; [apply _|done|]. intros [i|e] v1 v2 _ _ _ _ _ _; [|by apply gives_ret].
      by apply gives_last.
    + intros [[[[resp|] [e|]]|]|e] v1 _ _; by apply gives_ret.
  - intros [resp|e] v1 _ _; apply gives_ret; [done|]. intros e' [= <-].
    unfold PaymentClient.authorize_error. by repeat case_match.
Qed.

Lemma port_says X (e : portE X) v :
  worded v -> may_ask X e v -> sgives (sys_ports X e) (fun x v' => port_words X e x v v' /\ worded v') v.
Proof using uuid_plain.
  intros Hv Hm. eapply gives_mono with (P := fun x v' => worded v' /\ any_later v v' /\ match e in portE X return X -> Prop with
    | CreatePendingWithIdempotency _ _ _ _ => fun r =>
        let '(o, _, err) := r in err = None -> exists order, o = Some order /\ plain_text (Order.ID order)
    | Authorize _ _ _ => fun r =>
        let '(_, _, err) := r in forall e, err = Some e -> err_ptr_eq e ErrPaymentAlreadyRecorded = false
    | _ => fun _ => True
    end x); [apply _| |by intros x v' _ (? & _ & ?)].
  apply gives_reach; [apply _|done|].
  destruct e; try done; [|apply authorize_words_port; apply Hm]. cbn [sys_ports].
  apply gives_last; [done|]. intros [[o b] err] v1 v2 _ _ [Hi _ _] _ (u & Hs & _) ->.
  promise Hs; simplify_eq.
  - match goal with H : orders _ !! _ = Some _ |- _ => apply (int_row _ _ Hi) in H as (E & Hid & _) end.
    eexists. split; [done|]. rewrite E. by eapply uuid_plain.
  - match goal with H : created _ _ _ _ _ _ _ _ _ |- _ => destruct H as (id & now & -> & Hid & _) end.
    eexists. split; [done|]. by eapply uuid_plain.
Qed.

(** ** The goroutines *)

Notation agives := (gives port_words worded any_later may_ask).

Lemma invalidate_words id v : agives (CreateOrder.invalidate cache_on id) (fun _ _ => True) v.
Proof. unfold CreateOrder.invalidate. follow_gives; done. Qed.

Lemma settle_words order st v : agives (CreateOrder.settle cache_on order st) (fun _ _ => True) v.
Proof.
  unfold CreateOrder.settle. eapply gives_call; [apply _|done|]. intros [err|] v1 v2 _ _ _ _ _ _; [by apply gives_ret|].
  eapply gives_bind; [apply _|apply invalidate_words|]. intros. by apply gives_ret.
Qed.

Lemma create_words inp v :
  utf8_string (TrimSpace (CreateOrderInput.CustomerEmail inp)) ->
  agives (CreateOrder.Execute cache_on inp) (fun _ _ => True) v.
Proof.
  intros Hem. unfold CreateOrder.Execute. destruct (_ <=? 0); [by apply gives_ret|].
  destruct (_ || _); [by apply gives_ret|]. eapply gives_call; [apply _|done|].
  intros [[o b] [e|]] v1 v2 _ _ _ _ _ [_ Hs]; [by apply gives_ret|]. destruct (Hs eq_refl) as (order & -> & Hid).
  destruct (is_terminal _); [by apply gives_ret|]. unfold CreateOrder.authorize.
  eapply gives_call; [apply _|by split; [|rewrite TrimSpace_idemp]|].
  intros [[txn st] [e|]] v3 v4 _ _ _ _ _ [_ He]; [|apply settle_words].
  destruct (errors_Is _ _); [by apply gives_ret|]. rewrite (He e eq_refl).
  destruct (err_ptr_eq e ErrPaymentUnavailable); follow_gives; try done.
  eapply gives_bind; [apply _|apply invalidate_words|]. intros. follow_gives; done.
Qed.

Lemma request_words r v : worded_goroutine (OrderThread r) -> agives (serve cache_on ttl r) (fun _ _ => True) v.
Proof.
  intros Hw. destruct r as [inp|id|id]; cbn [serve]; [by apply create_words| |].
  - unfold GetOrder.Execute, GetOrder.load. follow_gives; done.
  - unfold CancelOrder.Execute. follow_gives; done.
Qed.

Lemma payment_part_words {A} (p : prog PaymentPorts.E A) v :
  pgives p (fun _ _ => True) (sv_payment v) -> sgives (lift (fun X => OnPayment) p) (fun _ _ => True) v.
Proof using Type.
  apply gives_lift with (get := sv_payment) (Q := fun _ _ => True); [apply wrd_events|done|done|].
  by intros X e x v1 v2 (w & Hs & ->).
Qed.

Lemma order_part_words {A} (p : prog portE A) v :
  worded v -> agives p (fun _ _ => True) v -> sgives (interp sys_ports p) (fun _ _ => True) v.
Proof using uuid_plain.
  intros Hv. apply (gives_interp sys_ports sspec port_words worded any_later may_say may_ask); [|done].
  intros X e u. apply port_says.
Qed.

Lemma serve_rpc_words v : sgives (serve_rpc timestamppb_New pub) (fun _ _ => True) v.
Proof using puuid_plain.
  unfold serve_rpc. eapply gives_call; [apply _|done|].
  intros [[id q]|] v1 v2 _ _ _ [_ Hq _] _ Hs; [|by apply gives_ret].
  eapply gives_bind with (P := fun _ _ => True); [apply _| |intros; by apply gives_last].
  apply payment_part_words, rpc_words. destruct Hs as (n & Hs & _). promise Hs; [done|]. simplify_eq. by eapply Hq.
Qed.

Lemma thread_words g v :
  worded v -> worded_goroutine g -> sgives (thread timestamppb_New pub cache_on ttl g) (fun _ _ => True) v.
Proof using uuid_plain puuid_plain.
  intros Hv Hg. destruct g as [r| |r]; cbn [thread];
    (eapply gives_bind with (P := fun _ _ => True); [apply _| |intros; by apply gives_ret]).
  - by apply order_part_words, request_words.
  - apply serve_rpc_words.
  - by apply payment_part_words, payment_request_words.
Qed.
End Words.
