(* ===== verification/Shop.v ===== *)
(** * From the order to the receipt

    The order service, the network, the payment service, the broker's queue and the
    notification workers together: what the payment service publishes waits in the
    workers' queue.  Any requests, RPC handlers and workers, in every interleaving. *)

From S2P Require Import Prelude GoLib Json OrderPorts OrderUsecase OrderMem.
From S2P Require Import PaymentClients Publisher PaymentUsecase PaymentProps PaymentTransport System.
From S2P Require Import Notify NotifyProps Worker Messaging Words.

Inductive shopE (Timestamp : Type) (X : Type) : Type :=
| OnSys (e : sysE Timestamp X)
| OnWorker (e : workerE X).
Arguments OnSys {Timestamp X} e.
Arguments OnWorker {Timestamp X} e.

(** A goroutine of either service, or a worker with its number of deliveries. *)
Inductive shop_goroutine : Type :=
| SysThread (g : goroutine)
| WorkerThread (n : nat).

Record shopview (Timestamp : Type) := ShopView {
  sh_sys : sysview Timestamp;
  sh_worker : wview
}.
Arguments ShopView {Timestamp} _ _.
Arguments sh_sys {Timestamp} _.
Arguments sh_worker {Timestamp} _.

Definition shop_broker {Timestamp} (v : shopview Timestamp) : broker := pv_broker (sv_payment (sh_sys v)).
Definition shop_events {Timestamp} (v : shopview Timestamp) : list PaymentCompletedEvent.t :=
  events (sv_payment (sh_sys v)).

(** What comes to the worker's queue, by its binding to the exchange of events. *)
Definition to_queue (p : publishing) : Prop :=
  px_exchange p = Subscriber.exchangeName /\ px_key p = Subscriber.routingKey.
#[export] Instance to_queue_dec p : Decision (to_queue p).
Proof. unfold to_queue. apply _. Defined.
Definition bodies (new : list (PaymentCompletedEvent.t * publishing)) : list string :=
  px_body <$> filter to_queue new.*2.

(** It is put at the end. *)
Definition enqueue (bs : list string) (w : wview) : wview :=
  let q := w_queue w in
  WView (w_notify w) (Queue (waiting q ++ bs) (unacked q) (dead q) (dropped q)).

(** The messages of events are all for the queue. *)
Lemma bodies_messages new : (forall e p, (e, p) ∈ new -> p = publishing_of e) -> bodies new = message <$> new.*1.
Proof.
  unfold bodies. induction new as [|[e p] new IH]; intros Hn; [done|].
  rewrite !fmap_cons. simpl. rewrite (Hn e p) by (by left).
  rewrite filter_cons_True by done. simpl. f_equal. apply IH. intros e' p' Hin. apply Hn. by right.
Qed.

Section Shop.
Context {Timestamp : Type} (timestamppb_New : Z -> Timestamp).
Context (uuid_in : string -> option string) (tstz : Z -> Z).
Context (puuid_in : string -> option string) (ptstz : Z -> Z) (pub cache_on : bool) (ttl : Z).
Context (demo : string) (MaxAttempts base : Z) (decode_error : string -> error).
Context (uuid_plain : forall s c, uuid_in s = Some c -> plain_text c).
Context (puuid_plain : forall s c, puuid_in s = Some c -> plain_text c).
Notation sysview := (sysview Timestamp).
Notation shopview := (shopview Timestamp).
Notation sspec := (sys_spec (Timestamp := Timestamp) uuid_in tstz puuid_in ptstz).

Definition shop_thread (g : shop_goroutine) : prog (shopE Timestamp) result :=
  match g with
  | SysThread g => lift (fun X => OnSys) (thread timestamppb_New pub cache_on ttl g)
  | WorkerThread n =>
      _ ← lift (fun X => OnWorker) (Consumer.consume demo MaxAttempts base decode_error n);
      mret Ended
  end.

Definition shop_spec : interface (shopE Timestamp) shopview := fun X e x v v' =>
  match e with
  | OnSys e =>
      exists s new, sspec X e x (sh_sys v) s /\
        br_taken (pv_broker (sv_payment s)) = (new ++ br_taken (shop_broker v))%list /\
        v' = ShopView s (enqueue (bodies new) (sh_worker v))
  | OnWorker e =>
      exists w, worker_spec X e x (sh_worker v) w /\ v' = ShopView (sh_sys v) w
  end.

(** ** The invariant *)

(** The payloads ever sent are those of the events. *)
Definition with_payloads (v : shopview) : kview :=
  KView (sh_worker v) (fun pl => exists e, e ∈ shop_events v /\ Payload.Unmarshal (message e) = Some pl).

Record in_order (v : shopview) : Prop := {
  ord_sys : consistent uuid_in pub (sh_sys v);
  ord_words : worded uuid_in (sh_sys v);
  ord_worker : settled demo (with_payloads v);
  ord_queue : messages (w_queue (sh_worker v)) ≡ₚ message <$> shop_events v
}.

Record onward (v v' : shopview) : Prop := {
  onw_sys : forward (sh_sys v) (sh_sys v');
  onw_worker : more_told (with_payloads v) (with_payloads v')
}.

Definition may_shop (X : Type) (e : shopE Timestamp X) (v : shopview) : Prop :=
  match e with
  | OnSys e => may_sys uuid_in pub X e (sh_sys v) /\ may_say X e (sh_sys v)
  | OnWorker e => may_answer demo X e (with_payloads v)
  end.

Lemma messages_enqueue es w : messages (w_queue (enqueue (message <$> es) w)) ≡ₚ ((message <$> es) ++ messages (w_queue w))%list.
Proof. unfold messages, enqueue. simpl. by rewrite <-!app_assoc, Permutation_app_swap_app. Qed.

(** New events: their payloads are known, and nothing is forgotten. *)
Lemma enqueue_told s es v :
  events (sv_payment s) = (es ++ shop_events v)%list ->
  more_told (with_payloads v) (with_payloads (ShopView s (enqueue (message <$> es) (sh_worker v)))).
Proof.
  intros He. split; [by intros m|]. intros pl (e & Hin & Hu). exists e. split; [|done].
  unfold shop_events. simpl. rewrite He. apply elem_of_app. by right.
Qed.

Lemma enqueue_settled s es v :
  events (sv_payment s) = (es ++ shop_events v)%list -> in_order v ->
  settled demo (with_payloads (ShopView s (enqueue (message <$> es) (sh_worker v)))).
Proof.
  intros He [_ _ [[Hp Hm Hs] Hk Hdr Hde] Hq].
  pose proof (enqueue_told s es v He) as Ht. pose proof (more_known _ _ Ht) as HK. split; [split| | |exact Hde].
  - intros id (pl & ? & ? & ?)%Hp. exists pl. auto.
  - intros pid (pl & ? & ? & ?)%Hm. exists pl. auto.
  - intros m (pl & ? & ?)%Hs. exists pl. auto.
  - intros b pl Hb Hu. change (b ∈ messages (w_queue (enqueue (message <$> es) (sh_worker v)))) in Hb. rewrite messages_enqueue, Hq, <-fmap_app in Hb.
    apply list_elem_of_fmap in Hb as (e & -> & Hin). exists e. unfold shop_events. simpl. by rewrite He.
  - intros b (pl & ? & ?)%Hdr. exists pl. split; [done|]. by eapply told_later.
Qed.

Lemma onward_refl v : onward v v.
Proof. split; [apply forward_refl|apply more_now_refl]. Qed.

Lemma onward_trans u v w : onward u v -> onward v w -> onward u w.
Proof. intros [] []. split; [by eapply forward_trans|by eapply more_now_trans]. Qed.

#[local] Instance shop_discipline : Discipline shop_spec in_order onward may_shop.
Proof.
  split.
  - exact onward_refl.
  - exact onward_trans.
  - intros X e x v v' Hs Hm Hv. destruct e as [e|e].
    + destruct Hs as (s & new & Hs & Hnew & ->). destruct Hm as [Hm Hsay].
      destruct (dis_step (Discipline := word_discipline uuid_in tstz puuid_in ptstz) X e x _ _ Hs Hsay (ord_words v Hv))
        as [Hwords _].
      destruct (dis_step (Discipline := sys_discipline uuid_in tstz puuid_in ptstz pub) X e x _ _ Hs Hm (ord_sys v Hv))
        as [Hc Hf].
      assert (events (sv_payment s) = new.*1 ++ shop_events v)%list as He by (unfold events; by rewrite Hnew, fmap_app).
      rewrite (bodies_messages new).
      2: { intros e' p Hin. apply (sb_text _ (led_broker _ (con_ledger _ _ _ Hc))). rewrite Hnew. apply elem_of_app. by left. }
      split; split; [exact Hc|exact Hwords|by apply enqueue_settled| |exact Hf|by apply enqueue_told].
      unfold shop_events. simpl sh_sys. rewrite He, fmap_app, <-(ord_queue v Hv). apply messages_enqueue.
    + destruct Hs as (w & Hs & ->).
      destruct (dis_step (Discipline := worker_discipline demo) X e x (with_payloads v)
        (with_payloads (ShopView (sh_sys v) w)) (conj Hs eq_refl) Hm (ord_worker v Hv)) as [Hset Ht].
      split; split; [apply (ord_sys v Hv)|apply (ord_words v Hv)|exact Hset| |apply forward_refl|exact Ht].
      simpl. rewrite (worker_messages X e x _ _ Hs). apply (ord_queue v Hv).
Qed.

Definition worded_thread (g : shop_goroutine) : Prop :=
  match g with SysThread g => worded_goroutine g | WorkerThread _ => True end.

(** A goroutine of either service, and a worker, in the shop. *)
Lemma sys_part_gives {A} (p : prog (sysE Timestamp) A) (Q : A -> sysview -> Prop) v :
  gives sspec (consistent uuid_in pub) forward (may_sys uuid_in pub) p Q (sh_sys v) ->
  gives sspec (worded uuid_in) any_later may_say p (fun _ _ => True) (sh_sys v) ->
  gives shop_spec in_order onward may_shop (lift (fun X => OnSys) p) (fun a v => Q a (sh_sys v)) v.
Proof using Type.
  intros H1 H2. eapply gives_mono; [apply _| |].
  - apply (gives_lift (fun X => OnSys) sh_sys sspec shop_spec
      (fun v => consistent uuid_in pub v /\ worded uuid_in v) (fun v v' => forward v v' /\ any_later v v')
      (fun X e v => may_sys uuid_in pub X e v /\ may_say X e v) in_order onward may_shop);
      [by intros ? []|by intros ? ? []|done|by intros X e x v1 v2 (s & es & Hs & _ & ->)|].
    by apply gives_and; [exact H1|exact H2].
  - by intros a v' _ [HQ _].
Qed.

Lemma worker_part_gives n v : 0 < MaxAttempts ->
  gives shop_spec in_order onward may_shop
    (lift (fun X => OnWorker) (Consumer.consume demo MaxAttempts base decode_error n)) (fun _ _ => True) v.
Proof using Type.
  intros HM. apply (gives_lift (fun X => OnWorker) with_payloads known_spec shop_spec (settled demo) more_told
    (may_answer demo) in_order onward may_shop) with (Q := fun _ _ => True);
    [by intros ? []|by intros ? ? []|done|by intros X e x v1 v2 (w & Hs & ->)|].
  by apply consume_gives.
Qed.

Lemma shop_thread_gives g v : 0 < MaxAttempts -> worded_thread g -> in_order v ->
  gives shop_spec in_order onward may_shop (shop_thread g) (fun _ _ => True) v.
Proof using uuid_plain puuid_plain.
  intros HM Hg Hv. destruct g as [g|n]; cbn [shop_thread].
  - eapply gives_mono; [apply _|apply sys_part_gives|by intros; exact Logic.I];
      [by apply thread_gives, ord_sys|by apply thread_words; [..|apply ord_words|]].
  - eapply gives_bind; [apply _|by apply worker_part_gives|intros; by apply gives_ret].
Qed.
End Shop.

(** ** What an event says *)

(** The receipt for a payment, to some address. *)
Definition receipt_for (p : Payment.t) (m : SendInput.t) : Prop :=
  m = SendInput.mk (SendInput.ToEmail m) (Payment.OrderID p) (Payment.ID p) (Payment.Amount p) Payment.StatusAuthorized.

Lemma announced_payload p e :
  announces p e -> textual e ->
  Payload.EventID (payload_of e) = Payment.ID p /\ Payload.payment_id (payload_of e) = Payment.ID p /\
  receipt_for p (receipt e).
Proof.
  intros (Hs & _ & He) ((_ & Hid & _) & Hp & Ho). unfold receipt_for, receipt, payload_of, Payload.email, Payload.payment_id.
  rewrite He in *. simpl in *.
  assert (Payment.ID p <> "") as Hne by (intros E; by rewrite E in Hid).
  rewrite (bool_decide_false (Payment.ID p = "")) by done. simpl.
  by rewrite Hp, Ho, (bool_decide_false (Payment.ID p = "")), Hs.
Qed.

Section Receipts.
Context {Timestamp : Type} (uuid_in : string -> option string) (pub : bool) (demo : string).
Context (v : shopview Timestamp) (Hv : in_order uuid_in pub demo v).

Lemma event_textual e : e ∈ shop_events v -> textual e.
Proof using Hv. exact (wrd_events _ _ (ord_words _ _ _ _ Hv) e). Qed.

Lemma event_payment e :
  e ∈ shop_events v ->
  exists p, payments (sv_payment (sh_sys v)) !! Payment.OrderID p = Some p /\
    Payment.OrderID p = PaymentCompletedEvent.OrderID e /\ announces p e.
Proof using Hv.
  intros (p & Hp & Ha)%(led_event _ (con_ledger _ _ _ (ord_sys _ _ _ _ Hv))). exists p.
  destruct (led_row _ (con_ledger _ _ _ (ord_sys _ _ _ _ Hv)) _ _ Hp) as (E & _). by rewrite E.
Qed.

Lemma known_payload pl :
  k_known (with_payloads v) pl -> exists e, e ∈ shop_events v /\ pl = payload_of e.
Proof using Hv.
  intros (e & He & Hu). exists e. split; [done|]. destruct (event_textual e He) as ((Hp & _) & _).
  unfold message in Hu. rewrite (decoded_event e Hp) in Hu. by injection Hu.
Qed.

(** Every mail is the receipt of an authorized payment. *)
Lemma mail_payment m :
  m ∈ mails (w_notify (sh_worker v)) ->
  exists p, payments (sv_payment (sh_sys v)) !! Payment.OrderID p = Some p /\
    Payment.Status p = Payment.StatusAuthorized /\ receipt_for p m.
Proof using Hv.
  intros (pl & (e & He & ->)%known_payload & ->)%(sound_mails _ _ (set_sound _ _ (ord_worker _ _ _ _ Hv))).
  destruct (event_payment e He) as (p & Hp & _ & Ha). exists p.
  destruct (announced_payload p e Ha (event_textual e He)) as (_ & _ & Hr). by destruct Ha.
Qed.

(** A message that was acknowledged: the payment's receipt is sent. *)
Lemma acknowledged_mailed p e :
  e ∈ shop_events v -> payments (sv_payment (sh_sys v)) !! Payment.OrderID p = Some p -> announces p e ->
  message e ∈ dropped (w_queue (sh_worker v)) ->
  exists m, m ∈ mails (w_notify (sh_worker v)) /\ receipt_for p m.
Proof using Hv.
  intros He Hp Ha (pl & Hu & (pl' & (e' & He' & ->)%known_payload & Hm & Hsame))%(set_dropped _ _ (ord_worker _ _ _ _ Hv)).
  destruct (event_textual e He) as ((Hpr & _) & _). unfold message in Hu. rewrite (decoded_event e Hpr) in Hu. injection Hu as <-.
  destruct (event_payment e' He') as (p' & Hp' & _ & Ha').
  destruct (announced_payload p e Ha (event_textual e He)) as (E1 & E2 & _).
  destruct (announced_payload p' e' Ha' (event_textual e' He')) as (E1' & E2' & Hr).
  rewrite E1, E2, E1', E2' in Hsame.
  pose proof (led_id _ (con_ledger _ _ _ (ord_sys _ _ _ _ Hv)) _ _ _ _ Hp' Hp ltac:(by destruct Hsame)) as E.
  rewrite E, Hp in Hp'. injection Hp' as <-. by exists (Payload.email (payload_of e')).
Qed.

(** A message that was dead-lettered is the demonstration's. *)
Lemma dead_lettered e :
  e ∈ shop_events v -> message e ∈ dead (w_queue (sh_worker v)) ->
  demo <> "" /\ PaymentCompletedEvent.OrderID e = demo.
Proof using Hv.
  intros He Hr%(set_dead _ _ (ord_worker _ _ _ _ Hv)). destruct (event_textual e He) as (Hrec & _ & Ho).
  apply (refused_event demo e Hrec) in Hr as [? E]. split; [done|]. by rewrite <-Ho.
Qed.

(** The payment's message is on its way to a worker or with one. *)
Definition underway (p : Payment.t) : Prop :=
  exists e, announces p e /\
    (message e ∈ waiting (w_queue (sh_worker v)) \/
     exists d, d ∈ unacked (w_queue (sh_worker v)) /\ body d = message e).

(** The broker has refused or lost the payment's message, and the publisher took for its
    own the acknowledgement of another one. *)
Definition misled (p : Payment.t) : Prop :=
  exists e e', announces p e /\ e ∈ br_refused (shop_broker v) /\
    (e, e') ∈ br_misread (shop_broker v) /\ e' <> e /\ e' ∈ shop_events v.

Lemma paid_receipted o :
  backed pub (sv_payment (sh_sys v)) o -> Order.Status o = StatusPaid -> pub = true ->
  exists p, payments (sv_payment (sh_sys v)) !! Order.ID o = Some p /\
    Payment.OrderID p = Order.ID o /\ Payment.Amount p = Order.Amount o /\
    (underway p \/ (exists m, m ∈ mails (w_notify (sh_worker v)) /\ receipt_for p m) \/
     (demo <> "" /\ Order.ID o = demo) \/ misled p).
Proof using Hv.
  intros Hb Hst Hpub. destruct (Hb Hst) as (p & Hp & Ha & Hs & He). exists p.
  destruct (led_row _ (con_ledger _ _ _ (ord_sys _ _ _ _ Hv)) _ _ Hp) as (E & _).
  destruct He as (e & Ho & Han & Hrep).
  { unfold announced. by rewrite Hs, Hpub. }
  split_and!; [done..|]. destruct Hrep as [Hin|(Href & e' & Hmis)].
  2: { do 3 right. destruct (sb_misread _ (led_broker _ (con_ledger _ _ _ (ord_sys _ _ _ _ Hv))) _ _ Hmis). by exists e, e'. }
  assert (message e ∈ messages (w_queue (sh_worker v))) as Hmsg
    by (rewrite (ord_queue _ _ _ _ Hv); by apply list_elem_of_fmap_2).
  unfold messages in Hmsg. rewrite !elem_of_app in Hmsg.
  destruct Hmsg as [Hw|[(d & Hd & Hin')%list_elem_of_fmap|[Hd|Hd]]].
  - left. exists e. auto.
  - left. exists e. split; [done|]. right. by exists d.
  - right. right. left. destruct (dead_lettered e Hin Hd) as [? Hdemo]. split; [done|congruence].
  - right. left. rewrite <-E in Hp. by eapply acknowledged_mailed.
Qed.
End Receipts.

(** The invariant, at every moment. *)
Lemma shop_in_order {Timestamp W : Type} (h : handler (shopE Timestamp) W)
    (obs : W -> shopview Timestamp) uuid_in tstz puuid_in ptstz
    `{!Refines h obs (shop_spec uuid_in tstz puuid_in ptstz)}
    timestamppb_New cache_on ttl demo MaxAttempts base decode_error (gs : list shop_goroutine) w sched :
  (forall s c, uuid_in s = Some c -> plain_text c) -> (forall s c, puuid_in s = Some c -> plain_text c) ->
  0 < MaxAttempts -> Forall worded_thread gs -> in_order uuid_in true demo (obs w) ->
  let s := run_schedule h sched (Pool
    (shop_thread timestamppb_New true cache_on ttl demo MaxAttempts base decode_error <$> gs) w false) in
  crashed s = false /\ in_order uuid_in true demo (obs (world s)).
Proof.
  intros Huuid Hpuuid HM Hgs Hw s.
  destruct (pool_gives (shop_spec uuid_in tstz puuid_in ptstz) (in_order uuid_in true demo) onward
    (may_shop uuid_in true demo) (Discipline0 := shop_discipline uuid_in tstz puuid_in ptstz true demo) h obs
    (fun _ _ _ => True) sched
    (shop_thread timestamppb_New true cache_on ttl demo MaxAttempts base decode_error <$> gs) w) as (Hc & Hv & _);
    [done|done| |done].
  intros i p Hp. apply list_lookup_fmap_Some in Hp as (g & -> & Hg). apply shop_thread_gives; [done..| |done].
  by eapply Forall_lookup_1.
Qed.

(** C2. The three services together, the payment service with its publisher.  Any
    requests to the order and payment services (with addresses in UTF-8, and orders named
    by plain ids where the payment service is asked directly; [worded_thread]), RPC
    handlers and notification workers, every interleaving of their calls, whatever fails
    or is lost, late or doubled on the network, and whatever connections workers lose:
    nothing panics; the worker's queue and what has left it hold exactly one message per
    event the broker took; every order that is Paid has an authorized payment of its
    amount, whose message is on its way or with a worker, or whose receipt (its order,
    payment, amount and status) has been mailed, with two exceptions: the demonstration
    order of the dead-letter queue, and a payment whose message the broker refused or
    lost while the publisher took the acknowledgement of another message for its own
    ([misled]); and every mail ever sent is the receipt of an authorized payment. *)
Theorem purchases_are_receipted {Timestamp W : Type} (h : handler (shopE Timestamp) W)
    (obs : W -> shopview Timestamp) uuid_in tstz puuid_in ptstz
    `{!Refines h obs (shop_spec uuid_in tstz puuid_in ptstz)}
    timestamppb_New cache_on ttl demo MaxAttempts base decode_error (gs : list shop_goroutine) w sched :
  (forall s c, uuid_in s = Some c -> plain_text c) -> (forall s c, puuid_in s = Some c -> plain_text c) ->
  0 < MaxAttempts -> Forall worded_thread gs -> in_order uuid_in true demo (obs w) ->
  let s := run_schedule h sched (Pool
    (shop_thread timestamppb_New true cache_on ttl demo MaxAttempts base decode_error <$> gs) w false) in
  let v := obs (world s) in
  let pays := payments (sv_payment (sh_sys v)) in
  let mailed := mails (w_notify (sh_worker v)) in
  crashed s = false /\
  messages (w_queue (sh_worker v)) ≡ₚ message <$> shop_events v /\
  (forall c o, orders (sv_order (sh_sys v)) !! c = Some o -> Order.Status o = StatusPaid ->
     exists p, pays !! Order.ID o = Some p /\ Payment.OrderID p = Order.ID o /\ Payment.Amount p = Order.Amount o /\
       (underway v p \/ (exists m, m ∈ mailed /\ receipt_for p m) \/ (demo <> "" /\ Order.ID o = demo) \/
        misled v p)) /\
  (forall m, m ∈ mailed -> exists p, pays !! Payment.OrderID p = Some p /\
     Payment.Status p = Payment.StatusAuthorized /\ receipt_for p m).
Proof.
  intros Huuid Hpuuid HM Hgs Hw s v pays mailed.
  destruct (shop_in_order h obs uuid_in tstz puuid_in ptstz timestamppb_New cache_on ttl demo MaxAttempts base
    decode_error gs w sched Huuid Hpuuid HM Hgs Hw) as [Hc Hv].
  split_and!; [done|apply (ord_queue _ _ _ _ Hv)| |].
  - intros c o Ho Hst. apply (paid_receipted uuid_in true demo v Hv o); [|done|done].
    exact (con_rows _ _ _ (ord_sys _ _ _ _ Hv) c o Ho).
  - intros m Hm. by eapply mail_payment.
Qed.

(** ** An executable shop *)

Record shopmem := ShopMem { shm_sys : sysmem; shm_worker : qmem }.

Definition shopmem_view (w : shopmem) : shopview Z :=
  ShopView (sysmem_view (shm_sys w)) (qmem_view (shm_worker w)).

(** What is new. *)
Definition newly {A} (before after : list A) : list A :=
  take (length after - length before) after.

Definition put_in_queue (bs : list string) (w : qmem) : qmem :=
  let q := qm_queue w in
  QMem (qm_notify w) (Queue (waiting q ++ bs) (unacked q) (dead q) (dropped q)) (qm_tag w).

Definition shopmem_calls : handler (shopE Z) shopmem := fun X e w =>
  match e with
  | OnSys e =>
      let '(r, s) := sysmem_calls X e (shm_sys w) in
      let taken m := br_taken (pv_broker (pm_view (sm_payment m))) in
      (r, ShopMem s (put_in_queue (bodies (newly (taken (shm_sys w)) (taken s))) (shm_worker w)))
  | OnWorker e => let '(r, q) := qmem_calls X e (shm_worker w) in (r, ShopMem (shm_sys w) q)
  end.

Lemma payment_taken uuid_in tstz X (e : PaymentPorts.E X) x v v' :
  PaymentUsecase.ports_spec uuid_in tstz X e x v v' ->
  exists l, br_taken (pv_broker v') = (l ++ br_taken (pv_broker v))%list.
Proof.
  assert (forall p v', saved uuid_in tstz p v v' -> br_taken (pv_broker v') = br_taken (pv_broker v)) as Hsv
    by (intros p v2 (? & _ & _ & _ & _ & _ & ->); done).
  intros Hs. destruct e as [| |X e| |]; [..|]; cycle 2.
  { destruct Hs as (b & Hs & ->). destruct e as [p e|e]; promise Hs; try (by exists []); [|by exists [(e, p)]].
    match goal with H : written _ _ _ _ |- _ => destruct H as [->|[->|[->| ->]]] end;
      [by exists [(e, p)]|by exists [(e, p)]|by exists []|by exists []]. }
  all: promise Hs; exists []; try done; by eapply Hsv.
Qed.

Lemma sys_taken {Timestamp} uuid_in tstz puuid_in ptstz X (e : sysE Timestamp X) x v v' :
  sys_spec uuid_in tstz puuid_in ptstz X e x v v' ->
  exists l, br_taken (pv_broker (sv_payment v')) = (l ++ br_taken (pv_broker (sv_payment v)))%list.
Proof.
  destruct e as [e|e|e]; intros (u & Hs & ->); [by exists []| |by exists []]. by eapply payment_taken.
Qed.

Lemma newly_app {A} (l es : list A) : newly es (l ++ es) = l.
Proof. unfold newly. rewrite length_app, Nat.add_sub. apply take_app_length. Qed.

#[export] Instance shopmem_refines :
  Refines shopmem_calls shopmem_view (shop_spec mem_uuid_in mem_tstz pmem_uuid_in id).
Proof.
  intros X e w. destruct e as [e|e]; cbn [shopmem_calls].
  - destruct (refines (obs := sysmem_view) (spec := sys_spec mem_uuid_in mem_tstz pmem_uuid_in id) X e (shm_sys w))
      as (x & s & Hx & Hs). rewrite Hx. do 2 eexists. split; [done|].
    destruct (sys_taken _ _ _ _ _ _ _ _ _ Hs) as [l Hl]. exists (sysmem_view s), l. split_and!; [done|done|].
    simpl in Hl. unfold shopmem_view, enqueue, put_in_queue. simpl. by rewrite Hl, newly_app.
  - destruct (refines (obs := qmem_view) (spec := worker_spec) X e (shm_worker w)) as (x & q & Hx & Hs).
    rewrite Hx. do 2 eexists. split; [done|]. by exists (qmem_view q).
Qed.

Definition shopmem_start (lost faults : list bool) : shopmem :=
  ShopMem (sysmem_start lost) (QMem (nmem_start faults) (Queue [] [] [] []) 1).

Lemma shopmem_in_order demo lost faults :
  in_order mem_uuid_in true demo (shopmem_view (shopmem_start lost faults)).
Proof.
  split; [apply sysmem_consistent| | |done].
  { split; [apply (con_orders _ _ _ (sysmem_consistent lost))|done|by intros e ?%elem_of_nil]. }
  split; [split| | |]; simpl.
  - by intros id ?%elem_of_empty.
  - intros pid H. by destruct (lookup_empty_Some (SentStore.key pid) sentValue H).
  - by intros m ?%elem_of_nil.
  - by intros b pl ?%elem_of_nil.
  - by intros b ?%elem_of_nil.
  - by intros b ?%elem_of_nil.
Qed.

(** An order, the RPC handler that charges it, and a worker. *)
Definition sell (faults : list bool) (sched : list nat) : pool (shopE Z) shopmem result :=
  run_schedule shopmem_calls sched (Pool
    (shop_thread (fun t => t) true true 60 "" 4 2000000000 sample_decode <$>
       [SysThread (OrderThread keyboard); SysThread RpcThread; WorkerThread 2])
    (shopmem_start [] faults) false).

(** The worker, whose first attempt at a mail fails, runs when the order is settled. *)
Definition purchase : pool (shopE Z) shopmem result :=
  sell [false; false; false; true] (prompt_schedule ++ repeat 2%nat 12).

Lemma purchases_are_receipted_witness :
  let v := shopmem_view (world purchase) in
  let pays := payments (sv_payment (sh_sys v)) in
  let mailed := mails (w_notify (sh_worker v)) in
  crashed purchase = false /\
  messages (w_queue (sh_worker v)) ≡ₚ message <$> shop_events v /\
  (forall c o, orders (sv_order (sh_sys v)) !! c = Some o -> Order.Status o = StatusPaid ->
     exists p, pays !! Order.ID o = Some p /\ Payment.OrderID p = Order.ID o /\ Payment.Amount p = Order.Amount o /\
       (underway v p \/ (exists m, m ∈ mailed /\ receipt_for p m) \/ ("" <> "" /\ Order.ID o = "") \/
        misled v p)) /\
  (forall m, m ∈ mailed -> exists p, pays !! Payment.OrderID p = Some p /\
     Payment.Status p = Payment.StatusAuthorized /\ receipt_for p m).
Proof.
  apply (purchases_are_receipted shopmem_calls shopmem_view mem_uuid_in mem_tstz pmem_uuid_in id (fun t => t) true 60 ""
    4 2000000000 sample_decode [SysThread (OrderThread keyboard); SysThread RpcThread; WorkerThread 2]);
    [exact mem_uuid_plain|exact pmem_uuid_plain|done|by repeat constructor|apply shopmem_in_order].
Defined.

(** The receipt of the purchase. *)
Example keyboard_receipted :
  mails (nm_view (qm_notify (shm_worker (world purchase)))) =
    [SendInput.mk "ann@example.com" "0a1b" "p-1" 500 "Authorized"] /\
  qm_queue (shm_worker (world purchase)) =
    Queue [] [] [] [message (PaymentCompletedEvent.mk "p-1" "p-1" "0a1b" 500 "ann@example.com" "Authorized")].
Proof. vm_compute. done. Qed.

(** The exception [misled], in a run: a payment asked for directly (order 77ab) is
    announced, but its publisher stops waiting before the confirmation comes; the broker
    refuses the message of the keyboard's payment, whose publisher takes the confirmation
    that is still there.  The order is stored as Paid, and the only receipt that is ever
    mailed is that of 77ab. *)
Definition misled_purchase : pool (shopE Z) shopmem result :=
  let sys := SysMem (mem_start [] [] ["0a1b"])
    (PMem (PView ∅ no_broker) [false; false; false; true] [false; true] ["p-1"; "t-1"; "p-2"; "t-2"] 0)
    ∅ [] 0 0 [] in
  run_schedule shopmem_calls (repeat 3 7 ++ prompt_schedule ++ repeat 2 24)%list%nat (Pool
    (shop_thread (fun t => t) true true 60 "" 4 2000000000 sample_decode <$>
       [SysThread (OrderThread keyboard); SysThread RpcThread; WorkerThread 2;
        SysThread (PaymentThread (ReqAuthorize (AuthorizePaymentInput.mk "77ab" 700 "bob@example.com")))])
    (ShopMem sys (QMem (nmem_start []) (Queue [] [] [] []) 1)) false).

Theorem paid_without_receipt :
  let v := shopmem_view (world misled_purchase) in
  Order.Status <$> (orders (sv_order (sh_sys v)) !! "0a1b") = Some StatusPaid /\
  Payment.Status <$> (payments (sv_payment (sh_sys v)) !! "0a1b") = Some Payment.StatusAuthorized /\
  PaymentCompletedEvent.OrderID <$> shop_events v = ["77ab"] /\
  w_queue (sh_worker v) = Queue [] [] [] (message <$> shop_events v) /\
  SendInput.OrderID <$> mails (w_notify (sh_worker v)) = ["77ab"].
Proof. vm_compute. done. Qed.
