(* ===== verification/Watching.v ===== *)
(** * The shop as its subscribers see it

    The update stream of the order service (OrderStream) beside everything that
    happens in the shop (Shop): the stream's server reads the table that the use cases
    write. *)

From S2P Require Import Prelude Goroutines GoLib Json GoTime Proto OrderPorts OrderUsecase OrderUsecaseFacts OrderMem.
From S2P Require Import OrderStream OrderStreamFacts OrderStreamProps.
From S2P Require Import PaymentClients Publisher PaymentUsecase PaymentProps System Notify NotifyProps Worker Words Shop.
Import OrderServer.
#[local] Existing Instance Order.eq_dec.

(** A step of the shop, or something that happens at the stream's server. *)
Inductive moment : Type :=
| ShopStep (i : nat)
| StreamStep (ev : event luck arrival).

Definition shop_schedule (ms : list moment) : list nat :=
  omap (fun m => match m with ShopStep i => Some i | StreamStep _ => None end) ms.

(** The rows that a step has written. *)
Definition changed_rows (t t' : gmap string Order.t) : list Order.t :=
  (map_to_list (filter (fun p => t !! p.1 <> Some p.2) t')).*2.

(** ** The table *)

Definition write_rows (rows : list Order.t) (t : gmap string Order.t) : gmap string Order.t :=
  foldl (fun t o => <[Order.ID o := o]> t) t rows.

Lemma write_rows_lookup rows t c :
  NoDup (Order.ID <$> rows) ->
  (forall o, o ∈ rows -> Order.ID o = c -> write_rows rows t !! c = Some o) /\
  (c ∉ Order.ID <$> rows -> write_rows rows t !! c = t !! c).
Proof.
  revert t; induction rows as [|r rows IH]; intros t Hnd; [split; [by intros o ?%elem_of_nil|done]|].
  rewrite fmap_cons, NoDup_cons in Hnd. destruct Hnd as [Hr Hnd]. cbn [write_rows foldl]. destruct (IH (<[Order.ID r := r]> t) Hnd) as [H1 H2].
  split.
  - intros o [->|Ho]%elem_of_cons Hc; [|by apply H1]. subst c. etrans; [by apply H2|apply lookup_insert_eq].
  - rewrite fmap_cons, not_elem_of_cons. intros [Hne Hc]. etrans; [by apply H2|]. by apply lookup_insert_ne.
Qed.

Lemma elem_of_changed t t' o :
  (forall c o, t' !! c = Some o -> Order.ID o = c) ->
  o ∈ changed_rows t t' <-> t' !! Order.ID o = Some o /\ t !! Order.ID o <> Some o.
Proof.
  intros Hkeys. unfold changed_rows. rewrite list_elem_of_fmap. split.
  - intros ([c o'] & -> & Hin%elem_of_map_to_list). apply map_lookup_filter_Some in Hin as [Hl Hn]. simpl in *.
    by rewrite (Hkeys c o' Hl).
  - intros [Hl Hn]. exists (Order.ID o, o). split; [done|]. apply elem_of_map_to_list, map_lookup_filter_Some. done.
Qed.

Lemma changed_ids t t' :
  (forall c o, t' !! c = Some o -> Order.ID o = c) -> NoDup (Order.ID <$> changed_rows t t').
Proof.
  intros Hkeys. unfold changed_rows. set (m := filter (fun p : string * Order.t => t !! p.1 <> Some p.2) t').
  assert (Order.ID <$> (map_to_list m).*2 = (map_to_list m).*1) as ->; [|apply NoDup_fst_map_to_list].
  rewrite <-list_fmap_compose. apply list_fmap_ext. intros i [c o] Hi%list_elem_of_lookup_2%elem_of_map_to_list.
  apply map_lookup_filter_Some in Hi as [Hl _]. simpl. by apply Hkeys.
Qed.

(** Written over the old table, they give the new one. *)
Lemma write_changed t t' :
  (forall c o, t' !! c = Some o -> Order.ID o = c) -> (forall c, is_Some (t !! c) -> is_Some (t' !! c)) ->
  write_rows (changed_rows t t') t = t'.
Proof.
  intros Hkeys Hdom. apply map_eq. intros c.
  destruct (write_rows_lookup (changed_rows t t') t c (changed_ids t t' Hkeys)) as [H1 H2].
  destruct (t' !! c) as [o|] eqn:Hc.
  - pose proof (Hkeys c o Hc) as Hid. destruct (decide (t !! c = Some o)) as [Ht|Ht].
    + rewrite H2; [done|]. intros (o' & E & Hin)%list_elem_of_fmap. apply (elem_of_changed t t' o' Hkeys) in Hin as [Hl Hn].
      rewrite <-E in Hl, Hn. congruence.
    + apply H1; [|done]. apply elem_of_changed; [done|]. by rewrite Hid.
  - rewrite H2.
    + apply eq_None_not_Some. intros [o' Ho']%Hdom. congruence.
    + intros (o' & E & Hin)%list_elem_of_fmap. apply (elem_of_changed t t' o' Hkeys) in Hin as [Hl _].
      rewrite <-E in Hl. congruence.
Qed.

(** ** The server's tables *)

Section Tables.
Context {Timestamp : Type} (timestamppb_New : Z -> Timestamp) (uuid_in : string -> option string) (grow : nat -> nat).
Notation state := (@state Timestamp).
Notation server := (gpool (streamE Timestamp) state (option error)).
Notation serve := (serve timestamppb_New uuid_in grow).

Lemma exec_tables X (e : streamE Timestamp X) l m x m' :
  OrderServer.exec uuid_in grow e l m = Answer x m' -> tables m' = tables m.
Proof. destruct e; simpl; intros; repeat case_match; simplify_eq; done. Qed.

(** What holds of the rows at the start and of those written holds of every row that
    was ever there. *)
Section Rows.
Context (P : Order.t -> Prop).
Definition rows_hold (m : state) : Prop := forall t c o, t ∈ tables m -> t !! c = Some o -> P o.

Definition only_rows (ev : event luck arrival) : Prop :=
  match ev with Arrive (RowWritten o) => P o | _ => True end.

Lemma arrive_rows a m : only_rows (Arrive a) -> rows_hold m -> rows_hold (fst (arrive timestamppb_New a m)).
Proof.
  intros Ha Hm. destruct a as [req|o| |]; try exact Hm. intros t c o' [->|Ht]%elem_of_cons; [|by eapply Hm].
  intros [[<- <-]|[_ Hl]]%lookup_insert_Some; [done|]. unfold orders_now in Hl.
  destruct (tables m) as [|t ts] eqn:Htab; simpl in Hl; [by apply lookup_empty_Some in Hl|].
  eapply Hm; [|exact Hl]. rewrite Htab. by left.
Qed.

Lemma serve_rows evs (s : server) : Forall only_rows evs -> rows_hold (memory s) -> rows_hold (memory (serve evs s)).
Proof.
  intros Hevs. revert s. induction Hevs as [|ev evs Hev _ IH]; intros s Hs; [done|]. apply IH. unfold go_step.
  destruct (crash s); [done|]. destruct ev as [i l|a].
  - destruct (goroutines s !! i) as [[a|msg|X e k]|]; try done.
    destruct (OrderServer.exec uuid_in grow e l (memory s)) as [x m'| |msg] eqn:Hx; try done.
    simpl. unfold rows_hold. by rewrite (exec_tables _ _ _ _ _ _ Hx).
  - pose proof (arrive_rows a (memory s) Hev Hs). by destruct (arrive timestamppb_New a (memory s)).
Qed.
End Rows.

(** The current table. *)
Definition not_a_write (ev : event luck arrival) : Prop :=
  match ev with Arrive (RowWritten _) => False | _ => True end.

Lemma step_table ev (s : server) : not_a_write ev -> orders_now (memory (serve [ev] s)) = orders_now (memory s).
Proof.
  intros Hev. unfold OrderServer.serve, play. cbn [fold_left]. unfold go_step, orders_now.
  destruct (crash s); [done|]. destruct ev as [i l|a]; [|by destruct a].
  destruct (goroutines s !! i) as [[a|msg|X e k]|]; try done.
  destruct (OrderServer.exec uuid_in grow e l (memory s)) as [x m'| |msg] eqn:Hx; try done.
  simpl. by rewrite (exec_tables _ _ _ _ _ _ Hx).
Qed.

Lemma write_table rows (s : server) :
  crash s = None ->
  crash (serve ((fun o => Arrive (RowWritten o)) <$> rows) s) = None /\
  orders_now (memory (serve ((fun o => Arrive (RowWritten o)) <$> rows) s)) = write_rows rows (orders_now (memory s)).
Proof.
  revert s; induction rows as [|o rows IH]; intros s Hc; [done|]. rewrite fmap_cons. cbn [write_rows foldl].
  change (serve (Arrive (RowWritten o) :: ((fun o => Arrive (RowWritten o)) <$> rows)) s) with
    (serve ((fun o => Arrive (RowWritten o)) <$> rows) (serve [Arrive (RowWritten o)] s)).
  destruct (IH (serve [Arrive (RowWritten o)] s)) as [H1 H2].
  { unfold OrderServer.serve, play. cbn [fold_left]. unfold go_step. by rewrite Hc. }
  split; [exact H1|]. rewrite H2. f_equal. unfold OrderServer.serve, play. cbn [fold_left]. unfold go_step. by rewrite Hc.
Qed.
End Tables.

(** ** The shop and its stream *)

Section Watching.
Context {Timestamp W : Type} (h : handler (shopE Timestamp) W) (obs : W -> shopview Timestamp).
Context (uuid_in : string -> option string) (tstz : Z -> Z) (puuid_in : string -> option string) (ptstz : Z -> Z).
Context `{!Refines h obs (shop_spec uuid_in tstz puuid_in ptstz)}.
Context (demo : string) (timestamppb_New : Z -> Timestamp) (grow : nat -> nat).
Notation spool := (pool (shopE Timestamp) W result).
Notation serve := (serve timestamppb_New uuid_in grow).
Notation sgives := (gives (shop_spec uuid_in tstz puuid_in ptstz) (in_order uuid_in true demo) onward (may_shop uuid_in true demo)).

Definition table (s : spool) : gmap string Order.t := orders (sv_order (sh_sys (obs (world s)))).

(** What the stream's server sees of it all. *)
Fixpoint stream_events (ms : list moment) (s : spool) : list (event luck arrival) :=
  match ms with
  | [] => []
  | ShopStep i :: ms =>
      let s' := pool_step h i s in
      ((fun o => Arrive (RowWritten o)) <$> changed_rows (table s) (table s')) ++ stream_events ms s'
  | StreamStep ev :: ms => ev :: stream_events ms s
  end%list.

(** The stream's own moments do not write. *)
Definition proper (m : moment) : Prop :=
  match m with StreamStep ev => not_a_write ev | ShopStep _ => True end.

Record disciplined (s : spool) : Prop := {
  dsc_alive : crashed s = false;
  dsc_order : in_order uuid_in true demo (obs (world s));
  dsc_threads : forall i p, threads s !! i = Some p -> sgives p (fun _ _ => True) (obs (world s))
}.

#[local] Existing Instance shop_discipline.

Lemma step_disciplined i s :
  disciplined s -> disciplined (pool_step h i s) /\ onward (obs (world s)) (obs (world (pool_step h i s))).
Proof.
  intros [Hc Hv Ht]. destruct s as [ps w c]. simpl in Hc. subst c.
  destruct (pool_gives (shop_spec uuid_in tstz puuid_in ptstz) (in_order uuid_in true demo) onward
    (may_shop uuid_in true demo) h obs (fun _ _ _ => True) [i] ps w) as (Hc' & Hv' & Hf & Ht'); [done|exact Hv|exact Ht|].
  by split; [split|].
Qed.

Lemma table_keys s c o : disciplined s -> table s !! c = Some o -> Order.ID o = c.
Proof. intros Hs Ho. by destruct (int_row _ _ (con_orders _ _ _ (ord_sys _ _ _ _ (dsc_order s Hs))) _ _ Ho) as (? & _). Qed.

Lemma table_grows s i c : disciplined s -> is_Some (table s !! c) -> is_Some (table (pool_step h i s) !! c).
Proof.
  intros Hs [o Ho]. destruct (step_disciplined i s Hs) as [_ [Hf _]].
  destruct (fwd_rows _ _ Hf c (Order.Amount o)) as (o' & Ho' & _); [by exists o|]. by exists o'.
Qed.

Notation final ms s := (run_schedule h (shop_schedule ms) s).

(** Every row that was written is backed by the payments at the end. *)
Lemma events_backed ms s :
  disciplined s -> Forall proper ms ->
  disciplined (final ms s) /\ onward (obs (world s)) (obs (world (final ms s))) /\
  Forall (only_rows (backed true (sv_payment (sh_sys (obs (world (final ms s))))))) (stream_events ms s).
Proof.
  intros Hs Hms. revert s Hs. induction Hms as [|m ms Hm _ IH]; intros s Hs.
  { split_and!; [done|apply onward_refl|constructor]. }
  destruct m as [i|ev]; cbn [stream_events].
  - destruct (step_disciplined i s Hs) as [Hs1 Hf1]. destruct (IH _ Hs1) as (Hs2 & Hf2 & Hev).
    change (final (ShopStep i :: ms) s) with (final ms (pool_step h i s)).
    split_and!; [done|by eapply onward_trans|]. apply Forall_app. split; [|exact Hev].
    apply Forall_fmap, Forall_forall. intros o Ho. apply elem_of_changed in Ho as [Ho _]; [|intros c r; by apply table_keys].
    eapply backed_forward; [apply Hf2|]. exact (con_rows _ _ _ (ord_sys _ _ _ _ (dsc_order _ Hs1)) _ _ Ho).
  - destruct (IH s Hs) as (Hs2 & Hf2 & Hev). split_and!; [done|done|]. constructor; [|exact Hev].
    simpl in Hm. destruct ev as [|[]]; done.
Qed.

Lemma serve_app evs1 evs2 (sv : gpool (streamE Timestamp) (@state Timestamp) (option error)) :
  serve (evs1 ++ evs2)%list sv = serve evs2 (serve evs1 sv).
Proof. apply play_app. Qed.

(** A crash is for good. *)
Lemma crash_stays evs (sv : gpool (streamE Timestamp) (@state Timestamp) (option error)) :
  crash (serve evs sv) = None -> crash sv = None.
Proof.
  revert sv; induction evs as [|ev evs IH]; intros sv; [done|]. intros H%IH. unfold go_step in H.
  destruct (crash sv) eqn:E; [|done]. by rewrite E in H.
Qed.

(** The server reads the table that the shop writes. *)
Lemma same_table ms s sv :
  disciplined s -> Forall proper ms -> orders_now (memory sv) = table s ->
  crash (serve (stream_events ms s) sv) = None ->
  orders_now (memory (serve (stream_events ms s) sv)) = table (final ms s).
Proof.
  intros Hs Hms. revert s sv Hs. induction Hms as [|m ms Hm _ IH]; intros s sv Hs Ht Hc; [done|].
  destruct m as [i|ev]; cbn [stream_events] in *.
  - destruct (step_disciplined i s Hs) as [Hs1 _]. rewrite serve_app in Hc |- *.
    change (final (ShopStep i :: ms) s) with (final ms (pool_step h i s)).
    destruct (write_table timestamppb_New uuid_in grow (changed_rows (table s) (table (pool_step h i s))) sv) as [_ Hw];
      [by do 2 apply crash_stays in Hc|].
    apply IH; [done| |done]. rewrite Hw, Ht. apply write_changed; [intros c o; by apply table_keys|].
    intros c. by apply table_grows.
  - change (ev :: stream_events ms s) with ([ev] ++ stream_events ms s)%list in *. rewrite serve_app in Hc |- *.
    change (final (StreamStep ev :: ms) s) with (final ms s). apply IH; [done| |done].
    etrans; [|exact Ht]. by apply step_table.
Qed.
End Watching.

(** C4. What a subscriber is told is backed by money.  The shop, the payment service
    with its publisher, with any requests (worded as in [purchases_are_receipted]), RPC
    handlers and workers, and the stream server of the order service reading the orders
    it writes, with any subscribers, in every interleaving: until the server crashes its
    table is the shop's, and whenever a client is told that an order is Paid, it is the
    order the client asked for, the payment service holds an authorized payment of the
    amount it is told, and the receipt is on its way to a worker, with one, or mailed;
    or the order is the demonstration's, or the broker refused or lost the payment's
    message while the publisher took the acknowledgement of another one for its own. *)
Theorem subscribers_told_of_real_payments {Timestamp W : Type} (h : handler (shopE Timestamp) W)
    (obs : W -> shopview Timestamp) uuid_in tstz puuid_in ptstz
    `{!Refines h obs (shop_spec uuid_in tstz puuid_in ptstz)}
    timestamppb_New cache_on ttl demo MaxAttempts base decode_error grow ticks
    (gs : list shop_goroutine) w (ms : list moment) :
  (forall s c, uuid_in s = Some c -> plain_text c) -> (forall s c, puuid_in s = Some c -> plain_text c) ->
  0 < MaxAttempts -> fits grow -> Forall worded_thread gs -> in_order uuid_in true demo (obs w) -> Forall proper ms ->
  let start := Pool (shop_thread timestamppb_New true cache_on ttl demo MaxAttempts base decode_error <$> gs) w false in
  let s := run_schedule h (shop_schedule ms) start in
  let v := obs (world s) in
  let srv := serve timestamppb_New uuid_in grow (stream_events h obs ms start)
               (NewOrderServer timestamppb_New ticks (table obs start)) in
  (crash srv = None -> orders_now (memory srv) = table obs s) /\
  (forall st u, (st, u) ∈ sent (memory srv) -> OrderStatusUpdate.Status u = StatusPaid ->
     (exists id, streams (memory srv) !! st = Some id /\ uuid_in id = Some (OrderStatusUpdate.OrderId u)) /\
     exists p, payments (sv_payment (sh_sys v)) !! OrderStatusUpdate.OrderId u = Some p /\
       Payment.Amount p = OrderStatusUpdate.Amount u /\ 0 < OrderStatusUpdate.Amount u <= 100000 /\
       (underway v p \/ (exists m, m ∈ mails (w_notify (sh_worker v)) /\ receipt_for p m) \/
        (demo <> "" /\ OrderStatusUpdate.OrderId u = demo) \/ misled v p)).
Proof.
  intros Huuid Hpuuid HM Hfits Hgs Hw Hms start s v srv.
  assert (disciplined obs uuid_in tstz puuid_in ptstz demo start) as Hstart.
  { split; [done|exact Hw|]. intros i p Hp. apply list_lookup_fmap_Some in Hp as (g & -> & Hg).
    apply shop_thread_gives; [done..| |done]. by eapply Forall_lookup_1. }
  destruct (events_backed h obs uuid_in tstz puuid_in ptstz demo ms start Hstart Hms) as (Hs & Hf & Hev).
  fold s in Hs, Hf, Hev. fold v in Hf, Hev.
  split; [by apply (same_table h obs uuid_in tstz puuid_in ptstz demo timestamppb_New grow ms start)|].
  pose proof (con_rows _ _ _ (ord_sys _ _ _ _ (dsc_order _ _ _ _ _ _ _ Hstart))) as Hrows0.
  assert (rows_hold (backed true (sv_payment (sh_sys v))) (memory srv)) as Hrows.
  { apply serve_rows; [exact Hev|]. intros t c o ->%list_elem_of_singleton Ho.
    eapply backed_forward; [apply Hf|]. exact (Hrows0 c o Ho). }
  intros st u Hu Hpaid.
  destruct (serve_good timestamppb_New uuid_in grow Hfits (stream_events h obs ms start) ticks (table obs start))
    as [[_ _ Hsent _] _ _].
  { intros c o. by apply (table_keys obs uuid_in tstz puuid_in ptstz demo). }
  destruct (Hsent st u Hu) as (id & o & now & Hid & (t & Ho & Hin & Hl) & ->). simpl in *.
  split; [by exists id|]. pose proof (Hrows t _ o Hin Hl) as Hb.
  destruct (paid_receipted uuid_in true demo v (dsc_order _ _ _ _ _ _ _ Hs) o Hb Hpaid eq_refl)
    as (p & Hp & _ & Ha & Hr).
  exists p. do 2 (split; [done|]). split; [|done].
  eapply charged_ceiling; [apply (con_ledger _ _ _ (ord_sys _ _ _ _ (dsc_order _ _ _ _ _ _ _ Hs)))|by apply Hb].
Qed.

(** ** An executable shop with a subscriber *)

(** The goroutines of [sell], and their start. *)
Definition sellers : list shop_goroutine := [SysThread (OrderThread keyboard); SysThread RpcThread; WorkerThread 2].
Definition sell_start : pool (shopE Z) shopmem result :=
  Pool (shop_thread (fun t => t) true true 60 "" 4 2000000000 sample_decode <$> sellers) (shopmem_start [] []) false.

Definition shop_runs (sched : list nat) : list moment := ShopStep <$> sched.
Definition stream_runs (i n : nat) : list moment := StreamStep <$> step i n.

(** The order is placed; a client subscribes and the server polls; the order is
    charged; the server polls again, and tells the client; a worker mails the receipt. *)
Definition watched (before after : list nat) : list moment :=
  (shop_runs before ++ (StreamStep <$> subscribe) ++ stream_runs 1 4 ++ stream_runs 0 3 ++
   shop_runs after ++ stream_runs 0 9 ++ stream_runs 2 9)%list.

Definition watching (ms : list moment) : gpool (streamE Z) state (option error) :=
  serve id mem_uuid_in doubling (stream_events shopmem_calls shopmem_view ms sell_start)
    (NewOrderServer id 5 (table shopmem_view sell_start)).

Definition keyboard_watched : list moment := watched [0; 0]%nat (drop 2 prompt_schedule ++ repeat 2%nat 12).
Definition sold_watched : pool (shopE Z) shopmem result :=
  run_schedule shopmem_calls (shop_schedule keyboard_watched) sell_start.

Lemma subscribers_told_of_real_payments_witness :
  let v := shopmem_view (world sold_watched) in
  let srv := watching keyboard_watched in
  (crash srv = None -> orders_now (memory srv) = table shopmem_view sold_watched) /\
  (forall st u, (st, u) ∈ sent (memory srv) -> OrderStatusUpdate.Status u = StatusPaid ->
     (exists id, streams (memory srv) !! st = Some id /\ mem_uuid_in id = Some (OrderStatusUpdate.OrderId u)) /\
     exists p, payments (sv_payment (sh_sys v)) !! OrderStatusUpdate.OrderId u = Some p /\
       Payment.Amount p = OrderStatusUpdate.Amount u /\ 0 < OrderStatusUpdate.Amount u <= 100000 /\
       (underway v p \/ (exists m, m ∈ mails (w_notify (sh_worker v)) /\ receipt_for p m) \/
        ("" <> "" /\ OrderStatusUpdate.OrderId u = "") \/ misled v p)).
Proof.
  apply (subscribers_told_of_real_payments shopmem_calls shopmem_view mem_uuid_in mem_tstz pmem_uuid_in id id true 60 ""
    4 2000000000 sample_decode doubling 5 sellers (shopmem_start [] []) keyboard_watched);
    [exact mem_uuid_plain|exact pmem_uuid_plain|done|apply doubling_fits|by repeat constructor|apply shopmem_in_order|].
  vm_compute. repeat (constructor; [exact Logic.I|]). constructor.
Defined.

(** The client is told both statuses, and the mail is sent. *)
Example keyboard_told :
  OrderStreamProps.told 0 (watching keyboard_watched) = [StatusPaid; StatusPending] /\
  mails (nm_view (qm_notify (shm_worker (world sold_watched)))) =
    [SendInput.mk "ann@example.com" "0a1b" "p-1" 500 "Authorized"].
Proof. vm_compute. done. Qed.
