(* ===== verification/Recovery.v ===== *)
(** * Once the failures stop

    Shop says where the receipt of a Paid order can be, whatever fails.  Here the
    failures stop: one worker whose calls succeed, running after anything that has
    happened in the shop, empties the queue and waits for more, and every receipt that
    was waiting is mailed. *)

From S2P Require Import Prelude GoLib Json OrderPorts OrderUsecase OrderMem.
From S2P Require Import PaymentClients Publisher PaymentUsecase PaymentProps PaymentTransport System.
From S2P Require Import Notify NotifyProps Worker Messaging Words Shop.

(** ** Calls that succeed *)

(** Answers that are not failures; an event that is already on record cannot be
    recorded again. *)
Definition answers_well {X} (e : notifyE X) : X -> nview -> Prop :=
  match e in notifyE X return X -> nview -> Prop with
  | SelectProcessed _ => fun r _ => r = None \/ r = Some sql_ErrNoRows
  | InsertProcessed id => fun r v => id ∉ processed v -> r = None
  | NRedisGet _ => fun r _ => snd r = None \/ snd r = Some redis_Nil
  | NRedisSet _ _ | SendPaymentReceipt _ | After _ => fun r _ => r = None
  end.

(** A queue that is not empty has a message for the worker (on an empty one it waits:
    nothing is promised), and the broker gets its answers. *)
Definition serves {X} (e : queueE X) : X -> queue -> queue -> Prop :=
  match e in queueE X return X -> queue -> queue -> Prop with
  | Receive => fun r q q' => waiting q <> [] -> is_Some r
  | AckDelivery d | NackDelivery d _ => fun _ q q' =>
      d ∈ unacked q -> S (length (unacked q')) = length (unacked q)
  end.

Definition calm_notify : interface notifyE nview := fun X e x v v' =>
  notify_spec X e x v v' /\ answers_well e x v.

#[local] Arguments calm_notify X e x v v' /.

Definition calm_worker : interface workerE wview := fun X e x v v' =>
  worker_spec X e x v v' /\
  match e with
  | OnNotify e => answers_well e x (w_notify v)
  | OnQueue e => serves e x (w_queue v) (w_queue v')
  end.

Section Calm.
Context (demo : string) (MaxAttempts base : Z) (decode_error : string -> error).
Context (some_attempt : 0 < MaxAttempts).

(** Nothing is put back into the queue. *)
Definition for_good (x : Processor.disposition) : Prop := x <> Processor.Nack true.

Lemma calm_send pl v :
  TrimSpace (Payload.EventID pl) <> "" -> Payload.EventID pl ∉ processed v ->
  holds calm_notify (Processor.send MaxAttempts base pl) (fun r _ => for_good (Processor.dispose r)) v.
Proof using some_attempt.
  intros Hid Hnew. unfold Processor.send, ProcessedStore.RecordProcessed, SentStore.MarkSent.
  rewrite payment_id_trimmed, (bool_decide_false (Payload.payment_id pl = "")) by (by apply payment_id_nonempty).
  case_bool_decide; [by apply holds_ret|].
  destruct (Z.to_nat MaxAttempts) as [|n] eqn:Hn; [lia|]. cbn [Processor.attempts].
  hrun; simpl in *; try done; simplify_eq.
  all: match goal with H : _ -> Some _ = None |- _ => by specialize (H Hnew) end.
Qed.

Lemma calm_handle body v :
  holds calm_notify (Processor.handle demo MaxAttempts base decode_error body) (fun x _ => for_good x) v.
Proof using some_attempt.
  unfold Processor.handle. apply holds_bind.
  eapply holds_mono with (Q := fun r _ => for_good (Processor.dispose r)); [|intros; by apply holds_ret].
  unfold Processor.Handle, ProcessedStore.WasProcessed, SentStore.AlreadySent.
  destruct (Payload.Unmarshal body) as [pl|]; [|by apply holds_ret].
  case_bool_decide as Hid; [by apply holds_ret|].
  rewrite payment_id_trimmed, (bool_decide_false (Payload.payment_id pl = "")) by (by apply payment_id_nonempty).
  rewrite (bool_decide_false (Payload.EventID pl = "")) by (intros E; by rewrite E in Hid).
  hrun; simplify_eq/=; try done; by apply calm_send.
Qed.

(** [n] rounds of the loop, and whether each of them had a delivery. *)
Fixpoint takes (n : nat) : prog workerE bool :=
  match n with
  | O => mret true
  | S n =>
      d ← call (OnQueue Receive);
      match d with
      | None => mret false
      | Some d => _ ← Consumer.handle demo MaxAttempts base decode_error d; takes n
      end
  end.

(** Then the worker is at the head of its loop again. *)
Lemma run_consume {W} (h : handler workerE W) n m w :
  run h (Consumer.consume demo MaxAttempts base decode_error (n + m)) w =
  match run h (takes n) w with
  | (Done true, w') => run h (Consumer.consume demo MaxAttempts base decode_error m) w'
  | (Done false, w') => (Done tt, w')
  | (Panicked msg, w') => (Panicked msg, w')
  end.
Proof.
  revert w; induction n as [|n IH]; intros w; [done|]. cbn [takes Consumer.consume Nat.add].
  rewrite !run_call_bind. destruct (h _ _ w) as [[[d|]|msg] w1]; try done.
  unfold mbind, prog_mbind. rewrite !run_bind. destruct (run h (Consumer.handle _ _ _ _ d) w1) as [[u|msg] w2]; [apply IH|done].
Qed.

(** As many rounds as messages wait: the worker takes each, and answers it for good. *)
Lemma calm_takes n v :
  length (waiting (w_queue v)) = n ->
  holds calm_worker (takes n)
    (fun b v' => b = true /\ waiting (w_queue v') = [] /\ unacked (w_queue v') ≡ₚ unacked (w_queue v)) v.
Proof using some_attempt.
  revert v; induction n as [|n IH]; intros v Hn; cbn [takes].
  { apply holds_ret. split_and!; [done|by apply length_zero_iff_nil|done]. }
  apply holds_bind, holds_call. intros x v1 [[Hs Hw] Hc]; simpl in Hc.
  destruct Hc as [d ->]; [by intros E; rewrite E in Hn|].
  destruct Hs as [[? _]|(d' & l & [= <-] & Hl & Hq)]; [done|].
  apply holds_bind. unfold Consumer.handle. apply holds_bind.
  apply (holds_lift (fun X => OnNotify) w_notify (fun n v => WView n (w_queue v)) calm_notify calm_worker
    ltac:(by intros []) ltac:(done) ltac:(done)) with (Q := fun x _ => for_good x).
  { intros X e x u u' [[He Hu] Ha]. exists (w_notify u'). split; [by split|]. rewrite <-Hu. by destruct u'. }
  { apply calm_handle. }
  intros x nt Hx. set (v2 := WView nt (w_queue v1)).
  assert (d ∈ unacked (w_queue v2)) as Hd by (simpl; rewrite Hq; left).
  assert (length l = n)%nat as Hln by (apply Permutation_length in Hl; simpl in Hl; lia).
  assert (forall q3 u v3, w_queue v3 = q3 -> waiting q3 = l -> unacked q3 = u -> unacked (w_queue v2) ≡ₚ d :: u ->
    holds calm_worker (takes n)
      (fun b v' => b = true /\ waiting (w_queue v') = [] /\ unacked (w_queue v') ≡ₚ unacked (w_queue v)) v3) as Hnext.
  { intros q3 u v3 <- Hl3 <- Hu. simpl in Hu. rewrite Hq in Hu. simpl in Hu. apply (inj (cons d)) in Hu.
    eapply holds_mono; [apply IH; by rewrite Hl3|]. intros ? v' (-> & ? & E). split_and!; [done..|]. by rewrite E. }
  unfold Consumer.answer. destruct x as [|[]]; [| done|];
    apply holds_bind, holds_call; intros r v3 [[Hs Hn3] Hserved]; apply holds_ret;
    (destruct Hs as [E|(u & Hu & E)]; [exfalso; specialize (Hserved Hd); rewrite E in Hserved; lia|]);
    (eapply Hnext; [exact E|simpl; by rewrite Hq|done|exact Hu]).
Qed.
End Calm.

(** ** In the shop *)

Section CalmShop.
Context {Timestamp : Type} (uuid_in : string -> option string) (tstz : Z -> Z).
Context (puuid_in : string -> option string) (ptstz : Z -> Z) (demo : string).
Notation shop_spec := (shop_spec (Timestamp := Timestamp) uuid_in tstz puuid_in ptstz).

(** The shop, when the calls of workers succeed. *)
Definition calm_shop : interface (shopE Timestamp) (shopview Timestamp) := fun X e x v v' =>
  shop_spec X e x v v' /\
  match e with
  | OnSys _ => True
  | OnWorker e => calm_worker X e x (sh_worker v) (sh_worker v')
  end.

(** The payment's message is with a worker that has not answered yet. *)
Definition in_hand (v : shopview Timestamp) (p : Payment.t) : Prop :=
  exists e d, announces p e /\ d ∈ unacked (w_queue (sh_worker v)) /\ body d = message e.

Definition receipt_mailed (v : shopview Timestamp) (p : Payment.t) : Prop :=
  exists m, m ∈ mails (w_notify (sh_worker v)) /\ receipt_for p m.

(** The shop's handler as the worker sees it. *)
Definition worker_side {W} (h : handler (shopE Timestamp) W) : handler workerE W := fun X e w => h X (OnWorker e) w.

Lemma run_worker {W} (h : handler (shopE Timestamp) W) (timestamppb_New : Z -> Timestamp) pub cache_on ttl MaxAttempts base decode_error n w :
  run h (shop_thread timestamppb_New pub cache_on ttl demo MaxAttempts base decode_error (WorkerThread n)) w =
  match run (worker_side h) (Consumer.consume demo MaxAttempts base decode_error n) w with
  | (Done _, w') => (Done Ended, w')
  | (Panicked msg, w') => (Panicked msg, w')
  end.
Proof. cbn [shop_thread]. unfold mbind, prog_mbind. by rewrite run_bind, run_lift. Qed.

(** As many rounds as messages wait: the shop stays in order, its services as they
    are, and the worker is at the head of its loop again. *)
Lemma calm_worker_rounds {W} (calm : handler (shopE Timestamp) W) (obs : W -> shopview Timestamp)
    `{!Refines calm obs calm_shop} (timestamppb_New : Z -> Timestamp) pub cache_on ttl MaxAttempts base decode_error w :
  (forall s c, uuid_in s = Some c -> plain_text c) -> (forall s c, puuid_in s = Some c -> plain_text c) ->
  0 < MaxAttempts -> in_order uuid_in pub demo (obs w) ->
  let thread := shop_thread timestamppb_New pub cache_on ttl demo MaxAttempts base decode_error in
  exists w', (forall m, run calm (thread (WorkerThread (length (waiting (w_queue (sh_worker (obs w)))) + m))) w =
                        run calm (thread (WorkerThread m)) w') /\
    in_order uuid_in pub demo (obs w') /\ sh_sys (obs w') = sh_sys (obs w) /\
    waiting (w_queue (sh_worker (obs w'))) = [] /\
    unacked (w_queue (sh_worker (obs w'))) ≡ₚ unacked (w_queue (sh_worker (obs w))).
Proof.
  intros Huuid Hpuuid HM Hv thread. set (n := length (waiting _)).
  assert (holds calm_shop (lift (fun X => OnWorker) (takes demo MaxAttempts base decode_error n))
    (fun b v' => b = true /\ sh_sys v' = sh_sys (obs w) /\ waiting (w_queue (sh_worker v')) = [] /\
       unacked (w_queue (sh_worker v')) ≡ₚ unacked (w_queue (sh_worker (obs w)))) (obs w)) as Htakes.
  { apply (holds_lift (fun X => OnWorker) sh_worker (fun w v => ShopView (sh_sys v) w) calm_worker calm_shop
      ltac:(by intros []) ltac:(done) ltac:(done)) with
      (Q := fun b u => b = true /\ waiting (w_queue u) = [] /\ unacked (w_queue u) ≡ₚ unacked (w_queue (sh_worker (obs w)))).
    { intros X e x v1 v2 [(u & _ & ->) Hc]. by exists u. }
    { by apply calm_takes. }
    by intros b u (? & ? & ?). }
  destruct (holds_run calm_shop calm obs _ _ w Htakes) as (b & w' & Hrun & -> & Hs & Hw & Hu).
  rewrite run_lift in Hrun.
  change (run (worker_side calm) (takes demo MaxAttempts base decode_error n) w = (Done true, w')) in Hrun.
  assert (forall m, run calm (thread (WorkerThread (n + m))) w = run calm (thread (WorkerThread m)) w') as Hrounds.
  { intros m. unfold thread. by rewrite !run_worker, run_consume, Hrun. }
  exists w'. split_and!; [done| |done..].
  assert (holds calm_shop (thread (WorkerThread n)) (fun _ v' => in_order uuid_in pub demo v') (obs w)) as Hin.
  { eapply holds_sub; [by intros X e x v1 v2 [? _]|]. eapply holds_mono;
      [apply (gives_holds shop_spec (in_order uuid_in pub demo) onward (may_shop uuid_in pub demo)
         (Discipline0 := shop_discipline uuid_in tstz puuid_in ptstz pub demo)); [done|by apply shop_thread_gives]|].
    by intros ? v' (_ & ? & _). }
  destruct (holds_run calm_shop calm obs _ _ w Hin) as (r & w2 & Hrun2 & Hv2).
  rewrite <-(Nat.add_0_r n), Hrounds in Hrun2. unfold thread in Hrun2. rewrite run_worker in Hrun2. by simplify_eq/=.
Qed.
End CalmShop.

(** C5. No receipt waits for ever.  After anything that has happened in the shop, the
    payment service with its publisher (any requests, worded as in
    [purchases_are_receipted], RPC handlers and workers, every interleaving, whatever
    failed or was lost), a worker whose calls succeed and who runs alone takes every
    waiting message, one in each round of its loop, and is then at the head of its loop
    again, where it waits for more; no order and no payment has changed, and every order
    that is Paid has an authorized payment of its amount whose receipt has been mailed,
    unless another worker still holds its message, or it is the demonstration order, or
    the broker refused or lost the message while the publisher took the acknowledgement
    of another one for its own. *)
Theorem receipts_follow_recovery {Timestamp W : Type} (h calm : handler (shopE Timestamp) W)
    (obs : W -> shopview Timestamp) uuid_in tstz puuid_in ptstz
    `{!Refines h obs (shop_spec uuid_in tstz puuid_in ptstz), !Refines calm obs (calm_shop uuid_in tstz puuid_in ptstz)}
    timestamppb_New cache_on ttl demo MaxAttempts base decode_error (gs : list shop_goroutine) w sched :
  (forall s c, uuid_in s = Some c -> plain_text c) -> (forall s c, puuid_in s = Some c -> plain_text c) ->
  0 < MaxAttempts -> Forall worded_thread gs -> in_order uuid_in true demo (obs w) ->
  let thread := shop_thread timestamppb_New true cache_on ttl demo MaxAttempts base decode_error in
  let s := run_schedule h sched (Pool (thread <$> gs) w false) in
  let v := obs (world s) in
  exists w', (forall m, run calm (thread (WorkerThread (length (waiting (w_queue (sh_worker v))) + m))) (world s) =
                        run calm (thread (WorkerThread m)) w') /\
    sh_sys (obs w') = sh_sys v /\ waiting (w_queue (sh_worker (obs w'))) = [] /\
    (forall c o, orders (sv_order (sh_sys (obs w'))) !! c = Some o -> Order.Status o = StatusPaid ->
       exists p, payments (sv_payment (sh_sys (obs w'))) !! Order.ID o = Some p /\
         Payment.OrderID p = Order.ID o /\ Payment.Amount p = Order.Amount o /\
         (receipt_mailed (obs w') p \/ in_hand v p \/ (demo <> "" /\ Order.ID o = demo) \/ misled v p)).
Proof.
  intros Huuid Hpuuid HM Hgs Hw thread s v.
  destruct (shop_in_order h obs uuid_in tstz puuid_in ptstz timestamppb_New cache_on ttl demo MaxAttempts base
    decode_error gs w sched Huuid Hpuuid HM Hgs Hw) as [_ Hv].
  fold s in Hv. fold v in Hv.
  destruct (calm_worker_rounds uuid_in tstz puuid_in ptstz demo calm obs timestamppb_New true cache_on ttl MaxAttempts base
    decode_error (world s) Huuid Hpuuid HM Hv) as (w' & Hrounds & Hv' & Hsys & Hwait & Hun).
  exists w'. split_and!; [done..|]. intros c o Ho Hst.
  destruct (paid_receipted uuid_in true demo (obs w') Hv' o) as (p & Hp & HO & HA & Hr);
    [exact (con_rows _ _ _ (ord_sys _ _ _ _ Hv') c o Ho)|done|done|].
  exists p. split_and!; [done..|]. destruct Hr as [(e & Ha & Hr)|[Hr|[Hr|Hr]]]; [|by left|by auto|].
  - rewrite Hwait in Hr. destruct Hr as [[]%elem_of_nil|(d & Hd & Hb)]. right; left. exists e, d. split_and!; [done| |done].
    fold v in Hun. by rewrite Hun in Hd.
  - do 3 right. unfold misled, shop_broker, shop_events in *. by rewrite Hsys in Hr.
Qed.

(** ** An executable recovery *)

Definition no_faults (w : shopmem) : shopmem :=
  ShopMem (shm_sys w) (QMem (NMem (nm_view (qm_notify (shm_worker w))) []) (qm_queue (shm_worker w)) (qm_tag (shm_worker w))).

Definition calm_calls : handler (shopE Z) shopmem := fun X e w => shopmem_calls X e (no_faults w).

Lemma remove_delivery_in d ds : d ∈ ds -> exists u, remove_delivery d ds = Some u.
Proof.
  intros Hd. unfold remove_delivery. destruct (list_find _ ds) as [[i x]|] eqn:Hf; [eauto|].
  apply list_find_None in Hf. rewrite Forall_forall in Hf. by destruct (Hf d Hd).
Qed.

Lemma calm_calls_serve X (e : workerE X) w :
  match calm_calls X (OnWorker e) w with
  | (Done x, w') =>
      match e with
      | OnNotify e => fun x => answers_well e x (nm_view (qm_notify (shm_worker w)))
      | OnQueue e => fun x => serves e x (qm_queue (shm_worker w)) (qm_queue (shm_worker w'))
      end x
  | (Panicked _, _) => False
  end.
Proof.
  destruct e as [e|e]; [destruct e as [id|id|k|k s|in_|d]|destruct e as [|d|d requeue]]; cbn;
    repeat case_match; simplify_eq/=; auto.
  { match goal with H : bool_decide _ = true |- _ => by apply bool_decide_eq_true in H end. }
  { done. }
  all: intros Hd%remove_delivery_in.
  all: match goal with
    | H : remove_delivery _ _ = Some _ |- _ => apply remove_delivery_perm, Permutation_length in H; by rewrite H
    | H : remove_delivery _ _ = None |- _ => destruct Hd; congruence
    end.
Qed.

#[export] Instance calm_refines :
  Refines calm_calls shopmem_view (calm_shop mem_uuid_in mem_tstz pmem_uuid_in id).
Proof.
  intros X e w. destruct (refines (obs := shopmem_view) (spec := shop_spec mem_uuid_in mem_tstz pmem_uuid_in id) X e (no_faults w))
    as (x & w' & Hx & Hs).
  exists x, w'. split; [exact Hx|]. split; [exact Hs|]. destruct e as [e|e]; [done|].
  destruct Hs as (q & Hs & E). pose proof (calm_calls_serve X e w) as Hc. unfold calm_calls in Hc. rewrite Hx in Hc.
  split; [by rewrite E|]. by destruct e.
Qed.

(** The store of sent payments is unreachable when the first worker has the message,
    which is put back; then a second worker runs. *)
Definition interrupted : pool (shopE Z) shopmem result :=
  sell [false; false; true] (prompt_schedule ++ repeat 2%nat 4).

Definition recovered : outcome result * shopmem :=
  run calm_calls (shop_thread (fun t => t) true true 60 "" 4 2000000000 sample_decode (WorkerThread 1)) (world interrupted).

Lemma receipts_follow_recovery_witness :
  let v := shopmem_view (world interrupted) in
  let thread := shop_thread (fun t => t) true true 60 "" 4 2000000000 sample_decode in
  exists w', (forall m, run calm_calls (thread (WorkerThread (1 + m))) (world interrupted) =
                        run calm_calls (thread (WorkerThread m)) w') /\
    sh_sys (shopmem_view w') = sh_sys v /\ waiting (w_queue (sh_worker (shopmem_view w'))) = [] /\
    (forall c o, orders (sv_order (sh_sys (shopmem_view w'))) !! c = Some o -> Order.Status o = StatusPaid ->
       exists p, payments (sv_payment (sh_sys (shopmem_view w'))) !! Order.ID o = Some p /\
         Payment.OrderID p = Order.ID o /\ Payment.Amount p = Order.Amount o /\
         (receipt_mailed (shopmem_view w') p \/ in_hand v p \/ ("" <> "" /\ Order.ID o = "") \/ misled v p)).
Proof.
  intros v thread. assert (length (waiting (w_queue (sh_worker v))) = 1%nat) as <- by (vm_compute; reflexivity).
  apply (receipts_follow_recovery shopmem_calls calm_calls shopmem_view mem_uuid_in mem_tstz pmem_uuid_in id (fun t => t) true 60 ""
    4 2000000000 sample_decode [SysThread (OrderThread keyboard); SysThread RpcThread; WorkerThread 2]);
    [exact mem_uuid_plain|exact pmem_uuid_plain|done|by repeat constructor|apply shopmem_in_order].
Defined.

Example mailed_in_the_end :
  length (waiting (qm_queue (shm_worker (world interrupted)))) = 1%nat /\
  mails (nm_view (qm_notify (shm_worker (world interrupted)))) = [] /\
  mails (nm_view (qm_notify (shm_worker (snd recovered)))) =
    [SendInput.mk "ann@example.com" "0a1b" "p-1" 500 "Authorized"].
Proof. vm_compute. done. Qed.
