(* ===== verification/Once.v ===== *)
(** * One message for each order

    A goroutine announces an order only after it has itself saved the order's payment,
    and a payment is saved once: so, whatever runs at the same time, an order is
    announced at most once.  The right to announce an order is what a goroutine gets
    from saving its payment and gives up by publishing. *)

From S2P Require Import Prelude GoLib Json OrderPorts OrderUsecase OrderMem.
From S2P Require Import PaymentClients Publisher PaymentUsecase PaymentProps PaymentTransport System.
From S2P Require Import Notify NotifyProps Worker Messaging Words Shop.

(** ** Rights *)

(** The right that a call gives with its answer, and the one that it needs. *)
Definition gained {X} (e : PaymentPorts.E X) : X -> option string :=
  match e in PaymentPorts.E X return X -> option string with
  | PaymentPorts.Save p => fun r => match r with None => Some (Payment.OrderID p) | Some _ => None end
  | _ => fun _ => None
  end.

Definition needed {X} (e : PaymentPorts.E X) : option string :=
  match e with
  | PaymentPorts.OnBroker (PublishWithContext _ ev) => Some (PaymentCompletedEvent.OrderID ev)
  | _ => None
  end.

Section Rights.
Context {E : Type -> Type} (paying : forall X : Type, E X -> option (PaymentPorts.E X)).

(** The program announces only what it has the right to; [t] is the right it has. *)
Fixpoint entitled {A} (t : option string) (p : prog E A) : Prop :=
  match p with
  | Ret _ | Panic _ => True
  | Do e k =>
      match paying _ e with
      | None => forall x, entitled t (k x)
      | Some pe =>
          match needed pe with
          | Some o => t = Some o /\ forall x, entitled None (k x)
          | None => forall x, entitled (match gained pe x with Some o => Some o | None => t end) (k x)
          end
      end
  end.

(** A program with no calls to the payment service's ports. *)
Fixpoint apart {A} (p : prog E A) : Prop :=
  match p with
  | Ret _ | Panic _ => True
  | Do e k => paying _ e = None /\ forall x, apart (k x)
  end.

Lemma apart_entitled {A} (p : prog E A) t : apart p -> entitled t p.
Proof. induction p as [a|msg|X e k IH]; [done..|]. simpl. intros [-> Hk] x. by apply IH. Qed.

Lemma apart_bind {A B} (p : prog E A) (f : A -> prog E B) :
  apart p -> (forall a, apart (f a)) -> apart (p ≫= f).
Proof. intros Hp Hf. induction p as [a|msg|X e k IH]; [apply Hf|done|]. destruct Hp as [? Hp]. split; [done|]. intros x. by apply IH. Qed.

Lemma entitled_then {A B} (p : prog E A) (f : A -> prog E B) t :
  entitled t p -> (forall a, apart (f a)) -> entitled t (p ≫= f).
Proof.
  intros Hp Hf. revert t Hp. induction p as [a|msg|X e k IH]; intros t Hp; [by apply apart_entitled, Hf|done|].
  change (entitled t (Do e (fun x => k x ≫= f))). simpl in Hp |- *.
  destruct (paying X e) as [pe|]; [|by intros x; apply IH]. destruct (needed pe); [|by intros x; apply IH].
  destruct Hp as [? Hp]. split; [done|]. intros x. by apply IH.
Qed.

Lemma entitled_after {A B} (p : prog E A) (f : A -> prog E B) t :
  apart p -> (forall a, entitled t (f a)) -> entitled t (p ≫= f).
Proof.
  intros Hp Hf. induction p as [a|msg|X e k IH]; [apply Hf|done|].
  change (entitled t (Do e (fun x => k x ≫= f))). simpl in Hp |- *. destruct Hp as [-> Hp]. intros x. by apply IH.
Qed.

Lemma apart_interp {F : Type -> Type} {A} (f : forall X, F X -> prog E X) (p : prog F A) :
  (forall X (e : F X), apart (f X e)) -> apart (interp f p).
Proof. intros Hf. induction p as [a|msg|X e k IH]; [done..|]. cbn [interp]. by apply apart_bind. Qed.
End Rights.

Lemma apart_lift {E F : Type -> Type} (pe : forall X, E X -> option (PaymentPorts.E X))
    (pf : forall X, F X -> option (PaymentPorts.E X)) (inj : forall X, E X -> F X) {A} (p : prog E A) :
  (forall X (e : E X), pf X (inj X e) = pe X e) -> apart pe p -> apart pf (lift inj p).
Proof. intros Hi. induction p as [a|msg|X e k IH]; [done..|]. simpl. rewrite Hi. intros [? Hp]. split; [done|]. intros x. by apply IH. Qed.

Lemma entitled_lift {E F : Type -> Type} (pe : forall X, E X -> option (PaymentPorts.E X))
    (pf : forall X, F X -> option (PaymentPorts.E X)) (inj : forall X, E X -> F X) {A} (p : prog E A) t :
  (forall X (e : E X), pf X (inj X e) = pe X e) -> entitled pe t p -> entitled pf t (lift inj p).
Proof.
  intros Hi. revert t. induction p as [a|msg|X e k IH]; intros t Hp; [done..|]. simpl in Hp |- *. rewrite Hi.
  destruct (pe X e) as [e'|]; [|by intros x; apply IH]. destruct (needed e'); [|by intros x; apply IH].
  destruct Hp as [? Hp]. split; [done|]. intros x. by apply IH.
Qed.

(** ** The rights in a pool *)

Section Pool.
Context {E : Type -> Type} {V W A : Type} (paying : forall X : Type, E X -> option (PaymentPorts.E X)).
Context (spec : interface E V) (get : V -> pview) (uuid_in : string -> option string) (tstz : Z -> Z).
Context (h : handler E W) (obs : W -> V) `{!Refines h obs spec}.
Context (paid : forall X (e : E X) x v v', spec X e x v v' ->
  match paying X e with
  | Some pe => PaymentUsecase.ports_spec uuid_in tstz X pe x (get v) (get v')
  | None => get v' = get v
  end).

(** No order is announced twice, counting those that somebody has the right to
    announce; and each of them has a payment. *)
Definition announced_orders (held : list string) (v : pview) : list string :=
  (held ++ (PaymentCompletedEvent.OrderID <$> events v))%list.

Definition fair (held : list string) (v : pview) : Prop :=
  NoDup (announced_orders held v) /\ forall o, o ∈ announced_orders held v -> is_Some (payments v !! o).

Definition held_by (ts : list (option string)) : list string := omap (fun t => t) ts.

Lemma held_split ts i t : ts !! i = Some t ->
  exists rest, held_by ts ≡ₚ (option_list t ++ rest)%list /\
    forall t', held_by (<[i := t']> ts) ≡ₚ (option_list t' ++ rest)%list.
Proof.
  intros Hi. exists (held_by (take i ts) ++ held_by (drop (S i) ts))%list.
  assert (forall t', held_by (take i ts ++ t' :: drop (S i) ts) ≡ₚ
    (option_list t' ++ held_by (take i ts) ++ held_by (drop (S i) ts))%list) as H.
  { intros t'. unfold held_by. rewrite omap_app. destruct t'; simpl; [by rewrite Permutation_middle|done]. }
  split; [by rewrite <-(take_drop_middle ts i t Hi) at 1|]. intros t'.
  rewrite insert_take_drop by (by eapply lookup_lt_Some). apply H.
Qed.

Lemma fair_perm l l' v : l ≡ₚ l' -> fair l v -> fair l' v.
Proof.
  intros Hl [Hn Hp]. unfold fair, announced_orders in *. split; [by rewrite <-Hl|].
  intros o Ho. apply Hp. by rewrite Hl.
Qed.

Lemma fair_less l1 l2 v : fair (l1 ++ l2) v -> fair l2 v.
Proof.
  unfold fair, announced_orders. intros [Hn Hp]. rewrite <-app_assoc in Hn, Hp. split; [by apply NoDup_app in Hn as (_ & _ & ?)|].
  intros o Ho. apply Hp, elem_of_app. by right.
Qed.

Lemma fair_grown l v v' : events v' = events v -> payments v ⊆ payments v' -> fair l v -> fair l v'.
Proof.
  unfold fair, announced_orders. intros -> Hg [Hn Hp]. split; [done|]. intros o [p Ho]%Hp. exists p. by eapply lookup_weaken.
Qed.

(** A call with the right it needs keeps the rights fair. *)
Lemma fair_call X (pe : PaymentPorts.E X) x t rest v v' :
  PaymentUsecase.ports_spec uuid_in tstz X pe x v v' -> fair (option_list t ++ rest) v ->
  match needed pe with
  | Some o => t = Some o -> fair rest v'
  | None => fair (option_list (match gained pe x with Some o => Some o | None => t end) ++ rest) v'
  end.
Proof using Type.
  intros Hs Hf. assert (forall p, saved uuid_in tstz p v v' ->
    payments v !! Payment.OrderID p = None /\ events v' = events v /\ payments v ⊆ payments v' /\
    is_Some (payments v' !! Payment.OrderID p)) as Hsaved.
  { intros p (c & _ & Hn & _ & _ & _ & ->). split_and!; [done|done|by apply insert_subseteq|]. simpl. rewrite lookup_insert_eq. eauto. }
  assert (forall ev pb, br_taken (pv_broker v') = (ev, pb) :: br_taken (pv_broker v) -> payments v' = payments v ->
    fair (PaymentCompletedEvent.OrderID ev :: rest) v -> fair rest v') as Hdel.
  { intros ev pb Eb Ep [Hn Hp]. unfold fair, announced_orders, events in *. rewrite Eb, Ep. rewrite fmap_cons, fmap_cons. simpl.
    simpl in Hn, Hp. rewrite <-Permutation_middle. split; [done|].
    intros o Ho. apply Hp. by rewrite <-Permutation_middle in Ho. }
  assert (forall l, br_taken (pv_broker v') = br_taken (pv_broker v) -> payments v' = payments v -> fair l v -> fair l v') as Hsame
    by (intros l Eb Ep; apply fair_grown; [unfold events; by rewrite Eb|by rewrite Ep]).
  destruct pe as [p|id|X e| |]; [cbn [needed gained]..|]; cycle 4.
  { promise Hs. by eapply fair_grown. }
  - promise Hs; [|done|]; match goal with H : saved _ _ _ _ _ |- _ => apply Hsaved in H as (Hn & He & Hg & Hi) end.
    + apply fair_less in Hf. assert (Payment.OrderID p ∉ announced_orders rest v) as Hnew.
      { intros Hin. apply Hf in Hin as [q Hq]. congruence. }
      apply (fair_grown _ _ _ He Hg) in Hf as [Hnd Hp]. unfold fair, announced_orders in *. rewrite He in *. simpl.
      split; [by constructor|]. intros o [->|Ho]%elem_of_cons; [done|by apply Hp].
    + by eapply fair_grown.
  - promise Hs; by eapply fair_grown.
  - destruct Hs as (b & Hs & ->). destruct e as [pb ev|ev]; cbn [needed].
    + intros ->. assert (fair rest v) as Hless by (by apply (fair_less [PaymentCompletedEvent.OrderID ev])).
      promise Hs; [match goal with H : written _ _ _ _ |- _ => destruct H as [->|[->|[->| ->]]] end|..];
        first [by eapply Hdel|by apply Hsame].
    + promise Hs; by apply Hsame.
  - promise Hs. by eapply fair_grown.
Qed.

Definition all_fair (s : pool E W A) (ts : list (option string)) : Prop :=
  Forall2 (entitled paying) ts (threads s) /\ fair (held_by ts) (get (obs (world s))).

Lemma step_fair i s ts : all_fair s ts -> exists ts', all_fair (pool_step h i s) ts'.
Proof using Refines0 paid.
  intros [Hts Hf]. unfold pool_step. destruct (crashed s); [by exists ts|].
  destruct (threads s !! i) as [[a|msg|X e k]|] eqn:Hi; try by exists ts.
  destruct (Forall2_lookup_r _ _ _ _ _ Hts Hi) as (t & Ht & Hent). simpl in Hent.
  destruct (refines X e (world s)) as (x & w' & -> & Hs). apply paid in Hs.
  destruct (held_split ts i t Ht) as (rest & Hr & Hnew). apply (fair_perm _ _ _ Hr) in Hf.
  destruct (paying X e) as [pe|].
  - pose proof (fair_call X pe x t rest _ _ Hs Hf) as Hcall. destruct (needed pe) as [o|].
    + destruct Hent as [-> Hent]. exists (<[i := None]> ts). split; [by apply Forall2_insert|].
      eapply fair_perm; [symmetry; apply Hnew|]. by apply Hcall.
    + eexists (<[i := _]> ts). split; [by apply Forall2_insert; [|apply Hent]|].
      eapply fair_perm; [symmetry; apply Hnew|exact Hcall].
  - exists ts. split; [rewrite <-(list_insert_id ts i t Ht); by apply Forall2_insert|].
    simpl. rewrite Hs. by eapply fair_perm; [symmetry|].
Qed.

Lemma pool_fair sched (s : pool E W A) ts : all_fair s ts -> exists ts', all_fair (run_schedule h sched s) ts'.
Proof using Refines0 paid.
  revert s ts. induction sched as [|i sched IH]; intros s ts Hs; [by exists ts|].
  destruct (step_fair i s ts Hs) as [ts' Hs']. by apply (IH _ ts').
Qed.

(** Nobody has a right at the start. *)
Lemma pool_announced_once sched (s : pool E W A) :
  announced_once (get (obs (world s))) ->
  (forall e, e ∈ events (get (obs (world s))) -> is_Some (payments (get (obs (world s))) !! PaymentCompletedEvent.OrderID e)) ->
  (forall p : prog E A, p ∈ threads s -> entitled paying None p) ->
  announced_once (get (obs (world (run_schedule h sched s)))).
Proof using Refines0 paid.
  intros Hn Hp Hts. destruct (pool_fair sched s (replicate (length (threads s)) None)) as (ts & _ & [Hnd _]).
  { assert (held_by (replicate (length (threads s)) None) = []) as Hnone
      by (induction (length (threads s)); [done|]; by simpl).
    split; [|rewrite Hnone; split; [exact Hn|]].
    - apply Forall2_replicate_l; [done|by apply Forall_forall].
    - intros o (e & -> & He)%list_elem_of_fmap. by apply Hp. }
  by apply NoDup_app in Hnd as (_ & _ & ?).
Qed.
End Pool.

(** ** The goroutines *)

Definition directly : forall X, PaymentPorts.E X -> option (PaymentPorts.E X) := fun X e => Some e.

Definition sys_paying {Timestamp} : forall X, sysE Timestamp X -> option (PaymentPorts.E X) := fun X e =>
  match e with OnPayment e => Some e | _ => None end.

Definition shop_paying {Timestamp} : forall X, shopE Timestamp X -> option (PaymentPorts.E X) := fun X e =>
  match e with OnSys e => sys_paying X e | OnWorker _ => None end.

(** Follow a program to its ends. *)
Ltac entitle := repeat first [progress simpl | case_match | split | intros ?]; try done.

Lemma publisher_entitled ev :
  entitled directly (Some (PaymentCompletedEvent.OrderID ev)) (Publisher.PublishPaymentCompleted (fun X => PaymentPorts.OnBroker) ev).
Proof. unfold Publisher.PublishPaymentCompleted. entitle. Qed.

Lemma authorize_entitled pub in_ t : entitled directly t (AuthorizePayment.Execute pub in_).
Proof.
  unfold AuthorizePayment.Execute, AuthorizePayment.publish. entitle.
  apply entitled_then; [apply (publisher_entitled (AuthorizePayment.event _ _))|by intros []].
Qed.

Lemma lookup_entitled id t : entitled directly t (GetPaymentByOrder.Execute id).
Proof. unfold GetPaymentByOrder.Execute. entitle. Qed.

Lemma serve_payment_entitled pub r t : entitled directly t (serve_payment pub r).
Proof.
  destruct r as [in_|id]; cbn [serve_payment]; apply entitled_then; try done;
    [apply authorize_entitled|apply lookup_entitled].
Qed.

Section Threads.
Context {Timestamp : Type} (timestamppb_New : Z -> Timestamp) (pub cache_on : bool) (ttl : Z).

Lemma handle_rpc_entitled q t : entitled directly t (handle_rpc timestamppb_New pub q).
Proof.
  destruct q as [req|req]; cbn [handle_rpc]; apply entitled_then; try done;
    unfold Server.LoggingInterceptor; (apply entitled_then; [|by intros []]).
  - unfold Server.AuthorizePayment. do 2 (case_match; [done|]). apply entitled_then; [apply authorize_entitled|].
    intros r. unfold Server.authorize_reply. by repeat case_match.
  - unfold Server.GetPaymentStatus. case_match; [done|]. apply entitled_then; [apply lookup_entitled|].
    intros r. by repeat case_match.
Qed.

Lemma ports_apart X (e : portE X) : apart sys_paying (sys_ports (Timestamp := Timestamp) X e).
Proof.
  assert (forall X (e : payE Timestamp X), apart sys_paying (stub X e)) as Hstub.
  { intros Y q. destruct q; cbn [stub]; (apply apart_bind; [|intros r; by repeat case_match]);
      unfold invoke; (apply apart_bind; [by split|]); (intros [i|err]; [by split|done]). }
  destruct e; cbn [sys_ports]; try (by split); by apply apart_interp.
Qed.

Lemma thread_entitled g t : entitled sys_paying t (thread timestamppb_New pub cache_on ttl g).
Proof.
  assert (forall A (p : prog PaymentPorts.E A), entitled directly t p ->
    entitled (sys_paying (Timestamp := Timestamp)) t (lift (fun X => OnPayment) p)) as Hlift
    by (intros A p; by apply entitled_lift).
  destruct g as [r| |r]; cbn [thread].
  - by apply apart_entitled, apart_bind; [apply apart_interp, ports_apart|].
  - apply entitled_then; [|done]. unfold serve_rpc. apply entitled_after; [by split|].
    intros [[id q]|]; [|done]. apply entitled_then; [apply Hlift, handle_rpc_entitled|by split].
  - apply entitled_then; [|done]. apply Hlift, serve_payment_entitled.
Qed.

Lemma workers_apart demo MaxAttempts base decode_error n :
  apart (fun _ _ => None) (Consumer.consume demo MaxAttempts base decode_error n).
Proof.
  assert (forall A (p : prog workerE A), apart (fun _ _ => None) p) as H; [|apply H].
  intros A p. induction p; [done..|]. by split.
Qed.

Lemma shop_thread_entitled demo MaxAttempts base decode_error g t :
  entitled shop_paying t (shop_thread timestamppb_New pub cache_on ttl demo MaxAttempts base decode_error g).
Proof.
  destruct g as [g|n]; cbn [shop_thread].
  - apply (entitled_lift sys_paying shop_paying (fun X => OnSys)); [done|apply thread_entitled].
  - apply apart_entitled, apart_bind; [|done].
    apply (apart_lift (fun _ _ => None) shop_paying (fun X => OnWorker)); [done|apply workers_apart].
Qed.
End Threads.

(** ** In the shop *)

(** Different events have different messages. *)
Lemma messages_distinct (es : list PaymentCompletedEvent.t) :
  (forall e, e ∈ es -> textual e) -> NoDup (PaymentCompletedEvent.OrderID <$> es) -> NoDup (message <$> es).
Proof.
  intros Ht Hn. apply NoDup_fmap_2_strong; [|by eapply NoDup_fmap_1].
  intros e e' He He' E. destruct (Ht e He) as ((Hp & _) & _), (Ht e' He') as ((Hp' & _) & _).
  assert (payload_of e = payload_of e') as [= _ _ Ho _ _ _].
  { pose proof (decoded_event e Hp) as H1. pose proof (decoded_event e' Hp') as H2. unfold message in E. rewrite E in H1. congruence. }
  apply list_elem_of_lookup in He as [i Hi], He' as [j Hj].
  assert (i = j) as ->; [|congruence].
  eapply NoDup_lookup; [exact Hn| |]; rewrite list_lookup_fmap; [by rewrite Hi|by rewrite Hj, Ho].
Qed.

(** C6. In the whole shop (any requests, RPC handlers and workers, every interleaving,
    whatever fails), and for all that a request is repeated, sent twice by the network
    or served by two goroutines at once: the broker never takes a second message about
    an order, and no message is twice in the queue and what has left it. *)
Theorem one_message_per_order {Timestamp W : Type} (h : handler (shopE Timestamp) W)
    (obs : W -> shopview Timestamp) uuid_in tstz puuid_in ptstz
    `{!Refines h obs (shop_spec uuid_in tstz puuid_in ptstz)}
    timestamppb_New cache_on ttl demo MaxAttempts base decode_error (gs : list shop_goroutine) w sched :
  (forall s c, uuid_in s = Some c -> plain_text c) -> (forall s c, puuid_in s = Some c -> plain_text c) ->
  0 < MaxAttempts -> Forall worded_thread gs -> in_order uuid_in true demo (obs w) ->
  announced_once (sv_payment (sh_sys (obs w))) ->
  let v := obs (world (run_schedule h sched (Pool
    (shop_thread timestamppb_New true cache_on ttl demo MaxAttempts base decode_error <$> gs) w false))) in
  announced_once (sv_payment (sh_sys v)) /\ NoDup (messages (w_queue (sh_worker v))).
Proof.
  intros Huuid Hpuuid HM Hgs Hw Honce v.
  pose proof (shop_in_order h obs uuid_in tstz puuid_in ptstz timestamppb_New cache_on ttl demo MaxAttempts base
    decode_error gs w sched Huuid Hpuuid HM Hgs Hw) as [_ Hv]. fold v in Hv.
  assert (announced_once (sv_payment (sh_sys v))) as Hn.
  { apply (pool_announced_once shop_paying (shop_spec uuid_in tstz puuid_in ptstz) (fun v => sv_payment (sh_sys v))
      puuid_in ptstz h obs).
    - intros X e x v1 v2 Hs. destruct e as [e|e]; [|by destruct Hs as (q & _ & ->)].
      destruct Hs as (s & es & Hs & _ & ->). destruct e as [e|e|e]; destruct Hs as (u & Hs & ->); done.
    - exact Honce.
    - intros e (p & Hp & _)%(led_event _ (con_ledger _ _ _ (ord_sys _ _ _ _ Hw))). by exists p.
    - intros p (g & -> & _)%list_elem_of_fmap. apply shop_thread_entitled. }
  split; [exact Hn|]. rewrite (ord_queue _ _ _ _ Hv). apply messages_distinct; [|exact Hn].
  intros e. apply (event_textual uuid_in true demo v Hv).
Qed.

(** The order service's RPC and a direct request for the same order, served at once:
    both find no payment. *)
Definition two_handlers : list shop_goroutine :=
  [SysThread (OrderThread keyboard); SysThread RpcThread;
   SysThread (PaymentThread (ReqAuthorize (AuthorizePaymentInput.mk "0a1b" 500 "ann@example.com"))); WorkerThread 2].
Definition doubled : pool (shopE Z) shopmem result :=
  run_schedule shopmem_calls ([0; 0] ++ [1] ++ concat (repeat [1; 2] 10) ++ repeat 3 12)%nat%list (Pool
    (shop_thread (fun t => t) true true 60 "" 4 2000000000 sample_decode <$> two_handlers)
    (shopmem_start [] []) false).

Lemma one_message_per_order_witness :
  let v := shopmem_view (world doubled) in
  announced_once (sv_payment (sh_sys v)) /\ NoDup (messages (w_queue (sh_worker v))).
Proof.
  apply (one_message_per_order shopmem_calls shopmem_view mem_uuid_in mem_tstz pmem_uuid_in id (fun t => t) true 60 ""
    4 2000000000 sample_decode two_handlers);
    [exact mem_uuid_plain|exact pmem_uuid_plain|done|by repeat constructor|apply shopmem_in_order|constructor].
Defined.

Example announced_by_one_handler :
  PaymentCompletedEvent.OrderID <$> shop_events (shopmem_view (world doubled)) = ["0a1b"] /\
  size (payments (pm_view (sm_payment (shm_sys (world doubled))))) = 1%nat /\
  length (mails (nm_view (qm_notify (shm_worker (world doubled))))) = 1%nat.
Proof. vm_compute. done. Qed.
