(* ===== verification/Senders.v ===== *)
(** * Notification service: the email senders

    [MailjetSender] (internal/email/mailjet.go) over the HTTP calls it makes and
    [SimulatedSender] (internal/email/simulated.go) over the random numbers and the
    clock; both keep the promise the processor relies on. *)

From S2P Require Import Prelude GoLib Json Utf8 Notify NotifyProps.
From Stdlib Require Import Ascii QArith.
Open Scope string_scope.
Open Scope Z_scope.

(** ** encoding/base64, standard alphabet *)

Module Base64.
Definition alphabet : list ascii :=
  lit "ABCDEFGHIJKLMNOPQRSTUVWXYZabcdefghijklmnopqrstuvwxyz0123456789+/".
Definition char (n : Z) : ascii := nth (Z.to_nat n) alphabet "="%char.

Fixpoint encode (l : list ascii) : list ascii :=
  match l with
  | a :: b :: c :: l =>
      let '(a, b, c) := (byte_val a, byte_val b, byte_val c) in
      char (a / 4) :: char (a mod 4 * 16 + b / 16) :: char (b mod 16 * 4 + c / 64) :: char (c mod 64) :: encode l
  | [a; b] =>
      let '(a, b) := (byte_val a, byte_val b) in
      [char (a / 4); char (a mod 4 * 16 + b / 16); char (b mod 16 * 4); "="%char]
  | [a] => let a := byte_val a in [char (a / 4); char (a mod 4 * 16); "="%char; "="%char]
  | [] => []
  end.
Definition EncodeToString (s : string) : string := String.string_of_list_ascii (encode (lit s)).

Definition value (c : ascii) : option Z := Z.of_nat <$> (fst <$> list_find (eq c) alphabet).
Definition byte (n : Z) : ascii := chr (Z.to_nat n).

(** What a reader makes of it. *)
Fixpoint decode (l : list ascii) : option (list ascii) :=
  match l with
  | [] => Some []
  | c0 :: c1 :: c2 :: c3 :: l =>
      n0 ← value c0; n1 ← value c1;
      let b0 := byte (n0 * 4 + n1 / 16) in
      match value c2, value c3 with
      | Some n2, Some n3 =>
          r ← decode l;
          Some (b0 :: byte (n1 mod 16 * 16 + n2 / 4) :: byte (n2 mod 4 * 64 + n3) :: r)
      | Some n2, None =>
          if Ascii.eqb c3 "=" && bool_decide (l = []) then Some [b0; byte (n1 mod 16 * 16 + n2 / 4)] else None
      | None, None =>
          if Ascii.eqb c2 "=" && Ascii.eqb c3 "=" && bool_decide (l = []) then Some [b0] else None
      | None, Some _ => None
      end
  | _ => None
  end.

Lemma byte_val_bound a : 0 <= byte_val a < 256.
Proof. unfold byte_val. pose proof (nat_ascii_bounded a). lia. Qed.

Lemma byte_byte_val a n : n = byte_val a -> byte n = a.
Proof. intros ->. unfold byte, byte_val, chr. by rewrite Nat2Z.id, ascii_nat_embedding. Qed.

Lemma value_char n : 0 <= n < 64 -> value (char n) = Some n.
Proof.
  intros Hn. assert (n ∈ (Z.of_nat <$> seq 0 64)) as Hin.
  { apply list_elem_of_fmap. exists (Z.to_nat n). split; [lia|]. apply elem_of_seq. lia. }
  revert Hin. clear Hn.
  assert (Forall (fun n => value (char n) = Some n) (Z.of_nat <$> seq 0 64)) as Hall.
  { apply (bool_decide_unpack _). vm_compute. exact Logic.I. }
  intros Hin. by apply (proj1 (Forall_forall _ _) Hall).
Qed.

Lemma decode_encode l : decode (encode l) = Some l.
Proof.
  assert (value "="%char = None) as Heq by done.
  induction l as [l IH] using list_len_ind.
  destruct l as [|a [|b [|c l]]]; [done|..]; cbn [encode decode];
    pose proof (byte_val_bound a) as Ha;
    try pose proof (byte_val_bound b) as Hb; try pose proof (byte_val_bound c) as Hc;
    rewrite ?Heq, !value_char by (Z.to_euclidean_division_equations; lia); cbn [mbind option_bind];
    rewrite ?IH by (simpl; lia); cbn [mbind option_bind];
    repeat (f_equal; try (apply byte_byte_val; Z.to_euclidean_division_equations; lia)).
Qed.
End Base64.

(** ** Mailjet *)

(** Making a request, and sending it: the answer is the status code and what could
    be read of at most 64 KiB of the body. *)
Inductive mailjetE : Type -> Type :=
| NewRequestWithContext (url body : string) : mailjetE (option error)
| ClientDo (url body contentType authorization : string) : mailjetE (Z * string + error).


Module Mailjet.
Record t := mk {
  apiKey : string;
  apiSecret : string;
  fromEmail : string;
  fromName : string
}.

Definition NewMailjet (apiKey apiSecret fromEmail fromName : string) : t :=
  mk (TrimSpace apiKey) (TrimSpace apiSecret) (TrimSpace fromEmail) (TrimSpace fromName).

Definition url : string := "https://api.mailjet.com/v3.1/send".

(** mailjetAddr, mailjetMessage and mailjetSendRequest *)
Definition addr (email name : string) : list (list ascii * json) :=
  [(lit "Email", jstring email); (lit "Name", jstring name)].
Definition message (from to : list (list ascii * json)) (subject text : string) : list (list ascii * json) :=
  [(lit "From", JObj from); (lit "To", JArr (map JObj [to]));
   (lit "Subject", jstring subject); (lit "TextPart", jstring text)].
Definition send_request (m : list (list ascii * json)) : json :=
  JObj [(lit "Messages", JArr (map JObj [m]))].

Definition from_name (m : t) : string :=
  if bool_decide (fromName m = "") then "Notifications" else fromName m.
Definition subject (in_ : SendInput.t) : string := "Payment confirmed — order " ++ SendInput.OrderID in_.
Definition text (in_ : SendInput.t) : string :=
  "Payment receipt" ++ nl ++ "Payment ID: " ++ SendInput.PaymentID in_ ++ nl ++
  "Order: " ++ SendInput.OrderID in_ ++ nl ++ "Amount (cents): " ++ Itoa (SendInput.AmountCents in_) ++ nl ++
  "Status: " ++ SendInput.Status in_ ++ nl.
Definition payload (m : t) (in_ : SendInput.t) : json :=
  let to := TrimSpace (SendInput.ToEmail in_) in
  send_request (message (addr (fromEmail m) (from_name m)) (addr to to) (subject in_) (text in_)).
Definition raw (m : t) (in_ : SendInput.t) : string := String.string_of_list_ascii (print (payload m in_)).
Definition authorization (m : t) : string :=
  "Basic " ++ Base64.EncodeToString (apiKey m ++ ":" ++ apiSecret m).

(** json.Marshal of a struct of strings does not fail. *)
Definition SendPaymentReceipt (m : t) (in_ : SendInput.t) : prog mailjetE (option error) :=
  if bool_decide (apiKey m = "") || bool_decide (apiSecret m = "") || bool_decide (fromEmail m = "") then
    mret (Some (ErrorNew "mailjet: missing api key, secret, or from email"))
  else if bool_decide (TrimSpace (SendInput.ToEmail in_) = "") then
    mret (Some (ErrorNew "mailjet: empty recipient"))
  else
    err ← call (NewRequestWithContext url (raw m in_));
    match err with
    | Some err => mret (Some (Errorf_w "mailjet request: " err))
    | None =>
        resp ← call (ClientDo url (raw m in_) "application/json" (authorization m));
        match resp with
        | inr err => mret (Some (Errorf_w "mailjet http: " err))
        | inl (code, respBody) =>
            if (code <? 200) || (300 <=? code) then
              mret (Some (ErrorNew ("mailjet status " ++ Itoa code ++ ": " ++ TrimSpace (limit_reader (64 * 1024) respBody))))
            else mret None
        end
    end.
End Mailjet.

(** ** The simulated provider *)

(** A float64 as it is compared: NaN, an infinity or a rational. *)
Inductive float64 : Type := NaN | Inf (negative : bool) | Fin (q : Q).
Definition float_lt (x y : float64) : bool :=
  match x, y with
  | Fin x, Fin y => negb (Qle_bool y x)
  | Inf n, Inf n' => n && negb n'
  | Inf n, Fin _ => n
  | Fin _, Inf n => negb n
  | _, _ => false
  end.

Definition float_le (x y : float64) : bool :=
  match x, y with
  | NaN, _ | _, NaN => false
  | _, _ => negb (float_lt y x)
  end.

Inductive simE : Type -> Type :=
| Int63n (n : Z) : simE Z
| Float64 : simE float64
| SimAfter (delay : Z) : simE (option error)   (* the context's error, or the delay is over *)
| LogEmail (in_ : SendInput.t) : simE unit.

Definition Millisecond : Z := 1000000.

Module Simulated.
Record t := mk { MinLatency : Z; MaxLatency : Z; FailRate : float64 }.

Definition NewSimulated (minLat maxLat : Z) (failRate : float64) : t :=
  let minLat := if minLat <=? 0 then 50 * Millisecond else minLat in
  let maxLat := if maxLat <? minLat then wrap64 (minLat + 100 * Millisecond) else maxLat in
  let failRate := if float_lt failRate (Fin 0) then Fin 0 else failRate in
  let failRate := if float_lt (Fin 1) failRate then Fin 1 else failRate in
  mk minLat maxLat failRate.

(** [rand.Int63n] *)
Definition rand_Int63n (n : Z) : prog simE Z :=
  if n <=? 0 then Panic "invalid argument to Int63n" else call (Int63n n).

Definition latency (s : t) : prog simE Z :=
  let d := MinLatency s in
  if MinLatency s <? MaxLatency s then
    r ← rand_Int63n (wrap64 (MaxLatency s - MinLatency s));
    mret (wrap64 (d + r))
  else mret d.

Definition SendPaymentReceipt (s : t) (in_ : SendInput.t) : prog simE (option error) :=
  d ← latency s;
  err ← call (SimAfter d);
  match err with
  | Some err => mret (Some err)
  | None =>
      x ← call Float64;
      if float_lt x (FailRate s) then mret (Some (ErrorNew "simulated provider transient failure"))
      else _ ← call (LogEmail in_); mret None
  end.
End Simulated.

(** ** UTF-8 texts of several parts *)

Lemma utf8_Itoa n : in_int64 n -> utf8_string (Itoa n).
Proof.
  intros Hn. apply utf8_ascii. eapply Forall_impl; [by apply Itoa_num_chars|]. intros a.
  all_bytes a; first [discriminate | reflexivity].
Qed.

(** ** What the provider reads *)

Definition get (k : string) (v : json) : option json :=
  match v with JObj ms => snd <$> (snd <$> list_find (fun m => m.1 = lit k) ms) | _ => None end.
Definition text_of (v : json) : option string :=
  match v with JStr raw => Some (String.string_of_list_ascii (unquote raw)) | _ => None end.

Fixpoint text_at (path : list string) (v : json) : option string :=
  match path with
  | [] => text_of v
  | k :: path => match get k v with Some v => text_at path v | None => None end
  end.

Lemma text_of_jstring s : utf8_string s -> text_of (jstring s) = Some s.
Proof.
  unfold utf8_string, jstring, text_of, lit. intros Hs.
  by rewrite unquote_quote_body, String.string_of_list_ascii_of_string.
Qed.

(** The texts of a mail are UTF-8. *)
Definition mail_texts (m : Mailjet.t) (in_ : SendInput.t) : Prop :=
  utf8_string (Mailjet.fromEmail m) /\ utf8_string (Mailjet.fromName m) /\
  utf8_string (TrimSpace (SendInput.ToEmail in_)) /\ utf8_string (SendInput.OrderID in_) /\
  utf8_string (SendInput.PaymentID in_) /\ utf8_string (SendInput.Status in_) /\
  in_int64 (SendInput.AmountCents in_).

Lemma payload_reads m in_ : reads 0 (Mailjet.payload m in_).
Proof.
  unfold Mailjet.payload, Mailjet.send_request, Mailjet.message, Mailjet.addr.
  repeat first
    [ apply reads_obj; [done|done|]
    | apply reads_arr; [done|done|]
    | apply Forall_cons; split
    | apply Forall_nil; exact Logic.I
    | split; [reflexivity|]
    | apply reads_scalar, jstring_scalar ].
Qed.

Lemma text_utf8 m in_ : mail_texts m in_ -> utf8_string (Mailjet.text in_).
Proof.
  intros (_ & _ & _ & H4 & H5 & H6 & H7). apply utf8_Itoa in H7. unfold Mailjet.text.
  generalize dependent (Itoa (SendInput.AmountCents in_)). intros amount Ha.
  repeat match goal with
  | |- utf8_string (_ ++ _) => apply utf8_append; [first [assumption|vm_compute; reflexivity]|]
  end.
  vm_compute. reflexivity.
Qed.

(** C28. Whatever texts in UTF-8 the order, the customer's data and the sender's
    configuration are ([mail_texts]), the request Mailjet gets is one JSON value with
    one message, from the configured sender (under the name "Notifications" if it has
    none) to the trimmed address and nobody else; its subject names the order, and its
    text the payment's id, the order, the amount in cents and the status, each in its
    place; and its Authorization header carries the key and secret in base64. *)
Theorem mailjet_request_read_back m in_ :
  mail_texts m in_ ->
  exists v msg b,
    parse (lit (Mailjet.raw m in_)) = Some v /\ get "Messages" v = Some (JArr [msg]) /\
    (exists to, get "To" msg = Some (JArr [to]) /\
       text_at ["Email"] to = Some (TrimSpace (SendInput.ToEmail in_)) /\
       text_at ["Name"] to = Some (TrimSpace (SendInput.ToEmail in_))) /\
    text_at ["From"; "Email"] msg = Some (Mailjet.fromEmail m) /\
    text_at ["From"; "Name"] msg =
      Some (if bool_decide (Mailjet.fromName m = "") then "Notifications" else Mailjet.fromName m) /\
    text_at ["Subject"] msg = Some ("Payment confirmed — order " ++ SendInput.OrderID in_) /\
    text_at ["TextPart"] msg = Some
      ("Payment receipt" ++ nl ++
       "Payment ID: " ++ SendInput.PaymentID in_ ++ nl ++
       "Order: " ++ SendInput.OrderID in_ ++ nl ++
       "Amount (cents): " ++ Itoa (SendInput.AmountCents in_) ++ nl ++
       "Status: " ++ SendInput.Status in_ ++ nl) /\
    Mailjet.authorization m = "Basic " ++ b /\
    Base64.decode (lit b) = Some (lit (Mailjet.apiKey m ++ ":" ++ Mailjet.apiSecret m)).
Proof.
  intros H. pose proof H as (H1 & H2 & H3 & H4 & _). do 3 eexists. split_and!.
  - unfold Mailjet.raw, lit. rewrite String.list_ascii_of_string_of_list_ascii. apply parse_print, payload_reads.
  - reflexivity.
  - eexists. split; [reflexivity|]. by split; apply text_of_jstring.
  - by apply text_of_jstring.
  - apply text_of_jstring. by destruct (bool_decide (Mailjet.fromName m = "")).
  - apply text_of_jstring, utf8_append; [by vm_compute|done].
  - by apply text_of_jstring, (text_utf8 m).
  - reflexivity.
  - unfold Base64.EncodeToString, lit. rewrite String.list_ascii_of_string_of_list_ascii. apply Base64.decode_encode.
Qed.

Definition sample_mailjet : Mailjet.t := Mailjet.NewMailjet " key " "secret" "shop@example.com" "".

Lemma mailjet_request_read_back_witness :
  exists v msg b,
    parse (lit (Mailjet.raw sample_mailjet sample_mail)) = Some v /\ get "Messages" v = Some (JArr [msg]) /\
    (exists to, get "To" msg = Some (JArr [to]) /\ text_at ["Email"] to = Some "ann@example.com" /\
       text_at ["Name"] to = Some "ann@example.com") /\
    text_at ["From"; "Email"] msg = Some "shop@example.com" /\
    text_at ["From"; "Name"] msg = Some "Notifications" /\
    text_at ["Subject"] msg = Some ("Payment confirmed — order " ++ "order-1") /\
    text_at ["TextPart"] msg = Some
      ("Payment receipt" ++ nl ++ "Payment ID: " ++ "p-1" ++ nl ++ "Order: " ++ "order-1" ++ nl ++
       "Amount (cents): " ++ "500" ++ nl ++ "Status: " ++ "Authorized" ++ nl) /\
    Mailjet.authorization sample_mailjet = "Basic " ++ b /\
    Base64.decode (lit b) = Some (lit "key:secret").
Proof. apply (mailjet_request_read_back sample_mailjet sample_mail). by vm_compute. Defined.

(** ** The promise of a sender

    nil means that the mail went out, as [accepted] says for this sender; an error, none
    of the processor's own, that it failed, as [failed] says. *)
Class Sender {E : Type -> Type} {V : Type} (spec : interface E V)
    (send : SendInput.t -> prog E (option error)) (accepted failed : SendInput.t -> V -> V -> Prop) : Prop :=
  sender_keeps : forall in_ v,
    holds spec (send in_) (fun r v' =>
      (r = None /\ accepted in_ v v') \/ (exists e, r = Some e /\ alien e = true /\ failed in_ v v')) v.

(** *** Mailjet: the requests it has got, with the status it answered *)

Record mailjet_request := MailjetRequest { mr_body : string; mr_authorization : string }.

Definition mailjet_spec : interface mailjetE (list (mailjet_request * option Z)) := fun X e =>
  match e in mailjetE X return X -> _ -> _ -> Prop with
  | NewRequestWithContext _ _ => fun r l l' => l' = l /\ (r = None \/ exists e, r = Some e /\ alien e = true)
  | ClientDo _ body _ auth => fun r l l' =>
      (exists code b, r = inl (code, b) /\ l' = (MailjetRequest body auth, Some code) :: l) \/
      (exists e, r = inr e /\ alien e = true /\ (l' = l \/ l' = (MailjetRequest body auth, None) :: l))
  end.

Definition success (code : Z) : bool := (200 <=? code) && (code <? 300).

(** The request for a mail. *)
Definition request_for (m : Mailjet.t) (in_ : SendInput.t) : mailjet_request :=
  MailjetRequest (Mailjet.raw m in_) (Mailjet.authorization m).

Definition complete (m : Mailjet.t) (in_ : SendInput.t) : bool :=
  negb (bool_decide (Mailjet.apiKey m = "") || bool_decide (Mailjet.apiSecret m = "")
        || bool_decide (Mailjet.fromEmail m = "") || bool_decide (TrimSpace (SendInput.ToEmail in_) = "")).

Lemma alien_wrap s e : alien (Errorf_w s e) = alien e.
Proof. done. Qed.

(** Mailjet has accepted a mail: it got the request for it and answered with a status
    from 200 to 299.  It has not: there was no request, or one answered otherwise or
    not at all. *)
Definition mailjet_accepted (m : Mailjet.t) (in_ : SendInput.t) (l l' : list (mailjet_request * option Z)) : Prop :=
  complete m in_ = true /\ exists code, success code = true /\ l' = (request_for m in_, Some code) :: l.
Definition mailjet_failed (m : Mailjet.t) (in_ : SendInput.t) (l l' : list (mailjet_request * option Z)) : Prop :=
  l' = l \/ (complete m in_ = true /\ exists c, from_option success false c = false /\
               l' = (request_for m in_, c) :: l).

#[export] Instance mailjet_sender m :
  Sender mailjet_spec (Mailjet.SendPaymentReceipt m) (mailjet_accepted m) (mailjet_failed m).
Proof.
  intros in_ l. unfold Mailjet.SendPaymentReceipt, mailjet_accepted, mailjet_failed, complete.
  destruct (_ || _ || _) eqn:Hm; [apply holds_ret; right; eexists; split_and!; [done|done|by left]|].
  destruct (bool_decide (TrimSpace _ = "")); [apply holds_ret; right; eexists; split_and!; [done|done|by left]|].
  hrun; try (right; eexists; split_and!; [done|done|by left]).
  - right. eexists. split_and!; [done|done|]. right. split; [done|]. eexists (Some _). split; [|done].
    simpl. unfold success. lia.
  - left. split_and!; [done|done|]. eexists. split; [|done]. unfold success. lia.
  - right. eexists. split_and!; [done|done|]. right. split; [done|]. by eexists None.
Qed.

(** *** The simulated provider: the delays it has waited, the mails it has logged *)

Record simview := SimView { slept : list Z; logged : list SendInput.t }.

Definition sim_spec : interface simE simview := fun X e =>
  match e in simE X return X -> _ -> _ -> Prop with
  | Int63n n => fun r v v' => v' = v /\ (0 < n -> 0 <= r < n)
  | Float64 => fun x v v' => v' = v /\ exists q, x = Fin q /\ (0 <= q /\ q < 1)%Q
  | SimAfter d => fun r v v' => v' = SimView (d :: slept v) (logged v) /\
      (r = None \/ r = Some context_DeadlineExceeded \/ r = Some context_Canceled)
  | LogEmail in_ => fun _ v v' => v' = SimView (slept v) (in_ :: logged v)
  end.

(** The latencies of a sender that [NewSimulated] makes. *)
Definition sane (s : Simulated.t) : Prop :=
  0 < Simulated.MinLatency s /\ in_int64 (Simulated.MinLatency s) /\ in_int64 (Simulated.MaxLatency s).

Lemma NewSimulated_sane minLat maxLat f :
  in_int64 minLat -> in_int64 maxLat -> sane (Simulated.NewSimulated minLat maxLat f).
Proof.
  intros Hmin Hmax. unfold sane. simpl. unfold in_int64, int64_min, int64_max, Millisecond in *.
  pose proof (wrap64_in ((if minLat <=? 0 then 50 * 1000000 else minLat) + 100 * 1000000)) as Hw.
  unfold in_int64, int64_min, int64_max in Hw.
  split_and!; destruct (Z.leb_spec minLat 0); try lia;
    destruct (maxLat <? _); lia.
Qed.

(** The delay is between the two latencies, and [Int63n] is not called with a
    number it panics on. *)
Lemma latency_bounds s v :
  sane s -> holds sim_spec (Simulated.latency s) (fun d v' => v' = v /\
    Simulated.MinLatency s <= d <= Z.max (Simulated.MinLatency s) (Simulated.MaxLatency s)) v.
Proof.
  unfold sane, in_int64, int64_min, int64_max. intros (Hpos & Hmin & Hmax).
  unfold Simulated.latency, Simulated.rand_Int63n.
  destruct (Z.ltb_spec (Simulated.MinLatency s) (Simulated.MaxLatency s)); [|apply holds_ret; split; [done|lia]].
  rewrite wrap64_id by (unfold in_int64, int64_min, int64_max; lia).
  rewrite (proj2 (Z.leb_gt _ _)) by lia. apply holds_bind, holds_call.
  intros r l' [-> Hr]. specialize (Hr ltac:(lia)). apply holds_ret.
  rewrite wrap64_id by (unfold in_int64, int64_min, int64_max; lia). split; [done|lia].
Qed.

Definition errSimulated : error := ErrorNew "simulated provider transient failure".

(** What a simulated send does: it waits, and then logs the mail or fails; it never
    fails by chance at rate 0, and always does at rate 1. *)
Definition simulated_outcome (s : Simulated.t) (in_ : SendInput.t) (v : simview) (r : option error) (v' : simview) : Prop :=
  exists d, slept v' = d :: slept v /\
    Simulated.MinLatency s <= d <= Z.max (Simulated.MinLatency s) (Simulated.MaxLatency s) /\
    ((r = None /\ logged v' = in_ :: logged v /\ Simulated.FailRate s <> Fin 1) \/
     (logged v' = logged v /\
        (r = Some context_DeadlineExceeded \/ r = Some context_Canceled \/
         (r = Some errSimulated /\ Simulated.FailRate s <> Fin 0)))).

Lemma float_lt_Fin p q : float_lt (Fin p) (Fin q) = true <-> (p < q)%Q.
Proof.
  simpl. rewrite negb_true_iff. split.
  - intros H. apply Qnot_le_lt. intros Hle. apply Qle_bool_iff in Hle. congruence.
  - intros H. destruct (Qle_bool q p) eqn:E; [|done]. apply Qle_bool_iff in E.
    by apply Qlt_not_le in H.
Qed.

Lemma simulated_all s in_ v :
  sane s -> holds sim_spec (Simulated.SendPaymentReceipt s in_) (simulated_outcome s in_ v) v.
Proof.
  intros Hs. unfold Simulated.SendPaymentReceipt. apply holds_bind.
  eapply holds_mono; [by apply latency_bounds|]. intros d v' [-> Hd].
  apply holds_bind, holds_call. intros r v1 [-> Hr].
  destruct r as [err|].
  { apply holds_ret. exists d. split_and!; [done|lia|lia|]. right. split; [done|]. destruct Hr as [?|[?|?]]; auto. done. }
  apply holds_bind, holds_call. intros x v2 [-> (q & -> & H0 & H1)].
  destruct (float_lt (Fin q) (Simulated.FailRate s)) eqn:Hf.
  - apply holds_ret. exists d. split_and!; [done|lia|lia|]. right. split; [done|]. right; right. split; [done|].
    intros E. rewrite E in Hf. apply float_lt_Fin in Hf. by apply Qlt_not_le in Hf.
  - apply holds_bind, holds_call. intros [] v3 ->. apply holds_ret. exists d. split_and!; [done|lia|lia|].
    left. split_and!; [done|done|]. intros E. rewrite E in Hf. apply float_lt_Fin in H1. congruence.
Qed.

(** A mail logged, or none; either way it has waited. *)
Definition sim_accepted (in_ : SendInput.t) (v v' : simview) : Prop := logged v' = in_ :: logged v.
Definition sim_failed (in_ : SendInput.t) (v v' : simview) : Prop := logged v' = logged v.

Lemma simulated_sender s : sane s -> Sender sim_spec (Simulated.SendPaymentReceipt s) sim_accepted sim_failed.
Proof.
  intros Hs in_ v. eapply holds_mono; [by apply simulated_all|].
  intros r v' (d & _ & _ & [(-> & Hl & _)|(Hl & Hr)]); [by left|right].
  destruct Hr as [-> |[-> |[-> _]]]; by eexists.
Qed.

(** ** The processor with its sender *)

(** The stores' calls and the sender's. *)
Inductive plugE (E : Type -> Type) (X : Type) : Type :=
| Stores (e : notifyE X)
| Provider (e : E X).
Arguments Stores {E X} e.
Arguments Provider {E X} e.

(** *** What the processor tries to send

    The stores, and every try at a mail with whether the sender reported success, the
    latest first. *)
Record tview := TView { tv_stores : nview; tv_tries : list (SendInput.t * bool) }.

Definition tried_spec : interface notifyE tview := fun X e =>
  match e in notifyE X return X -> tview -> tview -> Prop with
  | SendPaymentReceipt in_ => fun r v v' =>
      (r = None /\ v' = TView (tv_stores v) ((in_, true) :: tv_tries v)) \/
      (exists e, r = Some e /\ alien e = true /\ v' = TView (tv_stores v) ((in_, false) :: tv_tries v))
  | e => fun r v v' => notify_spec _ e r (tv_stores v) (tv_stores v') /\ tv_tries v' = tv_tries v
  end.

(** The stores with the tries that succeeded for mails. *)
Definition successes (l : list (SendInput.t * bool)) : list SendInput.t := (filter (fun t => t.2 = true) l).*1.
Definition with_sent (l : list SendInput.t) (n : nview) : nview := NView (processed n) (marks n) l.
Definition succeeded (v : tview) : nview := with_sent (successes (tv_tries v)) (tv_stores v).
(** And with all the tries. *)
Definition tried (v : tview) : nview := with_sent (tv_tries v).*1 (tv_stores v).

Lemma tried_stores X (e : notifyE X) x l n n' :
  match e with SendPaymentReceipt _ => False | _ => True end ->
  notify_spec X e x n n' -> notify_spec X e x (with_sent l n) (with_sent l n').
Proof. destruct e; try done; intros _ Hs; promise Hs; subst; simpl; eauto 10. Qed.

Lemma succeeded_call X (e : notifyE X) x v v' : tried_spec X e x v v' -> notify_spec X e x (succeeded v) (succeeded v').
Proof.
  unfold succeeded. destruct e; try (by intros [Hs ->]; apply tried_stores).
  intros [(-> & ->)|(e & -> & He & ->)]; simpl; [by left|right]. exists e. by split_and!; [..|left].
Qed.

Lemma tried_call X (e : notifyE X) x v v' : tried_spec X e x v v' -> notify_spec X e x (tried v) (tried v').
Proof.
  unfold tried. destruct e; try (by intros [Hs ->]; apply tried_stores).
  intros [(-> & ->)|(e & -> & He & ->)]; simpl; [by left|right]. exists e. by split_and!; [..|right].
Qed.

(** Failed tries, and at most one success, which is the last try. *)
Definition one_success (l : list (SendInput.t * bool)) : Prop :=
  Forall (fun t => t.2 = false) l \/ exists in_ l', l = (in_, true) :: l' /\ Forall (fun t => t.2 = false) l'.

Section Tries.
Context (demo : string) (MaxAttempts base : Z) (decode_error : string -> error).

Lemma attempts_tried n a le in_ v :
  holds tried_spec (Processor.attempts base n a le in_) (fun r v' =>
    exists l, tv_tries v' = (l ++ tv_tries v)%list /\
      match r with Processor.Finished None => one_success l | _ => Forall (fun t => t.2 = false) l end) v.
Proof.
  revert a le v; induction n as [|n IH]; intros a le v; cbn [Processor.attempts].
  { apply holds_ret. exists []. split; [done|]. destruct le; [done|by left]. }
  apply holds_bind. apply holds_mono with (Q := fun r v' => tv_tries v' = tv_tries v).
  { destruct (0 <? a); hrun; done. }
  intros [e|] v1 Hv1; [by apply holds_ret; exists []|].
  apply holds_bind, holds_call. intros r v2 [(-> & ->)|(e & -> & _ & ->)].
  - apply holds_ret. exists [(in_, true)]. simpl. rewrite Hv1. split; [done|]. right. by exists in_, [].
  - eapply holds_mono; [apply IH|]. intros r' v' (l & Hl & Hr). exists (l ++ [(in_, false)])%list. simpl in Hl.
    rewrite Hl, Hv1, <-app_assoc. split; [done|].
    destruct r' as [e'|[e'|]]; [by apply Forall_app; split; [|constructor]..|].
    destruct Hr as [Hr|(in' & l' & -> & Hr)]; [left; by apply Forall_app; split; [|constructor]|right].
    exists in', (l' ++ [(in_, false)])%list. split; [done|]. by apply Forall_app; split; [|constructor].
Qed.

Lemma handle_tried body v :
  holds tried_spec (Processor.handle demo MaxAttempts base decode_error body) (fun _ v' =>
    exists l, tv_tries v' = (l ++ tv_tries v)%list /\ one_success l) v.
Proof.
  assert (forall v', tv_tries v' = tv_tries v -> exists l, tv_tries v' = (l ++ tv_tries v)%list /\ one_success l) as Hno
    by (intros v' E; exists []; split; [done|by left]).
  unfold Processor.handle. apply holds_bind.
  apply holds_mono with (Q := fun _ v' => exists l, tv_tries v' = (l ++ tv_tries v)%list /\ one_success l); [|done].
  unfold Processor.Handle, ProcessedStore.WasProcessed, SentStore.AlreadySent.
  destruct (Payload.Unmarshal body) as [pl|]; [|by apply holds_ret, Hno].
  assert (forall v1, tv_tries v1 = tv_tries v -> holds tried_spec (Processor.send MaxAttempts base pl)
    (fun _ v' => exists l, tv_tries v' = (l ++ tv_tries v)%list /\ one_success l) v1) as Hsend.
  { intros v1 Hv1. unfold Processor.send, ProcessedStore.RecordProcessed, SentStore.MarkSent.
    case_bool_decide; [by apply holds_ret, Hno|]. apply holds_bind. eapply holds_mono; [apply attempts_tried|].
    intros r v2 (l & Hl & Hr). rewrite Hv1 in Hl.
    destruct r as [e|[e|]]; try (apply holds_ret; exists l; split; [done|by left]).
    hrun; exists l; split; congruence. }
  case_bool_decide; [by apply holds_ret, Hno|].
  hrun; first [by apply Hno; congruence|by apply Hsend; congruence].
Qed.

(** A delivery, by its tries. *)
Definition delivered_by (pl : Payload.t) (n : nview) (l : list (SendInput.t * bool)) (d : Processor.disposition) (n' : nview) : Prop :=
  (length l <= Z.to_nat MaxAttempts)%nat /\ Forall (fun t => t.1 = Payload.email pl) l /\ one_success l /\
  handled demo MaxAttempts pl (with_sent [] n) d (with_sent (successes l) n').

Lemma handle_delivered body pl n :
  Payload.Unmarshal body = Some pl -> TrimSpace (Payload.EventID pl) <> "" ->
  holds tried_spec (Processor.handle demo MaxAttempts base decode_error body)
    (fun d v' => delivered_by pl n (tv_tries v') d (tv_stores v')) (TView n []).
Proof.
  intros Hu Hid. eapply holds_mono; [apply holds_and; [apply holds_and|]|].
  - apply (handle_tried body).
  - apply (holds_map tried_spec notify_spec succeeded succeeded_call).
    by apply (handle_handled demo MaxAttempts base decode_error body pl).
  - apply (holds_map tried_spec notify_spec tried tried_call).
    by apply (handle_handled demo MaxAttempts base decode_error body pl).
  - intros d v' [[(l & Hl & Hone) Hs] (k & Hk & Hm & _)]. simpl in Hl. rewrite app_nil_r in Hl.
    unfold with_mails in Hm. simpl in Hm. rewrite app_nil_r in Hm. unfold delivered_by. split_and!.
    + rewrite <-(length_fmap fst), Hm, repeat_length. done.
    + apply Forall_forall. intros t Ht%(list_elem_of_fmap_2 fst). rewrite Hm in Ht.
      by apply list_elem_of_In, repeat_spec in Ht.
    + by rewrite Hl.
    + exact Hs.
Qed.
End Tries.

(** *** The sender in its place *)

Section Plug.
Context {E : Type -> Type} {V : Type} (spec : interface E V).
Context (send : SendInput.t -> prog E (option error)).
Context (accepted failed : SendInput.t -> V -> V -> Prop).

(** [notify.Processor{..., Sender: sender}] *)
Definition plug : forall X : Type, notifyE X -> prog (plugE E) X := fun X e =>
  match e in notifyE X return prog (plugE E) X with
  | SendPaymentReceipt in_ => lift (fun X e => Provider e) (send in_)
  | SelectProcessed id => call (Stores (SelectProcessed id))
  | InsertProcessed id => call (Stores (InsertProcessed id))
  | NRedisGet k => call (Stores (NRedisGet k))
  | NRedisSet k s => call (Stores (NRedisSet k s))
  | After d => call (Stores (After d))
  end.

Definition plug_spec : interface (plugE E) (nview * V) := fun X e x v v' =>
  match e with
  | Stores e => notify_spec X e x v.1 v'.1 /\ v'.2 = v.2
  | Provider e => spec X e x v.2 v'.2 /\ v'.1 = v.1
  end.

(** From [v0] to [v] the sender has been told to send these mails, the latest first,
    and has or has not. *)
Inductive accounted (v0 : V) : list (SendInput.t * bool) -> V -> Prop :=
| acc_none : accounted v0 [] v0
| acc_failed l in_ v v' : accounted v0 l v -> failed in_ v v' -> accounted v0 ((in_, false) :: l) v'
| acc_accepted l in_ v v' : accounted v0 l v -> accepted in_ v v' -> accounted v0 ((in_, true) :: l) v'.

Lemma plugged `{!Sender spec send accepted failed} {A} v0 (p : prog notifyE A) (Q : A -> tview -> Prop) n v l :
  accounted v0 l v -> holds tried_spec p Q (TView n l) ->
  holds plug_spec (interp plug p)
    (fun a s => exists l', accounted v0 l' s.2 /\ Q a (TView s.1 l')) (n, v).
Proof.
  revert n v l; induction p as [a|msg|X e k IH]; intros n v l Hl Hp; [by exists l|done|].
  cbn [interp]. apply holds_bind.
  assert (forall (e' : notifyE X), plug X e = call (Stores e') ->
    (forall x n', notify_spec X e' x n n' -> tried_spec X e x (TView n l) (TView n' l)) ->
    holds plug_spec (plug X e) (fun a s => holds plug_spec (interp plug (k a))
      (fun a s => exists l', accounted v0 l' s.2 /\ Q a (TView s.1 l')) s) (n, v)) as Hstore.
  { intros e' -> He. apply holds_call. intros x [n' v'] [Hs Hv]. simpl in Hs, Hv. subst.
    apply (IH x n' v l Hl). apply Hp. by apply He. }
  destruct e as [id|id|key|key s|in_|d]; try (by apply (Hstore _ eq_refl)).
  eapply (holds_lift (fun X e => Provider e) snd (fun u s => (s.1, u)) spec plug_spec);
    [by intros []|done|done| |apply (sender_keeps in_ v)|].
  { intros X e x [n1 v1] [n2 v2] [Hs Hn]. simpl in *. subst. by exists v2. }
  intros r v' [(-> & Hs)|(e & -> & He & Hs)]; simpl.
  - apply (IH None n v' ((in_, true) :: l)); [eauto using accounted|]. apply Hp. simpl. by left.
  - apply (IH (Some e) n v' ((in_, false) :: l)); [eauto using accounted|]. apply Hp. simpl. right. by exists e.
Qed.

(** A delivery through any sender. *)
Lemma delivery_accounted `{!Sender spec send accepted failed} {W} (h : handler (plugE E) W) (obs : W -> nview * V)
    `{!Refines h obs plug_spec} demo MaxAttempts base decode_error body pl w :
  Payload.Unmarshal body = Some pl -> TrimSpace (Payload.EventID pl) <> "" ->
  exists d w' l, run h (interp plug (Processor.handle demo MaxAttempts base decode_error body)) w = (Done d, w') /\
    accounted (obs w).2 l (obs w').2 /\ delivered_by demo MaxAttempts pl (obs w).1 l d (obs w').1.
Proof.
  intros Hu Hid. destruct (obs w) as [n v] eqn:Hw.
  destruct (holds_run plug_spec h obs _ _ w
    (eq_ind_r (holds _ _ _) (plugged v _ _ n v [] (acc_none v)
      (handle_delivered demo MaxAttempts base decode_error body pl n Hu Hid)) Hw))
    as (d & w' & Hrun & l & Hl & Hd). by exists d, w', l.
Qed.
End Plug.

(** *** What the tries are, by sender *)

(** All the tries of a delivery have failed, or all but the latest. *)
Lemma tries_shape demo MaxAttempts pl n l d n' :
  0 < MaxAttempts -> delivered_by demo MaxAttempts pl n l d n' ->
  exists k, successes l = repeat (Payload.email pl) k /\
    ((k = O /\ Forall (fun t => t.2 = false) l) \/
     (k = 1%nat /\ exists l', l = (Payload.email pl, true) :: l' /\ Forall (fun t => t.2 = false) l')) /\
    (d = Processor.Ack -> ~ known pl n -> k = 1%nat).
Proof.
  intros HM (_ & Hto & Hone & k & _ & Hm & _ & _ & Hh). unfold with_mails in Hm. simpl in Hm. rewrite app_nil_r in Hm.
  assert (forall l', Forall (fun t : SendInput.t * bool => t.2 = false) l' -> successes l' = []) as Hfail.
  { induction 1 as [|t l' Ht _ IH]; [done|]. unfold successes. rewrite filter_cons_False by congruence. exact IH. }
  exists k. split; [exact Hm|]. split.
  - destruct Hone as [Hno|(in_ & l' & -> & Hl')].
    + left. rewrite (Hfail l Hno) in Hm. by destruct k.
    + right. inversion Hto; simplify_eq/=. split; [|by exists l'].
      unfold successes in Hm. rewrite filter_cons_True in Hm by done. fold (successes l') in Hm.
      rewrite fmap_cons in Hm. fold (successes l') in Hm. rewrite (Hfail l' Hl') in Hm. by destruct k as [|[]].
  - intros -> Hk. destruct Hh as [(_ & Hk')|(_ & _ & _ & [?|Hk1])]; [by destruct Hk|lia|].
    destruct Hone as [Hno|(in_ & l' & -> & Hl')].
    + rewrite (Hfail l Hno) in Hm. destruct k; [lia|done].
    + unfold successes in Hm. rewrite filter_cons_True in Hm by done. rewrite fmap_cons in Hm. fold (successes l') in Hm.
      rewrite (Hfail l' Hl') in Hm. by destruct k as [|[]].
Qed.

(** Mailjet's new requests: each is the request for the mail of its try, answered from
    200 to 299 exactly when the try succeeded. *)
Lemma mailjet_accounted m l0 tries l :
  accounted (mailjet_accepted m) (mailjet_failed m) l0 tries l ->
  exists reqs, l = (reqs ++ l0)%list /\ (length reqs <= length tries)%nat /\
    (forall q, q ∈ reqs -> exists t, t ∈ tries /\ q.1 = request_for m t.1 /\ from_option success false q.2 = t.2).
Proof.
  induction 1 as [|tries in_ v v' _ (reqs & -> & Hlen & Hin) Hf|tries in_ v v' _ (reqs & -> & Hlen & Hin) (_ & code & Hs & ->)].
  - exists []. split_and!; [done|done|]. by intros q ?%elem_of_nil.
  - destruct Hf as [->|(_ & c & Hc & ->)].
    + exists reqs. split_and!; [done|simpl; lia|]. intros q (t & Ht & ?)%Hin. exists t. split; [by right|done].
    + exists ((request_for m in_, c) :: reqs). split_and!; [done|simpl; lia|].
      intros q [->|(t & Ht & ?)%Hin]%elem_of_cons; [|exists t; split; [by right|done]].
      exists (in_, false). split; [by left|done].
  - exists ((request_for m in_, Some code) :: reqs). split_and!; [done|simpl; lia|].
    intros q [->|(t & Ht & ?)%Hin]%elem_of_cons; [|exists t; split; [by right|done]].
    exists (in_, true). split; [by left|done].
Qed.

Lemma mailjet_requests m mail l0 tries l :
  accounted (mailjet_accepted m) (mailjet_failed m) l0 tries l -> Forall (fun t => t.1 = mail) tries ->
  exists reqs, l = (reqs ++ l0)%list /\ (length reqs <= length tries)%nat /\
    Forall (fun q => q.1 = request_for m mail) reqs /\
    (Forall (fun t => t.2 = false) tries -> Forall (fun q => from_option success false q.2 = false) reqs) /\
    (forall tries', tries = (mail, true) :: tries' -> Forall (fun t => t.2 = false) tries' ->
     exists code rest, reqs = (request_for m mail, Some code) :: rest /\ 200 <= code < 300 /\
       Forall (fun q => from_option success false q.2 = false) rest).
Proof.
  assert (forall reqs tries, Forall (fun t => t.2 = false) tries ->
    (forall q, q ∈ reqs -> exists t : SendInput.t * bool, t ∈ tries /\ q.1 = request_for m t.1 /\
       from_option success false q.2 = t.2) ->
    Forall (fun q : mailjet_request * option Z => from_option success false q.2 = false) reqs) as Hrefused.
  { intros reqs ts Hts Hin. apply Forall_forall. intros q (t & Ht & _ & ->)%Hin. rewrite Forall_forall in Hts. by apply Hts. }
  intros Hacc Hto. destruct (mailjet_accounted _ _ _ _ Hacc) as (reqs & -> & Hlen & Hin). exists reqs.
  split_and!; [done|done| |intros Hf; by eapply Hrefused|].
  - apply Forall_forall. intros q (t & Ht & -> & _)%Hin. rewrite Forall_forall in Hto. by rewrite (Hto t Ht).
  - intros tries' -> Hf. inversion Hacc as [| |? ? v ? Ha (_ & code & Hs & Hreqs)]; subst.
    destruct (mailjet_accounted _ _ _ _ Ha) as (rest & -> & _ & Hin').
    exists code, rest. rewrite app_comm_cons in Hreqs. apply (inj (fun l => l ++ l0)%list) in Hreqs. subst.
    unfold success in Hs. split_and!; [done|lia|lia|by eapply Hrefused].
Qed.

Lemma simulated_accounted v0 tries v :
  accounted sim_accepted sim_failed v0 tries v -> logged v = (successes tries ++ logged v0)%list.
Proof.
  induction 1 as [|tries in_ v v' _ IH Hf|tries in_ v v' _ IH Ha]; [done|..].
  - unfold sim_failed in Hf. by rewrite Hf, IH.
  - unfold sim_accepted in Ha. by rewrite Ha, IH.
Qed.

(** C29. The notification service with either of its senders, whatever the stores and
    the provider do, on a message with a proper event: it returns.  With Mailjet, at
    most [MaxAttempts] requests are made, each the one request for this event's mail,
    with the account's authorization; at most one of them, the last, is answered by
    Mailjet with a status from 200 to 299, and a message acknowledged for an event that
    was not on record has had this one.  With the simulated sender the mail is logged at
    most once, and exactly once for such a message.  The stores are left as [handled]
    says. *)
Theorem delivery_through_the_sender {W1 W2 : Type}
    (h1 : handler (plugE mailjetE) W1) (obs1 : W1 -> nview * list (mailjet_request * option Z))
    `{!Refines h1 obs1 (plug_spec mailjet_spec)}
    (h2 : handler (plugE simE) W2) (obs2 : W2 -> nview * simview) `{!Refines h2 obs2 (plug_spec sim_spec)}
    m s demo MaxAttempts base decode_error body pl w1 w2 :
  Payload.Unmarshal body = Some pl -> TrimSpace (Payload.EventID pl) <> "" -> 0 < MaxAttempts -> sane s ->
  let mail := Payload.email pl in
  (exists d w' reqs k,
     run h1 (interp (plug (Mailjet.SendPaymentReceipt m)) (Processor.handle demo MaxAttempts base decode_error body)) w1
       = (Done d, w') /\
     (obs1 w').2 = (reqs ++ (obs1 w1).2)%list /\ (length reqs <= Z.to_nat MaxAttempts)%nat /\
     Forall (fun q => q.1 = request_for m mail) reqs /\
     ((k = O /\ Forall (fun q => from_option success false q.2 = false) reqs) \/
      (k = 1%nat /\ exists code rest, reqs = (request_for m mail, Some code) :: rest /\ 200 <= code < 300 /\
         Forall (fun q => from_option success false q.2 = false) rest)) /\
     (d = Processor.Ack -> ~ known pl (obs1 w1).1 -> k = 1%nat) /\
     handled demo MaxAttempts pl (with_sent [] (obs1 w1).1) d (with_sent (repeat mail k) (obs1 w').1)) /\
  (exists d w' k,
     run h2 (interp (plug (Simulated.SendPaymentReceipt s)) (Processor.handle demo MaxAttempts base decode_error body)) w2
       = (Done d, w') /\
     logged (obs2 w').2 = (repeat mail k ++ logged (obs2 w2).2)%list /\ (k <= 1)%nat /\
     (d = Processor.Ack -> ~ known pl (obs2 w2).1 -> k = 1%nat) /\
     handled demo MaxAttempts pl (with_sent [] (obs2 w2).1) d (with_sent (repeat mail k) (obs2 w').1)).
Proof.
  intros Hu Hid HM Hs mail. split.
  - destruct (delivery_accounted mailjet_spec _ (mailjet_accepted m) (mailjet_failed m) h1 obs1 demo MaxAttempts base
      decode_error body pl w1 Hu Hid) as (d & w' & tries & Hrun & Hacc & Hd).
    destruct (tries_shape demo MaxAttempts pl _ _ _ _ HM Hd) as (k & Hk & Hshape & Hack).
    pose proof Hd as (Hlen & Hto & _ & Hh). rewrite Hk in Hh.
    destruct (mailjet_requests m mail _ _ _ Hacc Hto) as (reqs & Hl & Hn & Hreqs & Hno & Hyes).
    exists d, w', reqs, k. split_and!; try done; [lia|].
    destruct Hshape as [[-> Hf]|[-> (l' & -> & Hf)]]; [left|right]; split; eauto.
  - destruct (delivery_accounted sim_spec _ sim_accepted sim_failed (Sender0 := simulated_sender s Hs) h2 obs2 demo MaxAttempts base
      decode_error body pl w2 Hu Hid) as (d & w' & tries & Hrun & Hacc & Hd).
    destruct (tries_shape demo MaxAttempts pl _ _ _ _ HM Hd) as (k & Hk & Hshape & Hack).
    pose proof Hd as (_ & _ & _ & Hh). rewrite Hk in Hh. apply simulated_accounted in Hacc. rewrite Hk in Hacc.
    exists d, w', k. split_and!; try done. destruct Hshape as [[-> _]|[-> _]]; lia.
Qed.

(** Mailjet: a mail without credentials, sender or recipient is refused before
    any request; otherwise at most one request is made, it carries this mail, and
    the answer is nil exactly when Mailjet answered with a status from 200 to 299. *)
Theorem mailjet_outcomes {W : Type} (h : handler mailjetE W) (obs : W -> list (mailjet_request * option Z))
    `{!Refines h obs mailjet_spec} m in_ w :
  exists r w', run h (Mailjet.SendPaymentReceipt m in_) w = (Done r, w') /\
    ((r = None /\ complete m in_ = true /\ exists code, 200 <= code < 300 /\
       obs w' = (MailjetRequest (Mailjet.raw m in_) (Mailjet.authorization m), Some code) :: obs w) \/
     (exists e, r = Some e /\ alien e = true /\
       (obs w' = obs w \/ (complete m in_ = true /\ exists c, from_option success false c = false /\
          obs w' = (MailjetRequest (Mailjet.raw m in_) (Mailjet.authorization m), c) :: obs w)))).
Proof.
  destruct (holds_run mailjet_spec h obs _ _ w (mailjet_sender m in_ (obs w))) as (r & w' & Hrun & Hr).
  exists r, w'. split; [done|]. destruct Hr as [(-> & Hc & code & Hs & Hl)|Hr]; [left|by right].
  split_and!; [done|done|]. exists code. split; [|done]. unfold success in Hs. lia.
Qed.

(** The simulated provider, whatever latencies (any int64) and rate it is made
    with: it never panics, waits between its two latencies, then logs the mail or
    fails; by chance never at rate 0 and always at rate 1. *)
Theorem simulated_outcomes {W : Type} (h : handler simE W) (obs : W -> simview)
    `{!Refines h obs sim_spec} minLat maxLat failRate in_ w :
  in_int64 minLat -> in_int64 maxLat ->
  let s := Simulated.NewSimulated minLat maxLat failRate in
  0 < Simulated.MinLatency s /\
  exists r w', run h (Simulated.SendPaymentReceipt s in_) w = (Done r, w') /\
    simulated_outcome s in_ (obs w) r (obs w').
Proof.
  intros Hmin Hmax s. pose proof (NewSimulated_sane minLat maxLat failRate Hmin Hmax) as Hs.
  split; [apply Hs|]. apply (holds_run sim_spec h obs _ _ w (simulated_all s in_ (obs w) Hs)).
Qed.

(** ** Executable providers *)

(** Mailjet's next answers: a status, or no answer. *)
Definition mailjet_mem : handler mailjetE (list (mailjet_request * option Z) * list (option Z)) :=
  fun X e '(l, script) =>
  match e in mailjetE X return outcome X * _ with
  | NewRequestWithContext _ _ => (Done None, (l, script))
  | ClientDo _ body _ auth =>
      match head script with
      | Some (Some code) => (Done (inl (code, "")), ((MailjetRequest body auth, Some code) :: l, tail script))
      | _ => (Done (inr nmem_error), (l, tail script))
      end
  end.

#[export] Instance mailjet_mem_refines : Refines mailjet_mem fst mailjet_spec.
Proof.
  intros X e [l script]. destruct e; cbn [mailjet_mem]; [by do 2 eexists; (split; [done|]); split; [done|left]|].
  destruct (head script) as [[code|]|]; (do 2 eexists; split; [done|]); simpl;
    [left; eauto|right; eexists; split_and!; [done|done|by left]..].
Qed.

(** The clock runs; every draw is 1/3. *)
Definition sim_mem : handler simE simview := fun X e v =>
  match e in simE X return outcome X * simview with
  | Int63n n => (Done (n / 3), v)
  | Float64 => (Done (Fin (1 # 3)), v)
  | SimAfter d => (Done None, SimView (d :: slept v) (logged v))
  | LogEmail in_ => (Done tt, SimView (slept v) (in_ :: logged v))
  end.

Definition plug_mem {E V} (h : handler E V) : handler (plugE E) (nmem * V) := fun X e '(n, v) =>
  match e with
  | Stores e => let '(r, n) := nmem_calls X e n in (r, (n, v))
  | Provider e => let '(r, v) := h X e v in (r, (n, v))
  end.

#[export] Instance plug_mem_refines {E V U} (h : handler E V) (obs : V -> U) (spec : interface E U)
    `{!Refines h obs spec} : Refines (plug_mem h) (fun s => (nm_view s.1, obs s.2)) (plug_spec spec).
Proof.
  intros X e [n v]. destruct e as [e|e]; simpl.
  - destruct (refines (obs := nm_view) (spec := notify_spec) X e n) as (x & n' & Hx & Hs).
    rewrite Hx. do 2 eexists. split; [done|]. by split.
  - destruct (refines (obs := obs) X e v) as (x & v' & Hx & Hs). rewrite Hx. do 2 eexists. split; [done|]. by split.
Qed.

#[export] Instance sim_mem_refines : Refines sim_mem id sim_spec.
Proof.
  intros X e v. destruct e as [n| |d|in_]; cbn [sim_mem]; do 2 eexists; (split; [done|]); simpl; auto.
  - split; [done|]. intros Hn. split; [by apply Z.div_pos; lia|]. apply Z.div_lt_upper_bound; lia.
  - split; [done|]. by eexists.
Qed.

Lemma simulated_outcomes_witness :
  let s := Simulated.NewSimulated int64_max (-1) (Fin (1 # 5)) in
  0 < Simulated.MinLatency s /\ exists r w', run sim_mem (Simulated.SendPaymentReceipt s sample_mail) (SimView [] []) = (Done r, w') /\
    simulated_outcome s sample_mail (SimView [] []) r w'.
Proof. by apply (simulated_outcomes sim_mem id int64_max (-1) (Fin (1 # 5)) sample_mail (SimView [] [])). Defined.

(** Mailjet is down at first; the retry is accepted. *)
Lemma delivery_through_the_sender_witness :
  let s := Simulated.NewSimulated int64_max (-1) (Fin (1 # 5)) in
  let n := nmem_start [] in
  (exists d w' reqs k,
     run (plug_mem mailjet_mem) (interp (plug (Mailjet.SendPaymentReceipt sample_mailjet))
       (Processor.handle "" 4 2000000000 sample_decode sample_payload)) (n, ([], [Some 503; Some 200])) = (Done d, w') /\
     (w'.2).1 = (reqs ++ [])%list /\ (length reqs <= 4)%nat /\
     Forall (fun q => q.1 = request_for sample_mailjet (Payload.email sample_event_payload)) reqs /\
     ((k = O /\ Forall (fun q => from_option success false q.2 = false) reqs) \/
      (k = 1%nat /\ exists code rest, reqs = (request_for sample_mailjet (Payload.email sample_event_payload), Some code) :: rest /\
         200 <= code < 300 /\ Forall (fun q => from_option success false q.2 = false) rest)) /\
     (d = Processor.Ack -> ~ known sample_event_payload (nm_view n) -> k = 1%nat) /\
     handled "" 4 sample_event_payload (with_sent [] (nm_view n)) d
       (with_sent (repeat (Payload.email sample_event_payload) k) (nm_view w'.1))) /\
  (exists d w' k,
     run (plug_mem sim_mem) (interp (plug (Simulated.SendPaymentReceipt s))
       (Processor.handle "" 4 2000000000 sample_decode sample_payload)) (n, SimView [] []) = (Done d, w') /\
     logged w'.2 = (repeat (Payload.email sample_event_payload) k ++ [])%list /\ (k <= 1)%nat /\
     (d = Processor.Ack -> ~ known sample_event_payload (nm_view n) -> k = 1%nat) /\
     handled "" 4 sample_event_payload (with_sent [] (nm_view n)) d
       (with_sent (repeat (Payload.email sample_event_payload) k) (nm_view w'.1))).
Proof.
  intros s n.
  apply (delivery_through_the_sender (plug_mem mailjet_mem) (fun s => (nm_view s.1, fst s.2))
    (plug_mem sim_mem) (fun s => (nm_view s.1, id s.2)) sample_mailjet s "" 4 2000000000
    sample_decode sample_payload sample_event_payload (n, ([], [Some 503; Some 200])) (n, SimView [] []));
    [exact sample_unmarshal|by vm_compute|done|by apply NewSimulated_sane; apply (bool_decide_unpack _)].
Defined.

Lemma mailjet_outcomes_witness :
  exists r w', run mailjet_mem (Mailjet.SendPaymentReceipt sample_mailjet sample_mail) ([], [Some 429]) = (Done r, w') /\
    ((r = None /\ complete sample_mailjet sample_mail = true /\ exists code, 200 <= code < 300 /\
       w'.1 = [(MailjetRequest (Mailjet.raw sample_mailjet sample_mail) (Mailjet.authorization sample_mailjet), Some code)]) \/
     (exists e, r = Some e /\ alien e = true /\
       (w'.1 = [] \/ (complete sample_mailjet sample_mail = true /\ exists c, from_option success false c = false /\
          w'.1 = [(MailjetRequest (Mailjet.raw sample_mailjet sample_mail) (Mailjet.authorization sample_mailjet), c)])))).
Proof. exact (mailjet_outcomes mailjet_mem fst sample_mailjet sample_mail ([], [Some 429])). Defined.
