(* ===== verification/StreamClient.v ===== *)
(** * The stream client

    src/client/stream_client.go: it subscribes to the updates of one order and
    prints them until the stream ends or the user asks it to stop.  The main
    goroutine reads the stream; a second one waits for a signal and cancels a
    context that the first looks at between two messages.  The server's side is
    [OrderServer] (OrderStream). *)

From S2P Require Import Prelude Goroutines GoLib GoTime Proto OrderPorts OrderStream OrderStreamFacts OrderStreamProps.

(** How the program ends, and (for the goroutine that waits) that it has ended. *)
Inductive ending : Type :=
| Fatal (msg : string)
| StreamError (err : error)
| Stopped
| OutOfRounds
| Watched.

Section Calls.
Context (Timestamp : Type).

Inductive clientE : Type -> Type :=
| Dial (addr : string) : clientE (option error)
| Subscribe (req : OrderRequest.t) : clientE (option error)
| GoWatch : clientE unit
| Notify : clientE unit
| AwaitSignal : clientE unit
| Cancel : clientE unit
| CtxDone : clientE bool
| Recv : clientE (OrderStatusUpdate.t Timestamp + error)
| Print (text : string) : clientE unit
| CloseConn : clientE unit.
End Calls.
Arguments Dial {Timestamp} _.
Arguments Subscribe {Timestamp} _.
Arguments GoWatch {Timestamp}.
Arguments Notify {Timestamp}.
Arguments AwaitSignal {Timestamp}.
Arguments Cancel {Timestamp}.
Arguments CtxDone {Timestamp}.
Arguments Recv {Timestamp}.
Arguments Print {Timestamp} _.
Arguments CloseConn {Timestamp}.

Module StreamClient.
Section StreamClient.
(** The moment a protobuf timestamp stands for; nil stands for the epoch. *)
Context {Timestamp : Type} (AsTime : option Timestamp -> Z).

Notation update := (OrderStatusUpdate.t Timestamp).
Definition goroutine : Type := prog (clientE Timestamp) ending.

(** The eight lines printed for an update. *)
Definition render (u : update) : string :=
  nl ++ "=== ORDER UPDATE ===" ++ nl ++
  "Order ID: " ++ OrderStatusUpdate.OrderId u ++ nl ++
  "Customer: " ++ OrderStatusUpdate.CustomerId u ++ nl ++
  "Item: " ++ OrderStatusUpdate.ItemName u ++ nl ++
  "Amount: " ++ Itoa (OrderStatusUpdate.Amount u) ++ " cents" ++ nl ++
  "Status: " ++ OrderStatusUpdate.Status u ++ nl ++
  "Updated: " ++ format_seconds (AsTime (OrderStatusUpdate.UpdatedAt u)) ++ nl ++
  "==================" ++ nl ++ nl.

(** A return of [main] runs its deferred calls. *)
Definition leave (e : ending) : goroutine :=
  _ ← call Cancel;
  _ ← call CloseConn;
  mret e.

(** The receiving loop, for up to [rounds] messages. *)
Fixpoint receive (rounds : nat) : goroutine :=
  match rounds with
  | O => mret OutOfRounds
  | S rounds =>
      stop ← call CtxDone;
      if stop : bool then leave Stopped else
      r ← call Recv;
      match r with
      | inr err => leave (StreamError err)
      | inl update => _ ← call (Print (render update)); receive rounds
      end
  end.

(** ... waiting for a message. *)
Definition receiving (rounds : nat) : goroutine :=
  r ← call Recv;
  match r with
  | inr err => leave (StreamError err)
  | inl update => _ ← call (Print (render update)); receive rounds
  end.

(** From the subscription on. *)
Definition subscribe (rounds : nat) (orderID : string) : goroutine :=
  err ← call (Subscribe (OrderRequest.mk orderID));
  match err with
  | Some err => mret (Fatal ("Failed to subscribe: " ++ Error err))
  | None => _ ← call GoWatch; receive rounds
  end.

(** The goroutine that handles SIGINT and SIGTERM. *)
Definition watch : goroutine :=
  _ ← call Notify;
  _ ← call AwaitSignal;
  _ ← call Cancel;
  mret Watched.

(** [log.Fatal] ends the process without the deferred calls. *)
Definition main (rounds : nat) (args : list string) (env : string) : goroutine :=
  match args with
  | _ :: orderID :: _ =>
      let orderGrpcAddr := if String.eqb env "" then "localhost:50052" else env in
      err ← call (Dial orderGrpcAddr);
      match err with
      | Some err => mret (Fatal ("Failed to connect: " ++ Error err))
      | None => subscribe rounds orderID
      end
  | _ => mret (Fatal "Usage: go run stream_client.go <order_id>")
  end.

(** ** The process and its surroundings

    [asked]: the order subscribed to; [told]: what the stream has delivered, of
    which [taken] messages were received; [ended]: the stream's end; [notified]:
    the program handles signals itself; [signalled]: one is in the channel. *)
Record state := State {
  asked : option string;
  told : list update;
  taken : nat;
  ended : option error;
  notified : bool;
  signalled : bool;
  ctx_done : bool;
  stdout : list string;
  killed : bool
}.

Definition start : state := State None [] 0 None false false false [] false.

(** A killed process does nothing any more. The luck is whether connecting fails. *)
Definition exec {X} (e : clientE Timestamp X) (l : option error) (m : state) : reply state X :=
  if killed m then Block else
  match e in clientE _ X return reply state X with
  | Dial _ => Answer l m
  | Subscribe req =>
      match l with
      | Some err => Answer (Some err) m
      | None =>
          Answer None (State (Some (OrderRequest.OrderId req)) (told m) (taken m) (ended m) (notified m)
                         (signalled m) (ctx_done m) (stdout m) (killed m))
      end
  | GoWatch => Answer tt m
  | Notify =>
      Answer tt (State (asked m) (told m) (taken m) (ended m) true (signalled m) (ctx_done m) (stdout m) (killed m))
  | AwaitSignal =>
      if signalled m
      then Answer tt (State (asked m) (told m) (taken m) (ended m) (notified m) false (ctx_done m) (stdout m) (killed m))
      else Block
  | Cancel =>
      Answer tt (State (asked m) (told m) (taken m) (ended m) (notified m) (signalled m) true (stdout m) (killed m))
  | CtxDone => Answer (ctx_done m) m
  | Recv =>
      match told m !! taken m, ended m with
      | Some u, _ =>
          Answer (inl u) (State (asked m) (told m) (S (taken m)) (ended m) (notified m) (signalled m) (ctx_done m)
                            (stdout m) (killed m))
      | None, Some err => Answer (inr err) m
      | None, None => Block
      end
  | Print text =>
      Answer tt (State (asked m) (told m) (taken m) (ended m) (notified m) (signalled m) (ctx_done m)
                   (stdout m ++ [text])%list (killed m))
  | CloseConn => Answer tt m
  end.

Definition started {X} (e : clientE Timestamp X) : list goroutine :=
  match e with GoWatch => [watch] | _ => [] end.

(** What reaches the process: a message or the end of the stream, and signals,
    which kill a program that does not handle them. *)
Inductive arrival : Type :=
| Update (u : update)
| End (err : error)
| Signal.

Definition arrive (a : arrival) (m : state) : state * list goroutine :=
  match a with
  | Update u =>
      (match ended m with
       | None => State (asked m) (told m ++ [u])%list (taken m) None (notified m) (signalled m) (ctx_done m)
                   (stdout m) (killed m)
       | Some _ => m
       end, [])
  | End err =>
      (State (asked m) (told m) (taken m) (match ended m with None => Some err | e => e end) (notified m)
         (signalled m) (ctx_done m) (stdout m) (killed m), [])
  | Signal =>
      (if notified m
       then State (asked m) (told m) (taken m) (ended m) true true (ctx_done m) (stdout m) (killed m)
       else State (asked m) (told m) (taken m) (ended m) false (signalled m) (ctx_done m) (stdout m) true, [])
  end.

Definition pool : Type := gpool (clientE Timestamp) state ending.

Definition launch (rounds : nat) (args : list string) (env : string) : pool :=
  GPool [main rounds args env] start None.

Definition play (evs : list (event (option error) arrival)) (s : pool) : pool :=
  Goroutines.play (@exec) (@started) arrive evs s.
End StreamClient.
End StreamClient.
Import StreamClient.

(** ** What the main goroutine may rely on *)

Section ClientFacts.
Context {Timestamp : Type} (AsTime : option Timestamp -> Z).
Notation state := (@state Timestamp).
Notation goroutine := (@goroutine Timestamp).
Notation pool := (@pool Timestamp).
Notation arrival := (@arrival Timestamp).
Notation play := (@StreamClient.play Timestamp).
Notation shown := (render AsTime).

(** What the signals and the server change meanwhile. *)
Record env (m m' : state) : Prop := {
  env_asked : asked m' = asked m;
  env_taken : taken m' = taken m;
  env_stdout : stdout m' = stdout m;
  env_told : told m `prefix_of` told m';
  env_ended : forall e, ended m = Some e -> ended m' = Some e /\ told m' = told m;
  env_done : ctx_done m = true -> ctx_done m' = true
}.

(** What the client's own other goroutine changes. *)
Record still (m m' : state) : Prop := {
  still_asked : asked m' = asked m;
  still_taken : taken m' = taken m;
  still_stdout : stdout m' = stdout m;
  still_told : told m' = told m;
  still_ended : ended m' = ended m;
  still_done : ctx_done m = true -> ctx_done m' = true
}.

Lemma still_env m m' : still m m' -> env m m'.
Proof. intros []. split; auto; [by rewrite still_told0|]. intros e He. split; congruence. Qed.

Lemma env_refl m : env m m.
Proof. by split. Qed.

Lemma env_trans m m1 m2 : env m m1 -> env m1 m2 -> env m m2.
Proof.
  intros [] []. split; try congruence; auto; [by etrans|]. intros e He.
  destruct (env_ended0 e He) as [He1 Ht1]. destruct (env_ended1 e He1). split; congruence.
Qed.

Lemma arrive_env a m : env m (fst (arrive a m)).
Proof.
  destruct a; simpl.
  - destruct (ended m) eqn:He; [apply env_refl|]. split; simpl; try done; [by apply prefix_app_r|]. congruence.
  - split; simpl; try done. intros e0 He. by rewrite He.
  - destruct (notified m); split; simpl; auto.
Qed.

(** The calls of the other goroutine. *)
Fixpoint watching (p : goroutine) : Prop :=
  match p with
  | Ret _ => True
  | Panic _ => False
  | Do e k =>
      match e with Notify | AwaitSignal | Cancel => True | _ => False end /\ forall x, watching (k x)
  end.

Lemma watch_watching : watching watch.
Proof. simpl. auto. Qed.

Lemma watching_step {T} (e : clientE Timestamp T) k l m x m' :
  watching (Do e k) -> exec e l m = Answer x m' -> watching (k x) /\ still m m' /\ started e = [].
Proof.
  intros [He Hk] Hx. split; [apply Hk|]. unfold exec in Hx. clear Hk. destruct (killed m); [done|].
  destruct e; try done; repeat case_match; simplify_eq; by split; [split|].
Qed.

(** No call takes the process down. *)
Lemma exec_no_crash {T} (e : clientE Timestamp T) l m msg : exec e l m <> Crash msg.
Proof. unfold exec. by repeat case_match. Qed.

(** ** A pool seen from its main goroutine *)

Section Tracked.
Context (P : goroutine -> state -> Prop).
Context (ok : arrival -> Prop) (rely : state -> state -> Prop).
Context (rely_arrive : forall a m, ok a -> rely m (fst (arrive a m))).
Context (rely_still : forall m m', still m m' -> rely m m').
Context (P_rely : forall p m m', rely m m' -> P p m -> P p m').
Context (P_step : forall T (e : clientE Timestamp T) k l m x m',
           P (Do e k) m -> exec e l m = Answer x m' -> P (k x) m').
Context (P_sane : forall msg m, ~ P (Panic msg) m).

Record tracked (s : pool) : Prop := {
  tracked_crash : crash s = None;
  tracked_main : exists p ps, goroutines s = p :: ps /\ P p (memory s) /\ Forall watching ps
}.

(** Only these arrivals. *)
Definition only (ev : event (option error) arrival) : Prop := match ev with Arrive a => ok a | Run _ _ => True end.

Lemma tracked_step ev s : only ev -> tracked s -> tracked (go_step (@exec _) (@started _) arrive ev s).
Proof using rely_arrive rely_still P_rely P_step P_sane.
  intros Hev [Hc (p & ps & Hg & Hp & Hps)]. unfold go_step. rewrite Hc. destruct ev as [i l|a].
  2: { pose proof (rely_arrive a (memory s) Hev) as Ha. assert (snd (arrive a (memory s)) = []) as Hs by by destruct a.
       destruct (arrive a (memory s)) as [m' qs]. simpl in *. subst qs. split; [done|].
       exists p, ps. rewrite Hg, app_nil_r. split_and!; [done|by eapply P_rely|done]. }
  destruct (goroutines s !! i) as [[a|msg|T e k]|] eqn:Hi;
    try by (split; [done|exists p, ps; split_and!; done]).
  destruct (exec e l (memory s)) as [x m'| |msg] eqn:Hx;
    [|by split; [done|exists p, ps; split_and!; done]|by apply exec_no_crash in Hx].
  rewrite Hg in Hi. destruct i as [|i]; simpl in Hi.
  - simplify_eq. pose proof (P_step _ _ _ _ _ _ _ Hp Hx) as Hp'. split; simpl.
    { destruct (k x) eqn:Hk; [done| |done]. by apply P_sane in Hp'. }
    exists (k x), (ps ++ started e)%list. rewrite Hg. split_and!; [done|done|]. apply Forall_app. split; [done|].
    destruct e; simpl; repeat constructor; apply watch_watching.
  - pose proof (Forall_lookup_1 _ _ _ _ Hps Hi) as Hw.
    destruct (watching_step e k l _ x m' Hw Hx) as (Hw' & Henv & Hs). split; simpl.
    { destruct (k x) eqn:Hk; [done| |done]. done. }
    exists p, (<[i := k x]> ps). rewrite Hg, Hs, app_nil_r. split_and!; [done|eapply P_rely; [by apply rely_still|done]|].
    by apply Forall_insert.
Qed.

Lemma tracked_play evs s : Forall only evs -> tracked s -> tracked (play evs s).
Proof using rely_arrive rely_still P_rely P_step P_sane.
  intros Hevs. revert s; induction Hevs as [|ev evs Hev _ IH]; intros s Hs; [done|]. by apply IH, tracked_step.
Qed.
End Tracked.

(** ** The main goroutine *)

(** [p] receives nothing beyond message [n]. *)
Fixpoint limited (n : nat) (p : goroutine) (m : state) : Prop :=
  match p with
  | Ret _ => True
  | Panic _ => False
  | Do e k =>
      forall m1, env m m1 -> forall l x m2, exec e l m1 = Answer x m2 ->
      (taken m2 <= n)%nat /\ limited n (k x) m2
  end.

Lemma limited_env n p m m' : env m m' -> limited n p m -> limited n p m'.
Proof. destruct p; simpl; [done..|]. intros He Hp m1 He1. apply Hp. by eapply env_trans. Qed.

Context (rounds : nat) (args : list string).

(** The client has subscribed to the order of its command line. *)
Definition on_order (m : state) : Prop := exists id, args !! 1%nat = Some id /\ asked m = Some id.

Lemma on_order_same m m' : asked m' = asked m -> on_order m -> on_order m'.
Proof. intros Ha (id & ? & ?). exists id. split; congruence. Qed.

(** What was printed is the rendering of what was received, but perhaps for the
    last message; and it concerns the order of the command line. *)
Record printed (m : state) : Prop := {
  printed_out : stdout m = shown <$> take (length (stdout m)) (told m);
  printed_taken : (length (stdout m) <= taken m <= S (length (stdout m)))%nat;
  printed_told : (taken m <= length (told m))%nat;
  printed_asked : taken m = 0%nat \/ on_order m
}.

(** What the end of [main] tells. *)
Definition ends (e : ending) (m : state) : Prop :=
  match e with
  | StreamError err => ended m = Some err /\ stdout m = shown <$> told m
  | Stopped => ctx_done m = true /\ stdout m = shown <$> take (taken m) (told m)
  | OutOfRounds => taken m = rounds /\ stdout m = shown <$> take (taken m) (told m)
  | Fatal _ => stdout m = []
  | Watched => False
  end.

(** Once the context is cancelled, at most one more message is received. *)
Definition winding_up (p : goroutine) (m : state) : Prop :=
  forall m1, env m m1 -> ctx_done m1 = true -> limited (S (taken m)) p m1.

Fixpoint guided (p : goroutine) (m : state) : Prop :=
  printed m /\ winding_up p m /\
  match p with
  | Ret e => ends e m
  | Panic _ => False
  | Do e k => forall m1, env m m1 -> forall l x m2, exec e l m1 = Answer x m2 -> guided (k x) m2
  end.

Lemma guided_printed p m : guided p m -> printed m.
Proof. destruct p; by intros []. Qed.
Lemma guided_winding p m : guided p m -> winding_up p m.
Proof. destruct p; by intros (_ & ? & _). Qed.

Lemma printed_env m m' : env m m' -> printed m -> printed m'.
Proof.
  intros [] []. destruct env_told0 as [us Hus]. split; rewrite ?env_stdout0, ?env_taken0; try done.
  - rewrite Hus, take_app_le by lia. done.
  - rewrite Hus, length_app. lia.
  - destruct printed_asked0; [by left|right]. by apply (on_order_same m).
Qed.

Lemma winding_env p m m' : env m m' -> winding_up p m -> winding_up p m'.
Proof.
  intros He Hp m1 He1 Hd. rewrite (env_taken _ _ He). apply Hp; [by eapply env_trans|done].
Qed.

Lemma ends_env e m m' : env m m' -> printed m -> ends e m -> ends e m'.
Proof.
  intros [] []. destruct env_told0 as [us Hus]. destruct e; simpl; rewrite ?env_taken0, ?env_stdout0; try done.
  - intros [H ->]. by destruct (env_ended0 _ H) as [-> ->].
  - intros [H ->]. rewrite Hus, take_app_le by lia. auto.
  - intros [H ->]. rewrite Hus, take_app_le by lia. auto.
Qed.

Lemma guided_env p m m' : env m m' -> guided p m -> guided p m'.
Proof.
  intros He. destruct p; simpl; intros (Hpr & Hw & Hp);
    (split; [by eapply printed_env|split; [by eapply winding_env|]]); [by eapply ends_env|done|].
  intros m1 He1. apply Hp. by eapply env_trans.
Qed.

Lemma guided_step {T} (e : clientE Timestamp T) k l m x m' :
  guided (Do e k) m -> exec e l m = Answer x m' -> guided (k x) m'.
Proof. intros (_ & _ & Hp). apply Hp, env_refl. Qed.

(** *** The loop is guided *)

Definition neutral {T} (e : clientE Timestamp T) : Prop :=
  match e with Recv | Print _ | Subscribe _ => False | _ => True end.

(** What the answer of such a call tells. *)
Definition tells {T} (e : clientE Timestamp T) (m' : state) : T -> Prop :=
  match e in clientE _ T return T -> Prop with
  | Cancel => fun _ => ctx_done m' = true
  | CtxDone => fun b => b = ctx_done m'
  | _ => fun _ => True
  end.

Lemma exec_neutral {T} (e : clientE Timestamp T) l m x m' :
  neutral e -> exec e l m = Answer x m' -> env m m' /\ tells e m' x.
Proof.
  intros Hn Hx. unfold exec in Hx. destruct (killed m); [done|].
  destruct e; try done; repeat case_match; simplify_eq; (split; [by split|done]).
Qed.

Lemma limited_neutral {T} n (e : clientE Timestamp T) (k : T -> goroutine) m :
  neutral e -> (taken m <= n)%nat ->
  (forall x m', env m m' -> tells e m' x -> limited n (k x) m') -> limited n (call e ≫= k) m.
Proof.
  intros Hn Ht Hk m1 He l x m2 Hx. destruct (exec_neutral e l m1 x m2 Hn Hx) as [He1 Hp].
  pose proof (env_trans _ _ _ He He1) as He2. rewrite (env_taken _ _ He2).
  split; [done|by apply Hk].
Qed.

Lemma limited_leave n e m : (taken m <= n)%nat -> limited n (leave e) m.
Proof.
  intros Hn. apply limited_neutral; [done..|]. intros _ m1 He _.
  apply limited_neutral; [done|by rewrite (env_taken _ _ He)|done].
Qed.

Lemma limited_receive n r m : ctx_done m = true -> (taken m <= n)%nat -> limited n (receive AsTime r) m.
Proof.
  intros Hd Hn. destruct r as [|r]; [done|]. apply limited_neutral; [done..|]. intros b m1 He Hb. cbn in Hb.
  rewrite (env_done _ _ He Hd) in Hb. subst b. apply limited_leave. by rewrite (env_taken _ _ He).
Qed.

Lemma guided_ret e m : printed m -> ends e m -> guided (mret e) m.
Proof. intros Hp He. by split. Qed.

Lemma guided_neutral {T} (e : clientE Timestamp T) (k : T -> goroutine) m :
  neutral e -> printed m -> winding_up (call e ≫= k) m ->
  (forall x m', env m m' -> tells e m' x -> guided (k x) m') -> guided (call e ≫= k) m.
Proof.
  intros Hn Hp Hw Hk. split; [done|split; [done|]]. intros m1 He l x m2 Hx.
  destruct (exec_neutral e l m1 x m2 Hn Hx) as [He1 Ht]. apply Hk; [by eapply env_trans|done].
Qed.

Lemma guided_leave e m : printed m -> ends e m -> guided (leave e) m.
Proof.
  intros Hp He. apply guided_neutral; [done|done| |].
  { intros m1 He1 _. apply limited_leave. rewrite (env_taken _ _ He1). lia. }
  intros _ m1 He1 _. apply guided_neutral; [done|by eapply printed_env| |].
  { intros m2 He2 _. apply limited_neutral; [done| |done]. rewrite (env_taken _ _ He2). lia. }
  intros _ m2 He2 _. pose proof (env_trans _ _ _ He1 He2) as He3.
  apply guided_ret; [by eapply printed_env|by eapply ends_env].
Qed.

(** Printing catches up with receiving. *)
Lemma printed_catch_up m u :
  printed m -> taken m = S (length (stdout m)) -> told m !! length (stdout m) = Some u ->
  (stdout m ++ [shown u])%list = shown <$> take (taken m) (told m).
Proof.
  intros [Ho _ _ _] Ht Hu. rewrite Ht, (take_S_r _ _ u) by done. rewrite fmap_app. simpl. by rewrite <-Ho.
Qed.

Lemma caught_up m : printed m -> taken m = length (stdout m) -> stdout m = shown <$> take (taken m) (told m).
Proof. intros [Ho _ _ _] ->. done. Qed.

Lemma exec_Recv l (m : state) r (m' : state) :
  exec Recv l m = Answer r m' ->
  asked m' = asked m /\ told m' = told m /\ ended m' = ended m /\ ctx_done m' = ctx_done m /\ stdout m' = stdout m /\
  match r with
  | inl u => told m !! taken m = Some u /\ taken m' = S (taken m)
  | inr err => ended m = Some err /\ told m !! taken m = None /\ taken m' = taken m
  end.
Proof.
  unfold exec. destruct (killed m); [done|]. destruct (told m !! taken m) eqn:Hu; [intros; by simplify_eq/=|].
  destruct (ended m) eqn:He; [intros; by simplify_eq/=|done].
Qed.

Lemma exec_Print text l (m : state) r (m' : state) :
  exec (Print text) l m = Answer r m' ->
  asked m' = asked m /\ told m' = told m /\ taken m' = taken m /\ ctx_done m' = ctx_done m /\
  stdout m' = (stdout m ++ [text])%list.
Proof. unfold exec. destruct (killed m); [done|]. intros. by simplify_eq/=. Qed.

Lemma exec_Subscribe req l (m : state) r (m' : state) :
  exec (Subscribe req) l m = Answer r m' ->
  told m' = told m /\ taken m' = taken m /\ ctx_done m' = ctx_done m /\ stdout m' = stdout m /\
  match r with None => asked m' = Some (OrderRequest.OrderId req) | Some _ => asked m' = asked m end.
Proof. unfold exec. destruct (killed m); [done|]. by destruct l; intros; simplify_eq/=. Qed.

Lemma limited_print n u r m :
  ctx_done m = true -> (taken m <= n)%nat -> limited n (_ ← call (Print (shown u)); receive AsTime r) m.
Proof.
  intros Hd Hn m1 He l x m2 (_ & _ & Ht & Hc & _)%exec_Print. pose proof (env_taken _ _ He) as He1.
  split; [lia|]. apply limited_receive; [rewrite Hc; by eapply env_done|lia].
Qed.

Lemma guided_print u r m :
  printed m -> taken m = S (length (stdout m)) -> told m !! length (stdout m) = Some u ->
  (forall m', printed m' -> taken m' = length (stdout m') -> taken m' = taken m -> asked m' = asked m ->
     guided (receive AsTime r) m') ->
  guided (_ ← call (Print (shown u)); receive AsTime r) m.
Proof.
  intros Hp Ht Hu Hk. split; [done|split].
  { intros m1 He1 Hd. apply limited_print; [done|]. rewrite (env_taken _ _ He1). lia. }
  intros m1 He l x m2 (Ha & Hto & Hta & _ & Hso)%exec_Print. pose proof (printed_env _ _ He Hp) as Hp1.
  assert (told m1 !! length (stdout m1) = Some u) as Hu1.
  { rewrite (env_stdout _ _ He). eapply prefix_lookup_Some; [exact Hu|apply He]. }
  assert (taken m1 = S (length (stdout m1))) as Ht1 by by rewrite (env_taken _ _ He), (env_stdout _ _ He).
  pose proof (printed_catch_up m1 u Hp1 Ht1 Hu1) as Hc. destruct Hp1 as [_ Hb Hl Hq].
  assert (length (stdout m2) = taken m1) as Hlen by (rewrite Hso, length_app; simpl; lia).
  apply Hk; [|congruence|by rewrite Hta, (env_taken _ _ He)|by rewrite Ha, (env_asked _ _ He)].
  split; rewrite ?Hlen, ?Hta, ?Hto; [by rewrite Hso, Hc|lia|done|].
  destruct Hq; [by left|right]. by apply (on_order_same m1).
Qed.

Lemma guided_receive r m :
  printed m -> on_order m -> taken m = length (stdout m) -> (taken m + r = rounds)%nat ->
  guided (receive AsTime r) m.
Proof.
  revert m; induction r as [|r IH]; intros m Hp Hk Ht Hr.
  { apply guided_ret; [done|]. split; [lia|by apply caught_up]. }
  apply guided_neutral; [done|done| |].
  { intros m1 He Hd. apply (limited_receive _ (S r)); [done|]. rewrite (env_taken _ _ He). lia. }
  intros stop m1 He Hs. cbn in Hs. pose proof (printed_env _ _ He Hp) as Hp1.
  
  apply (on_order_same _ _ (env_asked _ _ He)) in Hk. rewrite <-(env_taken _ _ He) in Hr.
  rewrite <-(env_taken _ _ He), <-(env_stdout _ _ He) in Ht. destruct stop.
  { apply guided_leave; [done|]. split; [done|by apply caught_up]. }
  clear He Hp Hs. split; [done|split].
  { intros m2 He Hd m3 He1 l x m4 (_ & _ & _ & Hc & _ & Hx)%exec_Recv.
    pose proof (env_taken _ _ (env_trans _ _ _ He He1)) as He2. pose proof (env_done _ _ He1 Hd) as Hd1.
    destruct x as [u|err]; destruct Hx as (? & Hx); (split; [lia|]).
    - apply limited_print; [congruence|lia].
    - apply limited_leave; lia. }
  intros m2 He l x m3 (Ha & Hto & Hen & _ & Hso & Hx)%exec_Recv. pose proof (printed_env _ _ He Hp1) as Hp2.
  rewrite <-(env_taken _ _ He), <-(env_stdout _ _ He) in Ht. apply (on_order_same _ _ (env_asked _ _ He)) in Hk.
  assert (taken m2 + S r = rounds)%nat as Hr2 by by rewrite (env_taken _ _ He).
  pose proof (caught_up m2 Hp2 Ht) as Hc. destruct Hp2 as [Ho Hb Hl Hq].
  destruct x as [u|err].
  - destruct Hx as [Hu Hta]. pose proof (lookup_lt_Some _ _ _ Hu) as Hlt.
    apply guided_print; rewrite ?Hso, ?Hto, ?Hta; [|lia|by rewrite <-Ht|].
    + split; rewrite ?Hso, ?Hto, ?Hta; [done|lia|exact Hlt|right; by apply (on_order_same m2)].
    + intros m' Hp' Ht' Htt Ha'. apply IH; [done|apply (on_order_same m2); congruence|done|lia].
  - destruct Hx as (He2 & Hnone & Hta). apply lookup_ge_None in Hnone.
    apply guided_leave; [split; rewrite ?Hso, ?Hto, ?Hta; [done..|right; by apply (on_order_same m2)]|].
    split; [congruence|]. rewrite Hso, Hto, Hc, take_ge by lia. done.
Qed.

Lemma guided_subscribe id m :
  args !! 1%nat = Some id -> printed m -> taken m = 0%nat -> stdout m = [] -> guided (subscribe AsTime rounds id) m.
Proof.
  intros Hid Hp Ht Ho. split; [done|split].
  { intros m1 He Hd m2 He1 l x m3 (_ & Hta & Hc & _)%exec_Subscribe.
    pose proof (env_taken _ _ (env_trans _ _ _ He He1)) as He2. pose proof (env_done _ _ He1 Hd) as Hd1.
    split; [lia|]. destruct x as [err|]; [done|]. apply limited_neutral; [done|lia|].
    intros _ m4 He4 _. apply limited_receive; [apply He4; congruence|]. rewrite (env_taken _ _ He4). lia. }
  intros m1 He l x m2 (Hto & Hta & Hc & Hso & Hx)%exec_Subscribe. pose proof (printed_env _ _ He Hp) as Hp1.
  rewrite <-(env_taken _ _ He) in Ht. rewrite <-(env_stdout _ _ He) in Ho.
  assert (printed m2) as Hp2.
  { destruct Hp1 as [? ? ? ?]. split; rewrite ?Hso, ?Hto, ?Hta; [done..|by left]. }
  destruct x as [err|]; [apply guided_ret; [done|simpl; congruence]|].
  apply guided_neutral; [done|done| |].
  { intros m3 He3 Hd. apply limited_neutral; [done|rewrite (env_taken _ _ He3); lia|].
    intros _ m4 He4 _. apply limited_receive; [by apply He4|].
    rewrite (env_taken _ _ He4), (env_taken _ _ He3). lia. }
  intros _ m3 He3 _. apply guided_receive; [by eapply printed_env| | |].
  - exists id. split; [done|]. rewrite (env_asked _ _ He3). exact Hx.
  - by rewrite (env_taken _ _ He3), (env_stdout _ _ He3), Hta, Hso, Ht, Ho.
  - rewrite (env_taken _ _ He3). lia.
Qed.

Lemma guided_main addr : guided (main AsTime rounds args addr) start.
Proof.
  assert (printed start) as Hs by (split; [done|simpl; lia|done|by left]).
  destruct (args !! 1%nat) as [id|] eqn:Hid.
  2: { assert (main AsTime rounds args addr = mret (Fatal "Usage: go run stream_client.go <order_id>")) as ->
         by (unfold main; destruct args as [|? [|]]; done).
       by apply guided_ret. }
  assert (main AsTime rounds args addr =
    err ← call (Dial (if String.eqb addr "" then "localhost:50052" else addr));
    match err with
    | Some err => mret (Fatal ("Failed to connect: " ++ Error err))
    | None => subscribe AsTime rounds id
    end) as -> by (unfold main; destruct args as [|? [|]]; by simplify_eq/=).
  apply guided_neutral; [done|done| |].
  - intros m He Hd. apply limited_neutral; [done|rewrite (env_taken _ _ He); simpl; lia|].
    intros err m1 He1 _. destruct err as [err|]; [done|].
    apply (guided_winding _ _ (guided_subscribe id start Hid Hs eq_refl eq_refl)); [by eapply env_trans|by apply He1].
  - intros err m He _. destruct err as [err|].
    + apply guided_ret; [by eapply printed_env|]. simpl. by rewrite (env_stdout _ _ He).
    + by apply (guided_env _ start), guided_subscribe.
Qed.

Lemma launched evs addr : tracked guided (play evs (launch AsTime rounds args addr)).
Proof.
  apply (tracked_play _ (fun _ => True) env); [intros; apply arrive_env|apply still_env|intros; by eapply guided_env
    |intros; by eapply guided_step|by intros ? ? (_ & _ & [])|apply Forall_true; by intros []|].
  split; [done|]. exists (main AsTime rounds args addr), []. split_and!; [done|apply guided_main|constructor].
Qed.
End ClientFacts.

(** ** Signals *)

Section Silence.
Context {Timestamp : Type} (AsTime : option Timestamp -> Z).
Notation state := (@state Timestamp).
Notation pool := (@pool Timestamp).
Notation play := (@StreamClient.play Timestamp).

(** Nothing comes from the server. *)
Definition silent (a : @arrival Timestamp) : Prop := a = Signal.

Definition bounded (n : nat) (p : @goroutine Timestamp) (m : state) : Prop :=
  (taken m <= n)%nat /\ limited n p m.

Lemma bounded_play n evs (s : pool) : tracked (bounded n) s -> (taken (memory (play evs s)) <= n)%nat.
Proof.
  intros Ht. destruct (tracked_play (bounded n) (fun _ => True) env)
    with (evs := evs) (s := s) as [_ (p & ps & _ & (Hn & _) & _)]; try done.
  - intros; apply arrive_env.
  - apply still_env.
  - intros p m m' He [Hn Hl]. split; [by rewrite (env_taken _ _ He)|by eapply limited_env].
  - intros T e k l m x m' [Hn Hl] Hx. exact (Hl m (env_refl m) l x m' Hx).
  - by intros msg m (_ & []).
  - apply Forall_true. by intros [].
Qed.

(** The client waits in [Recv], and nothing is there. *)
Record waiting (r : nat) (out : list string) (p : @goroutine Timestamp) (m : state) : Prop := {
  waiting_at : p = receiving AsTime r;
  waiting_told : told m !! taken m = None;
  waiting_ended : ended m = None;
  waiting_out : stdout m = out
}.

Definition at_recv (p : @goroutine Timestamp) : Prop := match p with Do Recv _ => True | _ => False end.

Lemma waiting_silent r out evs (s : pool) :
  Forall (only silent) evs -> tracked (waiting r out) s -> tracked (waiting r out) (play evs s).
Proof.
  apply (tracked_play _ _ (fun m m' => told m' = told m /\ taken m' = taken m /\ ended m' = ended m /\ stdout m' = stdout m)).
  - intros a m ->. simpl. by destruct (notified m).
  - by intros m m' [].
  - intros p m m' (H1 & H2 & H3 & H4) []. split; congruence.
  - intros T e k l m x m' [Hp Ht He _] Hx. exfalso.
    assert (at_recv (Do e k)) as Hr by by rewrite Hp.
    destruct e; try done. apply exec_Recv in Hx as (_ & _ & _ & _ & _ & Hx).
    destruct x; destruct Hx as [Hx _];
      [by pose proof (eq_trans (eq_sym Ht) Hx)|by pose proof (eq_trans (eq_sym He) Hx)].
  - by intros msg m [].
Qed.
End Silence.

(** ** The properties *)

Section ClientProperties.
Context {Timestamp : Type} (AsTime : option Timestamp -> Z).
Notation state := (@state Timestamp).
Notation pool := (@pool Timestamp).
Notation play := (@StreamClient.play Timestamp).

(** C21. The client with the server behind its stream, in every interleaving: what it
    prints, message by message and in order, is rows that the order of its command
    line had; when the stream ends it has printed every message, when it is told
    to stop every message it received; and nothing makes it panic. *)
Theorem client_shows_rows (timestamppb_New : Z -> Timestamp) uuid_in grow sevs ticks orders
    rounds args addr evs st :
  fits grow -> (forall c o, orders !! c = Some o -> Order.ID o = c) ->
  let srv := OrderServer.serve timestamppb_New uuid_in grow sevs
               (OrderServer.NewOrderServer timestamppb_New ticks orders) in
  let s := play evs (launch AsTime rounds args addr) in
  (forall u, u ∈ told (memory s) -> (st, u) ∈ OrderServer.sent (memory srv)) ->
  (forall id, asked (memory s) = Some id -> OrderServer.streams (memory srv) !! st = Some id) ->
  crash s = None /\
  stdout (memory s) = render AsTime <$> take (length (stdout (memory s))) (told (memory s)) /\
  (forall text, text ∈ stdout (memory s) -> exists id o now,
     args !! 1%nat = Some id /\ row_known uuid_in (memory srv) id o /\
     text = render AsTime (OrderServer.status_update timestamppb_New o now)) /\
  (forall e, goroutines s !! 0%nat = Some (mret e) -> ends AsTime rounds e (memory s)).
Proof.
  intros Hfits Hkeys srv s Htold Hasked.
  destruct (launched AsTime rounds args evs addr) as [Hc (p & ps & Hg & Hp & _)]. fold s in Hc, Hg, Hp.
  destruct (guided_printed _ _ _ _ _ Hp) as [Ho Ht Hl Hk]. split_and!; [done|done| |].
  - intros text Htext. rewrite Ho in Htext. apply list_elem_of_fmap in Htext as (u & -> & Hu).
    assert (taken (memory s) <> 0%nat) as H0.
    { intros H0. rewrite H0 in Ht. assert (length (stdout (memory s)) = 0%nat) as Hz by lia.
      rewrite Hz in Hu. by apply elem_of_nil in Hu. }
    assert (u ∈ told (memory s)) as Hin.
    { apply elem_of_take in Hu as (i & Hu & _). by eapply list_elem_of_lookup_2. }
    destruct (serve_good timestamppb_New uuid_in grow Hfits sevs ticks orders Hkeys) as [[_ _ Hsent _] _ _].
    destruct (Hsent st u (Htold u Hin)) as (id & o & now & Hid & Hrow & ->).
    exists id, o, now. split_and!; [|done|done].
    destruct Hk as [|(id' & Ha & Hk)]; [done|]. rewrite Ha. exact (eq_trans (eq_sym (Hasked _ Hk)) Hid).
  - intros e He. rewrite Hg in He. simplify_eq/=. by destruct Hp as (_ & _ & ?).
Qed.
(** C40. Ctrl+C waits for the server: once the context is cancelled the client takes
    at most one more message, but while it waits for that message no signal ends
    it, however long the server stays silent. *)
Theorem shutdown_waits_for_the_server rounds args addr evs0 :
  let s := play evs0 (launch AsTime rounds args addr) in
  ctx_done (memory s) = true ->
  (forall evs, (taken (memory (play evs s)) <= S (taken (memory s)))%nat) /\
  (forall r evs,
     goroutines s !! 0%nat = Some (receiving AsTime r) -> told (memory s) !! taken (memory s) = None ->
     ended (memory s) = None -> Forall (only silent) evs ->
     goroutines (play evs s) !! 0%nat = Some (receiving AsTime r) /\
     stdout (memory (play evs s)) = stdout (memory s)).
Proof.
  intros s Hd. destruct (launched AsTime rounds args evs0 addr) as [Hc (p & ps & Hg & Hp & Hps)]. fold s in Hc, Hg, Hp.
  split.
  - intros evs. apply bounded_play. split; [done|]. exists p, ps. split_and!; [done| |done]. split; [apply Nat.le_succ_diag_r|].
    apply (guided_winding _ _ _ _ _ Hp); [apply env_refl|done].
  - intros r evs Hr Hn He Hs. rewrite Hg in Hr. simplify_eq/=.
    destruct (waiting_silent AsTime r (stdout (memory s)) evs s Hs) as [_ (p & qs & Hq & [-> _ _ ->] & _)].
    { split; [done|]. exists (receiving AsTime r), ps. by split_and!. }
    by rewrite Hq.
Qed.

Lemma solo_receive r err m :
  killed m = false -> ctx_done m = false -> ended m = Some err ->
  (taken m <= length (told m) < taken m + r)%nat ->
  exists m', solo (@StreamClient.exec Timestamp) (@StreamClient.started Timestamp) None (receive AsTime r) m =
      Some (StreamError err, [], m') /\
    asked m' = asked m /\ stdout m' = (stdout m ++ (render AsTime <$> drop (taken m) (told m)))%list.
Proof.
  revert m; induction r as [|r IH]; intros [a us n e nt sg cd out kd] Hk Hd He Hl; simpl in Hk, Hd, He, Hl; subst.
  { lia. }
  destruct (us !! n) as [u|] eqn:Hu.
  - pose proof (lookup_lt_Some _ _ _ Hu).
    assert (exec Recv None (State a us n (Some err) nt sg false out false) =
      Answer (inl u) (State a us (S n) (Some err) nt sg false out false)) as Hx by (unfold exec; cbn; by rewrite Hu).
    simpl. rewrite Hx. simpl.
    destruct (IH (State a us (S n) (Some err) nt sg false (out ++ [render AsTime u])%list false)) as (m' & Hm & Ha & Ho);
      [done..|simpl; lia|].
    exists m'. rewrite Hm. split_and!; [done|done|]. rewrite Ho. simpl. rewrite (drop_S us u n) by done.
    by rewrite <-app_assoc.
  - apply lookup_ge_None in Hu as Hn.
    assert (exec Recv None (State a us n (Some err) nt sg false out false) =
      Answer (inr err) (State a us n (Some err) nt sg false out false)) as Hx by (unfold exec; cbn; by rewrite Hu).
    simpl. rewrite Hx. simpl. eexists. split_and!; [done|done|].
    simpl. by rewrite drop_ge, app_nil_r by lia.
Qed.

(** C31. A client left alone with a stream that delivers some messages and then ends
    prints exactly these, in order, and returns with the stream's error. *)
Theorem client_ends_with_the_stream rounds prog orderID rest addr us err :
  (length us < rounds)%nat ->
  exists ps m, solo (@StreamClient.exec Timestamp) (@StreamClient.started Timestamp) None
      (main AsTime rounds (prog :: orderID :: rest) addr)
      (State None us 0 (Some err) false false false [] false) = Some (StreamError err, ps, m) /\
    asked m = Some orderID /\ stdout m = render AsTime <$> us.
Proof.
  intros Hl. destruct (solo_receive rounds err (State (Some orderID) us 0 (Some err) false false false [] false))
    as (m & Hm & Ha & Ho); [done..|simpl; lia|].
  exists [watch], m. split; [|done]. unfold main, subscribe. simpl. by rewrite Hm.
Qed.
End ClientProperties.

(** ** A client of the small server *)

Definition as_time (t : option Z) : Z := default 0 t.
Definition turns (i n : nat) : list (event (option error) (@arrival Z)) := replicate n (Run i None).
Definition sample_client (evs : list (event (option error) (@arrival Z))) : @pool Z :=
  StreamClient.play evs (launch as_time 5 ["stream_client"; "0a1b"] "").
Definition first_message : OrderStatusUpdate.t Z :=
  OrderServer.status_update id (stream_order StatusPending) 7.

Lemma client_shows_rows_witness :
  let srv := stream_server (OrderStreamProps.subscribe ++ OrderStreamProps.step 1 4)%list in
  let s := sample_client (turns 0 4 ++ [Arrive (Update first_message)] ++ turns 0 2)%list in
  stdout (memory s) = [render as_time first_message] /\
  forall text, text ∈ stdout (memory s) -> exists id' o now,
    Some "0a1b" = Some id' /\ row_known Some (memory srv) id' o /\
    text = render as_time (OrderServer.status_update id o now).
Proof.
  split; [vm_compute; reflexivity|].
  refine (proj1 (proj2 (proj2 (client_shows_rows as_time id Some doubling
    (OrderStreamProps.subscribe ++ OrderStreamProps.step 1 4)%list 5 {["0a1b" := stream_order StatusPending]}
    5 ["stream_client"; "0a1b"] "" (turns 0 4 ++ [Arrive (Update first_message)] ++ turns 0 2)%list 0%nat _ _ _ _)))).
  - apply doubling_fits.
  - by intros c o [<- <-]%lookup_singleton_Some.
  - intros u Hu. assert (u = first_message) as ->; [|vm_compute; left].
    apply list_elem_of_singleton. exact Hu.
  - intros id' Hid. vm_compute in Hid. simplify_eq. vm_compute. reflexivity.
Defined.

(** The signal has come, the context is cancelled, and the client still waits. *)
Definition told_to_stop : list (event (option error) (@arrival Z)) :=
  (turns 0 4 ++ turns 1 1 ++ [Arrive Signal] ++ turns 1 2)%list.

Definition more_signals : list (event (option error) (@arrival Z)) :=
  ([Arrive Signal; Arrive Signal] ++ turns 0 3 ++ turns 1 3)%list.

Lemma shutdown_waits_for_the_server_witness :
  ctx_done (memory (sample_client told_to_stop)) = true /\
  goroutines (StreamClient.play more_signals (sample_client told_to_stop)) !! 0%nat = Some (receiving as_time 4) /\
  stdout (memory (StreamClient.play more_signals (sample_client told_to_stop))) = [].
Proof.
  split; [reflexivity|].
  refine (proj2 (shutdown_waits_for_the_server as_time 5 ["stream_client"; "0a1b"] "" told_to_stop _)
    4%nat more_signals _ _ _ _); try reflexivity. by repeat constructor.
Defined.

Lemma client_ends_with_the_stream_witness :
  exists ps m, solo (@StreamClient.exec Z) (@StreamClient.started Z) None
      (main as_time 5 ["stream_client"; "0a1b"] "")
      (State None [first_message; first_message] 0 (Some (ErrorNew "EOF")) false false false [] false)
    = Some (StreamError (ErrorNew "EOF"), ps, m) /\
    asked m = Some "0a1b" /\ stdout m = render as_time <$> [first_message; first_message].
Proof. apply client_ends_with_the_stream. simpl. lia. Defined.

(** What the user sees of a message. *)
Example message_shown :
  render as_time first_message =
  nl ++ "=== ORDER UPDATE ===" ++ nl ++ "Order ID: 0a1b" ++ nl ++ "Customer: customer-1" ++ nl ++ "Item: keyboard" ++ nl ++
  "Amount: 500 cents" ++ nl ++ "Status: Pending" ++ nl ++ "Updated: 1970-01-01T00:00:00Z" ++ nl ++
  "==================" ++ nl ++ nl.
Proof. vm_compute. reflexivity. Qed.
