(* ===== verification/PaymentRest.v ===== *)
(** * Payments over REST: the order service's REST client and the payment service's HTTP handlers

    [RestClient] (internal/adapter/payment/rest_client.go of the order service)
    speaking to the handlers of the payment service (internal/transport/http),
    with the JSON bodies and the escaped path in between.  gin's router and binder
    are arguments. *)

From S2P Require Import Prelude GoLib Json GoTime Http OrderPorts PaymentClients Publisher PaymentUsecase PaymentProps PaymentTransport.
From Stdlib Require Import Ascii.
Import PaymentPorts.

(** ** URLs *)

Definition hex_value (a : ascii) : option Z :=
  if between 48 57 a then Some (byte_val a - 48)
  else if between 65 70 a then Some (byte_val a - 55)
  else if between 97 102 a then Some (byte_val a - 87) else None.

(** [url.PathUnescape] *)
Fixpoint PathUnescape (s : string) : option string :=
  match s with
  | EmptyString => Some EmptyString
  | String "%" r =>
      match r with
      | String a (String b r) =>
          match hex_value a, hex_value b with
          | Some x, Some y => String (chr (Z.to_nat (16 * x + y))) <$> PathUnescape r
          | _, _ => None
          end
      | _ => None
      end
  | String a r => String a <$> PathUnescape r
  end.

Lemma PathUnescape_byte a r :
  PathUnescape (PathEscape (String a EmptyString) ++ r) = String a <$> PathUnescape r.
Proof. all_bytes a; reflexivity. Qed.

Lemma PathEscape_cons a s : PathEscape (String a s) = PathEscape (String a EmptyString) ++ PathEscape s.
Proof. simpl. by destruct (path_char a). Qed.

(** A path segment is read back. *)
Lemma PathUnescape_PathEscape s : PathUnescape (PathEscape s) = Some s.
Proof.
  induction s as [|a s IH]; [done|]. by rewrite PathEscape_cons, PathUnescape_byte, IH.
Qed.

Lemma PathUnescape_plain a s : a <> "%"%char -> PathUnescape (String a s) = String a <$> PathUnescape s.
Proof. all_bytes a; done. Qed.

Lemma PathUnescape_app p s :
  Forall (fun a => a <> "%"%char) (lit p) -> PathUnescape (p ++ s) = String.append p <$> PathUnescape s.
Proof.
  induction p as [|a p IH]; intros Hp; [change ("" ++ s) with s; by destruct (PathUnescape s)|]. apply Forall_cons in Hp as [Ha Hp].
  change (String a p ++ s) with (String a (p ++ s)). rewrite PathUnescape_plain, IH by done.
  by destruct (PathUnescape s).
Qed.

Fixpoint strip (p s : string) : option string :=
  match p, s with
  | EmptyString, _ => Some s
  | String a p, String b s => if Ascii.eqb a b then strip p s else None
  | _, _ => None
  end.

Lemma strip_app p s : strip p (p ++ s) = Some s.
Proof. induction p as [|a p IH]; [by destruct s|]. simpl. by rewrite Ascii.eqb_refl. Qed.

Lemma limit_reader_all n s : Z.of_nat (String.length s) <= n -> limit_reader n s = s.
Proof.
  revert n; induction s as [|a s IH]; intros n Hn; [done|]. cbn [limit_reader String.length] in *.
  rewrite (proj2 (Z.leb_gt _ _)) by lia. f_equal. apply IH. lia.
Qed.

(** ** The payment service behind its URL *)

Section Rest.
Context (baseURL : string) (decode_error : string -> error) (pub : bool).
Context (bind : string -> option createPaymentRequest.t).
Context (route : string -> string -> option (payment_handler * string)).

(** The binder decodes the body and checks the binding tags; the router finds the
    routes of [RegisterRoutes], a parameter being one segment. *)
Class Gin : Prop := {
  gin_bind : forall text r,
    unmarshal createPaymentRequest.fields text (createPaymentRequest.mk "" 0 "") = Some r ->
    bind text = if createPaymentRequest.tags r then Some r else None;
  gin_post : route "POST" "/payments" = Some (HCreatePayment, "");
  gin_get : forall id, id <> "" -> Contains id "/" = false ->
    route "GET" ("/payments/" ++ id) = Some (HGetPaymentByOrderID, id)
}.

Definition json_text (v : json) : string := String.string_of_list_ascii (print v).

Definition answer (resp : response) : Z * string := (code resp, json_text (body resp)).

(** One request: the path after the server's address, decoded, and its handler. *)
Definition serve_http (method url body : string) : prog E (Z * string) :=
  match strip baseURL url with
  | None => mret (StatusNotFound, "404 page not found")
  | Some path =>
      match PathUnescape path with
      | None => mret (StatusBadRequest, "400 Bad Request")
      | Some path =>
          match route method path with
          | Some (HCreatePayment, _) =>
              resp ← PaymentHandlers.CreatePayment bind pub body; mret (answer resp)
          | Some (HGetPaymentByOrderID, id) =>
              resp ← PaymentHandlers.GetPaymentByOrderID id; mret (answer resp)
          | None => mret (StatusNotFound, "404 page not found")
          end
      end
  end.

(** The client's calls, when the network delivers; gin recovers a panic. *)
Definition rest_calls {W} (h : handler E W) : handler httpE W := fun X e w =>
  match e in httpE X return outcome X * W with
  | NewRequest _ _ _ => (Done None, w)
  | DoRequest method url body _ =>
      match run h (serve_http method url body) w with
      | (Done r, w') => (Done (inl r), w')
      | (Panicked _, w') => (Done (inl (StatusInternalServerError, "")), w')
      end
  end.

(** ** What the client makes of what the use cases return *)

Definition bad_request_texts : list string :=
  ["amount must be greater than zero"; "order_id is required"; "customer_email is required"].

Definition rest_error (err : error) : error :=
  if existsb (Contains (Error err)) bad_request_texts then ErrPaymentInvalidArgument
  else if Contains (Error err) "payment already exists" then ErrPaymentAlreadyRecorded
  else ErrPaymentUnavailable.

Definition seen_authorization (r : outcome (option AuthorizePaymentOutput.t * option error)) :
    string * string * option error :=
  match r with
  | Done (Some out, None) => (AuthorizePaymentOutput.TransactionID out, AuthorizePaymentOutput.Status out, None)
  | Done (_, Some err) => ("", "", Some (rest_error err))
  | _ => ("", "", Some ErrPaymentUnavailable)
  end.

Definition seen_payment (r : outcome (option Payment.t * option error)) : string * option error :=
  match r with
  | Done (Some p, None) => (Payment.Status p, None)
  | Done (None, None) => ("", Some ErrPaymentNotFound)
  | Done (_, Some err) =>
      ("", Some (if Contains (Error err) "order_id is required"
                 then RestClient.unexpected StatusBadRequest (limit_reader (2 ^ 20) (json_text (error_body (Error err))))
                 else ErrPaymentUnavailable))
  | Panicked _ => ("", Some ErrPaymentUnavailable)
  end.

(** The texts survive JSON, and the body is within the client's limit. *)
Definition fits_in_answer (ms : list (string * json)) : Prop := Z.of_nat (String.length (marshal ms)) <= 2 ^ 20.
Definition sendable_output (out : AuthorizePaymentOutput.t) : Prop :=
  utf8_string (AuthorizePaymentOutput.TransactionID out) /\ utf8_string (AuthorizePaymentOutput.Status out) /\
  in_int64 (AuthorizePaymentOutput.Amount out) /\ fits_in_answer (createPaymentResponse out).
Definition sendable_payment (p : Payment.t) : Prop :=
  utf8_string (Payment.Status p) /\ in_int64 (Payment.Amount p) /\ fits_in_answer (getPaymentResponse p).

Lemma read_output out :
  sendable_output out ->
  RestClient.authorize_response decode_error StatusOK
    (limit_reader (2 ^ 20) (json_text (struct_body (createPaymentResponse out)))) =
  (AuthorizePaymentOutput.TransactionID out, AuthorizePaymentOutput.Status out, None).
Proof.
  intros (Ht & Hs & Ha & Hf). change (json_text _) with (marshal (createPaymentResponse out)).
  rewrite limit_reader_all by done. unfold RestClient.authorize_response, paymentAPIResponse.Unmarshal. simpl.
  rewrite unmarshal_marshal; [|done|unfold createPaymentResponse; members_ok].
  cbn [map createPaymentResponse]. decode_members_by assumption. done.
Qed.

Lemma read_payment p :
  sendable_payment p ->
  RestClient.status_response decode_error StatusOK
    (limit_reader (2 ^ 20) (json_text (struct_body (getPaymentResponse p)))) = (Payment.Status p, None).
Proof.
  intros (Hs & Ha & Hf). change (json_text _) with (marshal (getPaymentResponse p)).
  rewrite limit_reader_all by done. unfold RestClient.status_response. simpl.
  rewrite unmarshal_marshal; [|done|unfold getPaymentResponse; members_ok].
  cbn [map getPaymentResponse]. decode_members_by assumption. done.
Qed.

(** The body of a request is read as it was meant. *)
Lemma read_request id amount email :
  utf8_string id -> utf8_string email -> in_int64 amount ->
  unmarshal createPaymentRequest.fields (RestClient.authorize_body id amount email) (createPaymentRequest.mk "" 0 "") =
  Some (createPaymentRequest.mk id amount email).
Proof.
  intros Hi He Ha. unfold RestClient.authorize_body. rewrite unmarshal_marshal; [|done|members_ok].
  cbn [map]. decode_members_by assumption. done.
Qed.

Lemma run_bound {W A B} (h : handler E W) (p : prog E A) (f : A -> prog E B) w :
  run h (p ≫= f) w = match run h p w with
    | (Done a, w') => run h (f a) w' | (Panicked msg, w') => (Panicked msg, w') end.
Proof. apply run_bind. Qed.

#[local] Arguments RestClient.authorize_response : simpl never.
#[local] Arguments RestClient.status_response : simpl never.
#[local] Arguments json_text : simpl never.
#[local] Arguments limit_reader : simpl never.

Section Served.
Context `{!Gin} {W : Type} (h : handler E W).
Notation served p w :=
  (match run h p w with
   | (Done resp, w') => (Done (inl (answer resp)), w')
   | (Panicked _, w') => (Done (inl (StatusInternalServerError, "")), w')
   end).

Lemma served_post text ct w :
  rest_calls h _ (DoRequest "POST" (baseURL ++ "/payments") text ct) w =
  served (PaymentHandlers.CreatePayment bind pub text) w.
Proof.
  cbn [rest_calls]. unfold serve_http. rewrite strip_app. cbn [PathUnescape fmap option_fmap option_map].
  rewrite gin_post, run_bound. by destruct (run h _ w) as [[resp|msg] w'].
Qed.

Lemma served_get id ct w :
  id <> "" -> Contains id "/" = false ->
  rest_calls h _ (DoRequest "GET" (baseURL ++ "/payments/" ++ PathEscape id) "" ct) w =
  served (PaymentHandlers.GetPaymentByOrderID id) w.
Proof.
  intros Hid Hs. cbn [rest_calls]. unfold serve_http. rewrite strip_app.
  assert (PathUnescape ("/payments/" ++ PathEscape id) = Some ("/payments/" ++ id)) as ->.
  { rewrite PathUnescape_app, PathUnescape_PathEscape; [done|]. by repeat constructor. }
  rewrite gin_get, run_bound by done. by destruct (run h _ w) as [[resp|msg] w'].
Qed.

Lemma run_authorize id amount email w :
  run (rest_calls h) (RestClient.Authorize baseURL decode_error id amount email) w =
  match run h (PaymentHandlers.CreatePayment bind pub (RestClient.authorize_body id amount email)) w with
  | (Done resp, w') =>
      (Done (RestClient.authorize_response decode_error (code resp) (limit_reader (2 ^ 20) (json_text (body resp)))), w')
  | (Panicked _, w') => (Done ("", "", Some ErrPaymentUnavailable), w')
  end.
Proof.
  unfold RestClient.Authorize. rewrite run_call_bind. cbn [rest_calls]. rewrite run_call_bind, served_post.
  by destruct (run h _ w) as [[resp|msg] w'].
Qed.

Lemma run_get_status id w :
  TrimSpace id <> "" -> Contains (TrimSpace id) "/" = false ->
  run (rest_calls h) (RestClient.GetStatus baseURL decode_error id) w =
  match run h (PaymentHandlers.GetPaymentByOrderID (TrimSpace id)) w with
  | (Done resp, w') =>
      (Done (RestClient.status_response decode_error (code resp) (limit_reader (2 ^ 20) (json_text (body resp)))), w')
  | (Panicked _, w') => (Done ("", Some ErrPaymentUnavailable), w')
  end.
Proof.
  intros Hid Hs. unfold RestClient.GetStatus. rewrite run_call_bind. cbn [rest_calls]. rewrite run_call_bind, served_get by done.
  by destruct (run h _ w) as [[resp|msg] w'].
Qed.

(** C22. Paying through the REST client and the payment service's handlers is the same
    as calling the use cases on the trimmed texts, up to the error the client knows
    each failure by; a request the binder refuses does nothing. *)
Theorem rest_client_equivalent id amount email w :
  utf8_string id -> utf8_string email -> in_int64 amount ->
  let direct := run h (AuthorizePayment.Execute pub
                  (AuthorizePaymentInput.mk (TrimSpace id) amount (TrimSpace email))) w in
  let lookup := run h (GetPaymentByOrder.Execute (TrimSpace id)) w in
  (forall out w', direct = (Done (Some out, None), w') -> sendable_output out) ->
  (forall p w', lookup = (Done (Some p, None), w') -> sendable_payment p) ->
  run (rest_calls h) (RestClient.Authorize baseURL decode_error id amount email) w =
    (if createPaymentRequest.tags (createPaymentRequest.mk id amount email)
     then (Done (seen_authorization (fst direct)), snd direct)
     else (Done ("", "", Some ErrPaymentInvalidArgument), w)) /\
  (TrimSpace id <> "" -> Contains (TrimSpace id) "/" = false ->
   run (rest_calls h) (RestClient.GetStatus baseURL decode_error id) w = (Done (seen_payment (fst lookup)), snd lookup)).
Proof.
  intros Hi He Ha direct lookup Hout Hp. split.
  - rewrite run_authorize. unfold PaymentHandlers.CreatePayment.
    rewrite (gin_bind _ _ (read_request id amount email Hi He Ha)).
    destruct (createPaymentRequest.tags _); [|done]. cbn [createPaymentRequest.OrderID createPaymentRequest.Amount
      createPaymentRequest.CustomerEmail]. rewrite run_bound.
    change (run h (AuthorizePayment.Execute _ _) w) with direct.
    destruct direct as [[[out [err|]]|msg] w'] eqn:Hd; [|destruct out as [out|]|]; simpl.
    + unfold rest_error. cbn [bad_request_texts existsb]. rewrite orb_false_r.
      unfold PaymentHandlers.create_response. rewrite <-!orb_assoc.
      destruct (_ || _); [by destruct out|]. by destruct (Contains _ _), out.
    + by rewrite read_output by by eapply Hout.
    + done.
    + done.
  - intros Hne Hs. rewrite run_get_status by done. unfold PaymentHandlers.GetPaymentByOrderID.
    rewrite TrimSpace_idemp, bool_decide_false, run_bound by done.
    change (run h (GetPaymentByOrder.Execute _) w) with lookup.
    destruct lookup as [[[p [err|]]|msg] w'] eqn:Hd; [|destruct p as [p|]|]; simpl.
    + destruct (Contains (Error err) "order_id is required") eqn:Hc; simpl; destruct p; simpl; rewrite ?Hc; done.
    + by rewrite read_payment by by eapply Hp.
    + done.
    + done.
Qed.
End Served.
End Rest.

(** ** A small router *)

Definition sample_route (method path : string) : option (payment_handler * string) :=
  if String.eqb method "POST" && String.eqb path "/payments" then Some (HCreatePayment, "")
  else if String.eqb method "GET" then (fun id => (HGetPaymentByOrderID, id)) <$> strip "/payments/" path
  else None.

#[export] Instance sample_gin : Gin bind_payment sample_route.
Proof.
  split.
  - intros text r Hr. unfold bind_payment. by rewrite Hr.
  - done.
  - intros id _ _. unfold sample_route. cbn [String.eqb andb]. by rewrite strip_app.
Qed.

Definition rest_pay (id : string) (amount : Z) (w : pmem) : outcome (string * string * option error) * pmem :=
  run (rest_calls "http://payments:8081" true bind_payment sample_route pmem_ports)
    (RestClient.Authorize "http://payments:8081" ErrorNew id amount "ann@example.com") w.

Lemma rest_client_equivalent_witness :
  rest_pay " order-1" 500 (pmem_start []) =
    (Done (seen_authorization (fst (run pmem_ports (AuthorizePayment.Execute true
       (AuthorizePaymentInput.mk "order-1" 500 "ann@example.com")) (pmem_start [])))),
     snd (run pmem_ports (AuthorizePayment.Execute true
       (AuthorizePaymentInput.mk "order-1" 500 "ann@example.com")) (pmem_start []))).
Proof.
  refine (proj1 (rest_client_equivalent "http://payments:8081" ErrorNew true bind_payment sample_route pmem_ports
    " order-1" 500 "ann@example.com" (pmem_start []) _ _ _ _ _)); try (by apply (bool_decide_unpack _)).
  - intros out w' H. vm_compute in H. simplify_eq. split_and!; apply (bool_decide_unpack _); vm_compute; exact Logic.I.
  - intros p w' H. vm_compute in H. simplify_eq.
Defined.

(** The second payment of an order is recognised, which the gRPC client cannot do. *)
Example rest_recognises_a_duplicate :
  fst (rest_pay "order-1" 500 (snd (rest_pay "order-1" 500 (pmem_start [])))) =
  Done ("", "", Some ErrPaymentAlreadyRecorded).
Proof. vm_compute. reflexivity. Qed.
