(* ===== verification/Retry.v ===== *)
(** * Retrying a purchase

    What a second request for an order can do once the payment service has recorded
    its payment: nothing over the gRPC client, whose errors never say that the payment
    is recorded.  (The REST client has the error that makes the use case reconcile, see
    PaymentRest.) *)

From S2P Require Import Prelude GoLib Json GoTime Http Proto OrderPorts OrderUsecase OrderUsecaseFacts OrderMem.
From S2P Require Import PaymentClients Publisher PaymentUsecase PaymentProps PaymentTransport System.

(** ** Over gRPC *)

(** *** The payment service: no second success for the order *)

Section Recorded.
Context (puuid_in : string -> option string) (ptstz : Z -> Z) (pub : bool) (c : string).
Notation spec := (PaymentUsecase.ports_spec puuid_in ptstz).

Definition recorded (v : pview) : Prop := is_Some (payments v !! c).
Definition kept (v v' : pview) : Prop := payments v ⊆ payments v'.
Definition anything {E : Type -> Type} {V : Type} (X : Type) (e : E X) (v : V) : Prop := True.

Lemma payments_kept X (e : PaymentPorts.E X) x v v' : spec X e x v v' -> kept v v'.
Proof.
  by intros [Hk _]%call_grows.
Qed.

Lemma recorded_kept v v' : kept v v' -> recorded v -> recorded v'.
Proof. intros Hk [p Hp]. exists p. by eapply lookup_weaken. Qed.

#[local] Instance recorded_discipline : Discipline spec recorded kept anything.
Proof.
  split; [intros v; by unfold kept|intros u v w; unfold kept; apply transitivity|].
  intros X e x v v' Hs%payments_kept _ Hr. split; [by eapply recorded_kept|done].
Qed.

Notation pgives := (gives spec recorded kept anything).

Lemma saved_other p v v' : recorded v -> spec _ (PaymentPorts.Save p) None v v' -> Payment.OrderID p <> c.
Proof.
  intros [q Hq] Hs E. promise Hs; try done.
  match goal with H : saved _ _ _ _ _ |- _ => destruct H as (? & _ & Hn & _) end. congruence.
Qed.

(** What the caller is told. *)
Definition other_order (id : string) (r : option AuthorizePaymentOutput.t * option error) : Prop :=
  match r with (Some _, None) => id <> c | (None, None) => False | _ => True end.

Lemma publish_other p email v :
  Payment.OrderID p <> c -> pgives (AuthorizePayment.publish pub p email) (fun r _ => other_order (Payment.OrderID p) r) v.
Proof.
  intros Hp. unfold AuthorizePayment.publish. follow_gives; try done.
  eapply gives_bind; [apply _|by apply publisher_calls; [apply _|..]|]. intros [err|] ? _ _; by apply gives_ret.
Qed.

Lemma execute_other in_ v :
  pgives (AuthorizePayment.Execute pub in_) (fun r _ => other_order (AuthorizePaymentInput.OrderID in_) r) v.
Proof.
  unfold AuthorizePayment.Execute. follow_gives; try done.
  match goal with Hs : spec _ (PaymentPorts.Save _) None ?w _, Hr : recorded ?w |- _ =>
    exact (publish_other _ _ _ (saved_other _ _ _ Hr Hs)) end.
Qed.

Lemma serve_payment_any r v : pgives (serve_payment pub r) (fun _ _ => True) v.
Proof.
  destruct r as [in_|id]; simpl.
  - eapply gives_bind; [apply _|apply execute_other|intros; by apply gives_ret].
  - unfold GetPaymentByOrder.Execute. case_bool_decide; [by apply gives_ret|].
    eapply gives_call; [apply _|done|]. intros. by apply gives_ret.
Qed.

Context {Timestamp : Type} (timestamppb_New : Z -> Timestamp).

Lemma authorize_rpc_other req v :
  pgives (Server.LoggingInterceptor (Server.AuthorizePayment timestamppb_New pub) req)
    (fun r _ => forall resp, r = (Some resp, None) -> AuthorizePaymentRequest.OrderId req <> c) v.
Proof.
  unfold Server.LoggingInterceptor.
  eapply gives_bind with (P := fun r _ => forall resp, r = (Some resp, None) -> AuthorizePaymentRequest.OrderId req <> c);
    [apply _| |intros [resp err] w _ Hr; by apply gives_ret].
  unfold Server.AuthorizePayment. destruct (bool_decide _); [by apply gives_ret|].
  destruct (_ <=? 0); [by apply gives_ret|]. eapply gives_bind; [apply _|apply execute_other|].
  intros [[out|] [e|]] w _ Hr; unfold Server.authorize_reply; try done; try (destruct (Contains _ _); by apply gives_ret).
  by apply gives_ret.
Qed.
End Recorded.

(** *** Both services: the order stays unpaid *)

Section Unpaid.
Context {Timestamp : Type} (timestamppb_New : Z -> Timestamp).
Context (uuid_in : string -> option string) (tstz : Z -> Z).
Context (puuid_in : string -> option string) (ptstz : Z -> Z) (pub cache_on : bool) (ttl : Z) (c : string).
(** The RPCs of the past, whose replies nobody waits for any more. *)
Context (past : Z -> Prop).
Notation sysview := (sysview Timestamp).
Notation sspec := (sys_spec (Timestamp := Timestamp) uuid_in tstz puuid_in ptstz).

(** A reply that reports a success is an old one, or to a request for another order. *)
Definition about_others (v : sysview) (id : Z) (a : rpc_reply Timestamp) : Prop :=
  forall resp, a = AuthorizeReply (Some resp, None) -> past id \/
  exists req, sv_calls v !! id = Some (AuthorizeRpc req) /\ AuthorizePaymentRequest.OrderId req <> c.

Definition not_paid (o : Order.t) : Prop := Order.ID o = c -> Order.Status o <> StatusPaid.

(** The payment of order [c] is recorded, and neither the order nor a reply that
    somebody waits for says so. *)
Record unpaid (v : sysview) : Prop := {
  unp_orders : integrity uuid_in (sv_order v);
  unp_recorded : recorded c (sv_payment v);
  unp_rows : forall k o, orders (sv_order v) !! k = Some o -> not_paid o;
  unp_cache : forall k o, cache (sv_order v) !! k = Some o -> not_paid o;
  unp_calls : forall id q, sv_calls v !! id = Some q -> exists req, q = AuthorizeRpc req;
  unp_past : forall id, past id -> is_Some (sv_calls v !! id);
  unp_replies : forall id a, (id, a) ∈ sv_replies v -> about_others v id a
}.

Record lasting (v v' : sysview) : Prop := {
  lat_pay : kept (sv_payment v) (sv_payment v');
  lat_calls : sv_calls v ⊆ sv_calls v'
}.

Lemma lasting_refl v : lasting v v.
Proof. by split; unfold kept. Qed.
Lemma lasting_trans u v w : lasting u v -> lasting v w -> lasting u w.
Proof. intros [] []. split; unfold kept; by etrans. Qed.

Definition may_write (X : Type) (e : portE X) (v : sysview) : Prop :=
  match e with
  | UpdateStatus id st => st = StatusPaid -> uuid_in id <> Some c
  | CacheSet o _ => storable o = true /\ not_paid o
  | GetStatus _ => False
  | _ => True
  end.

Definition may_call (X : Type) (e : sysE Timestamp X) (v : sysview) : Prop :=
  match e with
  | OnOrder e => may_write X e v
  | OnPayment e => True
  | OnNet e =>
      match e with
      | SendRequest q => exists req, q = AuthorizeRpc req
      | SendReply id a => about_others v id a
      | _ => True
      end
  end.

Lemma about_lasting v v' id a : lasting v v' -> about_others v id a -> about_others v' id a.
Proof.
  intros Hl Ha resp E. destruct (Ha resp E) as [Hp|(req & Hq & Hn)]; [by left|right]. exists req. split; [|done].
  eapply lookup_weaken; [exact Hq|apply lat_calls, Hl].
Qed.

(** The rows an update or a new order leaves. *)
Lemma updated_not_paid v id st o :
  unpaid v -> (st = StatusPaid -> uuid_in id <> Some c) -> updated uuid_in id st (sv_order v) o ->
  forall k r, orders o !! k = Some r -> not_paid r.
Proof.
  intros Hv Hm (c0 & r0 & Hc & Hr0 & _ & ->) k r. simpl.
  intros [[<- <-]|[_ Hr]]%lookup_insert_Some; [|by eapply unp_rows].
  destruct (int_row _ _ (unp_orders _ Hv) _ _ Hr0) as (E & _). intros Hid Hst. simpl in Hid, Hst.
  apply (Hm Hst). congruence.
Qed.

Lemma created_not_paid v key cu it am r o :
  unpaid v -> created uuid_in tstz key cu it am r (sv_order v) o ->
  forall k r, orders o !! k = Some r -> not_paid r.
Proof.
  intros Hv (E & _ & _ & _ & _ & Hst)%created_row k r'. rewrite E.
  intros [[<- <-]|[_ Hr]]%lookup_insert_Some; [|by eapply unp_rows].
  intros _. simpl. by rewrite Hst.
Qed.

Lemma order_call X (e : portE X) x v o :
  OrderPorts.ports_spec uuid_in tstz X e x (sv_order v) o -> may_write X e v -> unpaid v ->
  unpaid (with_orders o v).
Proof.
  intros Hs Hm Hv. pose proof (integrity_call uuid_in tstz X e x _ _ Hs (unp_orders _ Hv)) as Hi.
  assert ((forall k r, orders o !! k = Some r -> not_paid r) -> (forall k r, cache o !! k = Some r -> not_paid r) ->
    unpaid (with_orders o v)) as Hcase by (intros; destruct Hv; by split).
  pose proof (unp_rows v Hv) as Hrows. pose proof (unp_cache v Hv) as Hcache.
  assert (forall id k r, delete id (cache (sv_order v)) !! k = Some r -> not_paid r) as Hdel
    by (intros id k r [_ Hr]%lookup_delete_Some; by eapply Hcache).
  assert (forall r, storable r = true /\ not_paid r -> cached r (sv_order v) o -> unpaid (with_orders o v)) as Hcached.
  { intros r [Hst Hn] (entry & ->%(fun H => H Hst) & ->). apply Hcase; simpl; [done|].
    intros k r' [[_ <-]|[_ Hr]]%lookup_insert_Some; [done|by eapply Hcache]. }
  assert (forall id st, updated uuid_in id st (sv_order v) o -> may_write _ (UpdateStatus id st) v ->
    unpaid (with_orders o v)) as Hupd.
  { intros id st Hu Hm'. apply Hcase; [by eapply updated_not_paid|]. by destruct Hu as (? & ? & _ & _ & _ & ->). }
  assert (forall key cu it am r, created uuid_in tstz key cu it am r (sv_order v) o -> unpaid (with_orders o v)) as Hcre.
  { intros key cu it am r Hc. apply Hcase; [by eapply created_not_paid|].
    apply created_row in Hc as (_ & _ & -> & _). exact Hcache. }
  destruct e; promise Hs; simpl in Hm; eauto; try (apply Hcase; simpl; by eauto).
  case_bool_decide; apply Hcase; simpl; eauto.
Qed.

#[local] Instance unpaid_discipline : Discipline sspec unpaid lasting may_call.
Proof.
  split; [exact lasting_refl|exact lasting_trans|].
  intros X e x v v' Hs Hm Hv. destruct e as [e|e|e]; destruct Hs as (u & Hs & ->).
  - split; [by eapply order_call|by split; unfold kept].
  - apply payments_kept in Hs. split; [|by split]. destruct Hv. split; try done. by eapply recorded_kept.
  - assert (sv_calls v ⊆ u.1 -> (forall id q, u.1 !! id = Some q -> exists req, q = AuthorizeRpc req) ->
      (forall id a, (id, a) ∈ u.2 -> about_others v id a) ->
      unpaid (SysView (sv_order v) (sv_payment v) u.1 u.2) /\ lasting v (SysView (sv_order v) (sv_payment v) u.1 u.2)) as Hcase.
    { intros Hc Hq Ha. assert (lasting v (SysView (sv_order v) (sv_payment v) u.1 u.2)) as Hl by (by split; unfold kept).
      split; [|exact Hl]. destruct Hv. split; try done.
      - intros id [q Hp]%unp_past0. exists q. by eapply lookup_weaken.
      - intros id a Hin. eapply about_lasting; [exact Hl|by apply Ha]. }
    assert (u = (sv_calls v, sv_replies v) ->
      unpaid (SysView (sv_order v) (sv_payment v) u.1 u.2) /\ lasting v (SysView (sv_order v) (sv_payment v) u.1 u.2)) as Hsame
      by (intros ->; apply Hcase; [done|apply unp_calls, Hv|apply unp_replies, Hv]).
    destruct e as [q|id| |id a]; promise Hs; auto.
    + apply Hcase; simpl in *; [by apply insert_subseteq| |apply unp_replies, Hv].
      intros id q' [[_ <-]|[_ Hq]]%lookup_insert_Some; [done|by eapply unp_calls].
    + apply Hcase; simpl; [done|apply unp_calls, Hv|].
      intros id' a' [[= -> ->]|Hin]%elem_of_cons; [exact Hm|by eapply unp_replies].
Qed.

Notation ugives := (gives sspec unpaid lasting may_call).

(** What a call of the order service's ports gives: no authorization of order [c]. *)
Definition port_result : interface portE sysview := fun X e x v v' =>
  unpaid v' /\ lasting v v' /\
  match e in portE X return X -> Prop with
  | Authorize id _ _ => fun r =>
      (exists txn st, r = (txn, st, None) /\ id <> c) \/
      (exists e, r = ("", "", Some e) /\ err_ptr_eq e ErrPaymentAlreadyRecorded = false)
  | GetStatus _ => fun _ => True
  | e => fun x => exists v1, unpaid v1 /\ sspec _ (OnOrder e) x v1 v'
  end x.

#[local] Instance result_discipline : Discipline port_result unpaid lasting may_write.
Proof.
  split; [exact lasting_refl|exact lasting_trans|]. by intros X e x v v' (? & ? & _) _ _.
Qed.

Lemma invoke_other req v :
  ugives (invoke (AuthorizeRpc req)) (fun r _ => forall resp, r = inl (AuthorizeReply (Some resp, None)) ->
    AuthorizePaymentRequest.OrderId req <> c) v.
Proof.
  unfold invoke. eapply gives_call; [apply _|by intros; exists req|].
  intros [id|e] v1 v2 _ _ _ Hv1 _ Hs; [|by apply gives_ret].
  assert (sv_calls v2 !! id = Some (AuthorizeRpc req) /\ ~ past id) as [Hid Hnew].
  { destruct Hs as (n & Hs & ->). promise Hs; simplify_eq. split; [by apply lookup_insert_eq|].
    intros [q Hq]%(unp_past v1 Hv1). simpl in *. congruence. }
  apply gives_last; [done|]. intros r v3 v4 Hf1 _ Hv3 _ Ha resp ->.
  destruct Ha as (n & [-> [(a & [= <-] & Hin)|(e & Hbad & _)]] & ->); [|done].
  destruct (unp_replies _ Hv3 _ _ Hin resp eq_refl) as [Hp|(req' & Hreq & Hn)]; [done|].
  assert (sv_calls v3 !! id = Some (AuthorizeRpc req)) as Hid3
    by (eapply lookup_weaken; [exact Hid|apply lat_calls, Hf1]).
  congruence.
Qed.

Lemma authorize_other id amount email v :
  ugives (interp stub (PaymentClient.Authorize id amount email))
    (fun r _ => (exists txn st, r = (txn, st, None) /\ id <> c) \/
      (exists e, r = ("", "", Some e) /\ err_ptr_eq e ErrPaymentAlreadyRecorded = false)) v.
Proof.
  set (req := AuthorizePaymentRequest.mk id amount email).
  change (ugives (stub _ (RpcAuthorizePayment req) ≫= fun resp => interp stub (match resp with
    | inr err => mret ("", "", Some (PaymentClient.authorize_error err))
    | inl resp => mret (AuthorizePaymentResponse.TransactionId resp, AuthorizePaymentResponse.Status resp, None) end))
    (fun r _ => (exists txn st, r = (txn, st, None) /\ id <> c) \/
      (exists e, r = ("", "", Some e) /\ err_ptr_eq e ErrPaymentAlreadyRecorded = false)) v).
  eapply gives_bind with (P := fun r _ => forall resp, r = inl resp -> id <> c); [apply _| |].
  - eapply gives_bind; [apply _|apply (invoke_other req)|]. cbn beta.
    intros [[[[resp|] [e|]]|]|e] v1 _ Hr; apply gives_ret; try done. intros resp' _. by apply (Hr resp).
  - intros [resp|e] v1 _ Hr; apply gives_ret; [left|right; eexists].
    + do 2 eexists. split; [done|]. by apply (Hr resp).
    + split; [done|]. unfold PaymentClient.authorize_error. by repeat case_match.
Qed.

Lemma ports_give X (e : portE X) v :
  unpaid v -> may_write X e v -> ugives (sys_ports X e) (fun x v' => port_result X e x v v' /\ unpaid v') v.
Proof.
  intros Hv Hm. apply (gives_mono sspec unpaid lasting may_call) with
    (P := fun x v' => unpaid v' /\ lasting v v' /\
       match e in portE X return X -> Prop with
       | Authorize id _ _ => fun r =>
           (exists txn st, r = (txn, st, None) /\ id <> c) \/
           (exists e, r = ("", "", Some e) /\ err_ptr_eq e ErrPaymentAlreadyRecorded = false)
       | GetStatus _ => fun _ => True
       | e => fun x => exists v1, unpaid v1 /\ sspec _ (OnOrder e) x v1 v'
       end x); [|by intros x v' _ (? & ? & ?)].
  apply gives_reach; [apply _|done|].
  destruct e; simpl in Hm; try done; try apply authorize_other; cbn [sys_ports];
    (apply gives_last; [intros v1 Hf Hv1; exact Hm || exact Logic.I|intros x v1 v2 Hf Hf2 Hv1 Hv2 Hs; by exists v1]).
Qed.

(** *** The requests *)

Notation rgives := (gives port_result unpaid lasting may_write).

Definition answer_unpaid (r : option Order.t * option error) (v : sysview) : Prop :=
  forall o, r.1 = Some o -> not_paid o.

Lemma answered_none err v : answer_unpaid (None, err) v.
Proof. by intros o. Qed.
Lemma answered_some o err v : not_paid o -> answer_unpaid (Some o, err) v.
Proof. by intros H o' [= <-]. Qed.
Hint Resolve answered_none answered_some : core.

Lemma row_unpaid id r err v v' : port_result _ (GetByID id) (r, err) v v' -> forall o, r = Some o ->
  not_paid o /\ storable o = true.
Proof.
  intros (Hv & _ & v1 & Hv1 & u & Hs & ->) o ->. promise Hs; simplify_eq.
  match goal with H : Some _ = orders _ !! _ |- _ => symmetry in H; rename H into Ho end.
  split; [by eapply unp_rows|]. by apply (int_row _ _ (unp_orders _ Hv1) _ _ Ho).
Qed.

Lemma drop_gives id (Q : unit -> sysview -> Prop) v :
  (forall v', Q tt v') -> rgives (CreateOrder.invalidate cache_on id) Q v.
Proof.
  intros HQ. unfold CreateOrder.invalidate. destruct (_ || _); [by apply gives_ret|].
  eapply gives_call; [apply _|done|]. intros. by apply gives_ret.
Qed.

Lemma settle_unpaid order st v :
  uuid_in (Order.ID order) = Some (Order.ID order) -> Order.ID order <> c ->
  rgives (CreateOrder.settle cache_on order st) answer_unpaid v.
Proof.
  intros Hid Hne. unfold CreateOrder.settle. eapply gives_call; [apply _|intros; simpl; congruence|].
  intros [err|] v1 v2 _ _ _ _ _ _; [by apply gives_ret; auto|].
  eapply gives_bind; [apply _|by apply (drop_gives _ (fun _ _ => True))|]. intros [] v3 _ _.
  apply gives_ret, answered_some. by intros E.
Qed.

Lemma authorize_unpaid order email v :
  uuid_in (Order.ID order) = Some (Order.ID order) -> not_paid order ->
  rgives (CreateOrder.authorize cache_on order email) answer_unpaid v.
Proof.
  intros Hid Hn. unfold CreateOrder.authorize. eapply gives_call; [apply _|done|].
  intros [[txn st] err] v1 v2 _ _ _ _ _ (_ & _ & Hs).
  destruct Hs as [(txn' & st' & [= -> -> ->] & Hc)|(e & [= -> -> ->] & He)]; [by apply settle_unpaid|].
  destruct (errors_Is _ _); [by apply gives_ret; auto|]. rewrite He.
  destruct (err_ptr_eq e ErrPaymentUnavailable).
  - eapply gives_call; [apply _|done|]. intros [[fresh|] e'] v3 v4 _ _ _ _ _ Hr; apply gives_ret, answered_some; [|done].
    by eapply row_unpaid in Hr as [? _].
  - eapply gives_call; [apply _|done|]. intros _ v3 v4 _ _ _ _ _ _.
    eapply gives_bind; [apply _|by apply (drop_gives _ (fun _ _ => True))|]. intros [] v5 _ _.
    eapply gives_call; [apply _|done|]. intros [[fresh|] e'] v6 v7 _ _ _ _ _ Hr; apply gives_ret, answered_some; [|done].
    by eapply row_unpaid in Hr as [? _].
Qed.

Lemma created_unpaid key cust item amount order b v v' :
  port_result _ (CreatePendingWithIdempotency key cust item amount) (Some order, b, None) v v' ->
  uuid_in (Order.ID order) = Some (Order.ID order) /\ not_paid order.
Proof.
  intros (Hv & _ & v1 & Hv1 & u & Hs & ->). promise Hs; simplify_eq.
  - match goal with H : orders _ !! _ = Some _ |- _ => rename H into Ho end.
    destruct (int_row _ _ (unp_orders _ Hv1) _ _ Ho) as (E & Huu & _). subst.
    split; [done|]. by eapply unp_rows.
  - match goal with H : created _ _ _ _ _ _ _ _ _ |- _ => apply created_row in H as (_ & _ & _ & Hid & _ & Hp) end.
    split; [done|]. intros _. by rewrite Hp.
Qed.

Lemma load_unpaid id v : rgives (GetOrder.load cache_on ttl id) answer_unpaid v.
Proof.
  unfold GetOrder.load. eapply gives_call; [apply _|done|].
  intros [[o|] [e|]] v1 v2 _ _ _ _ _ Hr; try by (apply gives_ret; auto).
  destruct (row_unpaid _ _ _ _ _ Hr o eq_refl) as [Hn Hst].
  destruct (_ && _); [|by apply gives_ret; auto].
  eapply gives_call; [apply _|done|]. intros. by apply gives_ret; auto.
Qed.

Lemma serve_unpaid r v : rgives (serve cache_on ttl r) answer_unpaid v.
Proof.
  destruct r as [inp|id|id]; simpl.
  - unfold CreateOrder.Execute. destruct (_ <=? 0); [by apply gives_ret; auto|].
    destruct (_ || _); [by apply gives_ret; auto|]. eapply gives_call; [apply _|done|].
    intros [[order b] [e|]] v1 v2 _ _ _ _ _ Hs; [by apply gives_ret; auto|].
    destruct order as [order|].
    2: { destruct Hs as (_ & _ & u1 & _ & u & Hs & _). promise Hs; simplify_eq. }
    destruct (created_unpaid _ _ _ _ _ _ _ _ Hs) as [Hid Hn].
    destruct (is_terminal _); [by apply gives_ret; auto|by apply authorize_unpaid].
  - unfold GetOrder.Execute. case_bool_decide; [by apply gives_ret; auto|]. destruct cache_on eqn:Hc;
      rewrite <-Hc; [|apply load_unpaid].
    eapply gives_call; [apply _|done|].
    intros [[o|] [e|]] v1 v2 _ _ _ _ _ Hr; try apply load_unpaid.
    apply gives_ret, answered_some. destruct Hr as (_ & _ & u1 & Hu1 & u & Hs & ->).
    promise Hs; simplify_eq. by eapply (unp_cache u1 Hu1).
  - unfold CancelOrder.Execute. eapply gives_call; [apply _|done|].
    intros [[o|] [e|]] v1 v2 _ _ _ _ _ _; try by (apply gives_ret; auto).
    destruct (negb _); [by apply gives_ret; auto|]. eapply gives_call; [apply _|by intros v3 _ _ Hbad|].
    intros [e|] v3 v4 _ _ _ _ _ _; [by apply gives_ret; auto|].
    assert (forall v5, answer_unpaid (Some (Order.set_Status StatusCancelled o), None) v5) as Hq
      by (intros v5; by apply answered_some).
    destruct cache_on; [|by apply gives_ret]. eapply gives_call; [apply _|done|]. intros. by apply gives_ret.
Qed.

(** *** The goroutines *)

Lemma payment_side {A} (p : prog PaymentPorts.E A) (Q : A -> Prop) v :
  gives (PaymentUsecase.ports_spec puuid_in ptstz) (recorded c) kept anything p (fun a _ => Q a) (sv_payment v) ->
  ugives (lift (fun X => OnPayment) p) (fun a _ => Q a) v.
Proof.
  apply gives_lift with (get := sv_payment); [apply unp_recorded|apply lat_pay|done|].
  by intros X e x v1 v2 (u & Hs & ->).
Qed.

Lemma rpc_unpaid v : ugives (serve_rpc timestamppb_New pub) (fun _ _ => True) v.
Proof.
  unfold serve_rpc. eapply gives_call; [apply _|done|].
  intros [[id q]|] v1 v2 _ _ _ Hv1 Hv2 Hs; [|by apply gives_ret].
  assert (sv_calls v2 !! id = Some q) as Hq.
  { destruct Hs as (n & Hs & ->). promise Hs; try done. by simplify_eq. }
  destruct (unp_calls _ Hv2 _ _ Hq) as [req ->].
  eapply gives_bind with (P := fun a v' => about_others v' id a); [apply _| |].
  - eapply gives_mono; [apply _| |].
    + apply payment_side with (Q := fun a => forall resp, a = AuthorizeReply (Some resp, None) ->
        AuthorizePaymentRequest.OrderId req <> c).
      simpl. eapply gives_bind; [apply recorded_discipline|apply authorize_rpc_other|].
      intros r w _ Hr. apply gives_ret. intros resp [= ->]. by eapply Hr.
    + intros a v3 Hf Ha resp Hr. right. exists req. split; [|by eapply Ha].
      eapply lookup_weaken; [exact Hq|apply lat_calls, Hf].
  - intros a v3 _ Ha. apply gives_last; [|done]. intros v4 Hf _. by apply (about_lasting v3 v4).
Qed.

Definition result_unpaid (r : result) (v : sysview) : Prop :=
  match r with Answered r => answer_unpaid r v | Ended => True end.

Lemma thread_unpaid g v : unpaid v -> ugives (thread timestamppb_New pub cache_on ttl g) result_unpaid v.
Proof.
  intros Hv. destruct g as [r| |r]; cbn [thread].
  - eapply gives_bind with (P := answer_unpaid); [apply _| |intros x v1 _ Hr; by apply gives_ret].
    apply (gives_interp sys_ports sspec port_result unpaid lasting may_call may_write); [|done|apply serve_unpaid].
    intros X e u. apply ports_give.
  - eapply gives_bind; [apply _|apply rpc_unpaid|]. intros. by apply gives_ret.
  - eapply gives_bind with (P := fun _ _ => True); [apply _| |intros; by apply gives_ret].
    apply (payment_side _ (fun _ => True)), serve_payment_any.
Qed.
End Unpaid.

(** C16. An order whose payment the payment service has recorded and that is not Paid
    when the requests being served have ended (the order service was restarted, the
    deadline passed, or publishing the event failed) stays so for ever: whatever is
    requested of either service, in every interleaving and with every failure, it is
    never Paid, in the table or in an answer, and its payment stays.  The gRPC client
    has no error that says that a payment is recorded, so a retry never reconciles. *)
Theorem recorded_payment_never_pays {Timestamp W : Type} (h : handler (sysE Timestamp) W)
    (obs : W -> sysview Timestamp) uuid_in tstz puuid_in ptstz
    `{!Refines h obs (sys_spec uuid_in tstz puuid_in ptstz)}
    timestamppb_New pub cache_on ttl (gs : list goroutine) w sched c p :
  consistent uuid_in pub (obs w) ->
  payments (sv_payment (obs w)) !! c = Some p ->
  (forall k o, orders (sv_order (obs w)) !! k = Some o \/ cache (sv_order (obs w)) !! k = Some o ->
     Order.ID o = c -> Order.Status o <> StatusPaid) ->
  let s := run_schedule h sched (Pool (thread timestamppb_New pub cache_on ttl <$> gs) w false) in
  let v := obs (world s) in
  crashed s = false /\ payments (sv_payment v) !! c = Some p /\
  (forall k o, orders (sv_order v) !! k = Some o -> Order.ID o = c -> Order.Status o <> StatusPaid) /\
  (forall i o err, threads s !! i = Some (Ret (Answered (Some o, err))) ->
     Order.ID o = c -> Order.Status o <> StatusPaid).
Proof.
  intros Hw Hp Ho s v. set (past := fun id => is_Some (sv_calls (obs w) !! id)).
  assert (unpaid uuid_in c past (obs w)) as Hunp.
  { destruct Hw as [? ? ? ? ? Hrep]. split; [done|by exists p|intros k o Hk; exact (Ho k o (or_introl Hk))|intros k o Hk; exact (Ho k o (or_intror Hk))|
      done|done|].
    intros id a Hin resp E. left. destruct (Hrep id a Hin resp E) as (req & Hq & _). by exists (AuthorizeRpc req). }
  destruct (pool_gives (sys_spec uuid_in tstz puuid_in ptstz) (unpaid uuid_in c past) lasting (may_call uuid_in c past)
    (Discipline0 := unpaid_discipline uuid_in tstz puuid_in ptstz c past) h obs
    (fun _ => result_unpaid c) sched (thread timestamppb_New pub cache_on ttl <$> gs) w) as (Hc & Hv & Hl & Hr);
    [done|done| |].
  { intros i q Hq. apply list_lookup_fmap_Some in Hq as (g & -> & _). by apply thread_unpaid. }
  split_and!; [done| | |].
  - eapply lookup_weaken; [exact Hp|apply lat_pay, Hl].
  - apply (unp_rows _ _ _ _ Hv).
  - intros i o err Hi. exact (Hr i _ Hi o eq_refl).
Qed.

(** The broker refuses the event of the order's payment: the customer is told that the
    service is unavailable, the order is Pending and its payment recorded. *)
Definition unannounced_purchase : pool (sysE Z) sysmem result :=
  run_schedule sysmem_calls prompt_schedule (Pool
    (thread (fun t => t) true true 60 <$>
       [OrderThread (ReqCreate (CreateOrderInput.mk "customer-1" "ann@example.com" "keyboard" 500 (Some "key-1"))); RpcThread])
    (SysMem (mem_start [] [] ["0a1b"]) (pmem_start [false; false; true]) ∅ [] 0 0 []) false).

Definition customer_retries : list goroutine :=
  [OrderThread (ReqCreate (CreateOrderInput.mk "customer-1" "ann@example.com" "keyboard" 500 (Some "key-1"))); RpcThread].

Example pending_with_payment :
  let v := sysmem_view (world unannounced_purchase) in
  Order.Status <$> orders (sv_order v) !! "0a1b" = Some StatusPending /\
  Payment.Status <$> payments (sv_payment v) !! "0a1b" = Some Payment.StatusAuthorized /\
  (exists o, threads unannounced_purchase !! 0%nat = Some (Ret (Answered (Some o, Some ErrPaymentUnavailable)))) /\
  let s := run_schedule sysmem_calls prompt_schedule
    (Pool (thread (fun t => t) true true 60 <$> customer_retries) (world unannounced_purchase) false) in
  (exists o, threads s !! 0%nat = Some (Ret (Answered (Some o, Some ErrPaymentUnavailable))) /\
     Order.ID o = "0a1b" /\ Order.Status o = StatusPending).
Proof.
  vm_compute. split_and!; [done|done|by eexists|]. eexists. split; [reflexivity|done].
Qed.

Lemma recorded_payment_never_pays_witness :
  let w := world unannounced_purchase in
  let p := Payment.mk "p-1" "0a1b" "t-1" 500 "Authorized" 0 in
  let s := run_schedule sysmem_calls prompt_schedule
    (Pool (thread (fun t => t) true true 60 <$> customer_retries) w false) in
  let v := sysmem_view (world s) in
  crashed s = false /\ payments (sv_payment v) !! "0a1b" = Some p /\
  (forall k o, orders (sv_order v) !! k = Some o -> Order.ID o = "0a1b" -> Order.Status o <> StatusPaid) /\
  (forall i o err, threads s !! i = Some (Ret (Answered (Some o, err))) ->
     Order.ID o = "0a1b" -> Order.Status o <> StatusPaid).
Proof.
  apply (recorded_payment_never_pays sysmem_calls sysmem_view mem_uuid_in mem_tstz pmem_uuid_in id).
  - eapply (system_runs sysmem_calls sysmem_view mem_uuid_in mem_tstz pmem_uuid_in id).
    split; simpl; [by split|apply (empty_ledger [])|done|done|done|]. intros id a Ha. by apply elem_of_nil in Ha.
  - by vm_compute.
  - assert (orders (sv_order (sysmem_view (world unannounced_purchase))) =
        {["0a1b" := Order.mk "0a1b" "customer-1" "keyboard" 500 StatusPending 0]} /\
      cache (sv_order (sysmem_view (world unannounced_purchase))) = ∅) as [-> ->] by by vm_compute.
    intros k o [[<- <-]%lookup_singleton_Some|Ho] _; [done|]. by apply lookup_empty_Some in Ho.
Defined.
