(* ===== verification/Responses.v ===== *)
(** * The types of the HTTP interfaces

    What a client of either service may rely on: every endpoint answers with one of
    its status codes and, for each code, a JSON value of a known type; and the text
    that is sent reads back as that value. *)

From S2P Require Import Prelude GoLib Json GoTime Http OrderPorts OrderUsecase OrderUsecaseFacts OrderMem OrderUsecaseProps.
From S2P Require Import OrderHttp Publisher PaymentUsecase PaymentProps PaymentTransport.
From Stdlib Require Import Ascii.

(** ** JSON types *)

Inductive jtype : Type :=
| TText
| TOneOf (texts : list string)
| TInt (lo hi : Z)
| TNull
| TEither (a b : jtype)
| TObj (members : list (string * jtype)).

Inductive has_type : jtype -> json -> Prop :=
| typed_text s : has_type TText (jstring s)
| typed_one l s : s ∈ l -> has_type (TOneOf l) (jstring s)
| typed_int lo hi n : lo <= n <= hi -> in_int64 n -> has_type (TInt lo hi) (jint n)
| typed_null : has_type TNull JNull
| typed_left a b v : has_type a v -> has_type (TEither a b) v
| typed_right a b v : has_type b v -> has_type (TEither a b) v
| typed_obj ms vs : ms <> [] -> has_members ms vs -> has_type (TObj ms) (JObj vs)
with has_members : list (string * jtype) -> list (list ascii * json) -> Prop :=
| members_nil : has_members [] []
| members_cons k t v ms vs :
    quote_body (lit k) = lit k -> has_type t v -> has_members ms vs ->
    has_members ((k, t) :: ms) ((lit k, v) :: vs).

Scheme has_type_mut := Induction for has_type Sort Prop
with has_members_mut := Induction for has_members Sort Prop.
Combined Scheme typed_ind from has_type_mut, has_members_mut.

(** How deep a value of the type may be nested. *)
Fixpoint depth (t : jtype) : Z :=
  match t with
  | TEither a b => Z.max (depth a) (depth b)
  | TObj ms => 1 + fold_right (fun '(_, t) n => Z.max (depth t) n) 0 ms
  | _ => 0
  end.
Definition members_depth (ms : list (string * jtype)) : Z :=
  fold_right (fun '(_, t) n => Z.max (depth t) n) 0 ms.

Lemma reads_null d : reads d JNull.
Proof. intros [|f] r Hf Hr; [simpl in Hf; lia|]. done. Qed.

(** A typed value is read back from its text. *)
Lemma typed_reads :
  (forall t v, has_type t v -> forall d, d + depth t <= maxNestingDepth -> reads d v) /\
  (forall ms vs, has_members ms vs -> forall d, d + members_depth ms <= maxNestingDepth ->
     Forall (member_reads d) vs /\ (ms <> [] -> vs <> [])).
Proof.
  apply typed_ind; simpl; try done.
  - intros s d _. apply reads_scalar, jstring_scalar.
  - intros l s _ d _. apply reads_scalar, jstring_scalar.
  - intros lo hi n _ Hn d _. by apply reads_scalar, jint_scalar.
  - intros d _. apply reads_null.
  - intros a b v _ IH d Hd. apply IH. lia.
  - intros a b v _ IH d Hd. apply IH. lia.
  - intros ms vs Hne _ IH d Hd. destruct (IH (d + 1)) as [Hvs Hvne]; [unfold members_depth; lia|].
    assert (0 <= members_depth ms).
    { clear. unfold members_depth. induction ms as [|[k t] ms IH]; simpl; lia. }
    unfold members_depth in *. apply reads_obj; [lia|by apply Hvne|exact Hvs].
  - intros k t v ms vs Hk _ IH _ IHs d Hd. fold (members_depth ms) in Hd. split; [|done].
    constructor; [split; [done|apply IH; lia]|]. apply IHs. lia.
Qed.

Lemma typed_parse t v : has_type t v -> depth t <= maxNestingDepth -> parse (print v) = Some v.
Proof. intros Ht Hd. apply parse_print, (proj1 typed_reads t v Ht). lia. Qed.

Create HintDb typed_db.
#[export] Hint Constructors has_type has_members : typed_db.
#[export] Hint Extern 1 (_ ∈ _) => set_solver : typed_db.
#[export] Hint Extern 1 (quote_body _ = _) => reflexivity : typed_db.
#[export] Hint Extern 1 (_ <> _) => discriminate : typed_db.

(** Pick the type that goes with a code. *)
Ltac pick_code := repeat first [by left|right].

(** ** The endpoints of the order service *)

Definition error_type : jtype := TObj [("error", TText)].
Definition this_error (msg : string) : jtype := TObj [("error", TOneOf [msg])].
Definition order_type (statuses : list string) : jtype :=
  TObj [("amount", TInt 1 int64_max); ("created_at", TText); ("customer_id", TText); ("id", TText);
        ("item_name", TText); ("status", TOneOf statuses)].

Definition all_statuses : list string := [StatusPending; StatusPaid; StatusFailed; StatusCancelled].
Definition final_statuses : list string := [StatusPaid; StatusFailed; StatusCancelled].

(** A request to the order service: the body and the Idempotency-Key header, or the
    path parameter. *)
Inductive order_http : Type :=
| PostOrder (text header : string)
| GetOrderById (param : string)
| PatchCancel (param : string).

Definition order_endpoint (r : order_http) : list (Z * jtype) :=
  match r with
  | PostOrder _ _ =>
      [(StatusOK, order_type final_statuses); (StatusBadRequest, error_type);
       (StatusServiceUnavailable,
         TObj [("error", TOneOf ["payment service unavailable"]); ("order", order_type all_statuses)]);
       (StatusBadGateway, TObj [("error", TText); ("order", TEither TNull (order_type all_statuses))])]
  | GetOrderById _ =>
      [(StatusOK, order_type all_statuses); (StatusNotFound, this_error "order not found");
       (StatusInternalServerError, this_error "internal error")]
  | PatchCancel _ =>
      [(StatusOK, order_type [StatusCancelled]); (StatusNotFound, this_error "order not found");
       (StatusConflict, error_type); (StatusInternalServerError, this_error "internal error")]
  end.

Definition serve_order_http (bind : string -> option createOrderRequest.t) (cache : bool) (ttl : Z)
    (r : order_http) : prog portE response :=
  match r with
  | PostOrder text header => Handlers.CreateOrder bind cache text header
  | GetOrderById param => Handlers.GetOrder cache ttl param
  | PatchCancel param => Handlers.CancelOrder cache param
  end.

(** The response is one of the endpoint's. *)
Definition well_typed (endpoint : list (Z * jtype)) (resp : response) : Prop :=
  exists t, (code resp, t) ∈ endpoint /\ has_type t (body resp).

(** *** The values behind the responses *)

Definition typed_order (o : Order.t) : Prop :=
  0 < Order.Amount o /\ in_int64 (Order.Amount o) /\ Order.Status o ∈ all_statuses.

Lemma order_typed o statuses :
  typed_order o -> Order.Status o ∈ statuses -> has_type (order_type statuses) (toOrderResponse (Some o)).
Proof.
  intros (Hpos & Hi & _) Hs. unfold order_type, toOrderResponse.
  constructor; [done|]. repeat (constructor; [reflexivity| |]); try constructor; try done.
  destruct Hi. lia.
Qed.

Section OrderTypes.
Context (uuid_in : string -> option string) (tstz : Z -> Z) (cache_on : bool) (ttl : Z).
Notation spec := (OrderPorts.ports_spec uuid_in tstz).

Definition good_row (o : Order.t) : Prop := storable o = true /\ typed_order o.

(** Rows and cache entries have the types of their columns. *)
Record typed_tables (v : view) : Prop := {
  tt_rows : integrity uuid_in v;
  tt_cache : forall k o, cache v !! k = Some o -> good_row o
}.
Definition any_change (v v' : view) : Prop := True.
Definition may_cache (X : Type) (e : portE X) (v : view) : Prop :=
  match e with CacheSet o _ => good_row o | _ => True end.

Lemma row_good v c o : typed_tables v -> orders v !! c = Some o -> good_row o.
Proof.
  intros Hv Ho. destruct (int_row _ _ (tt_rows _ Hv) _ _ Ho) as (_ & _ & Ha & Hs & Hst).
  split; [done|]. split_and!; [done| |exact Hs]. unfold storable in Hst.
  rewrite !andb_true_iff, !bool_decide_eq_true in Hst. by destruct Hst as [[_ ?] _].
Qed.

#[local] Instance types_discipline : Discipline spec typed_tables any_change may_cache.
Proof.
  split; [done|done|]. intros X e x v v' Hs Hm Hv. split; [|done].
  pose proof (integrity_call uuid_in tstz X e x _ _ Hs (tt_rows _ Hv)) as Hi. pose proof (tt_cache _ Hv) as Hc.
  assert (cache v' = cache v -> typed_tables v') as Hsame by (intros E; split; [done|by rewrite E]).
  assert (forall id, cache v' = delete id (cache v) -> typed_tables v') as Hdel.
  { intros id E. split; [done|]. rewrite E. by intros k o [_ ?%Hc]%lookup_delete_Some. }
  assert (forall o, good_row o -> cached o v v' -> typed_tables v') as Hset.
  { intros o Ho (entry & ->%(fun H => H (proj1 Ho)) & E). split; [done|]. subst v'. simpl.
    intros k o' [[_ <-]|[_ ?%Hc]]%lookup_insert_Some; done. }
  destruct e; promise Hs; simpl in Hm; eauto.
  - match goal with H : updated _ _ _ _ _ |- _ => destruct H as (? & ? & _ & _ & _ & ->) end. by apply Hsame.
  - match goal with H : updated _ _ _ _ _ |- _ => destruct H as (? & ? & _ & _ & _ & ->) end. by apply Hsame.
  - match goal with H : created _ _ _ _ _ _ _ _ _ |- _ => apply created_row in H as (_ & _ & ? & _) end. by apply Hsame.
  - match goal with H : created _ _ _ _ _ _ _ _ _ |- _ => apply created_row in H as (_ & _ & ? & _) end. by apply Hsame.
  - case_bool_decide; eauto.
Qed.

Notation tgives := (gives spec typed_tables any_change may_cache).

Definition typed_answer (statuses : list string) (r : option Order.t * option error) : Prop :=
  match r with
  | (Some o, None) => typed_order o /\ Order.Status o ∈ statuses
  | (None, None) => False
  | (Some o, Some _) => typed_order o
  | (None, Some e) => errors_Is e ErrPaymentUnavailable = false
  end.

Lemma not_unavailable e : foreign e = true -> errors_Is e ErrPaymentUnavailable = false.
Proof. intros He. by apply foreign_facts in He as (? & _). Qed.

Lemma new_status o st : st ∈ all_statuses -> typed_order o -> typed_order (Order.set_Status st o).
Proof. intros Hs (? & ? & _). by split_and!. Qed.

Lemma invalidate_typed id (Q : Prop) v : Q -> tgives (CreateOrder.invalidate cache_on id) (fun _ _ => Q) v.
Proof.
  intros HQ. unfold CreateOrder.invalidate. destruct (_ || _); [by apply gives_ret|].
  eapply gives_call; [apply _|done|]. intros. by apply gives_ret.
Qed.

Lemma settle_typed order st v :
  typed_order order -> tgives (CreateOrder.settle cache_on order st) (fun r _ => typed_answer final_statuses r) v.
Proof.
  intros Ho. unfold CreateOrder.settle.
  assert (status_of_payment st ∈ final_statuses) as Hst
    by (unfold status_of_payment; repeat case_bool_decide; unfold final_statuses; set_solver).
  eapply gives_call; [apply _|done|]. intros [err|] v1 v2 _ _ _ _ _ Hs.
  - apply gives_ret. promise Hs; simplify_eq; by apply not_unavailable.
  - eapply gives_bind; [apply _|by apply (invalidate_typed _ True)|]. intros [] v3 _ _. apply gives_ret. split; [|done].
    apply new_status; [|done]. unfold final_statuses, all_statuses in *. set_solver.
Qed.

Lemma read_typed id v1 v2 fresh err :
  spec _ (GetByID id) (fresh, err) v1 v2 -> typed_tables v1 ->
  match fresh with Some o => good_row o | None => True end /\
  match err with Some e => foreign e = true | None => True end.
Proof.
  intros Hs Hv. promise Hs; simplify_eq; [done|]. destruct (orders v1 !! _) as [o|] eqn:Ho; [|done].
  split; [|done]. by eapply row_good.
Qed.

Lemma reconcile_typed order v :
  typed_order order ->
  tgives (CreateOrder.reconcileFromPaymentService cache_on order) (fun r _ => typed_answer final_statuses r) v.
Proof.
  intros Ho. unfold CreateOrder.reconcileFromPaymentService.
  eapply gives_call; [apply _|done|]. intros [st [err|]] v1 v2 _ _ _ _ _ Hs; [|by apply settle_typed].
  destruct (err_ptr_eq err ErrPaymentNotFound); [by apply gives_ret|].
  destruct (err_ptr_eq err ErrPaymentUnavailable) eqn:Hu.
  - eapply gives_call; [apply _|done|]. intros [[fresh|] e] v3 v4 _ _ _ Hv3 _ Hr; apply gives_ret; [|done].
    by apply read_typed in Hr as [[_ ?] _].
  - apply gives_ret. promise Hs; simplify_eq. by apply payment_error_not_unavailable.
Qed.

Lemma authorize_typed order email v :
  typed_order order ->
  tgives (CreateOrder.authorize cache_on order email) (fun r _ => typed_answer final_statuses r) v.
Proof.
  intros Ho. unfold CreateOrder.authorize.
  eapply gives_call; [apply _|done|]. intros [[txn st] [err|]] v1 v2 _ _ _ _ _ Hs; [|by apply settle_typed].
  destruct (errors_Is _ _); [by apply gives_ret|].
  destruct (err_ptr_eq err ErrPaymentAlreadyRecorded); [by apply reconcile_typed|].
  destruct (err_ptr_eq err ErrPaymentUnavailable) eqn:Hu.
  - eapply gives_call; [apply _|done|]. intros [[fresh|] e] v3 v4 _ _ _ Hv3 _ Hr; apply gives_ret; [|done].
    by apply read_typed in Hr as [[_ ?] _].
  - eapply gives_call; [apply _|done|]. intros _ v3 v4 _ _ _ _ _ _.
    eapply gives_bind; [apply _|by apply (invalidate_typed _ True)|]. intros [] v5 _ _.
    eapply gives_call; [apply _|done|]. intros [[fresh|] e] v6 v7 _ _ _ Hv6 _ Hr; apply gives_ret; simpl.
    + by apply read_typed in Hr as [[_ ?] _].
    + apply new_status; [unfold all_statuses; set_solver|done].
Qed.

Lemma created_typed key cust item amount order b v v' :
  typed_tables v ->
  spec _ (CreatePendingWithIdempotency key cust item amount) (Some order, b, None) v v' -> typed_order order.
Proof.
  intros Hv Hs. promise Hs; simplify_eq; [by eapply row_good|].
  match goal with H : created _ _ _ _ _ _ _ _ _ |- _ => destruct H as (id & now & -> & _ & _ & Ha & Hst & _) end.
  split_and!; [done| |unfold all_statuses; simpl; set_solver]. unfold storable in Hst.
  rewrite !andb_true_iff, !bool_decide_eq_true in Hst. by destruct Hst as [[_ ?] _].
Qed.

Lemma create_typed inp v : tgives (CreateOrder.Execute cache_on inp) (fun r _ => typed_answer final_statuses r) v.
Proof.
  unfold CreateOrder.Execute. destruct (_ <=? 0); [by apply gives_ret|]. destruct (_ || _); [by apply gives_ret|].
  eapply gives_call; [apply _|done|]. intros [[[order|] b] [e|]] v1 v2 _ _ _ Hv1 _ Hs;
    try (apply gives_ret; promise Hs; simplify_eq; by apply not_unavailable);
    try solve [exfalso; promise Hs; simplify_eq].
  pose proof (created_typed _ _ _ _ _ _ _ _ Hv1 Hs) as Ho.
  destruct (is_terminal _) eqn:Ht; [|by apply authorize_typed]. apply gives_ret. split; [done|].
  unfold is_terminal in Ht. rewrite !orb_true_iff, !bool_decide_eq_true in Ht. unfold final_statuses. set_solver.
Qed.

Lemma get_typed id v : tgives (GetOrder.Execute cache_on ttl id) (fun r _ => typed_answer all_statuses r) v.
Proof.
  unfold GetOrder.Execute. case_bool_decide; [by apply gives_ret|].
  assert (forall w, tgives (GetOrder.load cache_on ttl (TrimSpace id)) (fun r _ => typed_answer all_statuses r) w) as Hload.
  { intros w. unfold GetOrder.load. eapply gives_call; [apply _|done|].
    intros [[o|] [e|]] v1 v2 _ _ _ Hv1 _ Hs;
      try (apply gives_ret; apply read_typed in Hs as [? ?]; [|done]; done || by apply not_unavailable).
    apply read_typed in Hs as [Ho _]; [|done].
    assert (typed_answer all_statuses (Some o, None)) as Hr by (split; apply Ho).
    destruct (_ && _); [|by apply gives_ret]. eapply gives_call; [apply _|done|]. intros. by apply gives_ret. }
  destruct cache_on; [|apply Hload]. eapply gives_call; [apply _|done|].
  intros [[o|] [e|]] v1 v2 _ _ _ Hv1 _ Hs; try apply Hload.
  apply gives_ret. promise Hs; simplify_eq.
  match goal with H : cache _ !! _ = Some _ |- _ => destruct (tt_cache _ Hv1 _ _ H) as [_ Ho] end.
  split; [done|apply Ho].
Qed.

Lemma cancel_typed id v : tgives (CancelOrder.Execute cache_on id) (fun r _ => typed_answer [StatusCancelled] r) v.
Proof.
  unfold CancelOrder.Execute. eapply gives_call; [apply _|done|].
  intros [[o|] [e|]] v1 v2 _ _ _ Hv1 _ Hs; apply read_typed in Hs as [Ho He]; try done;
    try (apply gives_ret; done || by apply not_unavailable).
  destruct (negb _); [by apply gives_ret|]. eapply gives_call; [apply _|done|].
  intros [e|] v3 v4 _ _ _ _ _ Hs.
  { apply gives_ret. promise Hs; simplify_eq; by apply not_unavailable. }
  assert (typed_answer [StatusCancelled] (Some (Order.set_Status StatusCancelled o), None)) as Hr.
  { split; [|by left]. apply new_status; [unfold all_statuses; set_solver|apply Ho]. }
  destruct cache_on; [|by apply gives_ret]. eapply gives_call; [apply _|done|]. intros. by apply gives_ret.
Qed.

(** *** The handlers *)

Context (bind : string -> option createOrderRequest.t).

Lemma error_typed msg : has_type error_type (error_body msg).
Proof. constructor; [done|]. repeat constructor. Qed.
Lemma this_error_typed msg : has_type (this_error msg) (error_body msg).
Proof. constructor; [done|]. repeat constructor. Qed.

Lemma error_and_order_typed te v t o :
  has_type te v -> has_type t o -> has_type (TObj [("error", te); ("order", t)]) (JObj [(lit "error", v); (lit "order", o)]).
Proof. intros. constructor; [done|]. by repeat (constructor; [reflexivity|done|]); constructor. Qed.

Lemma stored_typed o : typed_order o -> has_type (order_type all_statuses) (toOrderResponse (Some o)).
Proof. intros Ho. apply order_typed; [done|apply Ho]. Qed.

Lemma create_response_typed text header r :
  typed_answer final_statuses r -> well_typed (order_endpoint (PostOrder text header)) (Handlers.create_response r).
Proof.
  unfold well_typed, Handlers.create_response. destruct r as [[o|] [e|]]; intros Hr; simpl in Hr; cbn [order_endpoint code body]; [| |  |done].
  - destruct (errors_Is e ErrInvalidInput); [exists error_type; split; [pick_code|apply error_typed]|].
    destruct (errors_Is e ErrPaymentUnavailable); eexists; (split; [pick_code|]);
      apply error_and_order_typed; auto using stored_typed with typed_db.
  - destruct Hr. eexists. split; [by left|]. by apply order_typed.
  - rewrite Hr. destruct (errors_Is e ErrInvalidInput); [exists error_type; split; [pick_code|apply error_typed]|].
    eexists; (split; [pick_code|]). apply error_and_order_typed; auto with typed_db.
Qed.

Lemma get_response_typed param r :
  typed_answer all_statuses r -> well_typed (order_endpoint (GetOrderById param)) (Handlers.get_response r).
Proof.
  unfold well_typed, Handlers.get_response. destruct r as [[o|] [e|]]; intros Hr; simpl in Hr; cbn [order_endpoint code body]; [|eexists| |done].
  2: split; [by left|]; apply stored_typed, Hr.
  all: destruct (errors_Is e ErrOrderNotFound); eexists; (split; [|apply this_error_typed]); pick_code.
Qed.

Lemma cancel_response_typed param r :
  typed_answer [StatusCancelled] r -> well_typed (order_endpoint (PatchCancel param)) (Handlers.cancel_response r).
Proof.
  unfold well_typed, Handlers.cancel_response. destruct r as [[o|] [e|]]; intros Hr; simpl in Hr; cbn [order_endpoint code body]; [|eexists| |done].
  2: destruct Hr; split; [by left|]; by apply order_typed.
  all: destruct (errors_Is e ErrOrderNotFound); [eexists; (split; [|apply this_error_typed]); pick_code|].
  all: destruct (errors_Is e ErrCancelNotAllowed);
    [exists error_type; (split; [|apply error_typed]); pick_code|eexists; (split; [|apply this_error_typed]); pick_code].
Qed.

Lemma order_http_typed r v :
  tgives (serve_order_http bind cache_on ttl r) (fun resp _ => well_typed (order_endpoint r) resp) v.
Proof.
  destruct r as [text header|param|param]; simpl.
  - unfold Handlers.CreateOrder. destruct (bind text) as [req|].
    2: { apply gives_ret. exists error_type. split; [simpl; pick_code|apply error_typed]. }
    eapply gives_bind; [apply _|apply create_typed|]. intros r v1 _ Hr. apply gives_ret. by apply (create_response_typed text header).
  - eapply gives_bind; [apply _|apply get_typed|]. intros r v1 _ Hr. apply gives_ret. by apply (get_response_typed param).
  - eapply gives_bind; [apply _|apply cancel_typed|]. intros r v1 _ Hr. apply gives_ret. by apply (cancel_response_typed param).
Qed.
End OrderTypes.

(** The schemas are not deep. *)
Lemma endpoint_parse endpoint resp :
  Forall (fun x => depth x.2 <= maxNestingDepth) endpoint -> well_typed endpoint resp ->
  parse (print (body resp)) = Some (body resp).
Proof.
  intros Hall (t & Hin & Ht). rewrite Forall_forall in Hall. eapply typed_parse; [exact Ht|]. exact (Hall _ Hin).
Qed.

(** C19. The order service's interface is well typed.  Any requests to it at the same
    time, in every interleaving and whatever its stores and the payment service do:
    every request that has been answered was answered with one of its endpoint's
    status codes and a body of the type that goes with the code (a positive 64-bit
    amount, one of the four statuses, a final one after a creation and Cancelled after
    a cancellation, the members of the struct), and the text of the body reads back
    as that value. *)
Theorem order_responses_typed {W : Type} (h : handler portE W) (obs : W -> view) uuid_in tstz
    `{!Refines h obs (OrderPorts.ports_spec uuid_in tstz)} bind cache_on ttl (rs : list order_http) w sched :
  typed_tables uuid_in (obs w) ->
  let s := run_schedule h sched (Pool (serve_order_http bind cache_on ttl <$> rs) w false) in
  crashed s = false /\
  (forall i r resp, rs !! i = Some r -> threads s !! i = Some (Ret resp) ->
     well_typed (order_endpoint r) resp /\ parse (print (body resp)) = Some (body resp)).
Proof.
  intros Hw s. set (Q := fun i resp (v : view) => forall r, rs !! i = Some r -> well_typed (order_endpoint r) resp).
  destruct (pool_gives (OrderPorts.ports_spec uuid_in tstz) (typed_tables uuid_in) any_change may_cache
    (Discipline0 := types_discipline uuid_in tstz) h obs Q sched
    (serve_order_http bind cache_on ttl <$> rs) w) as (Hc & _ & _ & Hr); [done|done| |].
  { intros i p Hp. apply list_lookup_fmap_Some in Hp as (r & -> & Hi).
    eapply gives_mono; [apply types_discipline|apply order_http_typed|]. intros resp v _ Ht r' Hr'. simplify_eq. exact Ht. }
  split; [done|]. intros i r resp Hi Hend. pose proof (Hr i _ Hend r Hi) as Ht. split; [exact Ht|].
  apply (endpoint_parse (order_endpoint r)); [|done].
  destruct r; repeat (constructor; [by apply (bool_decide_unpack _)|]); constructor.
Qed.

(** One order is created, read and cancelled at the same time. *)
Definition order_requests : list order_http :=
  [PostOrder sample_body " k "; GetOrderById " 0a1b"; PatchCancel "0a1b"].
Definition order_schedule : list nat := [0; 1; 2; 0; 1; 2; 0; 1; 2; 0; 2; 0]%nat.

Lemma order_responses_typed_witness :
  let s := run_schedule mem_ports order_schedule
    (Pool (serve_order_http bind_order true 60 <$> order_requests)
       (mem_start [] [PayStatus "txn-1" "Authorized"] ["0a1b"]) false) in
  crashed s = false /\
  (forall i r resp, order_requests !! i = Some r -> threads s !! i = Some (Ret resp) ->
     well_typed (order_endpoint r) resp /\ parse (print (body resp)) = Some (body resp)).
Proof.
  apply (order_responses_typed mem_ports m_view mem_uuid_in mem_tstz). split; [exact empty_integrity|done].
Defined.

(** ** The endpoints of the payment service *)

Inductive payment_http : Type :=
| PostPayment (text : string)
| GetPaymentById (param : string).

Definition payment_statuses : list string := [Payment.StatusAuthorized; Payment.StatusDeclined].

Definition created_payment_type : jtype :=
  TObj [("payment_id", TText); ("transaction_id", TText); ("status", TOneOf payment_statuses);
        ("amount", TInt 1 int64_max); ("created_at", TText)].
Definition payment_type : jtype :=
  TObj [("payment_id", TText); ("order_id", TText); ("transaction_id", TText);
        ("amount", TInt 1 int64_max); ("status", TOneOf payment_statuses); ("created_at", TText)].

Definition payment_endpoint (r : payment_http) : list (Z * jtype) :=
  match r with
  | PostPayment _ =>
      [(StatusOK, created_payment_type); (StatusBadRequest, error_type); (StatusConflict, error_type);
       (StatusInternalServerError, this_error "internal error")]
  | GetPaymentById _ =>
      [(StatusOK, payment_type); (StatusBadRequest, error_type); (StatusNotFound, this_error "payment not found");
       (StatusInternalServerError, this_error "internal error")]
  end.

Definition serve_payment_http (bind : string -> option createPaymentRequest.t) (pub : bool)
    (r : payment_http) : prog PaymentPorts.E response :=
  match r with
  | PostPayment text => PaymentHandlers.CreatePayment bind pub text
  | GetPaymentById param => PaymentHandlers.GetPaymentByOrderID param
  end.

Section PaymentTypes.
Context (uuid_in : string -> option string) (tstz : Z -> Z) (pub : bool).
Context (bind : string -> option createPaymentRequest.t).
Context (bind_int64 : forall text r, bind text = Some r -> in_int64 (createPaymentRequest.Amount r)).
Notation spec := (PaymentUsecase.ports_spec uuid_in tstz).

Definition typed_payment (p : Payment.t) : Prop :=
  0 < Payment.Amount p /\ in_int64 (Payment.Amount p) /\ Payment.Status p ∈ payment_statuses.
Definition typed_ledger (v : pview) : Prop := forall o p, payments v !! o = Some p -> typed_payment p.
Definition any_growth (v v' : pview) : Prop := True.
Definition may_save (X : Type) (e : PaymentPorts.E X) (v : pview) : Prop :=
  match e with PaymentPorts.Save p => in_int64 (Payment.Amount p) | _ => True end.

Lemma saved_typed p v v' :
  saved uuid_in tstz p v v' -> in_int64 (Payment.Amount p) -> typed_ledger v -> typed_ledger v'.
Proof.
  intros (c & _ & _ & Ha & Hs & _ & ->) Hi Hv o q. simpl. intros [[_ <-]|[_ ?%Hv]]%lookup_insert_Some; [by split_and!|done].
Qed.

#[local] Instance payment_types_discipline : Discipline spec typed_ledger any_growth may_save.
Proof.
  split; [done|done|]. intros X e x v v' Hs Hm Hv. split; [|done].
  destruct e as [| |X e| |]; [..|]; cycle 2; [by destruct Hs as (b & _ & ->)|..]; promise Hs; simpl in Hm; eauto using saved_typed.
Qed.

Notation tgives := (gives spec typed_ledger any_growth may_save).

Definition typed_output (r : option AuthorizePaymentOutput.t * option error) : Prop :=
  match r with
  | (Some out, None) => 0 < AuthorizePaymentOutput.Amount out /\ in_int64 (AuthorizePaymentOutput.Amount out) /\
      AuthorizePaymentOutput.Status out ∈ payment_statuses
  | (None, None) => False
  | _ => True
  end.

Lemma authorize_execute_typed in_ v :
  in_int64 (AuthorizePaymentInput.Amount in_) -> tgives (AuthorizePayment.Execute pub in_) (fun r _ => typed_output r) v.
Proof.
  intros Hi. unfold AuthorizePayment.Execute, AuthorizePayment.publish. destruct (Z.leb_spec (AuthorizePaymentInput.Amount in_) 0).
  { by apply gives_ret. }
  assert (status_of_amount (AuthorizePaymentInput.Amount in_) ∈ payment_statuses) as Hst
    by (unfold status_of_amount, payment_statuses; destruct (_ <? _); set_solver).
  follow_gives; try done; try (eapply gives_bind; [apply _|by apply publisher_calls; [apply _|..]|]; intros [err|] ? _ _; apply gives_ret; [done|]);
    simpl; by split_and!.
Qed.

Lemma created_output_typed out :
  typed_output (Some out, None) -> has_type created_payment_type (struct_body (createPaymentResponse out)).
Proof.
  intros (Hpos & Hi & Hs). constructor; [done|]. repeat (constructor; [reflexivity| |]); try constructor; try done.
  destruct Hi. lia.
Qed.

Lemma stored_payment_typed p : typed_payment p -> has_type payment_type (struct_body (getPaymentResponse p)).
Proof.
  intros (Hpos & Hi & Hs). constructor; [done|]. repeat (constructor; [reflexivity| |]); try constructor; try done.
  destruct Hi. lia.
Qed.

Lemma post_payment_typed text v :
  tgives (PaymentHandlers.CreatePayment bind pub text)
    (fun resp _ => well_typed (payment_endpoint (PostPayment text)) resp) v.
Proof using bind_int64.
  unfold PaymentHandlers.CreatePayment. destruct (bind text) as [req|] eqn:Hb.
  2: { apply gives_ret. exists error_type. split; [simpl; pick_code|apply error_typed]. }
  eapply gives_bind; [apply _|by apply authorize_execute_typed, bind_int64 with text|].
  intros [[out|] [e|]] v1 _ Hr; unfold PaymentHandlers.create_response; simpl in Hr; [| | |done].
  2: { apply gives_ret. exists created_payment_type. split; [cbn; pick_code|by apply created_output_typed]. }
  all: destruct (_ || _); [apply gives_ret; exists error_type; split; [cbn; pick_code|apply error_typed]|].
  all: destruct (Contains _ _); apply gives_ret.
  all: first [exists error_type; split; [cbn; pick_code|apply error_typed]; fail
             |eexists; (split; [|apply this_error_typed]); cbn; pick_code].
Qed.

Lemma get_payment_typed param v :
  tgives (PaymentHandlers.GetPaymentByOrderID param)
    (fun resp _ => well_typed (payment_endpoint (GetPaymentById param)) resp) v.
Proof.
  unfold PaymentHandlers.GetPaymentByOrderID, GetPaymentByOrder.Execute.
  destruct (bool_decide (TrimSpace param = "")) eqn:Hid.
  { apply gives_ret. exists error_type. split; [cbn; pick_code|apply error_typed]. }
  eapply gives_call; [apply _|done|]. intros [[p|] [e|]] v1 v2 _ _ _ Hv1 _ Hs.
  - destruct (Contains _ _); apply gives_ret; [exists error_type; split; [cbn; pick_code|apply error_typed]|].
    eexists; (split; [|apply this_error_typed]); cbn; pick_code.
  - apply gives_ret. exists payment_type. split; [cbn; pick_code|]. apply stored_payment_typed.
    promise Hs; simplify_eq. by eapply Hv1.
  - destruct (Contains _ _); apply gives_ret; [exists error_type; split; [cbn; pick_code|apply error_typed]|].
    eexists; (split; [|apply this_error_typed]); cbn; pick_code.
  - apply gives_ret. eexists; (split; [|apply this_error_typed]); cbn; pick_code.
Qed.
End PaymentTypes.

(** C20. The payment service's HTTP interface is well typed, in the same sense; the
    amounts of its requests are 64-bit integers, as its binder makes them. *)
Theorem payment_responses_typed {W : Type} (h : handler PaymentPorts.E W) (obs : W -> pview) uuid_in tstz
    `{!Refines h obs (PaymentUsecase.ports_spec uuid_in tstz)} bind pub (rs : list payment_http) w sched :
  (forall text r, bind text = Some r -> in_int64 (createPaymentRequest.Amount r)) ->
  typed_ledger (obs w) ->
  let s := run_schedule h sched (Pool (serve_payment_http bind pub <$> rs) w false) in
  crashed s = false /\
  (forall i r resp, rs !! i = Some r -> threads s !! i = Some (Ret resp) ->
     well_typed (payment_endpoint r) resp /\ parse (print (body resp)) = Some (body resp)).
Proof.
  intros Hb Hw s. set (Q := fun i resp (v : pview) => forall r, rs !! i = Some r -> well_typed (payment_endpoint r) resp).
  destruct (pool_gives (PaymentUsecase.ports_spec uuid_in tstz) typed_ledger any_growth may_save
    (Discipline0 := payment_types_discipline uuid_in tstz) h obs Q sched
    (serve_payment_http bind pub <$> rs) w) as (Hc & _ & _ & Hr); [done|done| |].
  { intros i p Hp. apply list_lookup_fmap_Some in Hp as (r & -> & Hi).
    eapply gives_mono with (P := fun resp _ => well_typed (payment_endpoint r) resp); [apply payment_types_discipline| |].
    - destruct r; [by apply post_payment_typed|apply get_payment_typed].
    - intros resp v _ Ht r' Hr'. simplify_eq. exact Ht. }
  split; [done|]. intros i r resp Hi Hend. pose proof (Hr i _ Hend r Hi) as Ht. split; [exact Ht|].
  apply (endpoint_parse (payment_endpoint r)); [|done].
  destruct r; repeat (constructor; [by apply (bool_decide_unpack _)|]); constructor.
Qed.

(** The binder decodes the amount into an int64. *)
Lemma bind_payment_int64 text r : bind_payment text = Some r -> in_int64 (createPaymentRequest.Amount r).
Proof.
  unfold bind_payment. destruct (unmarshal _ _ _) as [r'|] eqn:Hr; [|done].
  destruct (createPaymentRequest.tags r'); [|done]. intros [= <-].
  apply (unmarshal_keeps (fun r => in_int64 (createPaymentRequest.Amount r)) createPaymentRequest.fields text
    (createPaymentRequest.mk "" 0 "")); [|by apply (bool_decide_unpack _)|done].
  intros f v x x' Hf. unfold createPaymentRequest.fields in Hf. rewrite !elem_of_cons, elem_of_nil in Hf.
  set (P := fun r => in_int64 (createPaymentRequest.Amount r)).
  destruct Hf as [->|[->|[->|[]]]]; [apply (store_string_keeps P)|apply (store_int64_keeps P)|apply (store_string_keeps P)]; done.
Qed.

Definition payment_requests : list payment_http :=
  [PostPayment (marshal [("order_id", jstring "order-1"); ("amount", jint 500); ("customer_email", jstring "ann@example.com")]);
   GetPaymentById "order-1"; PostPayment "{"].

Lemma payment_responses_typed_witness :
  let s := run_schedule pmem_ports [0; 0; 0; 0; 0; 1; 0; 0]%nat
    (Pool (serve_payment_http bind_payment true <$> payment_requests) (pmem_start []) false) in
  crashed s = false /\
  (forall i r resp, payment_requests !! i = Some r -> threads s !! i = Some (Ret resp) ->
     well_typed (payment_endpoint r) resp /\ parse (print (body resp)) = Some (body resp)).
Proof.
  apply (payment_responses_typed pmem_ports pm_view pmem_uuid_in id bind_payment); [exact bind_payment_int64|].
  intros o p Hp. by destruct (lookup_empty_Some o p Hp).
Defined.

(** The created payment is read while its event is being published. *)
Example payment_read :
  let s := run_schedule pmem_ports [0; 0; 0; 0; 0; 1; 0; 0]%nat
    (Pool (serve_payment_http bind_payment true <$> payment_requests) (pmem_start []) false) in
  (fun p => match p with Ret resp => Some (code resp) | _ => None end) <$> threads s =
    [Some StatusOK; Some StatusOK; Some StatusBadRequest].
Proof. vm_compute. reflexivity. Qed.
