(* ===== verification/Front.v ===== *)
(** * From the HTTP request to the mail

    The shop (Shop) behind its HTTP interfaces: the handlers of the order service and of
    the payment service in front of the use cases, from the bytes of a request's body to
    the JSON of its answer. *)

From S2P Require Import Prelude GoLib Json Utf8 Http Proto OrderPorts OrderUsecase OrderUsecaseFacts OrderMem OrderUsecaseProps OrderHttp.
From S2P Require Import PaymentClients Publisher PaymentUsecase PaymentProps PaymentTransport System.
From S2P Require Import Notify NotifyProps Worker Messaging Words Shop Responses.

(** ** Binders *)

(** encoding/json decodes strings to UTF-8, whatever the bytes of the body are. *)
Class OrderBinder (bind : string -> option createOrderRequest.t) : Prop :=
  order_email_utf8 : forall text r, bind text = Some r -> utf8_string (createOrderRequest.CustomerEmail r).

Class PaymentBinder (bind : string -> option createPaymentRequest.t) : Prop :=
  payment_texts_utf8 : forall text r, bind text = Some r ->
    utf8_string (createPaymentRequest.OrderID r) /\ utf8_string (createPaymentRequest.CustomerEmail r).

#[export] Instance bind_order_binder : OrderBinder bind_order.
Proof.
  intros text r. unfold bind_order. destruct (unmarshal _ _ _) as [r'|] eqn:Hr; [|done].
  destruct (createOrderRequest.tags r'); [|done]. intros [= <-].
  set (P := fun r => utf8_string (createOrderRequest.CustomerEmail r)).
  apply (unmarshal_keeps P createOrderRequest.fields text (createOrderRequest.mk "" "" "" 0)); [|reflexivity|exact Hr].
  intros f v x x' Hf. unfold createOrderRequest.fields in Hf. rewrite !elem_of_cons, elem_of_nil in Hf.
  destruct Hf as [->|[->|[->|[->|[]]]]];
    first [apply (store_string_utf8 P)|apply (store_int64_keeps P)]; done.
Qed.

#[export] Instance bind_payment_binder : PaymentBinder bind_payment.
Proof.
  intros text r. unfold bind_payment. destruct (unmarshal _ _ _) as [r'|] eqn:Hr; [|done].
  destruct (createPaymentRequest.tags r'); [|done]. intros [= <-].
  set (P := fun r => utf8_string (createPaymentRequest.OrderID r) /\ utf8_string (createPaymentRequest.CustomerEmail r)).
  apply (unmarshal_keeps P createPaymentRequest.fields text (createPaymentRequest.mk "" 0 "")); [|by split|exact Hr].
  intros f v x x' Hf. unfold createPaymentRequest.fields in Hf. rewrite !elem_of_cons, elem_of_nil in Hf.
  destruct Hf as [->|[->|[->|[]]]];
    first [apply (store_string_utf8 P)|apply (store_int64_keeps P)]; try done; intros ? ? ? []; done.
Qed.

(** ** The goroutines *)

Inductive front : Type :=
| OrderHttp (r : order_http)
| PaymentHttp (r : payment_http)
| PaymentRpc
| NotificationWorker (n : nat).

Section Front.
Context {Timestamp : Type} (timestamppb_New : Z -> Timestamp).
Context (bind_o : string -> option createOrderRequest.t) (bind_p : string -> option createPaymentRequest.t).
Context (pub cache_on : bool) (ttl : Z) (demo : string) (MaxAttempts base : Z) (decode_error : string -> error).

(** The response of an HTTP request; the other goroutines have none. *)
Definition front_thread (g : front) : prog (shopE Timestamp) (option response) :=
  match g with
  | OrderHttp r =>
      resp ← lift (fun X => OnSys) (interp sys_ports (serve_order_http bind_o cache_on ttl r)); mret (Some resp)
  | PaymentHttp r =>
      resp ← lift (fun X => OnSys) (lift (fun X => OnPayment) (serve_payment_http bind_p pub r)); mret (Some resp)
  | PaymentRpc => _ ← lift (fun X => OnSys) (serve_rpc timestamppb_New pub); mret None
  | NotificationWorker n =>
      _ ← lift (fun X => OnWorker) (Consumer.consume demo MaxAttempts base decode_error n); mret None
  end.

(** What a response of the order service says of an order: the order itself, or an error
    with or without one. *)
Definition carries (resp : response) (o : option Order.t) : Prop :=
  Http.body resp = toOrderResponse o \/
  (exists msg, Http.body resp = JObj [(lit "error", jstring msg); (lit "order", toOrderResponse o)]) \/
  (o = None /\ exists msg, Http.body resp = error_body msg).

Lemma carries_error c msg : carries (Response c (error_body msg)) None.
Proof. right; right. split; [done|by exists msg]. Qed.

Lemma carries_result c o : carries (Response c (toOrderResponse o)) o.
Proof. by left. Qed.

Lemma carries_both c msg o : carries (Response c (JObj [(lit "error", jstring msg); (lit "order", toOrderResponse o)])) o.
Proof. right; left. by exists msg. Qed.

(** A handler's response carries the use case's order, or none. *)
Definition carries_this (resp : response) (o : option Order.t) : Prop :=
  exists o', carries resp o' /\ (o' = None \/ o' = o).

#[local] Hint Resolve carries_error carries_result carries_both : core.

Lemma create_carries r : carries_this (Handlers.create_response r) r.1.
Proof.
  unfold carries_this, Handlers.create_response. destruct r as [o [e|]]; simpl; [|eauto].
  destruct (errors_Is e ErrInvalidInput); [eauto|]. destruct (errors_Is e ErrPaymentUnavailable); eauto.
Qed.

Lemma get_carries r : carries_this (Handlers.get_response r) r.1.
Proof.
  unfold carries_this, Handlers.get_response. destruct r as [o [e|]]; simpl; [|eauto].
  destruct (errors_Is e ErrOrderNotFound); eauto.
Qed.

Lemma cancel_carries r : carries_this (Handlers.cancel_response r) r.1.
Proof.
  unfold carries_this, Handlers.cancel_response. destruct r as [o [e|]]; simpl; [|eauto].
  destruct (errors_Is e ErrOrderNotFound); [eauto|]. destruct (errors_Is e ErrCancelNotAllowed); eauto.
Qed.

(** ** What they do *)

Section Gives.
Context (uuid_in : string -> option string) (tstz : Z -> Z).
Context (puuid_in : string -> option string) (ptstz : Z -> Z).
Context (uuid_plain : forall s c, uuid_in s = Some c -> plain_text c).
Context (puuid_plain : forall s c, puuid_in s = Some c -> plain_text c).
Context `{!OrderBinder bind_o, !PaymentBinder bind_p}.
Notation sysview := (sysview Timestamp).
Notation sspec := (sys_spec (Timestamp := Timestamp) uuid_in tstz puuid_in ptstz).
Notation pspec := (PaymentUsecase.ports_spec puuid_in ptstz).
Notation post := (port_post (Timestamp := Timestamp) uuid_in tstz puuid_in ptstz pub).
Notation words := (port_words (Timestamp := Timestamp) uuid_in).

(** The order in a response is backed by money if it is Paid. *)
Definition honest (resp : response) (v : sysview) : Prop :=
  exists o, carries resp o /\ forall order, o = Some order -> backed pub (sv_payment v) order.

Lemma carries_honest resp r v : carries_this resp r.1 -> sold pub r v -> honest resp v.
Proof.
  intros (o & Hc & Ho) Hs. exists o. split; [done|]. intros order ->. destruct Ho as [Ho|Ho]; [done|]. by apply Hs.
Qed.

#[local] Instance ports_are_disciplined : Discipline post (consistent uuid_in pub)
  forward (may_order uuid_in pub) := port_discipline uuid_in tstz puuid_in ptstz pub.
#[local] Instance words_are_disciplined : Discipline words (worded uuid_in) any_later may_ask :=
  ask_discipline uuid_in.

Lemma order_http_honest r v :
  gives post (consistent uuid_in pub) forward (may_order uuid_in pub)
    (serve_order_http bind_o cache_on ttl r) honest v.
Proof.
  destruct r as [text header|param|param]; cbn [serve_order_http].
  - unfold Handlers.CreateOrder. destruct (bind_o text) as [req|].
    + eapply gives_bind; [apply _| |].
      { match goal with |- gives _ _ _ _ (CreateOrder.Execute _ ?inp) _ _ =>
          apply (serve_gives uuid_in tstz puuid_in ptstz pub cache_on ttl (ReqCreate inp)) end. }
      intros x v1 _ Hx. apply gives_ret. eapply carries_honest; [apply create_carries|exact Hx].
    + apply gives_ret. exists None. split; [apply carries_error|done].
  - eapply gives_bind; [apply _|apply (serve_gives uuid_in tstz puuid_in ptstz pub cache_on ttl (ReqGet (TrimSpace param)))|].
    intros x v1 _ Hx. apply gives_ret. eapply carries_honest; [apply get_carries|exact Hx].
  - eapply gives_bind; [apply _|apply (serve_gives uuid_in tstz puuid_in ptstz pub cache_on ttl (ReqCancel (TrimSpace param)))|].
    intros x v1 _ Hx. apply gives_ret. eapply carries_honest; [apply cancel_carries|exact Hx].
Qed.

Lemma order_http_words r v :
  gives words (worded uuid_in) any_later may_ask
    (serve_order_http bind_o cache_on ttl r) (fun _ _ => True) v.
Proof using OrderBinder0.
  destruct r as [text header|param|param]; cbn [serve_order_http].
  - unfold Handlers.CreateOrder. destruct (bind_o text) as [req|] eqn:Hb; [|by apply gives_ret].
    eapply gives_bind; [apply _|apply create_words|intros; by apply gives_ret].
    simpl. by eapply utf8_TrimSpace, order_email_utf8.
  - eapply gives_bind; [apply _|by apply (request_words uuid_in cache_on ttl (ReqGet (TrimSpace param)))|intros; by apply gives_ret].
  - eapply gives_bind; [apply _|by apply (request_words uuid_in cache_on ttl (ReqCancel (TrimSpace param)))|intros; by apply gives_ret].
Qed.

Lemma trimmed_plain s : utf8_string s -> TrimSpace s = "" \/ plain_text (TrimSpace s).
Proof.
  intros Hs. destruct (decide (TrimSpace s = "")); [by left|]. right.
  split; [by apply utf8_TrimSpace|]. split; [apply TrimSpace_idemp|done].
Qed.

Lemma payment_http_gives r v :
  gives pspec ledger grown may_pay (serve_payment_http bind_p pub r) (fun _ _ => True) v.
Proof.
  destruct r as [text|param]; cbn [serve_payment_http].
  - unfold PaymentHandlers.CreatePayment. destruct (bind_p text) as [req|]; [|by apply gives_ret].
    eapply gives_bind; [apply _|apply authorize_gives|].
    intros [[out|] [err|]] w _ Hr; try done; unfold PaymentHandlers.create_response; follow_gives; done.
  - unfold PaymentHandlers.GetPaymentByOrderID. case_bool_decide; [by apply gives_ret|].
    eapply gives_bind; [apply _|apply lookup_gives; [apply _|done]|]. intros [p [err|]] w _ _; repeat case_match; by apply gives_ret.
Qed.

#[local] Instance publishing_is_disciplined : Discipline pspec all_textual any_later may_publish :=
  publish_discipline puuid_in ptstz.

Lemma payment_http_words r v :
  gives pspec all_textual any_later may_publish (serve_payment_http bind_p pub r) (fun _ _ => True) v.
Proof using PaymentBinder0 puuid_plain.
  destruct r as [text|param]; cbn [serve_payment_http].
  - unfold PaymentHandlers.CreatePayment. destruct (bind_p text) as [req|] eqn:Hb; [|by apply gives_ret].
    destruct (payment_texts_utf8 _ _ Hb) as [Ho He].
    eapply gives_bind; [apply _|apply authorize_words; [done|]|].
    { split; [by apply trimmed_plain|]. simpl. rewrite TrimSpace_idemp. by apply utf8_TrimSpace. }
    intros [[out|] [err|]] w _ Hr; unfold PaymentHandlers.create_response; follow_gives; done.
  - unfold PaymentHandlers.GetPaymentByOrderID. case_bool_decide; [by apply gives_ret|].
    eapply gives_bind; [apply _|apply lookup_gives; [apply _|done]|]. intros [p [err|]] w _ _; repeat case_match; by apply gives_ret.
Qed.

(** The goroutines in the shop: what an order's request is answered is honest. *)
Definition front_result (g : front) (r : option response) (v : shopview Timestamp) : Prop :=
  match g, r with OrderHttp _, Some resp => honest resp (sh_sys v) | _, _ => True end.

#[local] Instance shop_is_disciplined : Discipline (shop_spec (Timestamp := Timestamp) uuid_in tstz puuid_in ptstz)
  (in_order uuid_in pub demo) onward (may_shop uuid_in pub demo) :=
  shop_discipline uuid_in tstz puuid_in ptstz pub demo.

Lemma front_thread_gives g v : 0 < MaxAttempts -> in_order uuid_in pub demo v ->
  gives (shop_spec uuid_in tstz puuid_in ptstz) (in_order uuid_in pub demo) onward (may_shop uuid_in pub demo)
    (front_thread g) (front_result g) v.
Proof using OrderBinder0 PaymentBinder0 uuid_plain puuid_plain.
  intros HM Hv. pose proof (ord_sys _ _ _ _ Hv) as Hsys. pose proof (ord_words _ _ _ _ Hv) as Hwords.
  destruct g as [r|r| |n]; cbn [front_thread].
  - eapply gives_bind; [apply _|apply sys_part_gives with (Q := honest)|intros resp v1 _ Hr; by apply gives_ret].
    + apply (gives_interp sys_ports sspec post (consistent uuid_in pub) forward (may_sys uuid_in pub)
        (may_order uuid_in pub)); [|done|apply order_http_honest].
      intros X e u. apply port_gives.
    + by apply order_part_words, order_http_words.
  - eapply gives_bind with (P := fun _ _ => True); [apply _| |intros; by apply gives_ret].
    apply (sys_part_gives uuid_in tstz puuid_in ptstz pub demo _ (fun _ _ => True)).
    + apply (payment_lift uuid_in tstz puuid_in ptstz pub _ (fun _ _ => True)), payment_http_gives.
    + by apply payment_part_words, payment_http_words.
  - eapply gives_bind with (P := fun _ _ => True); [apply _| |intros; by apply gives_ret].
    apply (sys_part_gives uuid_in tstz puuid_in ptstz pub demo _ (fun _ _ => True)).
    + apply serve_rpc_gives.
    + by apply serve_rpc_words.
  - eapply gives_bind; [apply _|by apply worker_part_gives|intros; by apply gives_ret].
Qed.

Lemma front_result_onward g r v v' : onward v v' -> front_result g r v -> front_result g r v'.
Proof.
  intros [Hf _]. destruct g, r as [resp|]; try done. intros (o & Hc & Ho). exists o. split; [done|].
  intros order E. eapply backed_forward; [exact Hf|by apply Ho].
Qed.
End Gives.
End Front.

(** C3. From HTTP to the mail, the payment service with its publisher.  Any HTTP requests
    to either service, any bytes in them, RPC handlers and notification workers, in every
    interleaving of their calls, whatever fails or is lost, late or doubled on the
    network: nothing panics; what an order's request is answered carries an order, and
    one it calls Paid has an authorized payment of its amount, whose message is on its
    way or with a worker, or whose receipt has been mailed, unless it is the
    demonstration order of the dead-letter queue, or the broker refused or lost the
    payment's message while the publisher took the acknowledgement of another one for
    its own; so has every stored order that is Paid; and every mail ever sent is the
    receipt of an authorized payment. *)
Theorem http_purchases_are_receipted {Timestamp W : Type} (h : handler (shopE Timestamp) W)
    (obs : W -> shopview Timestamp) uuid_in tstz puuid_in ptstz
    `{!Refines h obs (shop_spec uuid_in tstz puuid_in ptstz)}
    bind_o bind_p `{!OrderBinder bind_o, !PaymentBinder bind_p}
    timestamppb_New cache_on ttl demo MaxAttempts base decode_error (gs : list front) w sched :
  (forall s c, uuid_in s = Some c -> plain_text c) -> (forall s c, puuid_in s = Some c -> plain_text c) ->
  0 < MaxAttempts -> in_order uuid_in true demo (obs w) ->
  let s := run_schedule h sched (Pool (front_thread timestamppb_New bind_o bind_p true cache_on ttl demo
    MaxAttempts base decode_error <$> gs) w false) in
  let v := obs (world s) in
  let pays := payments (sv_payment (sh_sys v)) in
  let mailed := mails (w_notify (sh_worker v)) in
  let receipted o := Order.Status o = StatusPaid ->
    exists p, pays !! Order.ID o = Some p /\ Payment.OrderID p = Order.ID o /\ Payment.Amount p = Order.Amount o /\
      (underway v p \/ (exists m, m ∈ mailed /\ receipt_for p m) \/ (demo <> "" /\ Order.ID o = demo) \/ misled v p) in
  crashed s = false /\
  (forall i r resp, gs !! i = Some (OrderHttp r) -> threads s !! i = Some (Ret (Some resp)) ->
     exists o, carries resp o /\ forall order, o = Some order -> receipted order) /\
  (forall c o, orders (sv_order (sh_sys v)) !! c = Some o -> receipted o) /\
  (forall m, m ∈ mailed -> exists p, pays !! Payment.OrderID p = Some p /\
     Payment.Status p = Payment.StatusAuthorized /\ receipt_for p m).
Proof.
  intros Huuid Hpuuid HM Hw s v pays mailed receipted.
  set (Q := fun i r (v : shopview Timestamp) => forall g, gs !! i = Some g -> front_result true g r v).
  destruct (pool_gives (shop_spec uuid_in tstz puuid_in ptstz) (in_order uuid_in true demo) onward
    (may_shop uuid_in true demo) (Discipline0 := shop_discipline uuid_in tstz puuid_in ptstz true demo) h obs Q sched
    (front_thread timestamppb_New bind_o bind_p true cache_on ttl demo MaxAttempts base decode_error <$> gs) w)
    as (Hc & Hv & _ & Hr); [|done| |].
  - intros i r u u' Hu HQ g Hg. by eapply front_result_onward, HQ.
  - intros i p Hp. apply list_lookup_fmap_Some in Hp as (g & -> & Hg).
    eapply gives_mono; [apply shop_discipline|by apply front_thread_gives|]. intros r u _ HQ g' Hg'. by simplify_eq.
  - assert (forall o, backed true (sv_payment (sh_sys v)) o -> receipted o) as Hback
      by (intros o Ho Hst; by apply (paid_receipted uuid_in true demo v Hv o)).
    split_and!; [done| | |intros m; by apply (mail_payment uuid_in true demo v Hv)].
    + intros i r resp Hi Hend. destruct (Hr i _ Hend _ Hi) as (o & Hcar & Ho). exists o. auto.
    + intros c o Ho. apply Hback. exact (con_rows _ _ _ (ord_sys _ _ _ _ Hv) c o Ho).
Qed.

(** An order by HTTP, the handler that charges it, a worker, and a payment asked for
    directly whose id has a byte that is no UTF-8. *)
Definition front_desk : list front :=
  [OrderHttp (PostOrder sample_body " k "); PaymentRpc; NotificationWorker 2;
   PaymentHttp (PostPayment (marshal [("order_id", JStr (bytes [255; 32]%nat)); ("amount", jint 700);
                                      ("customer_email", jstring "bob@example.com")]))].
Definition front_run : pool (shopE Z) shopmem (option response) :=
  run_schedule shopmem_calls (prompt_schedule ++ repeat 3 7 ++ repeat 2 24)%nat%list (Pool
    (front_thread (fun t => t) bind_order bind_payment true true 60 "" 4 2000000000 sample_decode <$> front_desk)
    (shopmem_start [] []) false).

Lemma http_purchases_are_receipted_witness :
  let v := shopmem_view (world front_run) in
  let pays := payments (sv_payment (sh_sys v)) in
  let mailed := mails (w_notify (sh_worker v)) in
  let receipted o := Order.Status o = StatusPaid ->
    exists p, pays !! Order.ID o = Some p /\ Payment.OrderID p = Order.ID o /\ Payment.Amount p = Order.Amount o /\
      (underway v p \/ (exists m, m ∈ mailed /\ receipt_for p m) \/ ("" <> "" /\ Order.ID o = "") \/ misled v p) in
  crashed front_run = false /\
  (forall i r resp, front_desk !! i = Some (OrderHttp r) -> threads front_run !! i = Some (Ret (Some resp)) ->
     exists o, carries resp o /\ forall order, o = Some order -> receipted order) /\
  (forall c o, orders (sv_order (sh_sys v)) !! c = Some o -> receipted o) /\
  (forall m, m ∈ mailed -> exists p, pays !! Payment.OrderID p = Some p /\
     Payment.Status p = Payment.StatusAuthorized /\ receipt_for p m).
Proof.
  apply (http_purchases_are_receipted shopmem_calls shopmem_view mem_uuid_in mem_tstz pmem_uuid_in id bind_order
    bind_payment (fun t => t) true 60 "" 4 2000000000 sample_decode front_desk);
    [exact mem_uuid_plain|exact pmem_uuid_plain|done|apply shopmem_in_order].
Defined.

(** The order is answered Paid and both receipts are mailed, the second with the
    replacement character for the byte. *)
Example front_served :
  threads front_run !! 0%nat = Some (Ret (Some (Response 200 (toOrderResponse (Some (sample_order StatusPaid)))))) /\
  mails (nm_view (qm_notify (shm_worker (world front_run)))) =
    [SendInput.mk "bob@example.com" (String.string_of_list_ascii replacement_char) "p-2" 700 "Authorized";
     SendInput.mk "ann@example.com" "0a1b" "p-1" 500 "Authorized"].
Proof. vm_compute. done. Qed.
