(* ===== verification/Shutdown.v ===== *)
(** * Stopping the notification worker

    [main] of cmd/notification-service/main.go once it consumes: the loop of
    [Consumer.consume] beside the goroutine that waits for a signal, cancels the
    consumer at the broker and then the context.  The broker, with a prefetch of one,
    and the user act in between. *)

From S2P Require Import Prelude Goroutines GoLib Json Notify NotifyProps Worker Messaging.

(** [SendCancel] and [AwaitCancelOk] are the two halves of [ch.Cancel]: the request and
    the broker's answer to it. *)
Inductive workE : Type -> Type :=
| GoWatchSignals : workE unit
| NotifySignals : workE unit
| AwaitSignal : workE unit
| SendCancel (tag : string) : workE unit
| AwaitCancelOk : workE (option error)
| CancelContext : workE unit
| OnWork {X} (e : workerE X) : workE X.

(** The goroutine that handles SIGINT and SIGTERM, from the wait for one on; an error of
    [ch.Cancel] is only logged. *)
Definition stop_on_signal : prog workE unit :=
  _ ← call AwaitSignal;
  _ ← call (SendCancel Subscriber.consumerTag);
  _ ← call AwaitCancelOk;
  _ ← call CancelContext;
  mret tt.
Definition signal_watch : prog workE unit := _ ← call NotifySignals; stop_on_signal.

(** [main] from the context on, for up to [n] deliveries. *)
Definition work (demo : string) (MaxAttempts base : Z) (decode_error : string -> error) (n : nat) : prog workE unit :=
  _ ← call GoWatchSignals;
  lift (fun X => OnWork) (Consumer.consume demo MaxAttempts base decode_error n).

(** ** The process and its surroundings *)

Record process := Process {
  notified : bool;             (* the process handles signals itself *)
  signalled : bool;            (* one is in the channel *)
  killed : bool;
  cancelling : bool;           (* the request to cancel has been sent *)
  closed : bool;               (* no more deliveries: cancelled, or the connection is lost *)
  lost : bool;
  ctx_done : bool;
  buffer : option delivery;    (* in the channel of deliveries *)
  outstanding : bool;          (* a delivery is not answered *)
  taken : nat                  (* the deliveries received by the loop *)
}.

Definition launched : process := Process false false false false false false false None false 0.

Definition set_notified m := Process true (signalled m) (killed m) (cancelling m) (closed m) (lost m) (ctx_done m) (buffer m) (outstanding m) (taken m).
Definition set_signalled b m := Process (notified m) b (killed m) (cancelling m) (closed m) (lost m) (ctx_done m) (buffer m) (outstanding m) (taken m).
Definition set_killed m := Process (notified m) (signalled m) true (cancelling m) (closed m) (lost m) (ctx_done m) (buffer m) (outstanding m) (taken m).
Definition set_cancelling m := Process (notified m) (signalled m) (killed m) true (closed m) (lost m) (ctx_done m) (buffer m) (outstanding m) (taken m).
Definition set_closed m := Process (notified m) (signalled m) (killed m) (cancelling m) true (lost m) (ctx_done m) (buffer m) (outstanding m) (taken m).
Definition set_lost m := Process (notified m) (signalled m) (killed m) (cancelling m) true true (ctx_done m) None false (taken m).
Definition set_ctx_done m := Process (notified m) (signalled m) (killed m) (cancelling m) (closed m) (lost m) true (buffer m) (outstanding m) (taken m).
Definition put d m := Process (notified m) (signalled m) (killed m) (cancelling m) (closed m) (lost m) (ctx_done m) (Some d) true (taken m).
Definition take_delivery m := Process (notified m) (signalled m) (killed m) (cancelling m) (closed m) (lost m) (ctx_done m) None (outstanding m) (S (taken m)).
Definition answered m := Process (notified m) (signalled m) (killed m) (cancelling m) (closed m) (lost m) (ctx_done m) (buffer m) false (taken m).

(** What the others do: messages from the broker, its answer to a cancellation, a lost
    connection, signals, which kill a process that does not handle them. *)
Inductive arrival : Type :=
| Deliver (d : delivery)
| CancelOk
| ConnectionLost
| Signal.

Definition arrive (a : arrival) (m : process) : process * list (prog workE unit) :=
  (match a with
   | Deliver d => if closed m || outstanding m then m else put d m
   | CancelOk => if cancelling m then set_closed m else m
   | ConnectionLost => set_lost m
   | Signal => if notified m then set_signalled true m else set_killed m
   end, []).

Section Process.
(** The luck of a call: what the stores and the mail provider answer, which case a
    [select] takes, and whether an answer to the broker gets through. *)
Context {L : Type} (answers : forall X : Type, notifyE X -> L -> X) (prefers_ctx : L -> bool) (answer_error : L -> option error).

(** The [select] between the context and the deliveries. *)
Definition select (l : L) (m : process) : reply process (option delivery) :=
  if ctx_done m && (prefers_ctx l || bool_decide (buffer m = None)) then Answer None m else
  match buffer m with
  | Some d => Answer (Some d) (take_delivery m)
  | None => if closed m then Answer None m else Block
  end.

Definition exec (X : Type) (e : workE X) (l : L) (m : process) : reply process X :=
  if killed m then Block else
  match e in workE X return reply process X with
  | GoWatchSignals => Answer tt m
  | NotifySignals => Answer tt (set_notified m)
  | AwaitSignal => if signalled m then Answer tt (set_signalled false m) else Block
  | SendCancel _ => Answer tt (set_cancelling m)
  | AwaitCancelOk => if closed m then Answer (if lost m then answer_error l else None) m else Block
  | CancelContext => Answer tt (set_ctx_done m)
  | OnWork (OnNotify e) => Answer (answers _ e l) m
  | OnWork (OnQueue e) =>
      match e in queueE X return reply process X with
      | Receive => select l m
      | AckDelivery _ => Answer (answer_error l) (answered m)
      | NackDelivery _ _ => Answer (answer_error l) (answered m)
      end
  end.
End Process.

(** The goroutines that a call starts. *)
Definition started (X : Type) (e : workE X) : list (prog workE unit) :=
  match e with GoWatchSignals => [signal_watch] | _ => [] end.

(** ** What is received after the end of the deliveries *)

(** Received or about to be. *)
Definition deliveries (m : process) : nat := (taken m + (if buffer m then 1 else 0))%nat.

Definition over (n : nat) (m : process) : Prop := closed m = true /\ (deliveries m <= n)%nat.

Lemma arrive_over n a m : over n m -> over n (fst (arrive a m)).
Proof.
  intros [Hc Hn]. destruct a as [d| | |]; simpl; [by rewrite Hc| | |].
  - by destruct (cancelling m).
  - split; [done|]. unfold deliveries in *. simpl. destruct (buffer m); lia.
  - by destruct (notified m).
Qed.

Section Facts.
Context {L : Type} (answers : forall X : Type, notifyE X -> L -> X) (prefers_ctx : L -> bool) (answer_error : L -> option error).
Notation exec := (exec answers prefers_ctx answer_error).
Notation pool := (gpool workE process unit).
Definition play (evs : list (event L arrival)) (s : pool) : pool := Goroutines.play exec started arrive evs s.

Lemma exec_over n X (e : workE X) l m x m' : exec X e l m = Answer x m' -> over n m -> over n m'.
Proof.
  unfold Shutdown.exec, select. intros Hx [Hc Hn]. destruct (killed m); [done|].
  destruct e as [| | | | | |X e]; try (by repeat case_match; simplify_eq; split).
  destruct e as [e|e]; [by simplify_eq; split|]. destruct e; try (by simplify_eq; split).
  destruct (ctx_done m && _); [by simplify_eq; split|]. unfold over, deliveries in *.
  destruct (buffer m) eqn:Hb; [|by rewrite Hc in Hx; simplify_eq; split; [|rewrite Hb]].
  simplify_eq. simpl. split; [done|lia].
Qed.

(** ** Programs that neither panic nor wait for anything but deliveries *)

Fixpoint calm {A} (p : prog workE A) : Prop :=
  match p with
  | Ret _ => True
  | Panic _ => False
  | Do e k => match e with AwaitSignal | AwaitCancelOk => False | _ => True end /\ forall x, calm (k x)
  end.
Fixpoint total {E : Type -> Type} {A} (p : prog E A) : Prop :=
  match p with Ret _ => True | Panic _ => False | Do e k => forall x, total (k x) end.

Lemma calm_total {A} (p : prog workE A) : calm p -> total p.
Proof. induction p; simpl; [done..|]. intros [_ Hk]. auto. Qed.

Lemma total_bind {E : Type -> Type} {A B} (p : prog E A) (f : A -> prog E B) :
  total p -> (forall a, total (f a)) -> total (p ≫= f).
Proof.
  unfold mbind, prog_mbind. intros Hp Hf. induction p as [a|msg|X e k IH]; [apply Hf|done|].
  intros x. by apply IH.
Qed.

Lemma total_lift {E F : Type -> Type} {A} (inj : forall X, E X -> F X) (p : prog E A) : total p -> total (lift inj p).
Proof. induction p; simpl; [done|done|auto]. Qed.

Lemma calm_lift {A} (p : prog workerE A) : total p -> calm (lift (fun X => OnWork) p).
Proof. induction p; simpl; [done|done|auto]. Qed.

Lemma attempts_total base n a le in_ : total (Processor.attempts base n a le in_).
Proof.
  revert a le; induction n as [|n IH]; intros a le; [done|]. cbn [Processor.attempts]. apply total_bind.
  - by destruct (0 <? a).
  - intros [e|]; [done|]. simpl. intros [e|]; [apply IH|done].
Qed.

Lemma processor_total demo MaxAttempts base decode_error body :
  total (Processor.handle demo MaxAttempts base decode_error body).
Proof.
  unfold Processor.handle. apply total_bind; [|done]. unfold Processor.Handle.
  destruct (Payload.Unmarshal body) as [pl|]; [|done]. destruct (bool_decide _); [done|].
  apply total_bind.
  { unfold ProcessedStore.WasProcessed. destruct (bool_decide _); [done|]. simpl. intros [e|]; [by destruct (errors_Is _ _)|done]. }
  intros [[] [e|]]; try done. apply total_bind.
  { unfold SentStore.AlreadySent. destruct (bool_decide _); [done|]. simpl. intros [v e].
    destruct (err_eq e redis_Nil); [done|]. by destruct e. }
  intros [[] [e|]]; try done. destruct (_ && _); [done|]. unfold Processor.send. destruct (bool_decide _); [done|].
  apply total_bind; [apply attempts_total|]. intros [e|[e|]]; try done. simpl. intros [e|]; [done|].
  apply total_bind; [|by intros [e|]]. unfold SentStore.MarkSent. destruct (bool_decide _); [done|]. simpl. by intros [e|].
Qed.

Lemma consume_total demo MaxAttempts base decode_error n :
  total (Consumer.consume demo MaxAttempts base decode_error n).
Proof.
  induction n as [|n IH]; [done|]. cbn [Consumer.consume]. simpl. intros [d|]; [|done].
  apply (total_bind (Consumer.handle demo MaxAttempts base decode_error d)); [|done]. unfold Consumer.handle.
  apply total_bind; [apply total_lift, processor_total|]. by intros [|[]].
Qed.

(** When no more deliveries come, such a program's calls do not wait. *)
Lemma calm_answered {A X} (e : workE X) (k : X -> prog workE A) l m :
  calm (Do e k) -> closed m = true -> killed m = false ->
  exists x m1, exec X e l m = Answer x m1 /\ closed m1 = true /\ killed m1 = false.
Proof.
  intros [He _] Hc Hk. unfold Shutdown.exec. rewrite Hk. destruct e as [| | | | | |X e]; try done; try (by do 2 eexists).
  destruct e as [e|e]; [by do 2 eexists|]. destruct e; try (by do 2 eexists). unfold select.
  destruct (ctx_done m && _); [by do 2 eexists|]. destruct (buffer m); [by do 2 eexists|]. rewrite Hc. by do 2 eexists.
Qed.

(** ** The worker among the others *)

Record running (s : pool) : Prop := {
  run_crash : crash s = None;
  run_all : Forall total (goroutines s);
  run_main : exists p, goroutines s !! 0%nat = Some p /\ calm p
}.

Lemma work_no_crash X (e : workE X) l m msg : exec X e l m <> Crash msg.
Proof. unfold Shutdown.exec, select. by repeat case_match. Qed.

Lemma started_total X (e : workE X) : Forall total (started X e).
Proof. destruct e; by repeat constructor. Qed.

Lemma step_running ev s : running s -> running (go_step exec started arrive ev s).
Proof.
  intros [Hc Hall (p & Hp & Hcalm)]. unfold go_step. rewrite Hc. destruct ev as [i l|a].
  2: { unfold arrive. split; simpl; rewrite ?app_nil_r; [done|done|by exists p]. }
  destruct (goroutines s !! i) as [[a|msg|X e k]|] eqn:Hi; try by (split; [done|done|by exists p]).
  destruct (exec X e l (memory s)) as [x m'| |msg] eqn:Hx;
    [|by split; [done|done|exists p]|by apply work_no_crash in Hx].
  pose proof (Forall_lookup_1 _ _ _ _ Hall Hi x) as Ht. split; simpl; [by destruct (k x)| |].
  - apply Forall_app. split; [by apply Forall_insert|apply started_total].
  - assert (0 < length (goroutines s))%nat as Hlen by (by eapply lookup_lt_Some).
    rewrite lookup_app_l by by rewrite length_insert. destruct (decide (i = 0)%nat) as [->|Hi0].
    + exists (k x). rewrite list_lookup_insert_eq by done. split; [done|]. simplify_eq. by destruct Hcalm as [_ Hk].
    + exists p. by rewrite list_lookup_insert_ne.
Qed.

Lemma play_running evs s : running s -> running (play evs s).
Proof. revert s; induction evs as [|ev evs IH]; intros s Hs; [done|]. by apply IH, step_running. Qed.

Lemma play_over n evs (s : pool) : over n (memory s) -> over n (memory (play evs s)).
Proof.
  revert s; induction evs as [|ev evs IH]; intros s Hs; [done|]. apply IH. unfold go_step.
  destruct (crash s); [done|]. destruct ev as [i l|a].
  - destruct (goroutines s !! i) as [[a|msg|X e k]|]; try done.
    destruct (exec X e l (memory s)) as [x m'| |msg] eqn:Hx; [|done|done]. by eapply exec_over.
  - pose proof (arrive_over n a (memory s) Hs). by destruct (arrive a (memory s)).
Qed.

(** [main] runs to its end. *)
Lemma calm_returns l p (s : pool) :
  crash s = None -> goroutines s !! 0%nat = Some p -> calm p -> closed (memory s) = true -> killed (memory s) = false ->
  exists k, crash (play (replicate k (Run 0 l)) s) = None /\
    goroutines (play (replicate k (Run 0 l)) s) !! 0%nat = Some (Ret tt).
Proof.
  revert s; induction p as [[]|msg|X e k IH]; intros s Hc Hg Hp Hcl Hk; [by exists 0%nat|done|].
  destruct (calm_answered e k l (memory s) Hp Hcl Hk) as (x & m1 & Hx & Hcl1 & Hk1). destruct Hp as [_ Hp].
  assert (go_step exec started arrive (Run 0 l) s =
    GPool (<[0%nat := k x]> (goroutines s) ++ started X e)%list m1 None) as Hstep.
  { apply go_step_run; [done..|]. intros msg E. specialize (Hp x). by rewrite E in Hp. }
  destruct (IH x (go_step exec started arrive (Run 0 l) s)) as [n Hn]; [by rewrite Hstep| |done|by rewrite Hstep..|by exists (S n)].
  rewrite Hstep. simpl. assert (0 < length (goroutines s))%nat by (by eapply lookup_lt_Some).
  rewrite lookup_app_l by by rewrite length_insert. by apply list_lookup_insert_eq.
Qed.

Lemma signal_closes l (s : pool) :
  crash s = None -> goroutines s !! 1%nat = Some stop_on_signal -> signalled (memory s) = true -> killed (memory s) = false ->
  let s' := play [Run 1 l; Run 1 l; Arrive CancelOk] s in
  closed (memory s') = true /\ killed (memory s') = false.
Proof.
  intros Hc Hg Hs Hk. assert (1 < length (goroutines s))%nat as Hlen by (by eapply lookup_lt_Some).
  assert (exec _ AwaitSignal l (memory s) = Answer tt (set_signalled false (memory s))) as H1
    by (unfold Shutdown.exec; by rewrite Hk, Hs).
  assert (exec _ (SendCancel Subscriber.consumerTag) l (set_signalled false (memory s)) =
    Answer tt (set_cancelling (set_signalled false (memory s)))) as H2 by (unfold Shutdown.exec; simpl; by rewrite Hk).
  unfold play, Goroutines.play. cbn [fold_left].
  rewrite (go_step_run _ _ _ 1 l _ _ _ _ s Hc Hg H1) by done.
  erewrite (go_step_run _ _ _ 1 l); [|done|simpl; rewrite app_nil_r; by apply list_lookup_insert_eq|exact H2|done].
  done.
Qed.
End Facts.

(** C32. The notification worker stops.  Whatever has happened since its start (messages,
    failures, signals, in every interleaving): when the goroutine that waits for a
    signal has got one, its cancellation and the broker's answer end the deliveries;
    and once they have ended, that way or because the connection is lost, [main] takes
    at most one more message, whatever else happens, and returns as soon as it is given
    the processor, whatever the stores and the mail provider then answer. *)
Theorem worker_stops {L : Type} (answers : forall X : Type, notifyE X -> L -> X) prefers_ctx answer_error
    demo MaxAttempts base decode_error n (evs : list (event L arrival)) :
  let play := play answers prefers_ctx answer_error in
  let s := play evs (GPool [work demo MaxAttempts base decode_error n] launched None) in
  killed (memory s) = false ->
  (goroutines s !! 1%nat = Some stop_on_signal -> signalled (memory s) = true -> forall l,
     let s' := play [Run 1 l; Run 1 l; Arrive CancelOk] s in
     closed (memory s') = true /\ killed (memory s') = false) /\
  (closed (memory s) = true ->
     (forall evs', (taken (memory (play evs' s)) <= S (taken (memory s)))%nat) /\
     (forall l, exists k, let s' := play (replicate k (Run 0 l)) s in
        crash s' = None /\ goroutines s' !! 0%nat = Some (Ret tt))).
Proof.
  intros play s Hk.
  assert (running s) as [Hc _ (p & Hp & Hcalm)].
  { apply play_running. split; [done| |].
    - constructor; [|constructor]. intros []. apply total_lift, consume_total.
    - eexists. split; [done|]. split; [done|]. intros []. apply calm_lift, consume_total. }
  split; [intros; by apply signal_closes|]. intros Hcl. split.
  - intros evs'. destruct (play_over answers prefers_ctx answer_error (deliveries (memory s)) evs' s) as [_ Hn]; [by split|].
    unfold deliveries in *. fold play in Hn. destruct (buffer (memory s)), (buffer (memory (play evs' s))); lia.
  - intros l. by apply (calm_returns answers prefers_ctx answer_error l p).
Qed.

(** A worker that fails one message and is told to stop while it waits. *)
Definition sample_play (evs : list (event bool arrival)) (s : gpool workE process unit) : gpool workE process unit :=
  play (fun X e => match e in notifyE X return bool -> X with
        | SelectProcessed _ => fun _ => Some sql_ErrNoRows
        | NRedisGet _ => fun _ => ("", Some redis_Nil)
        | InsertProcessed _ | NRedisSet _ _ | SendPaymentReceipt _ | After _ => fun fails => if fails then Some nmem_error else None
        end) (fun b => b) (fun _ => None) evs s.
Definition sample_worker : gpool workE process unit := GPool [work "" 4 2000000000 sample_decode 3] launched None.

Definition signalled_worker : list (event bool arrival) :=
  ([Run 0 false; Run 1 false; Arrive (Deliver (Delivery 1 sample_payload))] ++ replicate 7 (Run 0 true) ++
   [Arrive Signal; Arrive Signal])%list.

Lemma worker_stops_witness :
  let s := sample_play signalled_worker sample_worker in
  closed (memory (sample_play [Run 1 true; Run 1 true; Arrive CancelOk] s)) = true /\
  exists k, crash (sample_play (replicate k (Run 0 true)) (sample_play [Arrive ConnectionLost] s)) = None /\
    goroutines (sample_play (replicate k (Run 0 true)) (sample_play [Arrive ConnectionLost] s)) !! 0%nat = Some (Ret tt).
Proof.
  split.
  - refine (proj1 (proj1 (worker_stops _ _ _ "" 4 2000000000 sample_decode 3 signalled_worker _) _ _ true));
      vm_compute; reflexivity.
  - refine (proj2 (proj2 (worker_stops _ _ _ "" 4 2000000000 sample_decode 3 (signalled_worker ++ [Arrive ConnectionLost])%list _) _) true);
      vm_compute; reflexivity.
Defined.

(** Until the broker answers the cancellation nothing stops the worker: it takes
    another message, and waits for more. *)
Example waits_for_the_broker :
  let s := sample_play (signalled_worker ++ replicate 20 (Run 0 false) ++ [Run 1 false; Run 1 false] ++
    [Arrive (Deliver (Delivery 2 sample_payload))] ++ replicate 20 (Run 0 false) ++ replicate 3 (Run 1 false))%list sample_worker in
  taken (memory s) = 2%nat /\ ctx_done (memory s) = false /\ cancelling (memory s) = true /\
  match goroutines s !! 0%nat with Some (Do _ _) => True | _ => False end.
Proof. vm_compute. done. Qed.
